(* ===== verification/_CoqProject ===== *)
-Q . S2P
Prelude.v
GoTime.v
Packer.v
Values.v
Temporal.v
TemporalFacts.v
Errors.v
Unpacker.v
Reading.v
Chunking.v
ChunkingFacts.v
Hydrator.v
Messages.v
HydratorFacts.v
SummaryFacts.v
Outgoing.v
OutgoingFacts.v
RoundTrip.v
EndToEnd.v
Encoding.v
EncodingFacts.v
StructureFacts.v
KeyCache.v
KeyCacheFacts.v
Encryption.v
KeyContracts.v
LocalKeys.v
EncryptionFacts.v
EncryptionExample.v
Pool.v
PoolClients.v
PoolSections.v
PoolFacts.v
PoolWaiting.v
Router.v
RouterFacts.v
RouterUpdates.v
Uuid.v
Retry.v
Bolt.v
BoltLogic.v
BoltSteps.v
BoltServer.v
BoltFacts.v
BoltLiveness.v
BoltStreams.v
BoltTransactions.v
Bolt3.v
Bolt3Facts.v
BoltWire.v
Handshake.v
Connector.v
ConnectorFacts.v
BoltTraces.v
Connection.v
HandshakeFacts.v
ReadAhead.v
ReadAheadFacts.v
Bookmarks.v
TokenManager.v
HomeDb.v
Session.v
SessionFacts.v
ResultFacts.v
SessionTraces.v
Bolt3Sessions.v
ResultSummary.v
Mapping.v
MappingNumbers.v
MappingFacts.v
MappingFill.v
Helpers.v
Driver.v
DriverQueries.v
DriverFacts.v
QueryTraces.v
