(* ===== verification/Prelude.v ===== *)
(** * The Neo4j Go driver: a verification development

    The driver speaks the Bolt protocol with a cluster of Neo4j servers.  A
    session borrows a connection from a pool, writes messages through it and
    reads the answers; in a cluster a router says which servers to borrow from,
    and a retry loop runs transaction functions again.  The sources are under
    src/neo4j.

    ** The parts and where they are modelled

    Wire format.
    - [GoTime]: what the driver uses of Go's time package, and zone resolution
      (internal/timezone/timezone.go).
    - [Packer], [Unpacker]: PackStream (internal/packstream).  The writer keeps
      its buffer and sticky error; the reader has the code's uint32 cursor, and a
      read outside the buffer is a panic.
    - [Values], [Errors]: the data types of dbtype, db and internal/db, the
      errors with their classification and wrapping (db/errors.go,
      internal/errorutil).
    - [Chunking]: framing of messages (internal/bolt/chunker.go, dechunker.go)
      with in-place headers and a reused buffer.
    - [Hydrator], [Messages]: decoding of values and of the server's messages
      (internal/bolt/hydrator.go, path.go, parseroutingtable.go, incoming.go).
    - [Outgoing]: encoding of any Go value and of every client message
      (internal/bolt/outgoing.go) and the flattening of user structs
      (internal/mapping/mapping.go, StructAsMap).
    - [Uuid], [Temporal]: the text forms of UUIDs, durations and vectors
      (dbtype/uuid.go, temporal.go, vector.go).

    Property encryption.
    - [Encoding]: the versioned encoding of property values and the structure of
      an encrypted value (internal/propertyencryption/scheme.go, encode.go,
      decode.go, structure.go).
    - [KeyCache]: the cache of keys and aliases (internal/propertyencryption/cache.go)
      with the linked list and the map that point into each other, and the
      specification [lru] it is held against.
    - [Encryption]: crypto.go and the package propertyencryption (encryption.go,
      errors.go, keys.go, profile.go).  AES-GCM is the class [AesGcm] with the laws
      [GcmLaws]; random bytes and the clock are the class [Host]; the repository and
      the service of the user are records of operations on a world.
    - [KeyContracts]: what the documentation demands of a service and of a
      repository, as the classes [Faithful] and [Store].
    - [LocalKeys]: local.go with the base64 it uses, an instance of [Faithful].
    - [EncryptionExample]: a cipher, a host and a repository that satisfy the
      classes, and runs of them.

    Connections.
    - [ReadAhead]: the socket below a connection (internal/bolt/connections.go) with
      the goroutine that reads ahead, its channels and the buffer it shares with the
      callers of Read, as a transition system.
    - [Connector]: dialling, TLS settings and the clean-up after a failure
      (internal/connector/connector.go), the providers of client certificates
      (auth/cert.go), and the lock that gives up with its context
      (internal/racing/lock.go).
    - [Handshake]: the negotiation of the version (internal/bolt/connect.go) and the
      races of reads and writes against the context (internal/racing).
    - [HomeDb]: the home database cache (internal/homedb/cache.go).
    - [TokenManager]: the managers of authentication tokens (auth/auth.go).
    - [Pool]: internal/pool.  Each section that runs under a lock is one
      definition on the state of the pool; servers are objects in a store since
      the code keeps pointers to them across sections.
    - [PoolClients]: Borrow and Return as state machines that run these sections
      one by one; a world is a pool with any number of clients, and [reachable]
      worlds are those any interleaving leads to, together with CleanUp, Close and
      the deactivation of servers.

    Routing and retries.
    - [Router]: internal/router.  Routing tables are shared objects whose lists
      are slices over arrays that are shortened in place.  Asking a router is an
      operation of the environment, which reports lost servers meanwhile.
    - [RouterUpdates]: the protocol by which concurrent calls share one read of a
      table, as a state machine.
    - [Retry]: internal/retry and the loop of session.go that uses it.

    The protocol.
    - [Bolt]: the state machines of bolt4.go, bolt5.go and bolt6.go with the
      message queue, its response handlers and the result streams
      (message_queue.go, stream.go, reauth.go, notifications.go, errors.go).  One
      definition per operation takes the version where the files agree; streams
      are objects in a store, handlers are data.  Packing, sending, receiving and
      the clock are operations of a [World].
    - [Bolt3]: the older state machine of bolt3.go, which sends and receives one
      message at a time and keeps one result open.
    - [BoltServer]: a server as the other end of a world: it answers the requests
      in order, ignores them after a failure, has results in batches, and records
      the queries of the transactions it commits.
    - [BoltWire]: the same with bytes: requests are packed by [Outgoing], framed by
      [Chunking] and answers read by [Messages].
    - [Connection]: internal/db/connection.go as a class, what [Next] promises as
      another, their instances for every version, and the definitions of bolt4.go
      and bolt6.go written out from those files, equal to the shared ones.

    Sessions.
    - [Bookmarks]: bookmarks.go, internal/collections/set.go, and the filter of
      session_bookmarks.go.
    - [Session]: session.go, transaction.go, result.go, session_bookmarks.go.
      Results, transactions and transaction states are objects that refer to each
      other by index; closures (hooks, error handlers, callbacks) are data.  Pool,
      router, home database cache, bookmark manager and clock are the class
      [Environment]; connections are the class of [Connection].

    The driver.
    - [ResultSummary]: resultsummary.go, internal/notifications/notifications.go and
      the helpers of result_helpers.go.
    - [Mapping]: filling of user structs from records, nodes and values
      (internal/mapping/mapping.go, mapping.go, graph.go, db/record.go).  Go types are
      data as reflection shows them, and a destination is a tree of settable values.
    - [Helpers]: the generic functions of transaction_helpers.go, the remaining
      helpers of result_helpers.go and the predicates of error.go.
    - [Driver]: NewDriver with what it reads of URL and configuration (driver.go,
      config.go, config/driver.go, auth_tokens.go, directrouter.go).
    - [DriverQueries]: the calls of the driver that use sessions of their own:
      NewSession, GetServerInfo, VerifyAuthentication, ExecuteQuery with its options
      and transformers, Close (driver.go).  A session takes the connections and the
      environment of the driver and hands them back.

    ** How code is modelled

    Integers are [Z], reduced to their width where the code converts or
    overflows.  Methods with a receiver are functions in the monad [GoM] of this
    file, with explicit results for a panic and for exhausted fuel.  A map whose
    order of iteration matters is a duplicate-free list ([gomap]), so that a
    statement about all such lists covers every order; other maps are [gmap].
    A Go value given by the user is the inductive type [goval] with the facts
    that reflection reveals.  Locks delimit the steps of the state machines.

    Recursion that is not structural runs on fuel: hydration on the number of
    bytes left, which [HydratorFacts.hydrate_settles] proves to be enough; packing
    on the height of the value ([OutgoingFacts.packX_total]); plans on the nesting
    depth ([SummaryFacts.parsePlan_equation]); framing on the number of chunks
    ([ChunkingFacts]); encrypted values on the number of bytes
    ([EncodingFacts.DecodeValue_total]); eviction on the number of entries
    ([KeyCacheFacts]).  Loops that read from a server run on fuel for the messages
    they may read: [BoltLiveness.reset_returns] and [BoltStreams.records_delivered]
    prove how much is enough, and [SessionTraces.query_collects] and
    [QueryTraces.execute_query_collects] that one more than the number of records is
    enough for [Collect] and for ExecuteQuery.

    ** What is proved

    - [EndToEnd.record_roundtrip]: values packed, chunked, sent, dechunked and
      hydrated come back as what they denote ([RoundTrip.denotes]).  [Reading] has
      the rules from which every decoder's round trip is composed, against the
      interface [UnpackHost] that the hydrator implements.
    - [HydratorFacts], [SummaryFacts]: hydration of arbitrary bytes always ends,
      and panics only for malformed paths; FAILURE and SUCCESS are complete.
    - [OutgoingFacts]: packing always ends, reports errors only through its
      callback, and the reflective fast path agrees with the general one.
    - [ChunkingFacts]: framing is lossless.
    - [EncodingFacts], [StructureFacts]: property values and encrypted structures
      survive encoding and decoding; the encoder refuses exactly what is no property
      and what PackStream has no room for ([encode_accepts]); decoding any bytes
      returns.
    - [KeyCacheFacts]: the cache refines a bounded list ordered by use; hits are
      fresh, and a value stays until it expires or enough others are used.
    - [EncryptionFacts]: whatever happens to caches, aliases and repository, an
      encrypted value decrypts to what was encrypted or its key is gone
      ([decrypt_encrypt]); additional data binds ([aad_binds]); no call panics and
      the caches agree with the repository ([encryption_invariant]); deleted keys
      are unusable.  All of it holds for any service and repository that keep the
      contracts of [KeyContracts].
    - [ReadAheadFacts]: by rule induction over all interleavings, [Read] returns the
      stream of the socket although one buffer is reused ([reads_in_order]); only the
      socket is waited for and [Close] ends every call and the goroutine
      ([close_ends_everything]); [peerAlive] is exact on an idle connection
      ([peer_alive_exact]), and what hides a close from it.
    - [ConnectorFacts]: every socket is handed over or closed, and with encryption on
      nothing is sent outside TLS ([sockets_accounted]); the lock excludes
      ([lock_excludes]).
    - [HandshakeFacts]: the driver selects the best common version and confirms it
      on the wire; a manifest that makes it panic.  [HomeDb]: the cache is bounded,
      forgets the entries used longest ago and separates users.
    - [PoolSections], [PoolFacts]: by rule induction over all interleavings, the
      pool respects its limit, every connection is in exactly one place, the
      server of a lent connection is present, and the tracker of server-side
      routing is exact; the bits of the penalty implement the documented order.
      [PoolWaiting]: wake-ups never block; but a failed connect wakes nobody
      ([failed_connect_strands_waiter]), and traces in which a waiter is stranded or
      a connection leaked by Close.
    - [RouterFacts]: discovery follows the documented order as long as the pool
      reports no server of a known table as lost ([discovery_order]), retries are
      bounded, times to live are respected; in-place removal, its effect on the
      discovery loop, and aliases.  [RouterUpdates]: no channel is closed twice and nobody
      waits without a reader.
    - [Retry], [Uuid]: after a commit in doubt the loop ends, it never panics and is
      bounded in dead connections; UUID texts are read back.  [TemporalFacts]:
      so are the texts of durations, by a reader of ISO 8601 ([duration_text]).
    - [MappingFacts]: properties go to the fields that Go's promotion rules select
      ([fields_resolved]).  [MappingNumbers]: numbers are assigned exactly or refused,
      and floats never go to integer fields ([numbers_exact]).  [MappingFill]: [As] ends, fills every selected field or names
      a property that does not fit ([as_fills]); types on which it does not end.
    - [BoltLogic] has a logic of triples for connections in any world that follows
      the protocol; [BoltSteps] proves each operation in it.  [BoltFacts]: after any
      calls every response reaches the handler of its request, and no call panics; in
      version 6 this is for worlds in which packing reports no unsupported feature.
      [BoltLiveness]: [Reset] returns, under the same condition.  [BoltStreams]: a query hands over its whole
      result, whatever the batches.  [BoltWire]: records that a peer packs and sends
      arrive as they are, over bytes.
      [BoltTraces]: what a failed connection reports; runs that show defects.
    - [Bolt3Facts]: version 3 refines independent cursors over the results
      ([queries_independent]); [Bolt3Sessions]: sessions over it collect the server's
      records.
    - [SessionFacts]: after any program of a client, with any environment, a session
      holds only the connection of its open transaction ([connections_returned]); a
      transaction function whose connection dies in the commit is not run again
      ([failed_commit_not_retried]).
    - [ResultFacts]: a result refines a cursor over a list, given a connection
      whose stream [yields] that list; [SessionTraces] proves that connections do
      and composes session, result, connection and server into one theorem
      ([query_collects]); it also shows when a bookmark is lost.
    - [Bookmarks]: the bookmark manager chains causally.  [TokenManager]: a manager
      keeps no token that has expired or was rejected, and asks its provider only when
      it has none ([tokens_current]).
    - [BoltTransactions]: a query in a transaction, from BEGIN to COMMIT, on a
      connection to the server of [BoltServer].
    - [DriverFacts]: a driver follows its URL and configuration
      ([driver_follows_url]), and its own calls leave no connection borrowed
      ([driver_calls_return]).  [QueryTraces]: ExecuteQuery from end to end, through
      driver, session, transaction, result, connection and server, with the
      transaction committed there ([execute_query_collects]).  [ResultSummary]: the statuses made up for older
      servers ([statuses_polyfilled]) and the counters.

    ** What is not modelled

    Logging (bolt_logging.go, package log) has no influence on results.  The test
    programs (testkit-backend, test-stress, benchmark, the fakes in testutil) are not
    part of the driver.  The text of points and times is made by the formatting of the
    standard library.  The network and TLS are the environment of [ReadAhead] and
    [Connector]; of contexts only the errors they cause enter.  A panic of a work
    function is not followed through the deferred return of its connection.  The key
    cache reads the clock once per call, where the code reads it once per entry;
    quoting by %q is modelled for printable text; the position that a base64 error
    names is left out; calls of an [Encryption] run one after another.  Allocations
    succeed, also those whose size a server chose. *)

From stdpp Require Export base option list strings pretty sets gmap.
From coqutil Require Export Byte LittleEndianList Datatypes.RecordSetters.
From Stdlib Require Export ZArith Lia.
Export TriangleBracketNotations.

(** * Scope and conventions *)

Declare Scope go_scope.
Delimit Scope go_scope with go.
#[local] Open Scope Z_scope.
#[local] Open Scope go_scope.

#[global] Instance byte_eq_decision : EqDecision byte := Byte.byte_eq_dec.

(** * Fixed-width integers

    A Go integer of width [w] is a [Z]; a conversion [uintw(x)] or [intw(x)]
    is the reduction written out here. *)

Definition uwrap (w z : Z) : Z := z mod 2 ^ w.
Definition swrap (w z : Z) : Z := (z + 2 ^ (w - 1)) mod 2 ^ w - 2 ^ (w - 1).

Abbreviation u8 := (uwrap 8).
Abbreviation u16 := (uwrap 16).
Abbreviation u32 := (uwrap 32).
Abbreviation u64 := (uwrap 64).
Abbreviation i8 := (swrap 8).
Abbreviation i16 := (swrap 16).
Abbreviation i32 := (swrap 32).
Abbreviation i64 := (swrap 64).

(** The values an unsigned or a signed integer of width [w] can take. *)
Definition unsigned (w z : Z) : Prop := 0 <= z < 2 ^ w.
Definition signed (w z : Z) : Prop := - 2 ^ (w - 1) <= z < 2 ^ (w - 1).

(** The conversion of an integer to a byte, [byte(x)]. *)
Abbreviation to_byte := byte.of_Z.
Abbreviation of_byte := byte.unsigned.

(** Go's [/] and [%] on signed integers truncate towards zero. *)
Abbreviation go_div := Z.quot.
Abbreviation go_rem := Z.rem.

(** * Big-endian integers ([encoding/binary]) *)

Definition be_bytes (n : nat) (z : Z) : list byte := reverse (le_split n z).
Definition be_value (l : list byte) : Z := le_combine (reverse l).

(** * Strings are byte sequences *)

Abbreviation bytes_of := String.list_byte_of_string.
Abbreviation string_of := String.string_of_list_byte.

(** * Results of a Go function body

    [Panic] is a run-time panic; [OutOfFuel] only appears in models of
    recursive code whose depth is bounded by an explicit fuel. *)

Inductive outcome (A : Type) : Type :=
| Done (a : A)
| Panic
| OutOfFuel.
Arguments Done {A} _.
Arguments Panic {A}.
Arguments OutOfFuel {A}.

(** Methods with a pointer receiver: state passing over the receiver. *)
Definition GoM (S A : Type) : Type := S → outcome (A * S).

#[global] Instance GoM_ret S : MRet (GoM S) := λ A a s, Done (a, s).
#[global] Instance GoM_bind S : MBind (GoM S) := λ A B k m s,
  match m s with
  | Done (a, s') => k a s'
  | Panic => Panic
  | OutOfFuel => OutOfFuel
  end.

#[global] Instance GoM_fmap S : FMap (GoM S) := λ A B f m, m ≫= λ a, mret (f a).

Definition go_panic {S A} : GoM S A := λ _, Panic.
Definition go_nofuel {S A} : GoM S A := λ _, OutOfFuel.
Definition go_get {S A} (f : S → A) : GoM S A := λ s, Done (f s, s).
Definition go_modify {S} (f : S → S) : GoM S unit := λ s, Done (tt, f s).
Definition go_lift {S A} (o : option A) : GoM S A := λ s,
  match o with Some a => Done (a, s) | None => Panic end.

(** [for i := n; i > 0; i--] around a body that adds one element to a slice. *)
Fixpoint go_repeat {S A} (n : nat) (body : GoM S A) : GoM S (list A) :=
  match n with
  | O => mret []
  | Datatypes.S n => x ← body; xs ← go_repeat n body; mret (x :: xs)
  end.

(** The same loop around a body that updates an accumulator. *)
Fixpoint go_loop {S A} (n : nat) (body : A → GoM S A) (a : A) : GoM S A :=
  match n with
  | O => mret a
  | Datatypes.S n => a' ← body a; go_loop n body a'
  end.

(** Method chaining on a receiver that is only updated: [p ▷ f ▷ g]. *)
Notation "p ▷ f" := (f p) (at level 66, left associativity, only parsing) : go_scope.

(** * Go maps with string keys

    A [map\[string\]V] is a duplicate-free association list: the order is one
    iteration order, which Go leaves open, so a statement about every
    duplicate-free list holds for every order the run time may choose. *)

Definition gomap (V : Type) : Type := list (string * V).

Section GoMap.
Context {V : Type}.
Implicit Types (m : gomap V) (k : string) (v : V).

Fixpoint map_get k m : option V :=
  match m with
  | [] => None
  | (k', v) :: m => if decide (k = k') then Some v else map_get k m
  end.

Fixpoint map_set k v m : gomap V :=
  match m with
  | [] => [(k, v)]
  | (k', v') :: m =>
      if decide (k = k') then (k, v) :: m else (k', v') :: map_set k v m
  end.

Definition map_delete k m : gomap V := List.filter (λ kv, negb (bool_decide (k = kv.1))) m.

Definition map_wf m : Prop := NoDup m.*1.
End GoMap.

(** * Hint databases and tactics *)

Create HintDb go discriminated.
Create Rewrite HintDb go_bytes.

(** Case analysis on the first test of the goal or of a hypothesis. *)
Ltac split_if :=
  match goal with
  | |- context [decide ?P] => destruct (decide P)
  | |- context [if ?b then _ else _] => destruct b eqn:?
  | H : context [decide ?P] |- _ => destruct (decide P)
  | H : context [if ?b then _ else _] |- _ => destruct b eqn:?
  end.

(** Turns boolean comparisons on [Z] into propositions. *)
Ltac zbool :=
  repeat match goal with
  | H : (_ <? _) = true |- _ => apply Z.ltb_lt in H
  | H : (_ <? _) = false |- _ => apply Z.ltb_ge in H
  | H : (_ <=? _) = true |- _ => apply Z.leb_le in H
  | H : (_ <=? _) = false |- _ => apply Z.leb_gt in H
  | H : (_ =? _) = true |- _ => apply Z.eqb_eq in H
  | H : (_ =? _) = false |- _ => apply Z.eqb_neq in H
  | H : (_ && _) = true |- _ => apply andb_true_iff in H as [? ?]
  | H : (_ || _) = false |- _ => apply orb_false_iff in H as [? ?]
  end.

(** Decides the integer comparisons of the goal that [lia] settles. *)
Ltac zdec :=
  rewrite ?Z.gtb_ltb, ?Z.geb_leb;
  repeat match goal with
  | |- context [?a <? ?b] =>
      first [ rewrite (proj2 (Z.ltb_lt a b)) by lia | rewrite (proj2 (Z.ltb_ge a b)) by lia ]
  | |- context [?a <=? ?b] =>
      first [ rewrite (proj2 (Z.leb_le a b)) by lia | rewrite (proj2 (Z.leb_gt a b)) by lia ]
  | |- context [?a =? ?b] =>
      first [ rewrite (proj2 (Z.eqb_eq a b)) by lia | rewrite (proj2 (Z.eqb_neq a b)) by lia ]
  end;
  cbn [andb orb negb].

(** Inversion of monadic equations [m ≫= k = Done _]. *)
Ltac go_inv H := unfold mbind, GoM_bind in H; repeat (case_match; simplify_eq H).

(** * Lemmas on machine integers *)

Lemma uwrap_small w z : unsigned w z → uwrap w z = z.
Proof. intros ?. by apply Z.mod_small. Qed.

Lemma swrap_small w z : 0 < w → signed w z → swrap w z = z.
Proof.
  unfold signed, swrap. intros Hw Hz.
  assert (2 ^ w = 2 * 2 ^ (w - 1)).
  { rewrite <- Z.pow_succ_r by lia. f_equal; lia. }
  rewrite Z.mod_small; lia.
Qed.

Lemma uwrap_range w z : 0 <= w → unsigned w (uwrap w z).
Proof. intros. apply Z.mod_pos_bound. lia. Qed.

Lemma swrap_range w z : 0 < w → signed w (swrap w z).
Proof.
  unfold signed, swrap. intros Hw.
  assert (2 ^ w = 2 * 2 ^ (w - 1)).
  { rewrite <- Z.pow_succ_r by lia. f_equal; lia. }
  assert (0 < 2 ^ (w - 1)) by lia.
  pose proof (Z.mod_pos_bound (z + 2 ^ (w - 1)) (2 ^ w)). lia.
Qed.

(** Sign extension undoes truncation: [intw(uintw(x)) = x]. *)
Lemma swrap_uwrap w z : 0 < w → swrap w (uwrap w z) = swrap w z.
Proof. intros. unfold swrap, uwrap. by rewrite Zplus_mod_idemp_l. Qed.


(** * Lemmas on big-endian integers *)

Lemma be_bytes_length n z : length (be_bytes n z) = n.
Proof. unfold be_bytes. by rewrite length_reverse, length_le_split. Qed.

Lemma be_value_bytes n z : be_value (be_bytes n z) = uwrap (Z.of_nat n * 8) z.
Proof.
  unfold be_value, be_bytes. rewrite reverse_involutive. apply le_combine_split.
Qed.

Lemma be_bytes_value l : be_bytes (length l) (be_value l) = l.
Proof.
  unfold be_value, be_bytes.
  rewrite <- (length_reverse l), split_le_combine. apply reverse_involutive.
Qed.

Lemma be_value_range l : unsigned (8 * Z.of_nat (length l)) (be_value l).
Proof. unfold be_value. rewrite <- (length_reverse l). apply le_combine_bound. Qed.

Lemma be_bytes_uwrap n z : be_bytes n (uwrap (Z.of_nat n * 8) z) = be_bytes n z.
Proof. unfold be_bytes, uwrap. by rewrite <- le_split_mod. Qed.

Lemma of_to_byte z : unsigned 8 z → of_byte (to_byte z) = z.
Proof. intros. rewrite byte.unsigned_of_Z. by apply Z.mod_small. Qed.

Lemma of_byte_range b : unsigned 8 (of_byte b).
Proof. apply byte.unsigned_range. Qed.

#[export] Hint Rewrite be_bytes_length be_value_bytes : go_bytes.
#[export] Hint Resolve uwrap_range swrap_range of_byte_range : go.

(** * Lemmas on strings *)

Lemma filter_all {A} (R : A → Prop) `{∀ x, Decision (R x)} l : Forall R l → filter R l = l.
Proof. induction 1; [done |]. rewrite filter_cons, decide_True by done. by f_equal. Qed.

Lemma filter_none {A} (R : A → Prop) `{∀ x, Decision (R x)} l : Forall (λ x, ¬ R x) l → filter R l = [].
Proof. induction 1; [done |]. by rewrite filter_cons_False. Qed.

Lemma string_of_bytes_of s : string_of (bytes_of s) = s.
Proof. apply String.string_of_list_byte_of_string. Qed.

Lemma bytes_of_string_of l : bytes_of (string_of l) = l.
Proof. apply String.list_byte_of_string_of_list_byte. Qed.

Lemma bytes_of_length s : length (bytes_of s) = String.length s.
Proof. induction s; simpl; [done | by f_equal]. Qed.

(** * Lemmas on Go maps *)

Section GoMapFacts.
Context {V : Type}.
Implicit Types (m : gomap V) (k : string) (v : V).

Lemma map_get_set k v m k' :
  map_get k' (map_set k v m) = if decide (k' = k) then Some v else map_get k' m.
Proof.
  induction m as [| [k0 v0] m IH]; simpl; repeat split_if; subst; simpl;
    repeat split_if; subst; try congruence.
  all: rewrite IH; split_if; congruence.
Qed.

Lemma map_get_elem k v m : map_get k m = Some v → (k, v) ∈ m.
Proof.
  induction m as [| [k0 v0] m IH]; simpl; [done |].
  split_if; intros; simplify_eq; [by left | right; auto].
Qed.

Lemma elem_of_map_set k v m k' v' :
  (k', v') ∈ map_set k v m → (k', v') = (k, v) ∨ (k', v') ∈ m.
Proof.
  induction m as [| [k0 v0] m IH]; simpl; [set_solver |].
  split_if; rewrite !elem_of_cons; naive_solver.
Qed.

Lemma map_set_fresh k v m : k ∉ m.*1 → map_set k v m = m ++ [(k, v)].
Proof.
  induction m as [| [k0 v0] m IH]; simpl; [done |].
  rewrite not_elem_of_cons. intros [? ?].
  rewrite decide_False by done. by rewrite IH.
Qed.

Lemma map_set_keys k v m k' : k' ∈ (map_set k v m).*1 ↔ k' = k ∨ k' ∈ m.*1.
Proof.
  induction m as [| [k0 v0] m IH]; simpl; [set_solver |].
  split_if; subst; simpl; set_solver.
Qed.

Lemma map_set_wf k v m : map_wf m → map_wf (map_set k v m).
Proof.
  unfold map_wf. induction m as [| [k0 v0] m IH]; simpl; intros Hwf.
  - apply NoDup_singleton.
  - apply NoDup_cons in Hwf as [Hk0 Hwf]. split_if; subst; simpl.
    + by apply NoDup_cons.
    + apply NoDup_cons. split; [| by apply IH].
      rewrite map_set_keys. naive_solver.
Qed.

(** Inserting the entries of a duplicate-free list one by one, in order,
    rebuilds the list. *)
Lemma map_set_all m acc :
  NoDup (acc ++ m).*1 →
  foldl (λ a kv, map_set kv.1 kv.2 a) acc m = acc ++ m.
Proof.
  revert acc. induction m as [| [k v] m IH]; intros acc Hnd; simpl.
  - by rewrite app_nil_r.
  - rewrite map_set_fresh.
    + rewrite IH; rewrite <- app_assoc; [done |]. exact Hnd.
    + rewrite fmap_app in Hnd. apply NoDup_app in Hnd as (_ & Hdisj & _).
      intros Hin. apply (Hdisj _ Hin). set_solver.
Qed.
End GoMapFacts.

#[export] Hint Resolve map_set_wf : go.

(** * Lemmas on the monad *)

Lemma go_repeat_length {S A} n (body : GoM S A) s xs s' :
  go_repeat n body s = Done (xs, s') → length xs = n.
Proof.
  revert s xs s'. induction n as [| n IH]; simpl; intros s xs s' H.
  - by inversion H.
  - unfold mbind, GoM_bind in H. destruct (body s) as [[x s1] | |]; try done.
    destruct (go_repeat n body s1) as [[ys s2] | |] eqn:E; try done.
    inversion H; subst. simpl. f_equal. eauto.
Qed.

(** The last step of a computation that ends in a result. *)
Lemma bind_Done {S A B} (m : GoM S A) (f : A → GoM S B) s b s' :
  (m ≫= f) s = Done (b, s') → ∃ a s1, m s = Done (a, s1) ∧ f a s1 = Done (b, s').
Proof. unfold mbind, GoM_bind. destruct (m s) as [[a s1] | |]; [eauto | done..]. Qed.

(** Opens the binds of a hypothesis [E : m s = Done _]. *)
Ltac open_binds E :=
  repeat match type of E with
  | (_ ≫= _) _ = Done _ => apply bind_Done in E as (? & ? & ? & E)
  | (mret _) _ = Done _ => injection E as <- <-
  end.

(** An invariant of the accumulator of a loop. *)
Lemma go_loop_inv {S A} (P : A → Prop) n (body : A → GoM S A) a s a' s' :
  (∀ a s a' s', P a → body a s = Done (a', s') → P a') →
  P a → go_loop n body a s = Done (a', s') → P a'.
Proof.
  intros Hb. revert a s. induction n as [| n IH]; simpl; intros a s Ha E.
  - by injection E as <- <-.
  - apply bind_Done in E as (a1 & s1 & E1 & E). eauto.
Qed.
