(* ===== verification/GoTime.v ===== *)
(** The part of Go's [time] package the driver uses: instants with a location,
    [time.Unix], [time.Date], zone lookup and calendar fields; and the driver's
    own zone resolution, neo4j/internal/timezone/timezone.go.

    The time zone database of the host is a parameter. *)

From S2P Require Import Prelude.
#[local] Open Scope Z_scope.

(** * Locations *)

Inductive location : Type :=
| LocUTC
| LocLocal
| LocFixed (name : string) (offset : Z)
| LocNamed (id : string).

#[global] Instance location_eq_dec : EqDecision location.
Proof. solve_decision. Defined.

(** [time.Time]: seconds since the Unix epoch, nanoseconds within the second,
    and the location used to present it. *)
Record Time : Type := mkTime { unix : Z; nsec : Z; loc : location }.

#[global] Instance Time_eq_dec : EqDecision Time.
Proof. solve_decision. Defined.

(** One period of constant offset, as [Location.lookup] reports it: the
    offset and the interval of Unix seconds in which it is in force. *)
Record zone_period : Type := mkPeriod { zp_offset : Z; zp_start : Z; zp_end : Z }.

(** The host's time zone configuration. *)
Class TzDb : Type := {
  tz_named : string → option (Z → zone_period);  (* time.LoadLocation *)
  tz_local : Z → zone_period                     (* time.Local *)
}.

Section Time.
Context `{TzDb}.

(** [lookup] on the omega/alpha bounds of a fixed zone. *)
Definition alpha : Z := - 2 ^ 63.
Definition omega : Z := 2 ^ 63 - 1.

Definition lookup (l : location) (sec : Z) : zone_period :=
  match l with
  | LocUTC => mkPeriod 0 alpha omega
  | LocLocal => tz_local sec
  | LocFixed _ o => mkPeriod o alpha omega
  | LocNamed id =>
      match tz_named id with
      | Some z => z sec
      | None => mkPeriod 0 alpha omega
      end
  end.

(** [_, offset := t.Zone()] *)
Definition zone_offset (t : Time) : Z := zp_offset (lookup (loc t) (unix t)).

(** [time.Unix(sec, nsec)] *)
Definition time_Unix (sec nsec : Z) : Time :=
  mkTime (sec + nsec / 1000000000) (nsec mod 1000000000) LocLocal.

Definition UTC (t : Time) : Time := mkTime (unix t) (nsec t) LocUTC.
Definition In_ (t : Time) (l : location) : Time := mkTime (unix t) (nsec t) l.
Definition FixedZone (name : string) (offset : Z) : location := LocFixed name offset.

(** Seconds of wall-clock time since 1970-01-01T00:00:00 on the wall clock. *)
Definition wall (t : Time) : Z := unix t + zone_offset t.

Definition Hour (t : Time) : Z := wall t mod 86400 / 3600.
Definition Minute (t : Time) : Z := wall t mod 3600 / 60.
Definition Second (t : Time) : Z := wall t mod 60.
Definition Nanosecond (t : Time) : Z := nsec t.

(** ** The proleptic Gregorian calendar *)

(** Days from 1970-01-01 to the given day; [month] and [day] need not be in
    their usual ranges. *)
Definition days_from_civil (year month day : Z) : Z :=
  let y := year + (month - 1) / 12 in
  let m := (month - 1) mod 12 + 1 in
  let y' := if m <=? 2 then y - 1 else y in
  let era := y' / 400 in
  let yoe := y' - era * 400 in
  let doy := (153 * (m + (if m >? 2 then -3 else 9)) + 2) / 5 + day - 1 in
  let doe := yoe * 365 + yoe / 4 - yoe / 100 + doy in
  era * 146097 + doe - 719468.

(** Year, month and day of the given number of days since 1970-01-01. *)
Definition civil_from_days (days : Z) : Z * Z * Z :=
  let z := days + 719468 in
  let era := z / 146097 in
  let doe := z mod 146097 in
  let yoe := (doe - doe / 1460 + doe / 36524 - doe / 146096) / 365 in
  let doy := doe - (365 * yoe + yoe / 4 - yoe / 100) in
  let mp := (5 * doy + 2) / 153 in
  let d := doy - (153 * mp + 2) / 5 + 1 in
  let m := mp + (if mp <? 10 then 3 else -9) in
  (yoe + era * 400 + (if m <=? 2 then 1 else 0), m, d).

Definition Year (t : Time) : Z := (civil_from_days (wall t / 86400)).1.1.
Definition Month (t : Time) : Z := (civil_from_days (wall t / 86400)).1.2.
Definition Day (t : Time) : Z := (civil_from_days (wall t / 86400)).2.

(** [time.Date]: the instant at which the wall clock of [l] shows the given
    fields, which are normalised first. *)
Definition time_Date (year month day hour min sec ns : Z) (l : location) : Time :=
  let sec := sec + ns / 1000000000 in
  let ns := ns mod 1000000000 in
  let w := days_from_civil year month day * 86400 + hour * 3600 + min * 60 + sec in
  let p := lookup l w in
  let o :=
    if zp_offset p =? 0 then 0
    else
      let utc := w - zp_offset p in
      if (utc <? zp_start p) || (zp_end p <=? utc) then zp_offset (lookup l utc)
      else zp_offset p in
  mkTime (w - o) ns l.

(** [t.Location().String()] *)
Definition location_String (l : location) : string :=
  match l with
  | LocUTC => "UTC"
  | LocLocal => "Local"
  | LocFixed name _ => name
  | LocNamed id => id
  end.

(** [time.LoadLocation] *)
Definition LoadLocation (id : string) : option location :=
  if decide (id = "" ∨ id = "UTC") then Some LocUTC
  else if decide (id = "Local") then Some LocLocal
  else match tz_named id with Some _ => Some (LocNamed id) | None => None end.

(** ** Facts *)

Lemma year_of_era_bounds doe :
  0 <= doe < 146097 →
  let yoe := (doe - doe / 1460 + doe / 36524 - doe / 146096) / 365 in
  let doy := doe - (365 * yoe + yoe / 4 - yoe / 100) in
  0 <= yoe <= 399 ∧ 0 <= doy <= 365.
Proof. intros Hd. cbv zeta. Z.to_euclidean_division_equations; lia. Qed.

(** Turning days into a date and back is the identity. *)
Lemma days_civil_roundtrip z :
  let '(y, m, d) := civil_from_days z in days_from_civil y m d = z.
Proof.
  unfold civil_from_days. cbv zeta.
  set (doe := (z + 719468) mod 146097). set (era := (z + 719468) / 146097).
  pose proof (year_of_era_bounds doe ltac:(apply Z.mod_pos_bound; lia)) as [Hy Hd].
  cbv zeta in Hy, Hd. revert Hy Hd.
  set (yoe := (doe - doe / 1460 + doe / 36524 - doe / 146096) / 365).
  set (doy := doe - (365 * yoe + yoe / 4 - yoe / 100)). intros Hy Hd.
  assert (Hz : z + 719468 = 146097 * era + doe) by (apply Z.div_mod; lia).
  set (mp := (5 * doy + 2) / 153).
  assert (Hmp : 0 <= mp <= 11).
  { unfold mp. split; [apply Z.div_pos; lia |].
    apply Z.lt_succ_r, Z.div_lt_upper_bound; lia. }
  assert (Hera : ∀ y', y' = yoe + era * 400 → y' / 400 = era ∧ y' - era * 400 = yoe).
  { intros y' ->. rewrite Z.div_add, Z.div_small by lia. lia. }
  unfold days_from_civil.
  destruct (Z.ltb_spec mp 10) as [Hlt | Hge].
  - replace ((mp + 3 - 1) / 12) with 0 by (symmetry; apply Z.div_small; lia).
    rewrite (Z.mod_small (mp + 3 - 1)) by lia. zdec.
    destruct (Hera (yoe + era * 400 + 0 + 0)) as [-> ->]; [lia |].
    replace (mp + 3 - 1 + 1 + -3) with mp by lia. lia.
  - replace ((mp + -9 - 1) / 12) with 0 by (symmetry; apply Z.div_small; lia).
    rewrite (Z.mod_small (mp + -9 - 1)) by lia. zdec.
    destruct (Hera (yoe + era * 400 + 1 + 0 - 1)) as [-> ->]; [lia |].
    replace (mp + -9 - 1 + 1 + 9) with mp by lia. lia.
Qed.
End Time.

(** A host without zone files whose local time is UTC, for examples. *)
Definition utc_host : TzDb := {|
  tz_named _ := None;
  tz_local _ := mkPeriod 0 alpha omega
|}.

(** * Zone resolution (timezone.go) *)

Module Timezone.
Section Timezone.
Context `{TzDb}.

(** The error values: the two refused names, and what [time.LoadLocation]
    reports. *)
Inductive zoneError : Type := errEmptyZone | errLocalZone | errUnknownZone (id : string).

Definition quote : string := String.String (Ascii.ascii_of_nat 34) "".

Definition zoneError_Error (e : zoneError) : string :=
  match e with
  | errEmptyZone => "unknown time zone " +:+ quote +:+ quote
  | errLocalZone => "unknown time zone " +:+ quote +:+ "Local" +:+ quote
  | errUnknownZone id => "unknown time zone " +:+ id
  end.

(** The package-level cache of lookups. *)
Definition known : Type := gomap (location + zoneError).

Definition load_location (id : string) : location + zoneError :=
  match LoadLocation id with
  | Some l => inl l
  | None => inr (errUnknownZone id)
  end.

Definition Load (id : string) (k : known) : (location + zoneError) * known :=
  if decide (id = "") then (inr errEmptyZone, k)
  else if decide (id = "Local") then (inr errLocalZone, k)
  else
    match map_get id k with
    | Some r => (r, k)
    | None => let r := load_location id in (r, map_set id r k)
    end.

Definition ID (t : Time) (k : known) : option string * known :=
  let id := location_String (loc t) in
  match Load id k with
  | (inr _, k) => (None, k)
  | (inl zone, k) =>
      if decide (zone_offset (In_ t zone) = zone_offset t) then (Some id, k) else (None, k)
  end.

(** ** The cache is transparent *)

(** Every cached entry is what a fresh lookup would give. *)
Definition consistent (k : known) : Prop :=
  ∀ id r, map_get id k = Some r → r = load_location id.

(** [Load] without the cache. *)
Definition load (id : string) : location + zoneError := (Load id []).1.

Lemma Load_consistent id k : consistent k → consistent (Load id k).2.
Proof.
  intros Hk. unfold Load. repeat (split_if; [done |]). destruct (map_get id k) eqn:E; [done |].
  simpl. intros id' r. rewrite map_get_set. split_if; [by intros [= <-]; subst |]. apply Hk.
Qed.

Lemma Load_cached id k : consistent k → (Load id k).1 = load id.
Proof.
  intros Hk. unfold load, Load. repeat (split_if; [done |]). simpl.
  destruct (map_get id k) eqn:E; simpl; [by apply Hk | done].
Qed.

(** [ID] without the cache. *)
Definition id_of (t : Time) : option string := (ID t []).1.

Lemma ID_cached t k : consistent k → (ID t k).1 = id_of t ∧ consistent (ID t k).2.
Proof.
  intros Hk. unfold id_of, ID.
  pose proof (Load_cached (location_String (loc t)) k Hk) as E1.
  pose proof (Load_consistent (location_String (loc t)) k Hk) as E2.
  unfold load in E1.
  destruct (Load _ k) as [[l | e] k1], (Load _ []) as [[l' | e'] k2]; simpl in *; simplify_eq;
    [| done]. by split_if.
Qed.
End Timezone.
End Timezone.
