(* ===== verification/Packer.v ===== *)
(** PackStream serialization: the [Packer] of
    neo4j/internal/packstream/packer.go, its error types (errors.go), and the
    byte sequences the operations append. *)

From S2P Require Import Prelude.
#[local] Open Scope Z_scope.
#[local] Open Scope go_scope.

(** The error types of the package. *)
Inductive packError : Type :=
| OverflowError (msg : string)
| IoError
| UnpackError (msg : string).

(** [Error()] of each of them. *)
Definition packError_Error (e : packError) : string :=
  match e with
  | OverflowError msg => msg
  | IoError => "IO error"
  | UnpackError msg => msg
  end.

#[global] Instance packError_eq_dec : EqDecision packError.
Proof. solve_decision. Defined.

Module Packer.

(** [buf] holds the bytes written so far; the slice's capacity, which only
    decides when a write reallocates, is not represented. *)
Record Packer : Type := mkPacker { buf : list byte; err : option packError }.

Definition Begin (b : list byte) (p : Packer) : Packer := mkPacker b None.

Definition End_ (p : Packer) : list byte * option packError := (buf p, err p).

Definition setErr (e : packError) (p : Packer) : Packer :=
  match err p with
  | None => mkPacker (buf p) (Some e)
  | Some _ => p
  end.

(** [p.err = e] *)
Definition overwriteErr (e : packError) (p : Packer) : Packer :=
  mkPacker (buf p) (Some e).

(** [p.buf = append(p.buf, bs...)] *)
Definition emit (bs : list byte) (p : Packer) : Packer :=
  mkPacker (buf p ++ bs) (err p).

Definition StructHeader (tag : byte) (num : Z) (p : Packer) : Packer :=
  if num >? 0x0f
  then setErr (OverflowError "Trying to pack struct with too many fields") p
  else emit [to_byte (0xb0 + num); tag] p.

Definition Int64 (i : Z) (p : Packer) : Packer :=
  if (-0x10 <=? i) && (i <? 0x80) then emit [to_byte i] p
  else if (-0x80 <=? i) && (i <? -0x10) then emit [Byte.xc8; to_byte i] p
  else if (-0x8000 <=? i) && (i <? 0x8000) then
    emit (Byte.xc9 :: be_bytes 2 (u16 i)) p
  else if (-0x80000000 <=? i) && (i <? 0x80000000) then
    emit (Byte.xca :: be_bytes 4 (u32 i)) p
  else emit (Byte.xcb :: be_bytes 8 (u64 i)) p.

Definition Int32 (i : Z) : Packer → Packer := Int64 i.
Definition Int16 (i : Z) : Packer → Packer := Int64 i.
Definition Int8 (i : Z) : Packer → Packer := Int64 i.
Definition Int (i : Z) : Packer → Packer := Int64 i.

Definition checkOverflowInt (i : Z) (p : Packer) : Packer :=
  if i >? 0x7fffffffffffffff
  then overwriteErr (OverflowError "Trying to pack uint64 that doesn't fit into int64") p
  else p.

Definition Uint64 (i : Z) (p : Packer) : Packer :=
  p ▷ checkOverflowInt i ▷ Int64 (i64 i).
Definition Uint32 (i : Z) : Packer → Packer := Int64 i.
Definition Uint16 (i : Z) : Packer → Packer := Int64 i.
Definition Uint8 (i : Z) : Packer → Packer := Int64 i.

(** A [float64] is represented by its IEEE 754 bit pattern
    ([math.Float64bits]). *)
Definition Float64 (bits : Z) (p : Packer) : Packer :=
  emit (Byte.xc1 :: be_bytes 8 bits) p.

(** The conversion [float64(f)] of a [float32] bit pattern: the sign moves to
    bit 63, the exponent is rebiased, a subnormal is normalised and a
    signalling NaN becomes quiet. *)
Definition float64_of_float32 (bits : Z) : Z :=
  let s := Z.shiftl (Z.shiftr bits 31) 63 in
  let e := Z.land (Z.shiftr bits 23) 0xff in
  let m := Z.land bits 0x7fffff in
  if e =? 0xff then
    Z.lor s (Z.lor (Z.shiftl 0x7ff 52)
      (if m =? 0 then 0 else Z.lor (Z.shiftl 1 51) (Z.shiftl m 29)))
  else if e =? 0 then
    if m =? 0 then s
    else
      let k := Z.log2 m in
      Z.lor s (Z.lor (Z.shiftl (k + 874) 52) (Z.shiftl (Z.ldiff m (Z.shiftl 1 k)) (52 - k)))
  else Z.lor s (Z.lor (Z.shiftl (e + 896) 52) (Z.shiftl m 29)).

Definition Float32 (bits : Z) : Packer → Packer := Float64 (float64_of_float32 bits).

Definition listHeader (ll : Z) (shortOffset longOffset : Z) (p : Packer) : Packer :=
  if ll <? 0x10 then emit [to_byte (shortOffset + ll)] p
  else if ll <? 0x100 then emit [to_byte longOffset; to_byte ll] p
  else if ll <? 0x10000 then
    emit (to_byte (longOffset + 1) :: be_bytes 2 (u16 ll)) p
  else if ll <? 0xffffffff then
    emit (to_byte (longOffset + 2) :: be_bytes 4 (u32 ll)) p
  else overwriteErr
         (OverflowError ("Trying to pack too large list of size " +:+ pretty ll +:+ " ")) p.

(** [len] of a string and of a slice. *)
Definition strlen (s : string) : Z := Z.of_nat (String.length s).
Definition len {A} (l : list A) : Z := Z.of_nat (length l).

Definition String (s : string) (p : Packer) : Packer :=
  p ▷ listHeader (strlen s) 0x80 0xd0 ▷ emit (bytes_of s).

(** [for _, x := range xs { f(x) }] *)
Definition range_over {A} (f : A → Packer → Packer) (xs : list A) (p : Packer) : Packer :=
  foldl (λ p x, f x p) p xs.

Definition Strings (ss : list string) (p : Packer) : Packer :=
  p ▷ listHeader (len ss) 0x90 0xd4 ▷ range_over String ss.
Definition Ints (ii : list Z) (p : Packer) : Packer :=
  p ▷ listHeader (len ii) 0x90 0xd4 ▷ range_over Int ii.
Definition Int64s (ii : list Z) (p : Packer) : Packer :=
  p ▷ listHeader (len ii) 0x90 0xd4 ▷ range_over Int64 ii.
Definition Float64s (ii : list Z) (p : Packer) : Packer :=
  p ▷ listHeader (len ii) 0x90 0xd4 ▷ range_over Float64 ii.
Definition ArrayHeader (l : Z) : Packer → Packer := listHeader l 0x90 0xd4.
Definition MapHeader (l : Z) : Packer → Packer := listHeader l 0xa0 0xd8.

Definition bytesHeader (l : Z) (p : Packer) : option packError * Packer :=
  if l <? 0x100 then (None, emit [Byte.xcc; to_byte l] p)
  else if l <? 0x10000 then (None, emit (Byte.xcd :: be_bytes 2 (u16 l)) p)
  else if l <? 0x100000000 then (None, emit (Byte.xce :: be_bytes 4 (u32 l)) p)
  else (Some (OverflowError ("Trying to pack too large byte array of size " +:+ pretty l)), p).

Definition Bytes (b : list byte) (p : Packer) : Packer :=
  match bytesHeader (len b) p with
  | (Some e, p) => overwriteErr e p
  | (None, p) => emit b p
  end.

(** The optimised map writers: one header, then the entries in iteration
    order. *)
Definition entries_over {V} (f : V → Packer → Packer) (m : gomap V) (p : Packer) : Packer :=
  p ▷ listHeader (len m) 0xa0 0xd8 ▷ range_over (λ kv p, p ▷ String kv.1 ▷ f kv.2) m.

Definition BytesMap (m : gomap (list byte)) : Packer → Packer := entries_over Bytes m.
Definition IntMap (m : gomap Z) : Packer → Packer := entries_over Int m.
Definition Int64Map (m : gomap Z) : Packer → Packer := entries_over Int64 m.
Definition StringMap (m : gomap string) : Packer → Packer := entries_over String m.
Definition Float64Map (m : gomap Z) : Packer → Packer := entries_over Float64 m.

Definition Bool (b : bool) (p : Packer) : Packer :=
  if b then emit [Byte.xc3] p else emit [Byte.xc2] p.

Definition Nil (p : Packer) : Packer := emit [Byte.xc0] p.

Definition UUID (u : list byte) (p : Packer) : Packer :=
  p ▷ emit [Byte.xe0] ▷ emit u.

(** The header of a vector's element bytes.  The rest of the function grows
    the capacity of [p.buf] and leaves its contents alone. *)
Definition prepareVectorData (totalSize : Z) (p : Packer) : option packError * Packer :=
  match bytesHeader totalSize p with
  | (Some e, p) => (Some e, overwriteErr e p)
  | (None, p) => (None, p)
  end.

(** The six [Vector*] methods share one shape: the structure header, the
    one-byte type marker, then the elements at a fixed width. *)
Definition vector_body (marker : byte) (width : nat) (vec : list Z) (p : Packer) : Packer :=
  let p := p ▷ StructHeader Byte.x56 2 ▷ Bytes [marker] in
  match vec with
  | [] => Bytes [] p
  | _ =>
      match prepareVectorData (len vec * Z.of_nat width) p with
      | (Some _, p) => p
      | (None, p) => range_over (λ v p, emit (be_bytes width v) p) vec p
      end
  end.

Definition VectorFloat64 (vec : list Z) : Packer → Packer := vector_body Byte.xc1 8 vec.
Definition VectorFloat32 (vec : list Z) : Packer → Packer := vector_body Byte.xc6 4 vec.
Definition VectorInt8 (vec : list Z) : Packer → Packer := vector_body Byte.xc8 1 vec.
Definition VectorInt16 (vec : list Z) : Packer → Packer := vector_body Byte.xc9 2 vec.
Definition VectorInt32 (vec : list Z) : Packer → Packer := vector_body Byte.xca 4 vec.
Definition VectorInt64 (vec : list Z) : Packer → Packer := vector_body Byte.xcb 8 vec.

End Packer.
