(* ===== verification/Values.v ===== *)
(** The values the driver exchanges with its users: property values, graph
    entities, temporal and spatial types (neo4j/dbtype), and the summary data
    of a query (neo4j/internal/db/summary.go, connection.go). *)

From S2P Require Import Prelude GoTime.
#[local] Open Scope Z_scope.

(** * Graph entities (dbtype/graph.go, bolt/path.go) *)

Record Node (V : Type) : Type := mkNode {
  node_Id : Z;
  node_ElementId : string;
  node_Labels : list string;
  node_Props : gomap V
}.
Arguments mkNode {V}.
Arguments node_Id {V}.
Arguments node_ElementId {V}.
Arguments node_Labels {V}.
Arguments node_Props {V}.

Record Relationship (V : Type) : Type := mkRelationship {
  rel_Id : Z;
  rel_ElementId : string;
  rel_StartId : Z;
  rel_StartElementId : string;
  rel_EndId : Z;
  rel_EndElementId : string;
  rel_Type : string;
  rel_Props : gomap V
}.
Arguments mkRelationship {V}.
Arguments rel_Id {V}.
Arguments rel_ElementId {V}.
Arguments rel_StartId {V}.
Arguments rel_StartElementId {V}.
Arguments rel_EndId {V}.
Arguments rel_EndElementId {V}.
Arguments rel_Type {V}.
Arguments rel_Props {V}.

(** A relationship inside a path, not yet tied to its end nodes. *)
Record relNode (V : Type) : Type := mkRelNode {
  reln_id : Z;
  reln_elementId : string;
  reln_name : string;
  reln_props : gomap V
}.
Arguments mkRelNode {V}.
Arguments reln_id {V}.
Arguments reln_elementId {V}.
Arguments reln_name {V}.
Arguments reln_props {V}.

Record Path (V : Type) : Type := mkPath {
  path_Nodes : list (Node V);
  path_Relationships : list (Relationship V)
}.
Arguments mkPath {V}.
Arguments path_Nodes {V}.
Arguments path_Relationships {V}.

(** * Scalars with structure *)

(** [VectorElement]: the element type of a vector.  Elements are kept as
    integers, floats as their bit pattern. *)
Inductive vecType : Type := VecFloat64 | VecFloat32 | VecInt8 | VecInt16 | VecInt32 | VecInt64.

#[global] Instance vecType_eq_dec : EqDecision vecType.
Proof. solve_decision. Defined.

Record Point2D : Type := mkPoint2D { p2_X : Z; p2_Y : Z; p2_SpatialRefId : Z }.
Record Point3D : Type := mkPoint3D { p3_X : Z; p3_Y : Z; p3_Z : Z; p3_SpatialRefId : Z }.
Record Duration : Type := mkDuration { du_Months : Z; du_Days : Z; du_Seconds : Z; du_Nanos : Z }.

Record ProtocolVersion : Type := mkVersion { pv_Major : Z; pv_Minor : Z }.

Record UnsupportedType : Type := mkUnsupported {
  un_Name : string;
  un_MinimumProtocolVersion : ProtocolVersion;
  un_Message : option string
}.

(** * Values: what [any] can hold after hydration *)

Inductive value : Type :=
| VNil
| VBool (b : bool)
| VInt (i : Z)
| VFloat (bits : Z)
| VString (s : string)
| VBytes (b : list byte)
| VUUID (u : list byte)
| VList (l : list value)
| VMap (m : gomap value)
| VNode (n : Node value)
| VRelationship (r : Relationship value)
| VRelNode (r : relNode value)
| VPath (p : Path value)
| VPoint2D (p : Point2D)
| VPoint3D (p : Point3D)
| VVector (t : vecType) (elems : list Z)
| VDateTime (t : Time)          (* time.Time *)
| VLocalDateTime (t : Time)
| VDate (t : Time)
| VTime (t : Time)
| VLocalTime (t : Time)
| VDuration (d : Duration)
| VUnsupported (u : UnsupportedType)
| VInvalid (message err : string).  (* dbtype.InvalidValue *)

(** Type assertions [x.(T)] with the comma-ok form. *)
Definition as_string (v : value) : option string :=
  match v with VString s => Some s | _ => None end.
Definition as_int (v : value) : option Z :=
  match v with VInt i => Some i | _ => None end.
Definition as_float (v : value) : option Z :=
  match v with VFloat b => Some b | _ => None end.
Definition as_bool (v : value) : option bool :=
  match v with VBool b => Some b | _ => None end.
Definition as_list (v : value) : option (list value) :=
  match v with VList l => Some l | _ => None end.
Definition as_map (v : value) : option (gomap value) :=
  match v with VMap m => Some m | _ => None end.
Definition as_Node (v : value) : option (Node value) :=
  match v with VNode n => Some n | _ => None end.
Definition as_relNode (v : value) : option (relNode value) :=
  match v with VRelNode r => Some r | _ => None end.

(** [m\[k\].(T)]: indexing a missing key gives [nil], which has no type. *)
Definition get_as {A} (f : value → option A) (k : string) (m : gomap value) : option A :=
  map_get k m ≫= f.

(** [v, _ := x.(string)]: the zero value when the assertion fails. *)
Definition or_empty (o : option string) : string := default "" o.

(** * Query summaries *)

Inductive QueryType : Type :=
| QueryTypeUnknown | QueryTypeRead | QueryTypeReadWrite | QueryTypeWrite | QueryTypeSchemaWrite.

Inductive Plan : Type := mkPlan {
  plan_Operator : string;
  plan_Arguments : option (gomap value);
  plan_Identifiers : list string;
  plan_Children : list Plan
}.

Inductive Profile : Type := mkProfile {
  prof_Operator : string;
  prof_Arguments : option (gomap value);
  prof_Identifiers : list string;
  prof_DbHits : option Z;
  prof_Rows : option Z;
  prof_Children : list Profile;
  prof_PageCacheMisses : option Z;
  prof_PageCacheHits : option Z;
  prof_PageCacheHitRatio : option Z;
  prof_Time : option Z
}.

Record InputPosition : Type := mkPosition { pos_Offset : Z; pos_Line : Z; pos_Column : Z }.

Record Notification : Type := mkNotification {
  nt_Code : string;
  nt_Title : string;
  nt_Description : string;
  nt_Position : option InputPosition;
  nt_Severity : string;
  nt_Category : string
}.

Record GqlStatusObject : Type := mkGqlStatusObject {
  gs_Code : string;
  gs_Title : string;
  gs_Description : string;
  gs_GqlStatus : string;
  gs_StatusDescription : string;
  gs_Position : option InputPosition;
  gs_Classification : string;
  gs_Severity : string;
  gs_DiagnosticRecord : gomap value;
  gs_IsNotification : bool
}.

(** A routing table (internal/db/connection.go). *)
Record RoutingTable : Type := mkRoutingTable {
  rt_TimeToLive : Z;
  rt_DatabaseName : string;
  rt_Routers : list string;
  rt_Readers : list string;
  rt_Writers : list string
}.

#[global] Instance RoutingTable_eq_dec : EqDecision RoutingTable.
Proof. solve_decision. Defined.

Definition DefaultDatabase : string := "".

(** A record: the values of one row, with the keys the stream attaches. *)
Record Record_ : Type := mkRecord { rec_Values : list value; rec_Keys : list string }.

(** gql/diagnostic_record.go *)
Definition NewDefaultDiagnosticRecord : gomap value :=
  [("OPERATION", VString ""); ("OPERATION_CODE", VString "0"); ("CURRENT_SCHEMA", VString "/")].
