(* ===== verification/Temporal.v ===== *)
(** Durations as text: [Duration.String] of neo4j/dbtype/temporal.go, and its meaning
    as an ISO 8601 duration.

    [fmt.Append] writes integers in decimal and adds no space next to a string.
    Times are written by the [Format] of the standard library, which is not modelled. *)

From S2P Require Import Prelude Values.
From Stdlib Require Import DecimalString DecimalN Ascii.
#[local] Open Scope Z_scope.
#[local] Open Scope go_scope.

Module duration.

Definition second : Z := 1000000000.

(** [a / b] and [a % b] truncate towards zero. *)
Definition divMod (a b : Z) : Z * Z := (i64 (Z.quot a b), i64 (Z.rem a b)).

(** [int64(^(uint64(x)>>63 - 1) | 1)] *)
Definition sign (x : Z) : Z := i64 (Z.lor (Z.lxor (u64 (Z.shiftr (u64 x) 63 - 1)) (2 ^ 64 - 1)) 1).

(** An integer in decimal. *)
Definition decimal (n : Z) : string :=
  (if n <? 0 then "-" else "") +:+ NilEmpty.string_of_uint (N.to_uint (Z.to_N (Z.abs n))).

(** [fmt.Append(res, n, unit)] *)
Definition part (n : Z) (unit : string) : string := decimal n +:+ unit.
Definition part_if (n : Z) (unit : string) : string := if n =? 0 then "" else part n unit.

(** The last [k] decimal digits of [n]; [%09d] for [0 <= n < 10^9] is [digits 9 n]. *)
Fixpoint digits (k : nat) (n : Z) : list Z :=
  match k with
  | O => []
  | S k => n / 10 ^ Z.of_nat k :: digits k (n mod 10 ^ Z.of_nat k)
  end.

(** [strings.TrimRight(s, "0")] *)
Fixpoint trim_zeros (l : list Z) : list Z :=
  match l with
  | [] => []
  | d :: l => match trim_zeros l with [] => if d =? 0 then [] else [d] | l => d :: l end
  end.

Definition digit_char (d : Z) : ascii := ascii_of_N (48 + Z.to_N d).

(** [strings.TrimRight(fmt.Sprintf(".%09d", nanos), "0")] *)
Definition fraction (nanos : Z) : string :=
  String.String "." (foldr (λ d s, String.String (digit_char d) s) "" (trim_zeros (digits 9 nanos))).

(** Minutes and seconds of the same sign, from those of the seconds and of the
    nanoseconds. *)
Definition align (minutes seconds : Z) : Z * Z :=
  if (negb (minutes =? 0) && negb (seconds =? 0)) && negb (sign minutes =? sign seconds)
  then (i64 (minutes + sign seconds), i64 (seconds + i64 (60 * sign minutes)))
  else (minutes, seconds).

Definition seconds_text (seconds nanos : Z) : string :=
  if nanos <? 0 then
    if seconds <? 0 then decimal seconds +:+ fraction (i64 (- nanos)) +:+ "S"
    else if 0 <? seconds then
      decimal (i64 (seconds - 1)) +:+ fraction (i64 (second + nanos)) +:+ "S"
    else "-0" +:+ fraction (i64 (- nanos)) +:+ "S"
  else if 0 <? nanos then
    if seconds <? -1 then decimal (i64 (seconds + 1)) +:+ fraction (i64 (second - nanos)) +:+ "S"
    else if -1 <? seconds then decimal seconds +:+ fraction nanos +:+ "S"
    else "-0" +:+ fraction (i64 (second - nanos)) +:+ "S"
  else part_if seconds "S".

Definition time_text (d : Duration) : string :=
  let '(minutes1, seconds) := divMod (du_Seconds d) 60 in
  let '(secondsNanos, nanos) := divMod (du_Nanos d) second in
  let seconds := i64 (seconds + secondsNanos) in
  let '(minutes2, seconds) := divMod seconds 60 in
  let minutes := i64 (minutes1 + minutes2) in
  let '(minutes, seconds) := align minutes seconds in
  let '(hours, minutes) := divMod minutes 60 in
  part_if hours "H" +:+ part_if minutes "M" +:+ seconds_text seconds nanos.

Definition date_text (d : Duration) : string :=
  let '(years, months) := divMod (du_Months d) 12 in
  part_if years "Y" +:+ part_if months "M" +:+ part_if (du_Days d) "D".

Definition String_ (d : Duration) : string :=
  let hasTime := negb (Z.lor (du_Seconds d) (du_Nanos d) =? 0) in
  let hasDate := negb (Z.lor (du_Months d) (du_Days d) =? 0) in
  if negb hasTime && negb hasDate then "PT0S"
  else "P" +:+ (if hasDate then date_text d else "") +:+ (if hasTime then "T" +:+ time_text d else "").

Definition Equal (d1 d2 : Duration) : bool :=
  (du_Months d1 =? du_Months d2) && (du_Days d1 =? du_Days d2) && (du_Seconds d1 =? du_Seconds d2) &&
  (du_Nanos d1 =? du_Nanos d2).
End duration.

(** * Vectors (vector.go) *)

Module vector.
Section Vector.
(** [strconv.FormatFloat(f, format, precision, bitSize)] of a bit pattern, and
    [math.Trunc]. *)
Variable FormatFloat : Z → ascii → Z → Z → string.
Variable Trunc : Z → Z.
(** [==] of floats. *)
Variable float_eq : Z → Z → bool.

Definition PositiveInfinity : Z := 0x7FF0000000000000.
Definition NegativeInfinity : Z := 0xFFF0000000000000.

Definition isWholeNumber (f : Z) : bool := float_eq f (Trunc f).

Definition formatFloat (f bitSize : Z) : string :=
  if f =? PositiveInfinity then "Infinity"
  else if f =? NegativeInfinity then "-Infinity"
  else if isWholeNumber f then FormatFloat f "f" 1 bitSize
  else FormatFloat f "g" (-1) bitSize.

(** [widen] is the conversion of a [float32] to a [float64]. *)
Variable widen : Z → Z.

Definition formatElement (t : vecType) (e : Z) : string :=
  match t with
  | VecFloat32 => formatFloat (widen e) 32
  | VecFloat64 => formatFloat e 64
  | _ => duration.decimal e
  end.

Definition formatVectorData (t : vecType) (v : list Z) : string :=
  match v with
  | [] => ""
  | e :: v => formatElement t e +:+ foldr (λ e s, ", " +:+ formatElement t e +:+ s) "" v
  end.

Definition getVectorTypeString (t : vecType) : string :=
  match t with
  | VecInt8 => "INTEGER8 NOT NULL"
  | VecInt16 => "INTEGER16 NOT NULL"
  | VecInt32 => "INTEGER32 NOT NULL"
  | VecInt64 => "INTEGER NOT NULL"
  | VecFloat32 => "FLOAT32 NOT NULL"
  | VecFloat64 => "FLOAT NOT NULL"
  end.

Definition String_ (t : vecType) (elems : list Z) : string :=
  "vector([" +:+ formatVectorData t elems +:+ "], " +:+ duration.decimal (Z.of_nat (length elems)) +:+ ", " +:+
  getVectorTypeString t +:+ ")".
End Vector.
End vector.

Example vector_text :
  vector.String_ (λ _ _ _ _, "") id Z.eqb id VecInt8 [1; -2] = "vector([1, -2], 2, INTEGER8 NOT NULL)".
Proof. reflexivity. Qed.
