(* ===== verification/TemporalFacts.v ===== *)
(** What the text of a duration means: a reader of ISO 8601 durations, and that it
    reads what [Duration.String] writes as the duration. *)

From S2P Require Import Prelude Values Temporal.
From Stdlib Require Import Decimal DecimalString DecimalN DecimalPos Ascii.
Import duration.
#[local] Open Scope Z_scope.
#[local] Open Scope go_scope.

(** * A reader *)

(** The number in front of a unit: nothing yet, a sign and the digits so far, or a
    fraction in nanoseconds with the weight of its next digit. *)
Inductive numeral : Type :=
| NoNumber
| Whole (neg : bool) (n : option Z)
| Fraction (neg : bool) (n scale frac : Z).

(** [r_parts] counts the parts after the last [P] or [T]. *)
Record reader : Type := mkReader {
  r_time : bool;
  r_number : numeral;
  r_parts : nat;
  r_months : Z;
  r_days : Z;
  r_nanos : Z
}.

Definition signed_value (neg : bool) (n : Z) : Z := if neg then - n else n.

(** The end of a part: its unit and its value, the latter in units of 10^-9. *)
Definition add_months (n : Z) (r : reader) : reader :=
  mkReader (r_time r) NoNumber (S (r_parts r)) (r_months r + n) (r_days r) (r_nanos r).
Definition add_days (n : Z) (r : reader) : reader :=
  mkReader (r_time r) NoNumber (S (r_parts r)) (r_months r) (r_days r + n) (r_nanos r).
Definition add_nanos (n : Z) (r : reader) : reader :=
  mkReader (r_time r) NoNumber (S (r_parts r)) (r_months r) (r_days r) (r_nanos r + n).

Definition read_unit (c : ascii) (r : reader) : option reader :=
  match r_number r with
  | Whole neg (Some n) =>
      let n := signed_value neg n in
      match r_time r, c with
      | false, "Y"%char => Some (add_months (12 * n) r)
      | false, "M"%char => Some (add_months n r)
      | false, "D"%char => Some (add_days n r)
      | true, "H"%char => Some (add_nanos (3600 * second * n) r)
      | true, "M"%char => Some (add_nanos (60 * second * n) r)
      | true, "S"%char => Some (add_nanos (second * n) r)
      | _, _ => None
      end
  | Fraction neg n _ frac =>
      match r_time r, c with
      | true, "S"%char => Some (add_nanos (signed_value neg (second * n + frac)) r)
      | _, _ => None
      end
  | _ => None
  end.

Definition digit_of (c : ascii) : option Z :=
  let n := Z.of_N (N_of_ascii c) in if (48 <=? n) && (n <=? 57) then Some (n - 48) else None.

Definition with_number (x : numeral) (r : reader) : reader :=
  mkReader (r_time r) x (r_parts r) (r_months r) (r_days r) (r_nanos r).

Definition read_char (c : ascii) (r : reader) : option reader :=
  match digit_of c, r_number r with
  | Some d, NoNumber => Some (with_number (Whole false (Some d)) r)
  | Some d, Whole neg n => Some (with_number (Whole neg (Some (10 * default 0 n + d))) r)
  | Some d, Fraction neg n scale frac => Some (with_number (Fraction neg n (scale / 10) (frac + d * scale)) r)
  | None, x =>
      match c, x with
      | "-"%char, NoNumber => Some (with_number (Whole true None) r)
      | "."%char, Whole neg (Some n) => Some (with_number (Fraction neg n (10 ^ 8) 0) r)
      | "T"%char, NoNumber =>
          if r_time r then None else Some (mkReader true NoNumber 0 (r_months r) (r_days r) (r_nanos r))
      | c, _ => read_unit c r
      end
  end.

Fixpoint read_text (s : string) (r : reader) : option reader :=
  match s with
  | EmptyString => Some r
  | String.String c s => r ← read_char c r; read_text s r
  end.

(** Months, days and nanoseconds of an ISO 8601 duration.  A duration has a part, and
    so has its time. *)
Definition complete (r : reader) : option (Z * Z * Z) :=
  match r_number r, r_parts r with
  | NoNumber, S _ => Some (r_months r, r_days r, r_nanos r)
  | _, _ => None
  end.

Definition read_duration (s : string) : option (Z * Z * Z) :=
  match s with
  | String.String "P" s => read_text s (mkReader false NoNumber 0 0 0 0) ≫= complete
  | _ => None
  end.

Lemma read_P s : read_duration ("P" +:+ s) = read_text s (mkReader false NoNumber 0 0 0 0) ≫= complete.
Proof. done. Qed.

Lemma read_T s p m d n :
  read_text ("T" +:+ s) (mkReader false NoNumber p m d n) = read_text s (mkReader true NoNumber 0 m d n).
Proof. done. Qed.

Lemma read_app s1 s2 r : read_text (s1 +:+ s2) r = read_text s1 r ≫= read_text s2.
Proof.
  revert r. induction s1 as [| c s1 IH]; intros r; [done |]. simpl. destruct (read_char c r); [apply IH | done].
Qed.

(** * Integers *)

Fixpoint digits_value (n : option Z) (u : uint) : option Z :=
  let next d u := digits_value (Some (10 * default 0 n + d)) u in
  match u with
  | Nil => n
  | D0 u => next 0 u | D1 u => next 1 u | D2 u => next 2 u | D3 u => next 3 u | D4 u => next 4 u
  | D5 u => next 5 u | D6 u => next 6 u | D7 u => next 7 u | D8 u => next 8 u | D9 u => next 9 u
  end.

Lemma read_uint u neg n r :
  read_text (NilEmpty.string_of_uint u) (with_number (Whole neg n) r) = Some (with_number (Whole neg (digits_value n u)) r).
Proof. revert n. induction u; intros n; [done |..]; apply IHu. Qed.

Lemma digits_value_acc u p : digits_value (Some (Zpos p)) u = Some (Zpos (Pos.of_uint_acc u p)).
Proof.
  revert p. induction u; intros p; [done |..]; simpl digits_value; simpl Pos.of_uint_acc.
  all: rewrite <- IHu; do 2 f_equal; lia.
Qed.

Lemma digits_value_of u : u ≠ Nil → digits_value None u = Some (Z.of_N (N.of_uint u)).
Proof.
  assert (H0 : digits_value (Some 0) u = Some (Z.of_N (N.of_uint u))).
  { induction u; first [done | apply digits_value_acc]. }
  destruct u; intros Hn; first [done | apply digits_value_acc].
Qed.

Lemma to_uint_nonnil n : N.to_uint n ≠ Nil.
Proof. destruct n; [done | apply Unsigned.to_uint_nonnil]. Qed.

Lemma read_decimal n r :
  r_number r = NoNumber → read_text (decimal n) r = Some (with_number (Whole (n <? 0) (Some (Z.abs n))) r).
Proof.
  intros Hr. unfold decimal. rewrite read_app.
  assert (Hd : digits_value None (N.to_uint (Z.to_N (Z.abs n))) = Some (Z.abs n)).
  { rewrite digits_value_of, DecimalN.Unsigned.of_to by apply to_uint_nonnil. f_equal. lia. }
  destruct (n <? 0).
  - simpl read_text at 2. unfold read_char. simpl digit_of. rewrite Hr. simpl.
    by rewrite read_uint, Hd.
  - simpl. pose proof (to_uint_nonnil (Z.to_N (Z.abs n))) as Hn.
    rewrite <- Hd.
    destruct (N.to_uint (Z.to_N (Z.abs n))) as [| u | u | u | u | u | u | u | u | u | u]; [done |..];
      simpl; unfold read_char; simpl digit_of; rewrite Hr; simpl; apply (read_uint u false).
Qed.

(** * Fractions *)

Fixpoint fraction_value (scale : Z) (l : list Z) : Z :=
  match l with [] => 0 | d :: l => d * scale + fraction_value (scale / 10) l end.

Lemma digit_of_char d : 0 <= d < 10 → digit_of (digit_char d) = Some d.
Proof.
  intros Hd. assert (d = 0 ∨ d = 1 ∨ d = 2 ∨ d = 3 ∨ d = 4 ∨ d = 5 ∨ d = 6 ∨ d = 7 ∨ d = 8 ∨ d = 9) as Hc by lia.
  by repeat destruct Hc as [-> | Hc]; [..| subst].
Qed.

Lemma read_fraction_digits l neg n scale frac r :
  Forall (λ d, 0 <= d < 10) l →
  ∃ scale', read_text (foldr (λ d s, String.String (digit_char d) s) "" l) (with_number (Fraction neg n scale frac) r) =
            Some (with_number (Fraction neg n scale' (frac + fraction_value scale l)) r).
Proof.
  intros Hl. revert scale frac. induction Hl as [| d l Hd Hl IH]; intros scale frac; simpl.
  - exists scale. by rewrite Z.add_0_r.
  - unfold read_char. rewrite digit_of_char by done. simpl.
    destruct (IH (scale / 10) (frac + d * scale)) as [scale' E]. exists scale'. unfold with_number in *. simpl in *.
    by rewrite E, Z.add_assoc.
Qed.

Lemma digits_range k n : 0 <= n < 10 ^ Z.of_nat k → Forall (λ d, 0 <= d < 10) (digits k n).
Proof.
  revert n. induction k as [| k IH]; intros n Hn; [constructor |]. cbn [digits].
  assert (0 < 10 ^ Z.of_nat k) by (apply Z.pow_pos_nonneg; lia).
  rewrite Nat2Z.inj_succ, Z.pow_succ_r in Hn by lia. constructor.
  - split; [apply Z.div_pos; lia | apply Z.div_lt_upper_bound; lia].
  - apply IH, Z.mod_pos_bound. lia.
Qed.

Lemma digits_fraction k n :
  0 <= n < 10 ^ Z.of_nat k → fraction_value (10 ^ Z.of_nat k / 10) (digits k n) = n.
Proof.
  revert n. induction k as [| k IH]; intros n Hn; [simpl in *; lia |]. cbn [digits fraction_value].
  replace (10 ^ Z.of_nat (S k) / 10) with (10 ^ Z.of_nat k)
    by (rewrite Nat2Z.inj_succ, Z.pow_succ_r, Z.mul_comm, Z.div_mul by lia; done).
  assert (0 < 10 ^ Z.of_nat k) by (apply Z.pow_pos_nonneg; lia).
  rewrite IH by (apply Z.mod_pos_bound; lia). rewrite (Z.div_mod n (10 ^ Z.of_nat k)) at 3 by lia. lia.
Qed.

Lemma trim_value scale l : fraction_value scale (trim_zeros l) = fraction_value scale l.
Proof.
  revert scale. induction l as [| d l IH]; intros scale; [done |]. simpl. specialize (IH (scale / 10)).
  destruct (trim_zeros l) as [| x l']; [| by rewrite <- IH].
  destruct (Z.eqb_spec d 0) as [-> |]; simpl in *; lia.
Qed.

Lemma trim_range (P : Z → Prop) l : Forall P l → Forall P (trim_zeros l).
Proof. induction 1 as [| d l Hd H IH]; simpl; [done |]. repeat case_match; simplify_eq; auto. Qed.

Lemma read_fraction f neg n r :
  0 <= f < second →
  ∃ scale, read_text (fraction f) (with_number (Whole neg (Some n)) r) = Some (with_number (Fraction neg n scale f) r).
Proof.
  intros Hf. unfold fraction. cbn [read_text].
  assert (read_char "." (with_number (Whole neg (Some n)) r) = Some (with_number (Fraction neg n (10 ^ 8) 0) r)) as -> by done.
  cbn [mbind option_bind].
  destruct (read_fraction_digits (trim_zeros (digits 9 f)) neg n (10 ^ 8) 0 r) as [scale ->].
  { by apply trim_range, digits_range. }
  exists scale. rewrite trim_value, Z.add_0_l. change (10 ^ 8) with (10 ^ Z.of_nat 9 / 10).
  by rewrite (digits_fraction 9 f).
Qed.

(** * Parts *)

Lemma signed_abs n : signed_value (n <? 0) (Z.abs n) = n.
Proof. unfold signed_value. destruct (Z.ltb_spec n 0); lia. Qed.

(** [c] is the unit of a part that adds to the duration as [add] says. *)
Definition unit_adds (time : bool) (c : ascii) (add : Z → reader → reader) : Prop :=
  ∀ neg n r, r_time r = time → read_char c (with_number (Whole neg (Some n)) r) = Some (add (signed_value neg n) r).

Lemma read_part n c time add r :
  unit_adds time c add → r_time r = time → r_number r = NoNumber → read_text (part n (String.String c "")) r = Some (add n r).
Proof.
  intros Hu Ht Hn. unfold part. rewrite read_app, read_decimal by done. simpl.
  by rewrite Hu, signed_abs.
Qed.

(** A part that is left out when it is zero. *)
Definition add_if (add : Z → reader → reader) (n : Z) (r : reader) : reader := if n =? 0 then r else add n r.

Lemma read_part_if n c time add r :
  unit_adds time c add → r_time r = time → r_number r = NoNumber →
  read_text (part_if n (String.String c "")) r = Some (add_if add n r).
Proof. intros. unfold part_if, add_if. case_match; [done |]. by eapply read_part. Qed.

Lemma years_add : unit_adds false "Y" (λ n, add_months (12 * n)).
Proof. intros neg n r H. unfold read_char. simpl. unfold read_unit. simpl. by rewrite H. Qed.
Lemma months_add : unit_adds false "M" add_months.
Proof. intros neg n r H. unfold read_char. simpl. unfold read_unit. simpl. by rewrite H. Qed.
Lemma days_add : unit_adds false "D" add_days.
Proof. intros neg n r H. unfold read_char. simpl. unfold read_unit. simpl. by rewrite H. Qed.
Lemma hours_add : unit_adds true "H" (λ n, add_nanos (3600 * second * n)).
Proof. intros neg n r H. unfold read_char. simpl. unfold read_unit. simpl. by rewrite H. Qed.
Lemma minutes_add : unit_adds true "M" (λ n, add_nanos (60 * second * n)).
Proof. intros neg n r H. unfold read_char. simpl. unfold read_unit. simpl. by rewrite H. Qed.
Lemma seconds_add : unit_adds true "S" (λ n, add_nanos (second * n)).
Proof. intros neg n r H. unfold read_char. simpl. unfold read_unit. simpl. by rewrite H. Qed.

(** Seconds with a fraction: [front] is the sign and the whole seconds. *)
Lemma read_seconds front neg n f r :
  r_time r = true → 0 <= f < second → read_text front r = Some (with_number (Whole neg (Some n)) r) →
  read_text (front +:+ fraction f +:+ "S") r = Some (add_nanos (signed_value neg (second * n + f)) r).
Proof.
  intros Ht Hf H. destruct (read_fraction f neg n r Hf) as [scale E].
  rewrite read_app, H. cbn [mbind option_bind]. rewrite read_app, E. simpl.
  unfold read_char. simpl. unfold read_unit. simpl. by rewrite Ht.
Qed.

(** * Durations *)

Lemma sign_spec x : signed 64 x → sign x = if x <? 0 then -1 else 1.
Proof.
  unfold signed, sign. intros Hx. destruct (Z.ltb_spec x 0).
  - assert (u64 x = x + 2 ^ 64) as -> by (unfold uwrap; rewrite <- (Z_mod_plus_full x 1), Z.mod_small; lia).
    assert (Z.shiftr (x + 2 ^ 64) 63 = 1) as ->; [| done].
    rewrite Z.shiftr_div_pow2 by lia. symmetry. apply (Z.div_unique _ _ _ (x + 2 ^ 63)); lia.
  - rewrite (uwrap_small 64 x) by (unfold unsigned; lia). rewrite Z.shiftr_div_pow2, Z.div_small by lia. done.
Qed.

(** Division of a 64-bit number does not overflow. *)
Lemma divMod_spec a b : signed 64 a → 1 < b < 2 ^ 63 → divMod a b = (Z.quot a b, Z.rem a b).
Proof.
  unfold signed, divMod. intros Ha Hb. rewrite !swrap_small; [done | lia | | lia |]; unfold signed;
    Z.to_euclidean_division_equations; nia.
Qed.

Lemma align_spec m s :
  Z.abs m < 2 ^ 62 → Z.abs s < 60 →
  ∃ m' s', align m s = (m', s') ∧ 60 * m' + s' = 60 * m + s ∧ Z.abs m' < 2 ^ 62 + 1 ∧ Z.abs s' < 60.
Proof.
  intros Hm Hs. unfold align. rewrite !sign_spec by (unfold signed; lia).
  destruct (Z.eqb_spec m 0), (Z.eqb_spec s 0); simpl; try (eexists _, _; split; [reflexivity | lia]).
  destruct (Z.ltb_spec m 0), (Z.ltb_spec s 0); cbn [Z.eqb Pos.eqb negb];
    change (i64 (60 * -1)) with (-60); change (i64 (60 * 1)) with 60;
    rewrite ?(swrap_small 64) by (unfold signed; lia); (eexists _, _; split; [reflexivity | lia]).
Qed.

Lemma read_seconds_text s n r :
  r_time r = true → r_number r = NoNumber → Z.abs s < 60 → Z.abs n < second →
  read_text (seconds_text s n) r = Some (add_if add_nanos (second * s + n) r).
Proof.
  intros Ht Hr Hs Hn. unfold seconds_text. unfold second in Hn.
  assert (Hadd : ∀ x, second * s + n ≠ 0 → x = second * s + n → Some (add_nanos x r) = Some (add_if add_nanos (second * s + n) r)).
  { intros x Hx ->. unfold add_if. by rewrite (proj2 (Z.eqb_neq _ _)). }
  assert (Hzero : read_text "-0" r = Some (with_number (Whole true (Some 0)) r)).
  { simpl. unfold read_char. simpl. by rewrite Hr. }
  unfold second in *.
  destruct (Z.ltb_spec n 0); [| destruct (Z.ltb_spec 0 n)].
  - destruct (Z.ltb_spec s 0); [| destruct (Z.ltb_spec 0 s)];
      rewrite ?swrap_small by (unfold signed; lia).
    + rewrite (read_seconds _ _ _ (- n) _ Ht ltac:(unfold second; lia) (read_decimal s r Hr)).
      apply Hadd; unfold signed_value, second; rewrite ?(proj2 (Z.ltb_lt _ _)); lia.
    + rewrite (read_seconds _ _ _ (1000000000 + n) _ Ht ltac:(unfold second; lia) (read_decimal (s - 1) r Hr)).
      apply Hadd; unfold signed_value, second; rewrite ?(proj2 (Z.ltb_ge _ _)); lia.
    + rewrite (read_seconds _ _ _ (- n) _ Ht ltac:(unfold second; lia) Hzero).
      apply Hadd; unfold signed_value, second; lia.
  - destruct (Z.ltb_spec s (-1)); [| destruct (Z.ltb_spec (-1) s)];
      rewrite ?swrap_small by (unfold signed; lia).
    + rewrite (read_seconds _ _ _ (1000000000 - n) _ Ht ltac:(unfold second; lia) (read_decimal (s + 1) r Hr)).
      apply Hadd; unfold signed_value, second; rewrite ?(proj2 (Z.ltb_lt _ _)); lia.
    + rewrite (read_seconds _ _ _ n _ Ht ltac:(unfold second; lia) (read_decimal s r Hr)).
      apply Hadd; unfold signed_value, second; rewrite ?(proj2 (Z.ltb_ge _ _)); lia.
    + rewrite (read_seconds _ _ _ (1000000000 - n) _ Ht ltac:(unfold second; lia) Hzero).
      apply Hadd; unfold signed_value, second; lia.
  - assert (n = 0) as -> by lia. rewrite (read_part_if _ _ _ _ _ seconds_add Ht Hr).
    unfold add_if. rewrite Z.add_0_r. unfold second. destruct (Z.eqb_spec s 0) as [-> |]; [done |].
    by rewrite (proj2 (Z.eqb_neq _ _)) by lia.
Qed.

(** The seconds and the nanoseconds of a duration as one number. *)
Definition total_nanos (d : Duration) : Z := second * du_Seconds d + du_Nanos d.

(** A duration whose fields are 64-bit integers. *)
Definition fields_fit (d : Duration) : Prop :=
  signed 64 (du_Months d) ∧ signed 64 (du_Days d) ∧ signed 64 (du_Seconds d) ∧ signed 64 (du_Nanos d).

Lemma read_time d r :
  fields_fit d → r_time r = true → r_number r = NoNumber →
  ∃ r', read_text (time_text d) r = Some r' ∧ r_number r' = NoNumber ∧
    r_months r' = r_months r ∧ r_days r' = r_days r ∧ r_nanos r' = r_nanos r + total_nanos d ∧
    (total_nanos d ≠ 0 → r_parts r' ≠ 0%nat).
Proof.
  intros (_ & _ & HS & HN) Ht Hr. unfold time_text, total_nanos.
  rewrite (divMod_spec (du_Seconds d)), (divMod_spec (du_Nanos d)) by (done || (unfold second; lia)).
  set (S := du_Seconds d) in *. set (N := du_Nanos d) in *. clearbody S N. unfold signed in HS, HN.
  set (q := Z.quot N second). set (f := Z.rem N second). set (m1 := Z.quot S 60). set (s1 := Z.rem S 60).
  assert (HSq : S = 60 * m1 + s1 ∧ Z.abs s1 < 60 ∧ Z.abs m1 < 2 ^ 60) by (subst m1 s1; Z.to_euclidean_division_equations; lia).
  assert (HNq : N = second * q + f ∧ Z.abs f < second ∧ Z.abs q < 2 ^ 34)
    by (subst q f; unfold second; Z.to_euclidean_division_equations; lia).
  clearbody q f m1 s1. rewrite (swrap_small 64 (s1 + q)) by (unfold signed; lia).
  rewrite divMod_spec by (unfold signed; lia).
  set (m2 := Z.quot (s1 + q) 60). set (s2 := Z.rem (s1 + q) 60).
  assert (Hq2 : s1 + q = 60 * m2 + s2 ∧ Z.abs s2 < 60 ∧ Z.abs m2 < 2 ^ 34)
    by (subst m2 s2; Z.to_euclidean_division_equations; lia).
  clearbody m2 s2. rewrite (swrap_small 64 (m1 + m2)) by (unfold signed; lia).
  destruct (align_spec (m1 + m2) s2) as (m & s & -> & Hms & Hm & Hs); [lia.. |].
  rewrite divMod_spec by (unfold signed; lia).
  set (h := Z.quot m 60). set (m' := Z.rem m 60).
  assert (Hmh : m = 60 * h + m') by (subst h m'; Z.to_euclidean_division_equations; lia).
  clearbody h m'. rewrite !read_app, (read_part_if _ _ _ _ _ hours_add Ht Hr). cbn [mbind option_bind].
  set (r1 := add_if _ h r).
  assert (Hr1 : r_time r1 = true ∧ r_number r1 = NoNumber) by (subst r1; unfold add_if; by case_match).
  rewrite read_app, (read_part_if _ _ _ _ _ minutes_add (proj1 Hr1) (proj2 Hr1)). cbn [mbind option_bind].
  set (r2 := add_if _ m' r1).
  assert (Hr2 : r_time r2 = true ∧ r_number r2 = NoNumber)
    by (subst r2; unfold add_if; destruct (m' =? 0); [exact Hr1 | split; [apply Hr1 | done]]).
  rewrite (read_seconds_text s f r2 (proj1 Hr2) (proj2 Hr2)) by lia.
  eexists. split; [reflexivity |]. assert (HT : second * S + N = 3600 * second * h + 60 * second * m' + (second * s + f)).
  { unfold second in *. lia. }
  subst r2 r1. unfold add_if.
  destruct (Z.eqb_spec h 0), (Z.eqb_spec m' 0), (Z.eqb_spec (second * s + f) 0); simpl;
    (split; [done |]); do 2 (split; [done |]); (split; [unfold second in *; lia |]); unfold second in *; lia.
Qed.

Lemma read_date d r :
  fields_fit d → r_time r = false → r_number r = NoNumber →
  ∃ r', read_text (date_text d) r = Some r' ∧ r_number r' = NoNumber ∧ r_time r' = false ∧
    r_months r' = r_months r + du_Months d ∧ r_days r' = r_days r + du_Days d ∧ r_nanos r' = r_nanos r ∧
    (Z.lor (du_Months d) (du_Days d) ≠ 0 → r_parts r' ≠ 0%nat).
Proof.
  intros (HM & HD & _) Ht Hr. unfold date_text. rewrite divMod_spec by (done || lia).
  set (M := du_Months d) in *. set (D := du_Days d) in *. clearbody M D. unfold signed in HM, HD.
  set (y := Z.quot M 12). set (m := Z.rem M 12).
  assert (HMq : M = 12 * y + m) by (subst y m; Z.to_euclidean_division_equations; lia).
  clearbody y m. rewrite !read_app, (read_part_if _ _ _ _ _ years_add Ht Hr). cbn [mbind option_bind].
  set (r1 := add_if _ y r).
  assert (Hr1 : r_time r1 = false ∧ r_number r1 = NoNumber) by (subst r1; unfold add_if; by case_match).
  rewrite read_app, (read_part_if _ _ _ _ _ months_add (proj1 Hr1) (proj2 Hr1)). cbn [mbind option_bind].
  set (r2 := add_if _ m r1).
  assert (Hr2 : r_time r2 = false ∧ r_number r2 = NoNumber)
    by (subst r2; unfold add_if; destruct (m =? 0); [exact Hr1 | split; [apply Hr1 | done]]).
  rewrite (read_part_if _ _ _ _ _ days_add (proj1 Hr2) (proj2 Hr2)).
  eexists. split; [reflexivity |]. rewrite Z.lor_eq_0_iff. subst r2 r1. unfold add_if.
  destruct (Z.eqb_spec y 0), (Z.eqb_spec m 0), (Z.eqb_spec D 0); simpl;
    do 2 (split; [done |]); (split; [lia |]); (split; [lia |]); (split; [done |]); lia.
Qed.

Lemma nonzero_time d :
  Z.lor (du_Seconds d) (du_Nanos d) ≠ 0 → (total_nanos d = 0 → du_Nanos d = 0) → total_nanos d ≠ 0.
Proof.
  intros Ht Hc H0. specialize (Hc H0). unfold total_nanos, second in H0. apply Ht, Z.lor_eq_0_iff. lia.
Qed.

(** C29. The text of a duration is the duration: read as ISO 8601, [String] of any
    duration gives back its months, its days and its time to the nanosecond, also
    when the seconds and nanoseconds have different signs, carry into each other or
    are as large as they can be.  The exception is a time whose seconds and
    nanoseconds cancel out. *)
Theorem duration_text d :
  fields_fit d → (total_nanos d = 0 → du_Nanos d = 0) →
  read_duration (String_ d) = Some (du_Months d, du_Days d, total_nanos d).
Proof.
  intros Hd Hc. unfold String_.
  destruct (Z.eqb_spec (Z.lor (du_Seconds d) (du_Nanos d)) 0) as [Ht | Ht];
    destruct (Z.eqb_spec (Z.lor (du_Months d) (du_Days d)) 0) as [Hm | Hm]; cbn [negb andb];
    try (apply Z.lor_eq_0_iff in Ht as [Hs Hn]); try (apply Z.lor_eq_0_iff in Hm as [Hm Hday]).
  - unfold total_nanos. by rewrite Hm, Hday, Hs, Hn.
  - destruct (read_date d (mkReader false NoNumber 0 0 0 0) Hd eq_refl eq_refl)
      as (r & E & Hnum & _ & Hmo & Hda & Hna & Hp).
    rewrite read_P, read_app, E. simpl. unfold complete. rewrite Hnum, Hmo, Hda, Hna.
    specialize (Hp Hm). destruct (r_parts r); [done |]. unfold total_nanos. by rewrite Hs, Hn.
  - destruct (read_time d (mkReader true NoNumber 0 0 0 0) Hd eq_refl eq_refl)
      as (r & E & Hnum & Hmo & Hda & Hna & Hp).
    rewrite read_P. change ("" +:+ "T" +:+ time_text d) with ("T" +:+ time_text d). rewrite read_T, E.
    simpl. unfold complete. rewrite Hnum, Hmo, Hda, Hna. specialize (Hp (nonzero_time d Ht Hc)).
    destruct (r_parts r); [done |]. by rewrite Hm, Hday.
  - destruct (read_date d (mkReader false NoNumber 0 0 0 0) Hd eq_refl eq_refl)
      as ([t nu pa mo da na] & E & Hnum & Hti & Hmo & Hda & Hna & _).
    simpl in Hnum, Hti, Hmo, Hda, Hna. subst.
    destruct (read_time d (mkReader true NoNumber 0 (du_Months d) (du_Days d) 0) Hd eq_refl eq_refl)
      as (r & E' & Hnum & Hmo & Hda & Hna & Hp).
    rewrite read_P, read_app, E. cbn [mbind option_bind]. rewrite read_T, !Z.add_0_l, E'.
    simpl. unfold complete. rewrite Hnum, Hmo, Hda, Hna. specialize (Hp (nonzero_time d Ht Hc)).
    by destruct (r_parts r).
Qed.

(** The least duration, whose fields all carry. *)
Lemma duration_text_witness :
  let least := - 2 ^ 63 in
  let d := mkDuration least least least least in
  read_duration (String_ d) = Some (least, least, total_nanos d).
Proof.
  intros least d. apply (duration_text d); [| vm_compute; discriminate].
  repeat split; vm_compute; congruence.
Defined.

(** A second and the nanoseconds of a second backwards are written as nothing. *)
Lemma cancelled_time_unreadable :
  let d := mkDuration 0 0 1 (-1000000000) in String_ d = "PT" ∧ read_duration (String_ d) = None.
Proof. by vm_compute. Qed.
