(* ===== verification/Errors.v ===== *)
(** The driver's errors: database errors and their classification
    (neo4j/db/errors.go), the internal error types and their wrapping
    (neo4j/internal/errorutil), and the retry predicate of
    neo4j/internal/retry/state.go. *)

From Stdlib Require Import Ascii.
From S2P Require Import Prelude GoTime Packer Values.
#[local] Open Scope Z_scope.

(** * Database errors *)

Inductive ErrorClassification : Type :=
| NoClassification   (* the zero value *)
| ClientError | DatabaseError | TransientError | UnknownError.

(** [Neo4jError].  The cause chain is a list through [GqlCause]. *)
Inductive Neo4jError : Type := mkNeo4jError {
  Code : string;
  Msg : string;
  GqlStatus : string;
  GqlStatusDescription : string;
  GqlClassification : ErrorClassification;
  GqlRawClassification : string;
  GqlDiagnosticRecord : option (gomap value);
  GqlCause : option Neo4jError;
  parsed : bool;
  classification : string;
  category : string;
  title : string;
  retriable : bool
}.

Definition zero_Neo4jError : Neo4jError :=
  mkNeo4jError "" "" "" "" NoClassification "" None None false "" "" "" false.

(** [strings.Split(s, ".")] *)
Fixpoint split_dots (s : string) : list string :=
  match s with
  | EmptyString => [""]
  | String.String c s' =>
      if Ascii.eqb c "."%char then "" :: split_dots s'
      else match split_dots s' with
           | [] => [String.String c ""]
           | w :: ws => String.String c w :: ws
           end
  end.

Definition set_code (c : string) (e : Neo4jError) : Neo4jError :=
  mkNeo4jError c (Msg e) (GqlStatus e) (GqlStatusDescription e) (GqlClassification e)
    (GqlRawClassification e) (GqlDiagnosticRecord e) (GqlCause e) (parsed e)
    (classification e) (category e) (title e) (retriable e).

Definition reclassify (e : Neo4jError) : Neo4jError :=
  if decide (Code e = "Neo.TransientError.Transaction.LockClientStopped")
  then set_code "Neo.ClientError.Transaction.LockClientStopped" e
  else if decide (Code e = "Neo.TransientError.Transaction.Terminated")
  then set_code "Neo.ClientError.Transaction.Terminated" e
  else e.

(** [e.parsed = true] followed by the parts of the code. *)
Definition set_parts (c cat t : string) (e : Neo4jError) : Neo4jError :=
  mkNeo4jError (Code e) (Msg e) (GqlStatus e) (GqlStatusDescription e) (GqlClassification e)
    (GqlRawClassification e) (GqlDiagnosticRecord e) (GqlCause e) true c cat t (retriable e).

Definition parse (e : Neo4jError) : Neo4jError :=
  if parsed e then e
  else
    let e := reclassify e in
    match split_dots (Code e) with
    | [_; c; cat; t] => set_parts c cat t e
    | _ => set_parts (classification e) (category e) (title e) e
    end.

Definition HasSecurityCode (e : Neo4jError) : bool :=
  String.prefix "Neo.ClientError.Security." (Code e).

Definition IsAuthenticationFailed (e : Neo4jError) : bool :=
  bool_decide (Code e = "Neo.ClientError.Security.Unauthorized").

(** The classification methods parse on first use; their result is that of
    the parsed error. *)
Definition Classification (e : Neo4jError) : string := classification (parse e).
Definition Category (e : Neo4jError) : string := category (parse e).
Definition Title (e : Neo4jError) : string := title (parse e).

Definition IsRetriableTransient (e : Neo4jError) : bool :=
  bool_decide (classification (parse e) = "TransientError").

Definition IsRetriableCluster (e : Neo4jError) : bool :=
  bool_decide (Code e ∈ ["Neo.ClientError.Cluster.NotALeader";
                         "Neo.ClientError.General.ForbiddenOnReadOnlyDatabase"]).

(** [||] evaluates left to right: the code tests after
    [IsRetriableTransient] see the reclassified code. *)
Definition IsRetriable (e : Neo4jError) : bool :=
  retriable e || IsRetriableTransient e ||
  IsRetriableCluster (parse e) ||
  bool_decide (Code (parse e) = "Neo.ClientError.Security.AuthorizationExpired").

Definition MarkRetriable (e : Neo4jError) : Neo4jError :=
  mkNeo4jError (Code e) (Msg e) (GqlStatus e) (GqlStatusDescription e) (GqlClassification e)
    (GqlRawClassification e) (GqlDiagnosticRecord e) (GqlCause e) (parsed e)
    (classification e) (category e) (title e) true.

(** The search along the cause chain. *)
Fixpoint FindByGqlStatus (gqlStatus : string) (e : Neo4jError) : option Neo4jError :=
  match e with
  | mkNeo4jError _ _ st _ _ _ _ cause _ _ _ _ _ =>
      if decide (st = gqlStatus) then Some e
      else match cause with
           | Some c => FindByGqlStatus gqlStatus c
           | None => None
           end
  end.

Definition ContainsGqlStatus (gqlStatus : string) (e : Neo4jError) : bool :=
  match FindByGqlStatus gqlStatus e with Some _ => true | None => false end.

(** * Filling in the GQL fields (errorutil/errors.go) *)

Definition unknownNeo4jCode : string := "Neo.DatabaseError.General.UnknownError".
Definition unknownMessage : string := "An unknown error occurred".
Definition unknownGqlStatus : string := "50N42".
Definition unknownGqlStatusDescription : string :=
  "error: general processing exception - unexpected error.".

(** The default entries whose key is missing are added. *)
Definition polyfill_record (r : gomap value) : gomap value :=
  foldl (λ r kv, match map_get kv.1 r with Some _ => r | None => map_set kv.1 kv.2 r end)
    r NewDefaultDiagnosticRecord.

Definition classify_gql (r : gomap value) : ErrorClassification * string :=
  match get_as as_string "_classification" r with
  | Some c =>
      (if decide (c = "CLIENT_ERROR") then ClientError
       else if decide (c = "DATABASE_ERROR") then DatabaseError
       else if decide (c = "TRANSIENT_ERROR") then TransientError
       else UnknownError, c)
  | None => (UnknownError, "")
  end.

Definition PolyfillGqlError (e : Neo4jError) : Neo4jError :=
  let code := if decide (Code e = "") then unknownNeo4jCode else Code e in
  let msg := if decide (Msg e = "") then unknownMessage else Msg e in
  let status := if decide (GqlStatus e = "") then unknownGqlStatus else GqlStatus e in
  let descr := if decide (GqlStatusDescription e = "")
               then unknownGqlStatusDescription +:+ " " +:+ msg
               else GqlStatusDescription e in
  let record := match GqlDiagnosticRecord e with
                | None => NewDefaultDiagnosticRecord
                | Some r => polyfill_record r
                end in
  let '(cls, raw) := classify_gql record in
  mkNeo4jError code msg status descr cls raw (Some record) (GqlCause e) (parsed e)
    (classification e) (category e) (title e) (retriable e).

(** * The errors of the driver *)

(** One constructor per error type or sentinel the code distinguishes.
    [NetError] is any [net.Error] with the answer of its [Timeout()];
    [ErrorString] is [errors.New] and [fmt.Errorf] without [%w];
    [WrappedError] is [fmt.Errorf] with [%w]. *)
Inductive error : Type :=
| PackErr (e : packError)
| ProtocolError (MessageType Field Err : string)
| Neo4jErr (e : Neo4jError)
| FeatureNotSupportedError (Server Feature Reason : string)
| UnsupportedTypeError (Type_ : string)
| UsageError (Message : string)
| ConnectivityError (Inner : error)
| TokenExpiredError (c m : string) (cause : Neo4jError)
| PoolTimeout (Err : error) (Servers : list string)
| PoolFull (Servers : list string)
| PoolClosed
| PoolOutOfServers
| ReadRoutingTableError (Err : option error) (Server : string)
| TlsError (Inner : error)
| CommitFailedDeadError (Inner : error)
| TransactionExecutionLimit (Cause : string) (Errors : list error)
| ConnectionReadTimeout (Err : error)
| ConnectionWriteTimeout (Err : error)
| ConnectionReadCanceled (Err : error)
| ConnectionWriteCanceled (Err : error)
| LockTimeoutError (msg : string)
| NetError (timeout : bool) (msg : string)
| EOF
| UnexpectedEOF
| ContextCanceled
| DeadlineExceeded
| ErrorString (msg : string)
| WrappedError (msg : string) (inner : error).

Definition InvalidTransactionError : string := "invalid transaction handle".

(** [err.Error() == InvalidTransactionError], for the errors whose text can be
    that string: those made with [errors.New]. *)
Definition is_invalid_transaction (e : error) : bool :=
  match e with
  | ErrorString m | UsageError m | LockTimeoutError m | NetError _ m =>
      bool_decide (m = InvalidTransactionError)
  | PackErr p => bool_decide (packError_Error p = InvalidTransactionError)
  | _ => false
  end.

Definition IsTimeoutError (e : error) : bool :=
  match e with
  | DeadlineExceeded => true
  | NetError t _ => t
  | _ => false
  end.

(** The text of an error, where the code prints it. *)
Definition CombineErrors (show : error → string) (e1 e2 : option error) : option error :=
  match e2, e1 with
  | None, _ => e1
  | Some e2, None => Some e2
  | Some e2, Some e1 =>
      Some (WrappedError ("error " +:+ show e2 +:+ " occurred after previous error " +:+ show e1) e1)
  end.

Definition CombineAllErrors (show : error → string) (errs : list (option error)) : option error :=
  match errs with
  | [] => None
  | e :: es => foldl (CombineErrors show) e es
  end.

Section Wrapping.
(** [err.Error()] *)
Variable show : error → string.

Definition WrapError (e : error) : error :=
  match e with
  | EOF => ConnectivityError e
  | UnsupportedTypeError _ => UsageError (show e)
  | FeatureNotSupportedError _ _ _ => UsageError ("feature not supported: " +:+ show e)
  | PoolClosed => UsageError (show e)
  | TlsError _ | NetError _ _ | DeadlineExceeded => ConnectivityError e
  | PoolTimeout _ _ | PoolFull _ | PoolOutOfServers => ConnectivityError e
  | ReadRoutingTableError _ _ => ConnectivityError e
  | CommitFailedDeadError _ => ConnectivityError e
  | ConnectionReadTimeout _ | ConnectionWriteTimeout _ => ConnectivityError e
  | Neo4jErr n =>
      if decide (Code n = "Neo.ClientError.Security.TokenExpired")
      then TokenExpiredError (Code n) (Msg n) n
      else e
  | _ => if is_invalid_transaction e then UsageError InvalidTransactionError else e
  end.
End Wrapping.

(** [errors.As(err, &dbError)] with a [*db.Neo4jError] target: the first
    database error along the [Unwrap] chain. *)
Fixpoint as_Neo4jError (e : error) : option Neo4jError :=
  match e with
  | Neo4jErr n => Some n
  | TokenExpiredError _ _ n => Some n
  | WrappedError _ e => as_Neo4jError e
  | _ => None
  end.

Definition IsFatalDuringDiscovery (e : error) : bool :=
  match e with
  | FeatureNotSupportedError _ _ _ => true
  | Neo4jErr n =>
      bool_decide (Code n ∈
        ["Neo.ClientError.Database.DatabaseNotFound";
         "Neo.ClientError.Transaction.InvalidBookmark";
         "Neo.ClientError.Transaction.InvalidBookmarkMixture";
         "Neo.ClientError.Statement.TypeError";
         "Neo.ClientError.Statement.ArgumentError";
         "Neo.ClientError.Request.Invalid"]) ||
      (String.prefix "Neo.ClientError.Security." (Code n) &&
       negb (bool_decide (Code n = "Neo.ClientError.Security.AuthorizationExpired")))
  | DeadlineExceeded | ContextCanceled => true
  | _ => false
  end.

(** retry/state.go *)
Definition IsRetryable (e : error) : bool :=
  match e with
  | ConnectivityError (CommitFailedDeadError _) => false
  | ConnectivityError (PoolTimeout _ _) => false
  | ConnectivityError _ => true
  | _ => match as_Neo4jError e with
         | Some n => IsRetriable n
         | None => false
         end
  end.
