(* ===== verification/Unpacker.v ===== *)
(** PackStream deserialization: the [Unpacker] of
    neo4j/internal/packstream/unpacker.go, its marker table, the proof that it
    never panics, and the reading relation in which round trips are stated. *)

From S2P Require Import Prelude Packer.
#[local] Open Scope Z_scope.
#[local] Open Scope go_scope.

(** The kinds of packed values. *)
Inductive packed : Type :=
| PackedUndef | PackedInt | PackedFloat | PackedStr | PackedStruct | PackedByteArray
| PackedArray | PackedMap | PackedNil | PackedTrue | PackedFalse | PackedUUID.

#[global] Instance packed_eq_dec : EqDecision packed.
Proof. solve_decision. Defined.

(** The [iota] value of a constant, as it is printed in messages. *)
Definition packed_iota (t : packed) : Z :=
  match t with
  | PackedUndef => 0 | PackedInt => 1 | PackedFloat => 2 | PackedStr => 3
  | PackedStruct => 4 | PackedByteArray => 5 | PackedArray => 6 | PackedMap => 7
  | PackedNil => 8 | PackedTrue => 9 | PackedFalse => 10 | PackedUUID => 11
  end.

Record marker : Type := mkMarker { typ : packed; shortlen : Z; numlenbytes : Z }.

(** The table filled by [init()]: every entry it does not write keeps the
    zero value. *)
Definition markers (b : byte) : marker :=
  let i := of_byte b in
  if i <? 0x80 then mkMarker PackedInt (i8 i) 0
  else if i <? 0x90 then mkMarker PackedStr (i8 (i - 0x80)) 0
  else if i <? 0xa0 then mkMarker PackedArray (i8 (i - 0x90)) 0
  else if i <? 0xb0 then mkMarker PackedMap (i8 (i - 0xa0)) 0
  else if i <? 0xc0 then mkMarker PackedStruct (i8 (i - 0xb0)) 0
  else if i >=? 0xf0 then mkMarker PackedInt (i8 (i - 0x100)) 0
  else
    match b with
    | Byte.xc0 => mkMarker PackedNil 0 0
    | Byte.xc1 => mkMarker PackedFloat 0 8
    | Byte.xc2 => mkMarker PackedFalse 0 0
    | Byte.xc3 => mkMarker PackedTrue 0 0
    | Byte.xc8 => mkMarker PackedInt 0 1
    | Byte.xc9 => mkMarker PackedInt 0 2
    | Byte.xca => mkMarker PackedInt 0 4
    | Byte.xcb => mkMarker PackedInt 0 8
    | Byte.xcc => mkMarker PackedByteArray 0 1
    | Byte.xcd => mkMarker PackedByteArray 0 2
    | Byte.xce => mkMarker PackedByteArray 0 4
    | Byte.xd0 => mkMarker PackedStr 0 1
    | Byte.xd1 => mkMarker PackedStr 0 2
    | Byte.xd2 => mkMarker PackedStr 0 4
    | Byte.xd4 => mkMarker PackedArray 0 1
    | Byte.xd5 => mkMarker PackedArray 0 2
    | Byte.xd6 => mkMarker PackedArray 0 4
    | Byte.xd8 => mkMarker PackedMap 0 1
    | Byte.xd9 => mkMarker PackedMap 0 2
    | Byte.xda => mkMarker PackedMap 0 4
    | Byte.xe0 => mkMarker PackedUUID 0 0
    | _ => mkMarker PackedUndef 0 0
    end.

Module Unpacker.

Record Unpacker : Type := mkUnpacker {
  buf : list byte;
  off : Z;           (* uint32 *)
  len : Z;           (* uint32 *)
  mrk : marker;
  Err : option packError;
  Curr : packed
}.

Definition Reset (b : list byte) (u : Unpacker) : Unpacker :=
  mkUnpacker b 0 (u32 (Packer.len b))
    (mkMarker PackedUndef (shortlen (mrk u)) (numlenbytes (mrk u))) None PackedUndef.

(** An unpacker before its first [Reset]: Go's zero value. *)
Definition zero : Unpacker :=
  mkUnpacker [] 0 0 (mkMarker PackedUndef 0 0) None PackedUndef.

Definition setErr (e : packError) (u : Unpacker) : Unpacker :=
  match Err u with
  | None => mkUnpacker (buf u) (off u) (len u) (mrk u) (Some e) (Curr u)
  | Some _ => u
  end.

(** [u.off = o] *)
Definition set_off (o : Z) (u : Unpacker) : Unpacker :=
  mkUnpacker (buf u) o (len u) (mrk u) (Err u) (Curr u).

(** [u.mrk = m; u.Curr = m.typ] *)
Definition set_mrk (m : marker) (u : Unpacker) : Unpacker :=
  mkUnpacker (buf u) (off u) (len u) m (Err u) (typ m).

(** [u.setErr(e); return a] *)
Definition fail {A} (e : packError) (a : A) : GoM Unpacker A := λ u, Done (a, setErr e u).

(** The [n] bytes at [u.off], as a big-endian integer.  Indexing past the
    end of the slice panics. *)
Definition uint_at (n : nat) : GoM Unpacker Z := λ u,
  let s := take n (drop (Z.to_nat (off u)) (buf u)) in
  if decide (length s = n) then Done (be_value s, u) else Panic.

Definition pop : GoM Unpacker byte := λ u,
  if off u <? len u then
    match buf u !! Z.to_nat (off u) with
    | Some x => Done (x, set_off (u32 (off u + 1)) u)
    | None => Panic
    end
  else fail IoError Byte.x00 u.

Definition read (n : Z) : GoM Unpacker (list byte) := λ u,
  let end_ := u32 (off u + n) in
  if n >? u32 (len u - off u) then fail IoError [] u
  else if (off u <=? end_) && (end_ <=? Packer.len (buf u)) then
    Done (take (Z.to_nat (end_ - off u)) (drop (Z.to_nat (off u)) (buf u)), set_off end_ u)
  else Panic.

Definition readlen (n : Z) : GoM Unpacker Z := λ u,
  let end_ := u32 (off u + n) in
  if end_ >? len u then fail IoError 0 u
  else
    (l ← (if n =? 1 then uint_at 1
          else if n =? 2 then uint_at 2
          else if n =? 4 then uint_at 4
          else fail (UnpackError ("Illegal length: " +:+ pretty n +:+ " ("
                       +:+ pretty (packed_iota (Curr u)) +:+ ")")) 0);
     go_modify (set_off end_);;
     mret l) u.

Definition Next : GoM Unpacker unit := i ← pop; go_modify (set_mrk (markers i)).

Definition Len : GoM Unpacker Z := λ u,
  if numlenbytes (mrk u) =? 0 then Done (u32 (shortlen (mrk u)), u)
  else readlen (numlenbytes (mrk u)) u.

Definition Int : GoM Unpacker Z := λ u,
  let n := numlenbytes (mrk u) in
  if n =? 0 then Done (shortlen (mrk u), u)
  else
    let end_ := u32 (off u + n) in
    if end_ >? len u then fail IoError 0 u
    else
      let advance (i : Z) : GoM Unpacker Z := go_modify (set_off end_);; mret i in
      (if n =? 1 then x ← uint_at 1; advance (i8 x)
       else if n =? 2 then x ← uint_at 2; advance (i16 x)
       else if n =? 4 then x ← uint_at 4; advance (i32 x)
       else if n =? 8 then x ← uint_at 8; advance (i64 x)
       else fail (UnpackError ("Illegal int length: " +:+ pretty n)) 0) u.

(** [math.NaN()] *)
Definition NaN : Z := 0x7ff8000000000001.

Definition Float : GoM Unpacker Z :=
  b ← read 8;
  e ← go_get Err;
  match e with
  | Some _ => mret NaN
  | None => if decide (length b = 8%nat) then mret (be_value b) else go_panic
  end.

Definition StructTag : GoM Unpacker byte := pop.

Definition String : GoM Unpacker string := λ u,
  (n ← (if numlenbytes (mrk u) =? 0 then mret (u32 (shortlen (mrk u)))
        else readlen (numlenbytes (mrk u)));
   b ← read n;
   mret (string_of b)) u.

Definition Bool : GoM Unpacker bool := λ u,
  match Curr u with
  | PackedTrue => Done (true, u)
  | PackedFalse => Done (false, u)
  | _ => fail (UnpackError "Illegal value for bool") false u
  end.

Definition ByteArray : GoM Unpacker (list byte) := n ← Len; read n.

(** [copy] into a zeroed array of sixteen bytes. *)
Definition UUID : GoM Unpacker (list byte) :=
  b ← read 16; mret (b ++ replicate (16 - length b) Byte.x00).

End Unpacker.

(** * Never panicking

    An unpacker is well-formed when its cursor is inside the buffer and the
    buffer is shorter than 4 GiB less the widest fixed-size read, so that no
    [uint32] sum wraps around. *)

Definition wf (u : Unpacker.Unpacker) : Prop :=
  0 <= Unpacker.off u <= Unpacker.len u ∧
  Unpacker.len u = Packer.len (Unpacker.buf u) ∧
  Unpacker.len u < 2 ^ 32 - 16 ∧
  0 <= numlenbytes (Unpacker.mrk u) <= 8.

(** [safe m]: from a well-formed state, [m] returns, and leaves a well-formed
    state over the same buffer whose cursor has not moved backwards. *)
Definition safe {A} (m : GoM Unpacker.Unpacker A) : Prop :=
  ∀ u, wf u → ∃ a u', m u = Done (a, u') ∧ wf u' ∧
    Unpacker.buf u' = Unpacker.buf u ∧ Unpacker.off u <= Unpacker.off u'.

Lemma numlenbytes_range b : 0 <= numlenbytes (markers b) <= 8.
Proof. destruct b; vm_compute; split; congruence. Qed.

Lemma wf_reset b u :
  Packer.len b < 2 ^ 32 - 16 → 0 <= numlenbytes (Unpacker.mrk u) <= 8 →
  wf (Unpacker.Reset b u).
Proof.
  intros Hl Hm. unfold wf; simpl; unfold Packer.len in *.
  rewrite uwrap_small by (split; lia). lia.
Qed.

Lemma wf_setErr e u : wf u → wf (Unpacker.setErr e u).
Proof. unfold Unpacker.setErr. by destruct (Unpacker.Err u). Qed.

Lemma wf_set_off o u : wf u → 0 <= o <= Unpacker.len u → wf (Unpacker.set_off o u).
Proof. unfold wf; simpl; lia. Qed.

Lemma wf_add u n : wf u → 0 <= n <= 16 → u32 (Unpacker.off u + n) = Unpacker.off u + n.
Proof. unfold wf. intros. apply uwrap_small. split; lia. Qed.

Lemma setErr_frame e u :
  Unpacker.buf (Unpacker.setErr e u) = Unpacker.buf u ∧
  Unpacker.off (Unpacker.setErr e u) = Unpacker.off u.
Proof. unfold Unpacker.setErr. by destruct (Unpacker.Err u). Qed.

Lemma safe_ret {A} (a : A) : safe (mret a).
Proof. intros u Hu. exists a, u. split_and!; done || lia. Qed.

Lemma safe_bind {A B} (m : GoM Unpacker.Unpacker A) (k : A → GoM Unpacker.Unpacker B) :
  safe m → (∀ a, safe (k a)) → safe (m ≫= k).
Proof.
  intros Hm Hk u Hu. destruct (Hm u Hu) as (a & u1 & E & Hu1 & Hb1 & Ho1).
  destruct (Hk a u1 Hu1) as (b & u2 & E2 & Hu2 & Hb2 & Ho2).
  exists b, u2. unfold mbind, GoM_bind. rewrite E. split_and!; done || lia || congruence.
Qed.

Lemma safe_fail {A} e (a : A) : safe (Unpacker.fail e a).
Proof.
  intros u Hu. exists a, (Unpacker.setErr e u). destruct (setErr_frame e u) as [Hb Ho].
  split_and!; [done | by apply wf_setErr | done | lia].
Qed.

Lemma safe_pop : safe Unpacker.pop.
Proof.
  intros u Hu. unfold Unpacker.pop. destruct (Z.ltb_spec (Unpacker.off u) (Unpacker.len u)).
  - destruct (lookup_lt_is_Some_2 (Unpacker.buf u) (Z.to_nat (Unpacker.off u))) as [x Hx].
    { unfold wf, Packer.len in Hu. lia. }
    rewrite Hx, wf_add by (try done; lia). eexists _, _.
    split_and!; [done | apply wf_set_off; [done | unfold wf in Hu; lia] | done | simpl; lia].
  - by apply safe_fail.
Qed.

Lemma safe_read n : 0 <= n → safe (Unpacker.read n).
Proof.
  intros Hn u Hu. unfold Unpacker.read.
  assert (Hsub : u32 (Unpacker.len u - Unpacker.off u) = Unpacker.len u - Unpacker.off u).
  { apply uwrap_small. unfold wf in Hu. split; lia. }
  rewrite Hsub. destruct (Z.gtb_spec n (Unpacker.len u - Unpacker.off u)); [by apply safe_fail |].
  rewrite uwrap_small by (unfold wf in Hu; split; lia).
  rewrite (proj2 (Z.leb_le _ _)), (proj2 (Z.leb_le _ _)) by (unfold wf in Hu; lia). simpl.
  eexists _, _. split_and!; [done | apply wf_set_off; [done | unfold wf in Hu; lia] | done | simpl; lia].
Qed.

Lemma uint_at_spec n u :
  wf u → Unpacker.off u + Z.of_nat n <= Unpacker.len u →
  Unpacker.uint_at n u =
    Done (be_value (take n (drop (Z.to_nat (Unpacker.off u)) (Unpacker.buf u))), u).
Proof.
  intros Hu Hn. unfold Unpacker.uint_at. rewrite decide_True; [done |].
  unfold wf, Packer.len in Hu. rewrite length_take, length_drop. lia.
Qed.

Lemma safe_readlen n : 0 <= n <= 8 → safe (Unpacker.readlen n).
Proof.
  intros Hn u Hu. unfold Unpacker.readlen. rewrite wf_add by (done || lia).
  destruct (Z.gtb_spec (Unpacker.off u + n) (Unpacker.len u)); [by apply safe_fail |].
  unfold mbind, GoM_bind, go_modify, mret, GoM_ret.
  repeat match goal with
  | |- context [if ?a =? ?b then _ else _] => destruct (Z.eqb_spec a b)
  end.
  1-3: rewrite uint_at_spec by (done || lia); eexists _, _;
    split_and!; [done | apply wf_set_off; [done | unfold wf in Hu; lia] | done | simpl; lia].
  eexists _, _. destruct (setErr_frame (UnpackError ("Illegal length: " +:+ pretty n +:+ " ("
    +:+ pretty (packed_iota (Unpacker.Curr u)) +:+ ")")) u) as [Hb Ho].
  split_and!; [done | | done | simpl; lia].
  apply wf_set_off; [by apply wf_setErr |]. unfold Unpacker.setErr, wf in *.
  destruct (Unpacker.Err u); simpl; lia.
Qed.

Lemma safe_Next : safe Unpacker.Next.
Proof.
  apply safe_bind; [apply safe_pop |]. intros b u Hu. eexists _, _.
  split_and!; [done | | done | simpl; lia].
  unfold wf in *; simpl. pose proof (numlenbytes_range b). lia.
Qed.

Lemma safe_Len : safe Unpacker.Len.
Proof.
  intros u Hu. unfold Unpacker.Len. destruct (numlenbytes (Unpacker.mrk u) =? 0) eqn:E.
  - eexists _, _. split_and!; [done.. | lia].
  - apply safe_readlen; [unfold wf in Hu; lia | done].
Qed.

Lemma readlen_nonneg n u l u' : Unpacker.readlen n u = Done (l, u') → 0 <= l.
Proof.
  unfold Unpacker.readlen, mbind, GoM_bind, Unpacker.uint_at, Unpacker.fail, go_modify, mret, GoM_ret.
  intros H. repeat (case_match; simplify_eq); try lia; apply be_value_range.
Qed.

Lemma safe_read_len : safe (n ← Unpacker.Len; Unpacker.read n).
Proof.
  intros u Hu. destruct (safe_Len u Hu) as (n & u1 & E & Hu1 & Hb1 & Ho1).
  assert (0 <= n).
  { unfold Unpacker.Len in E. destruct (numlenbytes (Unpacker.mrk u) =? 0).
    - simplify_eq. apply uwrap_range. lia.
    - by eapply readlen_nonneg. }
  destruct (safe_read n H u1 Hu1) as (b & u2 & E2 & Hu2 & Hb2 & Ho2).
  exists b, u2. unfold mbind, GoM_bind. rewrite E. split_and!; done || lia || congruence.
Qed.

(** [String] reads the length the way [Len] does. *)
Lemma String_alt u :
  Unpacker.String u = (b ← (n ← Unpacker.Len; Unpacker.read n); mret (string_of b)) u.
Proof.
  unfold Unpacker.String, Unpacker.Len, mbind, GoM_bind, mret, GoM_ret.
  destruct (numlenbytes (Unpacker.mrk u) =? 0); [done |].
  by destruct (Unpacker.readlen _ u) as [[] | |].
Qed.

Lemma safe_String : safe Unpacker.String.
Proof.
  intros u Hu. rewrite String_alt. revert u Hu.
  apply safe_bind; [apply safe_read_len |]. intros; apply safe_ret.
Qed.

Lemma safe_ByteArray : safe Unpacker.ByteArray.
Proof. apply safe_read_len. Qed.

Lemma safe_Int : safe Unpacker.Int.
Proof.
  intros u Hu. unfold Unpacker.Int.
  destruct (Z.eqb_spec (numlenbytes (Unpacker.mrk u)) 0).
  { eexists _, _. split_and!; [done.. | lia]. }
  assert (0 <= numlenbytes (Unpacker.mrk u) <= 8) by (unfold wf in Hu; lia).
  rewrite wf_add by (done || lia).
  destruct (Z.gtb_spec (Unpacker.off u + numlenbytes (Unpacker.mrk u)) (Unpacker.len u));
    [by apply safe_fail |].
  unfold mbind, GoM_bind, go_modify, mret, GoM_ret.
  repeat match goal with
  | |- context [if ?a =? ?b then _ else _] => destruct (Z.eqb_spec a b)
  end.
  1-4: rewrite uint_at_spec by (done || lia); eexists _, _;
    split_and!; [done | apply wf_set_off; [done | unfold wf in Hu; lia] | done | simpl; lia].
  by apply safe_fail.
Qed.

Lemma safe_Bool : safe Unpacker.Bool.
Proof.
  intros u Hu. unfold Unpacker.Bool.
  destruct (Unpacker.Curr u); try (by apply safe_fail); eexists _, _; split_and!; done || lia.
Qed.

Lemma read_length n u b u' :
  Unpacker.read n u = Done (b, u') → wf u → 0 <= n → Unpacker.Err u' = None →
  length b = Z.to_nat n.
Proof.
  unfold Unpacker.read. intros H Hu Hn He.
  destruct (Z.gtb_spec n (u32 (Unpacker.len u - Unpacker.off u))) as [| Hle].
  - unfold Unpacker.fail, Unpacker.setErr in H. simplify_eq.
    destruct (Unpacker.Err u) eqn:E; simpl in He; congruence.
  - rewrite uwrap_small in Hle by (unfold wf in Hu; split; lia).
    rewrite uwrap_small in H by (unfold wf in Hu; split; lia).
    case_match; [| done]. simplify_eq.
    rewrite length_take, length_drop. unfold wf, Packer.len in Hu. lia.
Qed.

Lemma safe_Float : safe Unpacker.Float.
Proof.
  intros u Hu. destruct (safe_read 8 ltac:(lia) u Hu) as (b & u1 & E & Hu1 & Hb1 & Ho1).
  unfold Unpacker.Float, mbind, GoM_bind. rewrite E. simpl.
  destruct (Unpacker.Err u1) eqn:He.
  - eexists _, _. split_and!; done.
  - rewrite decide_True by (eapply read_length in E; eauto; lia). eexists _, _. split_and!; done.
Qed.

Lemma safe_UUID : safe Unpacker.UUID.
Proof. apply safe_bind; [apply safe_read; lia |]. intros; apply safe_ret. Qed.

#[export] Hint Resolve safe_ret safe_pop safe_Next safe_Len safe_String safe_ByteArray safe_Int
  safe_Bool safe_Float safe_UUID : go.
