(* ===== verification/Reading.v ===== *)
(** The reading relation: what an operation of the unpacker, or of a decoder
    built on it, returns on bytes the packer produced.  Round trips of every
    decoder of the driver are proved by composing the rules of this file. *)

From S2P Require Import Prelude Packer Unpacker.
#[local] Open Scope Z_scope.
#[local] Open Scope go_scope.

(** * Decoders that own an unpacker

    The interface between the unpacker and the decoders that hold one
    (hydrator and property decoder): access to the unpacker, and the condition
    under which no error has been recorded yet. *)

Class UnpackHost (S : Type) : Type := {
  host_get : S → Unpacker.Unpacker;
  host_set : Unpacker.Unpacker → S → S;
  host_get_set u s : host_get (host_set u s) = u;
  host_set_get s : host_set (host_get s) s = s;
  host_set_set u u' s : host_set u (host_set u' s) = host_set u s
}.

(** The states a decoder is read from: no error was recorded, and whatever
    settings a statement is about. *)
Class Ready (S : Type) `{UnpackHost S} : Type := {
  host_ok : S → Prop;
  host_ok_set u s : host_ok s → host_ok (host_set u s)
}.

#[global] Program Instance Unpacker_host : UnpackHost Unpacker.Unpacker := {
  host_get := id;
  host_set u _ := u
}.
Solve All Obligations with done.

#[global] Program Instance Unpacker_ready : Ready Unpacker.Unpacker := { host_ok _ := True }.
Solve All Obligations with done.

(** A call of a method of the owned unpacker. *)
Definition via {S A} `{UnpackHost S} (m : GoM Unpacker.Unpacker A) : GoM S A := λ s,
  match m (host_get s) with
  | Done (a, u) => Done (a, host_set u s)
  | Panic => Panic
  | OutOfFuel => OutOfFuel
  end.

(** * The relation *)

(** [u] has no error and the bytes still to be read are [rest]. *)
Definition at_rest (u : Unpacker.Unpacker) (rest : list byte) : Prop :=
  wf u ∧ Unpacker.Err u = None ∧
  drop (Z.to_nat (Unpacker.off u)) (Unpacker.buf u) = rest.

(** [reads m enc a]: wherever the remaining bytes begin with [enc], [m]
    consumes exactly them and returns [a]; nothing but the unpacker changes. *)
Definition reads {S A} `{UnpackHost S, !Ready S} (m : GoM S A) (enc : list byte) (a : A) : Prop :=
  ∀ s rest, host_ok s → at_rest (host_get s) (enc ++ rest) →
  ∃ u', m s = Done (a, host_set u' s) ∧ at_rest u' rest.

(** The same after [Next] has popped the marker byte [b]. *)
Definition reads_after {S A} `{UnpackHost S, !Ready S} (b : byte) (m : GoM S A)
    (enc : list byte) (a : A) : Prop :=
  ∀ s rest, host_ok s → at_rest (host_get s) (enc ++ rest) →
  Unpacker.mrk (host_get s) = markers b → Unpacker.Curr (host_get s) = typ (markers b) →
  ∃ u', m s = Done (a, host_set u' s) ∧ at_rest u' rest.

Section Rules.
Context {S : Type} `{UnpackHost S, !Ready S}.

Lemma reads_ret {A} (a : A) : reads (mret a) [] a.
Proof.
  intros s rest _ Hr. exists (host_get s). by rewrite host_set_get.
Qed.

Lemma reads_bind {A B} (m : GoM S A) (k : A → GoM S B) e1 e2 a b :
  reads m e1 a → reads (k a) e2 b → reads (m ≫= k) (e1 ++ e2) b.
Proof.
  intros Hm Hk s rest Hok Hr. rewrite <- app_assoc in Hr.
  destruct (Hm s _ Hok Hr) as (u1 & E1 & Hr1).
  destruct (Hk (host_set u1 s) rest) as (u2 & E2 & Hr2).
  { by apply host_ok_set. }
  { by rewrite host_get_set. }
  exists u2. unfold mbind, GoM_bind. rewrite E1, E2. by rewrite host_set_set.
Qed.

Lemma reads_after_bind {A B} c (m : GoM S A) (k : A → GoM S B) e1 e2 a b :
  reads_after c m e1 a → reads (k a) e2 b → reads_after c (m ≫= k) (e1 ++ e2) b.
Proof.
  intros Hm Hk s rest Hok Hr Hmrk Hcur. rewrite <- app_assoc in Hr.
  destruct (Hm s _ Hok Hr Hmrk Hcur) as (u1 & E1 & Hr1).
  destruct (Hk (host_set u1 s) rest) as (u2 & E2 & Hr2).
  { by apply host_ok_set. }
  { by rewrite host_get_set. }
  exists u2. unfold mbind, GoM_bind. rewrite E1, E2. by rewrite host_set_set.
Qed.

Lemma reads_after_weaken {A} c (m : GoM S A) e a : reads m e a → reads_after c m e a.
Proof. intros Hm s rest ? ? _ _. by apply Hm. Qed.

Lemma reads_ret_eq {A} (a b : A) : a = b → reads (mret a) [] b.
Proof. intros ->. apply reads_ret. Qed.

Lemma reads_map {A B} (m : GoM S A) (f : A → B) e a b :
  reads m e a → f a = b → reads (x ← m; mret (f x)) e b.
Proof.
  intros Hm <-. rewrite <- (app_nil_r e). eapply reads_bind; [done | apply reads_ret].
Qed.

Lemma reads_after_map {A B} c (m : GoM S A) (f : A → B) e a b :
  reads_after c m e a → f a = b → reads_after c (x ← m; mret (f x)) e b.
Proof.
  intros Hm <-. rewrite <- (app_nil_r e). eapply reads_after_bind; [done | apply reads_ret].
Qed.

(** A loop that reads one element after the other. *)
Lemma reads_repeat {A} (body : GoM S A) (encs : list (list byte)) (xs : list A) :
  Forall2 (reads body) encs xs → reads (go_repeat (length xs) body) (concat encs) xs.
Proof.
  induction 1 as [| e x encs xs Hx Hxs IH]; simpl; [apply reads_ret |].
  eapply reads_bind; [done |]. by eapply reads_map.
Qed.

Lemma reads_loop {A B} (body : A → GoM S A) (step : A → B → A) encs (xs : list B) a :
  Forall2 (λ e x, ∀ a, reads (body a) e (step a x)) encs xs →
  reads (go_loop (length xs) body a) (concat encs) (foldl step a xs).
Proof.
  intros Hf. revert a. induction Hf as [| e x encs xs Hx Hxs IH]; simpl; intros a;
    [apply reads_ret |].
  eapply reads_bind; [apply Hx | apply IH].
Qed.
End Rules.

Lemma reads_via {S A} `{UnpackHost S, !Ready S} (m : GoM Unpacker.Unpacker A) e a :
  reads m e a → reads (via m) e a.
Proof.
  intros Hm s rest _ Hr. destruct (Hm (host_get s) rest I Hr) as (u' & E & Hr').
  exists u'. unfold via. by rewrite E.
Qed.

Lemma reads_after_via {S A} `{UnpackHost S, !Ready S} b (m : GoM Unpacker.Unpacker A) e a :
  reads_after b m e a → reads_after b (via m) e a.
Proof.
  intros Hm s rest _ Hr Hmrk Hcur.
  destruct (Hm (host_get s) rest I Hr Hmrk Hcur) as (u' & E & Hr').
  exists u'. unfold via. by rewrite E.
Qed.

(** * The unpacker's primitive reads *)

Lemma at_rest_length u rest :
  at_rest u rest → Unpacker.off u + Packer.len rest = Unpacker.len u.
Proof.
  intros (Hwf & _ & <-). unfold wf, Packer.len in *. rewrite length_drop. lia.
Qed.

Lemma at_rest_advance u e rest n :
  at_rest u (e ++ rest) → n = Packer.len e →
  at_rest (Unpacker.set_off (Unpacker.off u + n) u) rest.
Proof.
  intros Hr ->. pose proof (at_rest_length _ _ Hr) as Hl. destruct Hr as (Hwf & He & Hd).
  unfold Packer.len in *. rewrite length_app in Hl.
  split_and!; [| done |].
  - apply wf_set_off; [done |]. unfold wf in Hwf. lia.
  - simpl. unfold wf in Hwf.
    rewrite Z2Nat.inj_add by lia. rewrite <- drop_drop, Hd, Nat2Z.id. by rewrite drop_app_length.
Qed.

Lemma reads_pop b : reads Unpacker.pop [b] b.
Proof.
  intros u rest _ Hr. pose proof (at_rest_length _ _ Hr) as Hl. unfold Packer.len in Hl; simpl in *.
  exists (Unpacker.set_off (Unpacker.off u + 1) u). split; [| by eapply (at_rest_advance _ [b])].
  destruct Hr as (Hwf & He & Hd). unfold Unpacker.pop.
  rewrite (proj2 (Z.ltb_lt _ _)) by (unfold id in *; lia).
  assert (Hlk : Unpacker.buf u !! Z.to_nat (Unpacker.off u) = Some b).
  { rewrite <- (Nat.add_0_r (Z.to_nat _)), <- lookup_drop. unfold id in Hd. by rewrite Hd. }
  unfold id in *. rewrite Hlk, wf_add by (done || lia). done.
Qed.

Lemma reads_read bs : reads (Unpacker.read (Packer.len bs)) bs bs.
Proof.
  intros u rest _ Hr. simpl in *. unfold id in *. pose proof (at_rest_length _ _ Hr) as Hl.
  exists (Unpacker.set_off (Unpacker.off u + Packer.len bs) u).
  split; [| by eapply at_rest_advance].
  destruct Hr as (Hwf & He & Hd). unfold Unpacker.read.
  unfold Packer.len in *. rewrite length_app in Hl. unfold wf, Packer.len in Hwf.
  rewrite !uwrap_small by (split; lia).
  unfold Packer.len. zdec.
  rewrite Hd. replace (Z.to_nat _) with (length bs) by lia. by rewrite take_app_length.
Qed.

Lemma reads_uint u (n : nat) z rest :
  at_rest u (be_bytes n z ++ rest) →
  Unpacker.uint_at n u = Done (uwrap (Z.of_nat n * 8) z, u).
Proof.
  intros Hr. pose proof (at_rest_length _ _ Hr) as Hl. destruct Hr as (Hwf & He & Hd).
  unfold Packer.len in Hl. rewrite length_app, be_bytes_length in Hl.
  rewrite uint_at_spec by (done || lia). do 2 f_equal.
  rewrite Hd, <- be_value_bytes. f_equal.
  rewrite <- (be_bytes_length n z) at 1. apply take_app_length.
Qed.

(** [Next] followed by an operation on the value it announces. *)
Lemma reads_next {S A} `{UnpackHost S, !Ready S} b (m : GoM S A) e a :
  reads_after b m e a → reads (via Unpacker.Next;; m) (b :: e) a.
Proof.
  intros Hm s rest Hok Hr. simpl in Hr.
  destruct (reads_pop b (host_get s) (e ++ rest) I Hr) as (u1 & E1 & Hr1).
  set (u2 := Unpacker.set_mrk (markers b) u1).
  assert (Hr2 : at_rest u2 (e ++ rest)).
  { destruct Hr1 as (Hwf & He & Hd). split_and!; [| done..]. unfold wf in *; simpl.
    pose proof (numlenbytes_range b). lia. }
  destruct (Hm (host_set u2 s) rest) as (u3 & E3 & Hr3).
  - by apply host_ok_set.
  - by rewrite host_get_set.
  - by rewrite host_get_set.
  - by rewrite host_get_set.
  - exists u3. split; [| done]. unfold mbind, GoM_bind, via at 1, Unpacker.Next, mbind, GoM_bind.
    rewrite E1. simpl. fold u2. rewrite E3. by rewrite host_set_set.
Qed.

(** [item m t enc a]: [enc] is one packed value of kind [t], and after [Next]
    the operation [m] reads it as [a]. *)
Definition item {S A} `{UnpackHost S, !Ready S} (m : GoM S A) (t : packed) (enc : list byte) (a : A) : Prop :=
  ∃ b e, enc = b :: e ∧ typ (markers b) = t ∧ reads_after b m e a.

Lemma item_next {S A} `{UnpackHost S, !Ready S} (m : GoM S A) t enc a :
  item m t enc a → reads (via Unpacker.Next;; m) enc a.
Proof. intros (b & e & -> & _ & Hm). by apply reads_next. Qed.

Lemma item_via {S A} `{UnpackHost S, !Ready S} (m : GoM Unpacker.Unpacker A) t enc a :
  item m t enc a → item (via m) t enc a.
Proof. intros (b & e & -> & ? & ?). exists b, e. split_and!; [done.. |]. by apply reads_after_via. Qed.

Lemma item_bind {S A B} `{UnpackHost S, !Ready S} (m : GoM S A) (k : A → GoM S B) t e1 e2 a b :
  item m t e1 a → reads (k a) e2 b → item (m ≫= k) t (e1 ++ e2) b.
Proof.
  intros (c & e & -> & ? & ?) Hk. exists c, (e ++ e2). split_and!; [done.. |].
  by eapply reads_after_bind.
Qed.

Lemma item_map {S A B} `{UnpackHost S, !Ready S} (m : GoM S A) (f : A → B) t e a b :
  item m t e a → f a = b → item (x ← m; mret (f x)) t e b.
Proof.
  intros (c & e' & -> & ? & ?) <-. exists c, e'. split_and!; [done.. |].
  by eapply reads_after_map.
Qed.

(** * What the packer appends *)

(** [appends f bs]: [f] appends [bs] and reports no error. *)
Definition appends (f : Packer.Packer → Packer.Packer) (bs : list byte) : Prop :=
  ∀ p, f p = Packer.emit bs p.

(** The bytes an operation writes into an empty packer. *)
Definition written (f : Packer.Packer → Packer.Packer) : list byte :=
  Packer.buf (f (Packer.mkPacker [] None)).

Lemma appends_written f bs : appends f bs → written f = bs.
Proof. intros Hf. unfold written. by rewrite Hf. Qed.

Lemma appends_emit bs : appends (Packer.emit bs) bs.
Proof. done. Qed.

Lemma appends_nil : appends id [].
Proof. intros [b e]. unfold Packer.emit. simpl. by rewrite app_nil_r. Qed.

Lemma appends_comp f g b1 b2 :
  appends f b1 → appends g b2 → appends (λ p, g (f p)) (b1 ++ b2).
Proof. intros Hf Hg p. rewrite Hf, Hg. unfold Packer.emit. simpl. by rewrite app_assoc. Qed.

Lemma appends_range {A} (f : A → Packer.Packer → Packer.Packer) (g : A → list byte) xs :
  Forall (λ x, appends (f x) (g x)) xs → appends (Packer.range_over f xs) (concat (g <$> xs)).
Proof.
  unfold Packer.range_over. induction 1 as [| x xs Hx _ IH]; simpl; [apply appends_nil |].
  intros p. rewrite Hx, IH. unfold Packer.emit. simpl. by rewrite app_assoc.
Qed.

(** ** Integers *)

Lemma Int64_appends i : appends (Packer.Int64 i) (written (Packer.Int64 i)).
Proof. intros p. unfold written, Packer.Int64. by repeat case_match. Qed.

Lemma tiny_int_marker i :
  -0x10 <= i < 0x80 → markers (to_byte i) = mkMarker PackedInt i 0.
Proof.
  intros Hi. unfold markers. rewrite byte.unsigned_of_Z. unfold byte.wrap.
  destruct (decide (0 <= i)).
  - rewrite Z.mod_small by lia. zdec. rewrite swrap_small; [done | lia | split; lia].
  - replace (i mod 2 ^ 8) with (i + 256) by (rewrite <- (Z.mod_add _ 1), Z.mod_small; lia).
    zdec. replace (i + 256 - 0x100) with i by lia. rewrite swrap_small; [done | lia | split; lia].
Qed.

(** A fixed-width integer after its marker byte. *)
Lemma reads_fixed_int b (n : nat) i :
  markers b = mkMarker PackedInt 0 (Z.of_nat n) → n ∈ [1; 2; 4; 8]%nat →
  signed (Z.of_nat n * 8) i → reads_after b Unpacker.Int (be_bytes n i) i.
Proof.
  intros Hb Hn Hi u rest _ Hr Hmrk _. simpl in *. unfold id in *.
  exists (Unpacker.set_off (Unpacker.off u + Z.of_nat n) u). split.
  - unfold Unpacker.Int. rewrite Hmrk, Hb. cbn [numlenbytes].
    pose proof (at_rest_length _ _ Hr) as Hl. unfold Packer.len in Hl.
    rewrite length_app, be_bytes_length in Hl.
    assert (Hw : wf u) by apply Hr. assert (Z.of_nat n <= 8) by set_solver by lia.
    rewrite wf_add by (done || lia).
    unfold mbind, GoM_bind, go_modify, mret, GoM_ret.
    set_unfold in Hn. destruct_or! Hn; try done; subst n; simpl Z.of_nat in *; zdec;
      rewrite (reads_uint _ _ _ _ Hr); simpl Z.of_nat; simpl Z.mul;
      rewrite swrap_uwrap, swrap_small by (done || lia); done.
  - eapply at_rest_advance; [done |]. unfold Packer.len. by rewrite be_bytes_length.
Qed.

Lemma item_Int i : signed 64 i → item Unpacker.Int PackedInt (written (Packer.Int64 i)) i.
Proof.
  intros Hi. unfold written, Packer.Int64.
  destruct ((-0x10 <=? i) && (i <? 0x80)) eqn:E1.
  { zbool. exists (to_byte i), []. rewrite tiny_int_marker by lia. split_and!; [done.. |].
    intros u rest _ Hr Hmrk _. exists u. simpl in *. unfold id in *. split; [| done].
    unfold Unpacker.Int. rewrite Hmrk, tiny_int_marker by lia. done. }
  destruct ((-0x80 <=? i) && (i <? -0x10)) eqn:E2.
  { zbool. exists Byte.xc8, (be_bytes 1 i). split_and!; [done.. |].
    apply (reads_fixed_int _ 1); [done | set_solver | split; simpl; lia]. }
  destruct ((-0x8000 <=? i) && (i <? 0x8000)) eqn:E3.
  { zbool. exists Byte.xc9, (be_bytes 2 i). split_and!; [simpl; by rewrite (be_bytes_uwrap 2) | done |].
    apply (reads_fixed_int _ 2); [done | set_solver | split; simpl; lia]. }
  destruct ((-0x80000000 <=? i) && (i <? 0x80000000)) eqn:E4.
  { zbool. exists Byte.xca, (be_bytes 4 i). split_and!; [simpl; by rewrite (be_bytes_uwrap 4) | done |].
    apply (reads_fixed_int _ 4); [done | set_solver | split; simpl; lia]. }
  exists Byte.xcb, (be_bytes 8 i). split_and!; [simpl; by rewrite (be_bytes_uwrap 8) | done |].
  apply (reads_fixed_int _ 8); [done | set_solver | done].
Qed.

(** ** Lengths *)

(** The three families of length headers: tiny marker, base of the long
    markers, kind. *)
Inductive header_family : Z → Z → packed → Prop :=
| family_str : header_family 0x80 0xd0 PackedStr
| family_array : header_family 0x90 0xd4 PackedArray
| family_map : header_family 0xa0 0xd8 PackedMap.

Lemma tiny_len_marker so lo t l :
  header_family so lo t → 0 <= l < 0x10 → markers (to_byte (so + l)) = mkMarker t l 0.
Proof.
  intros Hf Hl. unfold markers. rewrite byte.unsigned_of_Z. unfold byte.wrap.
  rewrite Z.mod_small by (destruct Hf; lia). destruct Hf; zdec.
  all: match goal with |- mkMarker _ (i8 ?x) _ = _ => replace x with l by lia end.
  all: rewrite swrap_small; [done | lia | split; lia].
Qed.

Lemma long_len_markers so lo t :
  header_family so lo t →
  markers (to_byte lo) = mkMarker t 0 1 ∧
  markers (to_byte (lo + 1)) = mkMarker t 0 2 ∧
  markers (to_byte (lo + 2)) = mkMarker t 0 4.
Proof. destruct 1; vm_compute; done. Qed.

(** A length stored in [n] bytes after its marker. *)
Lemma reads_fixed_len b t (n : nat) l :
  markers b = mkMarker t 0 (Z.of_nat n) → n ∈ [1; 2; 4]%nat →
  unsigned (Z.of_nat n * 8) l → reads_after b Unpacker.Len (be_bytes n l) l.
Proof.
  intros Hb Hn Hi u rest _ Hr Hmrk _. simpl in *. unfold id in *.
  exists (Unpacker.set_off (Unpacker.off u + Z.of_nat n) u). split.
  - unfold Unpacker.Len. rewrite Hmrk, Hb. cbn [numlenbytes].
    pose proof (at_rest_length _ _ Hr) as Hl. unfold Packer.len in Hl.
    rewrite length_app, be_bytes_length in Hl.
    assert (Hw : wf u) by apply Hr. assert (0 < Z.of_nat n <= 4) by set_solver by lia.
    zdec. unfold Unpacker.readlen. rewrite wf_add by (done || lia).
    unfold mbind, GoM_bind, go_modify, mret, GoM_ret.
    set_unfold in Hn. destruct_or! Hn; try done; subst n; simpl Z.of_nat in *; zdec;
      rewrite (reads_uint _ _ _ _ Hr); simpl Z.of_nat; simpl Z.mul;
      rewrite uwrap_small by done; done.
  - eapply at_rest_advance; [done |]. unfold Packer.len. by rewrite be_bytes_length.
Qed.

Lemma listHeader_appends l so lo :
  l < 0xffffffff → appends (Packer.listHeader l so lo) (written (Packer.listHeader l so lo)).
Proof.
  intros Hl p. unfold written, Packer.listHeader. repeat case_match; zbool; try done; lia.
Qed.

Lemma item_Len l so lo t :
  header_family so lo t → 0 <= l < 0xffffffff →
  item Unpacker.Len t (written (Packer.listHeader l so lo)) l.
Proof.
  intros Hf Hl. destruct (long_len_markers _ _ _ Hf) as (M1 & M2 & M4).
  unfold written, Packer.listHeader.
  destruct (l <? 0x10) eqn:E1; zbool.
  { exists (to_byte (so + l)), []. rewrite (tiny_len_marker _ _ _ _ Hf) by lia.
    split_and!; [done.. |]. intros u rest _ Hr Hmrk _. exists u. simpl in *. unfold id in *.
    split; [| done]. unfold Unpacker.Len. rewrite Hmrk, (tiny_len_marker _ _ _ _ Hf) by lia.
    simpl. rewrite uwrap_small by (split; lia). done. }
  destruct (l <? 0x100) eqn:E2; zbool.
  { exists (to_byte lo), (be_bytes 1 l). rewrite M1. split_and!; [done.. |].
    eapply (reads_fixed_len _ _ 1); [done | set_solver | split; simpl; lia]. }
  destruct (l <? 0x10000) eqn:E3; zbool.
  { exists (to_byte (lo + 1)), (be_bytes 2 l). rewrite M2.
    split_and!; [simpl; by rewrite (be_bytes_uwrap 2) | done |].
    eapply (reads_fixed_len _ _ 2); [done | set_solver | split; simpl; lia]. }
  destruct (l <? 0xffffffff) eqn:E4; zbool; [| lia].
  exists (to_byte (lo + 2)), (be_bytes 4 l). rewrite M4.
  split_and!; [simpl; by rewrite (be_bytes_uwrap 4) | done |].
  eapply (reads_fixed_len _ _ 4); [done | set_solver | split; simpl; lia].
Qed.

(** ** Strings, byte arrays *)

Lemma String_appends s :
  Packer.strlen s < 0xffffffff → appends (Packer.String s) (written (Packer.String s)).
Proof.
  intros Hs p. unfold written, Packer.String.
  rewrite !(listHeader_appends _ _ _ Hs). unfold Packer.emit; simpl. by rewrite <- app_assoc.
Qed.

Lemma written_String s :
  Packer.strlen s < 0xffffffff →
  written (Packer.String s) =
    written (Packer.listHeader (Packer.strlen s) 0x80 0xd0) ++ bytes_of s.
Proof.
  intros Hs. unfold written, Packer.String.
  by rewrite (listHeader_appends _ _ _ Hs (Packer.mkPacker [] None)).
Qed.

Lemma strlen_bytes s : Packer.strlen s = Packer.len (bytes_of s).
Proof. unfold Packer.strlen, Packer.len. by rewrite bytes_of_length. Qed.

Lemma item_String s :
  Packer.strlen s < 0xffffffff →
  item Unpacker.String PackedStr (written (Packer.String s)) s.
Proof.
  intros Hs. rewrite written_String by done.
  assert (Hit : item (b ← (n ← Unpacker.Len; Unpacker.read n); mret (string_of b)) PackedStr
     (written (Packer.listHeader (Packer.strlen s) 0x80 0xd0) ++ bytes_of s) s).
  { eapply item_map; [| apply string_of_bytes_of]. eapply item_bind.
    - apply item_Len; [constructor |]. unfold Packer.strlen in *. lia.
    - rewrite strlen_bytes. apply reads_read. }
  destruct Hit as (b & e & -> & Ht & Hr). exists b, e. split_and!; [done.. |].
  intros u rest ????. rewrite String_alt. by apply Hr.
Qed.

Lemma bytesHeader_appends l p :
  l < 0x100000000 →
  Packer.bytesHeader l p =
    (None, Packer.emit (Packer.buf (snd (Packer.bytesHeader l (Packer.mkPacker [] None)))) p).
Proof.
  intros Hl. unfold Packer.bytesHeader. repeat case_match; zbool; try done; lia.
Qed.

(** The header alone, as a byte sequence. *)
Definition bytes_header (l : Z) : list byte :=
  Packer.buf (snd (Packer.bytesHeader l (Packer.mkPacker [] None))).

Lemma item_bytes_Len l :
  0 <= l < 0x100000000 → item Unpacker.Len PackedByteArray (bytes_header l) l.
Proof.
  intros Hl. unfold bytes_header, Packer.bytesHeader.
  destruct (l <? 0x100) eqn:E2; zbool.
  { exists Byte.xcc, (be_bytes 1 l). split_and!; [done.. |].
    eapply (reads_fixed_len _ _ 1); [done | set_solver | split; simpl; lia]. }
  destruct (l <? 0x10000) eqn:E3; zbool.
  { exists Byte.xcd, (be_bytes 2 l).
    split_and!; [simpl; by rewrite (be_bytes_uwrap 2) | done |].
    eapply (reads_fixed_len _ _ 2); [done | set_solver | split; simpl; lia]. }
  destruct (l <? 0x100000000) eqn:E4; zbool; [| lia].
  exists Byte.xce, (be_bytes 4 l).
  split_and!; [simpl; by rewrite (be_bytes_uwrap 4) | done |].
  eapply (reads_fixed_len _ _ 4); [done | set_solver | split; simpl; lia].
Qed.

Lemma Bytes_appends b :
  Packer.len b < 0x100000000 → appends (Packer.Bytes b) (bytes_header (Packer.len b) ++ b).
Proof.
  intros Hb p. unfold Packer.Bytes. rewrite bytesHeader_appends by done.
  unfold Packer.emit; simpl. by rewrite <- app_assoc.
Qed.

Lemma item_ByteArray b :
  Packer.len b < 0x100000000 →
  item Unpacker.ByteArray PackedByteArray (bytes_header (Packer.len b) ++ b) b.
Proof.
  intros Hb. eapply item_bind; [apply item_bytes_Len; unfold Packer.len in *; lia |].
  apply reads_read.
Qed.

(** ** Structures and scalars *)

Lemma StructHeader_appends tag n :
  n <= 0xf → appends (Packer.StructHeader tag n) [to_byte (0xb0 + n); tag].
Proof. intros Hn p. unfold Packer.StructHeader. by zdec. Qed.

Lemma struct_marker n : 0 <= n < 0x10 → markers (to_byte (0xb0 + n)) = mkMarker PackedStruct n 0.
Proof.
  intros Hl. unfold markers. rewrite byte.unsigned_of_Z. unfold byte.wrap.
  rewrite Z.mod_small by lia. zdec.
  replace (176 + n - 176) with n by lia. rewrite swrap_small; [done | lia | split; lia].
Qed.

Lemma item_Float bits :
  unsigned 64 bits → item Unpacker.Float PackedFloat (written (Packer.Float64 bits)) bits.
Proof.
  intros Hb. exists Byte.xc1, (be_bytes 8 bits). split_and!; [done.. |].
  apply reads_after_weaken. intros u rest _ Hr.
  destruct (reads_read (be_bytes 8 bits) u rest I Hr) as (u' & E & Hr').
  exists u'. split; [| done]. unfold Unpacker.Float, mbind, GoM_bind.
  unfold Packer.len in E. rewrite be_bytes_length in E. change (Z.of_nat 8) with 8 in E.
  rewrite E.
  assert (He : Unpacker.Err u' = None) by apply Hr'. simpl. rewrite He.
  by rewrite be_value_bytes, uwrap_small by done.
Qed.

Lemma item_Bool (b : bool) : item Unpacker.Bool (if b then PackedTrue else PackedFalse)
  (written (Packer.Bool b)) b.
Proof.
  destruct b; eexists _, []; (split_and!; [done.. |]); intros u rest _ Hr _ Hc;
    exists u; simpl in *; unfold id in *; (split; [| done]); unfold Unpacker.Bool; by rewrite Hc.
Qed.

Lemma item_UUID u : length u = 16%nat → item Unpacker.UUID PackedUUID (written (Packer.UUID u)) u.
Proof.
  intros Hu. exists Byte.xe0, u. split_and!; [done.. |]. apply reads_after_weaken.
  eapply reads_map; [| rewrite Hu; apply app_nil_r].
  replace 16 with (Packer.len u) by (unfold Packer.len; lia). apply reads_read.
Qed.
