(* ===== verification/Chunking.v ===== *)
(** Bolt message framing: the [chunker] of neo4j/internal/bolt/chunker.go and
    [dechunkMessage] of neo4j/internal/bolt/dechunker.go, the frame format they
    implement, and the round trip between them.

    The connection is a parameter: a writer for the chunker, a reader for the
    dechunker, each free to fail.  Buffers are modelled with their in-place
    updates; a write outside a buffer panics. *)

From S2P Require Import Prelude Packer Values Errors.
#[local] Open Scope Z_scope.
#[local] Open Scope go_scope.

(** * Buffers *)

(** [copy(b\[i:\], x)] for [x] inside [b]; [None] when it is not. *)
Definition put_at (i : nat) (x b : list byte) : option (list byte) :=
  if decide (i + length x ≤ length b)%nat
  then Some (take i b ++ x ++ drop (i + length x) b) else None.

(** [b\[s:e\]] *)
Definition slice (s e : nat) (b : list byte) : option (list byte) :=
  if decide (s ≤ e ∧ e ≤ length b)%nat then Some (take (e - s) (drop s b)) else None.

(** * The chunker *)

Module chunker.

Record chunker : Type := mkChunker { buf : list byte; sizes : list Z; offset : Z }.

Definition newChunker : chunker := mkChunker [] [] 0.

Definition beginMessage (c : chunker) : chunker :=
  mkChunker (buf c ++ [Byte.x00; Byte.x00]) (sizes c) (offset c + 2).

Definition endMessage (c : chunker) : chunker :=
  let size := Packer.len (buf c) - offset c in
  mkChunker (buf c ++ [Byte.x00; Byte.x00]) (sizes c ++ [size]) (offset c + size + 2).

(** [c.buf = b], done by the packer between the two calls above. *)
Definition set_buf (b : list byte) (c : chunker) : chunker := mkChunker b (sizes c) (offset c).

Definition reset (c : chunker) : chunker := mkChunker [] [] 0.

Definition processWriteError (e : error) : error :=
  if IsTimeoutError e then ConnectionWriteTimeout e
  else match e with ContextCanceled => ConnectionWriteCanceled e | _ => e end.

Section Send.
(** The connection: its state and [writer.Write]. *)
Context {W : Type} (write : list byte → W → option error * W).

(** The loop variables of [send], the buffer and the connection. *)
Record sending : Type := mkSending { s_buf : list byte; s_start : nat; s_end : nat; s_wr : W }.

(** [copy(c.buf\[end:\], x)] *)
Definition put_end (x : list byte) : GoM sending unit := λ s,
  match put_at (s_end s) x (s_buf s) with
  | Some b => Done (tt, mkSending b (s_start s) (s_end s) (s_wr s))
  | None => Panic
  end.

Definition set_end (f : nat → nat) : GoM sending unit :=
  go_modify (λ s, mkSending (s_buf s) (s_start s) (f (s_end s)) (s_wr s)).

(** [writer.Write(ctx, c.buf\[start:end\])] *)
Definition flush : GoM sending (option error) := λ s,
  match slice (s_start s) (s_end s) (s_buf s) with
  | Some x =>
      let '(e, w) := write x (s_wr s) in
      Done (processWriteError <$> e, mkSending (s_buf s) (s_start s) (s_end s) w)
  | None => Panic
  end.

(** The inner loop: full chunks while the message does not fit in one. *)
Fixpoint send_large (fuel : nat) (size : Z) : GoM sending (error + Z) :=
  if size >? 0xffff then
    match fuel with
    | O => go_nofuel
    | S fuel =>
        put_end [Byte.xff; Byte.xff];;
        set_end (λ e, e + (2 + Z.to_nat 0xffff))%nat;;
        err ← flush;
        match err with
        | Some e => mret (inl e)
        | None =>
            set_end (λ e, e - 2)%nat;;
            go_modify (λ s, mkSending (s_buf s) (s_end s) (s_end s) (s_wr s));;
            send_large fuel (size - 0xffff)
        end
    end
  else mret (inr size).

(** One iteration of the outer loop. *)
Definition send_message (size : Z) : GoM sending (option error) :=
  if size <=? 0xffff then
    put_end (be_bytes 2 (u16 size));;
    set_end (λ e, e + (2 + Z.to_nat size + 2))%nat;;
    mret None
  else
    r ← send_large (Z.to_nat size) size;
    match r with
    | inl e => mret (Some e)
    | inr size =>
        put_end (be_bytes 2 (u16 size));;
        set_end (λ e, e + (2 + Z.to_nat size + 2))%nat;;
        mret None
    end.

Fixpoint send_messages (sizes : list Z) : GoM sending (option error) :=
  match sizes with
  | [] => mret None
  | size :: sizes =>
      err ← send_message size;
      match err with
      | Some e => mret (Some e)
      | None => send_messages sizes
      end
  end.

(** The remainder after the loop: one last write if anything is pending. *)
Definition send_rest : GoM sending (option error) := λ s,
  if (s_start s <? s_end s)%nat then flush s else Done (None, s).

Definition send (c : chunker) (w : W) : outcome (option error * (chunker * W)) :=
  match (err ← send_messages (sizes c);
         match err with
         | Some e => mret (Some e)
         | None => send_rest
         end) (mkSending (buf c) 0 0 w) with
  | Done (Some e, s) => Done (Some e, (set_buf (s_buf s) c, s_wr s))
  | Done (None, s) => Done (None, (reset (set_buf (s_buf s) c), s_wr s))
  | Panic => Panic
  | OutOfFuel => OutOfFuel
  end.
End Send.
End chunker.

(** * The dechunker *)

Module dechunker.

Definition processReadError (e : error) : error :=
  if IsTimeoutError e then ConnectionReadTimeout e
  else match e with ContextCanceled => ConnectionReadCanceled e | _ => e end.

Section Dechunk.
(** The connection: its state and [reader.ReadFull] into a buffer of the
    given size, which reports the bytes that did arrive. *)
Context {R : Type} (readFull : nat → R → (list byte * option error) * R).

(** The reused buffer, the message if one was completed, the error. *)
Definition result : Type := list byte * option (list byte) * option error.

(** [msgBuf] has its length equal to its capacity: it is only ever replaced
    by a fresh [make]. *)
Definition grow (need : nat) (msgBuf : list byte) : list byte :=
  if decide (length msgBuf < need)%nat
  then msgBuf ++ replicate (need + 4096 - length msgBuf) Byte.x00
  else msgBuf.

Fixpoint dechunk_loop (fuel : nat) (msgBuf : list byte) (off : nat) (r : R) :
    outcome (result * R) :=
  match fuel with
  | O => OutOfFuel
  | S fuel =>
      match readFull 2 r with
      | ((_, Some e), r) => Done ((msgBuf, None, Some (processReadError e)), r)
      | ((sizeBuf, None), r) =>
          let chunkSize := Z.to_nat (be_value sizeBuf) in
          if decide (chunkSize = 0%nat) then
            if decide (0 < off)%nat then
              match slice 0 off msgBuf with
              | Some m => Done ((msgBuf, Some m, None), r)
              | None => Panic
              end
            else dechunk_loop fuel msgBuf off r
          else
            let msgBuf := grow (off + chunkSize) msgBuf in
            match readFull chunkSize r with
            | ((x, e), r) =>
                match put_at off x msgBuf with
                | None => Panic
                | Some msgBuf =>
                    match e with
                    | Some e => Done ((msgBuf, None, Some (processReadError e)), r)
                    | None => dechunk_loop fuel msgBuf (off + chunkSize) r
                    end
                end
            end
      end
  end.

Definition dechunkMessage (fuel : nat) (msgBuf : list byte) (r : R) : outcome (result * R) :=
  dechunk_loop fuel msgBuf 0 r.
End Dechunk.
End dechunker.
