(* ===== verification/ChunkingFacts.v ===== *)
(** Proofs about framing: what [chunker.send] writes, what [dechunkMessage]
    reads, and that the two are inverse to each other. *)

From S2P Require Import Prelude Packer Values Errors Chunking.
#[local] Open Scope Z_scope.
#[local] Open Scope go_scope.

(** * The frame format *)

(** The largest chunk. *)
Definition max_chunk : nat := Z.to_nat 0xffff.

(** A message as it travels: full chunks, a last chunk, and the end marker. *)
Fixpoint frame_fuel (fuel : nat) (m : list byte) : list byte :=
  match fuel with
  | O => []
  | S fuel =>
      if Packer.len m <=? 0xffff
      then be_bytes 2 (Packer.len m) ++ m ++ [Byte.x00; Byte.x00]
      else [Byte.xff; Byte.xff] ++ take max_chunk m ++ frame_fuel fuel (drop max_chunk m)
  end.

Definition frame (m : list byte) : list byte := frame_fuel (S (length m)) m.

(** Unary arithmetic on this constant is never wanted. *)
#[local] Opaque max_chunk.

Lemma max_chunk_Z : Z.of_nat max_chunk = 0xffff.
Proof. reflexivity. Qed.

Lemma frame_fuel_enough f1 f2 m :
  (length m < f1)%nat → (length m < f2)%nat → frame_fuel f1 m = frame_fuel f2 m.
Proof.
  revert f2 m. induction f1 as [| f1 IH]; intros [| f2] m H1 H2; cbn [frame_fuel]; try lia.
  destruct (Z.leb_spec (Packer.len m) 0xffff); [done |]. do 2 f_equal. unfold Packer.len in *.
  pose proof max_chunk_Z. apply IH; rewrite length_drop; lia.
Qed.

Lemma frame_small m :
  Packer.len m <= 0xffff →
  frame m = be_bytes 2 (Packer.len m) ++ m ++ [Byte.x00; Byte.x00].
Proof. intros Hm. unfold frame. simpl. by zdec. Qed.

Lemma frame_large m :
  0xffff < Packer.len m →
  frame m = [Byte.xff; Byte.xff] ++ take max_chunk m ++ frame (drop max_chunk m).
Proof.
  intros Hm. unfold frame at 1. cbn [frame_fuel]. zdec. do 2 f_equal.
  pose proof max_chunk_Z. unfold Packer.len in *.
  unfold frame. apply frame_fuel_enough; rewrite length_drop; lia.
Qed.

(** * What [send] writes *)

Section Writing.
Import chunker.

(** A connection that records what is written and does not fail. *)
Definition ok_write (b : list byte) (w : list (list byte)) : option error * list (list byte) :=
  (None, w ++ [b]).

#[local] Notation st := (sending (W := list (list byte))).

(** [sofar] is what has been written plus what is pending in the buffer;
    [tail] is the buffer from [end] on. *)
Definition inv (s : st) (sofar tail : list byte) : Prop :=
  (s_start s ≤ s_end s ≤ length (s_buf s))%nat ∧
  drop (s_end s) (s_buf s) = tail ∧
  concat (s_wr s) ++ take (s_end s - s_start s) (drop (s_start s) (s_buf s)) = sofar.

Lemma inv_length s sofar tail :
  inv s sofar tail → length (s_buf s) = (s_end s + length tail)%nat.
Proof. intros (? & <- & ?). rewrite length_drop. lia. Qed.

Lemma slice_split (b : list byte) (i j : nat) x :
  (i ≤ j ≤ length b)%nat →
  take (j - i) (drop i (take j b ++ x)) = take (j - i) (drop i b).
Proof.
  intros Hij. rewrite <- (take_drop j b) at 2.
  rewrite !drop_app_le by (rewrite length_take; lia).
  rewrite !take_app_le; [done | rewrite length_drop, length_take; lia..].
Qed.

Lemma put_end_inv s sofar x y t :
  inv s sofar (y ++ t) → length x = length y →
  ∃ s', put_end x s = Done (tt, s') ∧ inv s' sofar (x ++ t).
Proof.
  intros Hinv Hxy. pose proof (inv_length _ _ _ Hinv) as Hl.
  destruct Hinv as (Hse & Ht & Hs). rewrite length_app in Hl.
  unfold put_end, put_at. rewrite decide_True by lia.
  eexists. split; [done |]. unfold inv. cbn [s_start s_end s_buf s_wr].
  assert (Hd : drop (s_end s + length x) (s_buf s) = t).
  { rewrite <- drop_drop, Ht, Hxy. apply drop_app_length. }
  rewrite Hd. split_and!.
  - lia.
  - rewrite !length_app, length_take. lia.
  - rewrite drop_app_ge by (rewrite length_take; lia).
    rewrite length_take. replace (_ - _)%nat with 0%nat by lia. done.
  - rewrite slice_split by lia. done.
Qed.

Lemma set_end_inv s sofar x t :
  inv s sofar (x ++ t) →
  ∃ s', set_end (λ e, e + length x)%nat s = Done (tt, s') ∧ inv s' (sofar ++ x) t ∧
    s_start s' = s_start s ∧ s_end s' = (s_end s + length x)%nat ∧ s_buf s' = s_buf s.
Proof.
  intros Hinv. pose proof (inv_length _ _ _ Hinv) as Hl.
  destruct Hinv as (Hse & Ht & Hs). rewrite length_app in Hl.
  eexists. split; [done |]. split_and!; [| done..]. unfold inv. cbn [s_start s_end s_buf s_wr].
  split_and!; [lia | lia | |].
  - rewrite <- drop_drop, Ht. apply drop_app_length.
  - rewrite <- Hs, <- app_assoc. f_equal.
    replace (s_end s + length x - s_start s)%nat
      with ((s_end s - s_start s) + length x)%nat by lia.
    rewrite <- take_take_drop. f_equal. rewrite drop_drop.
    replace (s_start s + (s_end s - s_start s))%nat with (s_end s) by lia.
    rewrite Ht. apply take_app_length.
Qed.

Lemma flush_inv s sofar t :
  inv s sofar t →
  ∃ s', flush ok_write s = Done (None, s') ∧ concat (s_wr s') = sofar ∧
    s_start s' = s_start s ∧ s_end s' = s_end s ∧ s_buf s' = s_buf s.
Proof.
  intros (Hse & Ht & Hs). unfold flush, slice. rewrite decide_True by lia. simpl.
  eexists. split; [done |]. simpl. split_and!; [| done..].
  rewrite concat_app. simpl. by rewrite app_nil_r.
Qed.

(** After a full chunk has been written, the cursor steps back over its
    last two bytes, which will hold the next chunk's size. *)
Lemma step_back_inv s sofar t :
  concat (s_wr s) = sofar → (2 ≤ s_end s ≤ length (s_buf s))%nat →
  drop (s_end s) (s_buf s) = t →
  ∃ s' junk, (set_end (λ e, e - 2)%nat;;
     go_modify (λ s : st, mkSending (s_buf s) (s_end s) (s_end s) (s_wr s))) s = Done (tt, s') ∧
    length junk = 2%nat ∧ inv s' sofar (junk ++ t).
Proof.
  intros Hw He Ht. exists (mkSending (s_buf s) (s_end s - 2) (s_end s - 2) (s_wr s)).
  exists (take 2 (drop (s_end s - 2) (s_buf s))). split; [done |]. split.
  - rewrite length_take, length_drop. lia.
  - unfold inv. cbn [s_start s_end s_buf s_wr]. split_and!; [lia | lia | |].
    + rewrite <- (take_drop 2 (drop (s_end s - 2) (s_buf s))) at 1. f_equal.
      rewrite drop_drop. replace (s_end s - 2 + 2)%nat with (s_end s) by lia. done.
    + rewrite Nat.sub_diag. simpl. by rewrite app_nil_r.
Qed.

(** The last chunk of a message and its end marker. *)
Lemma send_last_inv s sofar junk m t :
  inv s sofar (junk ++ m ++ [Byte.x00; Byte.x00] ++ t) → length junk = 2%nat →
  Packer.len m <= 0xffff →
  ∃ s', (put_end (be_bytes 2 (u16 (Packer.len m)));;
         set_end (λ e, e + (2 + Z.to_nat (Packer.len m) + 2))%nat;; mret (@None error)) s
        = Done (None, s') ∧ inv s' (sofar ++ frame m) t.
Proof.
  intros Hinv Hj Hm.
  destruct (put_end_inv _ _ (be_bytes 2 (u16 (Packer.len m))) _ _ Hinv) as (s1 & E1 & H1).
  { by rewrite be_bytes_length. }
  rewrite frame_small by done. rewrite (be_bytes_uwrap 2) in H1.
  destruct (set_end_inv s1 sofar (be_bytes 2 (Packer.len m) ++ m ++ [Byte.x00; Byte.x00]) t)
    as (s2 & E2 & H2 & _).
  { by rewrite <- !app_assoc. }
  exists s2. split; [| done]. unfold mbind, GoM_bind. rewrite E1.
  rewrite !length_app, be_bytes_length in E2. simpl in E2. unfold Packer.len.
  rewrite Nat2Z.id. replace (2 + length m + 2)%nat with (2 + (length m + 2))%nat by lia.
  unfold set_end, go_modify in *. by inversion E2.
Qed.

Lemma send_large_inv fuel s sofar junk m t :
  inv s sofar (junk ++ m ++ t) → length junk = 2%nat → (length m ≤ fuel)%nat →
  ∃ s' full junk' m2,
    send_large ok_write fuel (Packer.len m) s = Done (inr (Packer.len m2), s') ∧
    inv s' (sofar ++ full) (junk' ++ m2 ++ t) ∧ length junk' = 2%nat ∧
    Packer.len m2 <= 0xffff ∧ frame m = full ++ frame m2.
Proof.
  revert s sofar junk m. induction fuel as [| fuel IH]; intros s sofar junk m Hinv Hj Hfuel.
  { destruct m; simpl in Hfuel; [| lia]. exists s, [], junk, [].
    rewrite app_nil_r. split_and!; done. }
  destruct (Z.le_gt_cases (Packer.len m) 0xffff) as [Hs | Hl].
  { exists s, [], junk, m. rewrite app_nil_r. cbn [send_large]. zdec. split_and!; done. }
  pose proof max_chunk_Z as HM. cbn [send_large]. zdec.
  destruct (put_end_inv _ _ [Byte.xff; Byte.xff] _ _ Hinv) as (s1 & E1 & H1); [done |].
  assert (Hlen : (max_chunk < length m)%nat) by (unfold Packer.len in Hl; lia).
  rewrite <- (take_drop max_chunk m), <- app_assoc in H1.
  destruct (set_end_inv s1 sofar ([Byte.xff; Byte.xff] ++ take max_chunk m)
              (drop max_chunk m ++ t)) as (s2 & E2 & H2 & Hst & Hen & Hbf).
  { by rewrite <- app_assoc. }
  rewrite length_app, length_take in E2, Hen.
  replace (length [Byte.xff; Byte.xff] + max_chunk `min` length m)%nat
    with (2 + Z.to_nat 0xffff)%nat in E2, Hen by (simpl; lia).
  destruct (flush_inv _ _ _ H2) as (s3 & E3 & Hw3 & Hs3 & He3 & Hb3).
  pose proof (inv_length _ _ _ H2) as Hlen2. destruct H2 as (Hse2 & Ht2 & _).
  destruct (step_back_inv s3 _ (drop max_chunk m ++ t) Hw3) as (s4 & junk' & E4 & Hj' & H4).
  { rewrite Hb3, He3. lia. }
  { by rewrite Hb3, He3. }
  destruct (IH s4 _ junk' (drop max_chunk m) H4 Hj') as (s5 & full & junk2 & m2 & E5 & H5 & ? & ? & Hf).
  { rewrite length_drop. lia. }
  exists s5, (([Byte.xff; Byte.xff] ++ take max_chunk m) ++ full), junk2, m2.
  split_and!; [| by rewrite app_assoc | done.. |].
  - unfold mbind, GoM_bind in *. rewrite E1, E2, E3.
    replace (Packer.len m - 0xffff) with (Packer.len (drop max_chunk m))
      by (unfold Packer.len; rewrite length_drop; lia).
    destruct (set_end (λ e, e - 2)%nat s3) as [[[] s3'] | |] eqn:E; [| done..].
    rewrite E4. done.
  - rewrite frame_large by done. rewrite Hf. by rewrite <- !app_assoc.
Qed.

Lemma send_message_inv s sofar junk m t :
  inv s sofar (junk ++ m ++ [Byte.x00; Byte.x00] ++ t) → length junk = 2%nat →
  ∃ s', send_message ok_write (Packer.len m) s = Done (None, s') ∧ inv s' (sofar ++ frame m) t.
Proof.
  intros Hinv Hj. unfold send_message. destruct (Z.leb_spec (Packer.len m) 0xffff) as [Hs | Hl].
  - by eapply send_last_inv.
  - destruct (send_large_inv (Z.to_nat (Packer.len m)) s sofar junk m _ Hinv Hj)
      as (s1 & full & junk' & m2 & E1 & H1 & Hj' & Hm2 & Hf).
    { unfold Packer.len. lia. }
    destruct (send_last_inv s1 _ junk' m2 t H1 Hj' Hm2) as (s2 & E2 & H2).
    exists s2. rewrite Hf, app_assoc. split; [| done].
    unfold mbind, GoM_bind in *. rewrite E1. apply E2.
Qed.

(** The buffer after the messages [ms] have been begun, written and ended. *)
Definition layout (ms : list (list byte)) : list byte :=
  concat ((λ m, [Byte.x00; Byte.x00] ++ m ++ [Byte.x00; Byte.x00]) <$> ms).

Lemma send_messages_inv ms s sofar :
  inv s sofar (layout ms) →
  ∃ s', send_messages ok_write (Packer.len <$> ms) s = Done (None, s') ∧
    inv s' (sofar ++ concat (frame <$> ms)) [].
Proof.
  revert s sofar. induction ms as [| m ms IH]; intros s sofar Hinv.
  - exists s. by rewrite app_nil_r.
  - change (layout (m :: ms)) with
      (([Byte.x00; Byte.x00] ++ m ++ [Byte.x00; Byte.x00]) ++ layout ms) in Hinv.
    rewrite !fmap_cons. cbn [send_messages concat].
    destruct (send_message_inv s sofar [Byte.x00; Byte.x00] m (layout ms)) as (s1 & E1 & H1);
      [by rewrite <- !app_assoc in Hinv | done |].
    destruct (IH s1 _ H1) as (s2 & E2 & H2). exists s2.
    unfold mbind, GoM_bind. rewrite E1, E2. by rewrite app_assoc.
Qed.

(** The chunker after the messages [ms] went through [begin], the packer
    and [end] (outgoing.go). *)
Definition add_message (c : chunker) (m : list byte) : chunker :=
  let c := beginMessage c in endMessage (set_buf (buf c ++ m) c).

Definition queued (ms : list (list byte)) : chunker := foldl add_message newChunker ms.

Lemma queued_layout ms :
  queued ms = mkChunker (layout ms) (Packer.len <$> ms) (Packer.len (layout ms)).
Proof.
  induction ms as [| m ms IH] using rev_ind; [done |].
  unfold queued in *. rewrite foldl_snoc, IH. unfold add_message, beginMessage, endMessage.
  cbn [buf sizes offset set_buf]. unfold layout. rewrite !fmap_app, concat_app. simpl.
  rewrite <- !app_assoc, app_nil_r. simpl. unfold Packer.len.
  repeat (rewrite length_app; simpl). f_equal; [| lia]. do 2 f_equal. lia.
Qed.

Lemma send_queued ms :
  ∃ w, send ok_write (queued ms) [] = Done (None, (newChunker, w)) ∧
    concat w = concat (frame <$> ms).
Proof.
  rewrite queued_layout. unfold send. cbn [sizes buf].
  destruct (send_messages_inv ms (mkSending (layout ms) 0 0 []) []) as (s & E & Hinv).
  { split_and!; simpl; try done; lia. }
  unfold mbind, GoM_bind, send_rest. rewrite E.
  destruct (Nat.ltb_spec (s_start s) (s_end s)) as [Hlt | Hge].
  - destruct (flush_inv _ _ _ Hinv) as (s' & E' & Hw & _). rewrite E'. by exists (s_wr s').
  - exists (s_wr s). split; [done |]. destruct Hinv as (Hse & _ & Hs). simpl in Hs.
    rewrite <- Hs. replace (s_end s - s_start s)%nat with 0%nat by lia.
    rewrite take_0. by rewrite app_nil_r.
Qed.
End Writing.

(** * What [dechunkMessage] reads *)

Section Reading.
Import dechunker.

(** A connection that delivers the bytes [r] and then ends. *)
Definition list_read (n : nat) (r : list byte) : (list byte * option error) * list byte :=
  if decide (n ≤ length r)%nat then ((take n r, None), drop n r)
  else ((r, Some (match r with [] => EOF | _ => UnexpectedEOF end)), []).

Lemma list_read_app x r : list_read (length x) (x ++ r) = ((x, None), r).
Proof.
  unfold list_read. rewrite decide_True by (rewrite length_app; lia).
  by rewrite take_app_length, drop_app_length.
Qed.

Lemma grow_spec need b :
  ∃ z, grow need b = b ++ z ∧ (need ≤ length (grow need b))%nat.
Proof.
  unfold grow. split_if; eexists; (split; [| shelve]); [done | by rewrite app_nil_r].
  Unshelve. all: rewrite ?length_app, ?length_replicate; lia.
Qed.

(** One chunk: the buffer keeps what was read before it. *)
Lemma dechunk_chunk fuel b off x r acc :
  take off b = acc → off = length acc → x ≠ [] → Packer.len x <= 0xffff →
  ∃ b', take (off + length x) b' = acc ++ x ∧
    dechunk_loop list_read (S fuel) b off (be_bytes 2 (Packer.len x) ++ x ++ r) =
    dechunk_loop list_read fuel b' (off + length x) r.
Proof.
  intros Hacc Hoff Hx Hlen. cbn [dechunk_loop].
  pose proof (list_read_app (be_bytes 2 (Packer.len x)) (x ++ r)) as E.
  rewrite be_bytes_length in E. rewrite E, be_value_bytes.
  rewrite uwrap_small by (unfold Packer.len in *; split; lia).
  unfold Packer.len. rewrite Nat2Z.id.
  rewrite decide_False by (by destruct x). rewrite list_read_app.
  destruct (grow_spec (off + length x) b) as (z & Hz & Hneed).
  unfold put_at. rewrite decide_True by lia. rewrite Hz in *.
  eexists. split; [| done].
  assert (Hob : (off ≤ length b)%nat).
  { apply (f_equal length) in Hacc. rewrite length_take in Hacc. lia. }
  rewrite (take_app_le b z off Hob), Hacc, Hoff.
  rewrite app_assoc, <- length_app. apply take_app_length.
Qed.

(** A whole message, whatever has been read before. *)
Lemma dechunk_rest fuel b off m r acc :
  take off b = acc → off = length acc → (0 < length acc + length m)%nat →
  (length m < fuel)%nat → (off ≤ length b)%nat → m ≠ [] →
  ∃ b', dechunk_loop list_read (S fuel) b off (frame m ++ r) =
    Done ((b', Some (acc ++ m), None), r).
Proof.
  revert b off m acc. induction fuel as [| fuel IH]; intros b off m acc Ha Ho Hp Hf Hb Hm; [lia |].
  destruct (Z.le_gt_cases (Packer.len m) 0xffff) as [Hs | Hl].
  - rewrite frame_small, <- !app_assoc by done.
    destruct (dechunk_chunk (S fuel) b off m ([Byte.x00; Byte.x00] ++ r) acc Ha Ho Hm Hs)
      as (b' & Hb' & E). rewrite E. cbn [dechunk_loop].
    pose proof (list_read_app [Byte.x00; Byte.x00] r) as E2. simpl length in E2. rewrite E2.
    replace (be_value [Byte.x00; Byte.x00]) with 0 by reflexivity.
    rewrite decide_True, decide_True by (done || lia). unfold slice.
    assert (Hlb : (off + length m ≤ length b')%nat).
    { apply (f_equal length) in Hb'. rewrite length_take, length_app in Hb'. lia. }
    rewrite decide_True by lia. exists b'. rewrite drop_0, Nat.sub_0_r, Hb'. done.
  - rewrite frame_large, <- !app_assoc by done. pose proof max_chunk_Z as HM.
    unfold Packer.len in Hl.
    assert (Hlt : length (take max_chunk m) = max_chunk) by (rewrite length_take; lia).
    assert (Hhdr : be_bytes 2 (Packer.len (take max_chunk m)) = [Byte.xff; Byte.xff]).
    { unfold Packer.len. rewrite Hlt, HM. reflexivity. }
    destruct (dechunk_chunk (S fuel) b off (take max_chunk m) (frame (drop max_chunk m) ++ r) acc
                Ha Ho) as (b' & Hb' & E).
    { intros E. rewrite E in Hlt. simpl in Hlt. lia. }
    { unfold Packer.len. lia. }
    rewrite Hhdr in E. rewrite E.
    assert (Hlb : (off + max_chunk ≤ length b')%nat).
    { apply (f_equal length) in Hb'. rewrite length_take, length_app in Hb'. lia. }
    destruct (IH b' (off + length (take max_chunk m))%nat (drop max_chunk m)
                (acc ++ take max_chunk m)) as (b2 & E2).
    + done.
    + rewrite length_app. lia.
    + rewrite length_app. lia.
    + rewrite length_drop. lia.
    + lia.
    + intros E0. apply (f_equal length) in E0. rewrite length_drop in E0. simpl in E0. lia.
    + exists b2. rewrite E2. by rewrite <- app_assoc, take_drop.
Qed.

Lemma dechunk_frame fuel b m r :
  m ≠ [] → (length m < fuel)%nat →
  ∃ b', dechunkMessage list_read (S fuel) b (frame m ++ r) = Done ((b', Some m, None), r).
Proof.
  intros Hm Hf. apply (dechunk_rest fuel b 0 m r []); try done; simpl; [| lia].
  destruct m; [done |]. simpl. lia.
Qed.
End Reading.

(** * The round trip *)

Lemma frame_longer m : (length m + 4 ≤ length (frame m))%nat.
Proof.
  remember (length m) as n eqn:Hn. revert m Hn.
  induction n as [n IH] using lt_wf_ind; intros m ->.
  destruct (Z.le_gt_cases (Packer.len m) 0xffff) as [Hs | Hl].
  - rewrite frame_small by done. rewrite !length_app, be_bytes_length. simpl. lia.
  - rewrite frame_large by done. pose proof max_chunk_Z. unfold Packer.len in Hl.
    rewrite !length_app, length_take. simpl length.
    pose proof (IH (length (drop max_chunk m)) ltac:(rewrite length_drop; lia) _ eq_refl) as IHd.
    rewrite length_drop in IHd. lia.
Qed.

(** Reads messages until the connection is at its end, as the message queue
    does one by one.  Every pass of the loop takes at least two bytes, so one
    more than the number of bytes is enough fuel. *)
Fixpoint dechunk_all (n : nat) (b r : list byte) : outcome (list (list byte) * list byte) :=
  match n with
  | O => Done ([], r)
  | S n =>
      match dechunker.dechunkMessage list_read (S (length r)) b r with
      | Done ((b, Some m, _), r) =>
          match dechunk_all n b r with
          | Done (ms, r) => Done (m :: ms, r)
          | Panic => Panic
          | OutOfFuel => OutOfFuel
          end
      | Done ((_, None, _), r) => Done ([], r)
      | Panic => Panic
      | OutOfFuel => OutOfFuel
      end
  end.

Lemma dechunk_all_frames ms b r :
  Forall (λ m, m ≠ []) ms →
  dechunk_all (length ms) b (concat (frame <$> ms) ++ r) = Done (ms, r).
Proof.
  intros Hne. revert b. induction Hne as [| m ms Hm _ IH]; intros b; [done |].
  rewrite fmap_cons. cbn [concat length dechunk_all]. rewrite <- app_assoc.
  pose proof (frame_longer m) as Hl.
  destruct (dechunk_frame (length (frame m ++ concat (frame <$> ms) ++ r)) b m
              (concat (frame <$> ms) ++ r) Hm) as (b' & ->).
  { rewrite length_app. lia. }
  by rewrite IH.
Qed.

(** C23. Framing round trip: whatever non-empty messages are queued in the
    chunker, sending them writes a byte stream from which [dechunkMessage]
    recovers exactly these messages, in order and to the last byte, for any
    initial content of the receive buffer; and the chunker is reset. *)
Theorem chunking_roundtrip (ms : list (list byte)) (Hne : Forall (λ m, m ≠ []) ms) :
  ∃ w, chunker.send ok_write (queued ms) [] = Done (None, (chunker.newChunker, w)) ∧
    ∀ b, dechunk_all (length ms) b (concat w) = Done (ms, []).
Proof.
  destruct (send_queued ms) as (w & E & Hw). exists w. split; [done |]. intros b.
  rewrite Hw. rewrite <- (app_nil_r (concat _)). by apply dechunk_all_frames.
Qed.

Lemma chunking_roundtrip_witness :
  ∃ w, chunker.send ok_write (queued [[Byte.x01; Byte.x02]; [Byte.x03]]) [] =
         Done (None, (chunker.newChunker, w)) ∧
    ∀ b, dechunk_all 2 b (concat w) = Done ([[Byte.x01; Byte.x02]; [Byte.x03]], []).
Proof.
  apply (chunking_roundtrip [[Byte.x01; Byte.x02]; [Byte.x03]]).
  repeat constructor; discriminate.
Defined.

(** What is on the wire: [send] writes the messages in the Bolt frame
    format, each as chunks of at most 65535 bytes with a two-byte big-endian
    size, ended by a zero chunk, including messages that span several chunks,
    whose later chunk headers reuse bytes of the buffer already written. *)
Theorem send_writes_frames (ms : list (list byte)) :
  ∃ w, chunker.send ok_write (queued ms) [] = Done (None, (chunker.newChunker, w)) ∧
    concat w = concat (frame <$> ms).
Proof. apply send_queued. Qed.
