(* ===== verification/Hydrator.v ===== *)
(** Hydration of server messages: neo4j/internal/bolt/hydrator.go, path.go and
    parseroutingtable.go.  Logging of the messages is left out; the success
    structure is returned by value where the code reuses a cached one. *)

From S2P Require Import Prelude GoTime Packer Values Errors Unpacker Reading.
#[local] Open Scope Z_scope.
#[local] Open Scope go_scope.

(** * The hydrator's state *)

Module hydrator.

Record hydrator : Type := mkHydrator {
  unp : Unpacker.Unpacker;
  err : option error;
  boltMajor : Z;
  useUtc : bool;
  supportsUuid : bool
}.

Definition set_unp (u : Unpacker.Unpacker) (h : hydrator) : hydrator :=
  mkHydrator u (err h) (boltMajor h) (useUtc h) (supportsUuid h).

Definition set_err (e : option error) (h : hydrator) : hydrator :=
  mkHydrator (unp h) e (boltMajor h) (useUtc h) (supportsUuid h).

End hydrator.

#[global] Program Instance hydrator_host : UnpackHost hydrator.hydrator := {
  host_get := hydrator.unp;
  host_set := hydrator.set_unp
}.
Solve All Obligations with (by intros [] || by intros ? []).

(** A method of the hydrator. *)
Abbreviation H := (GoM hydrator.hydrator).

Module Hydrate.
Import hydrator.

Definition setErr (e : error) : H unit :=
  go_modify (λ h, match err h with None => set_err (Some e) h | Some _ => h end).

Definition getErr : H (option error) :=
  go_get (λ h, match Unpacker.Err (unp h) with Some e => Some (PackErr e) | None => err h end).

(** [h.unp.Next()] and the other calls on the unpacker. *)
Definition Next : H unit := via Unpacker.Next.
Definition Curr : H packed := go_get (λ h, Unpacker.Curr (unp h)).
Definition Len : H Z := via Unpacker.Len.
Definition Int : H Z := via Unpacker.Int.
Definition Float : H Z := via Unpacker.Float.
Definition Str : H string := via Unpacker.String.
Definition Bool_ : H bool := via Unpacker.Bool.
Definition ByteArray : H (list byte) := via Unpacker.ByteArray.
Definition StructTag : H byte := via Unpacker.StructTag.
Definition UUID : H (list byte) := via Unpacker.UUID.

Definition assertLength (structType : string) (expected actual : Z) : H unit :=
  if expected =? actual then mret tt
  else setErr (ProtocolError structType ""
         ("Invalid length of struct, expected " +:+ pretty expected +:+ " but was " +:+ pretty actual)).

(** [h.assertLength(...); if h.getErr() != nil { return d }; k] *)
Definition guarded {A} (structType : string) (expected actual : Z) (d : A) (k : H A) : H A :=
  assertLength structType expected actual;;
  e ← getErr;
  match e with Some _ => mret d | None => k end.

Definition unknownStructError (t : byte) : H value :=
  setErr (ProtocolError "" "" ("Received unknown struct tag: " +:+ pretty (of_byte t)));;
  mret VNil.

(** ** Loops *)

Definition strings : H (list string) :=
  n ← Len; go_repeat (Z.to_nat n) (Next;; Str).

(** A loop that fills a slice and stops at the first element that is not of
    the expected type. *)
Fixpoint collect {A} (n : nat) (body : H (option A)) : H (option (list A)) :=
  match n with
  | O => mret (Some [])
  | S n =>
      x ← body;
      match x with
      | None => mret None
      | Some x => xs ← collect n body; mret (cons x <$> xs)
      end
  end.

(** ** Paths (path.go) *)

(** Slice indexing: [None] is the run-time panic. *)
Definition index {A} (l : list A) (i : Z) : option A :=
  if 0 <=? i then l !! Z.to_nat i else None.

(** The loop over the pairs of indexes; [n1] is the node reached so far. *)
Fixpoint buildRels (nodes : list (Node value)) (relNodes : list (relNode value))
    (indexes : list Z) (n1 : Node value) : option (list (Relationship value)) :=
  match indexes with
  | relni :: n2i :: indexes =>
      let n1start := negb (relni <? 0) in
      reln ← (if relni <? 0 then index relNodes (relni * -1 - 1) else index relNodes (relni - 1));
      n2 ← index nodes n2i;
      let rel :=
        if n1start
        then mkRelationship (reln_id reln) (reln_elementId reln)
               (node_Id n1) (node_ElementId n1) (node_Id n2) (node_ElementId n2)
               (reln_name reln) (reln_props reln)
        else mkRelationship (reln_id reln) (reln_elementId reln)
               (node_Id n2) (node_ElementId n2) (node_Id n1) (node_ElementId n1)
               (reln_name reln) (reln_props reln) in
      rels ← buildRels nodes relNodes indexes n2;
      Some (rel :: rels)
  | _ => Some []
  end.

Definition buildPath (nodes : list (Node value)) (relNodes : list (relNode value))
    (indexes : list Z) : option (Path value) :=
  if decide (length indexes / 2 = 0)%nat then Some (mkPath nodes [])
  else
    n1 ← index nodes 0;
    rels ← buildRels nodes relNodes indexes n1;
    Some (mkPath nodes rels).

(** ** Vectors *)

(** The elements of width [w] of a byte slice. *)
Fixpoint elements (n w : nat) (b : list byte) : list Z :=
  match n with
  | O => []
  | S n => be_value (take w b) :: elements n w (drop w b)
  end.

(** One case of the switch on the type marker. *)
Definition vector_of (t : vecType) (w : nat) (name : string) (conv : Z → Z)
    (values : list byte) : H value :=
  if decide (length values `mod` w = 0)%nat
  then mret (VVector t (conv <$> elements (length values / w) w values))
  else
    setErr (ProtocolError "vector" ""
      ("Vector values must be multiple of " +:+ pretty (Z.of_nat w) +:+ " bytes for " +:+ name));;
    mret VNil.

Definition vector (n : Z) : H value :=
  guarded "vector" 2 n VNil (
    Next;;
    c ← Curr;
    if decide (c ≠ PackedByteArray) then
      setErr (ProtocolError "vector" "" "Expected byte array for vector type marker");; mret VNil
    else
      typeMarker ← ByteArray;
      match typeMarker with
      | [tm] =>
          Next;;
          c ← Curr;
          if decide (c ≠ PackedByteArray) then
            setErr (ProtocolError "vector" "" "Expected byte array for vector values");; mret VNil
          else
            values ← ByteArray;
            match tm with
            | Byte.xc1 => vector_of VecFloat64 8 "float64" id values
            | Byte.xc6 => vector_of VecFloat32 4 "float32" id values
            | Byte.xc8 => mret (VVector VecInt8 (i8 <$> elements (length values) 1 values))
            | Byte.xc9 => vector_of VecInt16 2 "int16" i16 values
            | Byte.xca => vector_of VecInt32 4 "int32" i32 values
            | Byte.xcb => vector_of VecInt64 8 "int64" i64 values
            | _ =>
                setErr (ProtocolError "vector" ""
                  ("Unknown vector type marker: " +:+ pretty (of_byte tm)));;
                mret VNil
            end
      | _ =>
          setErr (ProtocolError "vector" "" "Vector type marker must be exactly 1 byte");;
          mret VNil
      end).

(** ** Spatial values and durations *)

Definition point2d (n : Z) : H value :=
  Next;; srid ← Int; Next;; x ← Float; Next;; y ← Float;
  mret (VPoint2D (mkPoint2D x y (u32 srid))).

Definition point3d (n : Z) : H value :=
  Next;; srid ← Int; Next;; x ← Float; Next;; y ← Float; Next;; z ← Float;
  mret (VPoint3D (mkPoint3D x y z (u32 srid))).

Definition duration (n : Z) : H value :=
  Next;; mon ← Int; Next;; day ← Int; Next;; sec ← Int; Next;; nan ← Int;
  mret (VDuration (mkDuration mon day sec nan)).

(** ** Temporal values *)

Section Temporal.
Context `{TzDb}.

(** [time.Date(t.Year(), ..., t.Nanosecond(), l)]: the wall clock of [t],
    moved to the location [l]. *)
Definition copy_into (t : Time) (l : location) : Time :=
  time_Date (Year t) (Month t) (Day t) (Hour t) (Minute t) (Second t) (Nanosecond t) l.

Definition dateTimeOffset (n : Z) : H value :=
  Next;; seconds ← Int; Next;; nanos ← Int; Next;; offset ← Int;
  let utcTime := UTC (time_Unix seconds nanos) in
  mret (VDateTime (copy_into utcTime (FixedZone "Offset" offset))).

Definition utcDateTimeOffset (n : Z) : H value :=
  Next;; seconds ← Int; Next;; nanos ← Int; Next;; offset ← Int;
  mret (VDateTime (In_ (time_Unix seconds nanos) (FixedZone "Offset" offset))).

Definition dateTimeNamedZone (n : Z) : H value :=
  Next;; seconds ← Int; Next;; nanos ← Int; Next;; zone ← Str;
  let utcTime := UTC (time_Unix seconds nanos) in
  match Timezone.load zone with
  | inr e => mret (VInvalid "dateTimeNamedZone" (Timezone.zoneError_Error e))
  | inl l => mret (VDateTime (copy_into utcTime l))
  end.

Definition utcDateTimeNamedZone (n : Z) : H value :=
  Next;; secs ← Int; Next;; nans ← Int; Next;; zone ← Str;
  match Timezone.load zone with
  | inr e => mret (VInvalid "utcDateTimeNamedZone" (Timezone.zoneError_Error e))
  | inl l => mret (VDateTime (In_ (time_Unix secs nans) l))
  end.

Definition localDateTime (n : Z) : H value :=
  Next;; secs ← Int; Next;; nans ← Int;
  mret (VLocalDateTime (copy_into (UTC (time_Unix secs nans)) LocLocal)).

Definition date (n : Z) : H value :=
  Next;; days ← Int;
  mret (VDate (UTC (time_Unix (i64 (days * 86400)) 0))).

Definition time (n : Z) : H value :=
  Next;; nans ← Int; Next;; offs ← Int;
  let secs := go_div nans 1000000000 in
  let nans := nans - secs * 1000000000 in
  mret (VTime (time_Date 0 0 0 0 0 secs nans (FixedZone "Offset" offs))).

Definition localTime (n : Z) : H value :=
  Next;; nans ← Int;
  let secs := go_div nans 1000000000 in
  let nans := nans - secs * 1000000000 in
  mret (VLocalTime (time_Date 0 0 0 0 0 secs nans LocLocal)).
End Temporal.

(** ** Containers and entities, over the recursive call [val] of [value] *)

Section Open.
Context `{TzDb} (val : H value).

Definition amap : H (gomap value) :=
  n ← Len;
  go_loop (Z.to_nat n) (λ m, Next;; key ← Str; Next;; v ← val; mret (map_set key v m)) [].

Definition array : H (list value) :=
  n ← Len; go_repeat (Z.to_nat n) (Next;; val).

Definition node (num : Z) : H value :=
  guarded "node" 3 num VNil (
    Next;; id ← Int; Next;; labels ← strings; Next;; props ← amap;
    mret (VNode (mkNode id (pretty id) labels props))).

Definition nodeWithElementId (num : Z) : H value :=
  guarded "node" 4 num VNil (
    Next;; id ← Int; Next;; labels ← strings; Next;; props ← amap; Next;; eid ← Str;
    mret (VNode (mkNode id eid labels props))).

Definition relationship (n : Z) : H value :=
  guarded "relationship" 5 n VNil (
    Next;; id ← Int; Next;; start ← Int; Next;; end_ ← Int; Next;; typ ← Str; Next;; props ← amap;
    mret (VRelationship
      (mkRelationship id (pretty id) start (pretty start) end_ (pretty end_) typ props))).

Definition relationshipWithElementId (n : Z) : H value :=
  guarded "relationship" 8 n VNil (
    Next;; id ← Int; Next;; start ← Int; Next;; end_ ← Int; Next;; typ ← Str; Next;; props ← amap;
    Next;; eid ← Str; Next;; seid ← Str; Next;; eeid ← Str;
    mret (VRelationship (mkRelationship id eid start seid end_ eeid typ props))).

Definition relationnode (n : Z) : H value :=
  guarded "relationnode" 3 n VNil (
    Next;; id ← Int; Next;; name ← Str; Next;; props ← amap;
    mret (VRelNode (mkRelNode id (pretty id) name props))).

Definition relationnodeWithElementId (n : Z) : H value :=
  guarded "relationnode" 4 n VNil (
    Next;; id ← Int; Next;; name ← Str; Next;; props ← amap; Next;; eid ← Str;
    mret (VRelNode (mkRelNode id eid name props))).

Definition path (n : Z) : H value :=
  guarded "path" 3 n VNil (
    Next;; num ← Len;
    nodes ← collect (Z.to_nat num) (Next;; v ← val; mret (as_Node v));
    match nodes with
    | None =>
        setErr (ProtocolError "path" "nodes" "value could not be cast to Node");; mret VNil
    | Some nodes =>
        Next;; num ← Len;
        rnodes ← collect (Z.to_nat num) (Next;; v ← val; mret (as_relNode v));
        match rnodes with
        | None =>
            setErr (ProtocolError "path" "rnodes" "value could be not cast to *relNode");; mret VNil
        | Some rnodes =>
            Next;; num ← Len;
            indexes ← go_repeat (Z.to_nat num) (Next;; Int);
            if decide (Nat.odd (length indexes)) then
              setErr (ProtocolError "path" "indices"
                ("there should be an even number of indices, found "
                   +:+ pretty (Packer.len indexes)));;
              mret VNil
            else
              p ← go_lift (buildPath nodes rnodes indexes);
              mret (VPath p)
        end
    end).

Definition unsupportedType (n : Z) : H value :=
  guarded "unsupported" 4 n VNil (
    Next;; name ← Str; Next;; major ← Int; Next;; minor ← Int; Next;; extra ← amap;
    mret (VUnsupported
      (mkUnsupported name (mkVersion major minor) (get_as as_string "message" extra)))).

(** The struct cases of [value], over the two settings they consult. *)
Definition structure (boltMajor : Z) (useUtc : bool) (t : byte) (n : Z) : H value :=
  match t with
  | Byte.x4e (* N *) => if 5 <=? boltMajor then nodeWithElementId n else node n
  | Byte.x52 (* R *) => if 5 <=? boltMajor then relationshipWithElementId n else relationship n
  | Byte.x72 (* r *) => if 5 <=? boltMajor then relationnodeWithElementId n else relationnode n
  | Byte.x50 (* P *) => path n
  | Byte.x58 (* X *) => point2d n
  | Byte.x59 (* Y *) => point3d n
  | Byte.x56 (* V *) => vector n
  | Byte.x46 (* F *) => if useUtc then unknownStructError t else dateTimeOffset n
  | Byte.x49 (* I *) => if useUtc then utcDateTimeOffset n else unknownStructError t
  | Byte.x66 (* f *) => if useUtc then unknownStructError t else dateTimeNamedZone n
  | Byte.x69 (* i *) => if useUtc then utcDateTimeNamedZone n else unknownStructError t
  | Byte.x64 (* d *) => localDateTime n
  | Byte.x44 (* D *) => date n
  | Byte.x54 (* T *) => time n
  | Byte.x74 (* t *) => localTime n
  | Byte.x45 (* E *) => duration n
  | Byte.x3f (* ? *) => unsupportedType n
  | _ => unknownStructError t
  end.

(** The switch of [value] on the kind of the current value. *)
Definition value_case (valueType : packed) : H value :=
  match valueType with
  | PackedInt => VInt <$> Int
  | PackedFloat => VFloat <$> Float
  | PackedStr => VString <$> Str
  | PackedStruct =>
      t ← StructTag; n ← Len;
      major ← go_get boltMajor; utc ← go_get useUtc;
      structure major utc t n
  | PackedByteArray => VBytes <$> ByteArray
  | PackedUUID =>
      ok ← go_get supportsUuid;
      if (ok : bool) then VUUID <$> UUID
      else
        setErr (ProtocolError "" ""
          "received UUID packstream type 0xE0 on Bolt protocol prior to 6.1");;
        mret VNil
  | PackedArray => VList <$> array
  | PackedMap => VMap <$> amap
  | PackedNil => mret VNil
  | PackedTrue => mret (VBool true)
  | PackedFalse => mret (VBool false)
  | PackedUndef =>
      setErr (ProtocolError "" ""
        ("Received unknown packstream value type: " +:+ pretty (packed_iota valueType)));;
      mret VNil
  end.

Definition value_body : H value := valueType ← Curr; value_case valueType.
End Open.

(** [value] with a bound on the nesting depth. *)
Fixpoint value_ `{TzDb} (fuel : nat) : H value :=
  match fuel with
  | O => go_nofuel
  | S fuel => value_body (value_ fuel)
  end.

End Hydrate.
