(* ===== verification/Messages.v ===== *)
(** The messages of the server: the rest of neo4j/internal/bolt/hydrator.go
    (SUCCESS, FAILURE, IGNORED, RECORD and the summary data they carry) and
    parseroutingtable.go.  A nil slice or map and an empty one are not told
    apart where the code only ranges over them or looks keys up. *)

From S2P Require Import Prelude GoTime Packer Values Errors Unpacker Reading Hydrator.
#[local] Open Scope Z_scope.
#[local] Open Scope go_scope.

(** * Plans, notifications and statuses, from maps *)

(** The nesting depth of a value, which bounds the recursion of [parsePlan]. *)
Fixpoint depth (v : value) : nat :=
  match v with
  | VList l => S (foldr (λ v n, Nat.max (depth v) n) O l)
  | VMap m => S (foldr (λ kv n, Nat.max (depth kv.2) n) O m)
  | _ => O
  end.

Module Summaries.

Definition extractOptional {A} (f : value → option A) (m : gomap value) (key : string) : option A :=
  get_as f key m.

Definition parsePlanOpIdArgsChildren (planx : gomap value) :
    string * list string * option (gomap value) * list value :=
  let operator := or_empty (get_as as_string "operatorType" planx) in
  let identifiersx := default [] (get_as as_list "identifiers" planx) in
  let arguments := get_as as_map "args" planx in
  let identifiers := (λ id, or_empty (as_string id)) <$> identifiersx in
  let childrenx := default [] (get_as as_list "children" planx) in
  (operator, identifiers, arguments, childrenx).

(** The children that are non-empty maps, in order. *)
Definition child_maps (childrenx : list value) : list (gomap value) :=
  omap (λ c, match as_map c with
             | Some ((_ :: _) as m) => Some m
             | _ => None
             end) childrenx.

Fixpoint parsePlan_ (fuel : nat) (planx : gomap value) : Plan :=
  let '(op, ids, args, childrenx) := parsePlanOpIdArgsChildren planx in
  mkPlan op args ids
    (match fuel with
     | O => []
     | S fuel => parsePlan_ fuel <$> child_maps childrenx
     end).

Definition parsePlan (planx : gomap value) : Plan := parsePlan_ (depth (VMap planx)) planx.

Fixpoint parseProfile_ (fuel : nat) (profilex : gomap value) : Profile :=
  let '(op, ids, args, childrenx) := parsePlanOpIdArgsChildren profilex in
  mkProfile op args ids
    (extractOptional as_int profilex "dbHits")
    (extractOptional as_int profilex "rows")
    (match fuel with
     | O => []
     | S fuel => parseProfile_ fuel <$> child_maps childrenx
     end)
    (extractOptional as_int profilex "pageCacheMisses")
    (extractOptional as_int profilex "pageCacheHits")
    (extractOptional as_float profilex "pageCacheHitRatio")
    (extractOptional as_int profilex "time").

Definition parseProfile (profilex : gomap value) : Profile :=
  parseProfile_ (depth (VMap profilex)) profilex.

Definition parseInputPosition (m : gomap value) : InputPosition :=
  mkPosition (default 0 (get_as as_int "offset" m)) (default 0 (get_as as_int "line" m))
    (default 0 (get_as as_int "column" m)).

Definition parseNotification (m : gomap value) : Notification :=
  mkNotification
    (or_empty (get_as as_string "code" m))
    (or_empty (get_as as_string "title" m))
    (or_empty (get_as as_string "description" m))
    (parseInputPosition <$> get_as as_map "position" m)
    (or_empty (get_as as_string "severity" m))
    (or_empty (get_as as_string "category" m)).

Definition parseNotifications (l : list value) : list Notification :=
  parseNotification <$> omap as_map l.

Definition parseGqlStatusObject (m : gomap value) : GqlStatusObject :=
  let code := get_as as_string "neo4j_code" m in
  let dr := default [] (get_as as_map "diagnostic_record" m) in
  let diagnosticRecord :=
    foldl (λ r kv, map_set kv.1 kv.2 r) NewDefaultDiagnosticRecord dr in
  mkGqlStatusObject
    (or_empty code)
    (or_empty (get_as as_string "title" m))
    (or_empty (get_as as_string "description" m))
    (or_empty (get_as as_string "gql_status" m))
    (or_empty (get_as as_string "status_description" m))
    (parseInputPosition <$> get_as as_map "_position" dr)
    (or_empty (get_as as_string "_classification" dr))
    (or_empty (get_as as_string "_severity" dr))
    diagnosticRecord
    (match code with Some _ => true | None => false end).

Definition parseGqlStatusObjects (l : list value) : list GqlStatusObject :=
  parseGqlStatusObject <$> omap as_map l.

(** parseroutingtable.go.  The outer [None] is the panic of an index out of
    range, the inner one the [nil] result. *)

Definition add_role (role : string) (addresses : list string) (t : RoutingTable) : RoutingTable :=
  if decide (role = "READ") then t <| rt_Readers := addresses |>
  else if decide (role = "WRITE") then t <| rt_Writers := addresses |>
  else if decide (role = "ROUTE") then t <| rt_Routers := addresses |>
  else t.

Definition parse_role (t : RoutingTable) (x : value) : option RoutingTable :=
  m ← as_map x;
  addressesX ← get_as as_list "addresses" m;
  addresses ← mapM as_string addressesX;
  role ← get_as as_string "role" m;
  Some (add_role role addresses t).

Fixpoint parse_roles (t : RoutingTable) (l : list value) : option RoutingTable :=
  match l with
  | [] => Some t
  | x :: l => t ← parse_role t x; parse_roles t l
  end.

Definition parseRoutingTableRecord (rec : Record_) : option (option RoutingTable) :=
  v0 ← rec_Values rec !! 0%nat;
  match as_int v0 with
  | None => Some None
  | Some ttl =>
      v1 ← rec_Values rec !! 1%nat;
      match as_list v1 with
      | None => Some None
      | Some listOfX => Some (parse_roles (mkRoutingTable ttl "" [] [] []) listOfX)
      end
  end.

End Summaries.

(** * The SUCCESS message *)

(** What [counters] holds: an [int] or a [*bool]. *)
Inductive stat : Type := StatInt (i : Z) | StatBool (b : bool).

Definition containsSystemUpdatesKey : string := "contains-system-updates".
Definition containsUpdatesKey : string := "contains-updates".

Record success : Type := mkSuccess {
  fields : list string;
  tfirst : Z;
  qid : Z;
  bookmark : string;
  connectionId : string;
  server : string;
  db : string;
  hasMore : bool;
  tlast : Z;
  qtype : QueryType;
  counters : gomap stat;
  plan : option Plan;
  profile : option Profile;
  notifications : option (list Notification);   (* None is nil *)
  statuses : option (list GqlStatusObject);
  routingTable_ : option RoutingTable;
  num : Z;
  configurationHints : gomap value;
  patches : list string
}.

(** [success{}] with the three fields the code presets. *)
Definition clear_success : success :=
  mkSuccess [] (-1) (-1) "" "" "" "" false (-1) QueryTypeUnknown [] None None None None None 0 [] [].

(** The part of [Summary] that [summary] fills. *)
Record Summary : Type := mkSummary {
  sum_Bookmark : string;
  sum_QueryType : QueryType;
  sum_Counters : gomap Z;
  sum_TLast : Z;
  sum_Plan : option Plan;
  sum_Profile : option Profile;
  sum_Notifications : option (list Notification);
  sum_GqlStatusObjects : option (list GqlStatusObject);
  sum_Database : string;
  sum_ContainsSystemUpdates : option bool;
  sum_ContainsUpdates : option bool
}.

Definition is_flag (k : string) : bool :=
  bool_decide (k = containsSystemUpdatesKey) || bool_decide (k = containsUpdatesKey).

(** [v.(int)] without comma-ok panics on a value of another type. *)
Fixpoint extractIntCounters (counters : gomap stat) : option (gomap Z) :=
  match counters with
  | [] => Some []
  | (k, v) :: rest =>
      if is_flag k then extractIntCounters rest
      else match v with
           | StatInt i => cons (k, i) <$> extractIntCounters rest
           | StatBool _ => None
           end
  end.

Definition extractBoolPointer (counters : gomap stat) (key : string) : option (option bool) :=
  match map_get key counters with
  | None => Some None
  | Some (StatBool b) => Some (Some b)
  | Some (StatInt _) => None
  end.

Definition summary (s : success) : option Summary :=
  ints ← extractIntCounters (counters s);
  sys ← extractBoolPointer (counters s) containsSystemUpdatesKey;
  upd ← extractBoolPointer (counters s) containsUpdatesKey;
  Some (mkSummary (bookmark s) (qtype s) ints (tlast s) (plan s) (profile s)
          (notifications s) (statuses s) (db s) sys upd).

(** What [hydrate] returns. *)
Inductive message : Type :=
| MSuccess (s : success)
| MIgnored
| MFailure (e : Neo4jError)
| MRecord (r : Record_).

Module Message.
Import hydrator Hydrate Summaries.

Section Messages.
(** [val] is the model of [value] at the fuel of the caller. *)
Context (val : H value).

Definition trash : H unit := val;; mret tt.

(** [for ; n > 0; n-- { Next; key := String; Next; ... }] *)
Definition entries {A} (body : string → A → H A) (a : A) : H A :=
  n ← Len;
  go_loop (Z.to_nat n) (λ a, Next;; key ← Str; Next;; body key a) a.

Definition parseStatValue (key : string) : H stat :=
  if is_flag key then StatBool <$> Bool_ else StatInt <$> Int.

Definition successStats : H (gomap stat) :=
  entries (λ key m, v ← parseStatValue key; mret (map_set key v m)) [].

Definition routingTableRole (rt : RoutingTable) : H RoutingTable :=
  Next;;
  ra ← entries (λ key (ra : string * list string),
    if decide (key = "role") then role ← Str; mret (role, ra.2)
    else if decide (key = "addresses") then l ← strings; mret (ra.1, l)
    else trash;; mret ra) ("", []);
  mret (add_role ra.1 ra.2 rt).

Definition routingTable : H RoutingTable :=
  entries (λ key rt,
    if decide (key = "ttl") then ttl ← Int; mret (rt <| rt_TimeToLive := ttl |>)
    else if decide (key = "servers") then
      n ← Len; go_loop (Z.to_nat n) routingTableRole rt
    else if decide (key = "db") then d ← Str; mret (rt <| rt_DatabaseName := d |>)
    else trash;; mret rt) (mkRoutingTable 0 "" [] [] []).

Definition queryType (s : success) : H success :=
  t ← Str;
  if decide (t = "r") then mret (s <| qtype := QueryTypeRead |>)
  else if decide (t = "w") then mret (s <| qtype := QueryTypeWrite |>)
  else if decide (t = "rw") then mret (s <| qtype := QueryTypeReadWrite |>)
  else if decide (t = "s") then mret (s <| qtype := QueryTypeSchemaWrite |>)
  else
    setErr (ProtocolError "success" "type" ("unrecognized success query type " +:+ t));;
    mret s.

(** The switch on the key of one entry of the metadata. *)
Definition success_field (key : string) (s : success) : H success :=
  if decide (key = "fields") then x ← strings; mret (s <| fields := x |>)
  else if decide (key = "t_first") then x ← Int; mret (s <| tfirst := x |>)
  else if decide (key = "qid") then x ← Int; mret (s <| qid := x |>)
  else if decide (key = "bookmark") then x ← Str; mret (s <| bookmark := x |>)
  else if decide (key = "connection_id") then x ← Str; mret (s <| connectionId := x |>)
  else if decide (key = "server") then x ← Str; mret (s <| server := x |>)
  else if decide (key = "has_more") then x ← Bool_; mret (s <| hasMore := x |>)
  else if decide (key = "t_last") then x ← Int; mret (s <| tlast := x |>)
  else if decide (key = "type") then queryType s
  else if decide (key = "db") then x ← Str; mret (s <| db := x |>)
  else if decide (key = "stats") then x ← successStats; mret (s <| counters := x |>)
  else if decide (key = "plan") then
    m ← amap val; mret (s <| plan := Some (parsePlan m) |>)
  else if decide (key = "profile") then
    m ← amap val; mret (s <| profile := Some (parseProfile m) |>)
  else if decide (key = "notifications") then
    l ← array val; mret (s <| notifications := Some (parseNotifications l) |>)
  else if decide (key = "statuses") then
    l ← array val; mret (s <| statuses := Some (parseGqlStatusObjects l) |>)
  else if decide (key = "rt") then
    x ← routingTable; mret (s <| routingTable_ := Some x |>)
  else if decide (key = "hints") then m ← amap val; mret (s <| configurationHints := m |>)
  else if decide (key = "patch_bolt") then x ← strings; mret (s <| patches := x |>)
  else trash;; mret s.

(** A [nil] pointer is [None]. *)
Definition success_ (n : Z) : H (option success) :=
  guarded "success" 1 n None (
    Next;;
    n ← Len;
    s ← go_loop (Z.to_nat n) (λ s, Next;; key ← Str; Next;; success_field key s)
          (clear_success <| num := n |>);
    mret (Some s)).

Definition ignored (n : Z) : H bool :=
  guarded "ignored" 0 n false (mret true).

Definition record (n : Z) : H (option Record_) :=
  guarded "record" 1 n None (
    Next;; n ← Len;
    values ← go_repeat (Z.to_nat n) (Next;; val);
    mret (Some (mkRecord values []))).

(** One entry of a failure; [nested] is the recursive call on the cause. *)
Definition failure_field (nested : H (option Neo4jError)) (key : string) (e : Neo4jError) :
    H Neo4jError :=
  if decide (key = "gql_status") then x ← Str; mret (e <| GqlStatus := x |>)
  else if decide (key = "description") then x ← Str; mret (e <| GqlStatusDescription := x |>)
  else if decide (key = "neo4j_code") then x ← Str; mret (e <| Code := x |>)
  else if decide (key = "code") then x ← Str; mret (e <| Code := x |>)
  else if decide (key = "message") then x ← Str; mret (e <| Msg := x |>)
  else if decide (key = "diagnostic_record") then
    m ← amap val; mret (e <| GqlDiagnosticRecord := Some m |>)
  else if decide (key = "cause") then c ← nested; mret (e <| GqlCause := c |>)
  else trash;; mret e.

(** [failure(n, isNestedError)] around the recursive call. *)
Definition failure_body (nested : H (option Neo4jError)) (n : Z) (isNestedError : bool) :
    H (option Neo4jError) :=
  guarded "failure" 1 n None (
    (if isNestedError then mret tt else Next);;
    e ← entries (failure_field nested) zero_Neo4jError;
    mret (Some (PolyfillGqlError e))).
End Messages.

Section Hydration.
Context `{TzDb}.

(** The bound is on the nesting of causes and values together. *)
Fixpoint failure (fuel : nat) (n : Z) (isNestedError : bool) : H (option Neo4jError) :=
  match fuel with
  | O => go_nofuel
  | S fuel => failure_body (value_ fuel) (failure fuel 1 true) n isNestedError
  end.

(** The switch on the tag of the message; [inr] is an error returned at
    once, [inl None] a typed nil. *)
Definition dispatch (fuel : nat) (n : Z) (t : byte) : H (option message + error) :=
  match t with
  | Byte.x70 => s ← success_ (value_ fuel) n; mret (inl (MSuccess <$> s))
  | Byte.x7e => ok ← ignored n; mret (inl (if (ok : bool) then Some MIgnored else None))
  | Byte.x7f => e ← failure fuel n false; mret (inl (MFailure <$> e))
  | Byte.x71 => r ← record (value_ fuel) n; mret (inl (MRecord <$> r))
  | _ => mret (inr (ErrorString ("unexpected tag at top level: " +:+ pretty (of_byte t))))
  end.

(** [hydrate] after the reset of the unpacker. *)
Definition hydrate_struct (fuel : nat) : H (option message * option error) :=
  Next;;
  c ← Curr;
  if decide (c ≠ PackedStruct) then mret (None, Some (ErrorString "expected struct"))
  else
    n ← Len; t ← StructTag;
    x ← dispatch fuel n t;
    match x with
    | inr e => mret (None, Some e)
    | inl m => e ← getErr; mret (m, e)
    end.

Definition hydrate (fuel : nat) (buf : list byte) : H (option message * option error) :=
  go_modify (λ h, set_unp (Unpacker.Reset buf (unp h)) h);;
  hydrate_struct fuel.
End Hydration.

End Message.
