(* ===== verification/HydratorFacts.v ===== *)
(** Properties of the hydrator: it always returns, the only panic is the one
    of a malformed path, and what it builds is well-formed. *)

From S2P Require Import Prelude GoTime Packer Values Errors Unpacker Reading Hydrator Messages.
#[local] Open Scope Z_scope.
#[local] Open Scope go_scope.
Import hydrator Hydrate Message.

(** * Settling: returning without exhausting the fuel *)

(** The tag of the path structure. *)
Definition path_tag : byte := Byte.x50.

(** The bytes not consumed yet. *)
Definition remaining (h : hydrator) : Z := Unpacker.len (unp h) - Unpacker.off (unp h).

(** [settles_at m h]: run from [h], [m] returns in a well-formed state over the
    same buffer, its cursor not moved backwards; or it panics, and then the
    buffer holds the tag of a path.  It never runs out of fuel. *)
Definition settles_at {A} (m : H A) (h : hydrator) : Prop :=
  match m h with
  | Done (_, h') => wf (unp h') ∧ Unpacker.buf (unp h') = Unpacker.buf (unp h) ∧
                    Unpacker.off (unp h) <= Unpacker.off (unp h')
  | Panic => path_tag ∈ Unpacker.buf (unp h)
  | OutOfFuel => False
  end.

(** [settles k B m]: [m] settles wherever the buffer is [B] and at most [k - 2]
    bytes of it remain. *)
Definition settles {A} (k : nat) (B : list byte) (m : H A) : Prop :=
  ∀ h, wf (unp h) → Unpacker.buf (unp h) = B → remaining h + 2 <= Z.of_nat k → settles_at m h.

Section Rules.
Context (k : nat) (B : list byte).

Lemma settles_ret {A} (a : A) : settles k B (mret a).
Proof. intros h Hwf _ _. by split_and!. Qed.

(** A bind whose first part returns only values satisfying [P]. *)
Lemma settles_bind_post {A C} (P : A → Prop) (m : H A) (f : A → H C) :
  settles k B m →
  (∀ h a h', Unpacker.buf (unp h) = B → m h = Done (a, h') → P a) →
  (∀ a, P a → settles k B (f a)) → settles k B (m ≫= f).
Proof.
  intros Hm HP Hf h Hwf HB Hk. specialize (Hm h Hwf HB Hk). specialize (HP h).
  unfold settles_at, mbind, GoM_bind in *.
  destruct (m h) as [[a h1] | |]; [| done..]. destruct Hm as (Hwf1 & Hb1 & Ho1).
  assert (Hk1 : remaining h1 + 2 <= Z.of_nat k).
  { unfold remaining in *. unfold wf in *. rewrite Hb1 in *. lia. }
  specialize (Hf a (HP a h1 HB eq_refl) h1 Hwf1 (eq_trans Hb1 HB) Hk1). unfold settles_at in Hf.
  destruct (f a h1) as [[b h2] | |]; [| by rewrite <- Hb1 | done].
  destruct Hf as (? & ? & ?). split_and!; [done | congruence | lia].
Qed.

Lemma settles_bind {A C} (m : H A) (f : A → H C) :
  settles k B m → (∀ a, settles k B (f a)) → settles k B (m ≫= f).
Proof. intros. by apply (settles_bind_post (λ _, True)). Qed.

Lemma settles_via {A} (m : GoM Unpacker.Unpacker A) : safe m → settles k B (via m).
Proof.
  intros Hm h Hwf _ _. destruct (Hm (unp h) Hwf) as (a & u & E & Hu & Hb & Ho).
  unfold settles_at, via. simpl. by rewrite E.
Qed.

Lemma settles_get {A} (f : hydrator → A) : settles k B (go_get f).
Proof. intros h Hwf _ _. by split_and!. Qed.

Lemma settles_setErr e : settles k B (setErr e).
Proof. intros h Hwf _ _. unfold settles_at, setErr, go_modify. by destruct (err h). Qed.

Lemma settles_lift {A} (o : option A) : path_tag ∈ B → settles k B (go_lift o).
Proof. intros Ht h Hwf HB _. unfold settles_at, go_lift. destruct o; [by split_and! | by rewrite HB]. Qed.

Lemma settles_repeat {A} n (m : H A) : settles k B m → settles k B (go_repeat n m).
Proof.
  intros Hm. induction n; simpl; [apply settles_ret |].
  apply settles_bind; [done | intros x]. apply settles_bind; [done | intros; apply settles_ret].
Qed.

Lemma settles_loop {A} n (m : A → H A) a :
  (∀ a, settles k B (m a)) → settles k B (go_loop n m a).
Proof.
  intros Hm. revert a. induction n; intros a; simpl; [apply settles_ret |].
  apply settles_bind; [done | auto].
Qed.

Lemma settles_collect {A} n (m : H (option A)) : settles k B m → settles k B (collect n m).
Proof.
  intros Hm. induction n; simpl; [apply settles_ret |].
  apply settles_bind; [done | intros [x |]]; [| apply settles_ret].
  apply settles_bind; [done | intros; apply settles_ret].
Qed.
(** [Next] and the call of [value] belong together. *)
Lemma settles_next_val {A} (val : H value) (f : value → H A) :
  settles k B (Next;; val) → (∀ v, settles k B (f v)) → settles k B (Next;; v ← val; f v).
Proof.
  intros Hval Hf h Hwf HB Hk. pose proof (settles_bind _ f Hval Hf h Hwf HB Hk) as Hs.
  unfold settles_at, mbind, GoM_bind in *. by destruct (Next h) as [[] | |].
Qed.
End Rules.

#[export] Hint Resolve settles_ret settles_get settles_setErr settles_lift : go.

(** One step of a decoder: a bind, a test, a loop, or a call that settles. *)
Ltac settle_step :=
  match goal with
  | Hv : settles ?k ?B (Next;; ?val) |- settles ?k ?B (Next;; ?val) => exact Hv
  | Hv : settles ?k ?B (Next;; ?val) |- settles ?k ?B (Next ≫= (λ _, ?val ≫= _)) =>
      apply (settles_next_val k B val _ Hv); intros ?
  | |- settles _ _ (_ ≫= _) => apply settles_bind; [| intros ?]
  | |- settles _ _ (if ?b then _ else _) => destruct b
  | |- settles _ _ (match ?x with _ => _ end) => destruct x
  | |- settles _ _ (let _ := _ in _) => cbv zeta
  | |- settles _ _ (_ <$> _) => unfold fmap, GoM_fmap
  | |- settles _ _ (guarded _ _ _ _ _) => unfold guarded, assertLength, getErr
  | |- settles _ _ (go_repeat _ _) => apply settles_repeat
  | |- settles _ _ (go_loop _ _ _) => apply settles_loop; intros ?
  | |- settles _ _ Next => apply settles_via, safe_Next
  | |- settles _ _ Len => apply settles_via, safe_Len
  | |- settles _ _ Int => apply settles_via, safe_Int
  | |- settles _ _ Str => apply settles_via, safe_String
  | |- settles _ _ Float => apply settles_via, safe_Float
  | |- settles _ _ Bool_ => apply settles_via, safe_Bool
  | |- settles _ _ ByteArray => apply settles_via, safe_ByteArray
  | |- settles _ _ UUID => apply settles_via, safe_UUID
  | |- settles _ _ StructTag => apply settles_via, safe_pop
  | |- settles _ _ Curr => apply settles_get
  | |- settles _ _ _ => solve [auto with go nocore]
  end.
Ltac settle := repeat settle_step.

(** ** The decoders of one value *)

Section Values.
Context (k : nat) (B : list byte).

Lemma settles_strings : settles k B strings.
Proof. unfold strings. settle. Qed.

Lemma settles_vector n : settles k B (vector n).
Proof. unfold vector, vector_of. settle. Qed.

Lemma settles_unknown t : settles k B (unknownStructError t).
Proof. unfold unknownStructError. settle. Qed.

Context (val : H value) (Hval : settles k B (Next;; val)).

Lemma settles_amap : settles k B (amap val).
Proof. unfold amap. settle. Qed.

Lemma settles_array : settles k B (array val).
Proof. unfold array. settle. Qed.

Hint Resolve settles_strings settles_vector settles_unknown settles_amap settles_array : go.

(** Only the path decoder can panic. *)
Lemma settles_path n : path_tag ∈ B → settles k B (path val n).
Proof.
  intros Ht. unfold path. settle.
  all: apply settles_collect; settle.
Qed.

Lemma settles_structure `{TzDb} major utc t n :
  (t = path_tag → path_tag ∈ B) → settles k B (structure val major utc t n).
Proof.
  intros Ht. destruct t; try apply settles_unknown; unfold structure.
  all: try (by apply settles_path, Ht).
  all: unfold node, nodeWithElementId, relationship, relationshipWithElementId, relationnode,
    relationnodeWithElementId, point2d, point3d, duration, dateTimeOffset, utcDateTimeOffset,
    dateTimeNamedZone, utcDateTimeNamedZone, localDateTime, date, time, localTime,
    unsupportedType; settle.
Qed.

(** A popped byte comes from the buffer, or is the zero byte of a failed
    read. *)
Lemma StructTag_result h t h' :
  Unpacker.buf (unp h) = B → StructTag h = Done (t, h') → t = path_tag → path_tag ∈ B.
Proof.
  intros HB E ->. unfold StructTag, via, Unpacker.StructTag, Unpacker.pop, Unpacker.fail in E.
  simpl in E. repeat case_match; simplify_eq. by eapply list_elem_of_lookup_2.
Qed.

Lemma settles_value_body `{TzDb} : settles k B (value_body val).
Proof.
  unfold value_body. settle_step; [settle |]. unfold value_case.
  destruct (decide (a = PackedStruct)) as [-> | Ha]; [| destruct a; by settle].
  apply (settles_bind_post k B (λ t, t = path_tag → path_tag ∈ B)); [settle | apply StructTag_result |].
  intros t Ht. settle. by apply settles_structure.
Qed.
End Values.

(** The induction on the fuel: after [Next], either a byte was consumed, or the
    buffer is exhausted and the current value is an integer. *)
Definition exhausted (h : hydrator) : Prop :=
  Unpacker.Curr (unp h) = PackedInt ∧ Unpacker.mrk (unp h) = mkMarker PackedInt 0 0.

Lemma Next_progress h :
  wf (unp h) →
  ∃ h', Next h = Done (tt, h') ∧ wf (unp h') ∧ Unpacker.buf (unp h') = Unpacker.buf (unp h) ∧
    Unpacker.off (unp h) <= Unpacker.off (unp h') ∧
    (remaining h' < remaining h ∨ exhausted h').
Proof.
  intros Hwf. destruct (safe_pop (unp h) Hwf) as (b & u & E & Hu & Hb & Ho).
  unfold Next, via, Unpacker.Next, mbind, GoM_bind. simpl. rewrite E. simpl.
  eexists. split_and!; [done | | done | done |].
  - unfold wf in *; simpl. pose proof (numlenbytes_range b). lia.
  - unfold remaining; simpl. revert E. unfold Unpacker.pop, Unpacker.fail.
    destruct (Z.ltb_spec (Unpacker.off (unp h)) (Unpacker.len (unp h))).
    + case_match; intros; simplify_eq. left; simpl. rewrite wf_add by (done || lia). lia.
    + intros; simplify_eq. by right.
Qed.

(** With fuel for one byte more than before [Next]. *)
Lemma settles_next_of {A} fuel B (m : H A) :
  (∀ h, wf (unp h) → Unpacker.buf (unp h) = B →
     (remaining h + 2 <= Z.of_nat fuel ∨ exhausted h ∧ (1 <= fuel)%nat) →
     settles_at m h) →
  settles (S fuel) B (Next;; m).
Proof.
  intros Hm h Hwf HB Hk. destruct (Next_progress h Hwf) as (h2 & E & Hwf2 & HB2 & Ho & Hp).
  assert (Hs : settles_at m h2).
  { apply Hm; [done | congruence |]. destruct Hp; [left; lia | right].
    unfold remaining, wf in *. split; [done | lia]. }
  unfold settles_at, mbind, GoM_bind in *. rewrite E.
  destruct (m h2) as [[] | |]; [| by rewrite <- HB2 | done].
  destruct Hs as (? & ? & ?). split_and!; [done | congruence | lia].
Qed.

Lemma settles_value `{TzDb} fuel B h :
  wf (unp h) → Unpacker.buf (unp h) = B →
  (remaining h + 2 <= Z.of_nat fuel ∨ exhausted h ∧ (1 <= fuel)%nat) →
  settles_at (value_ fuel) h.
Proof.
  revert h. induction fuel as [| fuel IH]; intros h Hwf HB Hf.
  { unfold remaining, wf in *. lia. }
  destruct Hf as [Hf | [[Hc _] _]].
  - apply (settles_value_body (S fuel) B); [| done..].
    apply settles_next_of. intros h1 Hwf1 HB1 Hf1. by apply IH.
  - simpl. unfold value_body, value_case, Curr, go_get, mbind, GoM_bind, settles_at. simpl. rewrite Hc.
    destruct (safe_Int (unp h) Hwf) as (i & u & E & Hu & Hb & Ho).
    unfold fmap, GoM_fmap, mbind, GoM_bind, Int, via. simpl. by rewrite E.
Qed.

Lemma settles_next_value `{TzDb} fuel B :
  settles (S fuel) B (Next;; value_ fuel).
Proof.
  apply settles_next_of. intros h Hwf HB Hf. by eapply settles_value.
Qed.

(** ** The messages *)

Section Messages.
Context (k : nat) (B : list byte) (val : H value) (Hval : settles k B (Next;; val)).

Hint Resolve settles_strings settles_amap settles_array : go.

(** A handler of one entry is called right after [Next]. *)
Lemma settles_entries {A} (body : string → A → H A) a :
  (∀ key a, settles k B (Next;; body key a)) → settles k B (entries body a).
Proof. 
  intros Hb. unfold entries. settle_step; [settle |]. settle_step.
  do 2 (settle_step; [settle |]). apply Hb.
Qed.

Lemma settles_next_trash {A} (a : A) : settles k B (Next;; trash val;; mret a).
Proof.
  intros h Hwf HB Hk.
  pose proof (settles_next_val k B val (λ _, mret a) Hval (λ _, settles_ret k B a) h Hwf HB Hk) as Hs.
  unfold trash, settles_at, mbind, GoM_bind in *.
  destruct (Next h) as [[[] h1] | |]; [| done..]. by destruct (val h1) as [[] | |].
Qed.

Lemma settles_successStats : settles k B successStats.
Proof. unfold successStats, parseStatValue. apply settles_entries. intros. settle. Qed.

Lemma settles_routingTableRole rt : settles k B (routingTableRole val rt).
Proof.
  unfold routingTableRole. settle. apply settles_entries. intros key acc.
  repeat split_if; try apply settles_next_trash; settle.
Qed.
Hint Resolve settles_routingTableRole : go.

Lemma settles_routingTable : settles k B (routingTable val).
Proof.
  unfold routingTable. apply settles_entries. intros key acc.
  repeat split_if; try apply settles_next_trash; settle.
Qed.
Hint Resolve settles_successStats settles_routingTable : go.

Lemma settles_success n : settles k B (success_ val n).
Proof.
  unfold success_. settle_step. do 2 (settle_step; [settle |]). split_if; [settle |].
  do 2 (settle_step; [settle |]). settle_step; [| settle]. settle_step.
  do 2 (settle_step; [settle |]). unfold success_field, queryType.
  repeat split_if; try apply settles_next_trash; settle.
Qed.

Lemma settles_record n : settles k B (record val n).
Proof. unfold record. settle. Qed.
End Messages.

(** Failures recurse on their own, with the values they hold. *)
Lemma settles_failure_body k B val nested n isNested h :
  settles k B (Next;; val) → settles k B (Next;; nested) →
  wf (unp h) → Unpacker.buf (unp h) = B → remaining h + 2 <= Z.of_nat k →
  settles_at (failure_body val nested n isNested) h.
Proof.
  intros Hval Hn. revert h.
  enough (Hs : settles k B (failure_body val nested n isNested)) by exact Hs.
  unfold failure_body. settle_step. do 2 (settle_step; [settle |]). split_if; [settle |].
  settle_step; [settle |]. settle_step; [| settle].
  apply settles_entries. intros key e. unfold failure_field.
  repeat split_if; try (by apply settles_next_trash); try (settle; by apply settles_amap).
  intros h Hwf HB Hk.
  pose proof (settles_bind k B _ (λ c, mret (e <| GqlCause := c |>)) Hn
                (λ _, settles_ret k B _) h Hwf HB Hk) as Hs.
  unfold settles_at, mbind, GoM_bind in *. destruct (Next h) as [[[] h1] | |]; done.
Qed.

Lemma settles_failure_exhausted val nested n h :
  wf (unp h) → exhausted h → settles_at (failure_body val nested n true) h.
Proof.
  intros Hwf [_ Hm]. unfold failure_body, guarded, assertLength.
  assert (Hs : ∀ h', unp h' = unp h →
    settles_at (e ← getErr;
      match e with
      | Some _ => mret None
      | None =>
          mret tt;;
          e0 ← entries (failure_field val nested) zero_Neo4jError;
          mret (Some (PolyfillGqlError e0))
      end) h').
  { intros h' Hu. unfold settles_at, getErr, entries, Len, via, Unpacker.Len, go_get,
      mbind, GoM_bind, mret, GoM_ret. simpl. rewrite Hu.
    destruct (Unpacker.Err (unp h)), (err h'); simpl; rewrite ?Hu, ?Hm; simpl; rewrite ?Hu;
      by split_and!. }
  destruct (1 =? n); [by apply Hs |].
  unfold setErr, settles_at, go_modify in *. unfold mbind at 1, GoM_bind at 1.
  destruct (err h) eqn:E; [by apply Hs |].
  match goal with |- context [?k (set_err ?e h)] => specialize (Hs (set_err e h) eq_refl) end.
  exact Hs.
Qed.

Lemma settles_failure `{TzDb} fuel B n isNested h :
  wf (unp h) → Unpacker.buf (unp h) = B →
  (remaining h + 2 <= Z.of_nat fuel ∨ (exhausted h ∧ (1 <= fuel)%nat ∧ isNested = true)) →
  settles_at (failure fuel n isNested) h.
Proof.
  revert n isNested h. induction fuel as [| fuel IH]; intros n isNested h Hwf HB Hf.
  { unfold remaining, wf in *. lia. }
  destruct Hf as [Hf | (Hc & _ & ->)]; [| by apply settles_failure_exhausted].
  apply (settles_failure_body (S fuel) B); [apply settles_next_value | | done..].
  apply settles_next_of. intros h1 Hwf1 HB1 [Hf1 | [Hf1 Hf2]]; apply IH; auto.
Qed.

Lemma settles_mono {A} k k' B (m : H A) : (k <= k')%nat → settles k' B m → settles k B m.
Proof. intros Hk Hm h Hwf HB Hr. apply Hm; [done.. |]. lia. Qed.

Lemma settles_dispatch `{TzDb} fuel B n t : settles fuel B (dispatch fuel n t).
Proof.
  pose proof (settles_next_value fuel B) as Hval.
  destruct t; unfold dispatch; try (settle; fail).
  - apply (settles_mono _ (S fuel)); [lia |]. settle_step; [by apply settles_success | settle].
  - apply (settles_mono _ (S fuel)); [lia |]. settle_step; [by apply settles_record | settle].
  - unfold ignored. settle.
  - settle_step; [| settle]. intros h Hwf HB Hk. apply (settles_failure _ B); auto.
Qed.

Lemma settles_hydrate_struct `{TzDb} fuel B : settles fuel B (hydrate_struct fuel).
Proof.
  pose proof (settles_dispatch fuel B) as Hd. unfold hydrate_struct, getErr. settle.
Qed.

(** C22. Hydrating a message always ends, whatever bytes the server sent: with
    fuel for two more levels than there are bytes, [hydrate] neither runs out of
    fuel nor reads outside the buffer.  It returns a message or an error in a
    well-formed state, or it panics, which takes the tag of a path structure
    among the bytes (the indexes of a path are not checked, see
    [buildPath_panics]). *)
Theorem hydrate_settles `{TzDb} (fuel : nat) (B : list byte) (h : hydrator) :
  Packer.len B < 2 ^ 32 - 16 →
  0 <= numlenbytes (Unpacker.mrk (unp h)) <= 8 →
  (length B + 2 <= fuel)%nat →
  match hydrate fuel B h with
  | Done (_, h') => wf (unp h') ∧ Unpacker.buf (unp h') = B
  | Panic => Byte.x50 ∈ B
  | OutOfFuel => False
  end.
Proof.
  intros HB Hm Hf. set (h0 := set_unp (Unpacker.Reset B (unp h)) h).
  assert (Hwf : wf (unp h0)) by (by apply wf_reset).
  pose proof (settles_hydrate_struct fuel B h0 Hwf eq_refl) as Hs. unfold settles_at in Hs.
  change (hydrate fuel B h) with (hydrate_struct fuel h0).
  assert (Hr : remaining h0 + 2 <= Z.of_nat fuel).
  { destruct Hwf as (_ & Hl & _). unfold remaining. rewrite Hl. simpl. unfold Packer.len. lia. }
  specialize (Hs Hr). destruct (hydrate_struct fuel h0) as [[] | |]; [| done..].
  by destruct Hs as (? & ? & _).
Qed.

Lemma hydrate_settles_witness :
  match @hydrate utc_host 5 [Byte.xb0; Byte.x7e; Byte.xc0]
          (mkHydrator Unpacker.zero None 5 true false) with
  | Done (_, h') => wf (unp h') ∧ Unpacker.buf (unp h') = [Byte.xb0; Byte.x7e; Byte.xc0]
  | Panic => Byte.x50 ∈ [Byte.xb0; Byte.x7e; Byte.xc0]
  | OutOfFuel => False
  end.
Proof. apply (hydrate_settles 5); vm_compute; [done | split; congruence | lia]. Defined.

(** * Paths *)

(** The node a path is at after the first [i] hops. *)
Definition hop_node (indexes : list Z) (i : nat) : Z :=
  match i with
  | O => 0
  | S i => default 0 (indexes !! S (2 * i))
  end.

(** The indexes the protocol allows: pairs of a relationship number, counted
    from one and negated when the hop goes against its direction, and a node. *)
Definition indexes_ok (nodes rels : nat) (indexes : list Z) : Prop :=
  ∀ i, (2 * i < length indexes)%nat →
    ∃ r n, indexes !! (2 * i)%nat = Some r ∧ indexes !! S (2 * i) = Some n ∧
      1 <= Z.abs r <= Z.of_nat rels ∧ 0 <= n < Z.of_nat nodes.

(** The relationship of one hop from [n1] to [n2]. *)
Definition hop_rel (r : Z) (reln : relNode value) (n1 n2 : Node value) : Relationship value :=
  let '(s, e) := if r <? 0 then (n2, n1) else (n1, n2) in
  mkRelationship (reln_id reln) (reln_elementId reln) (node_Id s) (node_ElementId s)
    (node_Id e) (node_ElementId e) (reln_name reln) (reln_props reln).

Lemma index_Some {A} (l : list A) i : 0 <= i < Z.of_nat (length l) → is_Some (index l i).
Proof.
  intros Hi. unfold index. rewrite (proj2 (Z.leb_le 0 i)) by lia. apply lookup_lt_is_Some. lia.
Qed.

Lemma index_None {A} (l : list A) i : ¬ (0 <= i < Z.of_nat (length l)) → index l i = None.
Proof.
  intros Hi. unfold index. destruct (Z.leb_spec 0 i); [| done]. apply lookup_ge_None. lia.
Qed.

(** One step of the loop, with the relationship number read once. *)
Lemma buildRels_cons nodes rels r n indexes n1 :
  buildRels nodes rels (r :: n :: indexes) n1 =
    (reln ← index rels (Z.abs r - 1); n2 ← index nodes n;
     rest ← buildRels nodes rels indexes n2; Some (hop_rel r reln n1 n2 :: rest)).
Proof.
  simpl. unfold hop_rel. destruct (Z.ltb_spec r 0).
  - by replace (r * -1 - 1) with (Z.abs r - 1) by lia.
  - by replace (r - 1) with (Z.abs r - 1) by lia.
Qed.

Lemma indexes_ok_cons nodes rels r n indexes :
  indexes_ok nodes rels (r :: n :: indexes) ↔
  (1 <= Z.abs r <= Z.of_nat rels ∧ 0 <= n < Z.of_nat nodes) ∧ indexes_ok nodes rels indexes.
Proof.
  unfold indexes_ok. split.
  - intros Hok. split.
    + destruct (Hok 0%nat) as (r' & n' & ? & ? & ?); simpl in *; [lia |]. by simplify_eq.
    + intros i Hi. destruct (Hok (S i)) as (r' & n' & Hr & Hn & ?); simpl in *; [lia |].
      rewrite <- plus_n_Sm in Hr, Hn. by exists r', n'.
  - intros [Hh Hok] [| i] Hi; simpl in *; [by exists r, n |].
    destruct (Hok i) as (r' & n' & ? & ? & ?); [lia |]. exists r', n'.
    rewrite <- plus_n_Sm. done.
Qed.

(** A list of even length, two elements at a time. *)
Lemma pairs_ind (P : list Z → Prop) :
  P [] → (∀ r n l, P l → P (r :: n :: l)) → ∀ l, Nat.Even (length l) → P l.
Proof.
  intros H0 H2 l. remember (length l) as k eqn:Hk. revert l Hk.
  induction k as [k IH] using lt_wf_ind. intros [| r [| n l]] Hk He; simpl in *; [done | |].
  - exfalso. destruct He. lia.
  - apply H2, (IH (length l)); [lia | done |]. destruct He as [j ?]. exists (j - 1)%nat. lia.
Qed.

Lemma hop_node_cons r n indexes i :
  hop_node (r :: n :: indexes) (S (S i)) = hop_node indexes (S i).
Proof. simpl. by rewrite <- plus_n_Sm. Qed.

(** The loop gives one relationship per hop, between the nodes the hop joins. *)
Lemma buildRels_ok nodes rels indexes n0 n1 :
  Nat.Even (length indexes) → indexes_ok (length nodes) (length rels) indexes →
  index nodes n0 = Some n1 →
  ∃ rs, buildRels nodes rels indexes n1 = Some rs ∧ length indexes = (2 * length rs)%nat ∧
    ∀ i rel, rs !! i = Some rel →
      ∃ r reln a b, indexes !! (2 * i)%nat = Some r ∧ index rels (Z.abs r - 1) = Some reln ∧
        index nodes (match i with O => n0 | _ => hop_node indexes i end) = Some a ∧
        index nodes (hop_node indexes (S i)) = Some b ∧ rel = hop_rel r reln a b.
Proof.
  intros He. revert n0 n1. revert indexes He. refine (pairs_ind _ _ _).
  { intros n0 n1 _ _. exists []. done. }
  intros r n indexes IH n0 n1 [[Hr Hn] Hok]%indexes_ok_cons Hn1. rewrite buildRels_cons.
  destruct (index_Some rels (Z.abs r - 1)) as [reln Hreln]; [lia |].
  destruct (index_Some nodes n) as [n2 Hn2]; [lia |]. rewrite Hreln, Hn2. cbn [mbind option_bind].
  destruct (IH n n2 Hok Hn2) as (rs & -> & Hlen & Hrs).
  exists (hop_rel r reln n1 n2 :: rs). split_and!; [done | simpl; lia |].
  intros [| i] rel Hrel; simpl in Hrel; [by simplify_eq; exists r, reln, n1, n2 |].
  destruct (Hrs i rel Hrel) as (r' & reln' & a & b & H1 & H2 & H3 & H4 & ->).
  exists r', reln', a, b. rewrite hop_node_cons.
  replace (2 * S i)%nat with (S (S (2 * i))) by lia. split_and!; [done.. | | done | done].
  destruct i; [done |]. by rewrite hop_node_cons.
Qed.

Lemma buildRels_panics nodes rels indexes n1 :
  Nat.Even (length indexes) → ¬ indexes_ok (length nodes) (length rels) indexes →
  buildRels nodes rels indexes n1 = None.
Proof.
  intros He. revert n1. revert indexes He. refine (pairs_ind _ _ _).
  { intros n1 Hno. destruct Hno. intros i Hi. simpl in Hi. lia. }
  intros r n indexes IH n1 Hno. rewrite indexes_ok_cons in Hno. rewrite buildRels_cons.
  destruct (decide (1 <= Z.abs r <= Z.of_nat (length rels))) as [Hr |];
    [| by rewrite (index_None rels) by lia].
  destruct (decide (0 <= n < Z.of_nat (length nodes))) as [Hn |].
  - destruct (index rels _); [| done]. simpl. destruct (index nodes n) as [n2 |]; [| done]. simpl.
    by rewrite (IH n2) by tauto.
  - rewrite (index_None nodes) by lia. by destruct (index rels _).
Qed.

Lemma even_half_zero n : Nat.Even n → (n / 2 = 0)%nat → n = 0%nat.
Proof. intros [j ->] Hz. rewrite Nat.mul_comm, Nat.div_mul in Hz by done. lia. Qed.

(** A path with a hop has a first node. *)
Lemma first_node (nodes : list (Node value)) (rels : list (relNode value)) indexes :
  (length indexes / 2 ≠ 0)%nat → indexes_ok (length nodes) (length rels) indexes →
  is_Some (index nodes 0).
Proof.
  intros Hz Hok. destruct (Hok 0%nat) as (_ & n & _ & _ & _ & Hn).
  - destruct indexes; simpl in *; [done | lia].
  - apply index_Some. lia.
Qed.

(** A path is built from its nodes, its relationships and an even number of
    indexes exactly when every index is in range; the path then has one
    relationship per hop, which starts at the node the previous hop reached and
    points from that node to the next, or back when its number is negative. *)
Theorem buildPath_connects (nodes : list (Node value)) (rels : list (relNode value))
    (indexes : list Z) :
  Nat.Even (length indexes) → indexes_ok (length nodes) (length rels) indexes →
  ∃ rs, buildPath nodes rels indexes = Some (mkPath nodes rs) ∧
    length indexes = (2 * length rs)%nat ∧
    ∀ i rel, rs !! i = Some rel →
      ∃ r reln a b, indexes !! (2 * i)%nat = Some r ∧ index rels (Z.abs r - 1) = Some reln ∧
        index nodes (hop_node indexes i) = Some a ∧
        index nodes (hop_node indexes (S i)) = Some b ∧ rel = hop_rel r reln a b.
Proof.
  intros He Hok. unfold buildPath. destruct (decide _) as [Hz | Hz].
  - exists []. split_and!; [done | | done]. by apply even_half_zero.
  - destruct (first_node nodes rels indexes Hz Hok) as [n1 Hn1]. rewrite Hn1. simpl.
    destruct (buildRels_ok nodes rels indexes 0 n1 He Hok Hn1) as (rs & -> & Hl & Hrs).
    exists rs. split_and!; [done.. |]. intros i rel Hi.
    destruct (Hrs i rel Hi) as (r & reln & a & b & ?). exists r, reln, a, b. by destruct i.
Qed.

(** Two nodes joined by one relationship, walked against its direction. *)
Example buildPath_connects_witness :
  ∃ rs, buildPath [mkNode 1 "1" [] []; mkNode 2 "2" [] []] [mkRelNode 7 "7" "R" []] [-1; 1] =
          Some (mkPath [mkNode 1 "1" [] []; mkNode 2 "2" [] []] rs) ∧
    length [-1; 1] = (2 * length rs)%nat ∧
    ∀ i rel, rs !! i = Some rel →
      ∃ r reln a b, [-1; 1] !! (2 * i)%nat = Some r ∧
        index [mkRelNode 7 "7" "R" []] (Z.abs r - 1) = Some reln ∧
        index [mkNode 1 "1" [] []; mkNode 2 "2" [] []] (hop_node [-1; 1] i) = Some a ∧
        index [mkNode 1 "1" [] []; mkNode 2 "2" [] []] (hop_node [-1; 1] (S i)) = Some b ∧
        rel = hop_rel r reln a b.
Proof.
  apply buildPath_connects; [by exists 1%nat |].
  apply indexes_ok_cons. split; [simpl; lia |]. intros i Hi. simpl in Hi. lia.
Defined.

(** Nothing checks the indexes of a path before they are used: whenever one
    of them is out of range, building the path is a run-time panic. *)
Theorem buildPath_panics (nodes : list (Node value)) (rels : list (relNode value))
    (indexes : list Z) :
  Nat.Even (length indexes) →
  buildPath nodes rels indexes = None ↔ ¬ indexes_ok (length nodes) (length rels) indexes.
Proof.
  intros He. split.
  - intros Hn Hok. unfold buildPath in Hn. destruct (decide _) as [| Hz]; [done |].
    destruct (first_node nodes rels indexes Hz Hok) as [n1 Hn1]. rewrite Hn1 in Hn. simpl in Hn.
    destruct (buildRels_ok nodes rels indexes 0 n1 He Hok Hn1) as (rs & E & _).
    by rewrite E in Hn.
  - intros Hno. unfold buildPath. destruct (decide _) as [Hz | Hz].
    + destruct Hno. intros i Hi. rewrite (even_half_zero _ He Hz) in Hi. lia.
    + destruct (index nodes 0) as [n1 |]; [| done]. simpl. by rewrite buildRels_panics.
Qed.

Example buildPath_panics_witness : buildPath [mkNode 1 "1" [] []] [] [1; 0] = None.
Proof.
  apply buildPath_panics; [by exists 1%nat |]. intros Hok.
  destruct (Hok 0%nat) as (r & n & Hr & _ & Hb & _); simpl in *; [lia |]. simplify_eq. lia.
Defined.
