(* ===== verification/SummaryFacts.v ===== *)
(** Properties of the summary data: plans are parsed to the bottom, a hydrated
    SUCCESS always yields a summary, and a hydrated FAILURE is complete down
    its chain of causes. *)

From S2P Require Import Prelude GoTime Packer Values Errors Unpacker Reading Hydrator Messages.
#[local] Open Scope Z_scope.
#[local] Open Scope go_scope.
Import hydrator Hydrate Summaries Message.

(** * The fuel of [parsePlan] is enough *)

Lemma depth_list l v : v ∈ l → (depth v < depth (VList l))%nat.
Proof. simpl. induction 1; simpl in *; lia. Qed.

Lemma depth_get k m v : map_get k m = Some v → (depth v < depth (VMap m))%nat.
Proof.
  simpl. induction m as [| [k' v'] m IH]; simpl; [done |]. split_if; intros; simplify_eq; [lia |].
  specialize (IH ltac:(done)). lia.
Qed.

Lemma depth_child m c :
  c ∈ child_maps (parsePlanOpIdArgsChildren m).2 → (depth (VMap c) < depth (VMap m))%nat.
Proof.
  unfold child_maps. intros (x & Hx & Hc)%list_elem_of_omap. simpl in Hx.
  destruct (get_as as_list "children" m) as [l |] eqn:E; simpl in Hx; [| by apply not_elem_of_nil in Hx].
  unfold get_as in E. destruct (map_get "children" m) as [v |] eqn:Em; [| done].
  destruct v; simpl in E; simplify_eq. apply depth_get in Em. apply depth_list in Hx.
  destruct x; simpl in Hc; try done. case_match; simplify_eq. lia.
Qed.

(** What [parsePlan_] and [parseProfile_] share: more fuel changes nothing once
    it reaches the depth. *)
Lemma parsePlan_enough fuel m :
  (depth (VMap m) <= fuel)%nat → parsePlan_ fuel m = parsePlan m.
Proof.
  unfold parsePlan. remember (depth (VMap m)) as d eqn:Hd. revert m fuel Hd.
  induction d as [d IH] using lt_wf_ind. intros m fuel Hd Hf.
  assert (∃ d', d = S d') as [d' ->] by (simpl in Hd; eauto).
  destruct fuel as [| fuel]; [lia |]. simpl.
  f_equal. apply list_fmap_ext. intros i c Hc%list_elem_of_lookup_2.
  assert (Hlt := depth_child m c Hc).
  rewrite (IH (depth (VMap c))), (IH (depth (VMap c)) ltac:(lia) c d') by lia; done.
Qed.

Lemma parseProfile_enough fuel m :
  (depth (VMap m) <= fuel)%nat → parseProfile_ fuel m = parseProfile m.
Proof.
  unfold parseProfile. remember (depth (VMap m)) as d eqn:Hd. revert m fuel Hd.
  induction d as [d IH] using lt_wf_ind. intros m fuel Hd Hf.
  assert (∃ d', d = S d') as [d' ->] by (simpl in Hd; eauto).
  destruct fuel as [| fuel]; [lia |]. simpl.
  f_equal. apply list_fmap_ext. intros i c Hc%list_elem_of_lookup_2.
  assert (Hlt := depth_child m c Hc).
  rewrite (IH (depth (VMap c))), (IH (depth (VMap c)) ltac:(lia) c d') by lia; done.
Qed.

(** The recursion of [parsePlan] and [parseProfile] reaches the leaves: each
    satisfies the equation of the code, with itself as the recursive call on
    every child that is a non-empty map. *)
Theorem parsePlan_equation (m : gomap value) :
  let '(op, ids, args, childrenx) := parsePlanOpIdArgsChildren m in
  parsePlan m = mkPlan op args ids (parsePlan <$> child_maps childrenx) ∧
  parseProfile m =
    mkProfile op args ids (extractOptional as_int m "dbHits") (extractOptional as_int m "rows")
      (parseProfile <$> child_maps childrenx)
      (extractOptional as_int m "pageCacheMisses") (extractOptional as_int m "pageCacheHits")
      (extractOptional as_float m "pageCacheHitRatio") (extractOptional as_int m "time").
Proof.
  pose proof (depth_child m) as Hc. unfold parsePlan at 1, parseProfile at 1.
  assert (∃ d', depth (VMap m) = S d') as [d' Hd] by (simpl; eauto). rewrite Hd in *.
  simpl parsePlan_. simpl parseProfile_.
  destruct (parsePlanOpIdArgsChildren m) as [[[op ids] args] childrenx] eqn:E. cbn [snd] in Hc.
  unfold parsePlanOpIdArgsChildren in E. simplify_eq. split; f_equal; apply list_fmap_ext;
    intros i c Hi%list_elem_of_lookup_2; specialize (Hc c Hi);
    [apply parsePlan_enough | apply parseProfile_enough]; lia.
Qed.

(** * Summaries *)

(** Counters as [successStats] builds them: flags under the two flag keys,
    numbers under the others. *)
Definition stats_ok (m : gomap stat) : Prop :=
  map_wf m ∧ ∀ k v, (k, v) ∈ m → if is_flag k then ∃ b, v = StatBool b else ∃ i, v = StatInt i.

Lemma entries_inv {A} (P : A → Prop) (body : string → A → H A) a h a' h' :
  (∀ key a h a' h', P a → body key a h = Done (a', h') → P a') →
  P a → entries body a h = Done (a', h') → P a'.
Proof.
  intros Hb Ha E. unfold entries in E. open_binds E. revert Ha E. apply go_loop_inv.
  intros a1 h1 a2 h2 Ha1 E1. open_binds E1. eauto.
Qed.

Lemma successStats_ok h m h' : successStats h = Done (m, h') → stats_ok m.
Proof.
  unfold successStats. apply entries_inv; [| split; [constructor | set_solver]].
  intros key m0 h0 m1 h1 [Hwf Hok] E. open_binds E. split; [by apply map_set_wf |].
  intros k v [[= -> ->] | Hin]%elem_of_map_set; [| by apply Hok].
  unfold parseStatValue in *. case_match; unfold fmap, GoM_fmap in *;
    match goal with E : (_ ≫= _) _ = _ |- _ => open_binds E end; eauto.
Qed.

(** Only the [stats] entry writes the counters. *)
Lemma success_field_stats val key s h s' h' :
  stats_ok (counters s) → success_field val key s h = Done (s', h') → stats_ok (counters s').
Proof.
  intros Hs E. unfold success_field, queryType in E.
  repeat split_if; try (open_binds E; exact Hs); try (open_binds E; by eapply successStats_ok).
  apply bind_Done in E as (? & ? & ? & E). repeat split_if; open_binds E; exact Hs.
Qed.

Lemma success_stats val n h s h' :
  success_ val n h = Done (Some s, h') → stats_ok (counters s).
Proof.
  intros E. unfold success_, guarded in E. apply bind_Done in E as (_ & h1 & _ & E).
  apply bind_Done in E as ([e |] & h2 & _ & E); [done |].
  apply bind_Done in E as (_ & h3 & _ & E). apply bind_Done in E as (m & h4 & _ & E).
  apply bind_Done in E as (s1 & h5 & E1 & E). injection E as <- <-.
  revert E1. apply (go_loop_inv (λ s, stats_ok (counters s))); [| split; [constructor | set_solver]].
  intros a1 h6 a2 h7 Ha1 E1. open_binds E1. by eapply success_field_stats.
Qed.

Lemma extractIntCounters_ok m :
  (∀ k v, (k, v) ∈ m → if is_flag k then ∃ b, v = StatBool b else ∃ i, v = StatInt i) →
  ∃ r, extractIntCounters m = Some r ∧
    ∀ k, map_get k r = match map_get k m with Some (StatInt i) => Some i | _ => None end.
Proof.
  induction m as [| [k0 v0] m IH]; intros Hm; simpl; [by exists [] |].
  destruct IH as (r & Hr & Hget); [intros k v Hin; apply Hm; by right |].
  pose proof (Hm k0 v0 ltac:(by left)) as H0. destruct (is_flag k0) eqn:Ef.
  - destruct H0 as [b ->]. exists r. split; [done |]. intros k. split_if; [subst | done].
    rewrite Hget. destruct (map_get k0 m) as [v |] eqn:E; [| done].
    apply map_get_elem in E. specialize (Hm k0 v ltac:(by right)). rewrite Ef in Hm.
    by destruct Hm as [b' ->].
  - destruct H0 as [i ->]. rewrite Hr. exists ((k0, i) :: r). split; [done |].
    intros k. simpl. by split_if.
Qed.

Lemma extractBoolPointer_ok m key :
  stats_ok m → is_flag key = true →
  extractBoolPointer m key =
    Some (match map_get key m with Some (StatBool b) => Some b | _ => None end).
Proof.
  intros [_ Hm] Hf. unfold extractBoolPointer. destruct (map_get key m) as [v |] eqn:E; [| done].
  apply map_get_elem, Hm in E. rewrite Hf in E. by destruct E as [b ->].
Qed.

(** A SUCCESS message that was hydrated without error always has a summary:
    the type assertions on its counters cannot panic, every numeric counter is
    found under its key, and the two flags are read from theirs. *)
Theorem success_summary (val : H value) (n : Z) (h h' : hydrator) (s : success) :
  success_ val n h = Done (Some s, h') →
  ∃ sm, summary s = Some sm ∧
    (∀ k, map_get k (sum_Counters sm) =
            match map_get k (counters s) with Some (StatInt i) => Some i | _ => None end) ∧
    sum_ContainsUpdates sm =
      match map_get containsUpdatesKey (counters s) with Some (StatBool b) => Some b | _ => None end ∧
    sum_ContainsSystemUpdates sm =
      match map_get containsSystemUpdatesKey (counters s) with
      | Some (StatBool b) => Some b
      | _ => None
      end.
Proof.
  intros Hok%success_stats. unfold summary.
  destruct (extractIntCounters_ok (counters s) (proj2 Hok)) as (r & -> & Hr).
  rewrite !extractBoolPointer_ok by done. by eexists.
Qed.

(** A hydrator about to read the metadata of a SUCCESS with counters. *)
Definition stats_hydrator : hydrator :=
  mkHydrator
    (Unpacker.Reset
       (written (λ p, p ▷ Packer.MapHeader 1 ▷ Packer.String "stats" ▷ Packer.MapHeader 2
          ▷ Packer.String "nodes-created" ▷ Packer.Int64 3
          ▷ Packer.String "contains-updates" ▷ Packer.Bool true)) Unpacker.zero)
    None 5 true false.

Definition stats_result : option success * hydrator :=
  match success_ (@value_ utc_host 10) 1 stats_hydrator with
  | Done r => r
  | _ => (None, stats_hydrator)
  end.

Example success_summary_witness :
  let s := default clear_success stats_result.1 in
  ∃ sm, summary s = Some sm ∧
    (∀ k, map_get k (sum_Counters sm) =
            match map_get k (counters s) with Some (StatInt i) => Some i | _ => None end) ∧
    sum_ContainsUpdates sm =
      match map_get containsUpdatesKey (counters s) with Some (StatBool b) => Some b | _ => None end ∧
    sum_ContainsSystemUpdates sm =
      match map_get containsSystemUpdatesKey (counters s) with
      | Some (StatBool b) => Some b
      | _ => None
      end.
Proof.
  apply (success_summary (@value_ utc_host 10) 1 stats_hydrator stats_result.2).
  vm_compute. reflexivity.
Defined.

(** The counters of the example were read. *)
Example stats_read :
  counters (default clear_success stats_result.1) =
    [("nodes-created", StatInt 3); ("contains-updates", StatBool true)].
Proof. vm_compute. reflexivity. Qed.

(** * Failures *)

(** Every field a user may rely on is filled in. *)
Definition complete (e : Neo4jError) : Prop :=
  Code e ≠ "" ∧ Msg e ≠ "" ∧ GqlStatus e ≠ "" ∧ GqlStatusDescription e ≠ "" ∧
  GqlClassification e ≠ NoClassification ∧
  ∃ r, GqlDiagnosticRecord e = Some r ∧
    ∀ k, k ∈ NewDefaultDiagnosticRecord.*1 → is_Some (map_get k r).

Inductive complete_chain : Neo4jError → Prop :=
| chain_intro e :
    complete e → (∀ c, GqlCause e = Some c → complete_chain c) → complete_chain e.

Lemma polyfill_record_defaults r k :
  k ∈ NewDefaultDiagnosticRecord.*1 → is_Some (map_get k (polyfill_record r)).
Proof.
  intros Hk. unfold polyfill_record.
  assert (Hkeep : ∀ (l r : gomap value), is_Some (map_get k r) →
    is_Some (map_get k (foldl (λ r kv, match map_get kv.1 r with
                                       | Some _ => r
                                       | None => map_set kv.1 kv.2 r end) r l))).
  { induction l as [| [k0 v0] l IH]; intros r0 Hr; simpl; [done |]. apply IH.
    case_match; [done |]. rewrite map_get_set. by split_if. }
  revert Hk. generalize NewDefaultDiagnosticRecord. intros l. revert r.
  induction l as [| [k0 v0] l IH]; intros r Hin; simpl in *; [by apply not_elem_of_nil in Hin |].
  apply elem_of_cons in Hin as [-> | Hin]; [| by apply IH].
  apply Hkeep. destruct (map_get k0 r) eqn:E; [by rewrite E |]. rewrite map_get_set, decide_True; done.
Qed.

Lemma app_not_empty (a b : string) : a ≠ "" → a +:+ b ≠ "".
Proof. by destruct a. Qed.

Lemma PolyfillGqlError_complete e : complete (PolyfillGqlError e).
Proof.
  unfold PolyfillGqlError.
  set (record := match GqlDiagnosticRecord e with
                 | None => NewDefaultDiagnosticRecord
                 | Some r => polyfill_record r
                 end).
  destruct (classify_gql record) as [cls raw] eqn:Ec. unfold complete; simpl.
  split_and!; [repeat split_if; by try apply app_not_empty.. | |].
  - unfold classify_gql in Ec. destruct (get_as as_string "_classification" record); simplify_eq;
      [| done]. by repeat split_if.
  - exists record. split; [done |]. unfold record. case_match; [by apply polyfill_record_defaults |].
    intros k Hk. unfold NewDefaultDiagnosticRecord in *. simpl in *. repeat split_if; eauto.
    set_solver.
Qed.

Lemma Polyfill_cause e : GqlCause (PolyfillGqlError e) = GqlCause e.
Proof. unfold PolyfillGqlError. by destruct (classify_gql _). Qed.

(** Only the [cause] entry writes the cause. *)
Lemma failure_field_cause val nested key e h e' h' :
  (∀ h c h', nested h = Done (Some c, h') → complete_chain c) →
  (∀ c, GqlCause e = Some c → complete_chain c) →
  failure_field val nested key e h = Done (e', h') →
  ∀ c, GqlCause e' = Some c → complete_chain c.
Proof.
  intros Hn He E. unfold failure_field in E.
  repeat split_if; try (open_binds E; exact He).
  apply bind_Done in E as (c0 & h1 & E1 & E). injection E as <- <-. intros c Hc.
  change (c0 = Some c) in Hc. subst. by eapply Hn.
Qed.

(** A hydrated FAILURE has a code, a message, a GQL status, a description, a
    classification and the default entries of the diagnostic record, whatever
    the server left out; and so has every error of its chain of causes. *)
Theorem failure_complete `{TzDb} (fuel : nat) (n : Z) (nested : bool) (h h' : hydrator)
    (e : Neo4jError) :
  failure fuel n nested h = Done (Some e, h') → complete_chain e.
Proof.
  revert n nested h h' e. induction fuel as [| fuel IH]; intros n nested h h' e E; [done |].
  simpl in E. unfold failure_body, guarded in E. apply bind_Done in E as (_ & h1 & _ & E).
  apply bind_Done in E as ([x |] & h2 & _ & E); [done |].
  apply bind_Done in E as (_ & h3 & _ & E). apply bind_Done in E as (e0 & h4 & E0 & E).
  injection E as <- <-. constructor; [apply PolyfillGqlError_complete |].
  rewrite Polyfill_cause. revert E0.
  apply (entries_inv (λ e, ∀ c, GqlCause e = Some c → complete_chain c)); [| done].
  intros key a ha a' ha' Ha. apply failure_field_cause; [| done]. intros; by eapply IH.
Qed.

(** A failure that only carries a code, with an empty cause. *)
Definition failure_hydrator : hydrator :=
  mkHydrator
    (Unpacker.Reset
       (written (λ p, p ▷ Packer.MapHeader 2 ▷ Packer.String "code"
          ▷ Packer.String "Neo.ClientError.Statement.SyntaxError"
          ▷ Packer.String "cause" ▷ Packer.MapHeader 0)) Unpacker.zero)
    None 5 true false.

Definition failure_result : option Neo4jError * hydrator :=
  match @failure utc_host 10 1 false failure_hydrator with
  | Done r => r
  | _ => (None, failure_hydrator)
  end.

Example failure_complete_witness : complete_chain (default zero_Neo4jError failure_result.1).
Proof.
  apply (@failure_complete utc_host 10 1 false failure_hydrator failure_result.2).
  vm_compute. reflexivity.
Defined.
