(* ===== verification/Outgoing.v ===== *)
(** Serialization of client messages: neo4j/internal/bolt/outgoing.go, with the
    flattening of user structs of neo4j/internal/mapping/mapping.go
    ([StructAsMap]).

    A Go value is described by the reflection facts the code consults.  The
    callback [onPackErr] is modelled by recording its arguments in order. *)

From S2P Require Import Prelude GoTime Packer Values Errors Chunking.
From Stdlib Require Import Ascii.
#[local] Open Scope Z_scope.
#[local] Open Scope go_scope.

(** * Go values, as reflection sees them *)

(** A field of a struct: its name, the text of its [neo4j] tag, whether it is
    embedded, exported, and the zero value of its type. *)
Record gofield (V : Type) : Type := mkField {
  fld_name : string;
  fld_tag : string;
  fld_anonymous : bool;
  fld_exported : bool;
  fld_zero : bool;
  fld_val : V
}.
Arguments mkField {V}.
Arguments fld_name {V}.
Arguments fld_tag {V}.
Arguments fld_anonymous {V}.
Arguments fld_exported {V}.
Arguments fld_zero {V}.
Arguments fld_val {V}.

(** [GSlice] and [GMap] stand for the slice and map types that no case of a
    type switch names; [hot] tells whether the element type of the slice is
    one of [int], [int64], [string], [float64] and [any].  [GNamedBytes] is a
    slice of bytes whose type is not [\[\]byte].  [GIface] is a slot whose
    static type is an interface.  [GOther] is a value of a kind no case
    covers, or a map whose keys are not strings. *)
Inductive goval : Type :=
| GNil
| GBool (b : bool)
| GInt (i : Z)
| GUint (i : Z)               (* uint8, uint16, uint32 *)
| GUint64 (i : Z)             (* uint64, uint *)
| GFloat32 (bits : Z)
| GFloat64 (bits : Z)
| GString (s : string)
| GNilPtr (toStruct : bool)
| GPtr (x : goval)
| GPoint2D (p : Point2D)
| GPoint3D (p : Point3D)
| GTime (t : Time)
| GLocalDateTime (t : Time)
| GDate (t : Time)
| GTimeOfDay (t : Time)       (* dbtype.Time *)
| GLocalTime (t : Time)
| GDuration (d : Duration)
| GVector (t : vecType) (elems : list Z)
| GStruct (fields : list (gofield goval))
| GUUID (u : list byte)
| GArray (type_ : string)
| GBytes (b : list byte)
| GInts (l : list Z)
| GInt64s (l : list Z)
| GStrings (l : list string)
| GFloat64s (l : list Z)
| GAnys (l : list goval)
| GNamedBytes (b : list byte)
| GSlice (hot : bool) (l : list goval)
| GBytesMap (m : gomap (list byte))
| GIntMap (m : gomap Z)
| GInt64Map (m : gomap Z)
| GStringMap (m : gomap string)
| GFloat64Map (m : gomap Z)
| GAnyMap (m : gomap goval)
| GMap (m : gomap goval)
| GOther (type_ : string)
| GIface (x : goval).

(** * Struct flattening (mapping.go) *)

Module mapping.

(** [strings.Split(s, ",")] *)
Fixpoint split_commas (s : string) : list string :=
  match s with
  | EmptyString => [""]
  | String.String c s' =>
      if Ascii.eqb c ","%char then "" :: split_commas s'
      else match split_commas s' with
           | [] => [String.String c ""]
           | w :: ws => String.String c w :: ws
           end
  end.

Definition parseTag (tag : string) : string * bool :=
  match split_commas tag with
  | [] => ("", false)
  | name :: opts => (name, bool_decide ("omitempty" ∈ opts))
  end.

(** The exported fields of the struct types of the driver, none of which has a
    tag; the temporal types have unexported fields only. *)
Definition driver_fields (x : goval) : option (list (string * goval)) :=
  match x with
  | GPoint2D p =>
      Some [("X", GFloat64 (p2_X p)); ("Y", GFloat64 (p2_Y p));
            ("SpatialRefId", GUint (p2_SpatialRefId p))]
  | GPoint3D p =>
      Some [("X", GFloat64 (p3_X p)); ("Y", GFloat64 (p3_Y p)); ("Z", GFloat64 (p3_Z p));
            ("SpatialRefId", GUint (p3_SpatialRefId p))]
  | GDuration d =>
      Some [("Months", GInt (du_Months d)); ("Days", GInt (du_Days d));
            ("Seconds", GInt (du_Seconds d)); ("Nanos", GInt (du_Nanos d))]
  | GVector VecFloat64 l => Some [("Elems", GFloat64s l)]
  | GVector VecFloat32 l => Some [("Elems", GSlice false (GFloat32 <$> l))]
  | GVector VecInt64 l => Some [("Elems", GInt64s l)]
  | GVector _ l => Some [("Elems", GSlice false (GInt <$> l))]
  | GTime _ | GLocalDateTime _ | GDate _ | GTimeOfDay _ | GLocalTime _ => Some []
  | _ => None
  end.

(** The entry of a field that is not flattened. *)
Definition plain_field (f : gofield goval) : list (string * goval) :=
  if negb (fld_exported f) then []
  else if decide (fld_tag f = "-") then []
  else
    let '(name, omitEmpty) := parseTag (fld_tag f) in
    let name := if decide (name = "") then fld_name f else name in
    if omitEmpty && fld_zero f then [] else [(name, fld_val f)].

(** The entries of a struct, in the order of [buildFields]: an embedded struct
    without a tag is replaced by its own entries, and one behind a nil pointer
    contributes nothing.  [None] for a value that is not a struct. *)
Fixpoint fieldsOf (x : goval) : option (list (string * goval)) :=
  match x with
  | GStruct fs =>
      Some (mjoin ((λ f,
        if fld_anonymous f && bool_decide (fld_tag f = "") then
          default (plain_field f)
            (match fld_val f with
             | GPtr y => fieldsOf y
             | GNilPtr true => Some []
             | _ => fieldsOf (fld_val f)
             end)
        else plain_field f) <$> fs))
  | _ => driver_fields x
  end.

(** The outer [None] is the [false] result, the inner one the nil map. *)
Fixpoint StructAsMap (x : goval) : option (option (gomap goval)) :=
  match x with
  | GNilPtr _ => Some None
  | GPtr x => StructAsMap x
  | _ => (λ kvs, Some (foldl (λ m kv, map_set kv.1 kv.2 m) [] kvs)) <$> fieldsOf x
  end.

End mapping.

(** * The writer of messages *)

Module outgoing.

Record outgoing : Type := mkOutgoing {
  chunks : chunker.chunker;
  packer : Packer.Packer;
  packErrs : list error;      (* the calls of onPackErr *)
  useUtc : bool;
  supportsUuid : bool
}.

End outgoing.

(** A method of the writer. *)
Abbreviation Out := (GoM outgoing.outgoing).

Module Pack.
Import outgoing.

(** A call on the packer. *)
Definition pk (f : Packer.Packer → Packer.Packer) : Out unit :=
  go_modify (λ o, o <| packer := f (packer o) |>).

Definition onPackErr (e : error) : Out unit :=
  go_modify (λ o, o <| packErrs := packErrs o ++ [e] |>).

(** [for _, x := range xs { body(x) }] *)
Fixpoint each {A} (body : A → Out unit) (xs : list A) : Out unit :=
  match xs with
  | [] => mret tt
  | x :: xs => body x;; each body xs
  end.

(** ** Temporal values *)

Section Structs.
Context `{TzDb}.

Definition packLegacyDateTimeWithTzOffset (t : Time) : Out unit :=
  let offset := zone_offset t in
  pk (Packer.StructHeader Byte.x46 3);;
  pk (Packer.Int64 (i64 (unix t + offset)));; pk (Packer.Int (Nanosecond t));;
  pk (Packer.Int offset).

Definition packLegacyDateTimeWithTzName (t : Time) (id : string) : Out unit :=
  let offset := zone_offset t in
  pk (Packer.StructHeader Byte.x66 3);;
  pk (Packer.Int64 (i64 (unix t + offset)));; pk (Packer.Int (Nanosecond t));;
  pk (Packer.String id).

Definition packUtcDateTimeWithTzOffset (t : Time) : Out unit :=
  let offset := zone_offset t in
  pk (Packer.StructHeader Byte.x49 3);;
  pk (Packer.Int64 (unix t));; pk (Packer.Int (Nanosecond t));; pk (Packer.Int offset).

Definition packUtcDateTimeWithTzName (t : Time) (id : string) : Out unit :=
  pk (Packer.StructHeader Byte.x69 3);;
  pk (Packer.Int64 (unix t));; pk (Packer.Int (Nanosecond t));; pk (Packer.String id).

Definition packDateTime (t : Time) : Out unit :=
  utc ← go_get useUtc;
  match Timezone.id_of t with
  | Some id => if (utc : bool) then packUtcDateTimeWithTzName t id else packLegacyDateTimeWithTzName t id
  | None => if (utc : bool) then packUtcDateTimeWithTzOffset t else packLegacyDateTimeWithTzOffset t
  end.

Definition packLocalDateTime (t : Time) : Out unit :=
  let secs := i64 (unix t + zone_offset t) in
  pk (Packer.StructHeader Byte.x64 2);; pk (Packer.Int64 secs);; pk (Packer.Int (Nanosecond t)).

(** Floored division by the length of a day. *)
Definition days_of (secs : Z) : Z :=
  let days := go_div secs 86400 in
  if go_rem secs 86400 <? 0 then days - 1 else days.

Definition packDate (t : Time) : Out unit :=
  let secs := i64 (unix t + zone_offset t) in
  pk (Packer.StructHeader Byte.x44 1);; pk (Packer.Int64 (days_of secs)).

Definition nanos_of_day (t : Time) : Z :=
  3600000000000 * Hour t + 60000000000 * Minute t + 1000000000 * Second t + Nanosecond t.

Definition packTime (t : Time) : Out unit :=
  pk (Packer.StructHeader Byte.x54 2);; pk (Packer.Int64 (nanos_of_day t));;
  pk (Packer.Int (zone_offset t)).

Definition packLocalTime (t : Time) : Out unit :=
  pk (Packer.StructHeader Byte.x74 1);; pk (Packer.Int64 (nanos_of_day t)).

Definition packPoint2D (p : Point2D) : Out unit :=
  pk (Packer.StructHeader Byte.x58 3);; pk (Packer.Uint32 (p2_SpatialRefId p));;
  pk (Packer.Float64 (p2_X p));; pk (Packer.Float64 (p2_Y p)).

Definition packPoint3D (p : Point3D) : Out unit :=
  pk (Packer.StructHeader Byte.x59 4);; pk (Packer.Uint32 (p3_SpatialRefId p));;
  pk (Packer.Float64 (p3_X p));; pk (Packer.Float64 (p3_Y p));; pk (Packer.Float64 (p3_Z p)).

Definition packDuration (d : Duration) : Out unit :=
  pk (Packer.StructHeader Byte.x45 4);;
  pk (Packer.Int64 (du_Months d));; pk (Packer.Int64 (du_Days d));;
  pk (Packer.Int64 (du_Seconds d));; pk (Packer.Int (du_Nanos d)).

Definition packVector (t : vecType) (elems : list Z) : Out unit :=
  pk (match t with
      | VecInt8 => Packer.VectorInt8 elems
      | VecInt16 => Packer.VectorInt16 elems
      | VecInt32 => Packer.VectorInt32 elems
      | VecInt64 => Packer.VectorInt64 elems
      | VecFloat32 => Packer.VectorFloat32 elems
      | VecFloat64 => Packer.VectorFloat64 elems
      end).

Definition packUUID (u : list byte) : Out unit :=
  ok ← go_get supportsUuid;
  if (ok : bool) then pk (Packer.UUID u)
  else onPackErr (FeatureNotSupportedError "" "UUID type" "requires at least Bolt 6.1").

(** [packArray]; [None] when the value is not an array. *)
Definition packArray (x : goval) : option (Out unit) :=
  match x with
  | GUUID u => Some (packUUID u)
  | GArray ty => Some (onPackErr (UnsupportedTypeError ty))
  | _ => None
  end.

(** [packMap] over the recursive call [packX]. *)
Definition packMap_ (packX : goval → Out unit) (m : gomap goval) : Out unit :=
  pk (Packer.MapHeader (Packer.len m));;
  each (λ kv, pk (Packer.String kv.1);; packX kv.2) m.

(** The default case of [packStruct]. *)
Definition packUserStruct (packX : goval → Out unit) (x : goval) : Out unit :=
  match mapping.StructAsMap x with
  | None => onPackErr (UnsupportedTypeError "")
  | Some None => pk Packer.Nil
  | Some (Some m) => packMap_ packX m
  end.

(** [packStruct]: the type switch has pointer cases for points and vectors
    only. *)
Definition packStruct (packX : goval → Out unit) (x : goval) : Out unit :=
  match x with
  | GPoint2D p | GPtr (GPoint2D p) => packPoint2D p
  | GPoint3D p | GPtr (GPoint3D p) => packPoint3D p
  | GTime t => packDateTime t
  | GLocalDateTime t => packLocalDateTime t
  | GDate t => packDate t
  | GTimeOfDay t => packTime t
  | GLocalTime t => packLocalTime t
  | GDuration d => packDuration d
  | GVector t e | GPtr (GVector t e) => packVector t e
  | _ => packUserStruct packX x
  end.

(** [v.Kind() == reflect.Struct] *)
Definition is_struct (x : goval) : bool :=
  match x with
  | GPoint2D _ | GPoint3D _ | GTime _ | GLocalDateTime _ | GDate _ | GTimeOfDay _
  | GLocalTime _ | GDuration _ | GVector _ _ | GStruct _ => true
  | _ => false
  end.

(** ** Any value

    [packX] and [packV] call each other; the fuel bounds the nesting. *)

(** The cases that are the same in both. *)
Definition pack_scalar (x : goval) : option (Out unit) :=
  match x with
  | GBool b => Some (pk (Packer.Bool b))
  | GInt i => Some (pk (Packer.Int64 i))
  | GUint i => Some (pk (Packer.Uint32 (u32 i)))
  | GUint64 i => Some (pk (Packer.Uint64 i))
  | GFloat32 b => Some (pk (Packer.Float64 (Packer.float64_of_float32 b)))
  | GFloat64 b => Some (pk (Packer.Float64 b))
  | GString s => Some (pk (Packer.String s))
  | GNilPtr _ => Some (pk Packer.Nil)
  | GUUID _ | GArray _ => packArray x
  | _ => None
  end.

(** The loop of the default slice case. *)
Definition packElems (packV : goval → Out unit) (l : list goval) : Out unit :=
  pk (Packer.ArrayHeader (Packer.len l));; each packV l.

Definition packX_body (packX packV : goval → Out unit) (x : goval) : Out unit :=
  match pack_scalar x with
  | Some m => m
  | None =>
      match x with
      | GNil => pk Packer.Nil
      | GPtr i =>
          if is_struct i then packStruct packX x
          else match packArray i with
               | Some m => m
               | None => packV i
               end
      | GBytes b => pk (Packer.Bytes b)
      | GInts l => pk (Packer.Ints l)
      | GInt64s l => pk (Packer.Int64s l)
      | GStrings l => pk (Packer.Strings l)
      | GFloat64s l => pk (Packer.Float64s l)
      | GAnys l => pk (Packer.ArrayHeader (Packer.len l));; each packX l
      | GNamedBytes b => packElems packV ((λ b, GUint (of_byte b)) <$> b)
      | GSlice _ l => packElems packV l
      | GBytesMap m => pk (Packer.BytesMap m)
      | GIntMap m => pk (Packer.IntMap m)
      | GInt64Map m => pk (Packer.Int64Map m)
      | GStringMap m => pk (Packer.StringMap m)
      | GFloat64Map m => pk (Packer.Float64Map m)
      | GAnyMap m => packMap_ packX m
      | GMap m =>
          pk (Packer.MapHeader (Packer.len m));;
          each (λ kv, pk (Packer.String kv.1);; packV kv.2) m
      | GOther ty => onPackErr (UnsupportedTypeError ty)
      | GIface x => packX x
      | _ => packStruct packX x
      end
  end.

(** A slice in [packV]: long slices of the hot element types go through
    [packX]. *)
Definition packV_slice (packX packV : goval → Out unit) (x : goval) (hot : bool) (l : list goval) :
    Out unit :=
  if (5 <? Packer.len l) && hot then packX x else packElems packV l.

Definition packV_body (packX packV : goval → Out unit) (x : goval) : Out unit :=
  match pack_scalar x with
  | Some m => m
  | None =>
      match x with
      | GPtr i => if is_struct i then packStruct packX x else packV i
      | GBytes b | GNamedBytes b => pk (Packer.Bytes b)
      | GInts l => packV_slice packX packV x true (GInt <$> l)
      | GInt64s l => packV_slice packX packV x true (GInt <$> l)
      | GStrings l => packV_slice packX packV x true (GString <$> l)
      | GFloat64s l => packV_slice packX packV x true (GFloat64 <$> l)
      | GAnys l => packV_slice packX packV x true (GIface <$> l)
      | GSlice hot l => packV_slice packX packV x hot l
      | _ => if is_struct x then packStruct packX x else packX x
      end
  end.

Fixpoint packX (fuel : nat) (x : goval) : Out unit :=
  match fuel with
  | O => go_nofuel
  | S fuel => packX_body (packX fuel) (packV fuel) x
  end
with packV (fuel : nat) (x : goval) : Out unit :=
  match fuel with
  | O => go_nofuel
  | S fuel => packV_body (packX fuel) (packV fuel) x
  end.

Definition packMap (fuel : nat) (m : gomap goval) : Out unit := packMap_ (packX fuel) m.

(** ** Messages *)

Definition begin : Out unit :=
  go_modify (λ o,
    let c := chunker.beginMessage (chunks o) in
    o <| chunks := c |> <| packer := Packer.Begin (chunker.buf c) (packer o) |>).

Definition end_ : Out unit := λ o,
  let '(buf, err) := Packer.End_ (packer o) in
  let o := o <| chunks := chunker.endMessage (chunker.set_buf buf (chunks o)) |> in
  match err with
  | Some e => onPackErr (PackErr e) o
  | None => Done (tt, o)
  end.

(** [begin], the structure header, the fields, [end]. *)
Definition message (tag : byte) (n : Z) (body : Out unit) : Out unit :=
  begin;; pk (Packer.StructHeader tag n);; body;; end_.

Definition appendHello (fuel : nat) (hello : gomap goval) : Out unit :=
  message Byte.x01 1 (packMap fuel hello).
Definition appendLogoff : Out unit := message Byte.x6b 0 (mret tt).
Definition appendLogon (fuel : nat) (logon : gomap goval) : Out unit :=
  message Byte.x6a 1 (packMap fuel logon).
Definition appendBegin (fuel : nat) (meta : gomap goval) : Out unit :=
  message Byte.x11 1 (packMap fuel meta).
Definition appendCommit : Out unit := message Byte.x12 0 (mret tt).
Definition appendRollback : Out unit := message Byte.x13 0 (mret tt).
Definition appendRun (fuel : nat) (cypher : string) (params meta : gomap goval) : Out unit :=
  message Byte.x10 3 (pk (Packer.String cypher);; packMap fuel params;; packMap fuel meta).

Definition pack_n (n : Z) : Out unit :=
  pk (Packer.MapHeader 1);; pk (Packer.String "n");; pk (Packer.Int n).
Definition pack_n_qid (n qid : Z) : Out unit :=
  pk (Packer.MapHeader 2);; pk (Packer.String "n");; pk (Packer.Int n);;
  pk (Packer.String "qid");; pk (Packer.Int64 qid).

Definition appendPullN (n : Z) : Out unit := message Byte.x3f 1 (pack_n n).
Definition appendPullNQid (n qid : Z) : Out unit := message Byte.x3f 1 (pack_n_qid n qid).
Definition appendDiscardN (n : Z) : Out unit := message Byte.x2f 1 (pack_n n).
Definition appendDiscardNQid (n qid : Z) : Out unit := message Byte.x2f 1 (pack_n_qid n qid).
Definition appendPullAll : Out unit := message Byte.x3f 0 (mret tt).

Definition pack_route (context : gomap string) (bookmarks : list string) : Out unit :=
  pk (Packer.MapHeader (Packer.len context));;
  each (λ kv, pk (Packer.String kv.1);; pk (Packer.String kv.2)) context;;
  pk (Packer.ArrayHeader (Packer.len bookmarks));;
  each (λ b, pk (Packer.String b)) bookmarks.

Definition appendRouteToV43 (context : gomap string) (bookmarks : list string)
    (database : string) : Out unit :=
  message Byte.x66 3 (
    pack_route context bookmarks;;
    if decide (database = DefaultDatabase) then pk Packer.Nil else pk (Packer.String database)).

Definition appendRoute (fuel : nat) (context : gomap string) (bookmarks : list string)
    (what : gomap goval) : Out unit :=
  message Byte.x66 3 (pack_route context bookmarks;; packMap fuel what).

Definition appendReset : Out unit := message Byte.x0f 0 (mret tt).
Definition appendGoodbye : Out unit := message Byte.x02 0 (mret tt).
Definition appendTelemetry (api : Z) : Out unit := message Byte.x54 1 (pk (Packer.Int api)).
Definition appendX (fuel : nat) (tag : byte) (fields : list goval) : Out unit :=
  message tag (Packer.len fields) (each (packX fuel) fields).

(** [send]; the result is what [onIoErr] is called with. *)
Definition send {W} (write : list byte → W → option error * W) (w : W) (o : outgoing) :
    outcome (option error * (outgoing * W)) :=
  match chunker.send write (chunks o) w with
  | Done (e, (c, w)) => Done (e, (o <| chunks := c |>, w))
  | Panic => Panic
  | OutOfFuel => OutOfFuel
  end.
End Structs.

End Pack.
