(* ===== verification/OutgoingFacts.v ===== *)
(** Properties of the writer of messages: packing always ends and only appends,
    and the reflective routine [packV] agrees with [packX]. *)

From S2P Require Import Prelude GoTime Packer Values Errors Chunking Outgoing.
#[local] Open Scope Z_scope.
#[local] Open Scope go_scope.
Import outgoing Pack.

(** * More fuel gives the same result *)

(** Every result of [m] is a result of [m']. *)
Definition refines {A} (m m' : Out A) : Prop := ∀ o r, m o = Done r → m' o = Done r.

Lemma refines_refl {A} (m : Out A) : refines m m.
Proof. by intros o r. Qed.

Lemma refines_bind {A B} (m m' : Out A) (f f' : A → Out B) :
  refines m m' → (∀ a, refines (f a) (f' a)) → refines (m ≫= f) (m' ≫= f').
Proof.
  intros Hm Hf o r E. destruct r as [b o']. apply bind_Done in E as (a & o1 & E1 & E2).
  unfold mbind, GoM_bind. rewrite (Hm _ _ E1). by apply Hf.
Qed.

Lemma refines_each {A} (f f' : A → Out unit) xs :
  (∀ x, refines (f x) (f' x)) → refines (each f xs) (each f' xs).
Proof.
  intros Hf. induction xs; simpl; [apply refines_refl |]. apply refines_bind; auto.
Qed.

#[local] Hint Resolve refines_refl : core.

(** The bodies use their callbacks only through [bind] and [each]. *)
Section Bodies.
Context `{TzDb} (X V X' V' : goval → Out unit).
Context (HX : ∀ x, refines (X x) (X' x)) (HV : ∀ x, refines (V x) (V' x)).

Lemma refines_packMap m : refines (packMap_ X m) (packMap_ X' m).
Proof. apply refines_bind; [done | intros _]. apply refines_each. intros. by apply refines_bind. Qed.

Lemma refines_packStruct x : refines (packStruct X x) (packStruct X' x).
Proof.
  assert (Hu : ∀ x, refines (packUserStruct X x) (packUserStruct X' x)).
  { intros y. unfold packUserStruct. destruct (mapping.StructAsMap y) as [[m |] |]; auto.
    apply refines_packMap. }
  destruct x; simpl; auto. destruct x; simpl; auto.
Qed.

Lemma refines_packElems l : refines (packElems V l) (packElems V' l).
Proof. apply refines_bind; [done | intros _]. by apply refines_each. Qed.

Hint Resolve refines_packStruct refines_packMap refines_packElems refines_bind refines_each : core.

Lemma refines_packX_body x : refines (packX_body X V x) (packX_body X' V' x).
Proof.
  unfold packX_body. destruct (pack_scalar x); [done |]. destruct x; auto.
  destruct (is_struct x); auto. destruct (packArray x); auto.
Qed.

Lemma refines_packV_body x : refines (packV_body X V x) (packV_body X' V' x).
Proof.
  unfold packV_body, packV_slice. destruct (pack_scalar x); [done |].
  destruct x; auto; cbv beta iota; case_match; auto.
Qed.
End Bodies.

Lemma pack_mono_S `{TzDb} f :
  (∀ x, refines (packX f x) (packX (S f) x)) ∧ (∀ x, refines (packV f x) (packV (S f) x)).
Proof.
  induction f as [| f [IHX IHV]]; [by split; intros x o r |].
  split; intros x; [apply refines_packX_body | apply refines_packV_body]; done.
Qed.

Lemma packX_mono `{TzDb} f f' x : (f <= f')%nat → refines (packX f x) (packX f' x).
Proof.
  induction 1; [done |]. intros o r E. by apply pack_mono_S, IHle.
Qed.

Lemma packV_mono `{TzDb} f f' x : (f <= f')%nat → refines (packV f x) (packV f' x).
Proof.
  induction 1; [done |]. intros o r E. by apply pack_mono_S, IHle.
Qed.

(** * [packV] agrees with [packX] *)

(** A loop of packer calls is one packer call. *)
Lemma each_pk {A} (g : A → Packer.Packer → Packer.Packer) (f : A → Out unit) xs o :
  (∀ x o, f x o = pk (g x) o) → each f xs o = pk (Packer.range_over g xs) o.
Proof.
  intros Hf. revert o. induction xs as [| x xs IH]; intros o; simpl.
  - by destruct o.
  - unfold mbind, GoM_bind. rewrite Hf. unfold pk at 1, go_modify. rewrite IH. done.
Qed.

Lemma each_fmap {A B} (g : A → B) (f : B → Out unit) xs o :
  each f (g <$> xs) o = each (λ x, f (g x)) xs o.
Proof.
  revert o. induction xs as [| x xs IH]; intros o; simpl; [done |].
  unfold mbind, GoM_bind. destruct (f (g x) o) as [[] | |]; [apply IH | done..].
Qed.

(** The typed fast paths against the loop over the elements. *)
Lemma packElems_typed {A} (V : goval → Out unit) (wrap : A → goval)
    (g : A → Packer.Packer → Packer.Packer) l o :
  (∀ x o, V (wrap x) o = pk (g x) o) →
  packElems V (wrap <$> l) o =
    pk (λ p, p ▷ Packer.listHeader (Packer.len l) 0x90 0xd4 ▷ Packer.range_over g l) o.
Proof.
  intros HV. unfold packElems, mbind, GoM_bind, pk at 1, go_modify.
  rewrite each_fmap. rewrite (each_pk g) by done. unfold Packer.len. by rewrite length_fmap.
Qed.

Lemma refines_eq {A} (m m' : Out A) : (∀ o, m o = m' o) → refines m m'.
Proof. intros E o r. by rewrite E. Qed.

Section Agreement.
Context `{TzDb}.

Lemma packX_to_packV f x :
  (∀ b, x ≠ GNamedBytes b) → refines (packX f x) (packV (S (S f)) x).
Proof.
  intros Hx. destruct f as [| f]; [done |].
  pose proof (packX_mono (S f) (S (S f)) x ltac:(lia)) as HX.
  assert (HfX : ∀ y, refines (packX f y) (packX (S (S f)) y)) by (intros; apply packX_mono; lia).
  assert (HfV : ∀ y, refines (packV f y) (packV (S (S f)) y)) by (intros; apply packV_mono; lia).
  assert (Hslice : ∀ hot l, refines (packX (S f) x) (packElems (packV (S (S f))) l) →
    refines (packX (S f) x) (packV_slice (packX (S (S f))) (packV (S (S f))) x hot l)).
  { intros hot l Hl. unfold packV_slice. by case_match. }
  change (packV (S (S (S f))) x) with (packV_body (packX (S (S f))) (packV (S (S f))) x).
  unfold packV_body. destruct (pack_scalar x) as [m |] eqn:Es.
  { change (packX (S f) x) with (packX_body (packX f) (packV f) x).
    unfold packX_body. by rewrite Es. }
  destruct x; try done.
  all: try (apply Hslice; apply refines_eq; intros o; symmetry; by apply packElems_typed).
  - change (packX (S f) (GPtr x)) with (packX_body (packX f) (packV f) (GPtr x)).
    unfold packX_body. cbn [pack_scalar].
    destruct (is_struct x); [by apply refines_packStruct |].
    destruct (packArray x) as [m |] eqn:Ea; [| done].
    apply refines_eq. intros o. destruct x; simpl in Ea; simplify_eq; done.
  - exact (refines_packStruct (packX f) (packX (S (S f))) HfX (GStruct fields)).
  - apply Hslice. unfold packElems, Packer.len. rewrite length_fmap.
    apply refines_bind; [done | intros _].
    intros o r. rewrite each_fmap. by apply refines_each.
  - by destruct (Hx b).
  - apply Hslice. apply refines_packElems. done.
Qed.
End Agreement.

(** * Packing ends, and only appends *)

(** Nesting depth; the constants leave room for the values the code makes up. *)
Fixpoint height (x : goval) : nat :=
  match x with
  | GPtr x | GIface x => S (height x)
  | GStruct fs => S (foldr (λ f n, Nat.max (height (fld_val f)) n) 0%nat fs)
  | GAnys l => S (S (foldr (λ x n, Nat.max (height x) n) 0%nat l))
  | GSlice _ l => S (foldr (λ x n, Nat.max (height x) n) 0%nat l)
  | GAnyMap m | GMap m => S (foldr (λ kv n, Nat.max (height kv.2) n) 0%nat m)
  | GNamedBytes _ | GInts _ | GInt64s _ | GStrings _ | GFloat64s _ => 1%nat
  | GPoint2D _ | GPoint3D _ | GDuration _ | GVector _ _ | GTime _ | GLocalDateTime _
  | GDate _ | GTimeOfDay _ | GLocalTime _ => 3%nat
  | _ => 0%nat
  end.

(** [o'] is [o] with bytes and reported errors added at the end. *)
Definition grows (o o' : outgoing) : Prop :=
  chunks o' = chunks o ∧ useUtc o' = useUtc o ∧ supportsUuid o' = supportsUuid o ∧
  Packer.buf (packer o) `prefix_of` Packer.buf (packer o') ∧ packErrs o `prefix_of` packErrs o'.

#[global] Instance grows_preorder : PreOrder grows.
Proof.
  split; unfold grows.
  - intros o. done.
  - intros o1 o2 o3 (-> & -> & -> & ? & ?) (-> & -> & -> & ? & ?). split_and!; try done.
    + by etrans.
    + by etrans.
Qed.

(** [m] returns, having only added to the writer. *)
Definition packs (m : Out unit) : Prop := ∀ o, ∃ o', m o = Done (tt, o') ∧ grows o o'.

Lemma packs_ret : packs (mret tt).
Proof. intros o. by exists o. Qed.

Lemma packs_bind m m' : packs m → packs m' → packs (m;; m').
Proof.
  intros Hm Hm' o. destruct (Hm o) as (o1 & E1 & G1). destruct (Hm' o1) as (o2 & E2 & G2).
  exists o2. unfold mbind, GoM_bind. rewrite E1. split; [done | by etrans].
Qed.

Lemma packs_get {A} (f : outgoing → A) (k : A → Out unit) :
  (∀ a, packs (k a)) → packs (a ← go_get f; k a).
Proof. intros Hk o. apply (Hk (f o) o). Qed.

Lemma packs_each {A} (f : A → Out unit) xs : (∀ x, x ∈ xs → packs (f x)) → packs (each f xs).
Proof.
  induction xs as [| x xs IH]; intros Hf; simpl; [apply packs_ret |].
  apply packs_bind; [apply Hf; by left | apply IH; intros; apply Hf; by right].
Qed.

Lemma packs_err e : packs (onPackErr e).
Proof. intros o. eexists. split; [done |]. split_and!; try done. by apply prefix_app_r. Qed.

(** What a packer call may do to the buffer. *)
Definition extends (f : Packer.Packer → Packer.Packer) : Prop :=
  ∀ p, Packer.buf p `prefix_of` Packer.buf (f p).

Lemma packs_pk f : extends f → packs (pk f).
Proof. intros Hf o. eexists. split; [done |]. by split_and!. Qed.

Lemma extends_emit bs : extends (Packer.emit bs).
Proof. intros p. by apply prefix_app_r. Qed.

Lemma extends_comp f g : extends f → extends g → extends (λ p, g (f p)).
Proof. intros Hf Hg p. etrans; [apply Hf | apply Hg]. Qed.

Lemma extends_range {A} (f : A → Packer.Packer → Packer.Packer) xs :
  (∀ x, extends (f x)) → extends (Packer.range_over f xs).
Proof.
  intros Hf. unfold Packer.range_over. induction xs as [| x xs IH]; intros p; simpl; [done |].
  etrans; [apply (Hf x) | apply IH].
Qed.

Lemma extends_err e : extends (Packer.overwriteErr e).
Proof. by intros p. Qed.

Lemma extends_setErr e : extends (Packer.setErr e).
Proof. intros p. unfold Packer.setErr. by destruct (Packer.err p). Qed.

Create HintDb packs discriminated.
#[local] Hint Resolve extends_emit extends_err extends_setErr : packs.

Lemma extends_listHeader l so lo : extends (Packer.listHeader l so lo).
Proof. intros p. unfold Packer.listHeader. repeat case_match; auto with packs; by apply prefix_app_r. Qed.

Lemma extends_StructHeader t n : extends (Packer.StructHeader t n).
Proof. intros p. unfold Packer.StructHeader. case_match; [apply extends_setErr | by apply prefix_app_r]. Qed.

Lemma extends_Int64 i : extends (Packer.Int64 i).
Proof. intros p. unfold Packer.Int64. repeat case_match; by apply prefix_app_r. Qed.

Lemma extends_Uint64 i : extends (Packer.Uint64 i).
Proof.
  apply (extends_comp (Packer.checkOverflowInt i)); [| apply extends_Int64].
  intros p. unfold Packer.checkOverflowInt. by case_match.
Qed.

Lemma extends_String s : extends (Packer.String s).
Proof. apply (extends_comp (Packer.listHeader _ _ _)); [apply extends_listHeader | apply extends_emit]. Qed.

Lemma extends_Bytes b : extends (Packer.Bytes b).
Proof.
  intros p. unfold Packer.Bytes, Packer.bytesHeader.
  repeat case_match; simplify_eq; simpl; rewrite <- ?app_assoc; try done; by apply prefix_app_r.
Qed.

Lemma extends_list {A} (f : A → Packer.Packer → Packer.Packer) n so lo xs :
  (∀ x, extends (f x)) → extends (λ p, p ▷ Packer.listHeader n so lo ▷ Packer.range_over f xs).
Proof. intros. apply extends_comp; [apply extends_listHeader | by apply extends_range]. Qed.

Lemma extends_entries {V} (f : V → Packer.Packer → Packer.Packer) m :
  (∀ x, extends (f x)) → extends (Packer.entries_over f m).
Proof. intros. apply extends_list. intros. apply extends_comp; [apply extends_String | auto]. Qed.

Lemma extends_vector mk w v : extends (Packer.vector_body mk w v).
Proof.
  assert (Hh : extends (λ p, p ▷ Packer.StructHeader Byte.x56 2 ▷ Packer.Bytes [mk])).
  { apply extends_comp; [apply extends_StructHeader | apply extends_Bytes]. }
  intros p. unfold Packer.vector_body. etrans; [apply Hh |]. cbv beta zeta.
  destruct v as [| z v]; [apply extends_Bytes |].
  generalize (Packer.Bytes [mk] (Packer.StructHeader Byte.x56 2 p)). intros q.
  unfold Packer.prepareVectorData, Packer.bytesHeader.
  repeat case_match; simplify_eq; simpl; try done;
    (etrans; [| apply (extends_range (λ v, Packer.emit (be_bytes w v)) v); intros; apply extends_emit]);
    simpl; rewrite <- ?app_assoc; by apply prefix_app_r.
Qed.

Lemma extends_UUID u : extends (Packer.UUID u).
Proof. apply (extends_comp (Packer.emit _)); apply extends_emit. Qed.

Lemma extends_Bool b : extends (Packer.Bool b).
Proof. destruct b; apply extends_emit. Qed.

#[local] Hint Resolve packs_ret packs_bind packs_err packs_pk extends_listHeader extends_StructHeader
  extends_Int64 extends_Uint64 extends_String extends_Bytes extends_vector extends_UUID
  extends_Bool : packs.

(** Packer methods that are another method by definition. *)
#[local] Hint Extern 2 (extends (Packer.Uint32 _)) => apply extends_Int64 : packs.
#[local] Hint Extern 2 (extends (Packer.Int _)) => apply extends_Int64 : packs.
#[local] Hint Extern 2 (extends (Packer.Float64 _)) => apply extends_emit : packs.
#[local] Hint Extern 2 (extends Packer.Nil) => apply extends_emit : packs.
#[local] Hint Extern 2 (extends (Packer.MapHeader _)) => apply extends_listHeader : packs.
#[local] Hint Extern 2 (extends (Packer.ArrayHeader _)) => apply extends_listHeader : packs.
#[local] Hint Extern 3 (extends _) => apply extends_vector : packs.

(** ** The values the recursion reaches are lower *)

Lemma le_foldr_max {A} (h : A → nat) x l : x ∈ l → (h x <= foldr (λ x n, Nat.max (h x) n) 0%nat l)%nat.
Proof. induction 1; simpl; lia. Qed.

Lemma height_scalars {A} hot (f : A → goval) l :
  (∀ a, height (f a) = 0%nat) → height (GSlice hot (f <$> l)) = 1%nat.
Proof.
  intros Hf. simpl. f_equal. induction l as [| a l IH]; simpl; [done |]. rewrite Hf. simpl. exact IH.
Qed.

Lemma height_ifaces hot l : (height (GSlice hot (GIface <$> l)) <= height (GAnys l))%nat.
Proof.
  simpl. apply le_n_S. induction l as [| a l IH]; simpl; [lia |].
  rewrite Nat.max_lub_iff. split; [lia |]. etrans; [apply IH | lia].
Qed.

Lemma driver_fields_height x kvs kv :
  mapping.driver_fields x = Some kvs → kv ∈ kvs → (height kv.2 < height x)%nat.
Proof.
  intros E Hin. destruct x as [| | | | | | | | | | | | | | | | | | [] | | | | | | | | | | | | | | | | | | | | ];
    simpl in E; simplify_eq; set_unfold; destruct_or? Hin; subst; cbn [snd];
    rewrite ?height_scalars by done; simpl; (lia || done).
Qed.

Lemma plain_field_height f kv :
  kv ∈ mapping.plain_field f → kv.2 = fld_val f.
Proof.
  unfold mapping.plain_field. repeat case_match; set_solver.
Qed.

Lemma fieldsOf_height x kvs kv :
  mapping.fieldsOf x = Some kvs → kv ∈ kvs → (height kv.2 < height x)%nat.
Proof.
  remember (height x) as h eqn:Hh. revert x kvs Hh. induction h as [h IH] using lt_wf_ind.
  intros x kvs -> E Hin.
  destruct x; try (by eapply driver_fields_height). simpl in E. simplify_eq.
  apply list_elem_of_join in Hin as (l & Hkv & (f & -> & Hf)%list_elem_of_fmap).
  assert (Hle : (height (fld_val f) < height (GStruct fields))%nat).
  { simpl. apply (le_foldr_max (λ f, height (fld_val f))) in Hf. lia. }
  assert (Hplain : kv ∈ mapping.plain_field f → (height kv.2 < height (GStruct fields))%nat).
  { intros Hp. rewrite (plain_field_height _ _ Hp). done. }
  assert (Hrec : ∀ y, (height y < height (GStruct fields))%nat →
     kv ∈ default (mapping.plain_field f) (mapping.fieldsOf y) →
     (height kv.2 < height (GStruct fields))%nat).
  { intros y Hy Hk. destruct (mapping.fieldsOf y) as [kvs' |] eqn:Ey; [| by apply Hplain].
    simpl in Hk. specialize (IH _ Hy y kvs' eq_refl Ey Hk). lia. }
  case_match; [| by apply Hplain].
  destruct (fld_val f) as [| | | | | | | | [] | y | | | | | | | | | | | | | | | | | | | | | | | | | | | | | ] eqn:Ev;
    try (by eapply Hrec; [| done]).
  - by apply not_elem_of_nil in Hkv.
  - apply (Hrec y); [simpl in Hle |- *; lia | done].
Qed.

Lemma elem_of_fold_set {V} (kvs m : gomap V) kv :
  kv ∈ foldl (λ m kv, map_set kv.1 kv.2 m) m kvs → kv ∈ m ∨ kv ∈ kvs.
Proof.
  revert m. induction kvs as [| [k v] kvs IH]; intros m Hin; simpl in *; [by left |].
  apply IH in Hin as [Hin |]; [| set_solver]. destruct kv as [k' v'].
  apply elem_of_map_set in Hin as [[= -> ->] |]; set_solver.
Qed.

Lemma StructAsMap_height x m kv :
  mapping.StructAsMap x = Some (Some m) → kv ∈ m → (height kv.2 < height x)%nat.
Proof.
  assert (Hf : ∀ y, (λ kvs, Some (foldl (λ m kv, map_set kv.1 kv.2 m) [] kvs)) <$> mapping.fieldsOf y
      = Some (Some m) → kv ∈ m → (height kv.2 < height y)%nat).
  { intros y (kvs & Ef & [= ->])%fmap_Some Hin.
    apply elem_of_fold_set in Hin as [Hin | Hin]; [by apply not_elem_of_nil in Hin |].
    by eapply (fieldsOf_height _ kvs). }
  induction x; intros E Hin; try (by apply Hf).
  specialize (IHx E Hin). simpl. lia.
Qed.

Section Totality.
Context `{TzDb}.

Lemma packs_scalar x m : pack_scalar x = Some m → packs m.
Proof.
  destruct x; simpl; intros; simplify_eq; auto with packs.
  unfold packUUID. apply packs_get. intros []; auto with packs.
Qed.

(** Structs, given that the values they flatten to are packed. *)
Lemma packs_packMap X m : (∀ kv, kv ∈ m → packs (X kv.2)) → packs (packMap_ X m).
Proof.
  intros HX. unfold packMap_. apply packs_bind; [auto with packs |].
  apply packs_each. intros kv Hkv. apply packs_bind; auto with packs.
Qed.

Lemma packs_packStruct X x :
  (∀ y, (height y < height x)%nat → packs (X y)) → packs (packStruct X x).
Proof.
  intros HX.
  assert (Hu : packs (packUserStruct X x)).
  { unfold packUserStruct. destruct (mapping.StructAsMap x) as [[m |] |] eqn:E; auto with packs.
    apply packs_packMap. intros kv Hkv. apply HX. by eapply StructAsMap_height. }
  assert (HP2 : ∀ p, packs (packPoint2D p)) by (intros; unfold packPoint2D; auto 10 with packs).
  assert (HP3 : ∀ p, packs (packPoint3D p)) by (intros; unfold packPoint3D; auto 10 with packs).
  assert (HV : ∀ t e, packs (packVector t e)) by (intros [] e; unfold packVector; auto with packs).
  destruct x; simpl; try done.
  - destruct x; auto.
  - unfold packDateTime. apply packs_get. intros utc.
    destruct (Timezone.id_of t), utc;
      unfold packUtcDateTimeWithTzName, packLegacyDateTimeWithTzName, packUtcDateTimeWithTzOffset,
        packLegacyDateTimeWithTzOffset; cbv zeta; auto 10 with packs.
  - unfold packLocalDateTime. cbv zeta. auto 10 with packs.
  - unfold packDate. cbv zeta. auto 10 with packs.
  - unfold packTime. auto 10 with packs.
  - unfold packLocalTime. auto 10 with packs.
  - unfold packDuration. auto 10 with packs.
Qed.

(** The bodies, given that their callbacks pack every lower value. *)
Context (X V : goval → Out unit).

Lemma packs_packElems l : (∀ y, y ∈ l → packs (V y)) → packs (packElems V l).
Proof. intros Hl. unfold packElems. apply packs_bind; [auto with packs | by apply packs_each]. Qed.

Lemma packs_slice_elems hot l n :
  (∀ y, (height y < n)%nat → packs (V y)) → (height (GSlice hot l) <= n)%nat →
  packs (packElems V l).
Proof.
  intros HV Hn. apply packs_packElems. intros y Hy. apply HV.
  apply (le_foldr_max height) in Hy. simpl in Hn. lia.
Qed.

Lemma packs_entries (F : goval → Out unit) m n :
  (∀ y, (height y < n)%nat → packs (F y)) → (height (GMap m) <= n)%nat →
  packs (packMap_ F m).
Proof.
  intros HF Hn. apply packs_packMap. intros kv Hkv. apply HF.
  apply (le_foldr_max (λ kv, height kv.2)) in Hkv. simpl in Hn. lia.
Qed.

Lemma packs_typed {A} (f : A → Packer.Packer → Packer.Packer) l :
  (∀ x, extends (f x)) →
  packs (pk (λ p, p ▷ Packer.listHeader (Packer.len l) 0x90 0xd4 ▷ Packer.range_over f l)).
Proof. intros. by apply packs_pk, extends_list. Qed.

Lemma packs_packX_body x :
  (∀ y, (height y < height x)%nat → packs (X y)) →
  (∀ y, (height y < height x)%nat → packs (V y)) → packs (packX_body X V x).
Proof.
  intros HX HV. unfold packX_body. destruct (pack_scalar x) as [m |] eqn:Es; [by eapply packs_scalar |].
  destruct x; try (by apply packs_packStruct); auto with packs.
  - destruct (is_struct x); [by apply packs_packStruct |].
    destruct (packArray x) as [m |] eqn:Ea; [| apply HV; simpl; lia].
    apply (packs_scalar x). by destruct x.
  - apply packs_typed. auto with packs.
  - apply packs_typed. auto with packs.
  - apply packs_typed. auto with packs.
  - apply packs_typed. auto with packs.
  - apply packs_bind; [auto with packs |]. apply packs_each. intros y Hy. apply HX.
    apply (le_foldr_max height) in Hy. simpl. lia.
  - eapply packs_slice_elems; [done |]. rewrite (height_scalars false); done.
  - by eapply packs_slice_elems.
  - apply packs_pk, extends_entries. auto with packs.
  - apply packs_pk, extends_entries. auto with packs.
  - apply packs_pk, extends_entries. auto with packs.
  - apply packs_pk, extends_entries. auto with packs.
  - apply packs_pk, extends_entries. auto with packs.
  - by eapply packs_entries.
  - by eapply packs_entries.
Qed.

Lemma packs_packV_body x :
  (∀ y, (height y <= height x)%nat → packs (X y)) →
  (∀ y, (height y < height x)%nat → packs (V y)) → packs (packV_body X V x).
Proof.
  intros HX HV. unfold packV_body.
  destruct (pack_scalar x) as [m |] eqn:Es; [by eapply packs_scalar |].
  assert (HXl : ∀ y, (height y < height x)%nat → packs (X y)) by (intros; apply HX; lia).
  assert (Hsl : ∀ hot hot' l, (height (GSlice hot' l) <= height x)%nat →
    packs (packV_slice X V x hot l)).
  { intros hot hot' l Hl. unfold packV_slice. case_match; [by apply HX |].
    by eapply packs_slice_elems. }
  destruct x; try (by apply HX); try (by apply packs_packStruct); auto with packs.
  - destruct (is_struct x); [by apply packs_packStruct |]. apply HV. simpl. lia.
  - apply (Hsl _ false). by rewrite height_scalars.
  - apply (Hsl _ false). by rewrite height_scalars.
  - apply (Hsl _ false). by rewrite height_scalars.
  - apply (Hsl _ false). by rewrite height_scalars.
  - apply (Hsl _ false), height_ifaces.
  - by apply (Hsl _ hot).
Qed.
End Totality.

Lemma pack_total `{TzDb} h :
  (∀ f x, (height x <= h)%nat → (2 * h + 1 <= f)%nat → packs (packX f x)) ∧
  (∀ f x, (height x <= h)%nat → (2 * h + 2 <= f)%nat → packs (packV f x)).
Proof.
  induction h as [h IH] using lt_wf_ind.
  assert (HX : ∀ f x, (height x <= h)%nat → (2 * h + 1 <= f)%nat → packs (packX f x)).
  { intros [| f] x Hh Hf; [lia |]. apply packs_packX_body; intros y Hy.
    - destruct (IH (height y) ltac:(lia)) as [IHX _]. apply IHX; lia.
    - destruct (IH (height y) ltac:(lia)) as [_ IHV]. apply IHV; lia. }
  split; [done |]. intros [| f] x Hh Hf; [lia |]. apply packs_packV_body; intros y Hy.
  - apply HX; lia.
  - destruct (IH (height y) ltac:(lia)) as [_ IHV]. apply IHV; lia.
Qed.

(** Packing a value always ends, whatever the value is: with fuel for twice
    its nesting depth, [packX] returns, leaves the messages already queued and
    the bytes already written alone, and reports what it cannot pack through
    [onPackErr] only. *)
Theorem packX_total `{TzDb} (x : goval) (f : nat) (o : outgoing) :
  (2 * height x + 1 <= f)%nat → ∃ o', packX f x o = Done (tt, o') ∧ grows o o'.
Proof. intros Hf. by apply (pack_total (height x)). Qed.

Example packX_total_witness :
  ∃ o', @packX utc_host 9 (GAnyMap [("a", GAnys [GInt 1; GOther "chan int"])])
          (mkOutgoing chunker.newChunker (Packer.mkPacker [] None) [] true true) = Done (tt, o') ∧
    grows (mkOutgoing chunker.newChunker (Packer.mkPacker [] None) [] true true) o'.
Proof. apply packX_total. simpl. lia. Defined.

(** C24. The reflective routine [packV], which packs the elements of typed
    slices and maps, writes the same bytes and reports the same errors as
    [packX] does on the value itself, for every value except slices of bytes
    whose type is not [\[\]byte]. *)
Theorem packV_packX `{TzDb} (x : goval) (f : nat) (o : outgoing) :
  (∀ b, x ≠ GNamedBytes b) → (2 * height x + 2 <= f)%nat → packV f x o = packX f x o.
Proof.
  intros Hx Hf. destruct (pack_total (height x)) as [HX HV].
  destruct (HX f x ltac:(lia) ltac:(lia) o) as (o1 & E1 & _).
  destruct (HV f x ltac:(lia) ltac:(lia) o) as (o2 & E2 & _).
  pose proof (packX_to_packV f x Hx o _ E1) as E1'.
  pose proof (packV_mono f (S (S f)) x ltac:(lia) o _ E2) as E2'. congruence.
Qed.

Example packV_packX_witness :
  @packV utc_host 4 (GInts [1; 2; 3])
    (mkOutgoing chunker.newChunker (Packer.mkPacker [] None) [] true true) =
  @packX utc_host 4 (GInts [1; 2; 3])
    (mkOutgoing chunker.newChunker (Packer.mkPacker [] None) [] true true).
Proof. apply packV_packX; [done | simpl; lia]. Defined.

(** The exception is real: a value of a named byte-slice type is packed as a
    list of integers where it is a parameter, and as bytes where it is an
    element of a typed slice or map. *)
Theorem named_bytes_diverge `{TzDb} (o : outgoing) (b : byte) :
  packX 3 (GNamedBytes [b]) o = Done (tt, o <| packer :=
     packer o ▷ Packer.emit [Byte.x91] ▷ Packer.Int64 (of_byte b) |>) ∧
  packV 3 (GNamedBytes [b]) o = Done (tt, o <| packer :=
     packer o ▷ Packer.emit [Byte.xcc; Byte.x01] ▷ Packer.emit [b] |>).
Proof.
  split; [| done]. pose proof (of_byte_range b) as [Hl Hu].
  assert (Hw : u32 (of_byte b) = of_byte b) by (apply uwrap_small; split; lia).
  rewrite <- Hw. done.
Qed.

(** A pointer to a temporal value is not recognised: it reaches the
    flattening of user structs, which finds no exported field, and is sent as an
    empty map without any error being reported. *)
Theorem temporal_pointer_is_empty_map `{TzDb} (t : Time) (x : goval) (o : outgoing) :
  x ∈ [GTime t; GLocalDateTime t; GDate t; GTimeOfDay t; GLocalTime t] →
  packX 1 (GPtr x) o = Done (tt, o <| packer := Packer.emit [Byte.xa0] (packer o) |>).
Proof. intros Hx. set_unfold in Hx. by destruct_or! Hx; subst. Qed.

Example temporal_pointer_witness :
  @packX utc_host 1 (GPtr (GTime (mkTime 0 0 LocUTC)))
    (mkOutgoing chunker.newChunker (Packer.mkPacker [] None) [] true true) =
  Done (tt, mkOutgoing chunker.newChunker (Packer.mkPacker [Byte.xa0] None) [] true true).
Proof.
  apply (temporal_pointer_is_empty_map (mkTime 0 0 LocUTC) (GTime (mkTime 0 0 LocUTC))). by left.
Defined.
