(* ===== verification/RoundTrip.v ===== *)
(** What a client packs, the hydrator reads back: the round trip between
    outgoing.go and hydrator.go, value by value and through a whole message. *)

From S2P Require Import Prelude GoTime Packer Values Errors Unpacker Reading Chunking ChunkingFacts.
From S2P Require Import Hydrator Messages Outgoing OutgoingFacts.
#[local] Open Scope Z_scope.
#[local] Open Scope go_scope.
Import Hydrate.

(** * Times *)

Section Times.
Context `{TzDb}.

Lemma time_Unix_small s n : 0 <= n < 1000000000 → time_Unix s n = mkTime s n LocLocal.
Proof. intros Hn. unfold time_Unix. rewrite Z.div_small, Z.mod_small by lia. f_equal. lia. Qed.

(** The wall clock of a UTC time, put together again. *)
Lemma civil_seconds (t : Time) :
  loc t = LocUTC →
  days_from_civil (Year t) (Month t) (Day t) * 86400 + Hour t * 3600 + Minute t * 60 + Second t =
  unix t.
Proof.
  intros Hl. pose proof (days_civil_roundtrip (wall t / 86400)) as Hd.
  unfold Year, Month, Day. destruct (civil_from_days (wall t / 86400)) as [[y m] d]. simpl.
  rewrite Hd. unfold Hour, Minute, Second, wall, zone_offset, lookup. rewrite Hl. simpl.
  rewrite Z.add_0_r. generalize (unix t). intros u. Z.to_euclidean_division_equations. lia.
Qed.

(** Moving a UTC wall clock to a fixed zone keeps the wall clock. *)
Lemma copy_into_fixed s n name o :
  0 <= n < 1000000000 →
  copy_into (mkTime s n LocUTC) (FixedZone name o) = mkTime (s - o) n (LocFixed name o).
Proof.
  intros Hn. unfold copy_into, time_Date, FixedZone. cbv zeta.
  change (Nanosecond (mkTime s n LocUTC)) with n. rewrite Z.div_small, Z.mod_small by lia.
  rewrite Z.add_0_r, civil_seconds by done. simpl.
  destruct (Z.eqb_spec o 0); [subst; by rewrite Z.sub_0_r |].
  by case_match.
Qed.
End Times.

(** * What a Go value stands for

    [denotes utc x v]: the value [x] fits the limits of the wire format, and the
    server understands it as [v].  Maps keep one iteration order. *)

Definition fits (n : Z) : Prop := n < 0xffffffff.

(** Width and range of the elements of a vector. *)
Definition vec_width (t : vecType) : nat :=
  match t with
  | VecFloat64 | VecInt64 => 8 | VecFloat32 | VecInt32 => 4 | VecInt16 => 2 | VecInt8 => 1
  end.
Definition vec_elem (t : vecType) (z : Z) : Prop :=
  match t with
  | VecFloat64 | VecFloat32 => unsigned (Z.of_nat (vec_width t) * 8) z
  | _ => signed (Z.of_nat (vec_width t) * 8) z
  end.

(** A time whose fields Go can represent and the protocol can carry. *)
Definition time_ok `{TzDb} (t : Time) : Prop :=
  signed 64 (unix t) ∧ 0 <= nsec t < 1000000000 ∧ signed 64 (zone_offset t) ∧
  signed 64 (unix t + zone_offset t).

Section Denotation.
Context `{TzDb} (utc uuid : bool).

(** The time that comes back for a [time.Time]: the same instant, with the
    named zone if the host knows it by that name, a fixed offset otherwise. *)
Definition sent_time (t : Time) : Time :=
  match Timezone.id_of t with
  | Some id =>
      match Timezone.load id with
      | inl l =>
          if utc then mkTime (unix t) (nsec t) l
          else copy_into (mkTime (unix t + zone_offset t) (nsec t) LocUTC) l
      | inr _ => t
      end
  | None => mkTime (unix t) (nsec t) (LocFixed "Offset" (zone_offset t))
  end.

Inductive denotes : goval → value → Prop :=
| d_nil : denotes GNil VNil
| d_nilptr b : denotes (GNilPtr b) VNil
| d_bool b : denotes (GBool b) (VBool b)
| d_int i : signed 64 i → denotes (GInt i) (VInt i)
| d_uint i : unsigned 32 i → denotes (GUint i) (VInt i)
| d_uint64 i : unsigned 63 i → denotes (GUint64 i) (VInt i)
| d_float64 b : unsigned 64 b → denotes (GFloat64 b) (VFloat b)
| d_string s : fits (Packer.strlen s) → denotes (GString s) (VString s)
| d_bytes b : Packer.len b < 0x100000000 → denotes (GBytes b) (VBytes b)
| d_uuid u : uuid = true → length u = 16%nat → denotes (GUUID u) (VUUID u)
| d_point2d p :
    unsigned 64 (p2_X p) → unsigned 64 (p2_Y p) → unsigned 32 (p2_SpatialRefId p) →
    denotes (GPoint2D p) (VPoint2D p)
| d_point3d p :
    unsigned 64 (p3_X p) → unsigned 64 (p3_Y p) → unsigned 64 (p3_Z p) →
    unsigned 32 (p3_SpatialRefId p) → denotes (GPoint3D p) (VPoint3D p)
| d_duration d :
    signed 64 (du_Months d) → signed 64 (du_Days d) → signed 64 (du_Seconds d) →
    signed 64 (du_Nanos d) → denotes (GDuration d) (VDuration d)
| d_vector t l :
    Forall (vec_elem t) l → Packer.len l * Z.of_nat (vec_width t) < 0x100000000 →
    denotes (GVector t l) (VVector t l)
| d_time t :
    time_ok t → fits (Packer.strlen (location_String (loc t))) →
    denotes (GTime t) (VDateTime (sent_time t))
| d_date t :
    time_ok t → signed 64 (wall t / 86400 * 86400) →
    denotes (GDate t) (VDate (mkTime (wall t / 86400 * 86400) 0 LocUTC))
| d_ptr x v : Pack.is_struct x = false → denotes x v → (∀ b, x ≠ GNamedBytes b) →
    denotes (GPtr x) v
| d_ptr_point2d p v : denotes (GPoint2D p) v → denotes (GPtr (GPoint2D p)) v
| d_ptr_point3d p v : denotes (GPoint3D p) v → denotes (GPtr (GPoint3D p)) v
| d_ptr_vector t l v : denotes (GVector t l) v → denotes (GPtr (GVector t l)) v
| d_ptr_struct fs v : denotes (GStruct fs) v → denotes (GPtr (GStruct fs)) v
| d_iface x v : denotes x v → denotes (GIface x) v
| d_ints l : Forall (signed 64) l → fits (Packer.len l) → denotes (GInts l) (VList (VInt <$> l))
| d_strings l :
    Forall (λ s, fits (Packer.strlen s)) l → fits (Packer.len l) →
    denotes (GStrings l) (VList (VString <$> l))
| d_anys l vs :
    Forall2 denotes l vs → fits (Packer.len l) → denotes (GAnys l) (VList vs)
| d_slice hot l vs :
    Forall2 (λ x v, denotes x v ∧ ∀ b, x ≠ GNamedBytes b) l vs → fits (Packer.len l) →
    denotes (GSlice hot l) (VList vs)
| d_anymap m vm :
    Forall2 (λ kx kv, kx.1 = kv.1 ∧ fits (Packer.strlen kx.1) ∧ denotes kx.2 kv.2) m vm →
    map_wf m → fits (Packer.len m) → denotes (GAnyMap m) (VMap vm)
| d_struct fs m vm :
    mapping.StructAsMap (GStruct fs) = Some (Some m) →
    Forall2 (λ kx kv, kx.1 = kv.1 ∧ fits (Packer.strlen kx.1) ∧ denotes kx.2 kv.2) m vm →
    fits (Packer.len m) → denotes (GStruct fs) (VMap vm).
End Denotation.

(** * What the writer appends *)

Section RoundTrip.
Context `{TzDb} (utc uuid : bool).

(** A writer and a hydrator that negotiated the same features. *)
Definition agrees (o : outgoing.outgoing) : Prop :=
  outgoing.useUtc o = utc ∧ outgoing.supportsUuid o = uuid.

#[local] Program Instance hydrator_ready : Ready hydrator.hydrator := {
  host_ok h := hydrator.err h = None ∧ hydrator.useUtc h = utc ∧ hydrator.supportsUuid h = uuid
}.
Next Obligation. done. Qed.

(** [m] appends exactly [bs] and reports nothing. *)
Definition sends (m : Out unit) (bs : list byte) : Prop :=
  ∀ o, agrees o → m o = Done (tt, o <| outgoing.packer := Packer.emit bs (outgoing.packer o) |>).

Lemma sends_ret : sends (mret tt) [].
Proof.
  intros o _. unfold mret, GoM_ret, Packer.emit. destruct o as [? [b e] ? ? ?]; simpl.
  by rewrite app_nil_r.
Qed.

Lemma sends_bind m m' b b' : sends m b → sends m' b' → sends (m;; m') (b ++ b').
Proof.
  intros Hm Hm' o Ho. unfold mbind, GoM_bind. rewrite Hm by done. rewrite Hm' by done.
  do 2 f_equal. unfold Packer.emit. simpl. by rewrite <- app_assoc.
Qed.

Lemma sends_pk f bs : appends f bs → sends (Pack.pk f) bs.
Proof. intros Hf o _. unfold Pack.pk, go_modify. by rewrite Hf. Qed.

Lemma sends_each {A} (f : A → Out unit) xs bs :
  Forall2 (λ x b, sends (f x) b) xs bs → sends (Pack.each f xs) (concat bs).
Proof. induction 1; simpl; [apply sends_ret | by apply sends_bind]. Qed.

(** * What the hydrator reads *)

Lemma reads_field {A B} (m : H A) (k : A → H B) t e1 e2 a b :
  item m t e1 a → reads (k a) e2 b → reads (Next;; x ← m; k x) (e1 ++ e2) b.
Proof. intros Hm Hk. by eapply item_next, item_bind. Qed.

(** A value of kind [t] is decoded by the case of [t]. *)
Lemma item_value_case val t bs v :
  item (value_case val t) t bs v → item (value_body val) t bs v.
Proof.
  intros (b & e & -> & Ht & Hr). exists b, e. split_and!; [done.. |].
  intros s rest Hok Hrest Hm Hc. unfold value_body, Curr, go_get, mbind, GoM_bind.
  change (Unpacker.Curr (hydrator.unp s)) with (Unpacker.Curr (host_get s)).
  rewrite Hc, Ht. by apply Hr.
Qed.

(** [f <$> m] *)
Lemma item_fmap {A} (m : GoM Unpacker.Unpacker A) (f : A → value) t bs a :
  item m t bs a → item (f <$> via m : H value) t bs (f a).
Proof. intros Hm. eapply item_map; [by apply item_via | done]. Qed.

(** A structure: its header, its tag, its fields. *)
Lemma item_struct val tag n e v :
  0 <= n < 0x10 → (∀ major, reads (structure val major utc tag n) e v) →
  item (value_body val) PackedStruct ([to_byte (0xb0 + n); tag] ++ e) v.
Proof.
  intros Hn Hs. apply item_value_case. exists (to_byte (0xb0 + n)), (tag :: e).
  rewrite struct_marker by done. split_and!; [done.. |].
  intros s rest Hok Hr Hm _. unfold value_case.
  destruct (reads_pop tag (host_get s) (e ++ rest) I Hr) as (u1 & E1 & Hr1).
  change (Unpacker.pop (host_get s) = Done (tag, u1)) in E1.
  assert (Hm1 : Unpacker.mrk u1 = mkMarker PackedStruct n 0).
  { rewrite struct_marker in Hm by done. unfold Unpacker.pop, Unpacker.fail in E1.
    rewrite <- Hm. unfold Unpacker.setErr in E1. simpl in E1. by repeat case_match; simplify_eq. }
  unfold StructTag, via at 1, Unpacker.StructTag, mbind, GoM_bind. rewrite E1.
  unfold Len, via, Unpacker.Len. rewrite host_get_set. rewrite Hm1. simpl.
  rewrite uwrap_small by (split; lia).
  destruct (Hs (hydrator.boltMajor s) (host_set u1 s) rest) as (u2 & E2 & Hr2).
  { by apply host_ok_set. }
  { by rewrite host_get_set. }
  exists u2. split; [| done]. rewrite host_set_set in E2.
  destruct Hok as (_ & Hu & _). simpl in *. rewrite Hu. exact E2.
Qed.

(** A list: header and elements. *)
Lemma item_list val bss vs :
  Forall2 (reads (Next;; val)) bss vs → Packer.len vs < 0xffffffff →
  item (value_body val) PackedArray
    (written (Packer.ArrayHeader (Packer.len vs)) ++ concat bss) (VList vs).
Proof.
  intros Hf Hl. apply item_value_case. unfold value_case, array.
  eapply item_map; [| done]. eapply item_bind.
  - apply item_via, item_Len; [constructor |]. unfold Packer.len in *. lia.
  - unfold Packer.len. rewrite Nat2Z.id. by apply reads_repeat.
Qed.

(** A map: header and entries, whose keys are distinct. *)
Lemma item_amap val ebs (kvs : gomap value) :
  Forall2 (λ e kv, ∃ t bs, Packer.strlen kv.1 < 0xffffffff ∧ item val t bs kv.2 ∧
                   e = written (Packer.String kv.1) ++ bs) ebs kvs →
  map_wf kvs → Packer.len kvs < 0xffffffff →
  item (amap val) PackedMap
    (written (Packer.MapHeader (Packer.len kvs)) ++ concat ebs) kvs.
Proof.
  intros Hf Hwf Hl. unfold amap. eapply item_bind.
  - apply item_via, item_Len; [constructor |]. unfold Packer.len in *. lia.
  - unfold Packer.len. rewrite Nat2Z.id.
    rewrite <- (map_set_all kvs []) at 2 by done.
    apply (reads_loop _ (λ m kv, map_set kv.1 kv.2 m)).
    eapply Forall2_impl; [done |]. intros e [k v] (t & bs & Hk & Hv & ->) m. simpl in *.
    eapply reads_field; [by apply item_via, item_String |].
    rewrite <- (app_nil_r bs). eapply reads_field; [done | apply reads_ret].
Qed.

Lemma item_map_value val bs (kvs : gomap value) :
  item (amap val) PackedMap bs kvs → item (value_body val) PackedMap bs (VMap kvs).
Proof. intros. apply item_value_case. by eapply item_map. Qed.

(** * Structures *)

Lemma reads_last {A B} (m : H A) (f : A → B) t e a b :
  item m t e a → f a = b → reads (Next;; x ← m; mret (f x)) e b.
Proof. intros. by eapply item_next, item_map. Qed.

(** [struct_ok m v]: [m] sends a structure that is read as [v]. *)
Definition struct_ok (m : Out unit) (v : value) : Prop :=
  ∃ bs, sends m bs ∧ ∀ val, item (value_body val) PackedStruct bs v.

Lemma struct_ok_intro tag n (m : Out unit) e v :
  0 <= n < 0x10 → sends m e → (∀ val major, reads (structure val major utc tag n) e v) →
  struct_ok (Pack.pk (Packer.StructHeader tag n);; m) v.
Proof.
  intros Hn Hm Hr. exists ([to_byte (0xb0 + n); tag] ++ e). split.
  - apply sends_bind; [| done]. apply sends_pk, StructHeader_appends. lia.
  - intros val. apply item_struct; auto.
Qed.

Lemma sends_Int64 i : sends (Pack.pk (Packer.Int64 i)) (written (Packer.Int64 i)).
Proof. apply sends_pk, Int64_appends. Qed.

Lemma sends_Float64 b : sends (Pack.pk (Packer.Float64 b)) (written (Packer.Float64 b)).
Proof. by apply sends_pk. Qed.

Lemma sends_String t : fits (Packer.strlen t) → sends (Pack.pk (Packer.String t)) (written (Packer.String t)).
Proof. intros. by apply sends_pk, String_appends. Qed.

Lemma item_hInt i : signed 64 i → item (Int : H Z) PackedInt (written (Packer.Int64 i)) i.
Proof. intros. by apply item_via, item_Int. Qed.

Lemma item_hFloat b : unsigned 64 b → item (Float : H Z) PackedFloat (written (Packer.Float64 b)) b.
Proof. intros. by apply item_via, item_Float. Qed.

Lemma item_hStr t : fits (Packer.strlen t) → item (Str : H string) PackedStr (written (Packer.String t)) t.
Proof. intros. by apply item_via, item_String. Qed.

Lemma signed_of_unsigned w z : 0 < w → unsigned (w - 1) z → signed w z.
Proof. unfold unsigned, signed. lia. Qed.

Lemma signed_of_u32 z : unsigned 32 z → signed 64 z.
Proof. unfold unsigned, signed. lia. Qed.

Hint Resolve sends_bind sends_Int64 sends_Float64 sends_String item_hInt item_hFloat item_hStr
  signed_of_u32 : go.

Lemma point2d_ok p :
  unsigned 64 (p2_X p) → unsigned 64 (p2_Y p) → unsigned 32 (p2_SpatialRefId p) →
  struct_ok (Pack.packPoint2D p) (VPoint2D p).
Proof.
  intros Hx Hy Hs. eapply struct_ok_intro; [lia | eauto with go |]. intros val major. unfold structure.
  unfold point2d. eapply reads_field; [by apply item_hInt, signed_of_u32 |].
  eapply reads_field; [by apply item_hFloat |]. eapply reads_last; [by apply item_hFloat |].
  rewrite uwrap_small by done. by destruct p.
Qed.

Lemma point3d_ok p :
  unsigned 64 (p3_X p) → unsigned 64 (p3_Y p) → unsigned 64 (p3_Z p) →
  unsigned 32 (p3_SpatialRefId p) → struct_ok (Pack.packPoint3D p) (VPoint3D p).
Proof.
  intros Hx Hy Hz Hs. eapply struct_ok_intro; [lia | eauto 10 with go |]. intros val major. unfold structure.
  unfold point3d. eapply reads_field; [by apply item_hInt, signed_of_u32 |].
  do 2 (eapply reads_field; [by apply item_hFloat |]). eapply reads_last; [by apply item_hFloat |].
  rewrite uwrap_small by done. by destruct p.
Qed.

Lemma duration_ok d :
  signed 64 (du_Months d) → signed 64 (du_Days d) → signed 64 (du_Seconds d) →
  signed 64 (du_Nanos d) → struct_ok (Pack.packDuration d) (VDuration d).
Proof.
  intros. eapply struct_ok_intro; [lia | eauto 10 with go |]. intros val major. unfold structure.
  unfold duration. do 3 (eapply reads_field; [by apply item_hInt |]).
  eapply reads_last; [by apply item_hInt |]. by destruct d.
Qed.

Lemma id_of_load t id :
  Timezone.id_of t = Some id →
  id = location_String (loc t) ∧ ∃ l, Timezone.load id = inl l.
Proof.
  unfold Timezone.id_of, Timezone.ID, Timezone.load.
  destruct (Timezone.Load (location_String (loc t)) []) as [[l | e] k] eqn:E; simpl; [| done].
  case_match; simpl; intros; simplify_eq. split; [done |]. rewrite E. by exists l.
Qed.

Lemma signed_small n : 0 <= n < 1000000000 → signed 64 n.
Proof. unfold signed. lia. Qed.
Hint Resolve signed_small : go.

Lemma struct_ok_utc (k : bool → Out unit) v :
  struct_ok (k utc) v → struct_ok (u ← go_get outgoing.useUtc; k u) v.
Proof.
  intros (bs & Hs & Hv). exists bs. split; [| done]. intros o Ho.
  rewrite <- Hs by done. unfold go_get, mbind, GoM_bind. by destruct Ho as [-> _].
Qed.

(** A test on a setting that is known. *)
Lemma reads_if {A} (b c : bool) (m m' : H A) e v :
  b = c → reads (if c then m else m') e v → reads (if b then m else m') e v.
Proof. by intros ->. Qed.

Lemma datetime_ok t :
  time_ok t → fits (Packer.strlen (location_String (loc t))) →
  struct_ok (Pack.packDateTime t) (VDateTime (sent_time utc t)).
Proof.
  intros (Hu & Hn & Ho & Huo) Hf. apply struct_ok_utc. unfold sent_time.
  destruct (Timezone.id_of t) as [id |] eqn:Eid.
  - destruct (id_of_load _ _ Eid) as [-> [l Hl]]. rewrite Hl.
    destruct utc eqn:Eu; (eapply struct_ok_intro; [lia | eauto 10 with go |]); intros val major;
      unfold structure; apply (reads_if _ _ _ _ _ _ Eu); unfold utcDateTimeNamedZone, dateTimeNamedZone;
      rewrite ?(swrap_small 64) by (done || lia);
      (eapply reads_field; [by apply item_hInt |]);
      (eapply reads_field; [by apply item_hInt, signed_small |]);
      rewrite time_Unix_small by done;
      rewrite <- (app_nil_r (written (Packer.String _)));
      (eapply reads_field; [by apply item_hStr |]); rewrite Hl; apply reads_ret.
  - destruct utc eqn:Eu; (eapply struct_ok_intro; [lia | eauto 10 with go |]); intros val major;
      unfold structure; apply (reads_if _ _ _ _ _ _ Eu); unfold utcDateTimeOffset, dateTimeOffset;
      rewrite ?(swrap_small 64) by (done || lia);
      (eapply reads_field; [by apply item_hInt |]);
      (eapply reads_field; [by apply item_hInt, signed_small |]);
      rewrite time_Unix_small by done;
      (eapply reads_last; [by apply item_hInt |]); [done |].
    cbv beta zeta. unfold UTC. rewrite copy_into_fixed by done. simpl. do 2 f_equal. lia.
Qed.

Lemma days_of_floor w : Pack.days_of w = w / 86400.
Proof. unfold Pack.days_of. Z.to_euclidean_division_equations. case_match; zbool; lia. Qed.

Lemma date_ok t :
  time_ok t → signed 64 (wall t / 86400 * 86400) →
  struct_ok (Pack.packDate t) (VDate (mkTime (wall t / 86400 * 86400) 0 LocUTC)).
Proof.
  intros (Hu & Hn & Ho & Huo) Hd. eapply struct_ok_intro; [lia | eauto with go |].
  intros val major. unfold structure, date. rewrite days_of_floor, swrap_small by (done || lia).
  fold (wall t). eapply reads_last.
  - apply item_hInt. revert Hd. unfold signed. Z.to_euclidean_division_equations. lia.
  - cbv beta. rewrite swrap_small, time_Unix_small by (done || lia). done.
Qed.

(** ** Vectors *)

Lemma elements_concat w (l : list Z) :
  elements (length l) w (concat (be_bytes w <$> l)) = (λ z, uwrap (Z.of_nat w * 8) z) <$> l.
Proof.
  induction l as [| z l IH]; [done |]. rewrite !fmap_cons. cbn [length elements concat].
  rewrite take_app_length', drop_app_length'
    by (by rewrite be_bytes_length). by rewrite be_value_bytes, IH.
Qed.

Lemma concat_be_length w (l : list Z) : length (concat (be_bytes w <$> l)) = (length l * w)%nat.
Proof.
  induction l as [| z l IH]; [done |]. rewrite fmap_cons. cbn [concat length].
  rewrite length_app, be_bytes_length, IH. lia.
Qed.

Lemma vector_appends mk w (l : list Z) :
  Packer.len l * Z.of_nat w < 0x100000000 →
  appends (Packer.vector_body mk w l)
    ([to_byte (0xb0 + 2); Byte.x56] ++ (bytes_header 1 ++ [mk]) ++
     (bytes_header (Packer.len l * Z.of_nat w) ++ concat (be_bytes w <$> l))).
Proof.
  intros Hl p. unfold Packer.vector_body. rewrite StructHeader_appends by lia.
  rewrite Bytes_appends by (unfold Packer.len; simpl; lia).
  destruct l as [| z l].
  - rewrite Bytes_appends by (unfold Packer.len; simpl; lia).
    unfold Packer.emit. simpl. by rewrite <- !app_assoc.
  - unfold Packer.prepareVectorData. rewrite bytesHeader_appends by done.
    rewrite (appends_range (λ v, Packer.emit (be_bytes w v)) (be_bytes w) (z :: l))
      by (apply Forall_true; intros; apply appends_emit).
    unfold Packer.emit. simpl. by rewrite <- !app_assoc.
Qed.

Lemma reads_guarded {A} st n (d : A) (k : H A) e v : reads k e v → reads (guarded st n n d k) e v.
Proof.
  intros Hk s rest Hok Hr. destruct (Hk s rest Hok Hr) as (u & E & Hu). exists u. split; [| done].
  unfold guarded, assertLength, getErr. rewrite Z.eqb_refl. rewrite <- E.
  unfold go_get, mret, GoM_ret, mbind, GoM_bind. destruct Hr as (_ & He & _), Hok as (Hh & _).
  simpl in He. by rewrite He, Hh.
Qed.

Lemma item_curr {A} (m k : H A) t bs v :
  item k t bs v → item (c ← Curr; if decide (c ≠ t) then m else k) t bs v.
Proof.
  intros (b & e & -> & Ht & Hr). exists b, e. split_and!; [done.. |].
  intros s rest Hok Hrest Hm Hc. unfold Curr, go_get, mbind, GoM_bind.
  change (Unpacker.Curr (hydrator.unp s)) with (Unpacker.Curr (host_get s)).
  rewrite Hc, Ht. rewrite decide_False by (intros Hn; by apply Hn). by apply Hr.
Qed.

Lemma item_hBytes b :
  Packer.len b < 0x100000000 →
  item (ByteArray : H (list byte)) PackedByteArray (bytes_header (Packer.len b) ++ b) b.
Proof. intros. by apply item_via, item_ByteArray. Qed.

(** The marker byte of the element type, and what the decoder makes of the
    element bytes. *)
Definition vec_marker (t : vecType) : byte :=
  match t with
  | VecFloat64 => Byte.xc1 | VecFloat32 => Byte.xc6 | VecInt8 => Byte.xc8
  | VecInt16 => Byte.xc9 | VecInt32 => Byte.xca | VecInt64 => Byte.xcb
  end.

Lemma packVector_body t l :
  Pack.packVector t l = Pack.pk (Packer.vector_body (vec_marker t) (vec_width t) l).
Proof. by destruct t. Qed.

Lemma fmap_id_Forall {A} (P : A → Prop) (f : A → A) l :
  Forall P l → (∀ x, P x → f x = x) → f <$> l = l.
Proof. intros Hl Hf. induction Hl; simpl; [done |]. f_equal; auto. Qed.

Lemma vector_of_reads t name conv l :
  Forall (vec_elem t) l →
  (∀ z, vec_elem t z → conv (uwrap (Z.of_nat (vec_width t) * 8) z) = z) →
  reads (vector_of t (vec_width t) name conv (concat (be_bytes (vec_width t) <$> l))) []
    (VVector t l).
Proof.
  intros Hl Hc. unfold vector_of.
  assert (Hw : vec_width t ≠ 0%nat) by (by destruct t).
  rewrite concat_be_length, Nat.Div0.mod_mul, decide_True by done.
  rewrite Nat.div_mul by done. apply reads_ret_eq. f_equal. rewrite elements_concat.
  rewrite <- list_fmap_compose. eapply fmap_id_Forall; [done |]. apply Hc.
Qed.

Lemma vector_ok t l :
  Forall (vec_elem t) l → Packer.len l * Z.of_nat (vec_width t) < 0x100000000 →
  struct_ok (Pack.packVector t l) (VVector t l).
Proof.
  intros Hl Hlen. rewrite packVector_body. eexists. split; [by apply sends_pk, vector_appends |].
  intros val. apply item_struct; [lia |]. intros major.
  change (structure val major utc Byte.x56 2) with (vector 2). apply reads_guarded.
  eapply item_next, item_curr, item_bind.
  { apply (item_hBytes [vec_marker t]). unfold Packer.len. simpl. lia. }
  cbv beta iota. eapply item_next, item_curr.
  rewrite <- (app_nil_r (_ ++ concat _)).
  assert (Hb : Packer.len l * Z.of_nat (vec_width t) =
               Packer.len (concat (be_bytes (vec_width t) <$> l))).
  { unfold Packer.len. rewrite concat_be_length. lia. }
  rewrite Hb in *. eapply item_bind; [by apply item_hBytes |].
  destruct t; cbn [vec_marker]; try (apply vector_of_reads; [done |]; intros z Hz; simpl in Hz);
    rewrite ?swrap_uwrap, ?swrap_small by (done || lia); try done.
  - by apply uwrap_small.
  - by apply uwrap_small.
  - pose proof (vector_of_reads VecInt8 "" i8 l Hl) as Hv. unfold vector_of in Hv.
    cbn [vec_width] in Hv.
    rewrite Nat.mod_1_r, decide_True, Nat.div_1_r in Hv by done. apply Hv.
    intros z Hz. simpl in Hz. rewrite swrap_uwrap, swrap_small by (done || lia). done.
Qed.

(** * Any value *)

(** With enough fuel on both sides, [packX] sends [x] as bytes that [value]
    reads as [v]. *)
Definition travels (x : goval) (v : value) : Prop :=
  ∃ F bs t, (∀ f, (F <= f)%nat → sends (Pack.packX f x) bs) ∧
            (∀ g, (F <= g)%nat → item (value_ g) t bs v).

Lemma travels_scalar x v f bs t :
  Pack.pack_scalar x = Some (Pack.pk f) → appends f bs →
  (∀ val, item (value_body val) t bs v) → travels x v.
Proof.
  intros Hx Hf Hv. exists 1%nat, bs, t. split; intros [| g] Hg; try lia; [| apply Hv].
  change (Pack.packX (S g) x) with (Pack.packX_body (Pack.packX g) (Pack.packV g) x).
  unfold Pack.packX_body. rewrite Hx. by apply sends_pk.
Qed.

Lemma travels_call x v bs t (m : Out unit) :
  (∀ f, Pack.packX (S f) x = m) → sends m bs →
  (∀ val, item (value_body val) t bs v) → travels x v.
Proof.
  intros Hx Hm Hv. exists 1%nat, bs, t. split; intros [| g] Hg; try lia; [| apply Hv].
  by rewrite Hx.
Qed.

Lemma travels_struct x v m : (∀ f, Pack.packX (S f) x = m) → struct_ok m v → travels x v.
Proof. intros Hx (bs & Hs & Hv). by eapply travels_call. Qed.

(** [packV] sends the same bytes. *)
Lemma travels_packV x v :
  travels x v → (∀ b, x ≠ GNamedBytes b) →
  ∃ F bs t, (∀ f, (F <= f)%nat → sends (Pack.packX f x) bs ∧ sends (Pack.packV f x) bs) ∧
            (∀ g, (F <= g)%nat → item (value_ g) t bs v).
Proof.
  intros (F & bs & t & Hs & Hv) Hx. exists (S (S F)), bs, t. split.
  - intros f Hf. split; [apply Hs; lia |]. destruct f as [| [| f]]; [lia.. |].
    intros o Ho. apply packX_to_packV; [done |]. apply Hs; [lia | done].
  - intros g Hg. apply Hv. lia.
Qed.

(** A value that is packed as another one is. *)
Lemma travels_shift k x y v :
  (∀ f, Pack.packX (S f) y = Pack.packX (k + f) x) → travels x v → travels y v.
Proof.
  intros Hy (F & bs & t & Hs & Hv). exists (S F), bs, t. split.
  - intros [| f] Hf; [lia |]. rewrite Hy. apply Hs. lia.
  - intros g Hg. apply Hv. lia.
Qed.

Lemma travels_list l vs :
  Forall2 travels l vs →
  ∃ F bss, length bss = length l ∧
    (∀ f, (F <= f)%nat → Forall2 (λ x b, sends (Pack.packX f x) b) l bss) ∧
    (∀ f, (F <= f)%nat → Forall (λ x, ∀ b, x ≠ GNamedBytes b) l →
       Forall2 (λ x b, sends (Pack.packV f x) b) l bss) ∧
    (∀ g, (F <= g)%nat → Forall2 (λ b v, ∃ t, item (value_ g) t b v) bss vs).
Proof.
  induction 1 as [| x v l vs (F & bs & t & Hs & Hv) _ (F' & bss & Hlen & IH1 & IH2 & IH3)].
  { exists 0%nat, []. split_and!; done || (intros; constructor). }
  exists (S (S (Nat.max F F'))), (bs :: bss). split_and!.
  - simpl. by rewrite Hlen.
  - intros f Hf. constructor; [apply Hs | apply IH1]; lia.
  - intros f Hf [Hx Hl]%Forall_cons. constructor; [| apply IH2; [lia | done]].
    destruct f as [| [| f]]; [lia.. |]. intros o Ho. apply packX_to_packV; [done |].
    apply Hs; [lia | done].
  - intros g Hg. constructor; [exists t; apply Hv; lia | apply IH3; lia].
Qed.

Lemma Forall2_reads g bss vs :
  Forall2 (λ b v, ∃ t, item (value_ g) t b v) bss vs → Forall2 (reads (Next;; value_ g)) bss vs.
Proof. intros Hf. eapply Forall2_impl; [done |]. intros b v [t Ht]. by eapply item_next. Qed.

Lemma sends_list_header {A} (l : list A) m bs :
  fits (Packer.len l) → sends m bs →
  sends (Pack.pk (Packer.ArrayHeader (Packer.len l));; m)
    (written (Packer.ArrayHeader (Packer.len l)) ++ bs).
Proof. intros Hl Hm. apply sends_bind; [| done]. by apply sends_pk, listHeader_appends. Qed.

(** Lists, packed by [packX] or by [packV]. *)
Lemma travels_VList y l vs (body : nat → goval → Out unit) :
  (∀ f, Pack.packX (S f) y =
     (Pack.pk (Packer.ArrayHeader (Packer.len l));; Pack.each (body f) l)) →
  Forall2 travels l vs → fits (Packer.len l) →
  (∀ f x b, sends (Pack.packX f x) b → sends (body f x) b) ∨
    ((∀ f x, body f x = Pack.packV f x) ∧ Forall (λ x, ∀ b, x ≠ GNamedBytes b) l) →
  travels y (VList vs).
Proof.
  intros Hy Hl Hfit Hbody. pose proof (Forall2_length _ _ _ Hl) as Hlen.
  destruct (travels_list _ _ Hl) as (F & bss & Hb & HX & HV & HR).
  exists (S F), (written (Packer.ArrayHeader (Packer.len vs)) ++ concat bss), PackedArray. split.
  - intros [| f] Hf; [lia |]. rewrite Hy. unfold Packer.len at 2. rewrite <- Hlen.
    apply sends_list_header; [done |]. apply sends_each. destruct Hbody as [Hb1 | [Hb1 Hb2]].
    + eapply Forall2_impl; [apply (HX f); lia |]. auto.
    + eapply Forall2_impl; [apply (HV f); [lia | done] |]. intros x b. by rewrite Hb1.
  - intros [| g] Hg; [lia |]. apply item_list; [apply Forall2_reads, HR; lia |].
    unfold fits, Packer.len in *. lia.
Qed.

Definition entry_travels (kx : string * goval) (kv : string * value) : Prop :=
  kx.1 = kv.1 ∧ fits (Packer.strlen kx.1) ∧ travels kx.2 kv.2.

Lemma travels_entries m vm :
  Forall2 entry_travels m vm →
  m.*1 = vm.*1 ∧ ∃ F ebs, 
    (∀ f, (F <= f)%nat →
      Forall2 (λ kx e, sends (Pack.pk (Packer.String kx.1);; Pack.packX f kx.2) e) m ebs) ∧
    (∀ g, (F <= g)%nat → Forall2 (λ e kv, ∃ t bs, Packer.strlen kv.1 < 0xffffffff ∧
        item (value_ g) t bs kv.2 ∧ e = written (Packer.String kv.1) ++ bs) ebs vm).
Proof.
  induction 1 as [| [k x] [k' v] m vm (Hk & Hf & F & bs & t & Hs & Hv) _ (IHk & F' & ebs & IH1 & IH2)].
  { split; [done |]. exists 0%nat, []. split; intros; constructor. }
  simpl in *. subst k'. split; [by f_equal |].
  exists (Nat.max F F'), ((written (Packer.String k) ++ bs) :: ebs). split.
  - intros f Hf'. constructor; [| apply IH1; lia]. apply sends_bind; [by apply sends_String |].
    apply Hs. lia.
  - intros g Hg. constructor; [| apply IH2; lia]. exists t, bs. split_and!; [done | | done].
    apply Hv. lia.
Qed.

Lemma travels_VMap y m vm :
  (∀ f, Pack.packX (S f) y = Pack.packMap_ (Pack.packX f) m) →
  Forall2 entry_travels m vm → map_wf m → fits (Packer.len m) → travels y (VMap vm).
Proof.
  intros Hy Hm Hwf Hfit. destruct (travels_entries _ _ Hm) as (Hk & F & ebs & H1 & H2).
  assert (Hlen : Packer.len vm = Packer.len m).
  { unfold Packer.len. by rewrite (Forall2_length _ _ _ Hm). }
  exists (S F), (written (Packer.MapHeader (Packer.len vm)) ++ concat ebs), PackedMap. split.
  - intros [| f] Hf; [lia |]. rewrite Hy. unfold Pack.packMap_. rewrite Hlen.
    apply sends_bind; [by apply sends_pk, listHeader_appends |]. apply sends_each, H1. lia.
  - intros [| g] Hg; [lia |]. apply item_map_value, item_amap; [apply H2; lia | | by rewrite Hlen].
    unfold map_wf in *. by rewrite <- Hk.
Qed.

(** The typed slices. *)
Lemma travels_typed {A} y (l : list A) (f : A → Packer.Packer → Packer.Packer) (g : A → value)
    (P : A → Prop) t :
  (∀ n, Pack.packX (S n) y = Pack.pk (λ p, p ▷ Packer.listHeader (Packer.len l) 0x90 0xd4
                                             ▷ Packer.range_over f l)) →
  Forall P l → fits (Packer.len l) →
  (∀ a, P a → appends (f a) (written (f a))) →
  (∀ a val, P a → item (value_body val) t (written (f a)) (g a)) →
  travels y (VList (g <$> l)).
Proof.
  intros Hy Hl Hfit Hf Hi.
  assert (Hlen : Packer.len (g <$> l) = Packer.len l) by (unfold Packer.len; by rewrite length_fmap).
  exists 2%nat, (written (Packer.ArrayHeader (Packer.len (g <$> l))) ++ concat ((λ a, written (f a)) <$> l)),
    PackedArray. split; intros [| n] Hn; try lia.
  - rewrite Hy. apply sends_pk. rewrite Hlen.
    apply (appends_comp (Packer.listHeader _ _ _)); [by apply listHeader_appends |].
    apply appends_range. eapply Forall_impl; [done |]. auto.
  - apply item_list; [| by rewrite Hlen]. destruct n as [| n]; [lia |].
    apply Forall2_fmap_2. apply Forall_Forall2_diag. eapply Forall_impl; [done |]. intros a Ha.
    eapply item_next. by apply Hi.
Qed.

Lemma map_wf_StructAsMap x m : mapping.StructAsMap x = Some (Some m) → map_wf m.
Proof.
  assert (Hfold : ∀ (kvs m0 : gomap goval), map_wf m0 →
    map_wf (foldl (λ m kv, map_set kv.1 kv.2 m) m0 kvs)).
  { induction kvs as [| kv kvs IH]; intros m0 Hm0; simpl; [done |]. by apply IH, map_set_wf. }
  assert (Hf : ∀ y, (λ kvs, Some (foldl (λ m kv, map_set kv.1 kv.2 m) [] kvs)) <$> mapping.fieldsOf y
    = Some (Some m) → map_wf m).
  { intros y (kvs & Ef & [= ->])%fmap_Some. apply Hfold. constructor. }
  induction x; intros E; try done; try exact (Hf _ E). by apply IHx.
Qed.

Lemma packX_user_struct f fs m :
  mapping.StructAsMap (GStruct fs) = Some (Some m) →
  Pack.packX (S f) (GStruct fs) = Pack.packMap_ (Pack.packX f) m ∧
  Pack.packX (S f) (GPtr (GStruct fs)) = Pack.packMap_ (Pack.packX f) m.
Proof.
  intros Em.
  assert (E : Pack.packUserStruct (Pack.packX f) (GStruct fs) = Pack.packMap_ (Pack.packX f) m)
    by (unfold Pack.packUserStruct; by rewrite Em).
  split; exact E.
Qed.

Lemma travels_ptr x v :
  Pack.is_struct x = false → (∀ b, x ≠ GNamedBytes b) → travels x v → travels (GPtr x) v.
Proof.
  intros Hx Hn Ht. destruct (travels_packV x v Ht Hn) as (F & bs & t & Hs & Hv).
  exists (S F), bs, t. split; [| intros g Hg; apply Hv; lia].
  intros [| f] Hf; [lia |].
  change (Pack.packX (S f) (GPtr x)) with (Pack.packX_body (Pack.packX f) (Pack.packV f) (GPtr x)).
  unfold Pack.packX_body. cbn [Pack.pack_scalar]. rewrite Hx.
  destruct (Pack.packArray x) as [m |] eqn:Ea; [| apply Hs; lia].
  assert (Em : Pack.packX (S f) x = m) by (destruct x; simpl in Ea; simplify_eq; done).
  rewrite <- Em. apply Hs. lia.
Qed.

Lemma item_nil val : item (value_body val) PackedNil [Byte.xc0] VNil.
Proof.
  apply item_value_case. exists Byte.xc0, []. split_and!; [done.. |].
  apply reads_after_weaken, reads_ret.
Qed.

Lemma item_bool val (b : bool) :
  item (value_body val) (if b then PackedTrue else PackedFalse) (written (Packer.Bool b)) (VBool b).
Proof.
  destruct b; apply item_value_case; [exists Byte.xc3, [] | exists Byte.xc2, []];
    (split_and!; [done.. |]); apply reads_after_weaken, reads_ret.
Qed.

Lemma item_int val i :
  signed 64 i → item (value_body val) PackedInt (written (Packer.Int64 i)) (VInt i).
Proof. intros. by apply item_value_case, item_fmap, item_Int. Qed.

Lemma item_float val b :
  unsigned 64 b → item (value_body val) PackedFloat (written (Packer.Float64 b)) (VFloat b).
Proof. intros. by apply item_value_case, item_fmap, item_Float. Qed.

Lemma item_string val t :
  fits (Packer.strlen t) → item (value_body val) PackedStr (written (Packer.String t)) (VString t).
Proof. intros. by apply item_value_case, item_fmap, item_String. Qed.

Lemma item_bytes val b :
  Packer.len b < 0x100000000 →
  item (value_body val) PackedByteArray (bytes_header (Packer.len b) ++ b) (VBytes b).
Proof. intros. by apply item_value_case, item_fmap, item_ByteArray. Qed.

Lemma item_uuid val u :
  uuid = true → length u = 16%nat →
  item (value_body val) PackedUUID (written (Packer.UUID u)) (VUUID u).
Proof.
  intros Hu Hl. apply item_value_case.
  destruct (item_fmap Unpacker.UUID VUUID _ _ _ (item_UUID u Hl)) as (b & e & -> & Ht & Hr).
  exists b, e. split_and!; [done.. |]. intros s rest Hok Hrest Hm Hc.
  destruct (Hr s rest Hok Hrest Hm Hc) as (u' & E & Hu'). exists u'. split; [| done].
  rewrite <- E. unfold value_case, go_get, mbind, GoM_bind. destruct Hok as (_ & _ & ->). by rewrite Hu.
Qed.

Lemma sends_uuid u : uuid = true → sends (Pack.packUUID u) (written (Packer.UUID u)).
Proof.
  intros Hu o Ho. unfold Pack.packUUID, go_get, mbind, GoM_bind.
  destruct Ho as [_ ->]. rewrite Hu. unfold Pack.pk, go_modify, Packer.UUID, Packer.emit. simpl.
  by rewrite <- app_assoc.
Qed.

Lemma Forall2_denotes (IH : ∀ x v, denotes utc uuid x v → travels x v) l vs :
  Forall2 (denotes utc uuid) l vs → Forall2 travels l vs.
Proof. intros Hl. eapply Forall2_impl; [done | apply IH]. Qed.

(** Every denoted value travels: induction on the derivation. *)
Lemma denotes_travels : ∀ x v, denotes utc uuid x v → travels x v.
Proof.
  fix IH 3. intros x v Hd. destruct Hd.
  - apply (travels_call _ _ [Byte.xc0] PackedNil (Pack.pk Packer.Nil));
      [done | by apply sends_pk, appends_emit | apply item_nil].
  - eapply travels_scalar; [done | apply appends_emit | apply item_nil].
  - eapply travels_scalar; [done | | intros; apply item_bool]. destruct b; apply appends_emit.
  - eapply travels_scalar; [done | apply Int64_appends | intros; by apply item_int].
  - eapply travels_scalar; [done | apply Int64_appends |]. intros.
    rewrite uwrap_small by done. by apply item_int, signed_of_u32.
  - eapply (travels_scalar _ _ (Packer.Uint64 i)); [done | |].
    + intros p. unfold Packer.Uint64, Packer.checkOverflowInt. unfold unsigned in *. zdec.
      apply Int64_appends.
    + intros. rewrite swrap_small by (unfold signed, unsigned in *; lia).
      apply item_int. unfold signed, unsigned in *. lia.
  - eapply travels_scalar; [done | by apply appends_emit | intros; by apply item_float].
  - eapply travels_scalar; [done | by apply String_appends | intros; by apply item_string].
  - apply (travels_call _ _ (bytes_header (Packer.len b) ++ b) PackedByteArray (Pack.pk (Packer.Bytes b)));
      [done | by apply sends_pk, Bytes_appends | intros; by apply item_bytes].
  - apply (travels_call _ _ (written (Packer.UUID u)) PackedUUID (Pack.packUUID u));
      [done | by apply sends_uuid | intros; by apply item_uuid].
  - by apply (travels_struct _ _ (Pack.packPoint2D p)), point2d_ok.
  - by apply (travels_struct _ _ (Pack.packPoint3D p)), point3d_ok.
  - by apply (travels_struct _ _ (Pack.packDuration d)), duration_ok.
  - by apply (travels_struct _ _ (Pack.packVector t l)), vector_ok.
  - by apply (travels_struct _ _ (Pack.packDateTime t)), datetime_ok.
  - by apply (travels_struct _ _ (Pack.packDate t)), date_ok.
  - apply travels_ptr; [done | done |]. by apply IH.
  - by apply (travels_shift 1 (GPoint2D p)), IH.
  - by apply (travels_shift 1 (GPoint3D p)), IH.
  - by apply (travels_shift 1 (GVector t l)), IH.
  - by apply (travels_shift 1 (GStruct fs)), IH.
  - by apply (travels_shift 0 x), IH.
  - eapply (travels_typed _ l Packer.Int VInt); [done | done | done | |].
    + intros. apply Int64_appends.
    + intros. by apply item_int.
  - eapply (travels_typed _ l Packer.String VString); [done | done | done | |].
    + intros. by apply String_appends.
    + intros. by apply item_string.
  - apply (travels_VList _ l vs (λ f, Pack.packX f)); [done | | done | by left].
    match goal with Hl : Forall2 _ l vs |- _ => clear - Hl IH; induction Hl; constructor; auto end.
  - match goal with Hl : Forall2 _ l vs |- _ => rename Hl into Hl0 end.
    apply (travels_VList _ l vs (λ f, Pack.packV f)); [done | | done |].
    + clear - Hl0 IH. induction Hl0 as [| ? ? ? ? [? ?]]; constructor; auto.
    + right. split; [done |]. clear - Hl0. induction Hl0 as [| ? ? ? ? [? ?]]; constructor; auto.
  - match goal with Hl : Forall2 _ m vm |- _ => rename Hl into Hl0 end.
    apply (travels_VMap _ m vm); [done | | done | done].
    clear - Hl0 IH. induction Hl0 as [| ? ? ? ? (? & ? & ?)]; constructor; [| done]. split_and!; auto.
  - match goal with Hl : Forall2 _ m vm |- _ => rename Hl into Hl0 end.
    apply (travels_VMap _ m vm); [| | by eapply map_wf_StructAsMap | done].
    + intros f. by apply packX_user_struct.
    + clear - Hl0 IH. induction Hl0 as [| ? ? ? ? (? & ? & ?)]; constructor; [| done]. split_and!; auto.
Qed.
End RoundTrip.
