(* ===== verification/EndToEnd.v ===== *)
(** From a Go value to a record: the writer of outgoing.go, the framing of
    chunker.go and dechunker.go, and the reader of incoming.go and hydrator.go
    put together. *)

From S2P Require Import Prelude GoTime Packer Values Errors Unpacker Reading Chunking ChunkingFacts.
From S2P Require Import Hydrator Messages Outgoing OutgoingFacts RoundTrip.
#[local] Open Scope Z_scope.
#[local] Open Scope go_scope.

(** * The reader (incoming.go) *)

Module incoming.

Record incoming : Type := mkIncoming { buf : list byte; hyd : hydrator.hydrator }.

Section Next.
Context `{TzDb} {R : Type} (readFull : nat → R → (list byte * option error) * R).

(** [chunks] bounds the passes of the framing loop, [depth] the nesting of
    the message. *)
Definition next (chunks depth : nat) (i : incoming) (r : R) :
    outcome ((option message * option error) * incoming * R) :=
  match dechunker.dechunkMessage readFull chunks (buf i) r with
  | Done ((b, _, Some e), r) => Done ((None, Some e), mkIncoming b (hyd i), r)
  | Done ((b, m, None), r) =>
      match Message.hydrate depth (default [] m) (hyd i) with
      | Done (x, h) => Done (x, mkIncoming b h, r)
      | Panic => Panic
      | OutOfFuel => OutOfFuel
      end
  | Panic => Panic
  | OutOfFuel => OutOfFuel
  end.
End Next.
End incoming.

Section EndToEnd.
Context `{TzDb} (utc uuid : bool).
#[local] Instance ready : Ready hydrator.hydrator := hydrator_ready utc uuid.

(** A writer with the messages [ms] queued and no error reported. *)
Definition writer (ms : list (list byte)) (p : Packer.Packer) : outgoing.outgoing :=
  outgoing.mkOutgoing (queued ms) p [] utc uuid.

(** The bytes of a structure message. *)
Definition payload (tag : byte) (n : Z) (bs : list byte) : list byte :=
  [to_byte (0xb0 + n); tag] ++ bs.

(** A message whose fields are sent as [bs] is queued after the others. *)
Lemma message_queued tag n body bs ms p :
  0 <= n <= 0xf → sends utc uuid body bs →
  ∃ p', Pack.message tag n body (writer ms p) = Done (tt, writer (ms ++ [payload tag n bs]) p').
Proof.
  intros Hn Hb. unfold Pack.message, mbind, GoM_bind.
  unfold Pack.begin, go_modify. cbn [writer].
  unfold Pack.pk at 1, go_modify. rewrite StructHeader_appends by lia.
  rewrite Hb by done. unfold Pack.end_. simpl. eexists. do 2 f_equal.
  unfold writer, queued. rewrite foldl_snoc. unfold add_message, payload. simpl.
  by rewrite <- app_assoc.
Qed.

(** ** Hydrating a message *)

Lemma reads_getErr : reads Hydrate.getErr [] None.
Proof.
  intros s rest Hok Hr. exists (host_get s). split; [| done].
  unfold Hydrate.getErr, go_get. destruct Hr as (_ & He & _), Hok as (Hh & _).
  simpl in He. rewrite He, Hh, host_set_get. done.
Qed.

Lemma reads_StructTag t : reads Hydrate.StructTag [t] t.
Proof. apply reads_via, reads_pop. Qed.

(** The header of a message, its tag, then the message. *)
Lemma reads_message g tag n e m :
  0 <= n < 0x10 → reads (Message.dispatch g n tag) e (inl m) →
  reads (Message.hydrate_struct g) (payload tag n e) (m, None).
Proof.
  intros Hn Hd. unfold Message.hydrate_struct.
  eapply item_next, (item_curr utc uuid). exists (to_byte (0xb0 + n)), (tag :: e).
  rewrite struct_marker by done. split_and!; [done.. |].
  intros s rest Hok Hr Hm _. rewrite struct_marker in Hm by done.
  assert (Hrest : reads (t ← Hydrate.StructTag; x ← Message.dispatch g n t;
      match x with
      | inl m => e ← Hydrate.getErr; mret (m, e)
      | inr e => mret (None, Some e)
      end) (tag :: e) (m, None)).
  { apply (reads_bind _ _ [tag] e tag); [apply reads_StructTag |].
    rewrite <- (app_nil_r e). eapply reads_bind; [done |]. eapply reads_map; [apply reads_getErr | done]. }
  destruct (Hrest s rest Hok Hr) as (u & E & Hu). exists u. split; [| done]. rewrite <- E.
  unfold Hydrate.Len, via, Unpacker.Len, mbind at 1, GoM_bind at 1.
  rewrite Hm. simpl. rewrite uwrap_small by (split; lia).
  change (hydrator.set_unp (hydrator.unp s) s) with (host_set (host_get s) s).
  by rewrite host_set_get.
Qed.

(** A hydrator that has no error and negotiated the features. *)
Definition reader_ok (h : hydrator.hydrator) : Prop :=
  hydrator.err h = None ∧ hydrator.useUtc h = utc ∧ hydrator.supportsUuid h = uuid ∧
  0 <= numlenbytes (Unpacker.mrk (hydrator.unp h)) <= 8.

Lemma hydrate_reads g b h x :
  reader_ok h → Packer.len b < 2 ^ 32 - 16 → reads (Message.hydrate_struct g) b x →
  ∃ h', Message.hydrate g b h = Done (x, h') ∧ reader_ok h'.
Proof.
  intros (He & Hu & Hd & Hm) Hl Hr.
  set (h0 := hydrator.set_unp (Unpacker.Reset b (hydrator.unp h)) h).
  destruct (Hr h0 []) as (u & E & Hr').
  { done. }
  { rewrite app_nil_r. split_and!; [by apply wf_reset | done..]. }
  exists (host_set u h0). split; [exact E |]. destruct Hr' as (Hwf & _ & _).
  split_and!; try done; unfold wf in Hwf; simpl; lia.
Qed.

(** A record of denoted values, as [appendX] packs it. *)
Lemma record_travels xs vs :
  Forall2 (denotes utc uuid) xs vs → fits (Packer.len xs) →
  ∃ F bs, (∀ f, (F <= f)%nat → sends utc uuid (Pack.each (Pack.packX f) [GAnys xs]) bs) ∧
    (∀ g, (F <= g)%nat →
       reads (Message.dispatch g 1 Byte.x71) bs (inl (Some (MRecord (mkRecord vs []))))).
Proof.
  intros Hxs Hfit.
  assert (Hl : Forall2 (travels utc uuid) xs vs).
  { eapply Forall2_impl; [done |]. apply denotes_travels. }
  destruct (travels_list utc uuid _ _ Hl) as (F & bss & Hb & HX & _ & HR).
  pose proof (Forall2_length _ _ _ Hxs) as Hlen.
  set (bs := written (Packer.ArrayHeader (Packer.len xs)) ++ concat bss).
  exists (S F), (concat [bs]). split.
  - intros [| f] Hf; [lia |]. apply sends_each. constructor; [| constructor].
    apply sends_list_header; [done |]. apply sends_each, HX. lia.
  - intros g Hg. cbn [concat]. rewrite app_nil_r. unfold Message.dispatch, Message.record.
    eapply (reads_map _ _ _ (Some (mkRecord vs []))); [| done]. apply (reads_guarded utc uuid).
    unfold bs. eapply (reads_field utc uuid).
    + apply item_via, item_Len; [constructor |]. unfold fits, Packer.len in *. lia.
    + eapply reads_map; [| done]. unfold Packer.len. rewrite Nat2Z.id, Hlen.
      apply reads_repeat. apply (Forall2_reads utc uuid), HR. lia.
Qed.
End EndToEnd.

(** C9. End to end: values the driver can send, packed as the fields of a record
    by [appendX], chunked, sent over a connection that delivers the bytes in
    order, dechunked and hydrated, come back as the values they denote; nothing
    is reported as an error and nothing of the stream is left over. *)
Theorem record_roundtrip `{TzDb} (utc uuid : bool) (xs : list goval) (vs : list value)
    (p : Packer.Packer) (b : list byte) (h : hydrator.hydrator) :
  Forall2 (denotes utc uuid) xs vs → fits (Packer.len xs) → reader_ok utc uuid h →
  ∃ F payload, ∀ f, (F <= f)%nat →
    ∃ p' w,
      Pack.appendX f Byte.x71 [GAnys xs] (writer utc uuid [] p) =
        Done (tt, writer utc uuid [payload] p') ∧
      Pack.send ok_write [] (writer utc uuid [payload] p') =
        Done (None, (writer utc uuid [] p', w)) ∧
      (Packer.len payload < 2 ^ 32 - 16 →
       ∃ i', incoming.next list_read (S (length (concat w))) f
               (incoming.mkIncoming b h) (concat w) =
             Done ((Some (MRecord (mkRecord vs [])), None), i', [])).
Proof.
  intros Hxs Hfit Hh. destruct (record_travels utc uuid xs vs Hxs Hfit) as (F & bs & Hs & Hr).
  exists F, (payload Byte.x71 1 bs). intros f Hf.
  destruct (message_queued utc uuid Byte.x71 1 _ bs [] p ltac:(lia) (Hs f Hf)) as (p' & E).
  destruct (send_queued [payload Byte.x71 1 bs]) as (w & Ew & Hw).
  exists p', w. split_and!; [exact E | unfold Pack.send; simpl; by rewrite Ew |].
  intros Hl. rewrite Hw. cbn [concat fmap list_fmap]. rewrite app_nil_r.
  unfold incoming.next. cbn [incoming.buf incoming.hyd].
  pose proof (frame_longer (payload Byte.x71 1 bs)) as Hfl.
  destruct (dechunk_frame (length (frame (payload Byte.x71 1 bs))) b (payload Byte.x71 1 bs) [])
    as (b' & Ed); [done | lia |].
  rewrite app_nil_r in Ed. rewrite Ed.
  destruct (hydrate_reads utc uuid f (payload Byte.x71 1 bs) h _ Hh Hl
    (reads_message utc uuid f Byte.x71 1 bs _ ltac:(lia) (Hr f Hf))) as (h' & E' & _).
  simpl default. rewrite E'. by eexists.
Qed.

(** A number, and a map holding a point in time. *)
Definition sample_values : list goval :=
  [GInt 42; GAnyMap [("when", GTime (mkTime 1700000000 5 LocUTC))]].
Definition sample_hydrator : hydrator.hydrator :=
  hydrator.mkHydrator Unpacker.zero None 5 true false.

Lemma sample_denotes :
  Forall2 (@denotes utc_host true false) sample_values
    [VInt 42; VMap [("when", VDateTime (mkTime 1700000000 5 LocUTC))]].
Proof.
  constructor; [apply d_int; unfold signed; lia |].
  constructor; [| constructor]. apply d_anymap.
  - constructor; [| constructor]. split_and!; [done | done |].
    change (mkTime 1700000000 5 LocUTC) with
      (@sent_time utc_host true (mkTime 1700000000 5 LocUTC)) at 2.
    apply d_time; [| done]. unfold time_ok, signed. split_and!; vm_compute; congruence.
  - apply NoDup_singleton.
  - done.
Qed.

Example record_roundtrip_witness :
  ∃ F payload, ∀ f, (F <= f)%nat →
    ∃ p' w,
      @Pack.appendX utc_host f Byte.x71 [GAnys sample_values]
          (writer true false [] (Packer.mkPacker [] None)) =
        Done (tt, writer true false [payload] p') ∧
      Pack.send ok_write [] (writer true false [payload] p') =
        Done (None, (writer true false [] p', w)) ∧
      (Packer.len payload < 2 ^ 32 - 16 →
       ∃ i', @incoming.next utc_host _ list_read (S (length (concat w))) f
               (incoming.mkIncoming [] sample_hydrator) (concat w) =
             Done ((Some (MRecord (mkRecord
               [VInt 42; VMap [("when", VDateTime (mkTime 1700000000 5 LocUTC))]] [])), None), i', [])).
Proof.
  apply (@record_roundtrip utc_host true false).
  - exact sample_denotes.
  - done.
  - split_and!; done.
Defined.
