(* ===== verification/Encoding.v ===== *)
(** The encoding of property values for encryption: scheme.go, encode.go, decode.go
    and structure.go of internal/propertyencryption.

    A value is packed under a versioned scheme that does not depend on the
    connection; what its elements must agree on and the lowest scheme version able to
    read it are computed on the way.  The decoder owns an unpacker and is another
    host of the reading rules of [Reading]. *)

From S2P Require Import Prelude GoTime Packer Values Errors Unpacker Reading Hydrator Messages Outgoing.
From stdpp Require Import gmap sorting.
#[local] Open Scope Z_scope.
#[local] Open Scope go_scope.

(** * Errors of property encryption

    [EncryptionError] is the public error type; [Foreign] is any other error of the
    driver or of the functions the user supplies. *)
Inductive problem : Type :=
| ValueError (Message : string)
| MalformedError (Message : string)
| UnsupportedProfileError (ProfileType : string) (ProfileVersion : Z)
| errUnsupported
| ErrAuthentication
| ErrKeyNotFound
| PackProblem (e : packError)
| EncryptionError (Message : string) (Cause : option problem)
| Wrapped (Message : string) (Cause : problem)   (* fmt.Errorf with %w *)
| Foreign (e : error).

Module scheme.

(** * Versions and types (scheme.go) *)

Record Version : Type := mkVersion { Major : Z; Minor : Z }.

#[global] Instance Version_eq_dec : EqDecision Version.
Proof. solve_decision. Defined.

Definition Implemented : Version := mkVersion 1 0.

Definition Version_String (v : Version) : string := pretty (Major v) +:+ "." +:+ pretty (Minor v).

Definition atLeast (v other : Version) : bool :=
  if negb (Major v =? Major other) then Major other <? Major v else Minor other <=? Minor v.

Definition max (v other : Version) : Version := if atLeast v other then v else other.

Definition TypeBoolean : string := "BOOLEAN".
Definition TypeBytes : string := "BYTES".
Definition TypeDate : string := "DATE".
Definition TypeDuration : string := "DURATION".
Definition TypeFloat : string := "FLOAT".
Definition TypeInteger : string := "INTEGER".
Definition TypeList : string := "LIST".
Definition TypeLocalDateTime : string := "LOCAL DATETIME".
Definition TypeLocalTime : string := "LOCAL TIME".
Definition TypeNull : string := "NULL".
Definition TypePoint : string := "POINT".
Definition TypeString : string := "STRING".
Definition TypeUUID : string := "UUID".
Definition TypeVector : string := "VECTOR".
Definition TypeZonedDateTime : string := "ZONED DATETIME".
Definition TypeZonedTime : string := "ZONED TIME".

Definition typeBaselines : gomap Version :=
  (λ t, (t, mkVersion 1 0)) <$>
  [TypeBoolean; TypeBytes; TypeDate; TypeDuration; TypeFloat; TypeInteger; TypeList; TypeLocalDateTime;
   TypeLocalTime; TypeNull; TypePoint; TypeString; TypeUUID; TypeVector; TypeZonedDateTime; TypeZonedTime].

Definition aadTypes : list string :=
  [TypeBoolean; TypeBytes; TypeDate; TypeInteger; TypeLocalTime; TypePoint; TypeString; TypeUUID; TypeZonedTime].

(** [m\[name\] = typeBaselines\[name\]], with the zero value for a missing key. *)
Definition aadTypeBaselines : gomap Version :=
  (λ t, (t, default (mkVersion 0 0) (map_get t typeBaselines))) <$> aadTypes.
End scheme.
Import scheme.

(** * Encoding (encode.go) *)

Module encoder.

Record Encoded : Type := mkEncoded { Bytes : list byte; TypeName : string; Baseline : Version }.

Record elemKind : Type := mkKind { typeName : string; srid : Z; dimensions : Z }.

#[global] Instance elemKind_eq_dec : EqDecision elemKind.
Proof. solve_decision. Defined.

(** Go's zero value. *)
Definition no_kind : elemKind := mkKind "" 0 0.

Record encoder : Type := mkEncoder {
  packer : Packer.Packer;
  baseline : Version;
  err : option problem
}.
Abbreviation E := (GoM encoder).

Section Encoder.
Context `{TzDb}.
(** The text of [reflect.TypeOf(x)]. *)
Variable typeOf : goval → string.
Variable permitted : gomap Version.

Definition setErr (msg : string) : E unit :=
  go_modify (λ e, match err e with None => e <| err := Some (ValueError msg) |> | Some _ => e end).

(** [e.setErr(...); return elemKind{}] *)
Definition refuse (msg : string) : E elemKind := setErr msg;; mret no_kind.

Definition write (f : Packer.Packer → Packer.Packer) : E unit :=
  go_modify (λ e, e <| packer := f (packer e) |>).

Definition accept (name : string) : E bool :=
  match map_get name permitted with
  | None =>
      (match map_get name typeBaselines with
       | Some _ => setErr (name +:+ " is not supported as additional authenticated data")
       | None => setErr (name +:+ " is not a Neo4j property type")
       end);;
      mret false
  | Some b => go_modify (λ e, e <| baseline := max (baseline e) b |>);; mret true
  end.

Definition packAs (name : string) (kind : elemKind) (m : E unit) : E elemKind :=
  ok ← accept name;
  if ok : bool then m;; mret kind else mret no_kind.

Definition pack (name : string) (m : E unit) : E elemKind := packAs name (mkKind name 0 0) m.
Definition packPoint (id dims : Z) (m : E unit) : E elemKind := packAs TypePoint (mkKind TypePoint id dims) m.
Definition packInt (i : Z) : E elemKind := pack TypeInteger (write (Packer.Int64 i)).
Definition packUint (i : Z) : E elemKind := pack TypeInteger (write (Packer.Uint64 i)).
Definition packVector (inList : bool) (m : E unit) : E elemKind :=
  if inList then refuse "a list stored as a property cannot contain a vector" else pack TypeVector m.

(** ** Structures *)

Definition packDate (t : Time) : E unit :=
  let seconds := i64 (unix t + zone_offset t) in
  write (Packer.StructHeader Byte.x44 1);; write (Packer.Int64 (Pack.days_of seconds)).

Definition packZonedTime (t : Time) : E unit :=
  write (Packer.StructHeader Byte.x54 2);; write (Packer.Int64 (Pack.nanos_of_day t));;
  write (Packer.Int (zone_offset t)).

Definition packLocalTime (t : Time) : E unit :=
  write (Packer.StructHeader Byte.x74 1);; write (Packer.Int64 (Pack.nanos_of_day t)).

Definition packLocalDateTime (t : Time) : E unit :=
  write (Packer.StructHeader Byte.x64 2);; write (Packer.Int64 (i64 (unix t + zone_offset t)));;
  write (Packer.Int (Nanosecond t)).

Definition packZonedDateTime (t : Time) : E unit :=
  match Timezone.id_of t with
  | None =>
      write (Packer.StructHeader Byte.x49 3);; write (Packer.Int64 (unix t));;
      write (Packer.Int (Nanosecond t));; write (Packer.Int (zone_offset t))
  | Some id =>
      write (Packer.StructHeader Byte.x69 3);; write (Packer.Int64 (unix t));;
      write (Packer.Int (Nanosecond t));; write (Packer.String id)
  end.

Definition packPoint2D (p : Point2D) : E unit :=
  write (Packer.StructHeader Byte.x58 3);; write (Packer.Uint32 (p2_SpatialRefId p));;
  write (Packer.Float64 (p2_X p));; write (Packer.Float64 (p2_Y p)).

Definition packPoint3D (p : Point3D) : E unit :=
  write (Packer.StructHeader Byte.x59 4);; write (Packer.Uint32 (p3_SpatialRefId p));;
  write (Packer.Float64 (p3_X p));; write (Packer.Float64 (p3_Y p));; write (Packer.Float64 (p3_Z p)).

Definition packDuration (d : Duration) : E unit :=
  write (Packer.StructHeader Byte.x45 4);;
  write (Packer.Int64 (du_Months d));; write (Packer.Int64 (du_Days d));;
  write (Packer.Int64 (du_Seconds d));; write (Packer.Int (du_Nanos d)).

Definition write_vector (t : vecType) (elems : list Z) : E unit :=
  write (match t with
         | VecInt8 => Packer.VectorInt8 elems
         | VecInt16 => Packer.VectorInt16 elems
         | VecInt32 => Packer.VectorInt32 elems
         | VecInt64 => Packer.VectorInt64 elems
         | VecFloat32 => Packer.VectorFloat32 elems
         | VecFloat64 => Packer.VectorFloat64 elems
         end).

(** ** Values *)

Definition mixed (first got : elemKind) : E elemKind :=
  if decide (typeName first ≠ typeName got)
  then refuse ("a list stored as a property cannot mix " +:+ typeName first +:+ " and " +:+ typeName got)
  else refuse ("points in a list stored as a property must have the same coordinate reference " +:+
               "system and dimensions").

Section List.
Context {A : Type}.
(** [e.value(rv.Index(i).Interface(), true)] *)
Variable element : A → E elemKind.

(** The loop of [reflected]; [first] is set from the second element on. *)
Fixpoint elements (l : list A) (first : option elemKind) : E elemKind :=
  match l with
  | [] => mret (mkKind TypeList 0 0)
  | x :: l =>
      kind ← element x;
      e ← go_get err;
      match e, first with
      | Some _, _ => mret no_kind
      | None, None => elements l (Some kind)
      | None, Some f => if decide (kind ≠ f) then mixed f kind else elements l first
      end
  end.

Definition packList (l : list A) (inList : bool) : E elemKind :=
  if inList then refuse "a list stored as a property cannot contain another list"
  else
    ok ← accept TypeList;
    if ok : bool then write (Packer.ArrayHeader (Packer.len l));; elements l None
    else mret no_kind.
End List.

(** [if e.err != nil { return elemKind{} }] at the start of [value]. *)
Definition unless_failed (m : E elemKind) : E elemKind :=
  e ← go_get err;
  match e with Some _ => mret no_kind | None => m end.

Definition null (inList : bool) : E elemKind :=
  if inList then refuse "a list stored as a property cannot contain null"
  else pack TypeNull (write Packer.Nil).

(** [value] and [reflected].  Named types of a basic kind are the constructors of
    that kind; a pointer is followed, and each step checks the error again. *)
Fixpoint value_ (x : goval) (inList : bool) : E elemKind :=
  unless_failed
  match x with
  | GNil | GNilPtr _ => null inList
  | GBool b => pack TypeBoolean (write (Packer.Bool b))
  | GString s => pack TypeString (write (Packer.String s))
  | GBytes b | GNamedBytes b => pack TypeBytes (write (Packer.Bytes b))
  | GInt i => packInt i
  | GUint i => packInt i
  | GUint64 i => packUint i
  | GFloat32 b => pack TypeFloat (write (Packer.Float64 (Packer.float64_of_float32 b)))
  | GFloat64 b => pack TypeFloat (write (Packer.Float64 b))
  | GUUID u => pack TypeUUID (write (Packer.UUID u))
  | GDate t => pack TypeDate (packDate t)
  | GTimeOfDay t => pack TypeZonedTime (packZonedTime t)
  | GLocalTime t => pack TypeLocalTime (packLocalTime t)
  | GLocalDateTime t => pack TypeLocalDateTime (packLocalDateTime t)
  | GTime t => pack TypeZonedDateTime (packZonedDateTime t)
  | GDuration d => pack TypeDuration (packDuration d)
  | GPoint2D p => packPoint (p2_SpatialRefId p) 2 (packPoint2D p)
  | GPoint3D p => packPoint (p3_SpatialRefId p) 3 (packPoint3D p)
  | GVector t l => packVector inList (write_vector t l)
  | GPtr x | GIface x => value_ x inList
  | GInts l | GInt64s l => packList (λ i, unless_failed (packInt i)) l inList
  | GStrings l => packList (λ s, unless_failed (pack TypeString (write (Packer.String s)))) l inList
  | GFloat64s l => packList (λ b, unless_failed (pack TypeFloat (write (Packer.Float64 b)))) l inList
  | GAnys l | GSlice _ l => packList (λ x, value_ x true) l inList
  | GStruct _ | GArray _ | GBytesMap _ | GIntMap _ | GInt64Map _ | GStringMap _ | GFloat64Map _
  | GAnyMap _ | Outgoing.GMap _ | GOther _ => refuse (typeOf x +:+ " is not a Neo4j property type")
  end.

Definition encode (x : goval) : outcome (problem + Encoded) :=
  match value_ x false (mkEncoder (Packer.Begin [] (Packer.mkPacker [] None)) (mkVersion 0 0) None) with
  | Done (kind, e) =>
      let '(buf, packErr) := Packer.End_ (packer e) in
      Done (match err e, packErr with
            | Some p, _ => inl p
            | None, Some p => inl (PackProblem p)
            | None, None => inr (mkEncoded buf (typeName kind) (baseline e))
            end)
  | Panic => Panic
  | OutOfFuel => OutOfFuel
  end.
End Encoder.

Definition EncodeValue `{TzDb} (typeOf : goval → string) (x : goval) : outcome (problem + Encoded) :=
  encode typeOf typeBaselines x.
Definition EncodeAAD `{TzDb} (typeOf : goval → string) (x : goval) : outcome (problem + Encoded) :=
  encode typeOf aadTypeBaselines x.
End encoder.

(** * Decoding (decode.go) *)

Module decoder.

Record decoder : Type := mkDecoder {
  unpacker : Unpacker.Unpacker;
  recorded : Version;
  err : option problem;
  unsupportedDetail : string
}.
Definition set_unpacker (u : Unpacker.Unpacker) (d : decoder) : decoder :=
  mkDecoder u (recorded d) (err d) (unsupportedDetail d).
End decoder.

#[global] Program Instance decoder_host : UnpackHost decoder.decoder := {
  host_get := decoder.unpacker;
  host_set := decoder.set_unpacker
}.
Solve All Obligations with (by intros [] || by intros ? []).

Module decode.
Import decoder.
Abbreviation D := (GoM decoder).

(** [%#x] of a byte. *)
Definition hex_digit (n : Z) : string :=
  String.substring (Z.to_nat n) 1 "0123456789abcdef".
Definition hex (b : byte) : string :=
  let n := of_byte b in
  "0x" +:+ (if n <? 16 then hex_digit n else hex_digit (n / 16) +:+ hex_digit (n mod 16)).

Definition setErr (p : problem) : D unit :=
  go_modify (λ d, match err d with None => d <| err := Some p |> | Some _ => d end).

Definition malformed (msg : string) : D unit := setErr (MalformedError msg).

Definition unsupported (detail : string) : D unit :=
  go_modify (λ d, match err d with
                  | None => d <| unsupportedDetail := detail |> <| err := Some errUnsupported |>
                  | Some _ => d
                  end).

Definition require (typeName : string) : D bool :=
  match map_get typeName typeBaselines with
  | None => unsupported ("the " +:+ typeName +:+ " type");; mret false
  | Some baseline =>
      r ← go_get recorded;
      if negb (atLeast r baseline) then
        unsupported ("a " +:+ typeName +:+ " encoded under scheme " +:+ Version_String baseline);; mret false
      else mret true
  end.

Definition Next : D unit := via Unpacker.Next.
Definition Curr : D packed := go_get (λ d, Unpacker.Curr (unpacker d)).
Definition unpackErr : D (option packError) := go_get (λ d, Unpacker.Err (unpacker d)).
Definition failed : D bool := go_get (λ d, bool_decide (is_Some (err d))).

(** [d.int()] and the like: [t] is the kind that is expected. *)
Definition field {A} (t : packed) (what : string) (m : GoM Unpacker.Unpacker A) (zero : A) : D A :=
  Next;;
  c ← Curr;
  if decide (c ≠ t) then malformed ("expected " +:+ what +:+ " field");; mret zero
  else via m.

Definition int : D Z := field PackedInt "an integer" Unpacker.Int 0.
Definition float : D Z := field PackedFloat "a float" Unpacker.Float 0.
Definition string_ : D string := field PackedStr "a string" Unpacker.String "".
Definition bytes : D (list byte) := field PackedByteArray "a byte array" Unpacker.ByteArray [].

Definition fieldCount (name : string) (expected actual : Z) : D bool :=
  if actual =? expected then mret true
  else
    malformed (name +:+ " should have " +:+ pretty expected +:+ " fields but has " +:+ pretty actual);;
    mret false.

(** [if !d.require(t) || !d.fieldCount(name, n, fields) { return nil }] *)
Definition checked (typeName name : string) (expected actual : Z) (k : D value) : D value :=
  r ← require typeName;
  if r : bool then
    c ← fieldCount name expected actual;
    if c : bool then k else mret VNil
  else mret VNil.

(** [if d.err != nil { return nil }; k] *)
Definition unless_failed (k : D value) : D value :=
  f ← failed;
  if f : bool then mret VNil else k.

Section Structures.
Context `{TzDb}.

Definition date (fields : Z) : D value :=
  checked TypeDate "Date" 1 fields (
    days ← int;
    unless_failed (mret (VDate (UTC (time_Unix (i64 (days * 86400)) 0))))).

Definition zonedTime (fields : Z) : D value :=
  checked TypeZonedTime "Time" 2 fields (
    nanos ← int; offset ← int;
    unless_failed (
      let seconds := go_div nanos 1000000000 in
      let nanos := nanos - seconds * 1000000000 in
      mret (VTime (time_Date 0 0 0 0 0 seconds nanos (FixedZone "Offset" offset))))).

Definition localTime (fields : Z) : D value :=
  checked TypeLocalTime "LocalTime" 1 fields (
    nanos ← int;
    unless_failed (
      let seconds := go_div nanos 1000000000 in
      let nanos := nanos - seconds * 1000000000 in
      mret (VLocalTime (time_Date 0 0 0 0 0 seconds nanos LocLocal)))).

Definition localDateTime (fields : Z) : D value :=
  checked TypeLocalDateTime "LocalDateTime" 2 fields (
    seconds ← int; nanos ← int;
    unless_failed (mret (VLocalDateTime (Hydrate.copy_into (UTC (time_Unix seconds nanos)) LocLocal)))).

Definition zonedDateTimeOffset (fields : Z) : D value :=
  checked TypeZonedDateTime "DateTime" 3 fields (
    seconds ← int; nanos ← int; offset ← int;
    unless_failed (mret (VDateTime (In_ (time_Unix seconds nanos) (FixedZone "Offset" offset))))).

Definition zonedDateTimeZoneId (fields : Z) : D value :=
  checked TypeZonedDateTime "DateTimeZoneId" 3 fields (
    seconds ← int; nanos ← int; id ← string_;
    unless_failed (
      match Timezone.load id with
      | inr e => malformed (Timezone.zoneError_Error e);; mret VNil
      | inl zone => mret (VDateTime (In_ (time_Unix seconds nanos) zone))
      end)).

Definition duration (fields : Z) : D value :=
  checked TypeDuration "Duration" 4 fields (
    months ← int; days ← int; seconds ← int; nanos ← int;
    unless_failed (mret (VDuration (mkDuration months days seconds nanos)))).

Definition point2D (fields : Z) : D value :=
  checked TypePoint "Point2D" 3 fields (
    id ← int; x ← float; y ← float;
    unless_failed (mret (VPoint2D (mkPoint2D x y (u32 id))))).

Definition point3D (fields : Z) : D value :=
  checked TypePoint "Point3D" 4 fields (
    id ← int; x ← float; y ← float; z ← float;
    unless_failed (mret (VPoint3D (mkPoint3D x y z (u32 id))))).

(** [width] is never zero. *)
Definition decodeVector (t : vecType) (width : nat) (conv : Z → Z) (elements : list byte) : D value :=
  if decide (length elements `mod` width ≠ 0)%nat then
    malformed ("Vector values should be a multiple of " +:+ pretty (Z.of_nat width) +:+ " bytes but are " +:+
               pretty (Packer.len elements));;
    mret VNil
  else mret (VVector t (conv <$> Hydrate.elements (length elements / width) width elements)).

Definition vector (fields : Z) : D value :=
  checked TypeVector "Vector" 2 fields (
    marker ← bytes; elements ← bytes;
    unless_failed (
      match marker with
      | [Byte.xc1] => decodeVector VecFloat64 8 id elements
      | [Byte.xc6] => decodeVector VecFloat32 4 id elements
      | [Byte.xc8] => decodeVector VecInt8 1 i8 elements
      | [Byte.xc9] => decodeVector VecInt16 2 i16 elements
      | [Byte.xca] => decodeVector VecInt32 4 i32 elements
      | [Byte.xcb] => decodeVector VecInt64 8 i64 elements
      | [b] => unsupported ("a Vector with element marker " +:+ hex b);; mret VNil
      | _ => malformed ("a Vector type marker should be 1 byte but is " +:+ pretty (Packer.len marker));;
             mret VNil
      end)).

(** The switch of [structure]. *)
Definition tagged (tag : byte) (fields : Z) : D value :=
  match tag with
  | Byte.x44 => date fields
  | Byte.x54 => zonedTime fields
  | Byte.x74 => localTime fields
  | Byte.x64 => localDateTime fields
  | Byte.x49 => zonedDateTimeOffset fields
  | Byte.x69 => zonedDateTimeZoneId fields
  | Byte.x45 => duration fields
  | Byte.x58 => point2D fields
  | Byte.x59 => point3D fields
  | Byte.x56 => vector fields
  | _ => unsupported ("a structure tagged " +:+ hex tag);; mret VNil
  end.

Definition structure : D value :=
  tag ← via Unpacker.StructTag;
  fields ← via Unpacker.Len;
  e ← unpackErr;
  match e with
  | Some _ => mret VNil
  | None => tagged tag fields
  end.

(** [if !d.require(t) { return nil }; return m] *)
Definition scalar {A} (typeName : string) (m : GoM Unpacker.Unpacker A) (f : A → value) : D value :=
  r ← require typeName;
  if r : bool then a ← via m; mret (f a) else mret VNil.

Section Open.
Variable val : bool → D value.

(** The loop of [list]; [None] is the return on an error. *)
Fixpoint items (n : nat) (acc : list value) : D value :=
  match n with
  | O => mret (VList acc)
  | S n =>
      item ← val true;
      f ← failed;
      e ← unpackErr;
      match f, e with
      | false, None => items n (acc ++ [item])
      | _, _ => mret VNil
      end
  end.

Definition list_ : D value :=
  r ← require TypeList;
  if r : bool then
    length ← via Unpacker.Len;
    e ← unpackErr;
    match e with
    | Some _ => mret VNil
    | None => items (Z.to_nat length) []
    end
  else mret VNil.

(** The switch of [value]. *)
Definition value_case (c : packed) (inList : bool) : D value :=
  match c with
  | PackedInt => scalar TypeInteger Unpacker.Int VInt
  | PackedFloat => scalar TypeFloat Unpacker.Float VFloat
  | PackedStr => scalar TypeString Unpacker.String VString
  | PackedByteArray => scalar TypeBytes Unpacker.ByteArray VBytes
  | PackedTrue | PackedFalse => scalar TypeBoolean Unpacker.Bool VBool
  | PackedUUID => scalar TypeUUID Unpacker.UUID VUUID
  | PackedArray => list_
  | PackedStruct => structure
  | PackedNil =>
      if inList then malformed "a list stored as a property cannot contain null";; mret VNil
      else require TypeNull;; mret VNil
  | _ => unsupported "a PackStream type this driver does not recognise";; mret VNil
  end.

Definition value_body (inList : bool) : D value :=
  unless_failed (Next;; c ← Curr; value_case c inList).
End Open.

(** Lists nest, so the recursion runs on fuel. *)
Fixpoint value_ (fuel : nat) (inList : bool) : D value :=
  match fuel with
  | O => go_nofuel
  | S fuel => value_body (value_ fuel) inList
  end.

Definition newUnsupportedType (typeName : string) (r : Version) (message : string) : value :=
  VUnsupported (mkUnsupported typeName (Values.mkVersion (Major r) (Minor r)) (Some message)).

Definition unsupportedBaseline (typeName : string) (r : Version) : option value :=
  let requires := "the encrypted value requires Bolt Value Encoding Scheme " +:+ Version_String r in
  if Major r =? Major Implemented then
    if Minor r <=? Minor Implemented then None
    else Some (newUnsupportedType typeName r (requires +:+ " but this driver implements " +:+
           Version_String Implemented +:+ ", so the driver needs updating"))
  else if Major Implemented <? Major r then
    Some (newUnsupportedType typeName r (requires +:+ ", which is newer than the " +:+
           Version_String Implemented +:+ " implemented by this driver, so the driver needs updating"))
  else Some (newUnsupportedType typeName r (requires +:+ ", which this driver no longer supports")).

Definition new_decoder (buf : list byte) (r : Version) : decoder :=
  mkDecoder (Unpacker.Reset buf Unpacker.zero) r None "".

Definition DecodeValue (fuel : nat) (plaintext : list byte) (typeName : string) (r : Version) :
    outcome (problem + value) :=
  match unsupportedBaseline typeName r with
  | Some u => Done (inr u)
  | None =>
      match value_ fuel false (new_decoder plaintext r) with
      | Done (v, d) =>
          Done (match err d, Unpacker.Err (unpacker d) with
                | Some errUnsupported, _ =>
                    inr (newUnsupportedType typeName r ("the encrypted value contains " +:+
                      unsupportedDetail d +:+ ", which this driver cannot decode under Bolt Value " +:+
                      "Encoding Scheme " +:+ Version_String Implemented))
                | Some p, _ => inl p
                | None, Some e => inl (MalformedError (packError_Error e))
                | None, None => inr v
                end)
      | Panic => Panic
      | OutOfFuel => OutOfFuel
      end
  end.
End Structures.
End decode.

(** * The encrypted value (structure.go) *)

Module structure.
Import decoder decode.

Definition encryptedValueVersion : byte := Byte.x01.
Definition encryptedTag : byte := Byte.x65.
Definition encryptedFields : Z := 8.

Definition ProfileTypeEnvelope : string := "ENVELOPE".
Definition EnvelopeProfileVersion : Z := 1.

Definition MetadataKeyID : string := "key_id".
Definition MetadataIV : string := "iv".
Definition MetadataAAD : string := "aad".
Definition MetadataAADEncodingSchemeMajor : string := "aad_encoding_scheme_major".
Definition MetadataAADEncodingSchemeMinor : string := "aad_encoding_scheme_minor".

(** The dynamic types the [any] of a metadata entry is tested for; [type_] is the
    name of any other type. *)
Inductive metaval : Type :=
| MString (s : string)
| MBytes (b : list byte)
| MInt (i : Z)
| MOther (type_ : string).

Abbreviation Metadata := (gmap string metaval).

Record Encrypted : Type := mkEncrypted {
  ProfileType : string;
  ProfileVersion : Z;
  ProfileName : string;
  CipherOutput : list byte;
  TypeName : string;
  Baseline : Version;
  metadata : Metadata
}.

(** [Metadata.String], [Metadata.Bytes] and [Metadata.Int]. *)
Definition Metadata_String (m : Metadata) (key : string) : option string :=
  match m !! key with Some (MString s) => Some s | _ => None end.
Definition Metadata_Bytes (m : Metadata) (key : string) : option (list byte) :=
  match m !! key with Some (MBytes b) => Some b | _ => None end.
Definition Metadata_Int (m : Metadata) (key : string) : option Z :=
  match m !! key with Some (MInt i) => Some i | _ => None end.

(** ** Encoding *)

(** [slices.Sorted(maps.Keys(m))] with the entries the loop looks up. *)
Definition key_le (x y : string * metaval) : Prop := String.le x.1 y.1.
#[global] Instance key_le_dec : RelDecision key_le.
Proof. intros x y. unfold key_le. apply _. Defined.

Definition entries (m : Metadata) : list (string * metaval) := merge_sort key_le (map_to_list m).

(** [%q]: Go's escapes for ASCII; other bytes are printed as they are, which is what
    Go does with printable UTF-8. *)
Definition escape (c : Ascii.ascii) : string :=
  let n := Z.of_nat (Ascii.nat_of_ascii c) in
  let digit i := hex_digit i in
  match n with
  | 7 => "\a" | 8 => "\b" | 9 => "\t" | 10 => "\n" | 11 => "\v" | 12 => "\f" | 13 => "\r"
  | 34 => "\" +:+ Timezone.quote
  | 92 => "\\"
  | _ => if (n <? 32) || (n =? 127) then "\x" +:+ digit (n / 16) +:+ digit (n mod 16)
         else String.String c ""
  end.
Fixpoint escapes (s : string) : string :=
  match s with
  | String.EmptyString => ""
  | String.String c s => escape c +:+ escapes s
  end.
Definition quoted (s : string) : string := Timezone.quote +:+ escapes s +:+ Timezone.quote.

(** The type switch of the loop: what is written, or the error. *)
Definition pack_entry (kv : string * metaval) : string + (Packer.Packer → Packer.Packer) :=
  match kv.2 with
  | MString s => inr (λ p, Packer.String s (Packer.String kv.1 p))
  | MBytes b => inr (λ p, Packer.Bytes b (Packer.String kv.1 p))
  | MInt i => inr (λ p, Packer.Int64 i (Packer.String kv.1 p))
  | MOther t =>
      inl ("metadata entry " +:+ quoted kv.1 +:+ " has unsupported type " +:+ t)
  end.

Fixpoint pack_entries (l : list (string * metaval)) (p : Packer.Packer) : string + Packer.Packer :=
  match l with
  | [] => inr p
  | kv :: l =>
      match pack_entry kv with
      | inl msg => inl msg
      | inr f => pack_entries l (f p)
      end
  end.

(** The fields before the metadata. *)
Definition pack_fields (e : Encrypted) (p : Packer.Packer) : Packer.Packer :=
  Packer.Int (Minor (Baseline e))
  (Packer.Int (Major (Baseline e))
  (Packer.String (TypeName e)
  (Packer.Bytes (CipherOutput e)
  (Packer.String (ProfileName e)
  (Packer.Int64 (ProfileVersion e)
  (Packer.String (ProfileType e)
  (Packer.StructHeader encryptedTag encryptedFields p))))))).

Definition EncodeEncrypted (e : Encrypted) : problem + list byte :=
  let p := Packer.Begin [encryptedValueVersion] (Packer.mkPacker [] None) in
  let p := Packer.MapHeader (Z.of_nat (size (metadata e))) (pack_fields e p) in
  match pack_entries (entries (metadata e)) p with
  | inl msg => inl (Foreign (ErrorString msg))
  | inr p =>
      match Packer.End_ p with
      | (_, Some e) => inl (PackProblem e)
      | (buf, None) => inr buf
      end
  end.

(** ** Decoding *)

Fixpoint metadata_loop (n : nat) (m : Metadata) : D Metadata :=
  match n with
  | O => mret m
  | S n =>
      key ← string_;
      f ← failed;
      if f : bool then mret m
      else
        Next;;
        c ← Curr;
        match c with
        | PackedStr => s ← via Unpacker.String; metadata_loop n (<[key := MString s]> m)
        | PackedByteArray => b ← via Unpacker.ByteArray; metadata_loop n (<[key := MBytes b]> m)
        | PackedInt => i ← via Unpacker.Int; metadata_loop n (<[key := MInt i]> m)
        | _ =>
            malformed ("the Encrypted metadata entry " +:+ quoted key +:+
                       " is not a string, bytes or integer");;
            mret m
        end
  end.

(** A nil map and an empty one are looked up alike. *)
Definition metadata_ : D Metadata :=
  Next;;
  c ← Curr;
  if decide (c ≠ PackedMap) then malformed "the Encrypted metadata must be a dictionary";; mret ∅
  else
    entries ← via Unpacker.Len;
    e ← unpackErr;
    match e with
    | Some _ => mret ∅
    | None => metadata_loop (Z.to_nat entries) ∅
    end.

(** An early return with an error. *)
Definition stop (msg : string) : D (problem + Encrypted) := mret (inl (MalformedError msg)).

(** From the profile's name on. *)
Definition envelope (profileType : string) (profileVersion : Z) : D (problem + Encrypted) :=
  name ← string_; cipher ← bytes; typeName ← string_;
  major ← int; minor ← int;
  m ← metadata_;
  e ← go_get err;
  u ← unpackErr;
  mret (match e, u with
        | Some p, _ => inl p
        | None, Some e => inl (MalformedError (packError_Error e))
        | None, None =>
            inr (mkEncrypted profileType profileVersion name cipher typeName (mkVersion major minor) m)
        end).

Definition encrypted_fields : D (problem + Encrypted) :=
  profileType ← string_; profileVersion ← int;
  e ← go_get err;
  match e with
  | Some p => mret (inl p)
  | None =>
      if decide (profileType ≠ ProfileTypeEnvelope ∨ profileVersion ≠ EnvelopeProfileVersion)
      then mret (inl (UnsupportedProfileError profileType profileVersion))
      else envelope profileType profileVersion
  end.

Definition encrypted_struct : D (problem + Encrypted) :=
  Next;;
  c ← Curr;
  if decide (c ≠ PackedStruct) then stop "an encrypted value must hold a structure"
  else
    tag ← via Unpacker.StructTag;
    if decide (tag ≠ encryptedTag) then
      stop ("expected the Encrypted structure tag " +:+ hex encryptedTag +:+ " but found " +:+ hex tag)
    else
      fields ← via Unpacker.Len;
      if decide (fields ≠ encryptedFields) then
        stop ("the Encrypted structure should have " +:+ pretty encryptedFields +:+ " fields but has " +:+
              pretty fields)
      else encrypted_fields.

Definition DecodeEncrypted (value : list byte) : outcome (problem + Encrypted) :=
  match value with
  | [] => Done (inl (MalformedError "an encrypted value cannot be empty"))
  | v :: rest =>
      if decide (v ≠ encryptedValueVersion) then
        Done (inl (MalformedError ("unknown encrypted value encoding version " +:+ hex v +:+
                                   ", this driver supports " +:+ hex encryptedValueVersion)))
      else
        match encrypted_struct (new_decoder rest Implemented) with
        | Done (r, _) => Done r
        | Panic => Panic
        | OutOfFuel => OutOfFuel
        end
  end.
End structure.
