(* ===== verification/EncodingFacts.v ===== *)
(** Facts about the encoding of property values: what the encoder accepts, that the
    decoder reads back what the encoder wrote, and the round trip of the structure
    that carries an encrypted value. *)

From S2P Require Import Prelude GoTime Packer Values Errors Unpacker Reading Hydrator Messages Outgoing RoundTrip.
From S2P Require Import Encoding.
From stdpp Require Import gmap sorting.
#[local] Open Scope Z_scope.
#[local] Open Scope go_scope.
Import scheme.

(** * Reading

    A decoder that has met no error and whose value was recorded under the scheme
    this driver implements. *)

#[global] Program Instance decoder_ready : Ready decoder.decoder := {
  host_ok d := decoder.err d = None ∧ decoder.recorded d = Implemented
}.
Next Obligation. done. Qed.

Section Reading.
Import decode.

Lemma reads_require t : map_get t typeBaselines = Some Implemented → reads (require t) [] true.
Proof.
  intros Ht d rest [_ Hv] Hr. exists (host_get d). rewrite host_set_get. split; [| done].
  unfold require. rewrite Ht. unfold go_get, mbind, GoM_bind. by rewrite Hv.
Qed.

Lemma reads_unless_failed k e v : reads k e v → reads (unless_failed k) e v.
Proof.
  intros Hk d rest Hok Hr. destruct (Hk d rest Hok Hr) as (u & E & Hu). exists u. split; [| done].
  unfold unless_failed, failed, go_get, mbind, GoM_bind. destruct Hok as [-> _]. by rewrite <- E.
Qed.

Lemma reads_checked t name n k e v :
  map_get t typeBaselines = Some Implemented → reads k e v → reads (checked t name n n k) e v.
Proof.
  intros Ht Hk. rewrite <- (app_nil_l e). eapply reads_bind; [by apply reads_require |].
  cbn iota. unfold fieldCount. rewrite Z.eqb_refl. apply Hk.
Qed.

(** The test on the marker that was just read. *)
Lemma item_curr_is {A} (m k : D A) t bs v :
  item k t bs v → item (c ← Curr; if decide (c ≠ t) then m else k) t bs v.
Proof.
  intros (b & e & -> & Ht & Hr). exists b, e. split_and!; [done.. |].
  intros s rest Hok Hrest Hm Hc. unfold Curr, go_get, mbind, GoM_bind.
  change (Unpacker.Curr (decoder.unpacker s)) with (Unpacker.Curr (host_get s)).
  rewrite Hc, Ht. rewrite decide_False by (intros Hn; by apply Hn). by apply Hr.
Qed.

Lemma item_curr_case {A} (k : packed → D A) t bs v :
  item (k t) t bs v → item (c ← Curr; k c) t bs v.
Proof.
  intros (b & e & -> & Ht & Hr). exists b, e. split_and!; [done.. |].
  intros s rest Hok Hrest Hm Hc. unfold Curr, go_get, mbind, GoM_bind.
  change (Unpacker.Curr (decoder.unpacker s)) with (Unpacker.Curr (host_get s)).
  rewrite Hc, Ht. by apply Hr.
Qed.

Lemma reads_field_of {A} t what (m : GoM Unpacker.Unpacker A) zero bs a :
  item m t bs a → reads (field t what m zero) bs a.
Proof. intros Hm. by eapply item_next, item_curr_is, item_via. Qed.

Lemma reads_int i : signed 64 i → reads int (written (Packer.Int64 i)) i.
Proof. intros. by apply reads_field_of, item_Int. Qed.
Lemma reads_float b : unsigned 64 b → reads float (written (Packer.Float64 b)) b.
Proof. intros. by apply reads_field_of, item_Float. Qed.
Lemma reads_string s : fits (Packer.strlen s) → reads string_ (written (Packer.String s)) s.
Proof. intros. by apply reads_field_of, item_String. Qed.
Lemma reads_bytes b : Packer.len b < 0x100000000 → reads bytes (bytes_header (Packer.len b) ++ b) b.
Proof. intros. by apply reads_field_of, item_ByteArray. Qed.

(** The end of a structure. *)
Lemma reads_done v w : v = w → reads (unless_failed (mret v)) [] w.
Proof. intros ->. apply reads_unless_failed, reads_ret. Qed.

(** A step that reads nothing, before an operation on the same item. *)
Lemma item_after {A B} (m : D A) (k : A → D B) t bs a b :
  (∀ d, host_ok d → m d = Done (a, d)) → item (k a) t bs b → item (m ≫= k) t bs b.
Proof.
  intros Hm (c & e & -> & Ht & Hr). exists c, e. split_and!; [done.. |].
  intros s rest Hok Hrest Hmk Hc. unfold mbind, GoM_bind. rewrite Hm by done. by apply Hr.
Qed.

Lemma require_ok t d :
  map_get t typeBaselines = Some Implemented → host_ok d → require t d = Done (true, d).
Proof. intros Ht [_ Hv]. unfold require. rewrite Ht. unfold go_get, mbind, GoM_bind. by rewrite Hv. Qed.

Lemma item_scalar {A} name (m : GoM Unpacker.Unpacker A) f t bs a :
  map_get name typeBaselines = Some Implemented → item m t bs a →
  item (scalar name m f) t bs (f a).
Proof.
  intros Ht Hm. eapply item_after; [intros; by apply require_ok |].
  eapply item_map; [by apply item_via | done].
Qed.

Lemma reads_unpackErr : reads unpackErr [] None.
Proof.
  intros d rest _ Hr. exists (host_get d). rewrite host_set_get. split; [| done].
  unfold unpackErr, go_get. destruct Hr as (_ & He & _). simpl in He. by rewrite He.
Qed.

Lemma reads_failed : reads failed [] false.
Proof.
  intros d rest [Hd _] Hr. exists (host_get d). rewrite host_set_get. split; [| done].
  unfold failed, go_get. by rewrite Hd.
Qed.

Lemma item_struct_header tag n e v `{TzDb} :
  0 <= n < 0x10 → reads (tagged tag n) e v →
  item structure PackedStruct ([to_byte (0xb0 + n); tag] ++ e) v.
Proof.
  intros Hn Hs. exists (to_byte (0xb0 + n)), (tag :: e).
  rewrite struct_marker by done. split_and!; [done.. |].
  intros s rest Hok Hr Hm _. unfold structure.
  destruct (reads_pop tag (host_get s) (e ++ rest) I Hr) as (u1 & E1 & Hr1).
  change (Unpacker.pop (host_get s) = Done (tag, u1)) in E1.
  assert (Hm1 : Unpacker.mrk u1 = mkMarker PackedStruct n 0).
  { rewrite struct_marker in Hm by done. unfold Unpacker.pop, Unpacker.fail in E1.
    rewrite <- Hm. unfold Unpacker.setErr in E1. simpl in E1. by repeat case_match; simplify_eq. }
  unfold via at 2, Unpacker.StructTag, mbind, GoM_bind. rewrite E1.
  unfold via, Unpacker.Len. rewrite host_get_set, Hm1. simpl. rewrite uwrap_small by (split; lia).
  destruct (Hs (host_set u1 s) rest) as (u2 & E2 & Hr2).
  { by apply host_ok_set. }
  { by rewrite host_get_set. }
  exists u2. split; [| done]. rewrite host_set_set in E2.
  unfold unpackErr, go_get. simpl. destruct Hr1 as (_ & He1 & _). rewrite He1. exact E2.
Qed.
End Reading.

(** * Writing *)

Section Writing.
Import encoder.

(** [m] appends exactly [bs]. *)
Definition writes (m : E unit) (bs : list byte) : Prop :=
  ∀ e, m e = Done (tt, e <| packer := Packer.emit bs (packer e) |>).

Lemma writes_write f bs : appends f bs → writes (write f) bs.
Proof. intros Hf e. unfold write, go_modify. by rewrite Hf. Qed.

Lemma writes_bind m m' b b' : writes m b → writes m' b' → writes (m;; m') (b ++ b').
Proof.
  intros Hm Hm' e. unfold mbind, GoM_bind. rewrite Hm, Hm'. unfold Packer.emit. simpl.
  by rewrite <- app_assoc.
Qed.

Lemma writes_header tag n : n <= 0xf → writes (write (Packer.StructHeader tag n)) [to_byte (0xb0 + n); tag].
Proof. intros. by apply writes_write, StructHeader_appends. Qed.
Lemma writes_Int64 i : writes (write (Packer.Int64 i)) (written (Packer.Int64 i)).
Proof. apply writes_write, Int64_appends. Qed.
Lemma writes_Float64 b : writes (write (Packer.Float64 b)) (written (Packer.Float64 b)).
Proof. by apply writes_write. Qed.
Lemma writes_String s : fits (Packer.strlen s) → writes (write (Packer.String s)) (written (Packer.String s)).
Proof. intros. by apply writes_write, String_appends. Qed.
End Writing.

Create HintDb encoding.
#[export] Hint Resolve writes_bind writes_Int64 writes_Float64 writes_String reads_int reads_float
  reads_string reads_bytes : encoding.
#[export] Hint Extern 1 (writes (encoder.write (Packer.StructHeader _ _)) _) =>
  (apply writes_header; lia) : encoding.
#[export] Hint Extern 1 (writes (encoder.write (Packer.Int _)) _) => (apply writes_Int64) : encoding.
#[export] Hint Extern 1 (writes (encoder.write (Packer.Uint32 _)) _) => (apply writes_Int64) : encoding.

(** * Structures *)

Section Structures.
Context `{TzDb}.
Import encoder.

(** [m] writes a structure that is read as [v]. *)
Definition carries (m : E unit) (v : value) : Prop :=
  ∃ bs, writes m bs ∧ item decode.structure PackedStruct bs v.

Lemma carries_intro tag n m e v :
  0 <= n < 0x10 → writes m e → reads (decode.tagged tag n) e v →
  carries (write (Packer.StructHeader tag n);; m) v.
Proof.
  intros Hn Hm Hr. exists ([to_byte (0xb0 + n); tag] ++ e). split.
  - apply writes_bind; [| done]. apply writes_header. lia.
  - by apply item_struct_header.
Qed.

(** One field, then the rest. *)
Lemma reads_then {A} (m : decode.D A) (k : A → decode.D value) e1 e2 a v :
  reads m e1 a → reads (k a) e2 v → reads (m ≫= k) (e1 ++ e2) v.
Proof. apply reads_bind. Qed.

(** The last field. *)
Lemma reads_finally {A} (m : decode.D A) (k : A → decode.D value) e a v :
  reads m e a → reads (k a) [] v → reads (m ≫= k) e v.
Proof. intros Hm Hk. rewrite <- (app_nil_r e). by eapply reads_bind. Qed.

Lemma point2D_carried p :
  unsigned 64 (p2_X p) → unsigned 64 (p2_Y p) → unsigned 32 (p2_SpatialRefId p) →
  carries (packPoint2D p) (VPoint2D p).
Proof.
  intros Hx Hy Hs. eapply carries_intro; [lia | eauto with encoding |].
  apply reads_checked; [done |]. eapply reads_then; [by apply reads_int, signed_of_u32 |].
  eapply reads_then; [by apply reads_float |]. eapply reads_finally; [by apply reads_float |].
  apply reads_done. rewrite uwrap_small by done. by destruct p.
Qed.

Lemma point3D_carried p :
  unsigned 64 (p3_X p) → unsigned 64 (p3_Y p) → unsigned 64 (p3_Z p) →
  unsigned 32 (p3_SpatialRefId p) → carries (packPoint3D p) (VPoint3D p).
Proof.
  intros Hx Hy Hz Hs. eapply carries_intro; [lia | eauto 10 with encoding |].
  apply reads_checked; [done |]. eapply reads_then; [by apply reads_int, signed_of_u32 |].
  do 2 (eapply reads_then; [by apply reads_float |]). eapply reads_finally; [by apply reads_float |].
  apply reads_done. rewrite uwrap_small by done. by destruct p.
Qed.

Lemma duration_carried d :
  signed 64 (du_Months d) → signed 64 (du_Days d) → signed 64 (du_Seconds d) →
  signed 64 (du_Nanos d) → carries (packDuration d) (VDuration d).
Proof.
  intros. eapply carries_intro; [lia | eauto 10 with encoding |]. apply reads_checked; [done |].
  do 3 (eapply reads_then; [by apply reads_int |]). eapply reads_finally; [by apply reads_int |].
  apply reads_done. by destruct d.
Qed.

Lemma date_carried t :
  time_ok t → signed 64 (wall t / 86400 * 86400) →
  carries (packDate t) (VDate (mkTime (wall t / 86400 * 86400) 0 LocUTC)).
Proof.
  intros (Hu & Hn & Ho & Huo) Hd. eapply carries_intro; [lia | eauto with encoding |].
  apply reads_checked; [done |]. rewrite days_of_floor, swrap_small by (done || lia). fold (wall t).
  eapply reads_finally.
  - apply reads_int. revert Hd. unfold signed. Z.to_euclidean_division_equations. lia.
  - apply reads_done. rewrite swrap_small, time_Unix_small by (done || lia). done.
Qed.

(** The time of day in nanoseconds, and its two parts. *)
Lemma nanos_of_day_parts t :
  0 <= nsec t < 1000000000 →
  let n := Pack.nanos_of_day t in
  signed 64 n ∧ go_div n 1000000000 = wall t mod 86400 ∧
  n - go_div n 1000000000 * 1000000000 = nsec t.
Proof.
  intros Hn n. assert (E : n = wall t mod 86400 * 1000000000 + nsec t).
  { unfold n, Pack.nanos_of_day, Hour, Minute, Second, Nanosecond. generalize (wall t). intros w.
    Z.to_euclidean_division_equations. lia. }
  rewrite E. assert (Hw : 0 <= wall t mod 86400 < 86400) by (apply Z.mod_pos_bound; lia).
  clear E. revert Hw. generalize (wall t mod 86400). intros w Hw.
  assert (Hq : go_div (w * 1000000000 + nsec t) 1000000000 = w)
    by (Z.to_euclidean_division_equations; lia).
  rewrite Hq. unfold signed. lia.
Qed.

Lemma zonedTime_carried t :
  time_ok t →
  carries (packZonedTime t)
    (VTime (time_Date 0 0 0 0 0 (wall t mod 86400) (nsec t) (LocFixed "Offset" (zone_offset t)))).
Proof.
  intros (Hu & Hn & Ho & Huo). destruct (nanos_of_day_parts t Hn) as (Hs & Hq & Hr).
  eapply carries_intro; [lia | eauto with encoding |]. apply reads_checked; [done |].
  eapply reads_then; [by apply reads_int |]. eapply reads_finally; [by apply reads_int |].
  apply reads_done. cbv zeta. by rewrite Hr, Hq.
Qed.

Lemma localTime_carried t :
  time_ok t →
  carries (packLocalTime t) (VLocalTime (time_Date 0 0 0 0 0 (wall t mod 86400) (nsec t) LocLocal)).
Proof.
  intros (Hu & Hn & Ho & Huo). destruct (nanos_of_day_parts t Hn) as (Hs & Hq & Hr).
  eapply carries_intro; [lia | eauto with encoding |]. apply reads_checked; [done |].
  eapply reads_finally; [by apply reads_int |]. apply reads_done. cbv zeta. by rewrite Hr, Hq.
Qed.

Lemma localDateTime_carried t :
  time_ok t →
  carries (packLocalDateTime t)
    (VLocalDateTime (Hydrate.copy_into (mkTime (wall t) (nsec t) LocUTC) LocLocal)).
Proof.
  intros (Hu & Hn & Ho & Huo). eapply carries_intro; [lia | eauto with encoding |].
  rewrite swrap_small by (done || lia).
  apply reads_checked; [done |]. eapply reads_then; [by apply reads_int |].
  eapply reads_finally; [by apply reads_int, signed_small |].
  apply reads_done. unfold Nanosecond. rewrite time_Unix_small by done. done.
Qed.

Lemma zonedDateTime_carried t :
  time_ok t → fits (Packer.strlen (location_String (loc t))) →
  carries (packZonedDateTime t) (VDateTime (sent_time true t)).
Proof.
  intros (Hu & Hn & Ho & Huo) Hf. unfold packZonedDateTime, sent_time.
  destruct (Timezone.id_of t) as [id |] eqn:Eid;
    [destruct (id_of_load _ _ Eid) as [-> [l Hl]] |];
    (eapply carries_intro; [lia | eauto 10 with encoding |]); (apply reads_checked; [done |]);
    (eapply reads_then; [by apply reads_int |]);
    (eapply reads_then; [by apply reads_int, signed_small |]).
  - eapply reads_finally; [by apply reads_string |]. apply reads_unless_failed. rewrite Hl.
    unfold Nanosecond. rewrite time_Unix_small by done. apply reads_ret.
  - eapply reads_finally; [by apply reads_int |]. apply reads_done. unfold Nanosecond.
    rewrite time_Unix_small by done. done.
Qed.
End Structures.

(** ** Vectors *)

Section Vectors.
Context `{TzDb}.
Import encoder.

Lemma decodeVector_reads t conv l :
  Forall (vec_elem t) l →
  (∀ z, vec_elem t z → conv (uwrap (Z.of_nat (vec_width t) * 8) z) = z) →
  reads (decode.decodeVector t (vec_width t) conv (concat (be_bytes (vec_width t) <$> l))) [] (VVector t l).
Proof.
  intros Hl Hc. unfold decode.decodeVector.
  assert (Hw : vec_width t ≠ 0%nat) by (by destruct t).
  rewrite concat_be_length, Nat.Div0.mod_mul, decide_False by (intros Hn; by apply Hn).
  rewrite Nat.div_mul by done. apply reads_ret_eq. f_equal. rewrite elements_concat.
  rewrite <- list_fmap_compose. eapply fmap_id_Forall; [done |]. apply Hc.
Qed.

Lemma vector_carried t l :
  Forall (vec_elem t) l → Packer.len l * Z.of_nat (vec_width t) < 0x100000000 →
  carries (write_vector t l) (VVector t l).
Proof.
  intros Hl Hlen.
  assert (Hb : Packer.len l * Z.of_nat (vec_width t) = Packer.len (concat (be_bytes (vec_width t) <$> l))).
  { unfold Packer.len. rewrite concat_be_length. lia. }
  assert (Ew : write_vector t l = write (Packer.vector_body (vec_marker t) (vec_width t) l))
    by (by destruct t).
  rewrite Ew. eexists. split; [by apply writes_write, vector_appends |].
  apply item_struct_header; [lia |].
  change (decode.tagged Byte.x56 2) with (decode.vector 2). apply reads_checked; [done |].
  eapply reads_then; [apply (reads_bytes [vec_marker t]); unfold Packer.len; simpl; lia |].
  rewrite Hb in *. eapply reads_finally; [by apply reads_bytes |]. apply reads_unless_failed.
  destruct t; cbn [vec_marker];
    (eapply (decodeVector_reads _ _ _ Hl); intros z Hz; simpl in Hz; unfold id;
     rewrite ?swrap_uwrap, ?swrap_small by (done || lia); done || by apply uwrap_small).
Qed.
End Vectors.

(** * Values *)

Section Values.
Context `{TzDb}.
Variable typeOf : goval → string.
Import encoder.

Abbreviation plain t := (mkKind t 0 0).

(** The values a list can hold: what they are in a list, and the value they stand
    for.  The bounds are those of PackStream. *)
Inductive atom : goval → elemKind → value → Prop :=
| at_bool b : atom (GBool b) (plain TypeBoolean) (VBool b)
| at_int i : signed 64 i → atom (GInt i) (plain TypeInteger) (VInt i)
| at_uint i : unsigned 32 i → atom (GUint i) (plain TypeInteger) (VInt i)
| at_uint64 i : unsigned 63 i → atom (GUint64 i) (plain TypeInteger) (VInt i)
| at_float64 b : unsigned 64 b → atom (GFloat64 b) (plain TypeFloat) (VFloat b)
| at_float32 b :
    unsigned 64 (Packer.float64_of_float32 b) →
    atom (GFloat32 b) (plain TypeFloat) (VFloat (Packer.float64_of_float32 b))
| at_string s : fits (Packer.strlen s) → atom (GString s) (plain TypeString) (VString s)
| at_bytes b : Packer.len b < 0x100000000 → atom (GBytes b) (plain TypeBytes) (VBytes b)
| at_named_bytes b : Packer.len b < 0x100000000 → atom (GNamedBytes b) (plain TypeBytes) (VBytes b)
| at_uuid u : length u = 16%nat → atom (GUUID u) (plain TypeUUID) (VUUID u)
| at_point2d p :
    unsigned 64 (p2_X p) → unsigned 64 (p2_Y p) → unsigned 32 (p2_SpatialRefId p) →
    atom (GPoint2D p) (mkKind TypePoint (p2_SpatialRefId p) 2) (VPoint2D p)
| at_point3d p :
    unsigned 64 (p3_X p) → unsigned 64 (p3_Y p) → unsigned 64 (p3_Z p) →
    unsigned 32 (p3_SpatialRefId p) →
    atom (GPoint3D p) (mkKind TypePoint (p3_SpatialRefId p) 3) (VPoint3D p)
| at_duration d :
    signed 64 (du_Months d) → signed 64 (du_Days d) → signed 64 (du_Seconds d) →
    signed 64 (du_Nanos d) → atom (GDuration d) (plain TypeDuration) (VDuration d)
| at_date t :
    time_ok t → signed 64 (wall t / 86400 * 86400) →
    atom (GDate t) (plain TypeDate) (VDate (mkTime (wall t / 86400 * 86400) 0 LocUTC))
| at_time t :
    time_ok t → atom (GTimeOfDay t) (plain TypeZonedTime)
      (VTime (time_Date 0 0 0 0 0 (wall t mod 86400) (nsec t) (LocFixed "Offset" (zone_offset t))))
| at_local_time t :
    time_ok t → atom (GLocalTime t) (plain TypeLocalTime)
      (VLocalTime (time_Date 0 0 0 0 0 (wall t mod 86400) (nsec t) LocLocal))
| at_local_date_time t :
    time_ok t → atom (GLocalDateTime t) (plain TypeLocalDateTime)
      (VLocalDateTime (Hydrate.copy_into (mkTime (wall t) (nsec t) LocUTC) LocLocal))
| at_date_time t :
    time_ok t → fits (Packer.strlen (location_String (loc t))) →
    atom (GTime t) (plain TypeZonedDateTime) (VDateTime (sent_time true t))
| at_ptr x k v : atom x k v → atom (GPtr x) k v
| at_iface x k v : atom x k v → atom (GIface x) k v.

(** The values a property can hold: an atom, null, a vector, or a list of atoms of
    one kind. *)
Inductive property : goval → elemKind → value → Prop :=
| pr_atom x k v : atom x k v → property x k v
| pr_nil : property GNil (plain TypeNull) VNil
| pr_nil_ptr b : property (GNilPtr b) (plain TypeNull) VNil
| pr_vector t l :
    Forall (vec_elem t) l → Packer.len l * Z.of_nat (vec_width t) < 0x100000000 →
    property (GVector t l) (plain TypeVector) (VVector t l)
| pr_ints l :
    Forall (signed 64) l → fits (Packer.len l) →
    property (GInts l) (plain TypeList) (VList (VInt <$> l))
| pr_int64s l :
    Forall (signed 64) l → fits (Packer.len l) →
    property (GInt64s l) (plain TypeList) (VList (VInt <$> l))
| pr_float64s l :
    Forall (unsigned 64) l → fits (Packer.len l) →
    property (GFloat64s l) (plain TypeList) (VList (VFloat <$> l))
| pr_strings l :
    Forall (λ s, fits (Packer.strlen s)) l → fits (Packer.len l) →
    property (GStrings l) (plain TypeList) (VList (VString <$> l))
| pr_anys k l vs :
    Forall2 (λ x v, atom x k v) l vs → fits (Packer.len l) →
    property (GAnys l) (plain TypeList) (VList vs)
| pr_slice hot k l vs :
    Forall2 (λ x v, atom x k v) l vs → fits (Packer.len l) →
    property (GSlice hot l) (plain TypeList) (VList vs)
| pr_ptr x k v : property x k v → property (GPtr x) k v
| pr_iface x k v : property x k v → property (GIface x) k v.

(** The encoder after [bs]. *)
Definition raised (bs : list byte) (e : encoder) : encoder :=
  mkEncoder (Packer.emit bs (packer e)) (max (baseline e) Implemented) None.

(** [m] encodes a value of kind [k] as [bs]. *)
Definition encodes (m : E elemKind) (k : elemKind) (bs : list byte) : Prop :=
  ∀ e, err e = None → m e = Done (k, raised bs e).

(** A call for the list and one for each of its elements. *)
Definition fuel_of (inList : bool) : nat := if inList then 1 else 2.

(** [bs] is read as [v]. *)
Definition decodes (inList : bool) (bs : list byte) (v : value) : Prop :=
  ∀ g, (fuel_of inList <= g)%nat → reads (decode.value_ g inList) bs v.

Lemma encodes_packAs t k m bs :
  map_get t typeBaselines = Some Implemented → writes m bs → encodes (packAs typeBaselines t k m) k bs.
Proof.
  intros Ht Hm [p b er] He. simpl in He. subst er. unfold packAs, accept. rewrite Ht.
  unfold go_modify, mret, GoM_ret, mbind, GoM_bind. by rewrite Hm.
Qed.

Lemma encodes_unless m k bs : encodes m k bs → encodes (unless_failed m) k bs.
Proof. intros Hm e He. unfold unless_failed, go_get, mbind, GoM_bind. rewrite He. by apply Hm. Qed.

(** The case of a value's marker decides how it is read. *)
Lemma decodes_case inList t bs v :
  (∀ val, item (decode.value_case val t inList) t bs v) → decodes inList bs v.
Proof.
  intros Hv [| g] Hg; [destruct inList; simpl in Hg; lia |]. simpl. unfold decode.value_body.
  apply reads_unless_failed. eapply item_next, item_curr_case, Hv.
Qed.

(** A value packed and read on one branch of each type switch. *)
Lemma scalar_stored {A} t f bs name (m : GoM Unpacker.Unpacker A) g a inList k :
  map_get name typeBaselines = Some Implemented → appends f bs → item m t bs a →
  (∀ val, decode.value_case val t inList = decode.scalar name m g) →
  encodes (packAs typeBaselines name k (write f)) k bs ∧ decodes inList bs (g a).
Proof.
  intros Hn Hf Hm Hc. split; [by apply encodes_packAs, writes_write |].
  apply (decodes_case _ t). intros val. rewrite Hc. by apply item_scalar.
Qed.

Lemma struct_stored name k m v inList :
  map_get name typeBaselines = Some Implemented → carries m v →
  ∃ bs, encodes (packAs typeBaselines name k m) k bs ∧ decodes inList bs v.
Proof.
  intros Hn (bs & Hw & Hr). exists bs. split; [by apply encodes_packAs |].
  by apply (decodes_case _ PackedStruct).
Qed.

Definition stored (inList : bool) (x : goval) (k : elemKind) (v : value) : Prop :=
  ∃ bs, encodes (value_ typeOf typeBaselines x inList) k bs ∧ decodes inList bs v.

Lemma stored_unless inList x m k v :
  value_ typeOf typeBaselines x inList = unless_failed m →
  (∃ bs, encodes m k bs ∧ decodes inList bs v) → stored inList x k v.
Proof. intros Hx (bs & Hm & Hd). exists bs. rewrite Hx. split; [by apply encodes_unless | done]. Qed.

Lemma int_stored inList i :
  signed 64 i →
  encodes (packInt typeBaselines i) (plain TypeInteger) (written (Packer.Int64 i)) ∧
  decodes inList (written (Packer.Int64 i)) (VInt i).
Proof. intros Hi. eapply scalar_stored; [done | apply Int64_appends | by apply item_Int | done]. Qed.

Lemma uint64_stored inList i :
  unsigned 63 i →
  encodes (packUint typeBaselines i) (plain TypeInteger) (written (Packer.Int64 i)) ∧
  decodes inList (written (Packer.Int64 i)) (VInt i).
Proof.
  intros Hi. eapply scalar_stored; [done | | apply item_Int; unfold signed, unsigned in *; lia | done].
  intros p. unfold Packer.Uint64, Packer.checkOverflowInt.
  rewrite swrap_small by (unfold signed, unsigned in *; lia). unfold unsigned in *. zdec.
  apply Int64_appends.
Qed.

Lemma float_stored inList b :
  unsigned 64 b →
  encodes (pack typeBaselines TypeFloat (write (Packer.Float64 b))) (plain TypeFloat) (written (Packer.Float64 b)) ∧
  decodes inList (written (Packer.Float64 b)) (VFloat b).
Proof. intros Hi. eapply scalar_stored; [done | done | by apply item_Float | done]. Qed.

Lemma string_stored inList s :
  fits (Packer.strlen s) →
  encodes (pack typeBaselines TypeString (write (Packer.String s))) (plain TypeString) (written (Packer.String s)) ∧
  decodes inList (written (Packer.String s)) (VString s).
Proof. intros Hs. eapply scalar_stored; [done | by apply String_appends | by apply item_String | done]. Qed.

Lemma bytes_stored inList b :
  Packer.len b < 0x100000000 →
  encodes (pack typeBaselines TypeBytes (write (Packer.Bytes b))) (plain TypeBytes) (bytes_header (Packer.len b) ++ b) ∧
  decodes inList (bytes_header (Packer.len b) ++ b) (VBytes b).
Proof. intros Hs. eapply scalar_stored; [done | by apply Bytes_appends | by apply item_ByteArray | done]. Qed.

Lemma UUID_appends u : appends (Packer.UUID u) (written (Packer.UUID u)).
Proof. intros [b e]. unfold written, Packer.UUID, Packer.emit. simpl. by rewrite <- app_assoc. Qed.

Lemma atom_stored inList x k v : atom x k v → stored inList x k v.
Proof.
  induction 1; try (eapply stored_unless; [reflexivity |]).
  - exists (written (Packer.Bool b)).
    eapply (scalar_stored (if b then PackedTrue else PackedFalse));
      [done | destruct b; apply appends_emit | apply item_Bool | by destruct b].
  - eexists. by apply int_stored.
  - eexists. by apply int_stored, signed_of_u32.
  - eexists. by apply uint64_stored.
  - eexists. by apply float_stored.
  - eexists. by apply float_stored.
  - eexists. by apply string_stored.
  - eexists. by apply bytes_stored.
  - eexists. by apply bytes_stored.
  - eexists. eapply scalar_stored; [done | by apply UUID_appends | by apply item_UUID | done].
  - apply struct_stored; [done | by apply point2D_carried].
  - apply struct_stored; [done | by apply point3D_carried].
  - apply struct_stored; [done | by apply duration_carried].
  - apply struct_stored; [done | by apply date_carried].
  - apply struct_stored; [done | by apply zonedTime_carried].
  - apply struct_stored; [done | by apply localTime_carried].
  - apply struct_stored; [done | by apply localDateTime_carried].
  - apply struct_stored; [done | by apply zonedDateTime_carried].
  - done.
  - done.
Qed.

(** ** Lists *)

Lemma max_again b : max (max b Implemented) Implemented = max b Implemented.
Proof. unfold max. destruct (atLeast b Implemented) eqn:E; [by rewrite E | done]. Qed.

(** An encoder that has accepted a list already needs the scheme's version. *)
Lemma elements_encode {A} (element : A → E elemKind) k l bss first e :
  Forall2 (λ x bs, encodes (element x) k bs) l bss →
  first = None ∨ first = Some k →
  err e = None → max (baseline e) Implemented = baseline e →
  elements element l first e =
    Done (plain TypeList, mkEncoder (Packer.emit (concat bss) (packer e)) (baseline e) None).
Proof.
  intros Hl. revert first e. induction Hl as [| x bs l bss Hx _ IH]; intros first [[pb pe] b er] Hf He Hb;
    simpl in He, Hb; subst er; simpl.
  - unfold Packer.emit. simpl. by rewrite app_nil_r.
  - unfold mbind, GoM_bind. rewrite Hx by done. unfold raised, go_get. simpl. rewrite Hb.
    destruct Hf as [-> | ->].
    + rewrite IH by eauto. unfold Packer.emit. simpl. by rewrite <- app_assoc.
    + rewrite decide_False by (intros Hn; by apply Hn). rewrite IH by eauto.
      unfold Packer.emit. simpl. by rewrite <- app_assoc.
Qed.

Lemma packList_encodes {A} (element : A → E elemKind) k l bss :
  Forall2 (λ x bs, encodes (element x) k bs) l bss → fits (Packer.len l) →
  encodes (packList typeBaselines element l false) (plain TypeList)
    (written (Packer.ArrayHeader (Packer.len l)) ++ concat bss).
Proof.
  intros Hl Hfit [p b er] He. simpl in He. subst er. unfold packList, accept.
  change (map_get TypeList typeBaselines) with (Some Implemented).
  unfold go_modify, mret, GoM_ret, write, mbind, GoM_bind. simpl. unfold Packer.ArrayHeader.
  rewrite (listHeader_appends _ _ _ Hfit). unfold go_modify.
  rewrite (elements_encode element k l bss None); [| done | by left | done | apply max_again].
  unfold raised, Packer.emit. simpl. by rewrite <- app_assoc.
Qed.

Lemma items_read val bss vs acc :
  Forall2 (reads (val true)) bss vs →
  reads (decode.items val (length vs) acc) (concat bss) (VList (acc ++ vs)).
Proof.
  intros Hf. revert acc. induction Hf as [| bs v bss vs Hv _ IH]; intros acc; simpl.
  - rewrite app_nil_r. apply reads_ret.
  - eapply reads_bind; [done |]. rewrite <- (app_nil_l (concat bss)).
    eapply reads_bind; [apply reads_failed |]. rewrite <- (app_nil_l (concat bss)).
    eapply reads_bind; [apply reads_unpackErr |]. cbn iota.
    change (v :: vs) with ([v] ++ vs). rewrite app_assoc. apply IH.
Qed.

Lemma list_decodes bss vs :
  Forall2 (decodes true) bss vs → fits (Packer.len vs) →
  decodes false (written (Packer.ArrayHeader (Packer.len vs)) ++ concat bss) (VList vs).
Proof.
  intros Hd Hfit [| g] Hg; simpl in Hg; [lia |]. simpl. apply reads_unless_failed.
  eapply item_next, (item_curr_case _ PackedArray). unfold decode.value_case, decode.list_.
  eapply item_after; [intros; by apply require_ok |].
  eapply item_bind; [apply item_via, item_Len; [constructor | unfold fits, Packer.len in *; lia] |].
  rewrite <- (app_nil_l (concat bss)). eapply reads_bind; [apply reads_unpackErr |]. cbn iota.
  unfold Packer.len. rewrite Nat2Z.id. apply (items_read _ _ _ []).
  eapply Forall2_impl; [done |]. intros bs v Hv. apply Hv. simpl. lia.
Qed.

Lemma list_stored {A} (element : A → E elemKind) k l vs x :
  value_ typeOf typeBaselines x false = unless_failed (packList typeBaselines element l false) →
  Forall2 (λ a v, ∃ bs, encodes (element a) k bs ∧ decodes true bs v) l vs → fits (Packer.len l) →
  stored false x (plain TypeList) (VList vs).
Proof.
  intros Hx Hl Hfit. eapply stored_unless; [done |].
  assert (∃ bss, Forall2 (λ a bs, encodes (element a) k bs) l bss ∧ Forall2 (decodes true) bss vs)
    as (bss & He & Hd).
  { clear Hx Hfit. induction Hl as [| a v l vs (bs & He & Hd) _ (bss & IH1 & IH2)].
    - exists []. done.
    - exists (bs :: bss). by split; constructor. }
  assert (Hlen : Packer.len l = Packer.len vs) by (unfold Packer.len; by rewrite (Forall2_length _ _ _ Hl)).
  eexists. split; [by apply (packList_encodes element k) |]. rewrite Hlen in *. by apply list_decodes.
Qed.

(** A slice of a basic type. *)
Lemma typed_stored {A} (element : A → E elemKind) (P : A → Prop) k (g : A → value) (f : A → list byte) l x :
  value_ typeOf typeBaselines x false =
    unless_failed (packList typeBaselines (λ a, unless_failed (element a)) l false) →
  (∀ a, P a → encodes (element a) k (f a) ∧ decodes true (f a) (g a)) →
  Forall P l → fits (Packer.len l) → stored false x (plain TypeList) (VList (g <$> l)).
Proof.
  intros Hx Hel Hl Hfit. apply (list_stored (λ a, unless_failed (element a)) k l); [done | | done].
  apply Forall2_fmap_r, Forall_Forall2_diag. eapply Forall_impl; [done |]. intros a Ha.
  destruct (Hel a Ha). exists (f a). split; [by apply encodes_unless | done].
Qed.

Lemma null_stored x :
  value_ typeOf typeBaselines x false = unless_failed (null typeBaselines false) →
  stored false x (plain TypeNull) VNil.
Proof.
  intros Hx. eapply stored_unless; [done |]. exists [Byte.xc0]. split.
  - apply encodes_packAs; [done | by apply writes_write].
  - apply (decodes_case _ PackedNil). intros val. exists Byte.xc0, []. split_and!; [done.. |].
    apply reads_after_weaken. rewrite <- (app_nil_l []).
    eapply reads_bind; [by apply reads_require | apply reads_ret].
Qed.

Lemma property_stored x k v : property x k v → stored false x k v.
Proof.
  induction 1 as [x k v Ha | | | | | | | | k l vs Hl | hot k l vs Hl | |].
  - by apply atom_stored.
  - by apply null_stored.
  - by apply null_stored.
  - eapply stored_unless; [reflexivity |]. apply struct_stored; [done | by apply vector_carried].
  - eapply (typed_stored (packInt typeBaselines)); [reflexivity | | done..]. intros. by apply int_stored.
  - eapply (typed_stored (packInt typeBaselines)); [reflexivity | | done..]. intros. by apply int_stored.
  - eapply (typed_stored (λ b, pack typeBaselines TypeFloat (write (Packer.Float64 b))));
      [reflexivity | | done..]. intros. by apply float_stored.
  - eapply (typed_stored (λ s, pack typeBaselines TypeString (write (Packer.String s))));
      [reflexivity | | done..]. intros. by apply string_stored.
  - eapply (list_stored (λ x, value_ typeOf typeBaselines x true) k); [reflexivity | | done].
    eapply Forall2_impl; [done |]. intros. by apply atom_stored.
  - eapply (list_stored (λ x, value_ typeOf typeBaselines x true) k); [reflexivity | | done].
    eapply Forall2_impl; [done |]. intros. by apply atom_stored.
  - eapply stored_unless; [reflexivity | done].
  - eapply stored_unless; [reflexivity | done].
Qed.

Lemma value_read x k v :
  property x k v →
  ∃ bs, EncodeValue typeOf x = Done (inr (mkEncoded bs (typeName k) Implemented)) ∧
  ∀ fuel, (2 <= fuel)%nat → Packer.len bs < 2 ^ 32 - 16 →
    decode.DecodeValue fuel bs (typeName k) Implemented = Done (inr v).
Proof.
  intros (bs & He & HF)%property_stored. exists bs. split.
  - unfold EncodeValue, encode. by rewrite He.
  - intros fuel Hf Hlen. unfold decode.DecodeValue.
    change (decode.unsupportedBaseline (typeName k) Implemented) with (@None value).
    assert (Hr : at_rest (host_get (decode.new_decoder bs Implemented)) (bs ++ [])).
    { rewrite app_nil_r. split_and!; [by apply wf_reset | done..]. }
    destruct (HF fuel Hf (decode.new_decoder bs Implemented) [] ltac:(done) Hr) as (u & E & Hu).
    rewrite E. simpl. destruct Hu as (_ & -> & _). done.
Qed.

(** C27. A value a property can hold is encoded, under the name of its type and the
    baseline this driver implements; the bytes decode, with that name and baseline,
    to the value it stands for, if the unpacker can address them (less than 4 GiB);
    two levels of recursion are enough. *)
Theorem encoding_roundtrip x k v :
  property x k v →
  ∃ bs, EncodeValue typeOf x = Done (inr (mkEncoded bs (typeName k) Implemented)) ∧
  ∀ fuel, (2 <= fuel)%nat → Packer.len bs < 2 ^ 32 - 16 →
    decode.DecodeValue fuel bs (typeName k) Implemented = Done (inr v).
Proof. apply value_read. Qed.
End Values.

(** * What is accepted

    [propertyKind] says which values a property, or additional authenticated data,
    can hold, without regard to their size. *)

Section Accepted.
Context `{TzDb}.
Variable typeOf : goval → string.
Variable permitted : gomap Version.
Import encoder.

Abbreviation plain t := (mkKind t 0 0).

Definition allowed (k : elemKind) : option elemKind :=
  match map_get (typeName k) permitted with Some _ => Some k | None => None end.

(** What an element of a list is; [None] for what a list cannot hold. *)
Fixpoint atomKind (x : goval) : option elemKind :=
  match x with
  | GBool _ => allowed (plain TypeBoolean)
  | GString _ => allowed (plain TypeString)
  | GBytes _ | GNamedBytes _ => allowed (plain TypeBytes)
  | GInt _ | GUint _ | GUint64 _ => allowed (plain TypeInteger)
  | GFloat32 _ | GFloat64 _ => allowed (plain TypeFloat)
  | GUUID _ => allowed (plain TypeUUID)
  | GDate _ => allowed (plain TypeDate)
  | GTimeOfDay _ => allowed (plain TypeZonedTime)
  | GLocalTime _ => allowed (plain TypeLocalTime)
  | GLocalDateTime _ => allowed (plain TypeLocalDateTime)
  | GTime _ => allowed (plain TypeZonedDateTime)
  | GDuration _ => allowed (plain TypeDuration)
  | GPoint2D p => allowed (mkKind TypePoint (p2_SpatialRefId p) 2)
  | GPoint3D p => allowed (mkKind TypePoint (p3_SpatialRefId p) 3)
  | GPtr x | GIface x => atomKind x
  | _ => None
  end.

(** All elements are of one kind. *)
Definition homogeneous (ks : list (option elemKind)) : bool :=
  match ks with
  | [] => true
  | k :: ks => bool_decide (k ≠ None ∧ Forall (λ k', k' = k) ks)
  end.

Definition listKind (ks : list (option elemKind)) : option elemKind :=
  if homogeneous ks then allowed (plain TypeList) else None.

Fixpoint propertyKind (x : goval) : option elemKind :=
  match x with
  | GNil | GNilPtr _ => allowed (plain TypeNull)
  | GVector _ _ => allowed (plain TypeVector)
  | GInts l | GInt64s l => listKind ((λ i, atomKind (GInt i)) <$> l)
  | GStrings l => listKind ((λ s, atomKind (GString s)) <$> l)
  | GFloat64s l => listKind ((λ b, atomKind (GFloat64 b)) <$> l)
  | GAnys l | GSlice _ l => listKind (atomKind <$> l)
  | GPtr x | GIface x => propertyKind x
  | _ => atomKind x
  end.

(** The sizes and numbers that PackStream has room for. *)
Fixpoint packable (x : goval) : bool :=
  match x with
  | GString s => Packer.strlen s <? 0xffffffff
  | GBytes b | GNamedBytes b => Packer.len b <? 2 ^ 32
  | GUint64 i => i <? 2 ^ 63
  | GTime t => match Timezone.id_of t with Some id => Packer.strlen id <? 0xffffffff | None => true end
  | GVector t l => Packer.len l * Z.of_nat (vec_width t) <? 2 ^ 32
  | GInts l | GInt64s l | GFloat64s l => Packer.len l <? 0xffffffff
  | GStrings l => (Packer.len l <? 0xffffffff) && forallb (λ s, Packer.strlen s <? 0xffffffff) l
  | GAnys l | GSlice _ l => (Packer.len l <? 0xffffffff) && forallb packable l
  | GPtr x | GIface x => packable x
  | _ => true
  end.

Hypothesis versions : ∀ t b, map_get t permitted = Some b → b = Implemented.

(** The packer has reported nothing. *)
Definition fine (p : Packer.Packer) : bool := match Packer.err p with None => true | Some _ => false end.

(** [f] leaves the packer fine exactly if it was fine and [b]. *)
Definition keeps (f : Packer.Packer → Packer.Packer) (b : bool) : Prop := ∀ p, fine (f p) = fine p && b.

Lemma keeps_emit bs : keeps (Packer.emit bs) true.
Proof. intros p. by rewrite andb_true_r. Qed.
Lemma keeps_then f g b b' : keeps f b → keeps g b' → keeps (λ p, g (f p)) (b && b').
Proof. intros Hf Hg p. by rewrite Hg, Hf, andb_assoc. Qed.
Lemma keeps_Int64 i : keeps (Packer.Int64 i) true.
Proof. intros p. unfold Packer.Int64. repeat case_match; apply keeps_emit. Qed.
Lemma keeps_StructHeader tag n : n <= 0x0f → keeps (Packer.StructHeader tag n) true.
Proof.
  intros Hn p. unfold Packer.StructHeader. rewrite Z.gtb_ltb, (proj2 (Z.ltb_ge _ _)) by lia. apply keeps_emit.
Qed.
Lemma keeps_listHeader ll a b : keeps (Packer.listHeader ll a b) (ll <? 0xffffffff).
Proof.
  intros p. unfold Packer.listHeader.
  destruct (Z.ltb_spec ll 0x10), (Z.ltb_spec ll 0x100), (Z.ltb_spec ll 0x10000), (Z.ltb_spec ll 0xffffffff);
    try lia; first [apply keeps_emit | by rewrite andb_false_r].
Qed.
Lemma keeps_String s : keeps (Packer.String s) (Packer.strlen s <? 0xffffffff).
Proof.
  intros p. unfold Packer.String. change (fine (Packer.emit (bytes_of s) (Packer.listHeader (Packer.strlen s) 0x80 0xd0 p))
    = fine p && (Packer.strlen s <? 0xffffffff)). rewrite keeps_emit, andb_true_r. apply keeps_listHeader.
Qed.
Lemma keeps_bytesHeader l p :
  match Packer.bytesHeader l p with
  | (None, p') => (l <? 2 ^ 32) = true ∧ fine p' = fine p
  | (Some _, p') => (l <? 2 ^ 32) = false
  end.
Proof.
  unfold Packer.bytesHeader. change (2 ^ 32) with 0x100000000.
  destruct (Z.ltb_spec l 0x100), (Z.ltb_spec l 0x10000), (Z.ltb_spec l 0x100000000); try lia; done.
Qed.
Lemma keeps_Bytes b : keeps (Packer.Bytes b) (Packer.len b <? 2 ^ 32).
Proof.
  intros p. unfold Packer.Bytes. pose proof (keeps_bytesHeader (Packer.len b) p) as Hh.
  destruct (Packer.bytesHeader _ p) as [[e |] p'].
  - rewrite Hh. by rewrite andb_false_r.
  - destruct Hh as [-> Hp]. rewrite keeps_emit, Hp. by rewrite !andb_true_r.
Qed.
Lemma keeps_range {A} (f : A → Packer.Packer → Packer.Packer) l :
  (∀ x, keeps (f x) true) → keeps (Packer.range_over f l) true.
Proof.
  intros Hf. unfold Packer.range_over. induction l as [| x l IH]; intros p; simpl; [by rewrite andb_true_r |].
  rewrite IH, Hf. by rewrite !andb_true_r.
Qed.
Lemma keeps_vector marker width l :
  keeps (Packer.vector_body marker width l) (Packer.len l * Z.of_nat width <? 2 ^ 32).
Proof.
  intros p. unfold Packer.vector_body.
  match goal with |- context [match l with [] => Packer.Bytes [] ?q | _ => _ end] => set (q0 := q) end.
  assert (Hq : fine q0 = fine p).
  { unfold q0. change (fine (Packer.Bytes [marker] (Packer.StructHeader Byte.x56 2 p)) = fine p).
    rewrite keeps_Bytes, keeps_StructHeader by done. by rewrite !andb_true_r. }
  destruct l as [| x l]; [by rewrite keeps_Bytes, Hq |].
  unfold Packer.prepareVectorData. pose proof (keeps_bytesHeader (Packer.len (x :: l) * Z.of_nat width) q0) as Hh.
  destruct (Packer.bytesHeader _ q0) as [[e |] p'].
  - rewrite Hh. by rewrite andb_false_r.
  - destruct Hh as [-> Hp]. rewrite (keeps_range (λ v p, Packer.emit (be_bytes width v) p)), Hp, Hq; [by rewrite !andb_true_r |].
    intros v. apply keeps_emit.
Qed.
Lemma keeps_Uint64 i : keeps (Packer.Uint64 i) (i <? 2 ^ 63).
Proof.
  intros p. unfold Packer.Uint64.
  change (fine (Packer.Int64 (i64 i) (Packer.checkOverflowInt i p)) = fine p && (i <? 2 ^ 63)).
  rewrite keeps_Int64, andb_true_r. unfold Packer.checkOverflowInt. change (2 ^ 63) with (0x7fffffffffffffff + 1).
  rewrite Z.gtb_ltb.
  destruct (Z.ltb_spec 0x7fffffffffffffff i), (Z.ltb_spec i (0x7fffffffffffffff + 1)); try lia; [by rewrite andb_false_r | by rewrite andb_true_r].
Qed.

(** [m] ends with kind [k] and no error, the packer being fine if it was and [b], or with
    a [ValueError]. *)
Definition ends (m : E elemKind) (o : option elemKind) (b : bool) : Prop :=
  ∀ e, err e = None → ∃ e',
    match o with
    | Some k => m e = Done (k, e') ∧ err e' = None ∧ baseline e' = max (baseline e) Implemented ∧
                fine (packer e') = fine (packer e) && b
    | None => m e = Done (no_kind, e') ∧ ∃ msg, err e' = Some (ValueError msg)
    end.

(** [m] writes, and nothing else. *)
Definition quiet (m : E unit) (b : bool) : Prop :=
  ∀ e, ∃ p, m e = Done (tt, e <| packer := p |>) ∧ fine p = fine (packer e) && b.

Lemma quiet_write f b : keeps f b → quiet (write f) b.
Proof. intros Hf e. eexists. split; [reflexivity | apply Hf]. Qed.
Lemma quiet_then m m' b : quiet m true → quiet m' b → quiet (m;; m') b.
Proof.
  intros Hm Hm' e. destruct (Hm e) as (p & E & Hp). destruct (Hm' (e <| packer := p |>)) as (p' & E' & Hp').
  exists p'. unfold mbind, GoM_bind. rewrite E, E'. split; [done |]. rewrite Hp'. rewrite andb_true_r in Hp. by rewrite <- Hp.
Qed.
Hint Resolve quiet_write quiet_then keeps_Int64 keeps_emit keeps_String keeps_Bytes keeps_Uint64
  keeps_listHeader keeps_vector : encoding.
Hint Extern 1 (keeps (Packer.StructHeader _ _) _) => apply keeps_StructHeader; lia : encoding.
Hint Extern 1 (keeps (Packer.Int _) _) => apply keeps_Int64 : encoding.
Hint Extern 1 (keeps (Packer.Uint32 _) _) => apply keeps_Int64 : encoding.
Hint Extern 1 (keeps (Packer.Float64 _) _) => apply keeps_emit : encoding.
Hint Extern 1 (keeps Packer.Nil _) => apply keeps_emit : encoding.

Lemma keeps_Bool b : keeps (Packer.Bool b) true.
Proof. intros p. unfold Packer.Bool. destruct b; apply keeps_emit. Qed.
Lemma keeps_UUID u : keeps (Packer.UUID u) true.
Proof. intros p. unfold Packer.UUID. by rewrite andb_true_r. Qed.
Hint Resolve keeps_Bool keeps_UUID : encoding.

Lemma quiet_vector t l : quiet (write_vector t l) (Packer.len l * Z.of_nat (vec_width t) <? 2 ^ 32).
Proof. destruct t; apply quiet_write, keeps_vector. Qed.
Hint Resolve quiet_vector : encoding.

Lemma ends_refuse msg b : ends (refuse msg) None b.
Proof.
  intros [p bl er] He. simpl in He. subst er. eexists. split; [reflexivity |]. by eexists.
Qed.

Lemma accept_refused t p b :
  map_get t permitted = None →
  ∃ e' msg, accept permitted t (mkEncoder p b None) = Done (false, e') ∧ err e' = Some (ValueError msg).
Proof.
  intros Ht. unfold accept. rewrite Ht.
  destruct (map_get t typeBaselines); eexists _, _; (split; [reflexivity | done]).
Qed.

Lemma ends_packAs t k m b : typeName k = t → quiet m b → ends (packAs permitted t k m) (allowed k) b.
Proof.
  intros <- Hm [p b' er] He. simpl in He. subst er. unfold packAs, allowed.
  destruct (map_get (typeName k) permitted) as [v |] eqn:Ev.
  - unfold accept. rewrite Ev, (versions _ _ Ev). unfold go_modify, mret, GoM_ret, mbind, GoM_bind.
    match goal with |- context [m ?s] => destruct (Hm s) as (p' & -> & Hp') end. by eexists.
  - destruct (accept_refused _ p b' Ev) as (e' & msg & E & He). unfold mbind, GoM_bind. rewrite E. eauto.
Qed.

Lemma ends_unless m o b : ends m o b → ends (unless_failed m) o b.
Proof.
  intros Hm e He. destruct (Hm e He) as [e' E]. exists e'. unfold unless_failed, go_get, mbind, GoM_bind.
  by rewrite He.
Qed.

Lemma ends_packVector t l inList :
  ends (packVector permitted inList (write_vector t l)) (if inList then None else allowed (plain TypeVector))
    (Packer.len l * Z.of_nat (vec_width t) <? 2 ^ 32).
Proof.
  destruct inList; [apply ends_refuse |]. apply ends_packAs; [done |]. apply quiet_vector.
Qed.

(** The loop over the elements, and [homogeneous] computed its way. *)
Fixpoint agree (first : option elemKind) (ks : list (option elemKind)) : bool :=
  match ks with
  | [] => true
  | None :: _ => false
  | Some k :: ks =>
      match first with
      | None => agree (Some k) ks
      | Some f => bool_decide (k = f) && agree first ks
      end
  end.

Lemma agree_some f ks : agree (Some f) ks = bool_decide (Forall (λ k, k = Some f) ks).
Proof.
  induction ks as [| [k |] ks IH]; simpl.
  - done.
  - rewrite IH. apply eq_bool_prop_intro. rewrite andb_True, !bool_decide_spec, Forall_cons.
    naive_solver.
  - done.
Qed.

Lemma agree_homogeneous ks : agree None ks = homogeneous ks.
Proof.
  destruct ks as [| [k |] ks]; [done | |].
  - simpl. rewrite agree_some. apply bool_decide_ext. naive_solver.
  - symmetry. by apply bool_decide_eq_false; intros [].
Qed.

Lemma ends_mixed f k b : ends (mixed f k) None b.
Proof. unfold mixed. case_decide; apply ends_refuse. Qed.

Lemma ends_elements {A} (element : A → E elemKind) (kind : A → option elemKind) (ok : A → bool) l first e :
  (∀ x, ends (element x) (kind x) (ok x)) → err e = None → max (baseline e) Implemented = baseline e →
  ∃ e', if agree first (kind <$> l)
        then elements element l first e = Done (plain TypeList, e') ∧ err e' = None ∧ baseline e' = baseline e ∧
             fine (packer e') = fine (packer e) && forallb ok l
        else elements element l first e = Done (no_kind, e') ∧ ∃ msg, err e' = Some (ValueError msg).
Proof.
  intros Hel. revert first e. induction l as [| x l IH]; intros first e He Hb; simpl.
  - exists e. by rewrite andb_true_r.
  - destruct (Hel x e He) as [e1 H1]. unfold mbind, GoM_bind, go_get. destruct (kind x) as [k |].
    + destruct H1 as (-> & He1 & Hb1 & Hp1). rewrite He1, andb_assoc, <- Hp1.
      rewrite Hb in Hb1. rewrite <- Hb1 in Hb |- *.
      destruct first as [f |].
      * destruct (decide (k ≠ f)) as [Hk | Hk].
        { rewrite bool_decide_eq_false_2 by done. apply (ends_mixed f k true e1 He1). }
        apply dec_stable in Hk. rewrite bool_decide_eq_true_2 by done. simpl.
        destruct (IH (Some f) e1 He1 Hb) as [e' H']. by exists e'.
      * destruct (IH (Some k) e1 He1 Hb) as [e' H']. by exists e'.
    + destruct H1 as (-> & msg & Hm). exists e1. rewrite Hm. split; [done | by exists msg].
Qed.

Lemma ends_packList {A} (element : A → E elemKind) (kind : A → option elemKind) (ok : A → bool) l inList :
  (∀ x, ends (element x) (kind x) (ok x)) →
  ends (packList permitted element l inList) (if inList then None else listKind (kind <$> l))
    ((Packer.len l <? 0xffffffff) && forallb ok l).
Proof.
  intros Hel. destruct inList; [apply ends_refuse |]. intros [p b er] He. simpl in He. subst er.
  unfold packList, listKind, allowed. rewrite <- agree_homogeneous. simpl typeName.
  destruct (map_get TypeList permitted) as [v |] eqn:Ev.
  - unfold accept. rewrite Ev, (versions _ _ Ev). unfold write, go_modify, mret, GoM_ret, mbind, GoM_bind.
    match goal with |- context [elements element l None ?s] =>
      destruct (ends_elements element kind ok l None s Hel) as [e' H'] end; [done | apply max_again |].
    exists e'. destruct (agree None (kind <$> l)); [| apply H'].
    destruct H' as (-> & He' & Hb' & Hp'). split_and!; [done.. |]. rewrite Hp'. simpl.
    rewrite andb_assoc. f_equal. apply (keeps_listHeader (Packer.len l) 0x90 0xd4 p).
  - destruct (accept_refused _ p b Ev) as (e' & msg & E & He). exists e'. unfold mbind, GoM_bind. rewrite E.
    destruct (agree None (kind <$> l)); (split; [done | by exists msg]).
Qed.

(** ** The values *)

Lemma quiet_packZonedDateTime t :
  quiet (packZonedDateTime t)
    (match Timezone.id_of t with Some id => Packer.strlen id <? 0xffffffff | None => true end).
Proof. unfold packZonedDateTime. case_match; auto 12 with encoding. Qed.
Hint Resolve quiet_packZonedDateTime : encoding.
Ltac quiet_steps :=
  unfold packDate, packZonedTime, packLocalTime, packLocalDateTime, packPoint2D, packPoint3D, packDuration;
  auto 12 with encoding.

Lemma ends_atom x : ends (value_ typeOf permitted x true) (atomKind x) (packable x).
Proof.
  induction x; simpl; apply ends_unless; try (apply ends_refuse); try done;
    try (apply ends_packAs; [done | quiet_steps]).
Qed.

Lemma encode_settles x :
  ∃ r, encode typeOf permitted x = Done r ∧
  match propertyKind x with
  | None => ∃ msg, r = inl (ValueError msg)
  | Some k =>
      if packable x then ∃ bs, r = inr (mkEncoded bs (typeName k) Implemented)
      else ∃ p, r = inl (PackProblem p)
  end.
Proof.
  assert (Hv : ends (value_ typeOf permitted x false) (propertyKind x) (packable x)).
  { assert (Hl : ∀ l, ends (packList permitted (λ x, value_ typeOf permitted x true) l false)
                        (listKind (atomKind <$> l)) ((Packer.len l <? 0xffffffff) && forallb packable l)).
    { intros l. apply (ends_packList _ _ _ _ false), ends_atom. }
    assert (Hz : ∀ (f : Z → E unit) t (l : list Z), (∀ i, quiet (f i) true) →
      ends (packList permitted (λ i, unless_failed (packAs permitted t (plain t) (f i))) l false)
        (listKind ((λ _, allowed (plain t)) <$> l)) (Packer.len l <? 0xffffffff)).
    { intros f t l Hf. rewrite <- (andb_true_r (_ <? _)).
      replace true with (forallb (λ _ : Z, true) l) by (by induction l).
      apply (ends_packList _ _ _ _ false). intros i. by apply ends_unless, ends_packAs. }
    induction x; simpl; apply ends_unless; try done; try (apply ends_refuse); try apply Hl;
      try (apply ends_packAs; [done | quiet_steps]).
    1,2,4: apply Hz; intros i; auto with encoding.
    apply (ends_packList _ _ _ _ false). intros a. apply ends_unless, ends_packAs; [done | auto with encoding]. }
  unfold encode. set (e0 := mkEncoder _ _ _). destruct (Hv e0 eq_refl) as [e' H'].
  destruct (propertyKind x) as [k |].
  - destruct H' as (-> & He & Hb & Hp). unfold Packer.End_. unfold fine in Hp. rewrite He.
    simpl in Hp.
    destruct (Packer.err (packer e')) as [p |]; rewrite <- Hp;
      eexists; (split; [reflexivity |]); [by eexists |]. rewrite Hb. by eexists.
  - destruct H' as (-> & msg & He). destruct (Packer.End_ (packer e')) as [buf o]. rewrite He.
    eexists. split; [reflexivity |]. eauto.
Qed.
End Accepted.

Lemma table_versions (m : gomap Version) :
  Forall (λ kb, kb.2 = Implemented) m → ∀ t b, map_get t m = Some b → b = Implemented.
Proof.
  intros Hm t b Ht. induction Hm as [| [k v] m Hv _ IH]; [done |]. simpl in Ht.
  case_decide; [by simplify_eq | by apply IH].
Qed.

(** The outcome of encoding, against what is accepted and what fits. *)
Definition answers (kind : option encoder.elemKind) (fits : bool) (r : problem + encoder.Encoded) : Prop :=
  match kind with
  | None => ∃ msg, r = inl (ValueError msg)
  | Some k =>
      if fits then ∃ bs, r = inr (encoder.mkEncoded bs (encoder.typeName k) Implemented)
      else ∃ p, r = inl (PackProblem p)
  end.

Lemma encode_answers `{TzDb} typeOf x :
  (∃ r, encoder.EncodeValue typeOf x = Done r ∧ answers (propertyKind typeBaselines x) (packable x) r) ∧
  (∃ r, encoder.EncodeAAD typeOf x = Done r ∧ answers (propertyKind aadTypeBaselines x) (packable x) r).
Proof. split; apply encode_settles; apply table_versions; vm_compute; repeat constructor. Qed.

(** C30. Encoding always returns.  It refuses with a [ValueError] exactly the values
    [propertyKind] rules out: what is no property type, what the table of permitted
    types does not list, and lists that hold null, a vector, another list or elements
    of different kinds.  Of the others it refuses, with the error of the packer, exactly
    those that [packable] rules out: a uint64 from 2^63 on, a string, a list or a zone
    name of 2^32 - 1 or more, bytes or vector data of 2^32 or more, alone or in a list.
    Every value that is left is encoded, under its type's name and the baseline 1.0. *)
Theorem encode_accepts `{TzDb} typeOf x :
  (∃ r, encoder.EncodeValue typeOf x = Done r ∧ answers (propertyKind typeBaselines x) (packable x) r) ∧
  (∃ r, encoder.EncodeAAD typeOf x = Done r ∧ answers (propertyKind aadTypeBaselines x) (packable x) r).
Proof. apply encode_answers. Qed.

(** * Decoding any bytes *)

Section Returning.
Import decoder decode.

(** The bytes not consumed yet. *)
Definition left_in (d : decoder) : Z := Unpacker.len (unpacker d) - Unpacker.off (unpacker d).

(** Run from [d], [m] returns, in a well-formed state over the same buffer and
    without moving backwards. *)
Definition returns_at {A} (m : D A) (d : decoder) : Prop :=
  match m d with
  | Done (_, d') => wf (unpacker d') ∧ Unpacker.buf (unpacker d') = Unpacker.buf (unpacker d) ∧
                    Unpacker.off (unpacker d) <= Unpacker.off (unpacker d')
  | _ => False
  end.

(** [m] returns wherever at most [k - 2] bytes are left. *)
Definition returns {A} (k : nat) (m : D A) : Prop :=
  ∀ d, wf (unpacker d) → left_in d + 2 <= Z.of_nat k → returns_at m d.

Lemma returns_ret {A} k (a : A) : returns k (mret a).
Proof. intros d Hd _. by split_and!. Qed.

Lemma returns_bind {A B} k (m : D A) (f : A → D B) :
  returns k m → (∀ a, returns k (f a)) → returns k (m ≫= f).
Proof.
  intros Hm Hf d Hd Hk. specialize (Hm d Hd Hk). unfold returns_at, mbind, GoM_bind in *.
  destruct (m d) as [[a d1] | |]; [| done..]. destruct Hm as (Hd1 & Hb1 & Ho1).
  assert (Hk1 : left_in d1 + 2 <= Z.of_nat k).
  { unfold left_in, wf in *. rewrite Hb1 in *. lia. }
  specialize (Hf a d1 Hd1 Hk1). unfold returns_at in Hf.
  destruct (f a d1) as [[b d2] | |]; [| done..]. destruct Hf as (? & ? & ?).
  split_and!; [done | congruence | lia].
Qed.

Lemma returns_via {A} k (m : GoM Unpacker.Unpacker A) : safe m → returns k (via m).
Proof.
  intros Hm d Hd _. destruct (Hm (unpacker d) Hd) as (a & u & E & Hu & Hb & Ho).
  unfold returns_at, via. simpl. by rewrite E.
Qed.

Lemma returns_get {A} k (f : decoder → A) : returns k (go_get f).
Proof. intros d Hd _. by split_and!. Qed.

Lemma returns_setErr k p : returns k (setErr p).
Proof. intros d Hd _. unfold returns_at, setErr, go_modify. by destruct (err d). Qed.

Lemma returns_unsupported k s : returns k (unsupported s).
Proof. intros d Hd _. unfold returns_at, unsupported, go_modify. by destruct (err d). Qed.
End Returning.

#[export] Hint Resolve returns_ret returns_get returns_setErr returns_unsupported returns_via
  safe_pop safe_Next safe_Len safe_Int safe_Float safe_String safe_Bool safe_ByteArray safe_UUID : decoding.

(** One step of a decoder. *)
Ltac return_step :=
  match goal with
  | |- returns _ (_ ≫= _) => apply returns_bind; [| intros ?]
  | |- returns _ (if ?b then _ else _) => destruct b
  | |- returns _ (match ?x with _ => _ end) => destruct x
  | |- returns _ (let _ := _ in _) => cbv zeta
  | |- returns _ _ => solve [auto with decoding nocore]
  end.
Ltac returning := repeat return_step.

Section Decoders.
Import decoder decode.
Context (k : nat).

Lemma returns_field {A} t what (m : GoM Unpacker.Unpacker A) zero : safe m → returns k (field t what m zero).
Proof. intros Hm. unfold field, Next, Curr, malformed. returning. Qed.

Lemma returns_int : returns k int.
Proof. apply returns_field, safe_Int. Qed.
Lemma returns_float : returns k float.
Proof. apply returns_field, safe_Float. Qed.
Lemma returns_string : returns k string_.
Proof. apply returns_field, safe_String. Qed.
Lemma returns_bytes : returns k bytes.
Proof. apply returns_field, safe_ByteArray. Qed.
Lemma returns_malformed s : returns k (malformed s).
Proof. apply returns_setErr. Qed.
Lemma returns_require t : returns k (require t).
Proof. unfold require. returning. Qed.
Hint Resolve returns_int returns_float returns_string returns_bytes returns_malformed returns_require : decoding.

Lemma returns_unless m : returns k m → returns k (unless_failed m).
Proof. intros Hm. unfold unless_failed, failed. returning. Qed.

Lemma returns_checked t name n n' m : returns k m → returns k (checked t name n n' m).
Proof. intros Hm. unfold checked, fieldCount. returning. Qed.

Lemma returns_tagged `{TzDb} tag n : returns k (tagged tag n).
Proof.
  destruct tag; try (unfold tagged; returning; fail).
  all: unfold tagged, date, zonedTime, localTime, localDateTime, zonedDateTimeOffset, zonedDateTimeZoneId,
    duration, point2D, point3D, vector; apply returns_checked; returning; apply returns_unless; returning;
    unfold decodeVector; returning.
Qed.

Lemma returns_structure `{TzDb} : returns k structure.
Proof. unfold structure, unpackErr. returning. apply returns_tagged. Qed.

Lemma returns_scalar {A} t (m : GoM Unpacker.Unpacker A) f : safe m → returns k (scalar t m f).
Proof. intros Hm. unfold scalar. returning. Qed.

Lemma returns_items val n acc : returns k (val true) → returns k (items val n acc).
Proof.
  intros Hv. revert acc. induction n as [| n IH]; intros acc; simpl; [returning |].
  unfold failed, unpackErr. apply returns_bind; [done | intros v].
  return_step; [returning |]. return_step; [returning |]. destruct a, a0; returning.
Qed.

Lemma returns_value_case `{TzDb} val c inList : returns k (val true) → returns k (value_case val c inList).
Proof.
  intros Hv. unfold value_case. destruct c; try (apply returns_scalar; auto with decoding nocore; fail);
    try apply returns_structure; try (returning; fail).
  unfold list_, unpackErr. returning. by apply returns_items.
Qed.
End Decoders.

Section Total.
Import decoder decode.

(** After [Next], a byte was consumed, or the bytes are exhausted and the zero
    marker announces an integer. *)
Lemma Next_consumes d :
  wf (unpacker d) →
  ∃ d', Next d = Done (tt, d') ∧ wf (unpacker d') ∧
    Unpacker.buf (unpacker d') = Unpacker.buf (unpacker d) ∧
    Unpacker.off (unpacker d) <= Unpacker.off (unpacker d') ∧
    (left_in d' < left_in d ∨ Unpacker.Curr (unpacker d') = PackedInt).
Proof.
  intros Hwf. destruct (safe_pop (unpacker d) Hwf) as (b & u & E & Hu & Hb & Ho).
  unfold Next, via, Unpacker.Next, mbind, GoM_bind. simpl. rewrite E. simpl.
  eexists. split_and!; [done | | done | done |].
  - unfold wf in *; simpl. pose proof (numlenbytes_range b). lia.
  - unfold left_in; simpl. revert E. unfold Unpacker.pop, Unpacker.fail.
    destruct (Z.ltb_spec (Unpacker.off (unpacker d)) (Unpacker.len (unpacker d))).
    + case_match; intros; simplify_eq. left; simpl. rewrite wf_add by (done || lia). lia.
    + intros; simplify_eq. by right.
Qed.

Lemma returns_value `{TzDb} fuel inList : returns fuel (value_ fuel inList).
Proof.
  revert inList. induction fuel as [| fuel IH]; intros inList.
  { intros d Hd Hk. unfold left_in, wf in *. lia. }
  simpl. apply returns_unless. intros d Hd Hk.
  destruct (Next_consumes d Hd) as (d' & E & Hd' & Hb & Ho & Hp).
  assert (Hc : returns_at (c ← Curr; value_case (value_ fuel) c inList) d').
  { destruct Hp as [Hp | Hp].
    - apply (returns_value_case fuel); [apply IH | done | lia].
    - unfold returns_at, Curr, go_get, mbind, GoM_bind. rewrite Hp.
      apply (returns_scalar (Z.to_nat (left_in d' + 2))); [apply safe_Int | done |].
      unfold left_in, wf in *. lia. }
  unfold returns_at in *. unfold mbind at 1, GoM_bind at 1. rewrite E.
  revert Hc. destruct ((c ← Curr; value_case (value_ fuel) c inList) d') as [[v d2] | |]; [| done..].
  intros (? & ? & ?). split_and!; [done | congruence | lia].
Qed.

Lemma DecodeValue_returns `{TzDb} plaintext typeName r fuel :
  Packer.len plaintext < 2 ^ 32 - 16 → (length plaintext + 2 <= fuel)%nat →
  ∃ res, DecodeValue fuel plaintext typeName r = Done res.
Proof.
  intros Hl Hf. unfold DecodeValue. destruct (unsupportedBaseline typeName r); [by eexists |].
  assert (Hr : returns_at (value_ fuel false) (new_decoder plaintext r)).
  { apply returns_value; [by apply wf_reset |]. unfold left_in, new_decoder. simpl.
    rewrite uwrap_small by (unfold unsigned, Packer.len in *; lia). unfold Packer.len. lia. }
  unfold returns_at in Hr. destruct (value_ fuel false (new_decoder plaintext r)) as [[v d] | |]; [| done..].
  by eexists.
Qed.

(** Decoding any bytes, whatever type name and baseline they come with,
    returns a value or an error: with as much fuel as there are bytes, and two,
    neither a panic nor the end of the fuel is possible. *)
Theorem DecodeValue_total `{TzDb} plaintext typeName r fuel :
  Packer.len plaintext < 2 ^ 32 - 16 → (length plaintext + 2 <= fuel)%nat →
  ∃ res, DecodeValue fuel plaintext typeName r = Done res.
Proof. apply DecodeValue_returns. Qed.
End Total.

(** * Examples *)

Lemma encoding_roundtrip_witness :
  let _ := utc_host in
  ∃ bs, encoder.EncodeValue (λ _, "T") (GAnys [GInt 3; GPtr (GUint64 500)]) =
      Done (inr (encoder.mkEncoded bs TypeList Implemented)) ∧
    (∀ fuel, (2 <= fuel)%nat → Packer.len bs < 2 ^ 32 - 16 →
      decode.DecodeValue fuel bs TypeList Implemented = Done (inr (VList [VInt 3; VInt 500]))).
Proof.
  intros tz. apply (encoding_roundtrip (λ _, "T") _ (encoder.mkKind TypeList 0 0)).
  apply (pr_anys (encoder.mkKind TypeInteger 0 0)).
  - repeat constructor; unfold signed, unsigned; lia.
  - vm_compute. reflexivity.
Defined.

Lemma DecodeValue_total_witness :
  let _ := utc_host in ∃ res, decode.DecodeValue 5 [Byte.x91; Byte.xb1; Byte.x44] TypeList Implemented = Done res.
Proof. intros tz. apply DecodeValue_total; [vm_compute; reflexivity | simpl; lia]. Defined.
