(* ===== verification/StructureFacts.v ===== *)
(** The structure that carries an encrypted value: its bytes do not depend on the
    order in which Go iterates over the metadata, decoding them gives the structure
    back, and decoding any bytes returns. *)

From S2P Require Import Prelude GoTime Packer Values Errors Unpacker Reading Hydrator Messages Outgoing RoundTrip.
From S2P Require Import Encoding EncodingFacts.
From stdpp Require Import gmap sorting.
#[local] Open Scope Z_scope.
#[local] Open Scope go_scope.
Import scheme structure.

(** * The order of the entries *)

#[local] Instance key_le_total : Total key_le.
Proof. intros x y. unfold key_le. apply (total String.le). Qed.
#[local] Instance key_le_trans : Transitive key_le.
Proof. intros x y z. unfold key_le. apply transitivity. Qed.

Lemma entries_perm m : entries m ≡ₚ map_to_list m.
Proof. apply merge_sort_Permutation. Qed.

Lemma entries_keys m : NoDup (entries m).*1.
Proof. rewrite entries_perm. apply NoDup_fst_map_to_list. Qed.

Lemma entries_length m : length (entries m) = size m.
Proof. by rewrite entries_perm, length_map_to_list. Qed.

Lemma same_entry (l : list (string * metaval)) x y :
  NoDup l.*1 → x ∈ l → y ∈ l → x.1 = y.1 → x = y.
Proof.
  intros Hl Hx Hy E. destruct x as [k v], y as [k' v']. simpl in E. subst k'. f_equal.
  assert (A := elem_of_list_to_map_1 (M := gmap string) l k v Hl Hx).
  assert (B := elem_of_list_to_map_1 (M := gmap string) l k v' Hl Hy). congruence.
Qed.

(** Go iterates over a map in any order: sorting the keys of whichever order
    it takes gives one list of entries, so equal metadata is written as equal bytes. *)
Theorem entries_canonical m l : l ≡ₚ map_to_list m → merge_sort key_le l = entries m.
Proof.
  intros Hl. apply (StronglySorted_unique_strong key_le).
  - intros x y Hx Hy H1 H2. apply (same_entry (entries m)).
    + apply entries_keys.
    + revert Hx. by rewrite merge_sort_Permutation, Hl, <- entries_perm.
    + done.
    + by apply (anti_symm String.le).
  - apply StronglySorted_merge_sort; apply _.
  - apply StronglySorted_merge_sort; apply _.
  - by rewrite merge_sort_Permutation, entries_perm.
Qed.

(** * The round trip *)

(** Values PackStream can hold. *)
Definition metaval_ok (v : metaval) : Prop :=
  match v with
  | MString s => fits (Packer.strlen s)
  | MBytes b => Packer.len b < 0x100000000
  | MInt i => signed 64 i
  | MOther _ => False
  end.

(** What the Envelope profile produces. *)
Record encrypted_ok (e : Encrypted) : Prop := {
  eo_type : ProfileType e = ProfileTypeEnvelope;
  eo_version : ProfileVersion e = EnvelopeProfileVersion;
  eo_name : fits (Packer.strlen (ProfileName e));
  eo_cipher : Packer.len (CipherOutput e) < 0x100000000;
  eo_typeName : fits (Packer.strlen (TypeName e));
  eo_major : signed 64 (Major (Baseline e));
  eo_minor : signed 64 (Minor (Baseline e));
  eo_metadata : map_Forall (λ k v, fits (Packer.strlen k) ∧ metaval_ok v) (metadata e);
  eo_size : fits (Z.of_nat (size (metadata e)))
}.

Definition entry_ok (kv : string * metaval) : Prop := fits (Packer.strlen kv.1) ∧ metaval_ok kv.2.

(** The bytes of one entry. *)
Definition entry_bytes (kv : string * metaval) : list byte :=
  written (Packer.String kv.1) ++
  match kv.2 with
  | MString s => written (Packer.String s)
  | MBytes b => bytes_header (Packer.len b) ++ b
  | MInt i => written (Packer.Int64 i)
  | MOther _ => []
  end.

Lemma entries_ok (m : Metadata) :
  map_Forall (λ k v, fits (Packer.strlen k) ∧ metaval_ok v) m → Forall entry_ok (entries m).
Proof.
  intros Hm. rewrite entries_perm. apply Forall_forall. intros [k v] Hkv.
  apply elem_of_map_to_list in Hkv. by apply (Hm k v).
Qed.

Lemma pack_entry_appends kv :
  entry_ok kv → ∃ f, pack_entry kv = inr f ∧ appends f (entry_bytes kv).
Proof.
  intros [Hk Hv]. unfold pack_entry, entry_bytes.
  destruct kv as [k [s | b | i | t]]; simpl in *; [| | | done]; eexists; (split; [reflexivity |]);
    apply (appends_comp (Packer.String k)); try by apply String_appends.
  - by apply Bytes_appends.
  - apply Int64_appends.
Qed.

Lemma pack_entries_appends l p :
  Forall entry_ok l → pack_entries l p = inr (Packer.emit (concat (entry_bytes <$> l)) p).
Proof.
  intros Hl. revert p. induction Hl as [| kv l Hkv _ IH]; intros p; simpl.
  - f_equal. apply (appends_nil p).
  - destruct (pack_entry_appends kv Hkv) as (f & -> & Hf). rewrite IH, Hf. unfold Packer.emit. simpl.
    by rewrite <- app_assoc.
Qed.

(** The bytes of the fields, and of the whole structure. *)
Definition body_bytes (e : Encrypted) : list byte :=
  written (Packer.String (ProfileType e)) ++ written (Packer.Int64 (ProfileVersion e)) ++
  written (Packer.String (ProfileName e)) ++
  (bytes_header (Packer.len (CipherOutput e)) ++ CipherOutput e) ++
  written (Packer.String (TypeName e)) ++ written (Packer.Int64 (Major (Baseline e))) ++
  written (Packer.Int64 (Minor (Baseline e))) ++
  written (Packer.MapHeader (Z.of_nat (size (metadata e)))) ++
  concat (entry_bytes <$> entries (metadata e)).

Lemma EncodeEncrypted_bytes e :
  encrypted_ok e →
  EncodeEncrypted e = inr ([encryptedValueVersion; to_byte (0xb0 + 8); encryptedTag] ++ body_bytes e).
Proof.
  intros He. unfold EncodeEncrypted. rewrite pack_entries_appends by (by apply entries_ok, He).
  unfold Packer.MapHeader. rewrite listHeader_appends by apply He. unfold pack_fields, Packer.Int.
  rewrite StructHeader_appends by done. rewrite !Int64_appends.
  rewrite Bytes_appends by apply He.
  rewrite (String_appends (ProfileName e)) by apply He. rewrite (String_appends (TypeName e)) by apply He.
  rewrite (eo_type _ He), (String_appends ProfileTypeEnvelope) by done.
  unfold Packer.End_, Packer.emit, body_bytes. simpl.
  rewrite (eo_type _ He). by rewrite <- !app_assoc.
Qed.

(** ** Reading the metadata *)

Section Reading.
Import decode.

(** The entries, added one after the other. *)
Definition add_entries (m : Metadata) (l : list (string * metaval)) : Metadata :=
  foldl (λ m kv, <[kv.1 := kv.2]> m) m l.

Lemma add_entries_map l m : NoDup l.*1 → add_entries m l = list_to_map l ∪ m.
Proof.
  revert m. induction l as [| [k v] l IH]; intros m Hl; simpl; [by rewrite map_empty_union |].
  apply NoDup_cons in Hl as [Hk Hl]. unfold add_entries in *. simpl. rewrite IH by done.
  rewrite <- insert_union_r by (by apply not_elem_of_list_to_map). apply insert_union_l.
Qed.

(** What follows a value that was read. *)
Lemma item_next_case {A B} (m : GoM Unpacker.Unpacker A) (k : A → D B) (c : packed → D B) t e1 e2 a b :
  item m t e1 a → c t = (x ← via m; k x) → reads (k a) e2 b →
  reads (Next;; t ← Curr; c t) (e1 ++ e2) b.
Proof.
  intros Hm Hc Hk. eapply item_next, (item_curr_case _ t). rewrite Hc.
  eapply item_bind; [by apply item_via | done].
Qed.

Lemma reads_metadata_loop l m :
  Forall entry_ok l →
  reads (metadata_loop (length l) m) (concat (entry_bytes <$> l)) (add_entries m l).
Proof.
  intros Hl. revert m. induction Hl as [| [k v] l [Hk Hv] _ IH]; intros m; simpl; [apply reads_ret |].
  unfold entry_bytes. cbn [fst snd]. rewrite <- app_assoc.
  eapply reads_bind; [by apply reads_string |].
  rewrite <- (app_nil_l (_ ++ concat _)). eapply reads_bind; [apply reads_failed |]. cbn iota.
  simpl in Hv. destruct v as [s | b | i | t]; [| | | done].
  - eapply (item_next_case Unpacker.String); [by apply item_String | reflexivity | apply IH].
  - eapply (item_next_case Unpacker.ByteArray); [by apply item_ByteArray | reflexivity | apply IH].
  - eapply (item_next_case Unpacker.Int); [by apply item_Int | reflexivity | apply IH].
Qed.

Lemma reads_metadata (m : Metadata) :
  map_Forall (λ k v, fits (Packer.strlen k) ∧ metaval_ok v) m → fits (Z.of_nat (size m)) →
  reads metadata_ (written (Packer.MapHeader (Z.of_nat (size m))) ++ concat (entry_bytes <$> entries m)) m.
Proof.
  intros Hm Hs. unfold metadata_. eapply item_next, item_curr_is, item_bind.
  { apply item_via, item_Len; [constructor |]. unfold fits in Hs. lia. }
  rewrite <- (app_nil_l (concat _)). eapply reads_bind; [apply reads_unpackErr |]. cbn iota.
  rewrite Nat2Z.id, <- entries_length.
  assert (E : add_entries ∅ (entries m) = m).
  { rewrite add_entries_map by apply entries_keys. rewrite map_union_empty.
    rewrite <- (list_to_map_to_list m) at 2. apply list_to_map_proper; [apply entries_keys | apply entries_perm]. }
  pose proof (reads_metadata_loop (entries m) ∅ (entries_ok m Hm)) as Hl. by rewrite E in Hl.
Qed.

Lemma reads_err : reads (go_get decoder.err : D (option problem)) [] None.
Proof.
  intros d rest [Hd _] Hr. exists (host_get d). rewrite host_set_get. split; [| done].
  unfold go_get. by rewrite Hd.
Qed.

Lemma reads_bind_nil {A B} (m : D A) (k : A → D B) e a b :
  reads m [] a → reads (k a) e b → reads (m ≫= k) e b.
Proof. intros Hm Hk. rewrite <- (app_nil_l e). by eapply reads_bind. Qed.

Lemma reads_encrypted_fields e : encrypted_ok e → reads encrypted_fields (body_bytes e) (inr e).
Proof.
  intros He. unfold encrypted_fields, body_bytes. rewrite (eo_type _ He), (eo_version _ He).
  eapply reads_bind; [by apply reads_string |]. eapply reads_bind; [by apply reads_int |].
  eapply reads_bind_nil; [apply reads_err |]. cbn iota.
  rewrite decide_False by (intros [Hn | Hn]; by apply Hn). unfold envelope.
  eapply reads_bind; [apply reads_string, He |]. eapply reads_bind; [apply reads_bytes, He |].
  eapply reads_bind; [apply reads_string, He |]. eapply reads_bind; [apply reads_int, He |].
  eapply reads_bind; [apply reads_int, He |]. rewrite <- (app_nil_r (written (Packer.MapHeader _) ++ _)).
  eapply reads_bind; [apply reads_metadata; apply He |].
  eapply reads_bind_nil; [apply reads_err |]. eapply reads_bind_nil; [apply reads_unpackErr |].
  apply reads_ret_eq. destruct e as [pt pv n c t [ma mi] m]. destruct He as [Ht Hv _ _ _ _ _ _ _].
  simpl in *. by subst.
Qed.

Lemma reads_encrypted_struct e r :
  reads encrypted_fields e r → reads encrypted_struct ([to_byte (0xb0 + 8); encryptedTag] ++ e) r.
Proof.
  intros Hs. unfold encrypted_struct. eapply item_next, item_curr_is.
  exists (to_byte (0xb0 + 8)), (encryptedTag :: e). rewrite struct_marker by done. split_and!; [done.. |].
  intros s rest Hok Hr Hm _.
  destruct (reads_pop encryptedTag (host_get s) (e ++ rest) I Hr) as (u1 & E1 & Hr1).
  change (Unpacker.pop (host_get s) = Done (encryptedTag, u1)) in E1.
  assert (Hm1 : Unpacker.mrk u1 = mkMarker PackedStruct 8 0).
  { rewrite struct_marker in Hm by done. unfold Unpacker.pop, Unpacker.fail in E1.
    rewrite <- Hm. unfold Unpacker.setErr in E1. simpl in E1. by repeat case_match; simplify_eq. }
  destruct (Hs (host_set u1 s) rest) as (u2 & E2 & Hr2).
  { by apply host_ok_set. }
  { by rewrite host_get_set. }
  exists u2. split; [| done]. rewrite host_set_set in E2. rewrite <- E2.
  unfold via, Unpacker.StructTag, Unpacker.Len, mbind, GoM_bind. rewrite E1.
  rewrite decide_False by (intros Hn; by apply Hn). rewrite host_get_set, Hm1. simpl.
  unfold decoder.set_unpacker. by simpl.
Qed.
End Reading.

Lemma structure_read e :
  encrypted_ok e →
  ∃ bs, EncodeEncrypted e = inr bs ∧
    (Packer.len bs < 2 ^ 32 - 16 → DecodeEncrypted bs = Done (inr e)).
Proof.
  intros He. eexists. split; [by apply EncodeEncrypted_bytes |]. intros Hl. simpl.
  set (bs := to_byte (176 + 8) :: encryptedTag :: body_bytes e) in *.
  assert (Hr : at_rest (host_get (decode.new_decoder bs Implemented)) (bs ++ [])).
  { rewrite app_nil_r. split_and!; [| done..]. apply wf_reset; [| done].
    unfold Packer.len in *. simpl length in *. lia. }
  destruct (reads_encrypted_struct _ _ (reads_encrypted_fields e He)
              (decode.new_decoder bs Implemented) [] ltac:(done) Hr) as (u & -> & _). done.
Qed.

(** What the Envelope profile produces, within the limits of PackStream, is
    encoded, and decoding the bytes gives the structure back, every metadata entry
    included. *)
Theorem encrypted_roundtrip e :
  encrypted_ok e →
  ∃ bs, EncodeEncrypted e = inr bs ∧
    (Packer.len bs < 2 ^ 32 - 16 → DecodeEncrypted bs = Done (inr e)).
Proof. apply structure_read. Qed.

(** * Decoding any bytes *)

Section Any.
Import decoder decode.

(** The errors met so far are about malformed bytes. *)
Definition tidy (d : decoder) : Prop :=
  match err d with None | Some (MalformedError _) => True | _ => False end.
Definition keeps_tidy {A} (m : D A) : Prop := ∀ d a d', tidy d → m d = Done (a, d') → tidy d'.

Lemma tidy_ret {A} (a : A) : keeps_tidy (mret a).
Proof. intros d x d' Hd E. by unfold mret, GoM_ret in E; simplify_eq. Qed.
Lemma tidy_bind {A B} (m : D A) (f : A → D B) : keeps_tidy m → (∀ a, keeps_tidy (f a)) → keeps_tidy (m ≫= f).
Proof.
  intros Hm Hf d b d' Hd E. unfold mbind, GoM_bind in E. destruct (m d) as [[a d1] | |] eqn:E1; [| done..].
  eapply Hf; [by eapply Hm | done].
Qed.
Lemma tidy_via {A} (m : GoM Unpacker.Unpacker A) : keeps_tidy (via m : D A).
Proof. intros d a d' Hd E. unfold via in E. by repeat case_match; simplify_eq. Qed.
Lemma tidy_get {A} (f : decoder → A) : keeps_tidy (go_get f).
Proof. intros d x d' Hd E. by unfold go_get in E; simplify_eq. Qed.
Lemma tidy_malformed s : keeps_tidy (malformed s).
Proof.
  intros d x d' Hd E. unfold malformed, setErr, go_modify in E. simplify_eq. unfold tidy in *.
  destruct (err d) as [p |] eqn:E2; simpl; by rewrite ?E2.
Qed.
Hint Resolve tidy_ret tidy_bind tidy_via tidy_get tidy_malformed : decoding.

Lemma tidy_field {A} t what (m : GoM Unpacker.Unpacker A) zero : keeps_tidy (field t what m zero).
Proof.
  apply tidy_bind; [apply tidy_via | intros _]. apply tidy_bind; [apply tidy_get | intros c].
  case_decide; auto with decoding.
Qed.

Lemma tidy_loop n m : keeps_tidy (metadata_loop n m).
Proof.
  revert m. induction n as [| n IH]; intros m; simpl; [apply tidy_ret |].
  apply tidy_bind; [apply tidy_field | intros key]. apply tidy_bind; [apply tidy_get | intros [] ];
    [apply tidy_ret |].
  apply tidy_bind; [apply tidy_via | intros _]. apply tidy_bind; [apply tidy_get | intros c].
  destruct c; auto with decoding.
Qed.

Lemma tidy_metadata : keeps_tidy metadata_.
Proof.
  apply tidy_bind; [apply tidy_via | intros _]. apply tidy_bind; [apply tidy_get | intros c].
  case_decide; [auto with decoding |]. apply tidy_bind; [apply tidy_via | intros n].
  apply tidy_bind; [apply tidy_get | intros []]; [apply tidy_ret | apply tidy_loop].
Qed.

(** [m] returns, and what it returns satisfies [P]. *)
Definition gives {A} (P : A → Prop) (m : D A) : Prop :=
  ∀ d, wf (unpacker d) → tidy d →
  ∃ a d', m d = Done (a, d') ∧ P a ∧ wf (unpacker d') ∧ tidy d'.

Lemma gives_bind {A B} (P : A → Prop) (Q : B → Prop) m (f : A → D B) :
  gives P m → (∀ a, P a → gives Q (f a)) → gives Q (m ≫= f).
Proof.
  intros Hm Hf d Hd Ht. destruct (Hm d Hd Ht) as (a & d1 & E & Ha & Hd1 & Ht1).
  destruct (Hf a Ha d1 Hd1 Ht1) as (b & d2 & E2 & ?). exists b, d2. unfold mbind, GoM_bind. by rewrite E.
Qed.

Lemma gives_ret {A} (P : A → Prop) a : P a → gives P (mret a).
Proof. intros Ha d Hd Ht. by exists a, d. Qed.

Lemma gives_of_returns {A} (m : D A) : (∀ k, returns k m) → keeps_tidy m → gives (λ _, True) m.
Proof.
  intros Hm Hk d Hd Ht. specialize (Hm (Z.to_nat (left_in d + 2)) d Hd). unfold returns_at in Hm.
  destruct (m d) as [[a d'] | |] eqn:E; [| exfalso; apply Hm; unfold left_in, wf in *; lia..].
  exists a, d'. split_and!; [done.. | | by eapply Hk].
  apply Hm. unfold left_in, wf in *. lia.
Qed.

(** A bind of a step that is only known to return. *)
Lemma gives_step {A B} (Q : B → Prop) (m : D A) (f : A → D B) :
  (∀ k, returns k m) → keeps_tidy m → (∀ a, gives Q (f a)) → gives Q (m ≫= f).
Proof. intros H1 H2 Hf. eapply gives_bind; [by apply gives_of_returns | auto]. Qed.

(** The error, when there is one, is about malformed bytes. *)
Lemma gives_err : gives (λ o : option problem, ∀ p, o = Some p → ∃ msg, p = MalformedError msg) (go_get err).
Proof.
  intros d Hd Ht. exists (err d), d. split_and!; [done | | done..]. intros p Ep. unfold tidy in Ht.
  rewrite Ep in Ht. destruct p; naive_solver.
Qed.

Lemma returns_metadata_loop k n m : returns k (metadata_loop n m).
Proof.
  revert m. induction n as [| n IH]; intros m; simpl; [apply returns_ret |].
  unfold failed, Curr, Next. apply returns_bind; [apply returns_string | intros key].
  apply returns_bind; [apply returns_get | intros []]; [apply returns_ret |].
  apply returns_bind; [apply returns_via, safe_Next | intros _]. apply returns_bind; [apply returns_get | intros c].
  destruct c; try (return_step; [returning | apply IH]); unfold malformed; returning.
Qed.

Lemma returns_metadata k : returns k metadata_.
Proof.
  unfold metadata_, Next, Curr, unpackErr, malformed. returning; apply returns_metadata_loop.
Qed.

(** What decoding can answer. *)
Definition answer_ok (r : problem + Encrypted) : Prop :=
  match r with
  | inr e => ProfileType e = ProfileTypeEnvelope ∧ ProfileVersion e = EnvelopeProfileVersion ∧
             Packer.len (CipherOutput e) < 2 ^ 32 - 16
  | inl (MalformedError _) => True
  | inl (UnsupportedProfileError t v) => t ≠ ProfileTypeEnvelope ∨ v ≠ EnvelopeProfileVersion
  | inl _ => False
  end.

(** Bytes that were read are part of the buffer. *)
Lemma ByteArray_bound u b u' :
  wf u → Unpacker.ByteArray u = Done (b, u') → Packer.len b < 2 ^ 32 - 16.
Proof.
  intros Hu E. unfold Unpacker.ByteArray, mbind, GoM_bind in E.
  destruct (safe_Len u Hu) as (n & u1 & E1 & Hu1 & Hb1 & _). rewrite E1 in E.
  unfold Unpacker.read, Unpacker.fail in E. unfold wf, Packer.len in *.
  repeat case_match; simplify_eq; simpl; [lia |]. rewrite length_take, length_drop. lia.
Qed.

Lemma gives_bytes : gives (λ b, Packer.len b < 2 ^ 32 - 16) bytes.
Proof.
  apply gives_step; [intros; apply returns_via, safe_Next | apply tidy_via | intros _].
  apply gives_step; [intros; apply returns_get | apply tidy_get | intros c]. case_decide.
  - apply gives_step; [intros; apply returns_malformed | apply tidy_malformed | intros _]. by apply gives_ret.
  - intros d Hd Ht. destruct (safe_ByteArray (unpacker d) Hd) as (b & u & E & Hu & _).
    exists b, (set_unpacker u d). split_and!; [| exact (ByteArray_bound _ _ _ Hd E) | done | done].
    unfold via. simpl. by rewrite E.
Qed.

Lemma gives_envelope : gives answer_ok (envelope ProfileTypeEnvelope EnvelopeProfileVersion).
Proof.
  unfold envelope.
  apply gives_step; [intros; apply returns_string | apply tidy_field | intros name].
  eapply gives_bind; [apply gives_bytes | intros cipher Hc].
  do 3 (apply gives_step; [intros; by apply returns_field; auto with decoding nocore | apply tidy_field | intros ?]).
  apply gives_step; [apply returns_metadata | apply tidy_metadata | intros m].
  eapply gives_bind; [apply gives_err | intros o Ho].
  apply gives_step; [intros; apply returns_get | apply tidy_get | intros u].
  apply gives_ret. destruct o as [p |]; [by destruct (Ho p eq_refl) as [msg ->] |].
  by destruct u.
Qed.

Lemma gives_encrypted_struct : gives answer_ok encrypted_struct.
Proof.
  unfold encrypted_struct, stop.
  apply gives_step; [intros; apply returns_via, safe_Next | apply tidy_via | intros _].
  apply gives_step; [intros; apply returns_get | apply tidy_get | intros c].
  case_decide; [by apply gives_ret |].
  apply gives_step; [intros; apply returns_via, safe_pop | apply tidy_via | intros tag].
  case_decide; [by apply gives_ret |].
  apply gives_step; [intros; apply returns_via, safe_Len | apply tidy_via | intros n].
  case_decide; [by apply gives_ret |]. unfold encrypted_fields.
  do 2 (apply gives_step; [intros; by apply returns_field; auto with decoding nocore | apply tidy_field | intros ?]).
  eapply gives_bind; [apply gives_err | intros [p |] Ho].
  - destruct (Ho p eq_refl) as [msg ->]. by apply gives_ret.
  - case_decide as Hp; [by apply gives_ret |].
    apply Decidable.not_or in Hp as [->%dec_stable ->%dec_stable]. apply gives_envelope.
Qed.
End Any.

Lemma encrypted_answers value :
  Packer.len value < 2 ^ 32 - 16 → ∃ r, DecodeEncrypted value = Done r ∧ answer_ok r.
Proof.
  intros Hl. unfold DecodeEncrypted. destruct value as [| v rest]; [by eexists |].
  case_decide; [by eexists |].
  destruct (gives_encrypted_struct (decode.new_decoder rest Implemented)) as (r & d & -> & Hr & _); [| done |].
  - apply wf_reset; [| done]. unfold Packer.len in *. simpl in Hl. lia.
  - by exists r.
Qed.

(** Decoding the bytes of an encrypted value, whatever they are, returns: a
    structure of the Envelope profile, version 1; the report of another profile; or
    the report that the bytes are malformed. *)
Theorem DecodeEncrypted_total value :
  Packer.len value < 2 ^ 32 - 16 → ∃ r, DecodeEncrypted value = Done r ∧ answer_ok r.
Proof. apply encrypted_answers. Qed.

(** * What an encoded structure says

    The packer reports whatever does not fit, so that a structure that was encoded
    is within the limits. *)

Lemma listHeader_none l a b p :
  Packer.err (Packer.listHeader l a b p) = None → fits l ∧ Packer.err p = None.
Proof. unfold Packer.listHeader, fits. repeat case_match; zbool; simpl; intros; simplify_eq; (split; [lia | done]). Qed.

Lemma String_none t p : Packer.err (Packer.String t p) = None → fits (Packer.strlen t) ∧ Packer.err p = None.
Proof. apply listHeader_none. Qed.

Lemma Int64_none i p : Packer.err (Packer.Int64 i p) = None → Packer.err p = None.
Proof. unfold Packer.Int64. by repeat case_match. Qed.

Lemma Bytes_none b p : Packer.err (Packer.Bytes b p) = None → Packer.len b < 0x100000000 ∧ Packer.err p = None.
Proof. unfold Packer.Bytes, Packer.bytesHeader. repeat case_match; zbool; simplify_eq; simpl; intros; simplify_eq; (split; [lia | done]). Qed.

Lemma pack_entries_none l p q :
  pack_entries l p = inr q → Packer.err q = None →
  Forall (λ kv, ∀ i, kv.2 = MInt i → signed 64 i) l → Forall entry_ok l ∧ Packer.err p = None.
Proof.
  intros E Hq Hl. revert p E. induction Hl as [| [k v] l Hi _ IH]; intros p E; simpl in E; [by simplify_eq |].
  unfold pack_entry in E. simpl in *. unfold entry_ok.
  destruct v as [t | b | i | t]; [| | | done]; apply IH in E as [Hf E]; simpl.
  - apply String_none in E as [Hv [Hk E]%String_none]. split; [by constructor | done].
  - apply Bytes_none in E as [Hv [Hk E]%String_none]. split; [by constructor | done].
  - apply Int64_none, String_none in E as [Hk E]. split; [constructor; [split; [done | by apply Hi] | done] | done].
Qed.

Lemma EncodeEncrypted_ok e bs :
  EncodeEncrypted e = inr bs →
  ProfileType e = ProfileTypeEnvelope → ProfileVersion e = EnvelopeProfileVersion →
  signed 64 (Major (Baseline e)) → signed 64 (Minor (Baseline e)) →
  map_Forall (λ _ v, ∀ i, v = MInt i → signed 64 i) (metadata e) → encrypted_ok e.
Proof.
  intros E Ht Hv Hma Hmi Hi. unfold EncodeEncrypted in E.
  destruct (pack_entries _ _) as [msg | q] eqn:Eq; [done |].
  destruct (Packer.End_ q) as [buf [p |]] eqn:Ee; [done |]. unfold Packer.End_ in Ee. injection Ee as _ Hq.
  apply pack_entries_none in Eq as [Hf Hp]; [| done |].
  - apply listHeader_none in Hp as [Hs Hp]. unfold pack_fields in Hp.
    apply Int64_none, Int64_none, String_none in Hp as [Htn Hp]. apply Bytes_none in Hp as [Hc Hp].
    apply String_none in Hp as [Hn _]. split; try done.
    intros k v Hk. rewrite Forall_forall in Hf. apply (Hf (k, v)). rewrite entries_perm.
    by apply elem_of_map_to_list.
  - rewrite entries_perm. apply Forall_forall. intros [k v] Hk%elem_of_map_to_list. apply (Hi k v Hk).
Qed.

(** The cipher output is part of the bytes. *)
Lemma EncodeEncrypted_length e bs :
  encrypted_ok e → EncodeEncrypted e = inr bs → (length (CipherOutput e) <= length bs)%nat.
Proof.
  intros He E. rewrite EncodeEncrypted_bytes in E by done. simplify_eq. unfold body_bytes.
  rewrite !length_app. lia.
Qed.

Lemma DecodeEncrypted_encoded e bs :
  encrypted_ok e → EncodeEncrypted e = inr bs → Packer.len bs < 2 ^ 32 - 16 →
  DecodeEncrypted bs = Done (inr e).
Proof.
  intros He E Hl. destruct (structure_read e He) as (bs' & E' & Hd). rewrite E in E'. simplify_eq. by apply Hd.
Qed.

(** * Examples *)

Definition example_encrypted : Encrypted :=
  mkEncrypted ProfileTypeEnvelope EnvelopeProfileVersion "people" [Byte.x0a; Byte.x0b] TypeInteger Implemented
    (<[MetadataIV := MBytes [Byte.x2a]]> (<[MetadataKeyID := MString "key-0"]>
    (<[MetadataAADEncodingSchemeMajor := MInt 1]> ∅))).

Lemma encrypted_roundtrip_witness :
  ∃ bs, EncodeEncrypted example_encrypted = inr bs ∧
    (Packer.len bs < 2 ^ 32 - 16 → DecodeEncrypted bs = Done (inr example_encrypted)).
Proof.
  apply encrypted_roundtrip. split; try done.
  repeat apply map_Forall_insert_2; try apply map_Forall_empty; done.
Defined.

Lemma DecodeEncrypted_total_witness :
  ∃ r, DecodeEncrypted [Byte.x01; Byte.xb8; Byte.x65; Byte.x81; Byte.x41; Byte.x02] = Done r ∧ answer_ok r.
Proof. apply DecodeEncrypted_total. vm_compute. reflexivity. Defined.
