(* ===== verification/KeyCache.v ===== *)
(** The caches of property encryption: cache.go of internal/propertyencryption.

    The code keeps a doubly linked list of elements, most recently used first, and a
    map from keys to the elements of that list.  [cache] follows it, with the elements
    as addresses; [lru] is the specification, a list of entries. *)

From S2P Require Import Prelude.
From stdpp Require Import gmap.
#[local] Open Scope Z_scope.
#[local] Open Scope go_scope.

(** Durations and clock readings are in nanoseconds. *)
Definition DefaultKeyAliasIndexTTL : Z := 15 * 1000000000.
Definition DefaultKeyAliasIndexSize : Z := 100.
Definition DefaultKeyCacheTTL : Z := 15 * 60 * 1000000000.
Definition DefaultKeyCacheSize : Z := 100.

Module cache.

Record cacheEntry (V : Type) : Type := mkEntry { key : string; value : V; expires : Z }.
Arguments mkEntry {V}.
Arguments key {V}.
Arguments value {V}.
Arguments expires {V}.

(** [order] lists the elements of the linked list, its front first; [cells] is what
    each element's [Value] points to, and [next] an address not used yet. *)
Record Cache (V : Type) : Type := mkCache {
  ttl : Z;
  maxSize : Z;
  entries : gmap string nat;
  order : list nat;
  cells : gmap nat (cacheEntry V);
  next : nat
}.
Arguments mkCache {V}.
Arguments ttl {V}.
Arguments maxSize {V}.
Arguments entries {V}.
Arguments order {V}.
Arguments cells {V}.
Arguments next {V}.

Section Cache.
Context {V : Type}.
Abbreviation C := (GoM (Cache V)).

Definition NewCache (ttl maxSize : Z) : Cache V := mkCache ttl maxSize ∅ [] ∅ 0%nat.

(** The entry an element points to; a nil element panics. *)
Definition entry_of (element : nat) : C (cacheEntry V) :=
  c ← go_get cells;
  go_lift (c !! element).

(** The operations of [container/list]. *)
Definition PushFront (e : cacheEntry V) : C nat := λ c,
  Done (next c, mkCache (ttl c) (maxSize c) (entries c) (next c :: order c)
                  (<[next c := e]> (cells c)) (S (next c))).
Definition MoveToFront (element : nat) : C unit :=
  go_modify (λ c, mkCache (ttl c) (maxSize c) (entries c) (element :: filter (λ x, x ≠ element) (order c))
                    (cells c) (next c)).
Definition list_Remove (element : nat) : C unit :=
  go_modify (λ c, mkCache (ttl c) (maxSize c) (entries c) (filter (λ x, x ≠ element) (order c))
                    (cells c) (next c)).
Definition Back : C nat := o ← go_get order; go_lift (last o).

Definition set_entries (f : gmap string nat → gmap string nat) : C unit :=
  go_modify (λ c, mkCache (ttl c) (maxSize c) (f (entries c)) (order c) (cells c) (next c)).

Definition remove (element : nat) : C unit :=
  e ← entry_of element;
  set_entries (delete (key e));;
  list_Remove element.

(** The clock is read once per operation, which holds the mutex throughout. *)
Definition hasExpired (now : Z) (e : cacheEntry V) : bool := negb (now <? expires e).

Definition Get (now : Z) (k : string) : C (option V) :=
  m ← go_get entries;
  match m !! k with
  | None => mret None
  | Some element =>
      e ← entry_of element;
      if hasExpired now e then remove element;; mret None
      else MoveToFront element;; mret (Some (value e))
  end.

(** The loop of [purgeExpired]: the next element is taken before one is removed. *)
Fixpoint purge (now : Z) (l : list nat) : C unit :=
  match l with
  | [] => mret tt
  | element :: l =>
      e ← entry_of element;
      (if hasExpired now e then remove element else mret tt);;
      purge now l
  end.

Definition purgeExpired (now : Z) : C unit := l ← go_get order; purge now l.

(** The loop of [evict] removes an element per round. *)
Fixpoint evict_loop (fuel : nat) : C unit :=
  l ← go_get order;
  size ← go_get maxSize;
  if size <? Z.of_nat (length l) then
    match fuel with
    | O => go_nofuel
    | S fuel => element ← Back; remove element;; evict_loop fuel
    end
  else mret tt.

Definition evict : C unit := l ← go_get order; evict_loop (S (length l)).

Definition Put (now : Z) (k : string) (v : V) : C unit :=
  purgeExpired now;;
  d ← go_get ttl;
  let expires := now + d in
  m ← go_get entries;
  match m !! k with
  | Some element =>
      e ← entry_of element;
      go_modify (λ c, mkCache (ttl c) (maxSize c) (entries c) (order c)
                        (<[element := mkEntry (key e) v expires]> (cells c)) (next c));;
      MoveToFront element
  | None =>
      element ← PushFront (mkEntry k v expires);
      set_entries <[k := element]>;;
      evict
  end.

Definition Remove (k : string) : C unit :=
  m ← go_get entries;
  match m !! k with Some element => remove element | None => mret tt end.

Definition Clear : C unit :=
  go_modify (λ c, mkCache (ttl c) (maxSize c) ∅ [] (cells c) (next c)).

Definition len : C Z := l ← go_get order; mret (Z.of_nat (length l)).
End Cache.
End cache.

(** * The specification: entries in the order of their last use *)

Module lru.
Import cache.

Section Lru.
Context {V : Type}.
Abbreviation L := (list (cacheEntry V)).
Context (ttl maxSize : Z).

Definition without (k : string) (l : L) : L := filter (λ e, key e ≠ k) l.
Definition alive (now : Z) (l : L) : L := filter (λ e, now < expires e) l.
Definition found (k : string) (l : L) : option (cacheEntry V) := head (filter (λ e, key e = k) l).

(** The answer to [Get], and what remains: a hit moves to the front, an expired
    entry is dropped. *)
Definition get (now : Z) (k : string) (l : L) : option V * L :=
  match found k l with
  | None => (None, l)
  | Some e => if decide (now < expires e) then (Some (value e), e :: without k l) else (None, without k l)
  end.

Definition put (now : Z) (k : string) (v : V) (l : L) : L :=
  take (Z.to_nat maxSize) (mkEntry k v (now + ttl) :: without k (alive now l)).

(** ** Histories *)

Inductive op : Type :=
| OGet (now : Z) (k : string)
| OPut (now : Z) (k : string) (v : V)
| ORemove (k : string)
| OClear.

Definition run (l : L) (o : op) : L :=
  match o with
  | OGet now k => (get now k l).2
  | OPut now k v => put now k v l
  | ORemove k => without k l
  | OClear => []
  end.

(** The value last put under [k] and its expiry, if it was not removed since. *)
Definition recall (k : string) (m : option (V * Z)) (o : op) : option (V * Z) :=
  match o with
  | OGet _ _ => m
  | OPut now k' v => if decide (k = k') then Some (v, now + ttl) else m
  | ORemove k' => if decide (k = k') then None else m
  | OClear => None
  end.
End Lru.
Arguments op : clear implicits.
End lru.
