(* ===== verification/KeyCacheFacts.v ===== *)
(** The cache of property encryption refines the list of its specification, stays
    within its size, and returns neither stale nor expired values; a value stays as
    long as fewer than [maxSize] other keys are used. *)

From S2P Require Import Prelude KeyCache.
From stdpp Require Import gmap.
#[local] Open Scope Z_scope.
#[local] Open Scope go_scope.
Import cache.

Lemma Forall_keep {A} (Q R : A → Prop) `{∀ x, Decision (R x)} l : Forall Q l → Forall Q (filter R l).
Proof. rewrite !Forall_forall. intros Hl x [_ Hx]%list_elem_of_filter. by apply Hl. Qed.

(** * What a cache represents *)

Section Repr.
Context {V : Type}.
Abbreviation P := (list (nat * cacheEntry V)).

(** The elements of the linked list with their entries. *)
Record repr (c : Cache V) (l : P) : Prop := {
  r_order : order c = l.*1;
  r_nodup : NoDup l.*1;
  r_keys : NoDup (key <$> l.*2);
  r_entries : entries c = list_to_map ((λ p, (key p.2, p.1)) <$> l);
  r_cells : Forall (λ p, cells c !! p.1 = Some p.2) l;
  r_next : Forall (λ p, (p.1 < next c)%nat) l
}.

(** What no operation changes. *)
Definition same (c c' : Cache V) : Prop := ttl c' = ttl c ∧ maxSize c' = maxSize c.

Definition drop_key (k : string) (l : P) : P := filter (λ p, key p.2 ≠ k) l.

Lemma sublist_repr_keys (Q : nat * cacheEntry V → Prop) `{∀ x, Decision (Q x)} (l : P) :
  NoDup (key <$> l.*2) → NoDup (key <$> (filter Q l).*2).
Proof.
  intros Hl. eapply sublist_NoDup; [exact Hl |]. do 2 apply fmap_sublist. apply sublist_filter.
Qed.

Lemma sublist_repr_elements (Q : nat * cacheEntry V → Prop) `{∀ x, Decision (Q x)} (l : P) :
  NoDup l.*1 → NoDup (filter Q l).*1.
Proof. intros Hl. eapply sublist_NoDup; [exact Hl |]. apply fmap_sublist, sublist_filter. Qed.

Lemma same_element (l : P) p q : NoDup l.*1 → p ∈ l → q ∈ l → p.1 = q.1 → p = q.
Proof.
  intros Hl (i & Hi)%list_elem_of_lookup (j & Hj)%list_elem_of_lookup E.
  assert (i = j) as ->; [| congruence].
  eapply (NoDup_lookup _ _ _ p.1 Hl); rewrite list_lookup_fmap; [by rewrite Hi | rewrite Hj, E; done].
Qed.

Lemma same_key (l : P) p q : NoDup (key <$> l.*2) → p ∈ l → q ∈ l → key p.2 = key q.2 → p = q.
Proof.
  intros Hl (i & Hi)%list_elem_of_lookup (j & Hj)%list_elem_of_lookup E.
  assert (i = j) as ->; [| congruence].
  eapply (NoDup_lookup _ _ _ (key p.2) Hl); rewrite !list_lookup_fmap; [by rewrite Hi | by rewrite Hj, E].
Qed.

Lemma filter_elements el k (l : P) :
  Forall (λ p, p.1 ≠ el ↔ key p.2 ≠ k) l → filter (λ x, x ≠ el) l.*1 = (drop_key k l).*1.
Proof.
  induction 1 as [| [x e] l Hx _ IH]; [done |]. unfold drop_key in *. simpl. rewrite !filter_cons. simpl in *.
  repeat case_decide; try naive_solver. rewrite fmap_cons. by f_equal.
Qed.

(** Dropping an element is dropping its key. *)
Lemma drop_element (l : P) el e :
  NoDup l.*1 → NoDup (key <$> l.*2) → (el, e) ∈ l →
  filter (λ x, x ≠ el) l.*1 = (drop_key (key e) l).*1.
Proof.
  intros Hn Hk He. apply filter_elements, Forall_forall. intros p Hp. split; intros Hne E; apply Hne.
  - by rewrite (same_key l p (el, e) Hk Hp He E).
  - by rewrite (same_element l p (el, e) Hn Hp He E).
Qed.

(** The map from keys to elements. *)
Lemma entries_lookup c l k el :
  repr c l → entries c !! k = Some el ↔ ∃ e, (el, e) ∈ l ∧ key e = k.
Proof.
  intros Hr. rewrite (r_entries _ _ Hr), <- elem_of_list_to_map.
  - rewrite list_elem_of_fmap. split.
    + intros ([el' e] & E & Hin). simplify_eq/=. eauto.
    + intros (e & Hin & <-). by exists (el, e).
  - rewrite <- list_fmap_compose. pose proof (r_keys _ _ Hr) as Hk. by rewrite <- list_fmap_compose in Hk.
Qed.

Lemma entries_drop (l : P) k :
  NoDup (key <$> l.*2) →
  delete k (list_to_map ((λ p, (key p.2, p.1)) <$> l) : gmap string nat) =
  list_to_map ((λ p, (key p.2, p.1)) <$> drop_key k l).
Proof.
  induction l as [| [el e] l IH]; intros Hl; [apply delete_empty |].
  rewrite !fmap_cons in Hl. apply NoDup_cons in Hl as [_ Hl].
  unfold drop_key in *. rewrite filter_cons, fmap_cons, list_to_map_cons. cbn [fst snd].
  destruct (decide (key e = k)) as [<- | Hne].
  - rewrite decide_False by (intros Hn; by apply Hn). rewrite delete_insert_eq. by apply IH.
  - rewrite decide_True by done. rewrite fmap_cons, list_to_map_cons, delete_insert_ne, IH by done. done.
Qed.
End Repr.

(** * The operations *)

Section Operations.
Context {V : Type}.
Abbreviation P := (list (nat * cacheEntry V)).
Implicit Types (c : Cache V) (l : P).

Lemma entry_of_spec c l el e : repr c l → (el, e) ∈ l → entry_of el c = Done (e, c).
Proof.
  intros Hr Hin. pose proof (r_cells _ _ Hr) as Hc. rewrite Forall_forall in Hc.
  specialize (Hc _ Hin). simpl in Hc. unfold entry_of, go_get, go_lift, mbind, GoM_bind. by rewrite Hc.
Qed.

(** A representation of fewer entries, whose map is the smaller one. *)
Lemma repr_drop c l k o :
  repr c l → o = (drop_key k l).*1 →
  repr (mkCache (ttl c) (maxSize c) (delete k (entries c)) o (cells c) (next c)) (drop_key k l).
Proof.
  intros Hr ->. split; simpl.
  - done.
  - apply sublist_repr_elements, Hr.
  - apply sublist_repr_keys, Hr.
  - rewrite (r_entries _ _ Hr). apply entries_drop, Hr.
  - apply Forall_keep, Hr.
  - apply Forall_keep, Hr.
Qed.

Lemma remove_spec c l el e :
  repr c l → (el, e) ∈ l →
  ∃ c', remove el c = Done (tt, c') ∧ repr c' (drop_key (key e) l) ∧ same c c'.
Proof.
  intros Hr Hin. unfold remove, mbind, GoM_bind. rewrite (entry_of_spec c l el e) by done.
  eexists. split; [reflexivity |]. split; [| done]. simpl.
  apply repr_drop; [done |]. rewrite (r_order _ _ Hr). by apply drop_element; [apply Hr.. |].
Qed.

(** Moving an element to the front, with the entry it then has. *)
Lemma repr_front c l el e e' m :
  repr c l → (el, e) ∈ l → key e' = key e →
  m = <[el := e']> (cells c) →
  repr (mkCache (ttl c) (maxSize c) (entries c) (el :: filter (λ x, x ≠ el) (order c)) m (next c))
    ((el, e') :: drop_key (key e) l).
Proof.
  intros Hr Hin Hk ->. pose proof (drop_element l el e (r_nodup _ _ Hr) (r_keys _ _ Hr) Hin) as Hd.
  assert (Hel : el ∉ (drop_key (key e) l).*1) by (rewrite <- Hd; by intros [? _]%list_elem_of_filter).
  rewrite (r_order _ _ Hr), Hd. split; simpl.
  - done.
  - apply NoDup_cons. split; [done | apply sublist_repr_elements, Hr].
  - apply NoDup_cons. split; [| apply sublist_repr_keys, Hr]. rewrite Hk.
    intros (x & Hx & Hi)%list_elem_of_fmap. apply list_elem_of_fmap in Hi as (p & -> & Hp).
    apply list_elem_of_filter in Hp as [Hp _]. congruence.
  - rewrite Hk, <- entries_drop by apply Hr. rewrite <- (r_entries _ _ Hr).
    rewrite insert_delete_id; [done |]. apply (entries_lookup c l); eauto.
  - constructor; [by rewrite lookup_insert_eq |]. apply Forall_forall. intros p Hp.
    pose proof (r_cells _ _ Hr) as Hc. rewrite Forall_forall in Hc.
    rewrite lookup_insert_ne; [by apply Hc; apply list_elem_of_filter in Hp as [_ Hp] |].
    intros ->. apply Hel. by apply list_elem_of_fmap_2.
  - pose proof (r_next _ _ Hr) as Hn. constructor; [rewrite Forall_forall in Hn; by apply (Hn _ Hin) |].
    by apply Forall_keep.
Qed.

Lemma lookup_none c l k : repr c l → entries c !! k = None → Forall (λ p, key p.2 ≠ k) l.
Proof.
  intros Hr Hk. apply Forall_forall. intros [el e] Hin E.
  assert (entries c !! k = Some el) by (apply (entries_lookup c l); eauto). congruence.
Qed.

Lemma drop_absent k l : Forall (λ p, key p.2 ≠ k) l → drop_key k l = l.
Proof. intros Hl. by apply filter_all. Qed.

(** ** The loops *)

Lemma purge_spec now c done_ l :
  repr c (done_ ++ l) →
  ∃ c', purge now l.*1 c = Done (tt, c') ∧
    repr c' (done_ ++ filter (λ p, now < expires p.2) l) ∧ same c c'.
Proof.
  revert c done_. induction l as [| [el e] l IH]; intros c done_ Hr; simpl; [by exists c |].
  unfold mbind, GoM_bind at 1. rewrite (entry_of_spec c _ el e Hr) by set_solver.
  unfold hasExpired. rewrite filter_cons. simpl. destruct (Z.ltb_spec now (expires e)) as [Hlt | Hge].
  - rewrite decide_True by done. simpl. unfold mbind, GoM_bind, mret, GoM_ret.
    destruct (IH c (done_ ++ [(el, e)])) as (c' & E & Hr' & Hs); [by rewrite <- app_assoc |].
    exists c'. by rewrite <- app_assoc in Hr'.
  - rewrite decide_False by lia. simpl. unfold mbind, GoM_bind.
    destruct (remove_spec c _ el e Hr) as (c1 & -> & Hr1 & Hs1); [set_solver |].
    assert (Hd : drop_key (key e) (done_ ++ (el, e) :: l) = done_ ++ l).
    { unfold drop_key. rewrite filter_app, filter_cons, decide_False by (intros Hn; by apply Hn).
      pose proof (r_keys _ _ Hr) as Hk. rewrite !fmap_app, !fmap_cons in Hk.
      apply NoDup_app in Hk as (_ & Hk1 & Hk2). apply NoDup_cons in Hk2 as [Hk2 _]. simpl in *.
      f_equal; apply filter_all, Forall_forall; intros p Hp E; simpl in E.
      - apply (Hk1 (key e)); [rewrite <- E; by do 2 apply list_elem_of_fmap_2 | left].
      - apply Hk2. rewrite <- E. by do 2 apply list_elem_of_fmap_2. }
    rewrite Hd in Hr1. destruct (IH c1 done_ Hr1) as (c' & E & Hr' & [? ?]). exists c'.
    destruct Hs1. split_and!; [done.. | split; congruence].
Qed.

Lemma evict_loop_spec fuel c l :
  repr c l → 0 <= maxSize c → (length l <= fuel)%nat →
  ∃ c', evict_loop fuel c = Done (tt, c') ∧ repr c' (take (Z.to_nat (maxSize c)) l) ∧ same c c'.
Proof.
  revert c l. induction fuel as [| fuel IH]; intros c l Hr Hm Hf; simpl;
    unfold go_get, mbind, GoM_bind; rewrite (r_order _ _ Hr), length_fmap;
    (destruct (Z.ltb_spec (maxSize c) (Z.of_nat (length l))) as [Hlt | Hge];
      [| exists c; rewrite take_ge by lia; done]).
  - lia.
  - destruct (exists_last (l := l)) as (l' & [el e] & ->); [by destruct l; simpl in *; [lia |] |].
    unfold Back, go_get, go_lift, mbind, GoM_bind. rewrite (r_order _ _ Hr), fmap_app. simpl. rewrite last_snoc.
    destruct (remove_spec c _ el e Hr) as (c1 & -> & Hr1 & Hs1); [set_solver |].
    assert (Hd : drop_key (key e) (l' ++ [(el, e)]) = l').
    { unfold drop_key. rewrite filter_app, filter_cons, decide_False by (intros Hn; by apply Hn).
      rewrite filter_nil, app_nil_r. pose proof (r_keys _ _ Hr) as Hk. rewrite !fmap_app in Hk.
      apply NoDup_app in Hk as (_ & Hk & _). apply filter_all, Forall_forall. intros p Hp E. simpl in E.
      apply (Hk (key e)); [rewrite <- E; by do 2 apply list_elem_of_fmap_2 | left]. }
    rewrite Hd in Hr1. rewrite length_app in Hf, Hlt. simpl in Hf, Hlt.
    destruct (IH c1 l' Hr1) as (c' & E & Hr' & [? ?]); [destruct Hs1; lia | lia |].
    destruct Hs1 as [Hs1 Hs2]. rewrite Hs2 in *. exists c'. split_and!; [done | | split; congruence].
    by rewrite take_app_le by lia.
Qed.

Lemma evict_spec c l :
  repr c l → 0 <= maxSize c →
  ∃ c', evict c = Done (tt, c') ∧ repr c' (take (Z.to_nat (maxSize c)) l) ∧ same c c'.
Proof.
  intros Hr Hm. unfold evict, go_get, mbind, GoM_bind. apply evict_loop_spec; [done.. |].
  rewrite (r_order _ _ Hr), length_fmap. lia.
Qed.

Lemma repr_push c l e m :
  repr c l → Forall (λ p, key p.2 ≠ key e) l → m = <[key e := next c]> (entries c) →
  repr (mkCache (ttl c) (maxSize c) m (next c :: order c) (<[next c := e]> (cells c)) (S (next c)))
    ((next c, e) :: l).
Proof.
  intros Hr Hk ->. pose proof (r_next _ _ Hr) as Hn. split; simpl.
  - by rewrite (r_order _ _ Hr).
  - apply NoDup_cons. split; [| apply Hr]. intros (p & E & Hp)%list_elem_of_fmap.
    rewrite Forall_forall in Hn. specialize (Hn p Hp). lia.
  - apply NoDup_cons. split; [| apply Hr]. intros (x & E & (p & -> & Hp)%list_elem_of_fmap)%list_elem_of_fmap.
    rewrite Forall_forall in Hk. by apply (Hk p Hp).
  - by rewrite (r_entries _ _ Hr).
  - constructor; [by rewrite lookup_insert_eq |]. pose proof (r_cells _ _ Hr) as Hc.
    rewrite Forall_forall in *. intros p Hp. rewrite lookup_insert_ne; [by apply Hc |].
    specialize (Hn p Hp). lia.
  - constructor; [simpl; lia |]. eapply Forall_impl; [done |]. simpl. lia.
Qed.
End Operations.

(** * Refinement *)

Section Refinement.
Context {V : Type}.
Implicit Types (c : Cache V) (l : list (cacheEntry V)).

(** The cache holds the entries of [l] in that order, and no more than it may. *)
Definition refines c l : Prop :=
  0 <= maxSize c ∧ Z.of_nat (length l) <= maxSize c ∧ ∃ p, repr c p ∧ p.*2 = l.

Lemma drop_key_entries k (p : list (nat * cacheEntry V)) : (drop_key k p).*2 = lru.without k p.*2.
Proof.
  induction p as [| [el e] p IH]; [done |]. unfold drop_key, lru.without in *.
  rewrite fmap_cons, !filter_cons. simpl. case_decide; [| done]. rewrite fmap_cons. by f_equal.
Qed.

Lemma alive_entries now (p : list (nat * cacheEntry V)) :
  (filter (λ p, now < expires p.2) p).*2 = lru.alive now p.*2.
Proof.
  induction p as [| [el e] p IH]; [done |]. unfold lru.alive in *.
  rewrite fmap_cons, !filter_cons. simpl. case_decide; [| done]. rewrite fmap_cons. by f_equal.
Qed.

Lemma found_entry (p : list (nat * cacheEntry V)) el e :
  NoDup (key <$> p.*2) → (el, e) ∈ p → lru.found (key e) p.*2 = Some e.
Proof.
  intros Hk Hin. unfold lru.found. destruct (filter _ p.*2) as [| x xs] eqn:E.
  - assert (Hx : e ∈ filter (λ x, key x = key e) p.*2).
    { apply list_elem_of_filter. split; [done |]. by apply (list_elem_of_fmap_2 snd) in Hin. }
    rewrite E in Hx. by apply not_elem_of_nil in Hx.
  - assert (Hx : x ∈ filter (λ x, key x = key e) p.*2) by (rewrite E; left).
    apply list_elem_of_filter in Hx as [Hx (q & -> & Hq)%list_elem_of_fmap].
    simpl. by rewrite (same_key p q (el, e) Hk Hq Hin Hx).
Qed.

Lemma found_absent (p : list (nat * cacheEntry V)) k :
  Forall (λ p, key p.2 ≠ k) p → lru.found k p.*2 = None ∧ lru.without k p.*2 = p.*2.
Proof.
  intros Hp. split.
  - unfold lru.found. induction Hp as [| [el e] p Hx _ IH]; [done |]. rewrite fmap_cons, filter_cons, decide_False; done.
  - by rewrite <- drop_key_entries, drop_absent.
Qed.

Lemma without_length k l : (length (lru.without k l) <= length l)%nat.
Proof. apply length_filter. Qed.

(** ** Each operation *)

Lemma Get_refines c l now k :
  refines c l →
  ∃ c', Get now k c = Done ((lru.get now k l).1, c') ∧ refines c' (lru.get now k l).2 ∧ same c c'.
Proof.
  intros (Hm & Hl & p & Hr & <-). unfold Get, go_get, mbind, GoM_bind, lru.get.
  destruct (entries c !! k) as [el |] eqn:Ek.
  - apply (entries_lookup c p) in Ek as (e & Hin & <-); [| done].
    rewrite (entry_of_spec c p el e Hr Hin), (found_entry p el e (r_keys _ _ Hr) Hin).
    unfold hasExpired. pose proof (without_length (key e) p.*2) as Hw.
    destruct (Z.ltb_spec now (expires e)); simpl.
    + rewrite decide_True by done. eexists. split; [reflexivity |]. split; [| done].
      split; [done |]. split.
      { simpl. pose proof (r_keys _ _ Hr) as Hk. apply list_elem_of_split in Hin as (p1 & p2 & ->).
        unfold lru.without. rewrite fmap_app, fmap_cons, filter_app, filter_cons, decide_False by (intros Hn; by apply Hn).
        rewrite fmap_app, fmap_cons, length_app in Hl. simpl in Hl. rewrite length_app.
        pose proof (without_length (key e) p1.*2). pose proof (without_length (key e) p2.*2).
        unfold lru.without in *. lia. }
      exists ((el, e) :: drop_key (key e) p). split; [| by rewrite fmap_cons, drop_key_entries].
      apply (repr_front c p el e e); [done.. |].
      symmetry. apply insert_id. pose proof (r_cells _ _ Hr) as Hc. rewrite Forall_forall in Hc. apply (Hc _ Hin).
    + rewrite decide_False by lia. destruct (remove_spec c p el e Hr Hin) as (c' & -> & Hr' & Hs).
      exists c'. simpl. split; [done |]. split; [| done]. destruct Hs as [? Hs]. split; [lia |]. split; [lia |].
      eexists. split; [done | apply drop_key_entries].
  - destruct (found_absent p k (lookup_none c p k Hr Ek)) as [-> _].
    exists c. split_and!; [done | | done]. split_and!; [done.. |]. by exists p.
Qed.

Lemma Put_refines c l now k v :
  refines c l →
  ∃ c', Put now k v c = Done (tt, c') ∧ refines c' (lru.put (ttl c) (maxSize c) now k v l) ∧ same c c'.
Proof.
  intros (Hm & Hl & p & Hr & <-). unfold Put, purgeExpired, go_get, mbind, GoM_bind.
  rewrite (r_order _ _ Hr). destruct (purge_spec now c [] p Hr) as (c1 & -> & Hr1 & Hs1 & Hs2). simpl in Hr1.
  set (q := filter (λ p, now < expires p.2) p) in *. unfold lru.put. rewrite <- alive_entries. fold q.
  assert (Hq : (length q <= length p)%nat) by apply length_filter.
  rewrite length_fmap in Hl. destruct (entries c1 !! k) as [el |] eqn:Ek.
  - apply (entries_lookup c1 q) in Ek as (e & Hin & <-); [| done].
    rewrite (entry_of_spec c1 q el e Hr1 Hin). eexists. split; [reflexivity |]. simpl. rewrite Hs1.
    split; [| by split]. set (e' := mkEntry (key e) v (now + ttl c)).
    assert (Hlen : (length (e' :: lru.without (key e) q.*2) <= Z.to_nat (maxSize c))%nat).
    { apply list_elem_of_split in Hin as (q1 & q2 & Eq). rewrite Eq in *.
      unfold lru.without. rewrite fmap_app, fmap_cons, filter_app, filter_cons, decide_False by (intros Hn; by apply Hn).
      rewrite length_app in Hq. simpl in *. rewrite length_app.
      pose proof (without_length (key e) q1.*2). pose proof (without_length (key e) q2.*2).
      unfold lru.without in *. rewrite !length_fmap in *. lia. }
    rewrite take_ge by done. split; [simpl; lia |]. split; [simpl in *; lia |].
    exists ((el, e') :: drop_key (key e) q). split; [| by rewrite fmap_cons, drop_key_entries].
    unfold e'. rewrite <- Hs1. apply (repr_front c1 q el e (mkEntry (key e) v _) _ Hr1 Hin eq_refl eq_refl).
  - pose proof (lookup_none c1 q k Hr1 Ek) as Hk. destruct (found_absent q k Hk) as [_ ->].
    set (e' := mkEntry k v (now + ttl c1)).
    pose proof (repr_push c1 q e' _ Hr1 Hk eq_refl) as Hr2. simpl in Hr2.
    destruct (evict_spec _ _ Hr2) as (c' & E & Hr' & Hs'); [simpl; lia |].
    exists c'. rewrite <- Hs1. split; [exact E |]. destruct Hs' as [Hs3 Hs4]. simpl in *.
    split; [| split; congruence]. rewrite Hs2 in *. split; [lia |]. split.
    + rewrite length_take. lia.
    + eexists. split; [exact Hr' |]. by rewrite fmap_take.
Qed.

Lemma Remove_refines c l k :
  refines c l → ∃ c', Remove k c = Done (tt, c') ∧ refines c' (lru.without k l) ∧ same c c'.
Proof.
  intros (Hm & Hl & p & Hr & <-). unfold Remove, go_get, mbind, GoM_bind.
  pose proof (without_length k p.*2). destruct (entries c !! k) as [el |] eqn:Ek.
  - apply (entries_lookup c p) in Ek as (e & Hin & <-); [| done].
    destruct (remove_spec c p el e Hr Hin) as (c' & -> & Hr' & Hs). exists c'. split; [done |].
    split; [| done]. destruct Hs as [? Hs]. split; [lia |]. split; [lia |].
    eexists. split; [done | apply drop_key_entries].
  - destruct (found_absent p k (lookup_none c p k Hr Ek)) as [_ ->].
    exists c. split_and!; [done | | done]. split_and!; [done.. |]. by exists p.
Qed.

Lemma Clear_refines c l : refines c l → ∃ c', Clear c = Done (tt, c') ∧ refines c' [] ∧ same c c'.
Proof.
  intros (Hm & Hl & _). eexists. split; [reflexivity |]. split; [| done].
  split; [done |]. split; [done |]. exists []. split; [| done]. split; simpl; try done; constructor.
Qed.
End Refinement.

(** * Histories *)

Section Histories.
Context {V : Type}.
Import lru.

(** A call of the cache, and what it answers. *)
Definition exec (o : op V) : GoM (Cache V) (option V) :=
  match o with
  | OGet now k => Get now k
  | OPut now k v => Put now k v;; mret None
  | ORemove k => Remove k;; mret None
  | OClear => Clear;; mret None
  end.

Definition answer (o : op V) (l : list (cacheEntry V)) : option V :=
  match o with OGet now k => (get now k l).1 | _ => None end.

(** The calls one after the other. *)
Fixpoint exec_all (ops : list (op V)) : GoM (Cache V) unit :=
  match ops with
  | [] => mret tt
  | o :: ops => exec o;; exec_all ops
  end.

Lemma exec_refines c l o :
  refines c l →
  ∃ c', exec o c = Done (answer o l, c') ∧ refines c' (run (ttl c) (maxSize c) l o) ∧ same c c'.
Proof.
  intros Hl. destruct o as [now k | now k v | k |]; simpl.
  - by apply Get_refines.
  - destruct (Put_refines c l now k v Hl) as (c' & E & H'). exists c'. unfold mbind, GoM_bind. by rewrite E.
  - destruct (Remove_refines c l k Hl) as (c' & E & H'). exists c'. unfold mbind, GoM_bind. by rewrite E.
  - destruct (Clear_refines c l Hl) as (c' & E & H'). exists c'. unfold mbind, GoM_bind. by rewrite E.
Qed.

Lemma exec_all_refines ops c l :
  refines c l →
  ∃ c', exec_all ops c = Done (tt, c') ∧ refines c' (foldl (run (ttl c) (maxSize c)) l ops) ∧ same c c'.
Proof.
  revert c l. induction ops as [| o ops IH]; intros c l Hl; simpl; [by exists c |].
  destruct (exec_refines c l o Hl) as (c1 & E1 & H1 & Hs1 & Hs2).
  destruct (IH c1 _ H1) as (c2 & E2 & H2 & Hs3 & Hs4). exists c2.
  unfold mbind, GoM_bind. rewrite E1, E2. rewrite Hs1, Hs2 in *. split_and!; [done.. | split; congruence].
Qed.

Lemma new_refines ttl maxSize : 0 <= maxSize → refines (NewCache ttl maxSize : Cache V) [].
Proof.
  intros Hm. split; [done |]. split; [done |]. exists []. split; [| done]. split; simpl; try done; constructor.
Qed.

(** C26. The linked list and the map of the cache implement the list of the
    specification: from a new cache of any size, no sequence of calls panics, [Get]
    answers what the specification answers, and what remains is what it says; the
    cache never holds more than [maxSize] entries. *)
Theorem cache_refines ttl maxSize ops o :
  0 <= maxSize →
  let l := foldl (run ttl maxSize) [] ops in
  ∃ c c', exec_all ops (NewCache ttl maxSize) = Done (tt, c) ∧ exec o c = Done (answer o l, c') ∧
    refines c' (run ttl maxSize l o) ∧ Z.of_nat (length (order c')) <= maxSize.
Proof.
  intros Hm l. destruct (exec_all_refines ops _ _ (new_refines ttl maxSize Hm)) as (c & E & Hr & Hs1 & Hs2).
  simpl in Hs1, Hs2. destruct (exec_refines c _ o Hr) as (c' & E' & Hr' & Hs3 & Hs4).
  exists c, c'. rewrite Hs1, Hs2 in *. split_and!; [done.. |].
  destruct Hr' as (_ & Hl & p & Hp & Ep). rewrite <- Ep, length_fmap in Hl.
  rewrite (r_order _ _ Hp), length_fmap. lia.
Qed.

(** ** What a hit means *)

Lemma found_in k (l : list (cacheEntry V)) e : found k l = Some e → e ∈ l ∧ key e = k.
Proof.
  unfold found. intros He. assert (Hin : e ∈ filter (λ e, key e = k) l).
  { destruct (filter _ l) as [| x xs]; [done |]. simplify_eq/=. left. }
  by apply list_elem_of_filter in Hin as [? ?].
Qed.

(** Every entry is the last value put under its key. *)
Definition remembered ttl (ops : list (op V)) (l : list (cacheEntry V)) : Prop :=
  ∀ e, e ∈ l → foldl (recall ttl (key e)) None ops = Some (value e, expires e).

Lemma remembered_step ttl maxSize ops l o :
  remembered ttl ops l → remembered ttl (ops ++ [o]) (run ttl maxSize l o).
Proof.
  intros Hl e He. rewrite foldl_snoc. destruct o as [now k | now k v | k |]; simpl in *.
  - unfold get in He. destruct (found k l) as [e' |] eqn:Ef; [| by apply Hl].
    apply found_in in Ef as [Hin Hk]. case_decide; simpl in He.
    + apply elem_of_cons in He as [-> | He]; [by apply Hl |]. by apply list_elem_of_filter in He as [_ He%Hl].
    + by apply list_elem_of_filter in He as [_ He%Hl].
  - unfold put in He. apply elem_of_take in He as (i & He & _). apply list_elem_of_lookup_2 in He.
    apply elem_of_cons in He as [-> | He]; [by rewrite decide_True |].
    apply list_elem_of_filter in He as [Hk He]. apply list_elem_of_filter in He as [_ He].
    rewrite decide_False by done. by apply Hl.
  - apply list_elem_of_filter in He as [Hk He]. rewrite decide_False by done. by apply Hl.
  - by apply not_elem_of_nil in He.
Qed.

Lemma remembered_all ttl maxSize ops :
  remembered ttl ops (foldl (run ttl maxSize) [] ops).
Proof.
  induction ops as [| o ops IH] using rev_ind; [by intros e ?%not_elem_of_nil |].
  rewrite foldl_snoc. by apply remembered_step.
Qed.

(** After any calls, when [Get] returns a value it is the one most recently put
    under that key, not removed or cleared since, and its time to live has not
    passed. *)
Theorem cache_hit_fresh ttl maxSize ops now k v c c' :
  0 <= maxSize → exec_all ops (NewCache ttl maxSize) = Done (tt, c) →
  Get now k c = Done (Some v, c') →
  ∃ expires, foldl (recall ttl k) None ops = Some (v, expires) ∧ now < expires.
Proof.
  intros Hm E Hg. destruct (exec_all_refines ops _ _ (new_refines ttl maxSize Hm)) as (c1 & E1 & Hr & Hs).
  rewrite E in E1. injection E1 as <-. destruct (Get_refines c _ now k Hr) as (c2 & E2 & _).
  rewrite Hg in E2. injection E2 as Hv _. unfold get in Hv.
  destruct (found k _) as [e |] eqn:Ef; [| done]. apply found_in in Ef as [Hin Hk].
  case_decide; simplify_eq/=. exists (expires e). split; [| done].
  by apply (remembered_all ttl maxSize ops).
Qed.

(** ** What stays *)

(** The keys a call uses, and the calls that keep [k] alive until [limit]. *)
Definition uses (o : op V) : gset string :=
  match o with OGet _ k | OPut _ k _ => {[ k ]} | _ => ∅ end.
Definition spares (k : string) (limit : Z) (o : op V) : Prop :=
  match o with
  | OGet now _ => now < limit
  | OPut now k' _ => now < limit ∧ k' ≠ k
  | ORemove k' => k' ≠ k
  | OClear => False
  end.

(** [e] is in the list, and only entries with keys of [S] come before it. *)
Definition within (S : gset string) (e : cacheEntry V) (l : list (cacheEntry V)) : Prop :=
  ∃ l1 l2, l = l1 ++ e :: l2 ∧ NoDup (key <$> l1) ∧ Forall (λ x, key x ∈ S ∧ key x ≠ key e) l1.

Lemma NoDup_without k (l : list (cacheEntry V)) : NoDup (key <$> l) → NoDup (key <$> without k l).
Proof. intros Hl. eapply sublist_NoDup; [exact Hl |]. apply fmap_sublist, sublist_filter. Qed.

Lemma NoDup_alive now (l : list (cacheEntry V)) : NoDup (key <$> l) → NoDup (key <$> alive now l).
Proof. intros Hl. eapply sublist_NoDup; [exact Hl |]. apply fmap_sublist, sublist_filter. Qed.

Lemma without_absent k (l : list (cacheEntry V)) : k ∉ key <$> without k l.
Proof. by intros (x & -> & [? _]%list_elem_of_filter)%list_elem_of_fmap. Qed.

Lemma without_within S e k l : key e ≠ k → within S e l → within S e (without k l).
Proof.
  intros Hk (l1 & l2 & -> & Hn & Hs). exists (without k l1), (without k l2).
  unfold without at 1. rewrite filter_app, filter_cons, decide_True by done.
  split_and!; [done | by apply NoDup_without | by apply Forall_keep].
Qed.

Lemma alive_within S e now l : now < expires e → within S e l → within S e (alive now l).
Proof.
  intros Hk (l1 & l2 & -> & Hn & Hs). exists (alive now l1), (alive now l2).
  unfold alive at 1. rewrite filter_app, filter_cons, decide_True by done.
  split_and!; [done | by apply NoDup_alive | by apply Forall_keep].
Qed.

(** An entry with a key of [S] put in front. *)
Lemma cons_within S e x l :
  key x ∈ S → key x ≠ key e → within S e l → within S e (x :: without (key x) l).
Proof.
  intros Hx Hne (l1 & l2 & -> & Hn & Hs).
  exists (x :: without (key x) l1), (without (key x) l2). unfold without at 1.
  rewrite filter_app, filter_cons, decide_True by done. split_and!; [done | |].
  - rewrite fmap_cons. apply NoDup_cons. split; [apply without_absent | by apply NoDup_without].
  - constructor; [done |]. by apply Forall_keep.
Qed.

(** Few enough entries come before [e]. *)
Lemma within_take S e n l : (size S < n)%nat → within S e l → within S e (take n l).
Proof.
  intros Hn (l1 & l2 & -> & Hd & Hs).
  assert (Hlen : (length l1 <= size S)%nat).
  { rewrite <- (length_fmap key). rewrite <- (size_list_to_set (C := gset string)) by done.
    apply subseteq_size. intros k Hk. apply elem_of_list_to_set, list_elem_of_fmap in Hk as (x & -> & Hx).
    rewrite Forall_forall in Hs. by apply Hs. }
  exists l1, (take (n - length l1 - 1) l2). rewrite take_app_ge by lia.
  split_and!; [| done..]. destruct (n - length l1)%nat as [| m] eqn:Em; [lia |]. simpl. by rewrite Nat.sub_0_r.
Qed.

Lemma found_within S e l : within S e l → found (key e) l = Some e.
Proof.
  intros (l1 & l2 & -> & _ & Hs). unfold found. rewrite filter_app, filter_cons, decide_True by done.
  replace (filter (λ x, key x = key e) l1) with (@nil (cacheEntry V)); [done |].
  clear l2. induction Hs as [| x l1 [_ Hx] _ IH]; [done |]. by rewrite filter_cons, decide_False.
Qed.

Lemma within_step ttl maxSize S e l o :
  (size S < Z.to_nat maxSize)%nat → uses o ⊆ {[ key e ]} ∪ S → spares (key e) (expires e) o →
  within S e l → within S e (run ttl maxSize l o).
Proof.
  intros Hsz Hu Hsp Hw. destruct o as [now k | now k v | k |]; simpl in *.
  - unfold get. destruct (found k l) as [x |] eqn:Ef; [| done].
    pose proof (found_in _ _ _ Ef) as [_ Hk]. destruct (decide (k = key e)) as [-> | Hne].
    + rewrite (found_within S e l Hw) in Ef. simplify_eq. rewrite decide_True by done.
      exists [], (without (key x) l). split_and!; [done | constructor | constructor].
    + subst k. case_decide; simpl; [| by apply without_within].
      apply cons_within; [set_solver | done | done].
  - unfold put. destruct Hsp as [Hnow Hne]. apply within_take; [done |].
    apply (cons_within S e (mkEntry k v _)); [set_solver | done |]. by apply alive_within.
  - by apply without_within.
  - done.
Qed.

(** A value that was put stays until its time to live has passed, as long as it
    is not removed or cleared and fewer than [maxSize] other keys are used after it:
    eviction takes the least recently used entry first. *)
Theorem cache_retains ttl maxSize before t k v after now (S : gset string) c :
  (size S < Z.to_nat maxSize)%nat →
  Forall (λ o, uses o ⊆ {[ k ]} ∪ S ∧ spares k (t + ttl) o) after → now < t + ttl →
  exec_all (before ++ OPut t k v :: after) (NewCache ttl maxSize) = Done (tt, c) →
  ∃ c', Get now k c = Done (Some v, c').
Proof.
  intros Hsz Hafter Hnow E. assert (Hm : 0 <= maxSize) by lia.
  destruct (exec_all_refines (before ++ OPut t k v :: after) _ _ (new_refines ttl maxSize Hm))
    as (c1 & E1 & Hr & _). rewrite E in E1. injection E1 as <-.
  destruct (Get_refines c _ now k Hr) as (c2 & E2 & _). exists c2. rewrite E2. do 2 f_equal.
  set (e := mkEntry k v (t + ttl)).
  assert (Hw : within S e (foldl (run ttl maxSize) [] (before ++ OPut t k v :: after))).
  { rewrite foldl_app. simpl. generalize (foldl (run ttl maxSize) [] before). intros l0.
    assert (Hw : within S e (put ttl maxSize t k v l0)).
    { unfold put. apply within_take; [done |]. exists [], (without k (alive t l0)).
      split_and!; [done | constructor | constructor]. }
    clear E Hr E2. revert Hw. generalize (put ttl maxSize t k v l0). induction Hafter as [| o after [Hu Hsp] _ IH];
      intros l Hw; simpl; [done |]. apply IH. by apply within_step. }
  unfold get. cbn [cache.ttl cache.maxSize NewCache]. change k with (key e) at 1. rewrite (found_within S e _ Hw). by rewrite decide_True.
Qed.
End Histories.

(** * Examples *)

Definition example_ops : list (lru.op Z) :=
  [lru.OPut 0 "a" 1; lru.OPut 1 "b" 2; lru.OGet 2 "a"; lru.OPut 3 "c" 3].

Lemma cache_refines_witness :
  let l := foldl (lru.run 10 2) [] example_ops in
  ∃ c c', exec_all example_ops (NewCache 10 2) = Done (tt, c) ∧
    exec (lru.OGet 4 "b") c = Done (answer (lru.OGet 4 "b") l, c') ∧
    refines c' (lru.run 10 2 l (lru.OGet 4 "b")) ∧ Z.of_nat (length (order c')) <= 2.
Proof. apply cache_refines. lia. Defined.

Definition example_cache : Cache Z :=
  match exec_all example_ops (NewCache 10 2) with Done (_, c) => c | _ => NewCache 10 2 end.

Lemma cache_hit_fresh_witness :
  ∃ expires, foldl (lru.recall 10 "a") None example_ops = Some (1, expires) ∧ 5 < expires.
Proof.
  refine (cache_hit_fresh 10 2 example_ops 5 "a" 1 example_cache
    (match Get 5 "a" example_cache with Done (_, c) => c | _ => example_cache end) _ _ _).
  - lia.
  - vm_compute. reflexivity.
  - vm_compute. reflexivity.
Defined.

Definition example_kept : Cache Z :=
  match exec_all ([lru.OPut 0 "a" 1] ++ lru.OPut 1 "b" 2 :: [lru.OGet 2 "a"]) (NewCache 10 2) with
  | Done (_, c) => c
  | _ => NewCache 10 2
  end.

Lemma cache_retains_witness : ∃ c', Get 9 "b" example_kept = Done (Some 2, c').
Proof.
  apply (cache_retains 10 2 [lru.OPut 0 "a" 1] 1 "b" 2 [lru.OGet 2 "a"] 9 {[ "a" ]}).
  - rewrite size_singleton. lia.
  - constructor; [split; [simpl; set_solver | simpl; lia] | constructor].
  - lia.
  - vm_compute. reflexivity.
Defined.
