(* ===== verification/Encryption.v ===== *)
(** Property encryption: neo4j/propertyencryption (encryption.go, profile.go,
    errors.go, keys.go, local.go) and crypto.go of internal/propertyencryption.

    The key repository and the key encapsulation service are interfaces the
    application implements; they are records of operations on a state [W] that is
    theirs, which also holds the clock and the random source.  AES-GCM is a class
    with the laws of an authenticated cipher. *)

From S2P Require Import Prelude GoTime Packer Values Errors Unpacker Reading Hydrator Messages Outgoing.
From S2P Require Import Encoding KeyCache.
From stdpp Require Import gmap sorting.
#[local] Open Scope Z_scope.
#[local] Open Scope go_scope.
Import scheme structure.

(** * Errors (errors.go) *)

Module errs.

(** [errors.Is(err, ErrKeyNotFound)] *)
Fixpoint is_key_not_found (p : problem) : bool :=
  match p with
  | ErrKeyNotFound => true
  | EncryptionError _ (Some c) | Wrapped _ c => is_key_not_found c
  | _ => false
  end.

(** The driver's error types along the chain of [e]. *)
Fixpoint driver_error (e : error) : bool :=
  match e with
  | Neo4jErr _ | UsageError _ | ConnectivityError _ | TokenExpiredError _ _ _
  | TransactionExecutionLimit _ _ => true
  | WrappedError _ e => driver_error e
  | _ => false
  end.

Fixpoint isDriverError (p : problem) : bool :=
  match p with
  | EncryptionError _ _ => true
  | Wrapped _ c => isDriverError c
  | Foreign e => driver_error e
  | _ => false
  end.

Definition wrap (message : string) (p : problem) : problem :=
  if isDriverError p then p else EncryptionError message (Some p).

(** A codec failure along the chain. *)
Fixpoint codec_error (p : problem) : bool :=
  match p with
  | ValueError _ | MalformedError _ | UnsupportedProfileError _ _ => true
  | EncryptionError _ (Some c) | Wrapped _ c => codec_error c
  | _ => false
  end.

Definition asError (message : string) (p : problem) : problem :=
  if codec_error p then EncryptionError message (Some p) else wrap message p.
End errs.
Import errs.

Definition plain_error (msg : string) : problem := Foreign (ErrorString msg).

(** * The cipher (crypto.go) *)

(** AES-GCM: sealing and opening under a key. *)
Class AesGcm : Type := {
  gcm_Seal : list byte → list byte → list byte → list byte → list byte;  (* key, iv, plaintext, aad *)
  gcm_Open : list byte → list byte → list byte → list byte → option (list byte)
}.

(** What holds of AES-GCM for 32-byte keys and 12-byte vectors: opening undoes sealing; a
    cipher output that opens is the one sealing produces; the key stream does not
    depend on the additional data, so that equal cipher outputs have equal plaintexts;
    and a cipher output is not shorter than its plaintext. *)
Class GcmLaws `{AesGcm} : Prop := {
  open_seal k iv p aad : gcm_Open k iv (gcm_Seal k iv p aad) aad = Some p;
  open_genuine k iv c aad p : gcm_Open k iv c aad = Some p → c = gcm_Seal k iv p aad;
  seal_plaintext k iv p p' aad aad' : gcm_Seal k iv p aad = gcm_Seal k iv p' aad' → p = p';
  seal_length k iv p aad : (length p <= length (gcm_Seal k iv p aad))%nat
}.

(** The clock and the random source of the host. *)
Class Host (W : Type) : Type := {
  Now : GoM W Z;
  rand_Read : Z → GoM W (problem + list byte)
}.

Module crypto.

Definition KeySize : Z := 32.
Definition IVSize : Z := 12.

(** The cipher built from a key; nothing of it but the key varies. *)
Record DataKey : Type := mkDataKey { aead : list byte }.

(** [aes.NewCipher] and [cipher.NewGCM] fail for other key and block sizes only; the
    error's text is returned. *)
Definition NewDataKey (key : list byte) : string + DataKey :=
  if Packer.len key =? KeySize then inr (mkDataKey key)
  else inl ("an AES-256 key must be " +:+ pretty KeySize +:+ " bytes but is " +:+ pretty (Packer.len key)).

Definition iv_error (iv : list byte) : problem :=
  plain_error ("the initialisation vector must be " +:+ pretty IVSize +:+ " bytes but is " +:+ pretty (Packer.len iv)).

Section Cipher.
Context `{AesGcm}.

Definition Seal (k : DataKey) (iv plaintext aad : list byte) : problem + list byte :=
  if Packer.len iv =? IVSize then inr (gcm_Seal (aead k) iv plaintext aad) else inl (iv_error iv).

Definition Open (k : DataKey) (iv cipherOutput aad : list byte) : problem + list byte :=
  if Packer.len iv =? IVSize then
    match gcm_Open (aead k) iv cipherOutput aad with
    | Some plaintext => inr plaintext
    | None => inl ErrAuthentication
    end
  else inl (iv_error iv).
End Cipher.

Section Random.
Context `{Host W}.

Definition draw (n : Z) (what : string) : GoM W (problem + list byte) :=
  r ← rand_Read n;
  mret (match r with inl p => inl (Wrapped what p) | inr b => inr b end).

Definition NewDEK : GoM W (problem + list byte) := draw KeySize "generating a data encryption key".
Definition NewIV : GoM W (problem + list byte) := draw IVSize "generating an initialisation vector".
End Random.
End crypto.
Import crypto.

(** * Keys and their stores (keys.go) *)

Module keys.

Record EncapsulatedKey : Type := mkKey { ID : string; Alias : string }.

Record EncapsulatedKeyRecord : Type := mkRecord {
  key_of : EncapsulatedKey;
  Encapsulation : list byte;
  Metadata : gmap string string
}.

Record KeyEncapsulationResult : Type := mkResult {
  Key : list byte;
  res_Encapsulation : list byte;
  res_Metadata : gmap string string
}.

Record KeyEncapsulationService (W : Type) : Type := mkService {
  Encapsulate : gmap string string → GoM W (problem + KeyEncapsulationResult);
  Decapsulate : list byte → gmap string string → GoM W (problem + list byte)
}.
Arguments mkService {W}.
Arguments Encapsulate {W}.
Arguments Decapsulate {W}.

Record EncapsulatedKeyRecordRepository (W : Type) : Type := mkRepository {
  FindByID : string → GoM W (problem + EncapsulatedKeyRecord);
  FindByAlias : string → GoM W (problem + EncapsulatedKeyRecord);
  Create : string → list byte → gmap string string → GoM W (problem + EncapsulatedKeyRecord);
  SetAlias : string → string → GoM W (option problem);
  DeleteByID : string → GoM W (option problem)
}.
Arguments mkRepository {W}.
Arguments FindByID {W}.
Arguments FindByAlias {W}.
Arguments Create {W}.
Arguments SetAlias {W}.
Arguments DeleteByID {W}.
End keys.
Import keys.

(** * Profiles (profile.go) *)

Module profile.

(** A nil interface is [None]. *)
Record EnvelopeProfile (W : Type) : Type := mkProfile {
  Name : string;
  EncapsulationService : option (KeyEncapsulationService W);
  KeyRepository : option (EncapsulatedKeyRecordRepository W);
  KeyCacheTTL : Z;
  KeyCacheSize : Z;
  KeyAliasIndexTTL : Z;
  KeyAliasIndexSize : Z;
  DisableKeyCache : bool
}.
Arguments mkProfile {W}.
Arguments Name {W}.
Arguments EncapsulationService {W}.
Arguments KeyRepository {W}.
Arguments KeyCacheTTL {W}.
Arguments KeyCacheSize {W}.
Arguments KeyAliasIndexTTL {W}.
Arguments KeyAliasIndexSize {W}.
Arguments DisableKeyCache {W}.

(** What an element of the configured slice can be. *)
Inductive Profile (W : Type) : Type :=
| PEnvelope (p : EnvelopeProfile W)
| PEnvelopePtr (p : option (EnvelopeProfile W))
| POther (type_ : string).
Arguments PEnvelope {W}.
Arguments PEnvelopePtr {W}.
Arguments POther {W}.

Definition usage (msg : string) : problem := Foreign (UsageError msg).

Definition validate {W} (p : EnvelopeProfile W) : option problem :=
  if decide (Name p = "") then Some (usage "a property encryption profile must have a name")
  else match EncapsulationService p, KeyRepository p with
       | None, _ => Some (usage ("property encryption profile " +:+ Name p +:+ " has no EncapsulationService"))
       | Some _, None => Some (usage ("property encryption profile " +:+ Name p +:+ " has no KeyRepository"))
       | Some _, Some _ =>
           if (KeyCacheTTL p <? 0) || (KeyAliasIndexTTL p <? 0) then
             Some (usage ("property encryption profile " +:+ Name p +:+ " has a negative cache time to live"))
           else if (KeyCacheSize p <? 0) || (KeyAliasIndexSize p <? 0) then
             Some (usage ("property encryption profile " +:+ Name p +:+
                          " has a negative cache size, use DisableKeyCache instead"))
           else None
       end.

(** [if x == 0 { x = d }] *)
Definition or_default (x d : Z) : Z := if x =? 0 then d else x.

Definition withDefaults {W} (p : EnvelopeProfile W) : EnvelopeProfile W :=
  if DisableKeyCache p then
    mkProfile (Name p) (EncapsulationService p) (KeyRepository p) (KeyCacheTTL p) 0 (KeyAliasIndexTTL p) 0 true
  else
    mkProfile (Name p) (EncapsulationService p) (KeyRepository p)
      (or_default (KeyCacheTTL p) DefaultKeyCacheTTL) (or_default (KeyCacheSize p) DefaultKeyCacheSize)
      (or_default (KeyAliasIndexTTL p) DefaultKeyAliasIndexTTL)
      (or_default (KeyAliasIndexSize p) DefaultKeyAliasIndexSize) false.
End profile.
Import profile.

(** * Encryption (encryption.go) *)

Module encryption.

Inductive keyReferenceKind : Type := keyReferenceNone | keyReferenceAlias | keyReferenceID.

#[global] Instance keyReferenceKind_eq_dec : EqDecision keyReferenceKind.
Proof. solve_decision. Defined.

Record KeyReference : Type := mkReference { kind : keyReferenceKind; ref_value : string }.
Definition KeyAlias (alias : string) : KeyReference := mkReference keyReferenceAlias alias.
Definition KeyID (id : string) : KeyReference := mkReference keyReferenceID id.

Record EncryptRequest : Type := mkRequest {
  req_Value : goval;
  req_Key : KeyReference;
  req_Profile : string
}.

Record profileState (W : Type) : Type := mkState {
  profile_ : EnvelopeProfile W;
  aliasIndex : cache.Cache string;
  keyCache : cache.Cache DataKey
}.
Arguments mkState {W}.
Arguments profile_ {W}.
Arguments aliasIndex {W}.
Arguments keyCache {W}.

Record Encryption (W : Type) : Type := mkEncryption {
  profiles : gmap string (profileState W);
  names : list string
}.
Arguments mkEncryption {W}.
Arguments profiles {W}.
Arguments names {W}.

(** ** Construction *)

Definition add_profile {W} (e : Encryption W) (p : EnvelopeProfile W) : problem + Encryption W :=
  match validate p with
  | Some err => inl err
  | None =>
      match profiles e !! Name p with
      | Some _ => inl (usage ("more than one property encryption profile is named " +:+ Name p))
      | None =>
          let p := withDefaults p in
          inr (mkEncryption
                 (<[Name p := mkState p (cache.NewCache (KeyAliasIndexTTL p) (KeyAliasIndexSize p))
                                (cache.NewCache (KeyCacheTTL p) (KeyCacheSize p))]> (profiles e))
                 (names e ++ [Name p]))
      end
  end.

(** The loop of [New]. *)
Fixpoint add_profiles {W} (e : Encryption W) (l : list (Profile W)) : problem + Encryption W :=
  match l with
  | [] => inr e
  | PEnvelope p :: l | PEnvelopePtr (Some p) :: l =>
      match add_profile e p with inl err => inl err | inr e => add_profiles e l end
  | PEnvelopePtr None :: _ => inl (usage "a property encryption profile is nil")
  | POther t :: _ => inl (usage ("unsupported property encryption profile " +:+ t))
  end.

Definition New {W} (l : list (Profile W)) : problem + Encryption W :=
  match add_profiles (mkEncryption ∅ []) l with
  | inl err => inl err
  | inr e => inr (mkEncryption (profiles e) (merge_sort String.le (names e)))
  end.

(** ** The state of a call *)

(** The encryption and everything outside the driver. *)
Record env (W : Type) : Type := mkEnv { enc : Encryption W; world : W }.
Arguments mkEnv {W}.
Arguments enc {W}.
Arguments world {W}.

Section Calls.
Context {W : Type} `{Host W, AesGcm, TzDb}.
Variable typeOf : goval → string.
Abbreviation X := (GoM (env W)).

(** A call that can fail, and what follows it. *)
Definition try {A B} (m : X (problem + A)) (k : A → X (problem + B)) : X (problem + B) :=
  r ← m;
  match r with inl p => mret (inl p) | inr a => k a end.
#[local] Notation "x ←? m ; k" := (try m (λ x, k))
  (at level 20, m at level 100, k at level 200, right associativity).

Definition fails {A} (msg : string) : X (problem + A) := mret (inl (EncryptionError msg None)).

(** A call of something outside the driver. *)
Definition outside {A} (m : GoM W A) : X A := λ s,
  match m (world s) with
  | Done (a, w) => Done (a, mkEnv (enc s) w)
  | Panic => Panic
  | OutOfFuel => OutOfFuel
  end.

(** [e.profiles\[name\]]: what is pointed to by a profile state. *)
Definition the_state (name : string) : X (profileState W) :=
  ps ← go_get (λ s, profiles (enc s));
  go_lift (ps !! name).

Definition put_state (name : string) (st : profileState W) : X unit :=
  go_modify (λ s, mkEnv (mkEncryption (<[name := st]> (profiles (enc s))) (names (enc s))) (world s)).

(** A call of one of the caches of a profile. *)
Definition on_keyCache {A} (name : string) (m : GoM (cache.Cache DataKey) A) : X A :=
  st ← the_state name;
  match m (keyCache st) with
  | Done (a, c) => put_state name (mkState (profile_ st) (aliasIndex st) c);; mret a
  | Panic => go_panic
  | OutOfFuel => go_nofuel
  end.
Definition on_aliasIndex {A} (name : string) (m : GoM (cache.Cache string) A) : X A :=
  st ← the_state name;
  match m (aliasIndex st) with
  | Done (a, c) => put_state name (mkState (profile_ st) c (keyCache st));; mret a
  | Panic => go_panic
  | OutOfFuel => go_nofuel
  end.

Definition keyCache_Get (name id : string) : X (option DataKey) :=
  now ← outside Now; on_keyCache name (cache.Get now id).
Definition keyCache_Put (name id : string) (k : DataKey) : X unit :=
  now ← outside Now; on_keyCache name (cache.Put now id k).
Definition aliasIndex_Get (name alias : string) : X (option string) :=
  now ← outside Now; on_aliasIndex name (cache.Get now alias).
Definition aliasIndex_Put (name alias id : string) : X unit :=
  now ← outside Now; on_aliasIndex name (cache.Put now alias id).

(** The collaborators of a profile; a nil interface panics when it is called. *)
Definition repository {A} (name : string) (m : EncapsulatedKeyRecordRepository W → GoM W A) : X A :=
  st ← the_state name;
  r ← go_lift (KeyRepository (profile_ st));
  outside (m r).
Definition service {A} (name : string) (m : KeyEncapsulationService W → GoM W A) : X A :=
  st ← the_state name;
  s ← go_lift (EncapsulationService (profile_ st));
  outside (m s).

(** ** Profiles and keys *)

(** [strings.Join(names, ", ")] *)
Fixpoint join (l : list string) : string :=
  match l with
  | [] => ""
  | [s] => s
  | s :: l => s +:+ ", " +:+ join l
  end.

(** The profile state is named by its key in [e.profiles]. *)
Definition profileFor (name : string) : X (problem + string) :=
  ns ← go_get (λ s, names (enc s));
  ps ← go_get (λ s, profiles (enc s));
  match ns with
  | [] => fails "no property encryption profiles are configured, set config.Config.PropertyEncryptionProfiles"
  | first :: rest =>
      if bool_decide (name = "") && bool_decide (rest ≠ []) then
        fails ("more than one property encryption profile is configured (" +:+ join ns +:+ "), so one must be named")
      else
        let name := if decide (name = "") then first else name in
        match ps !! name with
        | None => fails ("no property encryption profile is named " +:+ name +:+
                         ", the configured profiles are " +:+ join ns)
        | Some _ => mret (inr name)
        end
  end.

(** The errors of a lookup. *)
Definition lookup_error (p : problem) (absent failed : string) : problem :=
  if is_key_not_found p then EncryptionError absent (Some p) else wrap failed p.

Definition decapsulate (name : string) (r : EncapsulatedKeyRecord) : X (problem + DataKey) :=
  res ← service name (λ s, Decapsulate s (Encapsulation r) (Metadata r));
  match res with
  | inl p => mret (inl (wrap ("could not unwrap encryption key " +:+ ID (key_of r)) p))
  | inr dek =>
      match NewDataKey dek with
      | inl msg => mret (inl (EncryptionError ("could not prepare encryption key " +:+ ID (key_of r))
                                (Some (plain_error msg))))
      | inr dataKey => mret (inr dataKey)
      end
  end.

Definition resolveByID (name id : string) : X (problem + (string * DataKey)) :=
  cached ← keyCache_Get name id;
  match cached with
  | Some dataKey => mret (inr (id, dataKey))
  | None =>
      found ← repository name (λ r, FindByID r id);
      match found with
      | inl p => mret (inl (lookup_error p ("no encryption key has id " +:+ id +:+ " in profile " +:+ name)
                              ("could not look up encryption key " +:+ id)))
      | inr record =>
          dataKey ←? decapsulate name record;
          keyCache_Put name id dataKey;;
          mret (inr (id, dataKey))
      end
  end.

(** The part of [resolveByAlias] after the caches. *)
Definition lookupAlias (name alias : string) : X (problem + (string * DataKey)) :=
  found ← repository name (λ r, FindByAlias r alias);
  match found with
  | inl p => mret (inl (lookup_error p ("no encryption key has alias " +:+ alias +:+ " in profile " +:+ name)
                          ("could not look up encryption key alias " +:+ alias)))
  | inr record =>
      let id := ID (key_of record) in
      if decide (id = "") then fails ("the key repository returned a key with no id for alias " +:+ alias)
      else
        dataKey ←? decapsulate name record;
        aliasIndex_Put name alias id;;
        keyCache_Put name id dataKey;;
        mret (inr (id, dataKey))
  end.

Definition resolveByAlias (name alias : string) : X (problem + (string * DataKey)) :=
  id ← aliasIndex_Get name alias;
  match id with
  | None => lookupAlias name alias
  | Some id =>
      cached ← keyCache_Get name id;
      match cached with
      | Some dataKey => mret (inr (id, dataKey))
      | None => on_aliasIndex name (cache.Remove alias);; lookupAlias name alias
      end
  end.

Definition resolve (name : string) (r : KeyReference) : X (problem + (string * DataKey)) :=
  match kind r with
  | keyReferenceAlias => resolveByAlias name (ref_value r)
  | _ => resolveByID name (ref_value r)
  end.

(** ** Encrypting *)

(** [x == nil] *)
Definition is_nil (x : goval) : bool := match x with GNil => true | _ => false end.

Definition lift {A} (o : outcome A) : X A := λ s,
  match o with Done a => Done (a, s) | Panic => Panic | OutOfFuel => OutOfFuel end.

(** The bytes to authenticate and their metadata. *)
Definition aad_metadata (aad : goval) : X (problem + (list byte * structure.Metadata)) :=
  if is_nil aad then mret (inr ([], ∅))
  else
    r ← lift (encoder.EncodeAAD typeOf aad);
    mret (match r with
          | inl p => inl (asError "the additional authenticated data cannot be used" p)
          | inr a =>
              inr (encoder.Bytes a,
                   <[MetadataAADEncodingSchemeMinor := MInt (Minor (encoder.Baseline a))]>
                   (<[MetadataAADEncodingSchemeMajor := MInt (Major (encoder.Baseline a))]>
                   (<[MetadataAAD := MBytes (encoder.Bytes a)]> ∅)))
          end).

(** From the initialisation vector on. *)
Definition seal_value (name : string) (encoded : encoder.Encoded) (aadBytes : list byte)
    (metadata : structure.Metadata) (keyID : string) (dataKey : DataKey) : X (problem + list byte) :=
  iv ← outside NewIV;
  match iv with
  | inl p => mret (inl (EncryptionError "could not create an initialisation vector" (Some p)))
  | inr iv =>
      match Seal dataKey iv (encoder.Bytes encoded) aadBytes with
      | inl p => mret (inl (EncryptionError "could not encrypt the value" (Some p)))
      | inr cipherOutput =>
          let metadata := <[MetadataIV := MBytes iv]> (<[MetadataKeyID := MString keyID]> metadata) in
          mret (match EncodeEncrypted (mkEncrypted ProfileTypeEnvelope EnvelopeProfileVersion name cipherOutput
                                         (encoder.TypeName encoded) (encoder.Baseline encoded) metadata) with
                | inl p => inl (EncryptionError "could not assemble the encrypted value" (Some p))
                | inr encrypted => inr encrypted
                end)
      end
  end.

Definition encrypt (request : EncryptRequest) (aad : goval) : X (problem + list byte) :=
  name ←? profileFor (req_Profile request);
  if decide (kind (req_Key request) = keyReferenceNone)
  then fails "no encryption key was named, use KeyAlias or KeyID"
  else
    r ← lift (encoder.EncodeValue typeOf (req_Value request));
    match r with
    | inl p => mret (inl (asError "the value cannot be encrypted" p))
    | inr encoded =>
        am ←? aad_metadata aad;
        kd ←? resolve name (req_Key request);
        seal_value name encoded am.1 am.2 kd.1 kd.2
    end.

Definition Encrypt (request : EncryptRequest) : X (problem + list byte) := encrypt request GNil.

Definition EncryptWithAAD (request : EncryptRequest) (aad : goval) : X (problem + list byte) :=
  if is_nil aad then fails "no additional authenticated data was supplied, use Encrypt to encrypt without it"
  else encrypt request aad.

(** ** Decrypting *)

Definition aadFor (s : Encrypted) (aad : goval) (explicit : bool) : X (problem + list byte) :=
  if negb explicit then mret (inr (default [] (Metadata_Bytes (metadata s) MetadataAAD)))
  else
    r ← lift (encoder.EncodeAAD typeOf aad);
    mret (match r with
          | inl p => inl (asError "the additional authenticated data cannot be used" p)
          | inr encoded =>
              match Metadata_Int (metadata s) MetadataAADEncodingSchemeMajor,
                    Metadata_Int (metadata s) MetadataAADEncodingSchemeMinor with
              | Some major, Some minor =>
                  let recorded := mkVersion major minor in
                  if decide (encoder.Baseline encoded ≠ recorded) then
                    inl (EncryptionError ("the additional authenticated data has to be encoded with Bolt Value " +:+
                      "Encoding Scheme " +:+ Version_String recorded +:+ " to match this value, but this driver " +:+
                      "encodes it with " +:+ Version_String (encoder.Baseline encoded)) None)
                  else inr (encoder.Bytes encoded)
              | _, _ =>
                  match Metadata_Bytes (metadata s) MetadataAAD with
                  | None => inl (EncryptionError ("this value was not encrypted with additional authenticated " +:+
                                   "data, decrypt it with Decrypt") None)
                  | Some _ => inr (encoder.Bytes encoded)
                  end
              end
          end).

(** From the data key on.  Decoding ends within as many steps as there are bytes. *)
Definition open_value (s : Encrypted) (iv aadBytes : list byte) (dataKey : DataKey) : X (problem + value) :=
  match Open dataKey iv (CipherOutput s) aadBytes with
  | inl p => mret (inl (EncryptionError "could not decrypt the value" (Some p)))
  | inr plaintext =>
      r ← lift (decode.DecodeValue (length plaintext + 2) plaintext (TypeName s) (Baseline s));
      mret (match r with
            | inl p => inl (asError "the decrypted value could not be read" p)
            | inr v => inr v
            end)
  end.

Definition decrypt (encrypted : list byte) (aad : goval) (explicit : bool) : X (problem + value) :=
  r ← lift (DecodeEncrypted encrypted);
  match r with
  | inl p => mret (inl (asError "the value is not a Neo4j encrypted value" p))
  | inr s =>
      name ←? profileFor (ProfileName s);
      match Metadata_Bytes (metadata s) MetadataIV with
      | None => fails "the encrypted value has no initialisation vector"
      | Some iv =>
          match Metadata_String (metadata s) MetadataKeyID with
          | None => fails "the encrypted value does not say which key encrypted it"
          | Some keyID =>
              aadBytes ←? aadFor s aad explicit;
              kd ←? resolve name (KeyID keyID);
              open_value s iv aadBytes kd.2
          end
      end
  end.

Definition Decrypt (encrypted : list byte) : X (problem + value) := decrypt encrypted GNil false.

Definition DecryptWithAAD (encrypted : list byte) (aad : goval) : X (problem + value) :=
  if is_nil aad then
    fails ("no additional authenticated data was supplied, use Decrypt to authenticate against the " +:+
           "data stored with the value")
  else decrypt encrypted aad true.

(** ** The key manager *)

(** [Keys]: a manager is the name of its profile. *)
Definition Keys (profileName : string) : X (problem + string) := profileFor profileName.

Definition KM_Create (name alias : string) (options : gmap string string) : X (problem + EncapsulatedKey) :=
  res ← service name (λ s, Encapsulate s options);
  match res with
  | inl p => mret (inl (wrap "could not create an encryption key" p))
  | inr result =>
      match NewDataKey (Key result) with
      | inl msg => mret (inl (EncryptionError "the key encapsulation service returned an unusable key"
                                (Some (plain_error msg))))
      | inr dataKey =>
          stored ← repository name (λ r, Create r alias (res_Encapsulation result) (res_Metadata result));
          match stored with
          | inl p => mret (inl (wrap "could not store the new encryption key" p))
          | inr record =>
              let id := ID (key_of record) in
              if decide (id = "") then
                fails "the key repository stored the new encryption key without giving it an id"
              else
                (if decide (alias ≠ "") then aliasIndex_Put name alias id else mret tt);;
                keyCache_Put name id dataKey;;
                mret (inr (key_of record))
          end
      end
  end.

Definition KM_FindByAlias (name alias : string) : X (problem + EncapsulatedKey) :=
  found ← repository name (λ r, FindByAlias r alias);
  mret (match found with
        | inl p => inl (lookup_error p ("no encryption key has alias " +:+ alias +:+ " in profile " +:+ name)
                          ("could not look up encryption key alias " +:+ alias))
        | inr record => inr (key_of record)
        end).

Definition setAlias (name id alias : string) : X (option problem) :=
  if decide (id = "") then mret (Some (EncryptionError "an encryption key id cannot be empty" None))
  else
    r ← repository name (λ r, SetAlias r id alias);
    match r with
    | Some p => mret (Some (lookup_error p ("no encryption key has id " +:+ id +:+ " in profile " +:+ name)
                              ("could not set the alias of encryption key " +:+ id)))
    | None => on_aliasIndex name cache.Clear;; mret None
    end.

Definition KM_SetAlias (name id alias : string) : X (option problem) :=
  if decide (alias = "") then
    mret (Some (EncryptionError "an encryption key alias cannot be empty, use DeleteAlias" None))
  else setAlias name id alias.

Definition KM_DeleteAlias (name id : string) : X (option problem) := setAlias name id "".

Definition KM_DeleteByID (name id : string) : X (option problem) :=
  if decide (id = "") then mret (Some (EncryptionError "an encryption key id cannot be empty" None))
  else
    r ← repository name (λ r, DeleteByID r id);
    match r with
    | Some p => mret (Some (lookup_error p ("no encryption key has id " +:+ id +:+ " in profile " +:+ name)
                              ("could not delete encryption key " +:+ id)))
    | None => on_keyCache name (cache.Remove id);; on_aliasIndex name cache.Clear;; mret None
    end.
End Calls.
End encryption.
