(* ===== verification/KeyContracts.v ===== *)
(** What the collaborators of property encryption promise: the documented behaviour of
    a key encapsulation service and of a key repository, against which the theorems
    about encryption are proved. *)

From S2P Require Import Prelude Packer Errors Encoding Encryption.
From stdpp Require Import gmap.
#[local] Open Scope Z_scope.
#[local] Open Scope go_scope.
Import crypto keys.

(** What is outside the driver only moves on: [after w w'] says that [w'] can follow
    [w].  [ledger name w] records the data key of every id ever given to a key of the
    profile [name]; ids are never reused, so it only grows. *)
Class Worlds (W : Type) `{Host W} : Type := {
  after : relation W;
  after_preorder :: PreOrder after;
  ledger : string → W → gmap string (list byte);
  ledger_after name w w' : after w w' → ledger name w ⊆ ledger name w';
  Now_after w : ∃ t w', Now w = Done (t, w') ∧ after w w';
  rand_after n w : ∃ r w', rand_Read n w = Done (r, w') ∧ after w w'
}.

Section Contracts.
Context {W : Type} `{Worlds W}.

(** [m] returns, and what it returns satisfies [Q]. *)
Definition promises {A} (m : GoM W A) (Q : W → A → W → Prop) : Prop :=
  ∀ w, ∃ a w', m w = Done (a, w') ∧ after w w' ∧ Q w a w'.

(** A key encapsulation service: what [Encapsulate] protects, [Decapsulate] recovers,
    if it does not fail. *)
Class Faithful (s : KeyEncapsulationService W) : Type := {
  unwraps : list byte → gmap string string → list byte → Prop;
  unwraps_fun e m k k' : unwraps e m k → unwraps e m k' → k = k';
  Encapsulate_promise o : promises (Encapsulate s o)
    (λ _ r _, ∀ res, r = inr res → unwraps (res_Encapsulation res) (res_Metadata res) (Key res));
  Decapsulate_promise e m : promises (Decapsulate s e m)
    (λ _ r _, ∀ k, r = inr k → unwraps e m k)
}.

(** A record whose encapsulation is that of the key known under [id]. *)
Definition genuine (s : KeyEncapsulationService W) `{!Faithful s} (name : string) (w : W) (id : string)
    (r : EncapsulatedKeyRecord) : Prop :=
  ∃ k, ledger name w !! id = Some k ∧ unwraps (Encapsulation r) (Metadata r) k.

(** A key repository: it returns the records it was given, under ids of its own. *)
Class Store (name : string) (s : KeyEncapsulationService W) `{!Faithful s}
    (r : EncapsulatedKeyRecordRepository W) : Prop := {
  FindByID_promise id : promises (FindByID r id)
    (λ _ res w', ∀ record, res = inr record → genuine s name w' id record);
  FindByAlias_promise alias : promises (FindByAlias r alias)
    (λ _ res w', ∀ record, res = inr record → genuine s name w' (ID (key_of record)) record);
  Create_promise alias e m k : unwraps e m k → promises (Create r alias e m)
    (λ _ res w', ∀ record, res = inr record → ledger name w' !! ID (key_of record) = Some k);
  SetAlias_promise id alias : promises (SetAlias r id alias) (λ _ _ _, True);
  DeleteByID_promise id : promises (DeleteByID r id) (λ _ _ _, True)
}.
End Contracts.
