(* ===== verification/LocalKeys.v ===== *)
(** The key encapsulation service that keeps its key in the application: local.go,
    with the base64 encoding it stores vectors in; and what a key encapsulation
    service promises to encryption, which this one keeps. *)

From S2P Require Import Prelude Packer Errors Encoding Encryption KeyContracts.
From stdpp Require Import gmap.
#[local] Open Scope Z_scope.
#[local] Open Scope go_scope.
Import crypto keys.

(** * base64.StdEncoding *)

Module base64.

Definition padding : byte := Byte.x3d.

(** The alphabet: A-Z, a-z, 0-9, + and /. *)
Definition char_of (n : Z) : byte :=
  to_byte (if n <? 26 then 65 + n else if n <? 52 then 71 + n else if n <? 62 then n - 4
           else if n =? 62 then 43 else 47).

Definition digit_of (b : byte) : option Z :=
  let c := of_byte b in
  if (65 <=? c) && (c <=? 90) then Some (c - 65)
  else if (97 <=? c) && (c <=? 122) then Some (c - 71)
  else if (48 <=? c) && (c <=? 57) then Some (c + 4)
  else if c =? 43 then Some 62
  else if c =? 47 then Some 63
  else None.

(** The digit of [v] of weight [w]. *)
Definition sextet (v w : Z) : byte := char_of (v / w mod 64).

Fixpoint encode (l : list byte) : list byte :=
  match l with
  | a :: b :: c :: l =>
      let v := of_byte a * 65536 + of_byte b * 256 + of_byte c in
      sextet v 262144 :: sextet v 4096 :: sextet v 64 :: sextet v 1 :: encode l
  | [a; b] =>
      let v := of_byte a * 65536 + of_byte b * 256 in
      [sextet v 262144; sextet v 4096; sextet v 64; padding]
  | [a] =>
      let v := of_byte a * 65536 in
      [sextet v 262144; sextet v 4096; padding; padding]
  | [] => []
  end.

Definition EncodeToString (l : list byte) : string := string_of (encode l).

(** The bytes of four digits. *)
Definition octets (v : Z) : list byte := [to_byte (v / 65536); to_byte (v / 256); to_byte v].

(** Groups of four characters; only the last may end in padding. *)
Fixpoint decode (l : list byte) : option (list byte) :=
  match l with
  | [] => Some []
  | a :: b :: c :: d :: l =>
      x ← digit_of a; y ← digit_of b;
      let v := x * 262144 + y * 4096 in
      if decide (c = padding) then
        if decide (d = padding ∧ l = []) then Some (take 1 (octets v)) else None
      else
        z ← digit_of c;
        let v := v + z * 64 in
        if decide (d = padding) then if decide (l = []) then Some (take 2 (octets v)) else None
        else
          w ← digit_of d; rest ← decode l;
          Some (octets (v + w) ++ rest)
  | _ => None
  end.

(** Line ends are ignored. *)
Definition DecodeString (s : string) : option (list byte) :=
  decode (filter (λ b, b ≠ Byte.x0a ∧ b ≠ Byte.x0d) (bytes_of s)).

(** ** What was encoded is decoded *)

Lemma digit_table :
  Forall (λ n, digit_of (char_of n) = Some n ∧ char_of n ≠ padding ∧ char_of n ≠ Byte.x0a ∧
               char_of n ≠ Byte.x0d) (seqZ 0 64).
Proof. refine (bool_decide_unpack _ _). vm_compute. exact I. Qed.

Lemma sextet_digit v w :
  digit_of (sextet v w) = Some (v / w mod 64) ∧ sextet v w ≠ padding ∧ sextet v w ≠ Byte.x0a ∧
  sextet v w ≠ Byte.x0d.
Proof.
  pose proof digit_table as Ht. rewrite Forall_forall in Ht. apply Ht. apply elem_of_seqZ.
  pose proof (Z.mod_pos_bound (v / w) 64). lia.
Qed.

Lemma of_byte_bounds b : 0 <= of_byte b < 256.
Proof. apply byte.unsigned_range. Qed.

Lemma to_byte_same a z : z mod 256 = of_byte a → to_byte z = a.
Proof.
  intros Hz. apply byte.unsigned_inj. rewrite byte.unsigned_of_Z. exact Hz.
Qed.

(** The digits of [v], put together again. *)
Lemma sextets_value v :
  0 <= v < 16777216 →
  v / 262144 mod 64 * 262144 + v / 4096 mod 64 * 4096 + v / 64 mod 64 * 64 + v / 1 mod 64 = v.
Proof. intros Hv. rewrite Z.div_1_r. Z.to_euclidean_division_equations. lia. Qed.

Lemma octets_value a b c :
  octets (of_byte a * 65536 + of_byte b * 256 + of_byte c) = [a; b; c].
Proof.
  pose proof (of_byte_bounds a). pose proof (of_byte_bounds b). pose proof (of_byte_bounds c).
  unfold octets. f_equal; [| f_equal; [| f_equal]]; apply to_byte_same;
    Z.to_euclidean_division_equations; lia.
Qed.

Ltac digits :=
  repeat match goal with |- context [digit_of (sextet ?v ?w)] =>
    let H1 := fresh in destruct (sextet_digit v w) as [H1 _]; rewrite H1; clear H1 end; simpl.

Lemma bytes_ind3 (Q : list byte → Prop) :
  Q [] → (∀ a, Q [a]) → (∀ a b, Q [a; b]) → (∀ a b c l, Q l → Q (a :: b :: c :: l)) → ∀ l, Q l.
Proof.
  intros H0 H1 H2 H3 l. assert (Hl : Q l ∧ (∀ a, Q (a :: l)) ∧ ∀ a b, Q (a :: b :: l)); [| apply Hl].
  induction l as [| x l (IH1 & IH2 & IH3)]; [auto |]. split_and!; auto.
Qed.

Lemma base64_decode_encode l : decode (encode l) = Some l.
Proof.
  induction l as [| a | a b | a b c l IH] using bytes_ind3; [done | | |]; cbn [encode decode].
  - digits. f_equal.
    pose proof (of_byte_bounds a). unfold octets. simpl. f_equal. apply to_byte_same.
    Z.to_euclidean_division_equations. lia.
  - destruct (sextet_digit (of_byte a * 65536 + of_byte b * 256) 64) as (_ & Hp & _).
    digits. rewrite decide_False by done. simpl. f_equal.
    pose proof (of_byte_bounds a). pose proof (of_byte_bounds b). unfold octets. simpl.
    f_equal; [| f_equal]; apply to_byte_same; Z.to_euclidean_division_equations; lia.
  - set (v := of_byte a * 65536 + of_byte b * 256 + of_byte c).
    destruct (sextet_digit v 64) as (_ & Hp2 & _), (sextet_digit v 1) as (_ & Hp3 & _).
    digits. rewrite !decide_False by done. simpl. rewrite IH. simpl. rewrite sextets_value; [| unfold v].
    + pose proof (octets_value a b c) as Ho. fold v in Ho. unfold octets in Ho. by injection Ho as -> -> ->.
    + pose proof (of_byte_bounds a). pose proof (of_byte_bounds b). pose proof (of_byte_bounds c). lia.
Qed.

Lemma encode_no_line_ends l : Forall (λ b, b ≠ Byte.x0a ∧ b ≠ Byte.x0d) (encode l).
Proof.
  induction l as [| a | a b | a b c l IH] using bytes_ind3; cbn [encode]; repeat constructor;
    try apply sextet_digit; done.
Qed.

Lemma base64_roundtrip l : DecodeString (EncodeToString l) = Some l.
Proof.
  unfold DecodeString, EncodeToString. rewrite String.list_byte_of_string_of_list_byte.
  assert (E : filter (λ b, b ≠ Byte.x0a ∧ b ≠ Byte.x0d) (encode l) = encode l).
  { pose proof (encode_no_line_ends l) as Hl. induction Hl; [done |]. rewrite filter_cons, decide_True by done.
    by f_equal. }
  rewrite E. apply base64_decode_encode.
Qed.
End base64.

(** * The local service (local.go) *)

Module local.
Import Encryption.profile.

Definition localMetadataIV : string := "iv".

Record LocalKeyEncapsulationService : Type := mkLocal { kek : DataKey }.

Definition NewLocalKeyEncapsulationService (key : list byte) : problem + LocalKeyEncapsulationService :=
  match NewDataKey key with
  | inl msg => inl (usage ("invalid local key encryption key: " +:+ msg))
  | inr k => inr (mkLocal k)
  end.

Section Local.
Context {W : Type} `{Host W, AesGcm}.

Definition not_wrapped (p : problem) : problem + KeyEncapsulationResult :=
  inl (EncryptionError "could not wrap the data encryption key" (Some p)).

Definition local_Encapsulate (s : LocalKeyEncapsulationService) (_ : gmap string string) :
    GoM W (problem + KeyEncapsulationResult) :=
  dek ← NewDEK;
  match dek with
  | inl p => mret (inl (EncryptionError "could not create a data encryption key" (Some p)))
  | inr dek =>
      iv ← NewIV;
      match iv with
      | inl p => mret (not_wrapped p)
      | inr iv =>
          mret (match Seal (kek s) iv dek [] with
                | inl p => not_wrapped p
                | inr encapsulation =>
                    inr (mkResult dek encapsulation {[ localMetadataIV := base64.EncodeToString iv ]})
                end)
      end
  end.

(** The position in the text of a decoding error is not represented. *)
Definition local_Decapsulate (s : LocalKeyEncapsulationService) (encapsulation : list byte)
    (metadata : gmap string string) : GoM W (problem + list byte) :=
  mret (match metadata !! localMetadataIV with
        | None => inl (EncryptionError ("the encapsulated key has no " +:+ localMetadataIV +:+
                    " metadata and was not wrapped by a local key encapsulation service") None)
        | Some encoded =>
            match base64.DecodeString encoded with
            | None => inl (EncryptionError ("the encapsulated key has unreadable " +:+ localMetadataIV +:+
                        " metadata") (Some (plain_error "illegal base64 data")))
            | Some iv =>
                match Open (kek s) iv encapsulation [] with
                | inl p => inl (EncryptionError ("could not unwrap the data encryption key, the key " +:+
                             "encryption key may be wrong") (Some p))
                | inr dek => inr dek
                end
            end
        end).

Definition local_service (s : LocalKeyEncapsulationService) : KeyEncapsulationService W :=
  mkService (local_Encapsulate s) (local_Decapsulate s).
End Local.
End local.

(** * The local service keeps its promise *)

Section Promise.
Context {W : Type} `{Worlds W, AesGcm, !GcmLaws}.
Import local.

(** What the local service makes of an encapsulation, as a value. *)
Definition local_unwrap (s : LocalKeyEncapsulationService) (e : list byte) (m : gmap string string) :
    option (list byte) :=
  encoded ← m !! localMetadataIV;
  iv ← base64.DecodeString encoded;
  match Open (kek s) iv e [] with inr dek => Some dek | inl _ => None end.

Lemma draw_promise n what : promises (draw n what) (λ _ _ _, True).
Proof.
  intros w. destruct (rand_after n w) as (r & w' & E & Ha). unfold draw, mbind, GoM_bind. rewrite E.
  by eexists _, w'.
Qed.

Lemma local_wraps s o w :
  ∃ r w', local_Encapsulate s o w = Done (r, w') ∧ after w w' ∧
    ∀ res, r = inr res → local_unwrap s (res_Encapsulation res) (res_Metadata res) = Some (Key res).
Proof.
  unfold local_Encapsulate, mbind, GoM_bind.
  destruct (draw_promise KeySize "generating a data encryption key" w) as ([p | dek] & w1 & E1 & Ha1 & _);
    unfold NewDEK; rewrite E1; [by eexists _, w1 |].
  destruct (draw_promise IVSize "generating an initialisation vector" w1) as ([p | iv] & w2 & E2 & Ha2 & _);
    unfold NewIV; rewrite E2; [eexists _, w2; split_and!; [done | by etrans | done] |].
  eexists _, w2. split; [reflexivity |]. split; [by etrans |]. intros res.
  unfold Seal. destruct (Packer.len iv =? IVSize) eqn:El; [| done]. intros [= <-]. simpl.
  unfold local_unwrap. rewrite lookup_singleton_eq. simpl. rewrite base64.base64_roundtrip. simpl.
  unfold Open. by rewrite El, open_seal.
Qed.

#[global] Program Instance local_faithful (s : LocalKeyEncapsulationService) : Faithful (local_service s) := {
  unwraps e m k := local_unwrap s e m = Some k
}.
Next Obligation. intros s e m k k' E1 E2. congruence. Qed.
Next Obligation. intros s o w. apply local_wraps. Qed.
Next Obligation.
  intros s e m w. eexists _, w. split; [reflexivity |]. split; [reflexivity |]. intros k.
  unfold local_unwrap. destruct (m !! localMetadataIV) as [t |]; [simpl | done].
  destruct (base64.DecodeString t) as [iv |]; [simpl | done]. destruct (Open _ _ _ _); [done | by intros [= ->]].
Qed.
End Promise.

(** The data key that the local service creates is the one it recovers: whatever
    state the world is in later, [Decapsulate] on the encapsulation and metadata that
    [Encapsulate] returned gives the key that it returned. *)
Theorem local_roundtrip `{Worlds W, AesGcm, !GcmLaws} (s : local.LocalKeyEncapsulationService) options (w : W) res w' (w2 : W) :
  local.local_Encapsulate s options w = Done (inr res, w') →
  local.local_Decapsulate s (res_Encapsulation res) (res_Metadata res) w2 = Done (inr (Key res), w2).
Proof.
  intros E. destruct (local_wraps s options w) as (r & w1 & E1 & _ & Hr). rewrite E in E1. simplify_eq.
  specialize (Hr res eq_refl). unfold local_unwrap in Hr. unfold local.local_Decapsulate.
  destruct (res_Metadata res !! local.localMetadataIV) as [t |]; [simpl in Hr | done].
  destruct (base64.DecodeString t) as [iv |]; [simpl in Hr | done].
  destruct (Open _ _ _ _); by simplify_eq.
Qed.
