(* ===== verification/EncryptionFacts.v ===== *)
(** Property encryption keeps its promise: what was encrypted decrypts to the same
    value for as long as its key can be resolved, other additional data is rejected,
    and the caches never hand out a key other than the one known under its id. *)

From S2P Require Import Prelude GoTime Packer Values Errors Unpacker Reading Hydrator Messages Outgoing RoundTrip.
From S2P Require Import Encoding EncodingFacts StructureFacts KeyCache KeyCacheFacts Encryption KeyContracts.
From stdpp Require Import gmap sorting.
#[local] Open Scope Z_scope.
#[local] Open Scope go_scope.
Import scheme structure crypto keys profile encryption.

Section Facts.
Context {W : Type} `{Worlds W, AesGcm, !GcmLaws, TzDb}.
Context (repo : string → EncapsulatedKeyRecordRepository W) (serv : string → KeyEncapsulationService W).
Context `{!∀ name, Faithful (serv name), !∀ name, Store name (serv name) (repo name)}.
Variable typeOf : goval → string.
Implicit Types (s : env W) (w : W).

(** * The invariant *)

(** Every cached key is the one known under its id. *)
Definition holds_keys (name : string) (w : W) (c : cache.Cache DataKey) : Prop :=
  ∃ l, refines c l ∧ Forall (λ e, ledger name w !! cache.key e = Some (aead (cache.value e))) l.

Record state_ok (ns : list string) (w : W) (name : string) (st : profileState W) : Prop := {
  so_name : name ∈ ns ∧ name ≠ "";
  so_repo : KeyRepository (profile_ st) = Some (repo name);
  so_serv : EncapsulationService (profile_ st) = Some (serv name);
  so_keys : holds_keys name w (keyCache st);
  so_alias : ∃ l, refines (aliasIndex st) l
}.

Definition coherent (s : env W) : Prop :=
  map_Forall (state_ok (names (enc s)) (world s)) (profiles (enc s)).

(** What calls change: the world moves on, the configuration stays. *)
Definition later (s s' : env W) : Prop :=
  after (world s) (world s') ∧ names (enc s') = names (enc s) ∧
  ∀ name, is_Some (profiles (enc s) !! name) ↔ is_Some (profiles (enc s') !! name).

#[global] Instance later_preorder : PreOrder later.
Proof.
  split.
  - intros s. split_and!; done.
  - intros s1 s2 s3 (A1 & N1 & P1) (A2 & N2 & P2). split_and!; [by etrans | congruence |].
    intros name. by rewrite P1.
Qed.

(** Conditions that calls preserve. *)
Class Stable (P : env W → Prop) : Prop := stable : ∀ s s', later s s' → P s → P s'.

Definition known (name : string) (s : env W) : Prop := is_Some (profiles (enc s) !! name).
Definition entry (name id : string) (k : DataKey) (s : env W) : Prop :=
  ledger name (world s) !! id = Some (aead k).
Definition always (φ : Prop) (s : env W) : Prop := φ.

#[global] Instance stable_known name : Stable (known name).
Proof. intros s s' (_ & _ & Hp). apply Hp. Qed.
#[global] Instance stable_entry name id k : Stable (entry name id k).
Proof. intros s s' (Ha & _) Hs. unfold entry in *. eapply lookup_weaken; [done |]. by apply ledger_after. Qed.
#[global] Instance stable_always φ : Stable (always φ).
Proof. by intros s s' _. Qed.
#[global] Instance stable_and P Q : Stable P → Stable Q → Stable (λ s, P s ∧ Q s).
Proof. intros HP HQ s s' Hl [? ?]. eauto. Qed.

Lemma coherent_after s w : coherent s → after (world s) w → coherent (mkEnv (enc s) w).
Proof.
  intros Hs Ha name st Hst. destruct (Hs name st Hst) as [Hn Hr He (l & Hl & Hk) Hal].
  split; try done. exists l. split; [done |]. eapply Forall_impl; [done |]. simpl. intros e Hek.
  eapply lookup_weaken; [done |]. by apply ledger_after.
Qed.

(** * Calls

    From a coherent state satisfying [P], [m] returns, in a later coherent state in
    which its answer satisfies [Q]. *)
Definition does {A} (P : env W → Prop) (m : GoM (env W) A) (Q : A → env W → Prop) : Prop :=
  ∀ s, coherent s → P s → ∃ a s', m s = Done (a, s') ∧ coherent s' ∧ later s s' ∧ Q a s'.

Lemma does_ret {A} P (a : A) (Q : A → env W → Prop) : (∀ s, P s → Q a s) → does P (mret a) Q.
Proof. intros HQ s Hs HP. exists a, s. split_and!; [done.. | auto]. Qed.

Lemma does_bind {A B} P (m : GoM (env W) A) Q (f : A → GoM (env W) B) R `{!Stable P} :
  does P m Q → (∀ a, does (λ s, P s ∧ Q a s) (f a) R) → does P (m ≫= f) R.
Proof.
  intros Hm Hf s Hs HP. destruct (Hm s Hs HP) as (a & s1 & E1 & Hs1 & L1 & HQ).
  destruct (Hf a s1 Hs1) as (b & s2 & E2 & Hs2 & L2 & HR); [split; [by eapply stable | done] |].
  exists b, s2. unfold mbind, GoM_bind. rewrite E1, E2. split_and!; [done.. | by etrans | done].
Qed.

Lemma does_weaken {A} (P P' : env W → Prop) (m : GoM (env W) A) (Q Q' : A → env W → Prop) :
  does P m Q → (∀ s, P' s → P s) → (∀ a s, Q a s → Q' a s) → does P' m Q'.
Proof.
  intros Hm HP HQ s Hs HP'. destruct (Hm s Hs (HP _ HP')) as (a & s' & ? & ? & ? & ?).
  exists a, s'. split_and!; [done.. | auto].
Qed.

Lemma does_pure {A} (P : env W → Prop) (φ : Prop) (m : GoM (env W) A) Q :
  (φ → does P m Q) → does (λ s, P s ∧ φ) m Q.
Proof. intros Hm s Hs [HP Hφ]. by apply Hm. Qed.

(** Success satisfies [Q]; nothing is said of an error. *)
Definition ok {A} (Q : A → env W → Prop) (r : problem + A) (s : env W) : Prop :=
  match r with inr a => Q a s | inl _ => True end.

Lemma does_try {A B} P (m : GoM (env W) (problem + A)) Q (f : A → GoM (env W) (problem + B)) R `{!Stable P} :
  does P m (ok Q) → (∀ a, does (λ s, P s ∧ Q a s) (f a) (ok R)) → does P (try m f) (ok R).
Proof.
  intros Hm Hf. eapply does_bind; [done | exact Hm |]. intros [p | a]; [by apply does_ret | apply Hf].
Qed.

Lemma does_get {A} P (f : env W → A) : does P (go_get f) (λ a s, a = f s).
Proof. intros s Hs _. by exists (f s), s. Qed.

Lemma does_outside {A} P (m : GoM W A) (Q : W → A → W → Prop) :
  promises m Q → does P (outside m) (λ a s, ∃ w, Q w a (world s)).
Proof.
  intros Hm s Hs _. destruct (Hm (world s)) as (a & w' & E & Ha & HQ).
  exists a, (mkEnv (enc s) w'). unfold outside. rewrite E. split_and!; [done | by apply coherent_after | done |].
  by exists (world s).
Qed.

Lemma does_lift {A} P (o : outcome A) a : o = Done a → does P (lift o) (λ b _, b = a).
Proof. intros -> s Hs _. by exists a, s. Qed.

(** ** The caches *)

(** Replacing the caches of a profile by coherent ones. *)
Lemma coherent_put name st st' s :
  coherent s → profiles (enc s) !! name = Some st → profile_ st' = profile_ st →
  holds_keys name (world s) (keyCache st') → (∃ l, refines (aliasIndex st') l) →
  let s' := mkEnv (mkEncryption (<[name := st']> (profiles (enc s))) (names (enc s))) (world s) in
  coherent s' ∧ later s s'.
Proof.
  intros Hs Hst Hp Hk Ha. destruct (Hs _ _ Hst) as [Hn Hr He _ _]. split.
  - intros n x. simpl. destruct (decide (n = name)) as [-> | Hne].
    + rewrite lookup_insert_eq. intros [= <-]. split; [done | congruence | congruence | done | done].
    + rewrite lookup_insert_ne by done. apply Hs.
  - split_and!; [done | done |]. intros n. simpl. destruct (decide (n = name)) as [-> | Hne].
    + rewrite lookup_insert_eq, Hst. split; eauto.
    + by rewrite lookup_insert_ne.
Qed.

Lemma does_keyCache {A} (P : env W → Prop) name (m : GoM (cache.Cache DataKey) A) (Q : A → W → Prop) :
  (∀ s, P s → known name s) →
  (∀ s c, P s → holds_keys name (world s) c →
     ∃ a c', m c = Done (a, c') ∧ holds_keys name (world s) c' ∧ Q a (world s)) →
  does P (on_keyCache name m) (λ a s, Q a (world s)).
Proof.
  intros HP Hm s Hs Ps. destruct (HP s Ps) as [st Hst]. destruct (Hs _ _ Hst) as [_ _ _ Hk Ha].
  destruct (Hm s _ Ps Hk) as (a & c' & E & Hk' & HQ).
  destruct (coherent_put name st (mkState (profile_ st) (aliasIndex st) c') s Hs Hst eq_refl Hk' Ha) as [Hc Hl].
  eexists a, _. split; [| split; [exact Hc | split; [exact Hl | exact HQ]]].
  unfold on_keyCache, the_state, go_get, go_lift, mbind, GoM_bind. rewrite Hst. by rewrite E.
Qed.

Lemma does_aliasIndex {A} (P : env W → Prop) name (m : GoM (cache.Cache string) A) :
  (∀ s, P s → known name s) →
  (∀ c l, refines c l → ∃ a c', m c = Done (a, c') ∧ ∃ l', refines c' l') →
  does P (on_aliasIndex name m) (λ _ _, True).
Proof.
  intros HP Hm s Hs Ps. destruct (HP s Ps) as [st Hst]. destruct (Hs _ _ Hst) as [_ _ _ Hk [l Hl]].
  destruct (Hm _ l Hl) as (a & c' & E & Ha').
  destruct (coherent_put name st (mkState (profile_ st) c' (keyCache st)) s Hs Hst eq_refl Hk Ha') as [Hc Hlt].
  eexists a, _. split; [| split; [exact Hc | split; [exact Hlt | done]]].
  unfold on_aliasIndex, the_state, go_get, go_lift, mbind, GoM_bind. rewrite Hst. by rewrite E.
Qed.

Lemma Now_promise : promises Now (λ _ _ _, True).
Proof. intros w. destruct (Now_after w) as (t & w' & E & Ha). by exists t, w'. Qed.

(** After reading the clock. *)
Lemma does_clock {A} P (f : Z → GoM (env W) A) Q `{!Stable P} :
  (∀ now, does P (f now) Q) → does P (now ← outside Now; f now) Q.
Proof.
  intros Hf. eapply does_bind; [done | apply does_outside, Now_promise |]. intros now.
  eapply does_weaken; [apply (Hf now) | by intros ? [? _] | done].
Qed.

Lemma found_key now k (l : list (cache.cacheEntry DataKey)) v :
  (lru.get now k l).1 = Some v → ∃ e, e ∈ l ∧ cache.key e = k ∧ cache.value e = v.
Proof.
  unfold lru.get. destruct (lru.found k l) as [e |] eqn:E; [| done]. apply found_in in E as [Hin Hk].
  case_decide; simpl; [| done]. intros [= <-]. eauto.
Qed.

(** Dropping, moving or adding a coherent entry keeps the entries coherent. *)
Lemma Forall_get now k (l : list (cache.cacheEntry DataKey)) Q : Forall Q l → Forall Q (lru.get now k l).2.
Proof.
  intros Hl. unfold lru.get. destruct (lru.found k l) as [e |] eqn:E; [| done].
  apply found_in in E as [Hin _]. case_decide; simpl; [constructor | ]; try by apply Forall_keep.
  rewrite Forall_forall in Hl. by apply Hl.
Qed.

Lemma does_keyCache_Get name id :
  does (known name) (keyCache_Get name id) (λ o s, ∀ k, o = Some k → entry name id k s).
Proof.
  apply does_clock; [apply _ |]. intros now.
  apply (does_keyCache _ _ _ (λ o w, ∀ k, o = Some k → ledger name w !! id = Some (aead k))); [done |].
  intros s c _ (l & Hl & Hk). destruct (Get_refines c l now id Hl) as (c' & E & Hr & _).
  eexists _, c'. split; [exact E |]. split.
  - eexists. split; [exact Hr | by apply Forall_get].
  - intros k (e & Hin & <- & <-)%found_key. rewrite Forall_forall in Hk. by apply Hk.
Qed.

Lemma does_keyCache_Put name id k :
  does (λ s, known name s ∧ entry name id k s) (keyCache_Put name id k) (λ _ _, True).
Proof.
  apply does_clock; [apply _ |]. intros now.
  apply (does_keyCache _ _ _ (λ _ _, True)); [by intros ? [? _] |].
  intros s c [_ He] (l & Hl & Hk). destruct (Put_refines c l now id k Hl) as (c' & E & Hr & _).
  eexists _, c'. split; [exact E |]. split; [| done]. eexists. split; [exact Hr |].
  apply Forall_take. constructor; [done |]. by do 2 apply Forall_keep.
Qed.

Lemma does_aliasIndex_Get name alias : does (known name) (aliasIndex_Get name alias) (λ _ _, True).
Proof.
  apply does_clock; [apply _ |]. intros now. apply does_aliasIndex; [done |].
  intros c l Hl. destruct (Get_refines c l now alias Hl) as (c' & E & Hr & _). eauto 10.
Qed.

Lemma does_aliasIndex_Put name alias id : does (known name) (aliasIndex_Put name alias id) (λ _ _, True).
Proof.
  apply does_clock; [apply _ |]. intros now. apply does_aliasIndex; [done |].
  intros c l Hl. destruct (Put_refines c l now alias id Hl) as (c' & E & Hr & _). eauto 10.
Qed.

Lemma does_aliasIndex_Remove name alias :
  does (known name) (on_aliasIndex name (cache.Remove alias)) (λ _ _, True).
Proof.
  apply does_aliasIndex; [done |].
  intros c l Hl. destruct (Remove_refines c l alias Hl) as (c' & E & Hr & _). eauto 10.
Qed.

(** ** The collaborators *)

Lemma does_repository {A} name (m : EncapsulatedKeyRecordRepository W → GoM W A) Q :
  promises (m (repo name)) Q → does (known name) (repository name m) (λ a s, ∃ w, Q w a (world s)).
Proof.
  intros Hm s Hs [st Hst]. pose proof (so_repo _ _ _ _ (Hs _ _ Hst)) as Hr.
  destruct (does_outside (λ _, True) _ _ Hm s Hs I) as (a & s' & E & ?). exists a, s'.
  unfold repository, the_state, go_get, go_lift, mbind, GoM_bind. rewrite Hst. simpl. by rewrite Hr.
Qed.

Lemma does_service {A} name (m : KeyEncapsulationService W → GoM W A) Q :
  promises (m (serv name)) Q → does (known name) (service name m) (λ a s, ∃ w, Q w a (world s)).
Proof.
  intros Hm s Hs [st Hst]. pose proof (so_serv _ _ _ _ (Hs _ _ Hst)) as Hr.
  destruct (does_outside (λ _, True) _ _ Hm s Hs I) as (a & s' & E & ?). exists a, s'.
  unfold service, the_state, go_get, go_lift, mbind, GoM_bind. rewrite Hst. simpl. by rewrite Hr.
Qed.

(** * Resolving keys *)

Definition record_of (name id : string) (r : EncapsulatedKeyRecord) (s : env W) : Prop :=
  genuine (serv name) name (world s) id r.

#[global] Instance stable_record name id r : Stable (record_of name id r).
Proof.
  intros s s' (Ha & _) (k & Hk & Hu). exists k. split; [| done].
  eapply lookup_weaken; [done |]. by apply ledger_after.
Qed.

Lemma NewDataKey_inr b k : NewDataKey b = inr k → aead k = b.
Proof. unfold NewDataKey. case_match; [by intros [= <-] | done]. Qed.

Lemma does_decapsulate name id r :
  does (λ s, known name s ∧ record_of name id r s) (decapsulate name r) (ok (entry name id)).
Proof.
  eapply does_bind; [apply _ | |].
  - eapply does_weaken; [apply does_service, Decapsulate_promise | by intros ? [? _] | done].
  - intros [p | dek]; [by apply does_ret |]. destruct (NewDataKey dek) as [msg | k] eqn:Ek; [by apply does_ret |].
    apply does_ret. intros s ((_ & k0 & Hk0 & Hu) & w & Hw). simpl. unfold entry.
    rewrite (NewDataKey_inr _ _ Ek), Hk0. f_equal. eapply unwraps_fun; [done | by apply Hw].
Qed.

(** What a resolved reference gives. *)
Definition resolved (name : string) (r : KeyReference) (ik : string * DataKey) (s : env W) : Prop :=
  entry name ik.1 ik.2 s ∧ (kind r = keyReferenceID → ik.1 = ref_value r).

#[global] Instance stable_resolved name r ik : Stable (resolved name r ik).
Proof. intros s s' Hl [He Hk]. split; [by eapply stable | done]. Qed.

Lemma does_resolveByID name id :
  does (known name) (resolveByID name id) (ok (resolved name (KeyID id))).
Proof.
  eapply does_bind; [apply _ | apply does_keyCache_Get |]. intros [k |].
  - apply does_ret. intros s [_ Hk]. split; [by apply Hk | done].
  - eapply does_bind; [| eapply does_weaken; [apply does_repository, FindByID_promise | by intros ? [? _] | done] |].
    { apply stable_and; [apply _ | by intros s s' _]. }
    intros [p | r]; [by apply does_ret |].
    eapply (does_weaken (λ s, known name s ∧ record_of name id r s) _ _ (ok (resolved name (KeyID id))));
      [| intros s ([? _] & w & Hw); split; [done | by apply Hw] | done].
    eapply does_try; [apply _ | apply does_decapsulate |]. intros k.
    eapply does_bind; [| eapply does_weaken; [apply does_keyCache_Put | by intros s [[? _] ?] | done] |]; [apply _ |].
    intros ?. apply does_ret. intros s [[_ He] _]. by split.
Qed.

Lemma does_lookupAlias name alias :
  does (known name) (lookupAlias name alias) (ok (resolved name (KeyAlias alias))).
Proof.
  eapply does_bind; [apply _ | apply does_repository, FindByAlias_promise |].
  intros [p | r]; [by apply does_ret |]. cbv zeta. case_decide; [by apply does_ret |].
  eapply (does_weaken (λ s, known name s ∧ record_of name (ID (key_of r)) r s) _ _ (ok (resolved name (KeyAlias alias))));
    [| intros s (? & w & Hw); split; [done | by apply Hw] | done].
  eapply does_try; [apply _ | apply does_decapsulate |]. intros k.
  eapply does_bind; [| eapply does_weaken; [apply does_aliasIndex_Put | by intros s [[? _] _] | done] |]; [apply _ |].
  intros ?. eapply does_bind; [| eapply does_weaken; [apply does_keyCache_Put | by intros s [[[? _] ?] _] | done] |].
  { apply stable_and; [apply _ | by intros s s' _]. }
  intros ?. apply does_ret. intros s [[[_ He] _] _]. by split.
Qed.

Lemma does_resolveByAlias name alias :
  does (known name) (resolveByAlias name alias) (ok (resolved name (KeyAlias alias))).
Proof.
  eapply does_bind; [apply _ | apply does_aliasIndex_Get |]. intros [id |].
  - eapply does_bind; [| eapply does_weaken; [apply does_keyCache_Get | by intros ? [? _] | done] |].
    { apply stable_and; [apply _ | by intros s s' _]. }
    intros [k |].
    + apply does_ret. intros s [_ Hk]. split; [by apply Hk | done].
    + eapply does_bind; [| eapply does_weaken; [apply does_aliasIndex_Remove | by intros ? [[? _] _] | done] |].
      { apply stable_and; [apply _ | done]. }
      intros ?. eapply does_weaken; [apply does_lookupAlias | by intros ? [[[? _] _] _] | done].
  - eapply does_weaken; [apply does_lookupAlias | by intros ? [? _] | done].
Qed.

Lemma does_resolve name r :
  kind r ≠ keyReferenceNone → does (known name) (resolve name r) (ok (resolved name r)).
Proof.
  intros Hr. destruct r as [[] v]; [done | |].
  - apply does_resolveByAlias.
  - apply does_resolveByID.
Qed.

(** * Profiles *)

Lemma does_profileFor name :
  does (λ _, True) (profileFor name) (ok (λ n s, known n s ∧ (name ≠ "" → n = name))).
Proof.
  intros s Hs _. unfold profileFor, go_get, mbind, GoM_bind.
  destruct (names (enc s)) as [| first rest] eqn:En; [by eexists _, s |].
  destruct (bool_decide (name = "") && _); [by eexists _, s |]. cbv zeta.
  destruct (profiles (enc s) !! _) as [st |] eqn:Est; eexists _, s; (split_and!; [reflexivity | done | done |]);
    [| done].
  simpl. split; [by exists st |]. intros Hn. by rewrite decide_False.
Qed.

(** A profile that is known is found by its name. *)
Lemma profileFor_known name s : coherent s → known name s → profileFor name s = Done (inr name, s).
Proof.
  intros Hs [st Hst]. destruct (so_name _ _ _ _ (Hs _ _ Hst)) as [Hin Hne].
  unfold profileFor, go_get, mbind, GoM_bind. destruct (names (enc s)) as [| first rest]; [by apply not_elem_of_nil in Hin |].
  rewrite bool_decide_eq_false_2 by done. simpl. rewrite decide_False by done. by rewrite Hst.
Qed.

(** * Encrypting *)

(** The additional data: what is authenticated, and what is stored of it. *)
Definition aad_spec (aad : goval) (am : list byte * structure.Metadata) : Prop :=
  (aad = GNil ∧ am = ([], ∅)) ∨
  (aad ≠ GNil ∧ ∃ ty, encoder.EncodeAAD typeOf aad = Done (inr (encoder.mkEncoded am.1 ty Implemented)) ∧
     am.2 = <[MetadataAADEncodingSchemeMinor := MInt 0]> (<[MetadataAADEncodingSchemeMajor := MInt 1]>
            (<[MetadataAAD := MBytes am.1]> ∅))).

(** The structure that carries a value. *)
Definition envelope_of (name : string) (enc : encoder.Encoded) (k : DataKey) (iv : list byte) (id : string)
    (am : list byte * structure.Metadata) : Encrypted :=
  mkEncrypted ProfileTypeEnvelope EnvelopeProfileVersion name
    (gcm_Seal (aead k) iv (encoder.Bytes enc) am.1) (encoder.TypeName enc) (encoder.Baseline enc)
    (<[MetadataIV := MBytes iv]> (<[MetadataKeyID := MString id]> am.2)).

(** [bs] carries [x], sealed under a key that is known by its id. *)
Definition sealed (x aad : goval) (bs : list byte) (name id : string) (k : DataKey) (enc : encoder.Encoded)
    (iv : list byte) (am : list byte * structure.Metadata) : Prop :=
  encoder.EncodeValue typeOf x = Done (inr enc) ∧ encoder.Baseline enc = Implemented ∧ aad_spec aad am ∧
  Packer.len iv = IVSize ∧ EncodeEncrypted (envelope_of name enc k iv id am) = inr bs.

Definition carried (x aad : goval) (bs : list byte) (s : env W) : Prop :=
  ∃ name id k enc iv am, known name s ∧ entry name id k s ∧ sealed x aad bs name id k enc iv am.

Lemma encode_inr (x : goval) enc :
  encoder.EncodeValue typeOf x = Done (inr enc) ∨ encoder.EncodeAAD typeOf x = Done (inr enc) →
  encoder.Baseline enc = Implemented.
Proof.
  destruct (encode_answers typeOf x) as [(r1 & E1 & A1) (r2 & E2 & A2)]. rewrite E1, E2. unfold answers in *.
  repeat case_match; naive_solver.
Qed.

Lemma does_aad (P : env W → Prop) aad :
  does P (aad_metadata typeOf aad) (ok (λ am _, aad_spec aad am)).
Proof.
  unfold aad_metadata. destruct (is_nil aad) eqn:Hn.
  { destruct aad; try done. apply does_ret. intros s _. by left. }
  destruct (encode_answers typeOf aad) as [_ (r & Er & _)]. intros s Hs _.
  eexists _, s. split; [unfold lift, mbind, GoM_bind; by rewrite Er |]. split_and!; [done.. |].
  destruct r as [p | a]; [done |]. right. split; [by intros -> |].
  pose proof (encode_inr aad a (or_intror Er)) as Hb. exists (encoder.TypeName a). destruct a; simpl in *. by subst.
Qed.

(** After the key is resolved. *)
Lemma does_seal name x aad enc am id k :
  encoder.EncodeValue typeOf x = Done (inr enc) → aad_spec aad am →
  does (λ s, known name s ∧ entry name id k s) (seal_value name enc am.1 am.2 id k)
    (ok (carried x aad)).
Proof.
  intros He Ha. unfold seal_value.
  assert (Hiv : promises NewIV (λ _ _ _, True)).
  { intros w. destruct (rand_after IVSize w) as (r & w' & E & Hw). unfold NewIV, draw, mbind, GoM_bind. rewrite E.
    by eexists _, w'. }
  eapply does_bind; [apply _ | by apply does_outside |]. intros [p | iv]; [by apply does_ret |].
  unfold Seal. destruct (Z.eqb_spec (Packer.len iv) IVSize) as [Hl | Hl]; [| by apply does_ret].
  apply does_ret. intros s [[Hn Hk] _].
  destruct (EncodeEncrypted _) as [p | bs] eqn:Eb; [done |].
  exists name, id, k, enc, iv, am. split_and!; [done.. |]. split_and!; try done. by apply (encode_inr x enc (or_introl He)).
Qed.

Lemma does_encrypt request aad :
  does (λ _, True) (encrypt typeOf request aad) (ok (carried (req_Value request) aad)).
Proof.
  eapply does_try; [by intros ? | apply does_profileFor |]. intros name.
  eapply (does_weaken (known name)); [| by intros ? [_ [? _]] | done].
  case_decide as Hk; [by apply does_ret |].
  destruct (encode_answers typeOf (req_Value request)) as [(r & Er & _) _].
  eapply does_bind; [apply _ | by apply does_lift |]. intros r'.
  apply (does_pure (known name) (r' = r)). intros ->.
  destruct r as [p | enc]; [by apply does_ret |].
  eapply does_try; [apply _ | apply does_aad |]. intros am.
  apply (does_pure (known name) (aad_spec aad am)). intros Ham.
  eapply does_try; [apply _ | by apply does_resolve |]. intros [id k].
  eapply does_weaken; [by apply does_seal | by intros s [? [? _]] | done].
Qed.

(** * Decrypting *)

Section Sealed.
Context (x aad : goval) (bs : list byte) (name id : string) (k : DataKey) (enc : encoder.Encoded)
  (iv : list byte) (am : list byte * structure.Metadata).
Context (Hx : sealed x aad bs name id k enc iv am).
Abbreviation carrier := (envelope_of name enc k iv id am).

Lemma aad_metadata_ints : map_Forall (λ _ v, ∀ i, v = MInt i → signed 64 i) am.2.
Proof.
  destruct Hx as (_ & _ & [[_ ->] | (_ & ty & _ & ->)] & _).
  - apply map_Forall_empty.
  - repeat apply map_Forall_insert_2; try apply map_Forall_empty; intros i [= <-]; unfold signed; lia.
Qed.

Lemma carrier_ok : encrypted_ok carrier.
Proof.
  pose proof Hx as (_ & Hb & _ & _ & Ee). eapply EncodeEncrypted_ok; [exact Ee | done | done | | |]; simpl; rewrite ?Hb.
  - unfold signed. simpl. lia.
  - unfold signed. simpl. lia.
  - repeat apply map_Forall_insert_2; [by intros ? | by intros ? | apply aad_metadata_ints].
Qed.

Lemma carrier_iv : Metadata_Bytes (metadata carrier) MetadataIV = Some iv.
Proof. unfold Metadata_Bytes. simpl. by rewrite lookup_insert_eq. Qed.

Lemma carrier_id : Metadata_String (metadata carrier) MetadataKeyID = Some id.
Proof. unfold Metadata_String. simpl. by rewrite lookup_insert_ne, lookup_insert_eq. Qed.

(** What was stored of the additional data. *)
Lemma carrier_aad :
  default [] (Metadata_Bytes (metadata carrier) MetadataAAD) = am.1.
Proof.
  unfold Metadata_Bytes. simpl. rewrite !lookup_insert_ne by done.
  destruct Hx as (_ & _ & [[_ ->] | (_ & ty & _ & ->)] & _); [done |].
  rewrite !lookup_insert_ne by done. by rewrite lookup_insert_eq.
Qed.

Lemma carrier_scheme :
  aad ≠ GNil →
  Metadata_Int (metadata carrier) MetadataAADEncodingSchemeMajor = Some 1 ∧
  Metadata_Int (metadata carrier) MetadataAADEncodingSchemeMinor = Some 0.
Proof.
  intros Hne. unfold Metadata_Int. simpl. rewrite !lookup_insert_ne by done.
  destruct Hx as (_ & _ & [[? _] | (_ & ty & _ & ->)] & _); [done |].
  split; [by rewrite lookup_insert_ne, lookup_insert_eq | by rewrite lookup_insert_eq].
Qed.

(** Opening under [aadBytes]: the value, or the report that it is not authentic. *)
Definition opened (v : value) (aadBytes : list byte) : problem + value :=
  match gcm_Open (aead k) iv (gcm_Seal (aead k) iv (encoder.Bytes enc) am.1) aadBytes with
  | Some _ => inr v
  | None => inl (EncryptionError "could not decrypt the value" (Some ErrAuthentication))
  end.

Lemma open_value_spec kd v aadBytes s :
  property x kd v → Packer.len bs < 2 ^ 32 - 16 →
  open_value carrier iv aadBytes k s = Done (opened v aadBytes, s).
Proof.
  intros Hv Hl. pose proof Hx as (He & Hb & _ & Hiv & Ee). unfold open_value, Open, opened. simpl.
  rewrite (proj2 (Z.eqb_eq _ _) Hiv).
  destruct (gcm_Open _ _ _ _) as [p |] eqn:Ep; [| done].
  apply open_genuine, seal_plaintext in Ep as <-.
  destruct (value_read typeOf x kd v Hv) as (bs' & Eb & Hd). rewrite He in Eb. injection Eb as Eenc.
  pose proof (EncodeEncrypted_length _ _ carrier_ok Ee) as Hcl. simpl in Hcl.
  pose proof (seal_length (aead k) iv (encoder.Bytes enc) am.1) as Hsl.
  rewrite Eenc in Hcl, Hsl |- *. simpl in *.
  unfold lift, mbind, GoM_bind. rewrite Hd; [done | lia |]. unfold Packer.len in *. lia.
Qed.

Lemma decrypt_spec kd v aad' explicit aadBytes s :
  coherent s → known name s → entry name id k s → property x kd v → Packer.len bs < 2 ^ 32 - 16 →
  aadFor typeOf carrier aad' explicit s = Done (inr aadBytes, s) →
  ∃ r s', resolve name (KeyID id) s = Done (r, s') ∧ coherent s' ∧
    decrypt typeOf bs aad' explicit s =
      Done (match r with inl p => inl p | inr _ => opened v aadBytes end, s') ∧
    match r with inl _ => True | inr kd => kd.2 = k end.
Proof.
  intros Hs Hn He Hv Hl Ha. pose proof Hx as (_ & _ & _ & _ & Ee).
  destruct (does_resolve name (KeyID id) ltac:(done) s Hs Hn) as (r & s' & Er & Hs' & Hlt & Hr).
  exists r, s'. split_and!; [done | done | |].
  2: { destruct r as [p | [id' k']]; [done |]. simpl. destruct Hr as [He' Hid]. simpl in He', Hid.
       rewrite (Hid eq_refl) in He'. pose proof (stable_entry name id k _ _ Hlt He) as He2.
       unfold entry in *. destruct k, k'. simpl in *. congruence. }
  unfold decrypt, lift, mbind, GoM_bind.
  rewrite (DecodeEncrypted_encoded _ _ carrier_ok Ee Hl). unfold try at 1, mbind, GoM_bind.
  change (ProfileName carrier) with name. rewrite (profileFor_known name s Hs Hn).
  rewrite carrier_iv, carrier_id. unfold try at 1, mbind, GoM_bind. rewrite Ha.
  unfold try, mbind, GoM_bind. rewrite Er. destruct r as [p | [id' k']]; [done |].
  destruct Hr as [He' Hid]. simpl in He', Hid. rewrite (Hid eq_refl) in He'.
  assert (Hk : k' = k).
  { pose proof (stable_entry name id k _ _ Hlt He) as He2. unfold entry in *. destruct k, k'. simpl in *. congruence. }
  simpl. rewrite Hk. by apply open_value_spec with kd.
Qed.
End Sealed.

(** * What was encrypted can be decrypted *)

(** [bs] says that key [id] of the profile of [e] encrypted its contents [e]. *)
Definition says (bs : list byte) (e : Encrypted) (id : string) : Prop :=
  DecodeEncrypted bs = Done (inr e) ∧ Metadata_String (metadata e) MetadataKeyID = Some id.

(** The key that [bs] names could not be resolved, and that is what is reported. *)
Definition unresolved (bs : list byte) (s : env W) (res : problem + value) (s' : env W) : Prop :=
  ∃ e id p, says bs e id ∧ resolve (ProfileName e) (KeyID id) s = Done (inl p, s') ∧ res = inl p.

(** The very ciphertext of [bs] is the result of sealing [x], under the key that [bs]
    names and its initialisation vector, with both of the additional data. *)
Definition collides (bs : list byte) (x : goval) (aad aad' : list byte) (s s' : env W) : Prop :=
  ∃ e id iv kd enc, says bs e id ∧ Metadata_Bytes (metadata e) MetadataIV = Some iv ∧
    resolve (ProfileName e) (KeyID id) s = Done (inr kd, s') ∧
    encoder.EncodeValue typeOf x = Done (inr enc) ∧
    CipherOutput e = gcm_Seal (aead kd.2) iv (encoder.Bytes enc) aad ∧
    CipherOutput e = gcm_Seal (aead kd.2) iv (encoder.Bytes enc) aad'.

Lemma sealed_says x aad bs name id k enc iv am :
  sealed x aad bs name id k enc iv am → Packer.len bs < 2 ^ 32 - 16 →
  says bs (envelope_of name enc k iv id am) id.
Proof.
  intros Hx Hl. split; [| apply carrier_id].
  apply (DecodeEncrypted_encoded _ _ (carrier_ok _ _ _ _ _ _ _ _ _ Hx)); [apply Hx | done].
Qed.

(** A value encrypted earlier. *)
Lemma encrypted_earlier s request aad bs s1 s2 :
  coherent s → encrypt typeOf request aad s = Done (inr bs, s1) → later s1 s2 →
  ∃ name id k enc iv am, known name s2 ∧ entry name id k s2 ∧
    sealed (req_Value request) aad bs name id k enc iv am.
Proof.
  intros Hs He Hl. destruct (does_encrypt request aad s Hs I) as (r & s1' & E & _ & _ & Hr).
  rewrite He in E. simplify_eq. destruct Hr as (name & id & k & enc & iv & am & Hn & Hk & Hx).
  exists name, id, k, enc, iv, am. split_and!; [by eapply stable | by eapply stable | done].
Qed.

Lemma opened_same (enc : encoder.Encoded) k iv (am : list byte * structure.Metadata) v :
  opened k enc iv am v am.1 = inr v.
Proof. unfold opened. by rewrite open_seal. Qed.

(** C17. A value that was encrypted, with additional data or without, decrypts to the
    value it stands for in every later state, whatever happened to the caches, the
    aliases and the repository in between; the only other outcome is the report that
    the key it names, by profile and id, could not be resolved. *)
Theorem decrypt_encrypt s request aad bs s1 s2 kd v :
  coherent s → property (req_Value request) kd v →
  encrypt typeOf request aad s = Done (inr bs, s1) → Packer.len bs < 2 ^ 32 - 16 →
  coherent s2 → later s1 s2 →
  ∃ res s3, Decrypt typeOf bs s2 = Done (res, s3) ∧ coherent s3 ∧ (res = inr v ∨ unresolved bs s2 res s3).
Proof.
  intros Hs Hv He Hlen Hs2 Hl.
  destruct (encrypted_earlier _ _ _ _ _ _ Hs He Hl) as (name & id & k & enc & iv & am & Hn & Hk & Hx).
  destruct (decrypt_spec _ _ _ _ _ _ _ _ _ Hx kd v GNil false am.1 s2 Hs2 Hn Hk Hv Hlen) as (r & s3 & Er & Hs3 & Ed & _).
  { unfold aadFor. cbn [negb]. by rewrite (carrier_aad _ _ _ _ _ _ _ _ _ Hx). }
  eexists _, s3. split; [exact Ed |]. split; [done |]. destruct r as [p | ik].
  - right. eexists _, id, p. split; [by eapply sealed_says | done].
  - left. apply opened_same.
Qed.

Lemma aadFor_explicit x aad bs name id k enc iv am aad' a' s :
  sealed x aad bs name id k enc iv am → aad ≠ GNil →
  encoder.EncodeAAD typeOf aad' = Done (inr a') →
  aadFor typeOf (envelope_of name enc k iv id am) aad' true s = Done (inr (encoder.Bytes a'), s).
Proof.
  intros Hx Hne Ha. pose proof (encode_inr aad' a' (or_intror Ha)) as Hb.
  destruct (carrier_scheme _ _ _ _ _ _ _ _ _ Hx Hne) as [Hma Hmi].
  unfold aadFor, lift, mbind, GoM_bind, mret, GoM_ret. cbn [negb]. rewrite Ha, Hma, Hmi, Hb.
  by rewrite decide_False by (intros Hn; by apply Hn).
Qed.

(** C18. In every later state, a value bound to additional data decrypts under that
    data, and under data that is encoded differently it is refused as not authentic,
    unless AES-GCM gives the very same ciphertext for this value, key and initialisation
    vector with both data; in either case the answer may instead be the report that the
    key the value names, by profile and id, could not be resolved, as after its
    deletion. *)
Theorem aad_binds s request aad bs s1 s2 kd v aad' a' :
  coherent s → property (req_Value request) kd v → aad ≠ GNil → aad' ≠ GNil →
  encrypt typeOf request aad s = Done (inr bs, s1) → Packer.len bs < 2 ^ 32 - 16 →
  coherent s2 → later s1 s2 → encoder.EncodeAAD typeOf aad' = Done (inr a') →
  ∃ res s3 a, DecryptWithAAD typeOf bs aad' s2 = Done (res, s3) ∧ coherent s3 ∧
    encoder.EncodeAAD typeOf aad = Done (inr a) ∧
    (unresolved bs s2 res s3 ∨
     (if decide (encoder.Bytes a' = encoder.Bytes a) then res = inr v
      else res = inl (EncryptionError "could not decrypt the value" (Some ErrAuthentication)) ∨
        collides bs (req_Value request) (encoder.Bytes a) (encoder.Bytes a') s2 s3)).
Proof.
  intros Hs Hv Hne Hne' He Hlen Hs2 Hl Ha.
  destruct (encrypted_earlier _ _ _ _ _ _ Hs He Hl) as (name & id & k & enc & iv & am & Hn & Hk & Hx).
  pose proof (aadFor_explicit _ _ _ _ _ _ _ _ _ aad' a' s2 Hx Hne Ha) as Haf.
  destruct (decrypt_spec _ _ _ _ _ _ _ _ _ Hx kd v aad' true _ s2 Hs2 Hn Hk Hv Hlen Haf) as (r & s3 & Er & Hs3 & Ed & Hkd).
  pose proof (sealed_says _ _ _ _ _ _ _ _ _ Hx Hlen) as Hsay.
  pose proof Hx as (_ & _ & [[? _] | (_ & ty & Ea & _)] & _); [done |].
  eexists _, s3, _. split; [unfold DecryptWithAAD; destruct (is_nil aad') eqn:En; [by destruct aad' | exact Ed] |].
  split; [done |]. split; [exact Ea |]. destruct r as [p | ik]; [left; by eexists _, id, p |]. right. simpl.
  case_decide as Hb.
  - rewrite Hb. apply opened_same.
  - unfold opened. destruct (gcm_Open _ _ _ _) as [p |] eqn:Eo; [| by left]. right.
    apply open_genuine in Eo as Eg. pose proof (seal_plaintext _ _ _ _ _ _ Eg) as <-.
    eexists _, id, iv, ik, enc. split; [exact Hsay |]. rewrite Hkd. split; [apply carrier_iv |].
    split; [exact Er |]. split; [apply Hx | by split].
Qed.

(** * Every call keeps the invariant *)

Lemma does_aadFor P e aad explicit : does P (aadFor typeOf e aad explicit) (λ _ _, True).
Proof.
  unfold aadFor. destruct explicit; simpl; [| by apply does_ret].
  destruct (encode_answers typeOf aad) as [_ (r & Er & _)]. intros s Hs _.
  eexists _, s. split; [unfold lift, mbind, GoM_bind; by rewrite Er |]. done.
Qed.

(** An error or not, the call returned. *)
Lemma does_try_any {A B} P (m : GoM (env W) (problem + A)) Q (f : A → GoM (env W) (problem + B)) `{!Stable P} :
  does P m Q → (∀ a, does P (f a) (λ _ _, True)) → does P (try m f) (λ _ _, True).
Proof.
  intros Hm Hf. eapply does_bind; [done | exact Hm |]. intros [p | a]; [by apply does_ret |].
  eapply does_weaken; [apply Hf | by intros ? [? _] | done].
Qed.

Lemma does_open_value P e iv aadBytes k :
  Packer.len (CipherOutput e) < 2 ^ 32 - 16 → does P (open_value e iv aadBytes k) (λ _ _, True).
Proof.
  intros Hl. unfold open_value, Open. case_match eqn:Ep; [by apply does_ret |].
  repeat case_match; simplify_eq. destruct (DecodeValue_returns l (TypeName e) (Baseline e) (length l + 2)) as [res Er].
  - match goal with E : gcm_Open _ _ _ _ = Some l |- _ => apply open_genuine in E as Eg end.
    pose proof (seal_length (aead k) iv l aadBytes) as Hsl. rewrite <- Eg in Hsl. unfold Packer.len in *. lia.
  - lia.
  - intros s Hs _. eexists _, s. split; [unfold lift, mbind, GoM_bind; by rewrite Er |]. done.
Qed.

Lemma does_decrypt bs aad explicit :
  Packer.len bs < 2 ^ 32 - 16 → does (λ _, True) (decrypt typeOf bs aad explicit) (λ _ _, True).
Proof.
  intros Hl. destruct (encrypted_answers bs Hl) as (r & Er & Hr). unfold decrypt.
  eapply does_bind; [by intros ? | by apply does_lift |]. intros r'.
  apply (does_pure (λ _, True) (r' = r)). intros ->. destruct r as [p | e]; [by apply does_ret |].
  destruct Hr as (_ & _ & Hc). eapply does_bind; [by intros ? | apply does_profileFor |].
  intros [p | name]; [by apply does_ret |].
  apply (does_weaken (known name) _ _ (λ _ _, True)); [| by intros ? [_ [? _]] | done].
  destruct (Metadata_Bytes _ _) as [iv |]; [| by apply does_ret].
  destruct (Metadata_String _ _) as [id |]; [| by apply does_ret].
  eapply does_try_any; [apply _ | apply does_aadFor |]. intros ab.
  eapply does_try_any; [apply _ | by apply does_resolve |]. intros ik. by apply does_open_value.
Qed.

Lemma does_create name alias options :
  does (known name) (KM_Create name alias options) (λ _ _, True).
Proof.
  eapply does_bind; [apply _ | apply does_service, Encapsulate_promise |].
  intros [p | res]; [by apply does_ret |]. destruct (NewDataKey (Key res)) as [msg | k] eqn:Ek; [by apply does_ret |].
  apply (does_weaken (λ s, known name s ∧ unwraps (res_Encapsulation res) (res_Metadata res) (Key res)) _ _ (λ _ _, True));
    [| intros s (? & w & Hw); split; [done | by apply Hw] | done].
  apply does_pure. intros Hu.
  eapply does_bind; [apply _ | by eapply does_repository, Create_promise |].
  intros [p | r]; [by apply does_ret |]. cbv zeta. case_decide; [by apply does_ret |].
  apply (does_weaken (λ s, known name s ∧ entry name (ID (key_of r)) k s) _ _ (λ _ _, True)).
  - eapply (does_bind _ _ (λ _ _, True)); [apply _ | |].
    + case_decide; [| by apply does_ret].
      eapply does_weaken; [apply does_aliasIndex_Put | by intros ? [? _] | done].
    + intros ?. eapply does_bind; [| eapply does_weaken; [apply does_keyCache_Put | by intros ? [? _] | done] |].
      { apply stable_and; [apply _ | by intros s s' _]. }
      intros ?. by apply does_ret.
  - intros s (? & w & Hw). split; [done |]. unfold entry. rewrite (NewDataKey_inr _ _ Ek). by apply Hw.
  - done.
Qed.

Lemma does_setAlias name id alias : does (known name) (setAlias name id alias) (λ _ _, True).
Proof.
  unfold setAlias. case_decide; [by apply does_ret |].
  eapply does_bind; [apply _ | apply does_repository, SetAlias_promise |]. intros [p |]; [by apply does_ret |].
  apply (does_weaken (known name) _ _ (λ _ _, True)); [| by intros ? [? _] | done].
  eapply does_bind; [apply _ | | intros ?; by apply does_ret].
  apply does_aliasIndex; [done |]. intros c l Hl. destruct (Clear_refines c l Hl) as (c' & E & Hr & _). eauto 10.
Qed.

Lemma does_deleteByID name id : does (known name) (KM_DeleteByID name id) (λ _ _, True).
Proof.
  unfold KM_DeleteByID. case_decide; [by apply does_ret |].
  eapply does_bind; [apply _ | apply does_repository, DeleteByID_promise |]. intros [p |]; [by apply does_ret |].
  apply (does_weaken (known name) _ _ (λ _ _, True)); [| by intros ? [? _] | done].
  eapply does_bind; [apply _ | apply (does_keyCache _ _ _ (λ _ _, True)); [done |] |].
  { intros s c _ (l & Hl & Hk). destruct (Remove_refines c l id Hl) as (c' & E & Hr & _).
    eexists _, c'. split; [exact E |]. split; [| done]. eexists. split; [exact Hr |]. by apply Forall_keep. }
  intros ?. apply (does_weaken (known name) _ _ (λ _ _, True)); [| by intros ? [? _] | done].
  eapply does_bind; [apply _ | | intros ?; by apply does_ret].
  apply does_aliasIndex; [done |]. intros c l Hl. destruct (Clear_refines c l Hl) as (c' & E & Hr & _). eauto 10.
Qed.

(** The calls of the public interface. *)
Inductive call : Type :=
| CEncrypt (request : EncryptRequest)
| CEncryptWithAAD (request : EncryptRequest) (aad : goval)
| CDecrypt (bs : list byte)
| CDecryptWithAAD (bs : list byte) (aad : goval)
| CCreate (profile alias : string) (options : gmap string string)
| CFindByAlias (profile alias : string)
| CSetAlias (profile id alias : string)
| CDeleteAlias (profile id : string)
| CDeleteByID (profile id : string).

(** A key manager is obtained from [Keys] first. *)
Definition with_keys {A} (profile : string) (f : string → GoM (env W) A) : GoM (env W) unit :=
  r ← Keys profile;
  match r with inl _ => mret tt | inr name => f name;; mret tt end.

Definition perform (c : call) : GoM (env W) unit :=
  match c with
  | CEncrypt request => Encrypt typeOf request;; mret tt
  | CEncryptWithAAD request aad => EncryptWithAAD typeOf request aad;; mret tt
  | CDecrypt bs => Decrypt typeOf bs;; mret tt
  | CDecryptWithAAD bs aad => DecryptWithAAD typeOf bs aad;; mret tt
  | CCreate profile alias options => with_keys profile (λ n, KM_Create n alias options)
  | CFindByAlias profile alias => with_keys profile (λ n, KM_FindByAlias n alias)
  | CSetAlias profile id alias => with_keys profile (λ n, KM_SetAlias n id alias)
  | CDeleteAlias profile id => with_keys profile (λ n, KM_DeleteAlias n id)
  | CDeleteByID profile id => with_keys profile (λ n, KM_DeleteByID n id)
  end.

Definition addressable (c : call) : Prop :=
  match c with CDecrypt bs | CDecryptWithAAD bs _ => Packer.len bs < 2 ^ 32 - 16 | _ => True end.

Lemma does_with_keys {A} profile (f : string → GoM (env W) A) :
  (∀ name, does (known name) (f name) (λ _ _, True)) → does (λ _, True) (with_keys profile f) (λ _ _, True).
Proof.
  intros Hf. eapply does_bind; [by intros ? | apply does_profileFor |]. intros [p | name]; [by apply does_ret |].
  apply (does_weaken (known name) _ _ (λ _ _, True)); [| by intros ? [_ [? _]] | done].
  eapply does_bind; [apply _ | apply Hf | intros ?; by apply does_ret].
Qed.

Lemma does_unit {A} (m : GoM (env W) A) Q : does (λ _, True) m Q → does (λ _, True) (m;; mret tt) (λ _ _, True).
Proof. intros Hm. eapply does_bind; [by intros ? | exact Hm | intros ?; by apply does_ret]. Qed.

Lemma does_perform c : addressable c → does (λ _, True) (perform c) (λ _ _, True).
Proof.
  intros Hc. destruct c; simpl in *.
  - eapply does_unit, does_encrypt.
  - eapply does_unit. unfold EncryptWithAAD. case_match; [by apply (does_ret _ _ (λ _ _, True)) |].
    eapply does_weaken; [apply does_encrypt | done | done].
  - by eapply does_unit, does_decrypt.
  - eapply does_unit. unfold DecryptWithAAD. case_match; [by apply (does_ret _ _ (λ _ _, True)) | by apply does_decrypt].
  - apply does_with_keys. intros. apply does_create.
  - apply does_with_keys. intros. eapply does_bind; [apply _ | apply does_repository, FindByAlias_promise |].
    intros ?. by apply does_ret.
  - apply does_with_keys. intros. unfold KM_SetAlias. case_decide; [by apply does_ret | apply does_setAlias].
  - apply does_with_keys. intros. apply does_setAlias.
  - apply does_with_keys. intros. apply does_deleteByID.
Qed.

Fixpoint perform_all (cs : list call) : GoM (env W) unit :=
  match cs with [] => mret tt | c :: cs => perform c;; perform_all cs end.

Lemma does_perform_all cs : Forall addressable cs → does (λ _, True) (perform_all cs) (λ _ _, True).
Proof.
  induction 1 as [| c cs Hc _ IH]; simpl; [by apply does_ret |].
  eapply does_bind; [by intros ? | by apply does_perform |]. intros ?. by eapply does_weaken; [apply IH | |].
Qed.

(** ** From construction on *)

(** The profile is configured with the collaborators of its name. *)
Definition configured (p : EnvelopeProfile W) : Prop :=
  KeyRepository p = Some (repo (Name p)) ∧ EncapsulationService p = Some (serv (Name p)).
Definition configured_profile (p : Profile W) : Prop :=
  match p with PEnvelope p | PEnvelopePtr (Some p) => configured p | _ => True end.

Lemma validate_sizes (p : EnvelopeProfile W) :
  validate p = None → Name p ≠ "" ∧ 0 <= KeyCacheSize (withDefaults p) ∧ 0 <= KeyAliasIndexSize (withDefaults p).
Proof.
  unfold validate, withDefaults, or_default. case_decide; [done |].
  repeat case_match; try done; intros _; zbool; simpl;
    unfold DefaultKeyCacheSize, DefaultKeyAliasIndexSize; split_and!; try done; lia.
Qed.

Lemma withDefaults_same (p : EnvelopeProfile W) :
  Name (withDefaults p) = Name p ∧ KeyRepository (withDefaults p) = KeyRepository p ∧
  EncapsulationService (withDefaults p) = EncapsulationService p.
Proof. unfold withDefaults. by case_match. Qed.

Lemma add_profile_coherent (e e' : Encryption W) p w :
  coherent (mkEnv e w) → configured p → add_profile e p = inr e' → coherent (mkEnv e' w).
Proof.
  intros He [Hr Hv] Ea. unfold add_profile in Ea. destruct (validate p) eqn:Ev; [done |].
  destruct (validate_sizes p Ev) as (Hn & Hk & Ha). destruct (withDefaults_same p) as (En & Er & Es).
  destruct (profiles e !! Name p); [done |]. injection Ea as <-. intros n st. simpl. rewrite En.
  destruct (decide (n = Name p)) as [-> | Hne].
  - rewrite lookup_insert_eq. intros [= <-]. split; simpl.
    + split; [set_solver | done].
    + by rewrite Er.
    + by rewrite Es.
    + exists []. split; [by apply new_refines | constructor].
    + exists []. by apply new_refines.
  - rewrite lookup_insert_ne by done. intros Hst. destruct (He n st Hst) as [[Hin ?] ? ? ? ?].
    split; try done. simpl in *. split; [set_solver | done].
Qed.

Lemma New_coherent (l : list (Profile W)) e w :
  Forall configured_profile l → New l = inr e → coherent (mkEnv e w).
Proof.
  intros Hl En. unfold New in En. destruct (add_profiles _ l) as [p | e1] eqn:Ea; [done |]. injection En as <-.
  assert (Hc1 : coherent (mkEnv e1 w)).
  { assert (Hc0 : coherent (mkEnv (mkEncryption ∅ []) w)) by (intros n st; simpl; by rewrite lookup_empty).
    revert Hc0 Ea. generalize (@mkEncryption W ∅ []). induction Hl as [| p l Hp _ IH]; intros e0 Hc0 Ea; simpl in Ea;
      [by simplify_eq |].
    destruct p as [p | [p |] | t]; try done;
      (destruct (add_profile e0 p) as [q | e2] eqn:Ep; [done |]; by eapply IH; [eapply add_profile_coherent |]). }
  intros n st Hst. simpl in *. destruct (Hc1 n st Hst) as [[Hin ?] ? ? ? ?]. split; try done. simpl in *.
  split; [by rewrite merge_sort_Permutation | done].
Qed.

(** C19. From an encryption built by [New], whatever calls are made and whatever the
    repositories and services answer, every call returns and none panics, and every key
    in the caches is the one the repository knows under its id. *)
Theorem encryption_invariant (l : list (Profile W)) e w cs :
  Forall configured_profile l → New l = inr e → Forall addressable cs →
  ∃ s, perform_all cs (mkEnv e w) = Done (tt, s) ∧ coherent s ∧ after w (world s).
Proof.
  intros Hl He Hc. destruct (does_perform_all cs Hc (mkEnv e w)) as ([] & s & E & Hs & (Ha & _) & _);
    [by eapply New_coherent | done |]. by exists s.
Qed.

(** * Keys that went away *)

(** The caches after a call. *)
Lemma on_keyCache_run {A} name (m : GoM (cache.Cache DataKey) A) st s a c :
  profiles (enc s) !! name = Some st → m (keyCache st) = Done (a, c) →
  on_keyCache name m s =
    Done (a, mkEnv (mkEncryption (<[name := mkState (profile_ st) (aliasIndex st) c]> (profiles (enc s)))
                      (names (enc s))) (world s)).
Proof.
  intros Hst E. unfold on_keyCache, the_state, go_get, go_lift, mbind, GoM_bind. rewrite Hst. by rewrite E.
Qed.

Lemma on_aliasIndex_run {A} name (m : GoM (cache.Cache string) A) st s a c :
  profiles (enc s) !! name = Some st → m (aliasIndex st) = Done (a, c) →
  on_aliasIndex name m s =
    Done (a, mkEnv (mkEncryption (<[name := mkState (profile_ st) c (keyCache st)]> (profiles (enc s)))
                      (names (enc s))) (world s)).
Proof.
  intros Hst E. unfold on_aliasIndex, the_state, go_get, go_lift, mbind, GoM_bind. rewrite Hst. by rewrite E.
Qed.

Lemma Get_absent {V} (c : cache.Cache V) l now k :
  refines c l → lru.found k l = None → ∃ c', cache.Get now k c = Done (None, c') ∧ refines c' l.
Proof.
  intros Hl Hk. destruct (Get_refines c l now k Hl) as (c' & E & Hr & _). unfold lru.get in *. rewrite Hk in *.
  by exists c'.
Qed.

Lemma found_without {V} k (l : list (cache.cacheEntry V)) : lru.found k (lru.without k l) = None.
Proof.
  destruct (lru.found k (lru.without k l)) as [e |] eqn:E; [| done].
  by apply found_in in E as [[? _]%list_elem_of_filter ?].
Qed.

(** A key that is not in the cache is looked up in the repository. *)
Lemma resolveByID_absent name id st s l :
  coherent s → profiles (enc s) !! name = Some st → refines (keyCache st) l → lru.found id l = None →
  (∀ w, after (world s) w → ∃ p w', FindByID (repo name) id w = Done (inl p, w') ∧ errs.is_key_not_found p = true) →
  ∃ p s', resolveByID name id s =
    Done (inl (EncryptionError ("no encryption key has id " +:+ id +:+ " in profile " +:+ name) (Some p)), s').
Proof.
  intros Hs Hst Hl Hf Hrepo. destruct (Now_after (world s)) as (t & w1 & En & Ha).
  destruct (Get_absent (keyCache st) l t id Hl Hf) as (c' & Eg & _).
  destruct (Hrepo w1 Ha) as (p & w2 & Ef & Hp). eexists p, _.
  unfold resolveByID, keyCache_Get, mbind at 1, GoM_bind at 1, outside, mbind at 1, GoM_bind at 1. rewrite En.
  rewrite (on_keyCache_run name _ st (mkEnv (enc s) w1) None c'); [| done | done].
  unfold repository, the_state, go_get, go_lift, mbind, GoM_bind. simpl. rewrite lookup_insert_eq. simpl.
  rewrite (so_repo _ _ _ _ (Hs _ _ Hst)). unfold outside. simpl. rewrite Ef.
  unfold lookup_error. by rewrite Hp.
Qed.

(** After a key was deleted, a value that names it cannot be decrypted: the cached
    key is gone with the record, and the answer is the report that no key has that id. *)
Theorem deleted_key_unusable name id s s1 bs e iv :
  coherent s → known name s → KM_DeleteByID name id s = Done (None, s1) →
  (∀ w, after (world s1) w →
     ∃ p w', FindByID (repo name) id w = Done (inl p, w') ∧ errs.is_key_not_found p = true) →
  DecodeEncrypted bs = Done (inr e) → ProfileName e = name →
  Metadata_Bytes (metadata e) MetadataIV = Some iv → Metadata_String (metadata e) MetadataKeyID = Some id →
  ∃ p s2, Decrypt typeOf bs s1 =
    Done (inl (EncryptionError ("no encryption key has id " +:+ id +:+ " in profile " +:+ name) (Some p)), s2).
Proof.
  intros Hs Hn Ed Hrepo Eb En Eiv Eid.
  destruct (does_deleteByID name id s Hs Hn) as (r & s' & E' & Hs1 & Hl & _). rewrite Ed in E'. injection E' as <- <-.
  assert (Hst : ∃ st l, profiles (enc s1) !! name = Some st ∧ refines (keyCache st) l ∧ lru.found id l = None).
  { unfold KM_DeleteByID in Ed. case_decide; [done |].
    destruct (does_repository name (λ r, DeleteByID r id) _ (DeleteByID_promise id) s Hs Hn) as (r & s2 & E2 & Hs2 & Hl2 & _).
    unfold mbind at 1, GoM_bind at 1 in Ed. rewrite E2 in Ed. destruct r as [p |]; [done |].
    destruct (stable_known name _ _ Hl2 Hn) as [st Est]. destruct (Hs2 _ _ Est) as [_ _ _ (l & Hl1 & _) (la & Hla)].
    destruct (Remove_refines (keyCache st) l id Hl1) as (c & Ec & Hc & _).
    destruct (Clear_refines (aliasIndex st) la Hla) as (ca & Eca & _).
    unfold mbind, GoM_bind in Ed. rewrite (on_keyCache_run name _ st s2 tt c Est Ec) in Ed.
    erewrite on_aliasIndex_run in Ed; [| apply lookup_insert_eq | exact Eca]. injection Ed as <-. simpl.
    eexists _, (lru.without id l). rewrite lookup_insert_eq. split_and!; [done | done | apply found_without]. }
  destruct Hst as (st & l & Est & Hk & Hf).
  destruct (resolveByID_absent name id st s1 l Hs1 Est Hk Hf Hrepo) as (p & s2 & Er). exists p, s2.
  unfold Decrypt, decrypt, lift, mbind, GoM_bind. rewrite Eb. unfold try at 1, mbind, GoM_bind. rewrite En.
  rewrite (profileFor_known name s1 Hs1 ltac:(by exists st)). rewrite Eiv, Eid.
  unfold try at 1, aadFor, mret, GoM_ret, mbind, GoM_bind. simpl. unfold try, mbind, GoM_bind, resolve. simpl. by rewrite Er.
Qed.

(** After an alias was set or deleted, a reference by any alias is looked up in the
    repository again, whatever the index held before. *)
Theorem alias_change_seen name id alias a s s1 :
  coherent s → known name s → setAlias name id alias s = Done (None, s1) →
  ∃ t s2, Now (world s1) = Done (t, world s2) ∧ coherent s2 ∧
    resolveByAlias name a s1 = lookupAlias name a s2.
Proof.
  intros Hs Hn Ed. destruct (does_setAlias name id alias s Hs Hn) as (r & s' & E' & Hs1 & Hl & _).
  rewrite Ed in E'. injection E' as <- <-.
  assert (Hst : ∃ st, profiles (enc s1) !! name = Some st ∧ refines (aliasIndex st) []).
  { unfold setAlias in Ed. case_decide; [done |].
    destruct (does_repository name (λ r, SetAlias r id alias) _ (SetAlias_promise id alias) s Hs Hn) as (r & s2 & E2 & Hs2 & Hl2 & _).
    unfold mbind at 1, GoM_bind at 1 in Ed. rewrite E2 in Ed. destruct r as [p |]; [done |].
    destruct (stable_known name _ _ Hl2 Hn) as [st Est]. destruct (Hs2 _ _ Est) as [_ _ _ _ (la & Hla)].
    destruct (Clear_refines (aliasIndex st) la Hla) as (ca & Eca & Hca & _).
    unfold mbind, GoM_bind in Ed. rewrite (on_aliasIndex_run name _ st s2 tt ca Est Eca) in Ed. injection Ed as <-. simpl.
    eexists. rewrite lookup_insert_eq. by split. }
  destruct Hst as (st & Est & Hca). destruct (Now_after (world s1)) as (t & w1 & En & Ha).
  destruct (Get_absent (aliasIndex st) [] t a Hca eq_refl) as (c' & Eg & Hc').
  destruct (coherent_put name st (mkState (profile_ st) c' (keyCache st)) (mkEnv (enc s1) w1)) as [Hc2 _];
    [by apply coherent_after | done | done | | by exists [] |].
  { destruct (coherent_after s1 w1 Hs1 Ha name st Est) as [_ _ _ Hk _]. done. }
  eexists t, _. split; [| split; [exact Hc2 |]]; [done |].
  unfold resolveByAlias, aliasIndex_Get, mbind, GoM_bind, outside. rewrite En.
  by rewrite (on_aliasIndex_run name _ st (mkEnv (enc s1) w1) None c').
Qed.
End Facts.
