(* ===== verification/EncryptionExample.v ===== *)
(** A host, a cipher and a key repository that keep the contracts, and property
    encryption run against them: the hypotheses of its theorems hold together. *)

From S2P Require Import Prelude GoTime Packer Values Errors Unpacker Reading Hydrator Messages Outgoing RoundTrip.
From S2P Require Import Encoding EncodingFacts StructureFacts KeyCache KeyCacheFacts Encryption KeyContracts LocalKeys.
From S2P Require Import EncryptionFacts.
From stdpp Require Import gmap.
#[local] Open Scope Z_scope.
#[local] Open Scope go_scope.
Import scheme structure crypto keys profile encryption.

(** * A cipher: the plaintext and a check byte *)

Definition check_byte (k iv p aad : list byte) : byte :=
  to_byte (foldr (λ b n, of_byte b + 31 * n) 7 (k ++ iv ++ p ++ aad)).

#[local] Instance toy_cipher : AesGcm := {
  gcm_Seal k iv p aad := p ++ [check_byte k iv p aad];
  gcm_Open k iv c aad :=
    match last c with
    | Some t => let p := removelast c in if decide (t = check_byte k iv p aad) then Some p else None
    | None => None
    end
}.

#[local] Instance toy_laws : GcmLaws.
Proof.
  split; simpl.
  - intros k iv p aad. rewrite last_snoc, removelast_last. by rewrite decide_True.
  - intros k iv c aad p. destruct (last c) as [t |] eqn:E; [| done]. case_decide as Ht; [| done]. intros [= <-].
    apply last_Some in E as [l ->]. rewrite removelast_last in *. by subst.
  - intros k iv p p' aad aad' E. by apply app_inj_tail in E as [? _].
  - intros k iv p aad. rewrite length_app. lia.
Qed.

(** * A host with a repository in memory *)

(** [rows] holds every record ever stored, [dead] the ids of those deleted. *)
Record memory : Type := mkMemory {
  clock : Z;
  rows : gmap string EncapsulatedKeyRecord;
  dead : gset string;
  aliases : gmap string string
}.

#[local] Instance memory_host : Host memory := {
  Now := λ m, Done (clock m, mkMemory (clock m + 1) (rows m) (dead m) (aliases m));
  rand_Read n := mret (inr (replicate (Z.to_nat n) Byte.x2a))
}.

Definition wrapping_key : list byte := replicate 32 Byte.x17.
Definition wrapper : local.LocalKeyEncapsulationService := local.mkLocal (mkDataKey wrapping_key).

Definition key_of_row (r : EncapsulatedKeyRecord) : option (list byte) :=
  local_unwrap wrapper (Encapsulation r) (keys.Metadata r).

#[local] Program Instance memory_worlds : Worlds memory := {
  after m m' := rows m ⊆ rows m' ∧ dead m ⊆ dead m';
  ledger _ m := omap key_of_row (rows m)
}.
Next Obligation. split; [done | intros m1 m2 m3 [? ?] [? ?]; split; [by transitivity (rows m2) | set_solver]]. Qed.
Next Obligation.
  intros ? w w' [Hw _]. apply map_subseteq_spec. intros id k. rewrite !lookup_omap.
  intros (r & Hr & Hk)%bind_Some. by rewrite (lookup_weaken _ _ _ _ Hr Hw).
Qed.
Next Obligation. intros w. by eexists _, _. Qed.
Next Obligation. intros n w. by eexists _, w. Qed.

(** The record under [id], if it is there and can be recovered. *)
Definition find (id : string) (m : memory) : problem + EncapsulatedKeyRecord :=
  match rows m !! id with
  | Some r => if bool_decide (id ∉ dead m ∧ key_of_row r ≠ None ∧ ID (key_of r) = id) then inr r
              else inl ErrKeyNotFound
  | None => inl ErrKeyNotFound
  end.

Definition memory_repository : EncapsulatedKeyRecordRepository memory :=
  mkRepository
    (λ id m, Done (find id m, m))
    (λ alias m, Done (match aliases m !! alias with Some id => find id m | None => inl ErrKeyNotFound end, m))
    (λ alias e md m,
       let id := "key-" +:+ pretty (Z.of_nat (size (rows m))) in
       match rows m !! id with
       | Some _ => Done (inl (plain_error "id taken"), m)
       | None =>
           let r := mkRecord (mkKey id alias) e md in
           Done (inr r, mkMemory (clock m) (<[id := r]> (rows m)) (dead m) (<[alias := id]> (aliases m)))
       end)
    (λ id alias m, Done (None, mkMemory (clock m) (rows m) (dead m) (<[alias := id]> (aliases m))))
    (λ id m, Done (None, mkMemory (clock m) (rows m) ({[ id ]} ∪ dead m) (aliases m))).

Lemma find_genuine id m r :
  find id m = inr r → ID (key_of r) = id ∧ genuine (local.local_service wrapper) "" m id r.
Proof.
  unfold find. destruct (rows m !! id) as [r' |] eqn:E; [| done]. case_bool_decide as Hb; [| done]. intros [= ->].
  destruct Hb as (_ & Hk & Hi). split; [done |]. destruct (key_of_row r) as [k |] eqn:Ek; [| done].
  exists k. split; [| exact Ek]. simpl. by rewrite lookup_omap, E.
Qed.

#[local] Instance memory_store name : Store name (local.local_service wrapper) memory_repository.
Proof.
  split.
  - intros id m. eexists _, m. split; [reflexivity |]. split; [done |]. intros r Hr. by apply find_genuine.
  - intros alias m. eexists _, m. split; [reflexivity |]. split; [done |]. intros r Hr.
    destruct (aliases m !! alias) as [id |]; [| done]. apply find_genuine in Hr as [Hid Hg].
    rewrite Hid. exact Hg.
  - intros alias e md k Hk m. simpl. destruct (rows m !! _) as [r |] eqn:Er.
    + eexists _, m. split; [reflexivity |]. split; [done |]. done.
    + eexists _, _. split; [reflexivity |]. split; [split; [by apply insert_subseteq | done] |]. intros r [= <-]. simpl.
      rewrite lookup_omap, lookup_insert_eq. simpl. exact Hk.
  - intros id alias m. eexists _, _. split; [reflexivity |]. split; [done | done].
  - intros id m. eexists _, _. split; [reflexivity |]. split; [split; [done | set_solver] | done].
Qed.

(** * An application *)

#[local] Existing Instance utc_host.

Definition app_profile : EnvelopeProfile memory :=
  mkProfile "people" (Some (local.local_service wrapper)) (Some memory_repository) 0 0 0 0 false.
Definition typeName_of (x : goval) : string := "main.T".

Definition start : env memory :=
  match New [PEnvelope app_profile] with
  | inr e => mkEnv e (mkMemory 0 ∅ ∅ ∅)
  | inl _ => mkEnv (mkEncryption ∅ []) (mkMemory 0 ∅ ∅ ∅)
  end.

Definition state_after {A} (m : GoM (env memory) A) (s : env memory) : env memory :=
  match m s with Done (_, s') => s' | _ => s end.

(** A key with an alias, and a request that names it. *)
Definition with_key : env memory :=
  state_after (perform_all typeName_of [CCreate "people" "main" ∅]) start.
Definition request : EncryptRequest := mkRequest (GInt 42) (KeyAlias "main") "people".
Definition encrypted (aad : goval) : list byte :=
  match encrypt typeName_of request aad with_key with Done (inr bs, _) => bs | _ => [] end.
Definition with_value (aad : goval) : env memory := state_after (encrypt typeName_of request aad) with_key.

Definition answer_of {A} (m : GoM (env memory) A) (s : env memory) : option A :=
  match m s with Done (a, _) => Some a | _ => None end.

Example value_decrypts :
  answer_of (Decrypt typeName_of (encrypted GNil)) (with_value GNil) = Some (inr (VInt 42)) ∧
  answer_of (DecryptWithAAD typeName_of (encrypted (GString "row")) (GString "row")) (with_value (GString "row")) =
    Some (inr (VInt 42)) ∧
  answer_of (DecryptWithAAD typeName_of (encrypted (GString "row")) (GString "col")) (with_value (GString "row")) =
    Some (inl (EncryptionError "could not decrypt the value" (Some ErrAuthentication))).
Proof. split_and!; vm_compute; reflexivity. Qed.

(** * The theorems at this application *)

Abbreviation app_repo := (λ _ : string, memory_repository).
Abbreviation app_serv := (λ _ : string, local.local_service wrapper).

Lemma start_new : New [PEnvelope app_profile] = inr (enc start).
Proof.
  assert (Hn : match New [PEnvelope app_profile] with inr _ => true | inl _ => false end = true)
    by (vm_compute; reflexivity).
  unfold start. by destruct (New [PEnvelope app_profile]).
Qed.

Lemma start_coherent : coherent app_repo app_serv start.
Proof.
  apply (New_coherent app_repo app_serv [PEnvelope app_profile] (enc start) (world start)); [| apply start_new].
  by repeat constructor.
Qed.

(** The state after a call that keeps the invariant. *)
Lemma state_after_coherent {A} (m : GoM (env memory) A) Q s :
  does app_repo app_serv (λ _, True) m Q → coherent app_repo app_serv s →
  coherent app_repo app_serv (state_after m s).
Proof. intros Hm Hs. destruct (Hm s Hs I) as (a & s' & E & Hs' & _). unfold state_after. by rewrite E. Qed.

Lemma with_key_coherent : coherent app_repo app_serv with_key.
Proof.
  eapply state_after_coherent; [| apply start_coherent].
  apply (does_perform_all app_repo app_serv typeName_of). by repeat constructor.
Qed.

Lemma with_value_coherent aad : coherent app_repo app_serv (with_value aad).
Proof.
  eapply state_after_coherent; [| apply with_key_coherent]. apply (does_encrypt app_repo app_serv typeName_of).
Qed.

Definition succeeds {A} (m : GoM (env memory) (problem + A)) (s : env memory) : bool :=
  match m s with Done (inr _, _) => true | _ => false end.

Lemma encrypts aad :
  succeeds (encrypt typeName_of request aad) with_key = true →
  encrypt typeName_of request aad with_key = Done (inr (encrypted aad), with_value aad).
Proof.
  unfold succeeds, encrypted, with_value, state_after.
  by destruct (encrypt typeName_of request aad with_key) as [[[p | bs] s] | |].
Qed.

Lemma request_property : property (req_Value request) (encoder.mkKind TypeInteger 0 0) (VInt 42).
Proof. apply pr_atom, at_int. unfold signed. lia. Qed.

Lemma decrypt_encrypt_witness :
  ∃ res s3, Decrypt typeName_of (encrypted GNil) (with_value GNil) = Done (res, s3) ∧
    coherent app_repo app_serv s3 ∧ (res = inr (VInt 42) ∨ unresolved (encrypted GNil) (with_value GNil) res s3).
Proof.
  apply (decrypt_encrypt app_repo app_serv typeName_of with_key request GNil (encrypted GNil) (with_value GNil)
           (with_value GNil) _ _ with_key_coherent request_property).
  - apply encrypts. vm_compute. reflexivity.
  - vm_compute. reflexivity.
  - apply with_value_coherent.
  - reflexivity.
Defined.

Lemma aad_binds_witness :
  ∃ a' res s3 a, encoder.EncodeAAD typeName_of (GString "col") = Done (inr a') ∧
    DecryptWithAAD typeName_of (encrypted (GString "row")) (GString "col") (with_value (GString "row")) = Done (res, s3) ∧
    coherent app_repo app_serv s3 ∧ encoder.EncodeAAD typeName_of (GString "row") = Done (inr a) ∧
    (unresolved (encrypted (GString "row")) (with_value (GString "row")) res s3 ∨
     (if decide (encoder.Bytes a' = encoder.Bytes a) then res = inr (VInt 42)
      else res = inl (EncryptionError "could not decrypt the value" (Some ErrAuthentication)) ∨
        collides typeName_of (encrypted (GString "row")) (req_Value request) (encoder.Bytes a) (encoder.Bytes a')
          (with_value (GString "row")) s3)).
Proof.
  destruct (aad_binds app_repo app_serv typeName_of with_key request (GString "row") (encrypted (GString "row"))
    (with_value (GString "row")) (with_value (GString "row")) _ _ (GString "col")
    (encoder.mkEncoded [Byte.x83; Byte.x63; Byte.x6f; Byte.x6c] TypeString Implemented)
    with_key_coherent request_property) as (res & s3 & a & Hd).
  - discriminate.
  - discriminate.
  - apply encrypts. vm_compute. reflexivity.
  - vm_compute. reflexivity.
  - apply with_value_coherent.
  - reflexivity.
  - vm_compute. reflexivity.
  - exists (encoder.mkEncoded [Byte.x83; Byte.x63; Byte.x6f; Byte.x6c] TypeString Implemented), res, s3, a.
    split; [vm_compute; reflexivity | exact Hd].
Defined.

Lemma encryption_invariant_witness :
  ∃ s, perform_all typeName_of [CCreate "people" "main" ∅; CEncrypt request; CDeleteByID "people" "key-0"]
         (mkEnv (enc start) (mkMemory 0 ∅ ∅ ∅)) = Done (tt, s) ∧ coherent app_repo app_serv s ∧
       after (mkMemory 0 ∅ ∅ ∅) (world s).
Proof.
  apply (encryption_invariant app_repo app_serv typeName_of [PEnvelope app_profile]).
  - repeat constructor.
  - apply start_new.
  - repeat constructor.
Defined.

(** The key is deleted. *)
Definition without_key : env memory := state_after (KM_DeleteByID "people" "key-0") (with_value GNil).

Lemma people_known : known "people" (with_value GNil).
Proof. unfold known. refine (bool_decide_unpack _ _). vm_compute. exact I. Qed.

Lemma deletes : KM_DeleteByID "people" "key-0" (with_value GNil) = Done (None, without_key).
Proof.
  unfold without_key, state_after.
  destruct (does_deleteByID app_repo app_serv "people" "key-0" (with_value GNil) (with_value_coherent GNil) people_known)
    as (r & s & E & _).
  assert (Hr : answer_of (KM_DeleteByID "people" "key-0") (with_value GNil) = Some None) by (vm_compute; reflexivity).
  unfold answer_of in Hr. rewrite E in *. congruence.
Qed.

Lemma stays_deleted w :
  after (world without_key) w →
  ∃ p w', FindByID memory_repository "key-0" w = Done (inl p, w') ∧ errs.is_key_not_found p = true.
Proof.
  intros [_ Hd]. exists ErrKeyNotFound, w. split; [| done]. simpl. unfold find.
  assert (Hk : "key-0" ∈ dead w) by (apply Hd; refine (bool_decide_unpack _ _); vm_compute; exact I).
  destruct (rows w !! "key-0"); [| done]. rewrite bool_decide_eq_false_2; [done |]. by intros [? _].
Qed.

(** The structure that carries the value. *)
Definition carrier_of (bs : list byte) : Encrypted :=
  match DecodeEncrypted bs with
  | Done (inr e) => e
  | _ => mkEncrypted "" 0 "" [] "" (mkVersion 0 0) ∅
  end.

Lemma deleted_key_unusable_witness :
  ∃ p s2, Decrypt typeName_of (encrypted GNil) without_key =
    Done (inl (EncryptionError ("no encryption key has id " +:+ "key-0" +:+ " in profile " +:+ "people") (Some p)), s2).
Proof.
  apply (deleted_key_unusable app_repo app_serv typeName_of "people" "key-0" (with_value GNil) without_key (encrypted GNil)
           (carrier_of (encrypted GNil)) (replicate 12 Byte.x2a)).
  - apply with_value_coherent.
  - apply people_known.
  - apply deletes.
  - apply stays_deleted.
  - vm_compute. reflexivity.
  - vm_compute. reflexivity.
  - vm_compute. reflexivity.
  - vm_compute. reflexivity.
Defined.

(** The data key made by the local service, recovered. *)
Definition wrapped_key : KeyEncapsulationResult :=
  match local.local_Encapsulate wrapper ∅ (mkMemory 0 ∅ ∅ ∅) with
  | Done (inr r, _) => r
  | _ => mkResult [] [] ∅
  end.

Lemma local_roundtrip_witness :
  local.local_Decapsulate wrapper (res_Encapsulation wrapped_key) (res_Metadata wrapped_key)
    (mkMemory 7 ∅ ∅ ∅) = Done (inr (Key wrapped_key), mkMemory 7 ∅ ∅ ∅).
Proof.
  apply (local_roundtrip wrapper ∅ (mkMemory 0 ∅ ∅ ∅) wrapped_key (mkMemory 0 ∅ ∅ ∅)). vm_compute. reflexivity.
Defined.
