(* ===== verification/Pool.v ===== *)
(** The connection pool: neo4j/internal/pool/server.go, pool.go and
    ssr_tracker.go.

    Every section of the code that runs under a lock is one definition on the
    state of the pool; the calls of a client are state machines that perform
    these sections one by one, so that any interleaving of concurrent clients is
    a sequence of steps.  Servers are objects in a store, because the code keeps
    pointers to them across sections.  What a connection answers (alive, healthy,
    connected) is an input of the step, left open. *)

From S2P Require Import Prelude Packer Values Errors.
#[local] Open Scope Z_scope.
#[local] Open Scope go_scope.

(** A connection as the pool sees it.  Identity is [c_id]; [c_server] is
    [ServerName()], [c_birth] is [Birthdate()], [c_ssr] is [IsSsrEnabled()]. *)
Record conn : Type := mkConn { c_id : nat; c_server : string; c_birth : Z; c_ssr : bool }.

#[global] Instance conn_eq_dec : EqDecision conn.
Proof. solve_decision. Defined.

(** * One server (server.go) *)

Module server.

Record server : Type := mkServer {
  idle : list conn;
  busy : list conn;
  reservations : Z;
  failedConnectAt : option Z;      (* the zero time is None *)
  roundRobin : Z;                  (* uint32 *)
  closing : bool
}.

Definition NewServer : server := mkServer [] [] 0 None 0 false.

Definition rememberFailedConnectDuration : Z := 3 * 60 * 1000000000.
Definition newConnectionPenalty : Z := Z.shiftl 1 8.

Definition getIdle (s : server) : option conn * server :=
  match idle s with
  | c :: l => (Some c, s <| idle := l |> <| busy := c :: busy s |>)
  | [] => (None, s)
  end.

Definition notifyFailedConnect (now : Z) (s : server) : server := s <| failedConnectAt := Some now |>.
Definition notifySuccessfulConnect (s : server) : server := s <| failedConnectAt := None |>.

Definition hasFailedConnect (now : Z) (s : server) : bool :=
  match failedConnectAt s with
  | None => false
  | Some at_ => now - at_ <? rememberFailedConnectDuration
  end.

Definition calculatePenalty (now : Z) (s : server) : Z :=
  let penalty := if hasFailedConnect now s then Z.shiftl 1 31 else 0 in
  let numBusy := u32 (Packer.len (busy s)) in
  let numBusy := if numBusy >? 0xff then 0xff else numBusy in
  let penalty := Z.lor penalty (Z.shiftl numBusy 16) in
  let penalty := if decide (idle s = []) then Z.lor penalty newConnectionPenalty else penalty in
  Z.lor penalty (Z.land (roundRobin s) 0xff).

(** The loop of [unregisterBusy]: the first equal element is removed. *)
Fixpoint remove_first (c : conn) (l : list conn) : list conn :=
  match l with
  | [] => []
  | x :: l => if decide (x = c) then l else x :: remove_first c l
  end.

Definition unregisterBusy (c : conn) (s : server) : server :=
  s <| busy := remove_first c (busy s) |>.

(** The connection to close, if any, comes with the server. *)
Definition returnBusy (c : conn) (s : server) : option conn * server :=
  let s := unregisterBusy c s in
  if closing s then (Some c, s) else (None, s <| idle := c :: idle s |>).

(** [rr] is the value the shared round-robin counter was raised to. *)
Definition registerBusy (rr : Z) (c : conn) (s : server) : server :=
  s <| roundRobin := rr |> <| busy := c :: busy s |>.

Definition size (s : server) : Z :=
  Packer.len (busy s) + Packer.len (idle s) + reservations s.

Definition too_old (now maxAge : Z) (c : conn) : bool := maxAge <=? now - c_birth c.

(** The connections to close come with the server. *)
Definition removeIdleOlderThan (now maxAge : Z) (s : server) : list conn * server :=
  (List.filter (too_old now maxAge) (idle s),
   s <| idle := List.filter (λ c, negb (too_old now maxAge c)) (idle s) |>).

Definition startClosing (s : server) : list conn * server :=
  (idle s, s <| closing := true |> <| idle := [] |>).

(** What a connection answers during the check, in the order of the calls. *)
Record health : Type := mkHealth {
  h_peerAlive : bool;
  h_idleFor : Z;                   (* time since IdleDate *)
  h_aliveAfterReset : bool;
  h_ctxErr : option error;
  h_reauthErr : option error;
  h_alive : bool
}.

Definition healthCheck (h : health) (idlenessTimeout : Z) : bool * option error :=
  if negb (h_peerAlive h) then (false, None)
  else if (h_idleFor h >? idlenessTimeout) && negb (h_aliveAfterReset h) then (false, h_ctxErr h)
  else match h_reauthErr h with
       | Some e => (false, Some e)
       | None => if negb (h_alive h) then (false, h_ctxErr h) else (true, None)
       end.

End server.

(** * The pool (pool.go) *)

Record config : Type := mkConfig {
  MaxConnectionPoolSize : Z;
  MaxConnectionLifetime : Z
}.

(** [servers] maps a name to an object of the store [objs].  A waiting request
    is a number; its wake-up channel holds a signal when it is in
    [signals].  [closedConns] records the calls of [closeConnection]. *)
Record Pool : Type := mkPool {
  servers : gmap string nat;
  objs : gmap nat server.server;
  nextObj : nat;
  queue : list nat;
  nextReq : nat;
  signals : list nat;
  closed : bool;
  sharedRoundRobin : Z;            (* uint32 *)
  ssrEnabledCount : Z;             (* uint64 *)
  ssrDisabledCount : Z;
  cacheEnabled : bool;
  closedConns : list conn
}.

Definition New : Pool := mkPool ∅ ∅ 0 [] 0 [] false 0 0 0 false [].

Module pool.
Import server.

(** ** The tracker of server-side routing (ssr_tracker.go) *)

Definition addConnection (c : conn) (p : Pool) : Pool :=
  if c_ssr c then p <| ssrEnabledCount := u64 (ssrEnabledCount p + 1) |>
  else p <| ssrDisabledCount := u64 (ssrDisabledCount p + 1) |>.

(** [Add(^uint64(0))] *)
Definition removeConnection (c : conn) (p : Pool) : Pool :=
  if c_ssr c then p <| ssrEnabledCount := u64 (ssrEnabledCount p + (2 ^ 64 - 1)) |>
  else p <| ssrDisabledCount := u64 (ssrDisabledCount p + (2 ^ 64 - 1)) |>.

Definition ssrEnabled (p : Pool) : bool :=
  (0 <? ssrEnabledCount p) && (ssrDisabledCount p =? 0).

Definition updateCacheState (p : Pool) : Pool := p <| cacheEnabled := ssrEnabled p |>.

(** ** Access to servers *)

Definition lookup_server (name : string) (p : Pool) : option (nat * server) :=
  sid ← servers p !! name; s ← objs p !! sid; Some (sid, s).

Definition store (sid : nat) (s : server) (p : Pool) : Pool :=
  p <| objs := <[sid := s]> (objs p) |>.

Definition on_server (sid : nat) (f : server → server) (p : Pool) : Pool :=
  p <| objs := alter f sid (objs p) |>.

Definition delete_server (name : string) (p : Pool) : Pool :=
  p <| servers := delete name (servers p) |>.

(** [atomic.AddUint32(&sharedRoundRobin, 1)] *)
Definition next_round (p : Pool) : Z * Pool :=
  let rr := u32 (sharedRoundRobin p + 1) in (rr, p <| sharedRoundRobin := rr |>).

Definition closeConnection (c : conn) (p : Pool) : Pool :=
  removeConnection c (p <| closedConns := closedConns p ++ [c] |>).

Definition closeAll (cs : list conn) (p : Pool) : Pool := foldl (λ p c, closeConnection c p) p cs.

Definition checkClosed (p : Pool) : option error := if closed p then Some PoolClosed else None.

(** ** Sections that remove connections *)

Definition unregLocked (name : string) (c : conn) (now : Z) (p : Pool) : Pool :=
  let p :=
    match lookup_server name p with
    | None => p
    | Some (sid, s) =>
        let s := unregisterBusy c s in
        let p := store sid s p in
        if (size s =? 0) && negb (hasFailedConnect now s) then delete_server name p else p
    end in
  closeConnection c p.

Definition removeIdleOlderThanLocked (sid : nat) (s : server) (now maxAge : Z) (p : Pool) : Pool :=
  let '(old, s) := removeIdleOlderThan now maxAge s in closeAll old (store sid s p).

Definition removeIdleOlderThanOnServer (name : string) (now maxAge : Z) (p : Pool) : Pool :=
  match lookup_server name p with
  | None => p
  | Some (sid, s) => removeIdleOlderThanLocked sid s now maxAge p
  end.

(** One server of [CleanUp]. *)
Definition cleanUp_server (cfg : config) (now : Z) (p : Pool) (name : string) : Pool :=
  match lookup_server name p with
  | None => p
  | Some (sid, s) =>
      let p := removeIdleOlderThanLocked sid s now (MaxConnectionLifetime cfg) p in
      match lookup_server name p with
      | None => p
      | Some (_, s) =>
          if (size s =? 0) && negb (hasFailedConnect now s) then delete_server name p else p
      end
  end.

(** [names] is one iteration order over the map. *)
Definition CleanUp (cfg : config) (now : Z) (names : list string) (p : Pool) : Pool :=
  foldl (cleanUp_server cfg now) p names.

Definition deactivate (name : string) (p : Pool) : Pool :=
  match lookup_server name p with
  | None => p
  | Some (sid, s) => let '(cs, s) := startClosing s in closeAll cs (store sid s p)
  end.

(** Sending on the wake-up channel of a request. *)
Definition wake (q : nat) (p : Pool) : Pool := p <| signals := q :: signals p |>.

(** [if e := p.queue.Front(); e != nil { p.queue.Remove(e); wakeup <- true }] *)
Definition wake_front (p : Pool) : Pool :=
  match queue p with
  | [] => p
  | q :: qs => wake q (p <| queue := qs |>)
  end.

(** [Close]: the flag is set first, without a lock. *)
Definition Close_flag (p : Pool) : Pool := p <| closed := true |>.

(** The loop of [Close] over the queue: [Remove] clears the links of the
    element, so [e.Next()] is nil after the first pass. *)
Definition Close_queue (p : Pool) : Pool := wake_front p.

(** [names] is one iteration order over the map. *)
Definition Close_servers (names : list string) (p : Pool) : Pool :=
  foldl (λ p name, deactivate name p) p names.

Definition Close (names : list string) (p : Pool) : Pool :=
  Close_servers names (Close_queue (Close_flag p)).

(** ** Errors that connections report *)

(** What [OnNeo4jError] does besides changing the pool: the connections whose
    authentication is reset, the calls on the router, the error as it is marked
    and the error it returns. *)
Record reaction : Type := mkReaction {
  r_pool : Pool;
  r_resetAuth : list conn;
  r_invalidated : list string;
  r_writer : option (string * string);
  r_error : Neo4jError;
  r_result : option error
}.

Definition executeForAllConnections (s : server) : list conn := busy s ++ idle s.

(** [None] is the dereference of a nil server.  [db] is the database of the
    connection; [manager] is its token manager's answer, if it has a manager. *)
Definition OnNeo4jError (name : string) (db : string)
    (manager : option (Neo4jError → bool * option error)) (e : Neo4jError) (p : Pool) :
    option reaction :=
  reset ← (if decide (Code e = "Neo.ClientError.Security.AuthorizationExpired"%string)
           then '(_, s) ← lookup_server name p; Some (executeForAllConnections s)
           else Some []);
  let '(p, inv) :=
    if decide (Code e = "Neo.TransientError.General.DatabaseUnavailable"%string)
    then (deactivate name p, [name]) else (p, []) in
  let writer := if IsRetriableCluster e then Some (db, name) else None in
  let '(e, result) :=
    if HasSecurityCode e then
      match manager with
      | None => (e, None)
      | Some handle =>
          match handle e with
          | (_, Some err) => (e, Some err)
          | (true, None) => (MarkRetriable e, None)
          | (false, None) => (e, None)
          end
      end
    else (e, None) in
  Some (mkReaction p reset inv writer e result).

(** ** Borrowing *)

Definition getPenalty (cfg : config) (now : Z) (name : string) (p : Pool) : Z * Pool :=
  match lookup_server name p with
  | None => (newConnectionPenalty, p)
  | Some (sid, s) =>
      let p := removeIdleOlderThanLocked sid s now (MaxConnectionLifetime cfg) p in
      (match lookup_server name p with
       | Some (_, s) => calculatePenalty now s
       | None => newConnectionPenalty
       end, p)
  end.

Fixpoint getPenaltiesForServers (cfg : config) (now : Z) (names : list string) (p : Pool) :
    list (string * Z) * Pool :=
  match names with
  | [] => ([], p)
  | n :: names =>
      let '(x, p) := getPenalty cfg now n p in
      let '(xs, p) := getPenaltiesForServers cfg now names p in
      ((n, x) :: xs, p)
  end.

Definition anyHasCapacity (cfg : config) (names : list string) (p : Pool) : bool :=
  existsb (λ n, match lookup_server n p with
                | Some (_, s) =>
                    (0 <? Packer.len (idle s)) || (size s <? MaxConnectionPoolSize cfg)
                | None => false
                end) names.

(** The locked sections of [tryBorrow]: what the first of them finds. *)
Inductive attempt : Type :=
| TryClosed
| TryFull
| TryIdle (sid : nat) (c : conn)
| TryConnect (sid : nat).

Definition tryBorrow_idle (cfg : config) (name : string) (p : Pool) : attempt * Pool :=
  match lookup_server name p with
  | Some (sid, s) =>
      let s := s <| closing := false |> in
      match getIdle s with
      | (Some c, s) => (TryIdle sid c, store sid s p)
      | (None, s) =>
          if MaxConnectionPoolSize cfg <=? size s then (TryFull, store sid s p)
          else (TryConnect sid, store sid (s <| reservations := reservations s + 1 |>) p)
      end
  | None =>
      let sid := nextObj p in
      (TryConnect sid,
       store sid (NewServer <| reservations := 1 |>) (p
         <| servers := <[name := sid]> (servers p) |> <| nextObj := S sid |>))
  end.

Definition tryBorrow_enter (cfg : config) (name : string) (p : Pool) : attempt * Pool :=
  if closed p then (TryClosed, p) else tryBorrow_idle cfg name p.

(** After [connect]. *)
Definition tryBorrow_failed (sid : nat) (now : Z) (e : error) (p : Pool) : Pool :=
  on_server sid (λ s,
    let s := s <| reservations := reservations s - 1 |> in
    match e with
    | FeatureNotSupportedError _ _ _ => s
    | _ => notifyFailedConnect now s
    end) p.

Definition tryBorrow_connected (sid : nat) (c : conn) (p : Pool) : Pool :=
  let p := addConnection c (on_server sid (λ s, s <| reservations := reservations s - 1 |>) p) in
  let '(rr, p) := next_round p in
  on_server sid (λ s, notifySuccessfulConnect (registerBusy rr c s)) p.

(** The round-robin update of a successful health check. *)
Definition checked (sid : nat) (p : Pool) : Pool :=
  let '(rr, p) := next_round p in on_server sid (λ s, s <| roundRobin := rr |>) p.

(** Joining the queue under its lock, unless there is capacity after all. *)
Definition enqueue (cfg : config) (names : list string) (p : Pool) : option nat * Pool :=
  if anyHasCapacity cfg names p then (None, p)
  else
    let q := nextReq p in
    (Some q, p <| queue := queue p ++ [q] |> <| nextReq := S q |>).

(** Giving up: the request leaves the queue and hands on a signal it may have
    received meanwhile.  The result tells whether it had one. *)
Definition abandon (q : nat) (p : Pool) : bool * Pool :=
  let p := p <| queue := List.filter (λ x, negb (x =? q)%nat) (queue p) |> in
  if decide (q ∈ signals p) then (true, wake_front p) else (false, p).

(** ** Returning *)

(** The age limit for the idle connections of the server. *)
Definition return_maxAge (cfg : config) (alive : bool) (age : Z) : Z :=
  if negb alive && (age <? MaxConnectionLifetime cfg) then age else MaxConnectionLifetime cfg.

(** Putting the connection back, or unregistering it. *)
Definition put_back (cfg : config) (c : conn) (alive : bool) (now : Z) (p : Pool) : Pool :=
  let age := now - c_birth c in
  if negb alive || (MaxConnectionLifetime cfg <=? age)
  then unregLocked (c_server c) c now p
  else
    match lookup_server (c_server c) p with
    | Some (sid, s) =>
        let '(toClose, s) := returnBusy c s in
        let p := store sid s p in
        let p := match toClose with Some c => closeConnection c p | None => p end in
        if closing s && (size s =? 0) then delete_server (c_server c) p else p
    | None => closeConnection c p
    end.

(** The three locked sections of [Return] in a row. *)
Definition Return (cfg : config) (c : conn) (alive aliveAfterReset : bool) (now : Z) (p : Pool) : Pool :=
  let age := now - c_birth c in
  let p := removeIdleOlderThanOnServer (c_server c) now (return_maxAge cfg alive age) p in
  let p := put_back cfg c (alive && aliveAfterReset) now p in
  wake_front (updateCacheState p).

End pool.
