(* ===== verification/PoolClients.v ===== *)
(** The clients of the pool as state machines: the calls [Borrow] and [Return]
    of neo4j/internal/pool/pool.go, performed one locked section at a time.

    A world is the pool with any number of clients.  A step lets one client run
    its next section, or runs one of the calls that belong to no client
    ([CleanUp], [Close], [deactivate]).  What the environment decides (the
    server names, the clock, the order an unstable sort leaves, the answers of
    connections, the end of a context) comes with the step. *)

From S2P Require Import Prelude Packer Values Errors Pool.
#[local] Open Scope Z_scope.
#[local] Open Scope go_scope.

(** The arguments of a [Borrow] in progress: [wait] and the server names of the
    current round. *)
Record request : Type := mkRequest { rq_wait : bool; rq_names : list string }.

(** Where a client is. *)
Inductive client : Type :=
| Top (wait : bool)                                      (* top of the loop of Borrow *)
| Trying (rq : request) (todo : list string) (err : option error)
| Checking (rq : request) (todo : list string) (name : string) (sid : nat) (c : conn)
| Unhealthy (rq : request) (todo : list string) (name : string) (c : conn) (err : option error)
| Again (rq : request) (todo : list string) (name : string)  (* tryBorrow, next pass *)
| Connecting (rq : request) (todo : list string) (name : string) (sid : nat)
| Got (c : conn)                                         (* before updateCacheState *)
| Waiting (rq : request) (q : nat)
| Failed (err : error)                                   (* Borrow returned an error *)
| Holding (c : conn)                                     (* Borrow returned c *)
| Resetting (c : conn) (alive : bool) (now : Z)          (* Return, after the clean-up *)
| Notifying                                              (* Return, after putting back *)
| Released.

(** What the environment contributes to a step of a client. *)
Inductive choice : Type :=
| Go
| Names (names : list string) (order : list (string * Z)) (now : Z)
| Health (h : server.health) (idlenessTimeout : Z)
| Clock (now : Z)
| Connected (c : conn)
| ConnectFailed (now : Z) (e : error)
| Expired (e : error)
| Alive (alive : bool) (now : Z)
| AfterReset (alive : bool).

Record world : Type := mkWorld {
  w_pool : Pool;
  w_clients : list client;
  w_made : list conn                (* every connection established so far *)
}.

Module clients.
Import server pool.

(** [sort.Slice] leaves the elements in some order with ascending penalties. *)
Fixpoint ascending (l : list (string * Z)) : bool :=
  match l with
  | x :: (y :: _) as t => (x.2 <=? y.2) && ascending t
  | _ => true
  end.

Definition sorts (l order : list (string * Z)) : bool :=
  bool_decide (order ≡ₚ l) && ascending order.

(** The loop of [Borrow] over the penalties, after one [tryBorrow] gave no
    connection but [err]. *)
Definition next_try (rq : request) (todo : list string) (err : option error) : client :=
  match err with
  | Some e =>
      if IsTimeoutError e then Failed (PoolTimeout e (rq_names rq))
      else if IsFatalDuringDiscovery e then Failed e
      else Trying rq todo err
  | None => Trying rq todo None
  end.

Definition after_attempt (rq : request) (todo : list string) (name : string) (a : attempt) : client :=
  match a with
  | TryClosed => next_try rq todo (Some PoolClosed)
  | TryFull => next_try rq todo None
  | TryIdle sid c => Checking rq todo name sid c
  | TryConnect sid => Connecting rq todo name sid
  end.

(** One round of [Borrow] up to the loop. *)
Definition round (cfg : config) (wait : bool) (names : list string) (order : list (string * Z))
    (now : Z) (p : Pool) : option (Pool * client) :=
  match checkClosed p with
  | Some e => Some (p, Failed e)
  | None =>
      if decide (names = []) then Some (p, Failed PoolOutOfServers)
      else
        let '(penalties, p) := getPenaltiesForServers cfg now names p in
        if sorts penalties order
        then Some (p, Trying (mkRequest wait names) order.*1 None)
        else None
  end.

(** The end of the loop over the penalties. *)
Definition exhausted (cfg : config) (rq : request) (err : option error) (p : Pool) : Pool * client :=
  match err with
  | Some e => (p, Failed e)
  | None =>
      if negb (rq_wait rq) then (p, Failed (PoolFull (rq_names rq)))
      else
        match enqueue cfg (rq_names rq) p with
        | (None, p) => (p, Top (rq_wait rq))
        | (Some q, p) => (p, Waiting rq q)
        end
  end.

Definition remove_signal (q : nat) (p : Pool) : Pool :=
  p <| signals := List.filter (λ x, negb (x =? q)%nat) (signals p) |>.

(** One section of one client; [None] when the choice does not fit. *)
Definition client_step (cfg : config) (ch : choice) (p : Pool) (t : client) : option (Pool * client) :=
  match t, ch with
  | Top wait, Names names order now => round cfg wait names order now p
  | Trying rq (name :: todo) _, Go =>
      let '(a, p) := tryBorrow_enter cfg name p in Some (p, after_attempt rq todo name a)
  | Trying rq [] err, Go => Some (exhausted cfg rq err p)
  | Checking rq todo name sid c, Health h idlenessTimeout =>
      match healthCheck h idlenessTimeout with
      | (true, _) => Some (checked sid p, Got c)
      | (false, err) => Some (p, Unhealthy rq todo name c err)
      end
  | Unhealthy rq todo name c err, Clock now =>
      Some (unregLocked name c now p,
            match err with Some _ => next_try rq todo err | None => Again rq todo name end)
  | Again rq todo name, Go =>
      let '(a, p) := tryBorrow_idle cfg name p in Some (p, after_attempt rq todo name a)
  | Connecting rq todo name sid, ConnectFailed now e =>
      Some (tryBorrow_failed sid now e p, next_try rq todo (Some e))
  | Connecting rq todo name sid, Connected c => Some (tryBorrow_connected sid c p, Got c)
  | Got c, Go => Some (updateCacheState p, Holding c)
  | Waiting rq q, Go =>
      if decide (q ∈ signals p) then Some (remove_signal q p, Top (rq_wait rq)) else None
  | Waiting rq q, Expired e =>
      match abandon q p with
      | (true, p) => Some (p, Top (rq_wait rq))
      | (false, p) => Some (p, Failed (PoolTimeout e (rq_names rq)))
      end
  | Holding c, Alive alive now =>
      Some (removeIdleOlderThanOnServer (c_server c) now (return_maxAge cfg alive (now - c_birth c)) p,
            Resetting c alive now)
  | Resetting c alive now, AfterReset aliveAfterReset =>
      Some (put_back cfg c (alive && aliveAfterReset) now p, Notifying)
  | Notifying, Go => Some (wake_front (updateCacheState p), Released)
  | _, _ => None
  end.

(** A new connection is to the server asked for and is no earlier connection. *)
Definition fits (made : list conn) (t : client) (ch : choice) : bool :=
  match t, ch with
  | Connecting _ _ name _, Connected c =>
      bool_decide (c_server c = name) && bool_decide (c_id c ∉ c_id <$> made)
  | _, _ => true
  end.

Definition established (ch : choice) : list conn :=
  match ch with Connected c => [c] | _ => [] end.

(** ** The world *)

Inductive event : Type :=
| Spawn (wait : bool)
| Run (i : nat) (ch : choice)
| CleanUps (now : Z) (names : list string)
| Deactivate (name : string)
| CloseFlag
| CloseQueue
| CloseServers (names : list string).

Definition initial : world := mkWorld New [] [].

Definition step (cfg : config) (ev : event) (w : world) : option world :=
  match ev with
  | Spawn wait => Some (w <| w_clients := w_clients w ++ [Top wait] |>)
  | Run i ch =>
      t ← w_clients w !! i;
      if fits (w_made w) t ch then
        '(p, t') ← client_step cfg ch (w_pool w) t;
        Some (mkWorld p (<[i := t']> (w_clients w)) (established ch ++ w_made w))
      else None
  | CleanUps now names => Some (w <| w_pool := CleanUp cfg now names (w_pool w) |>)
  | Deactivate name => Some (w <| w_pool := deactivate name (w_pool w) |>)
  | CloseFlag => Some (w <| w_pool := Close_flag (w_pool w) |>)
  | CloseQueue => Some (w <| w_pool := Close_queue (w_pool w) |>)
  | CloseServers names => Some (w <| w_pool := Close_servers names (w_pool w) |>)
  end.

Fixpoint run (cfg : config) (evs : list event) (w : world) : option world :=
  match evs with
  | [] => Some w
  | ev :: evs => w ← step cfg ev w; run cfg evs w
  end.

(** The worlds some sequence of steps leads to. *)
Inductive reachable (cfg : config) : world → Prop :=
| reach_initial : reachable cfg initial
| reach_step w ev w' : reachable cfg w → step cfg ev w = Some w' → reachable cfg w'.

End clients.
