(* ===== verification/PoolSections.v ===== *)
(** What each locked section of the pool does, server by server, and the
    accounting invariant that every section preserves.

    [srv n p] is the server the map holds under [n].  [acts] describes a section
    that touches one name only; [inv_acts] reduces the preservation of the
    invariant to facts about that one server. *)

From S2P Require Import Prelude Packer Values Errors Pool.
#[local] Open Scope Z_scope.
#[local] Open Scope go_scope.
Import server pool.

(** * Counting *)

Section Counting.
Context {A : Type} `{EqDecision A}.
Implicit Types (x y : A) (l : list A).

(** How often [x] occurs. *)
Fixpoint cnt x l : nat :=
  match l with
  | [] => 0
  | y :: l => if decide (y = x) then S (cnt x l) else cnt x l
  end.

Lemma cnt_app x l1 l2 : cnt x (l1 ++ l2) = (cnt x l1 + cnt x l2)%nat.
Proof. induction l1; simpl; [done|]. case_decide; lia. Qed.

Lemma cnt_elem x l : x ∈ l ↔ (0 < cnt x l)%nat.
Proof.
  induction l as [|y l IH]; simpl; [set_solver by lia|].
  rewrite elem_of_cons. case_decide; naive_solver lia.
Qed.

Lemma cnt_zero x l : x ∉ l ↔ cnt x l = 0%nat.
Proof. rewrite cnt_elem. lia. Qed.

Lemma cnt_perm x l1 l2 : l1 ≡ₚ l2 → cnt x l1 = cnt x l2.
Proof. induction 1; simpl; repeat case_decide; lia. Qed.

Lemma cnt_NoDup l : NoDup l ↔ ∀ x, (cnt x l ≤ 1)%nat.
Proof.
  induction l as [|y l IH]; simpl; [split; [lia|constructor]|].
  rewrite NoDup_cons, cnt_zero, IH. split.
  - intros [? H] x. specialize (H x). case_decide; subst; lia.
  - intros H. split; [specialize (H y); rewrite decide_True in H by done; lia|].
    intros x. specialize (H x). case_decide; lia.
Qed.

Lemma cnt_filter x f l :
  cnt x (List.filter f l) = if f x then cnt x l else 0%nat.
Proof.
  induction l as [|y l IH]; simpl; [by destruct (f x)|].
  destruct (f y) eqn:E; simpl; rewrite IH; case_decide; subst; rewrite ?E; done.
Qed.

Lemma length_cnt_le l1 l2 : (∀ x, (cnt x l1 ≤ cnt x l2)%nat) → (length l1 ≤ length l2)%nat.
Proof.
  revert l2. induction l1 as [|y l IH]; intros l2 H; simpl; [lia|].
  assert (y ∈ l2) as (l3 & l4 & ->)%list_elem_of_split.
  { apply cnt_elem. specialize (H y). simpl in H. rewrite decide_True in H by done. lia. }
  rewrite length_app. simpl. specialize (IH (l3 ++ l4)). rewrite length_app in IH.
  cut ((length l ≤ length l3 + length l4)%nat); [lia|]. apply IH. intros x.
  specialize (H x). rewrite cnt_app in *. simpl in H. case_decide; lia.
Qed.
End Counting.

(** * Servers by name *)

Definition srv (n : string) (p : Pool) : option server := snd <$> lookup_server n p.
Definition idle_of (os : option server) : list conn := match os with Some s => idle s | None => [] end.

(** The map holds valid pointers and no object has two names. *)
Definition wf (p : Pool) : Prop :=
  (∀ n sid, servers p !! n = Some sid → is_Some (objs p !! sid) ∧ (sid < nextObj p)%nat) ∧
  (∀ n1 n2 sid, servers p !! n1 = Some sid → servers p !! n2 = Some sid → n1 = n2).

Definition ssr (b : bool) (p : Pool) : Z := if b then ssrEnabledCount p else ssrDisabledCount p.
Definition tally (b : bool) (l : list conn) : Z :=
  Z.of_nat (length (List.filter (λ c, eqb (c_ssr c) b) l)).

Lemma tally_app b l1 l2 : tally b (l1 ++ l2) = tally b l1 + tally b l2.
Proof. unfold tally. rewrite List.filter_app, length_app. lia. Qed.

Lemma srv_pointer n s p : srv n p = Some s → ∃ sid, servers p !! n = Some sid ∧ objs p !! sid = Some s ∧ lookup_server n p = Some (sid, s).
Proof.
  unfold srv, lookup_server. destruct (servers p !! n) as [sid|] eqn:E; simpl; [|done].
  destruct (objs p !! sid) eqn:E'; simpl; [|done]. intros [= ->]. eauto.
Qed.

Lemma lookup_server_srv n sid s p :
  lookup_server n p = Some (sid, s) → srv n p = Some s ∧ servers p !! n = Some sid ∧ objs p !! sid = Some s.
Proof.
  unfold srv, lookup_server. destruct (servers p !! n) as [sid'|]; simpl; [|done].
  destruct (objs p !! sid') eqn:E'; simpl; [|done]. by intros [= -> ->].
Qed.

Lemma lookup_server_none n p : lookup_server n p = None → srv n p = None.
Proof. unfold srv. by intros ->. Qed.

Lemma wf_none n p : wf p → srv n p = None → servers p !! n = None.
Proof.
  intros [W _]. unfold srv, lookup_server. destruct (servers p !! n) as [sid|] eqn:E; simpl; [|done].
  destruct (W _ _ E) as [[s ->] _]. done.
Qed.

(** * Sections that touch one name *)

(** From [p], the section leaves the server [os] under [n], registers the
    connections [new] with the tracker and closes the connections [gone]. *)
Record acts (p : Pool) (n : string) (os : option server) (new gone : list conn) (p' : Pool) : Prop := {
  a_wf : wf p';
  a_other n' : n' ≠ n → servers p' !! n' = servers p !! n' ∧ srv n' p' = srv n' p;
  a_this : srv n p' = os;
  a_ptr sid : servers p !! n = Some sid → os ≠ None → servers p' !! n = Some sid;
  a_closed : closedConns p' = closedConns p ++ gone;
  a_ssr b : ssr b p = u64 (ssr b p) → ssr b p' = u64 (ssr b p + tally b new - tally b gone);
  a_queue : queue p' = queue p ∧ signals p' = signals p ∧ nextReq p' = nextReq p ∧ closed p' = closed p
}.

Lemma u64_cong a b c : u64 a = u64 b → u64 (a + c) = u64 (b + c).
Proof. unfold u64. intros H. rewrite (Zplus_mod a), (Zplus_mod b), H. done. Qed.

Lemma acts_refl p n : wf p → acts p n (srv n p) [] [] p.
Proof.
  intros W. split; try done.
  - by rewrite app_nil_r.
  - intros b E. unfold tally. simpl. rewrite E at 1. f_equal. lia.
Qed.

Lemma u64_idem x : u64 (u64 x) = u64 x.
Proof. unfold u64. by rewrite Zmod_mod. Qed.

Lemma acts_trans p n os new gone p' os' new' gone' p'' :
  acts p n os new gone p' → (os' ≠ None → os ≠ None) → acts p' n os' new' gone' p'' →
  acts p n os' (new ++ new') (gone ++ gone') p''.
Proof.
  intros [W1 O1 T1 P1 C1 S1 Q1] N [W2 O2 T2 P2 C2 S2 Q2]. split; try done.
  - intros n' Hn. destruct (O1 n' Hn), (O2 n' Hn). split; congruence.
  - intros sid H N'. apply P2; [apply P1|]; auto.
  - by rewrite C2, C1, app_assoc.
  - intros b E. specialize (S1 b E). rewrite S2, !tally_app by (by rewrite S1, u64_idem).
    replace (ssr b p + (tally b new + tally b new') - (tally b gone + tally b gone'))
      with ((ssr b p + tally b new - tally b gone) + (tally b new' - tally b gone')) by lia.
    rewrite <- (u64_cong (ssr b p')); [f_equal; lia|]. by rewrite S1, u64_idem.
  - destruct Q1 as (?&?&?&?), Q2 as (?&?&?&?). repeat split; congruence.
Qed.

Lemma srv_same n p p' : servers p' = servers p → objs p' = objs p → srv n p' = srv n p.
Proof. unfold srv, lookup_server. by intros -> ->. Qed.

Lemma lookup_store n sid s p :
  lookup_server n (store sid s p) =
    (sid' ← servers p !! n; s' ← <[sid := s]> (objs p) !! sid'; Some (sid', s')).
Proof. done. Qed.

Lemma wf_objs p p' :
  wf p → servers p' = servers p → nextObj p' = nextObj p →
  (∀ sid, is_Some (objs p !! sid) → is_Some (objs p' !! sid)) → wf p'.
Proof.
  intros [W1 W2] E1 E2 O. split; rewrite E1; [rewrite E2|done].
  intros n sid H. destruct (W1 _ _ H). auto.
Qed.

Lemma acts_store p n sid s : wf p → servers p !! n = Some sid → acts p n (Some s) [] [] (store sid s p).
Proof.
  intros W E. split; try done.
  - apply (wf_objs p); [done..|]. intros sid' H. change (is_Some (<[sid := s]> (objs p) !! sid')).
    by apply lookup_insert_is_Some'; right.
  - intros n' Hn. split; [done|]. unfold srv. rewrite lookup_store. unfold lookup_server.
    destruct (servers p !! n') as [sid'|] eqn:E'; simpl; [|done].
    rewrite lookup_insert_ne; [done|]. intros ->. by eapply Hn, W.
  - unfold srv. rewrite lookup_store, E. simpl. by rewrite lookup_insert_eq.
  - by rewrite app_nil_r.
  - intros b E1. change (ssr b (store sid s p)) with (ssr b p). unfold tally. simpl. rewrite E1 at 1. f_equal. lia.
Qed.

Lemma acts_on p n sid s f : wf p → servers p !! n = Some sid → srv n p = Some s →
  acts p n (Some (f s)) [] [] (on_server sid f p).
Proof.
  intros W E H. destruct (srv_pointer _ _ _ H) as (sid' & E' & O & _).
  assert (sid' = sid) as -> by congruence.
  replace (on_server sid f p) with (store sid (f s) p); [by apply acts_store|].
  unfold on_server, store.
  replace (alter f sid (objs p)) with (<[sid := f s]> (objs p)); [done|]. apply map_eq. intros i.
  destruct (decide (i = sid)) as [->|]; [by rewrite lookup_insert_eq, lookup_alter_eq, O|].
  by rewrite lookup_insert_ne, lookup_alter_ne by done.
Qed.

Lemma acts_delete p n : wf p → acts p n None [] [] (delete_server n p).
Proof.
  intros [W1 W2].
  assert (servers (delete_server n p) = delete n (servers p)) as E by done.
  assert (∀ m, lookup_server m (delete_server n p) =
    (sid ← delete n (servers p) !! m; s ← objs p !! sid; Some (sid, s))) as L by done.
  split; try done.
  - split; rewrite E.
    + intros n' sid' [_ H]%lookup_delete_Some. by apply (W1 n').
    + intros n1 n2 sid' [_ H1]%lookup_delete_Some [_ H2]%lookup_delete_Some. eauto.
  - intros n' Hn. unfold srv. rewrite L, E, lookup_delete_ne by done. done.
  - unfold srv. by rewrite L, lookup_delete_eq.
  - by rewrite app_nil_r.
  - intros b E1. change (ssr b (delete_server n p)) with (ssr b p). unfold tally. simpl. rewrite E1 at 1. f_equal. lia.
Qed.

Lemma acts_close p n c : wf p → acts p n (srv n p) [] [c] (closeConnection c p).
Proof.
  intros W.
  assert (servers (closeConnection c p) = servers p ∧ objs (closeConnection c p) = objs p ∧ nextObj (closeConnection c p) = nextObj p) as (E1 & E2 & E3).
  { unfold closeConnection, removeConnection. by destruct (c_ssr c). }
  split.
  - unfold wf. by rewrite E1, E2, E3.
  - intros. split; [by rewrite E1|by apply srv_same].
  - by apply srv_same.
  - by rewrite E1.
  - unfold closeConnection, removeConnection. by destruct (c_ssr c).
  - intros b Eb. assert (∀ x, u64 (x + (2 ^ 64 - 1)) = u64 (x + 0 - 1)) as U.
    { intros x. unfold u64. symmetry. rewrite <- (Z_mod_plus_full _ 1 (2 ^ 64)).
      f_equal. lia. }
    assert (∀ x, x = u64 x → x = u64 (x + 0 - 0)) as V by (intros x E; rewrite E at 1; f_equal; lia).
    unfold closeConnection, removeConnection, tally. cbn [List.filter].
    destruct (c_ssr c), b;
      first [exact (U (ssrEnabledCount p)) | exact (U (ssrDisabledCount p)) | exact (V _ Eb)].
  - unfold closeConnection, removeConnection. by destruct (c_ssr c).
Qed.

Lemma acts_closeAll p n cs : wf p → acts p n (srv n p) [] cs (closeAll cs p).
Proof.
  revert p. induction cs as [|c cs IH]; intros p W; [by apply acts_refl|].
  pose proof (acts_close p n c W) as A1. specialize (IH _ (a_wf _ _ _ _ _ _ A1)).
  rewrite (a_this _ _ _ _ _ _ A1) in IH. by apply (acts_trans _ _ _ _ _ _ _ _ _ _ A1 id IH).
Qed.

Lemma acts_new p n s :
  wf p → servers p !! n = None →
  acts p n (Some s) [] [] (store (nextObj p) s (p
         <| servers := <[n := nextObj p]> (servers p) |> <| nextObj := S (nextObj p) |>)).
Proof.
  intros [W1 W2] E. set (p' := store _ _ _).
  assert (∀ m sid, servers p' !! m = Some sid →
            (m = n ∧ sid = nextObj p) ∨ (m ≠ n ∧ servers p !! m = Some sid)) as S'.
  { intros m sid. change (servers p') with (<[n := nextObj p]> (servers p)).
    rewrite lookup_insert_Some. naive_solver. }
  assert (∀ m, lookup_server m p' = (sid ← <[n := nextObj p]> (servers p) !! m;
            s' ← <[nextObj p := s]> (objs p) !! sid; Some (sid, s'))) as L by reflexivity.
  split; try done.
  - split.
    + intros m sid H. change (objs p') with (<[nextObj p := s]> (objs p)).
      change (nextObj p') with (S (nextObj p)).
      destruct (S' _ _ H) as [[-> ->]|[_ H']]; [rewrite lookup_insert_eq; eauto|].
      destruct (W1 _ _ H') as [? ?]. split; [|lia]. by apply lookup_insert_is_Some'; right.
    + intros n1 n2 sid H1 H2.
      destruct (S' _ _ H1) as [[-> ->]|[_ H1']], (S' _ _ H2) as [[-> E2]|[_ H2']]; try done.
      * destruct (W1 _ _ H2'). lia.
      * destruct (W1 _ _ H1'). lia.
      * eauto.
  - intros n' Hn. split; [by apply lookup_insert_ne|]. unfold srv. rewrite L.
    rewrite lookup_insert_ne by done. unfold lookup_server.
    destruct (servers p !! n') as [sid|] eqn:E'; simpl; [|done].
    destruct (W1 _ _ E'). rewrite lookup_insert_ne by lia. done.
  - unfold srv. rewrite L, lookup_insert_eq. simpl. by rewrite lookup_insert_eq.
  - intros sid. rewrite E. done.
  - by rewrite app_nil_r.
  - intros b E1. change (ssr b p') with (ssr b p). unfold tally. simpl. rewrite E1 at 1. f_equal. lia.
Qed.

Lemma acts_round p n : wf p → acts p n (srv n p) [] [] (next_round p).2.
Proof.
  intros W. pose proof (acts_refl p n W) as []. split; try done.
Qed.

Lemma acts_add p n c : wf p → acts p n (srv n p) [c] [] (addConnection c p).
Proof.
  intros W. pose proof (acts_refl p n W) as [].
  assert (∀ x, u64 (x + 1) = u64 (x + 1 - 0)) as U by (intros x; f_equal; lia).
  assert (∀ x, x = u64 x → x = u64 (x + 0 - 0)) as V by (intros x E; rewrite E at 1; f_equal; lia).
  split.
  - apply (wf_objs p); unfold addConnection; by destruct (c_ssr c).
  - intros n' Hn. unfold addConnection. by destruct (c_ssr c).
  - unfold addConnection. by destruct (c_ssr c).
  - unfold addConnection. by destruct (c_ssr c).
  - unfold addConnection. by destruct (c_ssr c).
  - intros b Eb. unfold addConnection, tally. cbn [List.filter].
    destruct (c_ssr c), b;
      first [exact (U (ssrEnabledCount p)) | exact (U (ssrDisabledCount p)) | exact (V _ Eb)].
  - unfold addConnection. by destruct (c_ssr c).
Qed.

(** * The accounting invariant *)

Section Accounting.
Context (cfg : config).
Implicit Types (U made : list conn) (R : list string) (P : list (string * nat)).

(** What server [s] called [n] records, when the clients use the connections
    [U] and have reserved a connection to each of the names [R]. *)
Record serves (n : string) U R (s : server) : Prop := {
  sv_size : size s ≤ MaxConnectionPoolSize cfg;
  sv_idle c : c ∈ idle s → c_server c = n;
  sv_busy c : cnt c (busy s) = if decide (c_server c = n) then cnt c U else 0%nat;
  sv_resv : reservations s = Z.of_nat (cnt n R)
}.

Definition unused (n : string) U R : Prop := n ∉ R ∧ ∀ c, c ∈ U → c_server c ≠ n.

(** Clients hold pointers [P] only to servers they use. *)
Definition protected U R P : Prop :=
  ∀ n sid, (n, sid) ∈ P → n ∈ R ∨ ∃ c, c ∈ U ∧ c_server c = n.

Definition local_ok (n : string) U R (os : option server) : Prop :=
  match os with Some s => serves n U R s | None => unused n U R end.

Record Inv (p : Pool) made U R P : Prop := {
  i_wf : wf p;
  i_local n : local_ok n U R (srv n p);
  i_ptrs n sid : (n, sid) ∈ P → servers p !! n = Some sid;
  i_prot : protected U R P;
  i_cnt c : (cnt c U + cnt c (idle_of (srv (c_server c) p)) + cnt c (closedConns p) = cnt c made)%nat;
  i_made : NoDup (c_id <$> made);
  i_ssr b : ssr b p = u64 (tally b made - tally b (closedConns p))
}.

(** A server of size 0 is used by nobody. *)
Lemma serves_empty n U R s : serves n U R s → size s = 0 → unused n U R ∧ idle s = [].
Proof.
  intros [Hs Hi Hb Hr] E. unfold size, Packer.len in E.
  assert (busy s = []) as Eb by (apply nil_length_inv; lia).
  assert (idle s = []) as Ei by (apply nil_length_inv; lia).
  split; [|done]. split; [apply cnt_zero; lia|].
  intros c Hc <-. specialize (Hb c). rewrite decide_True, Eb in Hb by done.
  apply cnt_elem in Hc. simpl in Hb. lia.
Qed.

Lemma serves_ext n U R U' R' s :
  serves n U R s → (∀ c, c_server c = n → cnt c U' = cnt c U) → cnt n R' = cnt n R → serves n U' R' s.
Proof.
  intros [Hs Hi Hb Hr] EU ER. split; [done..| |by rewrite ER].
  intros c. rewrite Hb. case_decide; [by rewrite EU|done].
Qed.

Lemma unused_ext n U R U' R' :
  unused n U R → (∀ c, c_server c = n → cnt c U' = cnt c U) → cnt n R' = cnt n R → unused n U' R'.
Proof.
  intros [H1 H2] EU ER. split.
  - apply cnt_zero. rewrite ER. by apply cnt_zero.
  - intros c Hc E. apply cnt_elem in Hc. rewrite EU in Hc by done. apply cnt_elem in Hc. by apply (H2 c).
Qed.

Lemma local_ext n U R U' R' os :
  local_ok n U R os → (∀ c, c_server c = n → cnt c U' = cnt c U) → cnt n R' = cnt n R → local_ok n U' R' os.
Proof. destruct os; simpl; eauto using serves_ext, unused_ext. Qed.

(** A section that touches the name [n] only, run by a client whose resources
    change from [U], [R], [P] to [U'], [R'], [P']. *)
Lemma inv_acts p made U R P n os new gone p' U' R' P' :
  Inv p made U R P → acts p n os new gone p' →
  local_ok n U' R' os →
  (∀ c, c_server c = n → cnt c U' + cnt c (idle_of os) + cnt c gone =
                         cnt c U + cnt c (idle_of (srv n p)) + cnt c new)%nat →
  (∀ c, c_server c ≠ n → cnt c U' = cnt c U ∧ cnt c gone = 0 ∧ cnt c new = 0)%nat →
  (∀ n', n' ≠ n → cnt n' R' = cnt n' R) →
  protected U' R' P' → (∀ m sid, (m, sid) ∈ P' → (m, sid) ∈ P ∨ servers p' !! m = Some sid) →
  NoDup (c_id <$> new ++ made) →
  Inv p' (new ++ made) U' R' P'.
Proof.
  intros [W L Pt Pr C M S] [W' O T PP CC SS _] L' C1 C2 ER Pr' Pt' M'. split; try done.
  - intros n'. destruct (decide (n' = n)) as [->|Hn]; [by rewrite T|].
    destruct (O n' Hn) as [_ ->]. eapply local_ext; [apply L| |by auto]. intros c Ec. apply C2. congruence.
  - intros m sid H. destruct (Pt' m sid H) as [H'|]; [|done]. pose proof (Pt _ _ H') as E.
    destruct (decide (m = n)) as [->|Hn]; [|by rewrite (proj1 (O m Hn))].
    apply PP; [done|]. intros ->. destruct L' as [L1 L2].
    destruct (Pr' _ _ H) as [|(c & Hc & E')]; [done|by apply (L2 c)].
  - intros c. rewrite CC, !cnt_app. specialize (C c). destruct (decide (c_server c = n)) as [E|Hn].
    + specialize (C1 c E). rewrite E, T. rewrite E in C. lia.
    + destruct (C2 c Hn) as (-> & -> & ->). rewrite (proj2 (O _ Hn)). lia.
  - intros b. specialize (S b). rewrite SS, CC, !tally_app by (by rewrite S, u64_idem).
    replace (ssr b p + tally b new - tally b gone) with (ssr b p + (tally b new - tally b gone)) by lia.
    rewrite (u64_cong (ssr b p) (tally b made - tally b (closedConns p))) by (by rewrite S, u64_idem).
    f_equal. lia.
Qed.

Lemma Inv_ext p made U R P U' R' P' :
  Inv p made U R P → U ≡ₚ U' → R ≡ₚ R' → P ≡ₚ P' → Inv p made U' R' P'.
Proof.
  intros [W L Pt Pr C M S] EU ER EP. split; try done.
  - intros n. eapply local_ext; [apply L|intros c _|]; by apply cnt_perm.
  - intros n sid. rewrite <- EP. apply Pt.
  - intros n sid. rewrite <- EP. intros [H|(c & H & ?)]%Pr; [left; by rewrite <- ER|right].
    exists c. by rewrite <- EU.
  - intros c. rewrite <- (cnt_perm c _ _ EU). apply C.
Qed.

(** ** The sections *)

Lemma inv_same p p' made U R P :
  Inv p made U R P → servers p' = servers p → objs p' = objs p → nextObj p' = nextObj p →
  closedConns p' = closedConns p → (∀ b, ssr b p' = ssr b p) → Inv p' made U R P.
Proof.
  intros [W L Pt Pr C M S] E1 E2 E3 E4 E5. split; try done.
  - unfold wf. by rewrite E1, E2, E3.
  - intros n. by rewrite (srv_same n p p').
  - by rewrite E1.
  - intros c. by rewrite (srv_same _ p p'), E4.
  - intros b. by rewrite E5, E4.
Qed.

Lemma inv_server p made U R P n sid s :
  Inv p made U R P → lookup_server n p = Some (sid, s) →
  serves n U R s ∧ srv n p = Some s ∧ servers p !! n = Some sid.
Proof.
  intros I H. destruct (lookup_server_srv _ _ _ _ H) as (E & E1 & E2). split; [|done].
  pose proof (i_local _ _ _ _ _ I n) as L. by rewrite E in L.
Qed.

(** The server of a name that a client uses is in the map. *)
Lemma inv_present p made U R P n :
  Inv p made U R P → (n ∈ R ∨ ∃ c, c ∈ U ∧ c_server c = n) → ∃ sid s, lookup_server n p = Some (sid, s).
Proof.
  intros I H. destruct (lookup_server n p) as [[sid s]|] eqn:E; [eauto|].
  pose proof (i_local _ _ _ _ _ I n) as L. rewrite (lookup_server_none _ _ E) in L.
  destruct L as [L1 L2]. destruct H as [|(c & Hc & ?)]; [done|]. by destruct (L2 c).
Qed.

(** Updating a server without touching what it lends, and closing some of its
    idle connections. *)
Lemma inv_idle p made U R P n sid s s' gone :
  Inv p made U R P → lookup_server n p = Some (sid, s) →
  busy s' = busy s → reservations s' = reservations s →
  (∀ c, cnt c (idle s') + cnt c gone = cnt c (idle s))%nat →
  Inv (closeAll gone (store sid s' p)) made U R P.
Proof.
  intros I H Eb Er Ei. destruct (inv_server _ _ _ _ _ _ _ _ I H) as (Sv & E & Ep).
  pose proof (acts_store p n sid s' (i_wf _ _ _ _ _ I) Ep) as A1.
  pose proof (acts_closeAll _ n gone (a_wf _ _ _ _ _ _ A1)) as A2. rewrite (a_this _ _ _ _ _ _ A1) in A2.
  assert (A : acts p n (Some s') ([] ++ []) ([] ++ gone) (closeAll gone (store sid s' p)))
    by (by eapply acts_trans; [exact A1| |exact A2]).
  assert (∀ c, c_server c ≠ n → cnt c (idle s) = 0%nat) as Z.
  { intros c Hc. apply cnt_zero. intros Hi. by apply Hc, Sv. }
  apply (inv_acts _ _ _ _ _ _ _ _ _ _ U R P I A); try done.
  - destruct Sv as [Hs Hi Hb Hr]. split; [|intros c Hc; apply Hi, cnt_elem|by rewrite Eb|by rewrite Er].
    + unfold size, Packer.len in *. rewrite Eb, Er.
      assert (length (idle s') ≤ length (idle s))%nat by (apply length_cnt_le; intros c; specialize (Ei c); lia).
      lia.
    + apply cnt_elem in Hc. specialize (Ei c). lia.
  - intros c _. rewrite E. simpl. specialize (Ei c). lia.
  - intros c Hc. specialize (Ei c). rewrite Z in Ei by done. simpl. lia.
  - apply I.
  - auto.
  - apply I.
Qed.

Lemma inv_removeIdle p made U R P n sid s now a :
  Inv p made U R P → lookup_server n p = Some (sid, s) →
  Inv (removeIdleOlderThanLocked sid s now a p) made U R P.
Proof.
  intros I H. unfold removeIdleOlderThanLocked, removeIdleOlderThan.
  apply (inv_idle p made U R P n sid s); try done.
  intros c. cbn [idle]. change (idle (s <| idle := _ |>)) with (List.filter (λ c, negb (too_old now a c)) (idle s)).
  rewrite !cnt_filter. destruct (too_old now a c); simpl; lia.
Qed.

Lemma inv_delete p made U R P n s :
  Inv p made U R P → srv n p = Some s → size s = 0 → Inv (delete_server n p) made U R P.
Proof.
  intros I E Z. pose proof (i_local _ _ _ _ _ I n) as L. rewrite E in L.
  destruct (serves_empty _ _ _ _ L Z) as [Un Ei].
  pose proof (acts_delete p n (i_wf _ _ _ _ _ I)) as A.
  apply (inv_acts _ _ _ _ _ _ _ _ _ _ U R P I A); try done.
  - intros c _. rewrite E. simpl. rewrite Ei. simpl. lia.
  - apply I.
  - auto.
  - apply I.
Qed.

Lemma inv_prune p made U R P n s (b : bool) :
  Inv p made U R P → srv n p = Some s →
  Inv (if (size s =? 0) && b then delete_server n p else p) made U R P.
Proof.
  intros I E. destruct (Z.eqb_spec (size s) 0); [|done]. destruct b; [|done]. by eapply inv_delete.
Qed.

Lemma inv_cleanUp_server p made U R P now n :
  Inv p made U R P → Inv (cleanUp_server cfg now p n) made U R P.
Proof.
  intros I. unfold cleanUp_server. destruct (lookup_server n p) as [[sid s]|] eqn:H; [|done].
  pose proof (inv_removeIdle _ _ _ _ _ _ _ _ now (MaxConnectionLifetime cfg) I H) as I'.
  destruct (lookup_server n (removeIdleOlderThanLocked _ _ _ _ _)) as [[sid' s']|] eqn:H'; [|done].
  apply inv_prune; [done|]. by apply (lookup_server_srv _ _ _ _ H').
Qed.

Lemma inv_CleanUp p made U R P now names :
  Inv p made U R P → Inv (CleanUp cfg now names p) made U R P.
Proof. revert p. induction names; simpl; intros p I; [done|]. by apply IHnames, inv_cleanUp_server. Qed.

Lemma inv_deactivate p made U R P n : Inv p made U R P → Inv (deactivate n p) made U R P.
Proof.
  intros I. unfold deactivate. destruct (lookup_server n p) as [[sid s]|] eqn:H; [|done]. simpl.
  apply (inv_idle p made U R P n sid s); try done.
Qed.

Lemma inv_Close_servers p made U R P names :
  Inv p made U R P → Inv (Close_servers names p) made U R P.
Proof. revert p. induction names; simpl; intros p I; [done|]. by apply IHnames, inv_deactivate. Qed.

Lemma inv_getPenalties p made U R P now names :
  Inv p made U R P → Inv (getPenaltiesForServers cfg now names p).2 made U R P.
Proof.
  revert p. induction names as [|n names IH]; intros p I; [done|]. simpl.
  destruct (getPenalty cfg now n p) as [x p1] eqn:E.
  assert (Inv p1 made U R P) as I1.
  { unfold getPenalty in E. destruct (lookup_server n p) as [[sid s]|] eqn:H; simplify_eq; [|done].
    by eapply inv_removeIdle. }
  specialize (IH _ I1). by destruct (getPenaltiesForServers cfg now names p1).
Qed.

Lemma inv_removeIdleOnServer p made U R P n now a :
  Inv p made U R P → Inv (removeIdleOlderThanOnServer n now a p) made U R P.
Proof.
  intros I. unfold removeIdleOlderThanOnServer.
  destruct (lookup_server n p) as [[sid s]|] eqn:H; [|done]. by eapply inv_removeIdle.
Qed.

Lemma inv_wake_front p made U R P : Inv p made U R P → Inv (wake_front p) made U R P.
Proof. intros I. unfold wake_front. destruct (queue p); [done|]. by apply (inv_same p). Qed.
(** ** Sections that lend and take back *)

Lemma cnt_remove_first c x l :
  cnt x (remove_first c l) = if decide (x = c) then pred (cnt x l) else cnt x l.
Proof.
  induction l as [|y l IH]; simpl; [by case_decide|].
  destruct (decide (y = c)) as [->|]; simpl; [|rewrite IH]; repeat case_decide; subst; try done; lia.
Qed.

Lemma length_remove_first c l : c ∈ l → length l = S (length (remove_first c l)).
Proof.
  induction l as [|y l IH]; simpl; [by intros ?%elem_of_nil|].
  intros [->|H]%elem_of_cons; [by rewrite decide_True|]. case_decide; simpl; [done|]. by rewrite IH.
Qed.

Lemma serves_busy n U R s c : serves n (c :: U) R s → c_server c = n → c ∈ busy s.
Proof.
  intros Sv E. apply cnt_elem. rewrite (sv_busy _ _ _ _ Sv), decide_True by done. simpl.
  rewrite decide_True by done. lia.
Qed.

(** Without a connection that was lent. *)
Lemma serves_unregister n U R s c :
  serves n (c :: U) R s → c_server c = n →
  serves n U R (unregisterBusy c s) ∧ size s = size (unregisterBusy c s) + 1.
Proof.
  intros Sv E. pose proof (serves_busy _ _ _ _ _ Sv E) as Hc. destruct Sv as [Hs Hi Hb Hr].
  pose proof (length_remove_first _ _ Hc) as Hl.
  assert (size s = size (unregisterBusy c s) + 1) as Z.
  { unfold size, Packer.len. change (busy (unregisterBusy c s)) with (remove_first c (busy s)).
    change (idle (unregisterBusy c s)) with (idle s).
    change (reservations (unregisterBusy c s)) with (reservations s). lia. }
  split; [|done]. split; [lia|done| |done].
  intros x. change (busy (unregisterBusy c s)) with (remove_first c (busy s)).
  rewrite cnt_remove_first, Hb. simpl. repeat case_decide; subst; try done; lia.
Qed.

(** The connection becomes idle. *)
Lemma serves_returned n U R s c :
  serves n U R s → size s + 1 ≤ MaxConnectionPoolSize cfg → c_server c = n →
  serves n U R (s <| idle := c :: idle s |>).
Proof.
  intros [Hs Hi Hb Hr] Hm E. split; [| |done|done].
  - unfold size, Packer.len in *. change (idle (s <| idle := _ |>)) with (c :: idle s).
    change (busy (s <| idle := c :: idle s |>)) with (busy s).
    change (reservations (s <| idle := c :: idle s |>)) with (reservations s). cbn [length]. lia.
  - intros x. change (idle (s <| idle := _ |>)) with (c :: idle s).
    intros [->|]%elem_of_cons; [done|by apply Hi].
Qed.

Lemma inv_use_server p made U R P c :
  Inv p made (c :: U) R P →
  ∃ sid s, lookup_server (c_server c) p = Some (sid, s) ∧ serves (c_server c) (c :: U) R s ∧
           srv (c_server c) p = Some s ∧ servers p !! c_server c = Some sid.
Proof.
  intros I. destruct (inv_present _ _ _ _ _ (c_server c) I) as (sid & s & H).
  { right. exists c. split; [left|done]. }
  destruct (inv_server _ _ _ _ _ _ _ _ I H) as (? & ? & ?). eauto 10.
Qed.

(** A client gives up the connection [c] of its server: the server loses it from
    [busy] and keeps the idle connections [idle s'], after which it may be
    removed from the map. *)
Lemma inv_give_back p made U R P P' c sid s s' gone (b : bool) :
  Inv p made (c :: U) R P → lookup_server (c_server c) p = Some (sid, s) →
  serves (c_server c) U R s' →
  (∀ x, cnt x (idle s') + cnt x gone = cnt x (c :: idle s))%nat →
  (b = true → size s' = 0) →
  protected U R P' → (∀ q, q ∈ P' → q ∈ P) →
  Inv (closeAll gone (if b then delete_server (c_server c) (store sid s' p) else store sid s' p))
      made U R P'.
Proof.
  intros I H Sv' Ei Hb Pr' Sub. set (n := c_server c) in *.
  destruct (inv_server _ _ _ _ _ _ _ _ I H) as (Sv & E & Ep).
  pose proof (acts_store p n sid s' (i_wf _ _ _ _ _ I) Ep) as A1.
  set (p1 := store sid s' p) in *.
  assert (∃ os, acts p n os [] [] (if b then delete_server n p1 else p1) ∧ local_ok n U R os ∧
                idle_of os = idle s') as (os & A2 & L & Eo).
  { destruct b; [|by exists (Some s')]. exists None.
    destruct (serves_empty _ _ _ _ Sv' (Hb eq_refl)) as [? Eq]. split; [|done].
    exact (acts_trans _ _ _ _ _ _ None _ _ _ A1 (λ _, ltac:(done)) (acts_delete p1 n (a_wf _ _ _ _ _ _ A1))). }
  pose proof (acts_closeAll _ n gone (a_wf _ _ _ _ _ _ A2)) as A3.
  rewrite (a_this _ _ _ _ _ _ A2) in A3.
  pose proof (acts_trans _ _ _ _ _ _ _ _ _ _ A2 id A3) as A. simpl in A.
  assert (∀ x, c_server x ≠ n → cnt x (idle s) = 0%nat) as Z.
  { intros x Hx. apply cnt_zero. intros Hi. by apply Hx, Sv. }
  apply (inv_acts _ _ _ _ _ _ _ _ _ _ U R P' I A); try done.
  - intros x _. rewrite E, Eo. simpl. specialize (Ei x). simpl in Ei. case_decide; lia.
  - intros x Hx. specialize (Ei x). simpl in *. rewrite decide_False in * by (intros ->; done).
    rewrite Z in Ei by done. lia.
  - auto.
  - apply I.
Qed.

Lemma closeAll_one c p : closeAll [c] p = closeConnection c p.
Proof. done. Qed.

Lemma inv_unreg p made U R P P' c now :
  Inv p made (c :: U) R P → protected U R P' → (∀ q, q ∈ P' → q ∈ P) →
  Inv (unregLocked (c_server c) c now p) made U R P'.
Proof.
  intros I Pr Sub. destruct (inv_use_server _ _ _ _ _ _ I) as (sid & s & H & Sv & _).
  destruct (serves_unregister _ _ _ _ _ Sv eq_refl) as [Sv' _].
  unfold unregLocked. rewrite H, <- closeAll_one.
  apply (inv_give_back p made U R P P' c sid s (unregisterBusy c s) [c]); try done.
  - intros x. change (idle (unregisterBusy c s)) with (idle s). simpl. case_decide; lia.
  - intros [?%Z.eqb_eq _]%andb_prop. done.
Qed.

Lemma inv_put_back p made U R P P' c alive now :
  Inv p made (c :: U) R P → protected U R P' → (∀ q, q ∈ P' → q ∈ P) →
  Inv (put_back cfg c alive now p) made U R P'.
Proof.
  intros I Pr Sub. unfold put_back. destruct (negb alive || _); [by eapply inv_unreg|].
  destruct (inv_use_server _ _ _ _ _ _ I) as (sid & s & H & Sv & _). rewrite H.
  destruct (serves_unregister _ _ _ _ _ Sv eq_refl) as [Sv' Ez].
  unfold returnBusy. change (closing (unregisterBusy c s)) with (closing s).
  destruct (closing s) eqn:Ec.
  - change (closing (unregisterBusy c s)) with (closing s). rewrite Ec. cbn [andb].
    rewrite <- closeAll_one.
    replace (if size (unregisterBusy c s) =? 0
             then delete_server (c_server c) (closeAll [c] (store sid (unregisterBusy c s) p))
             else closeAll [c] (store sid (unregisterBusy c s) p))
      with (closeAll [c] (if size (unregisterBusy c s) =? 0
             then delete_server (c_server c) (store sid (unregisterBusy c s) p)
             else store sid (unregisterBusy c s) p)).
    2: { unfold closeAll, closeConnection, removeConnection. simpl. by destruct (c_ssr c), (_ =? 0). }
    apply (inv_give_back p made U R P P' c sid s (unregisterBusy c s) [c]); try done.
    + intros x. change (idle (unregisterBusy c s)) with (idle s). simpl. case_decide; lia.
    + by intros ?%Z.eqb_eq.
  - set (s' := (unregisterBusy c s) <| idle := c :: idle (unregisterBusy c s) |>).
    change (closing s') with (closing s). rewrite Ec. cbn [andb].
    apply (inv_give_back p made U R P P' c sid s s' [] false); try done.
    apply serves_returned; [done| |done]. rewrite <- Ez. apply Sv.
Qed.

(** A client takes something of a server that it will point to. *)
Lemma inv_take p made U R P U' R' n sid s s' :
  Inv p made U R P → lookup_server n p = Some (sid, s) →
  serves n U' R' s' →
  (∀ c, cnt c U' + cnt c (idle s') = cnt c U + cnt c (idle s))%nat →
  (∀ c, c ∈ U → c ∈ U') → (∀ m, m ∈ R → m ∈ R') →
  (∀ m, m ≠ n → cnt m R' = cnt m R) →
  n ∈ R' ∨ (∃ c, c ∈ U' ∧ c_server c = n) →
  Inv (store sid s' p) made U' R' ((n, sid) :: P).
Proof.
  intros I H Sv' Ei SU SR ER Use. destruct (inv_server _ _ _ _ _ _ _ _ I H) as (Sv & E & Ep).
  pose proof (acts_store p n sid s' (i_wf _ _ _ _ _ I) Ep) as A.
  apply (inv_acts _ _ _ _ _ _ _ _ _ _ U' R' ((n, sid) :: P) I A); try done.
  - intros c _. rewrite E. simpl. specialize (Ei c). lia.
  - intros c Hc. simpl. split; [|done]. specialize (Ei c).
    assert (cnt c (idle s) = 0%nat) by (apply cnt_zero; intros Hi; by apply Hc, Sv).
    assert (cnt c (idle s') = 0%nat) by (apply cnt_zero; intros Hi; by apply Hc, Sv'). lia.
  - intros m sid' [[= -> ->]|Hm]%elem_of_cons; [done|].
    destruct (i_prot _ _ _ _ _ I _ _ Hm) as [?|(c & ? & ?)]; [left|right]; eauto.
  - intros m sid' [[= -> ->]|Hm]%elem_of_cons; [by right|by left].
  - apply I.
Qed.

Lemma serves_open n U R s : serves n U R s → serves n U R (s <| closing := false |>).
Proof. by intros []. Qed.

Lemma serves_getIdle n U R s c l :
  serves n U R s → idle s = c :: l →
  c_server c = n ∧ serves n (c :: U) R (s <| idle := l |> <| busy := c :: busy s |>).
Proof.
  intros [Hs Hi Hb Hr] E. assert (c_server c = n) as Ec by (apply Hi; rewrite E; left).
  split; [done|]. set (s' := _ <| busy := _ |>).
  split; [| | |done].
  - unfold size, Packer.len in *. change (busy s') with (c :: busy s). change (idle s') with l.
    change (reservations s') with (reservations s). rewrite E in Hs. cbn [length] in *. lia.
  - intros x Hx. apply Hi. rewrite E. by right.
  - intros x. change (busy s') with (c :: busy s). simpl. rewrite Hb.
    repeat case_decide; subst; done.
Qed.

Lemma serves_reserve n U R s :
  serves n U R s → size s + 1 ≤ MaxConnectionPoolSize cfg →
  serves n U (n :: R) (s <| reservations := reservations s + 1 |>).
Proof.
  intros [Hs Hi Hb Hr] Hm. set (s' := _ <| reservations := _ |>). split; [|done..|].
  - unfold size, Packer.len in *. change (busy s') with (busy s). change (idle s') with (idle s).
    change (reservations s') with (reservations s + 1). lia.
  - change (reservations s') with (reservations s + 1). simpl. rewrite decide_True by done. lia.
Qed.

(** What the client has after the first section of [tryBorrow]. *)
Definition attempt_ok (p : Pool) made U R P (n : string) (a : attempt) : Prop :=
  match a with
  | TryClosed | TryFull => Inv p made U R P
  | TryIdle sid c => c_server c = n ∧ Inv p made (c :: U) R ((n, sid) :: P)
  | TryConnect sid => Inv p made U (n :: R) ((n, sid) :: P)
  end.

Lemma inv_fresh p made U R P n :
  1 ≤ MaxConnectionPoolSize cfg → Inv p made U R P → lookup_server n p = None →
  Inv (store (nextObj p) (NewServer <| reservations := 1 |>) (p
         <| servers := <[n := nextObj p]> (servers p) |> <| nextObj := S (nextObj p) |>))
      made U (n :: R) ((n, nextObj p) :: P).
Proof.
  intros Hm I H. pose proof (lookup_server_none _ _ H) as E.
  pose proof (i_local _ _ _ _ _ I n) as L. rewrite E in L. destruct L as [L1 L2].
  pose proof (acts_new p n (NewServer <| reservations := 1 |>) (i_wf _ _ _ _ _ I)
    (wf_none _ _ (i_wf _ _ _ _ _ I) E)) as A.
  apply (inv_acts _ _ _ _ _ _ _ _ _ _ U (n :: R) ((n, nextObj p) :: P) I A); try done.
  - split; [by unfold size|by intros ? ?%elem_of_nil| |].
    + intros c. simpl. case_decide; [|done]. symmetry. apply cnt_zero. intros Hc. by apply (L2 c).
    + simpl. apply cnt_zero in L1. rewrite decide_True, L1 by done. done.
  - intros c _. rewrite E. simpl. lia.
  - intros m Hm'. simpl. by rewrite decide_False.
  - intros m sid' [[= -> ->]|Hm']%elem_of_cons; [by left; left|].
    destruct (i_prot _ _ _ _ _ I _ _ Hm') as [?|(c & ? & ?)]; [left; by right|right]; eauto.
  - intros m sid' [[= -> ->]|Hm']%elem_of_cons; [right|by left].
    change (servers (store _ _ _)) with (<[n := nextObj p]> (servers p)). by rewrite lookup_insert_eq.
  - apply I.
Qed.

Lemma inv_tryBorrow_idle p made U R P n a p' :
  1 ≤ MaxConnectionPoolSize cfg → Inv p made U R P → tryBorrow_idle cfg n p = (a, p') →
  attempt_ok p' made U R P n a.
Proof.
  intros Hm I. unfold tryBorrow_idle. destruct (lookup_server n p) as [[sid s]|] eqn:H.
  2: { intros [= <- <-]. by apply inv_fresh. }
  destruct (inv_server _ _ _ _ _ _ _ _ I H) as (Sv & E & Ep). apply serves_open in Sv.
  set (s0 := s <| closing := false |>) in *. unfold getIdle.
  assert (idle s0 = idle s) as E0 by done.
  destruct (idle s0) as [|c l] eqn:Ei.
  - destruct (Z.leb_spec (MaxConnectionPoolSize cfg) (size s0)); intros [= <- <-].
    + by apply (inv_idle p made U R P n sid s s0 []).
    + apply (inv_take p made U R P _ _ n sid s); try done; [|by intros; right| |by left; left].
      * apply (serves_reserve n U R s0); [done|lia].
      * intros m Hn. simpl. by rewrite decide_False.
  - intros [= <- <-]. destruct (serves_getIdle _ _ _ _ _ _ Sv Ei) as [Ec Sv'].
    split; [done|]. apply (inv_take p made U R P _ _ n sid s); try done.
    + intros x. change (cnt x (c :: U) + cnt x l = cnt x U + cnt x (idle s))%nat. rewrite <- E0. cbn [cnt]. case_decide; lia.
    + intros x Hx. by right.
    + right. exists c. split; [left|done].
Qed.

Lemma inv_points p made U R P n sid :
  Inv p made U R P → (n, sid) ∈ P →
  ∃ s, lookup_server n p = Some (sid, s) ∧ serves n U R s ∧ srv n p = Some s ∧ servers p !! n = Some sid.
Proof.
  intros I H. destruct (inv_present _ _ _ _ _ n I (i_prot _ _ _ _ _ I _ _ H)) as (sid' & s & L).
  destruct (inv_server _ _ _ _ _ _ _ _ I L) as (? & ? & E).
  pose proof (i_ptrs _ _ _ _ _ I _ _ H) as E'. assert (sid' = sid) as -> by congruence. eauto 10.
Qed.

Lemma serves_unreserve n U R s :
  serves n U (n :: R) s → serves n U R (s <| reservations := reservations s - 1 |>).
Proof.
  intros [Hs Hi Hb Hr]. set (s' := _ <| reservations := _ |>).
  simpl in Hr. rewrite decide_True in Hr by done. split; [|done..|].
  - unfold size, Packer.len in *. change (busy s') with (busy s). change (idle s') with (idle s).
    change (reservations s') with (reservations s - 1). lia.
  - change (reservations s') with (reservations s - 1). lia.
Qed.

Lemma inv_failed p made U R P n sid now e :
  Inv p made U (n :: R) ((n, sid) :: P) → protected U R P →
  Inv (tryBorrow_failed sid now e p) made U R P.
Proof.
  intros I Pr. destruct (inv_points _ _ _ _ _ n sid I) as (s & L & Sv & E & Ep); [left|].
  apply serves_unreserve in Sv.
  pose proof (acts_on p n sid s (λ s,
    let s := s <| reservations := reservations s - 1 |> in
    match e with
    | FeatureNotSupportedError _ _ _ => s
    | _ => notifyFailedConnect now s
    end) (i_wf _ _ _ _ _ I) Ep E) as A.
  apply (inv_acts _ _ _ _ _ _ _ _ _ _ U R P I A); try done.
  - by destruct Sv, e.
  - intros c _. rewrite E. by destruct e.
  - intros m Hm. simpl. by rewrite decide_False.
  - intros m sid' Hm. left. by right.
  - apply I.
Qed.

(** The server after a successful connect. *)
Definition connected_server (rr : Z) (c : conn) (s : server) : server :=
  notifySuccessfulConnect (registerBusy rr c (s <| reservations := reservations s - 1 |>)).

Lemma serves_connected n U R s rr c :
  serves n U (n :: R) s → c_server c = n → serves n (c :: U) R (connected_server rr c s).
Proof.
  intros [Hs Hi Hb Hr] Ec. set (s' := connected_server rr c s).
  simpl in Hr. rewrite decide_True in Hr by done. split; [|done| |].
  - unfold size, Packer.len in *. change (busy s') with (c :: busy s). change (idle s') with (idle s).
    change (reservations s') with (reservations s - 1). cbn [length]. lia.
  - intros x. change (busy s') with (c :: busy s). cbn [cnt]. rewrite Hb.
    repeat case_decide; subst; done.
  - change (reservations s') with (reservations s - 1). lia.
Qed.

Lemma acts_connected p n sid s c :
  wf p → servers p !! n = Some sid → srv n p = Some s →
  acts p n (Some (connected_server (next_round p).1 c s)) [c] [] (tryBorrow_connected sid c p).
Proof.
  intros W Ep E. unfold tryBorrow_connected.
  set (p1 := on_server sid _ p). set (p2 := addConnection c p1).
  assert (next_round p2 = ((next_round p).1, (next_round p2).2)) as ->.
  { unfold p2, addConnection. by destruct (c_ssr c). }
  set (s1 := s <| reservations := reservations s - 1 |>).
  pose proof (acts_on p n sid s (λ s, s <| reservations := reservations s - 1 |>) W Ep E) as A1.
  fold p1 s1 in A1. pose proof (acts_add p1 n c (a_wf _ _ _ _ _ _ A1)) as A2. fold p2 in A2.
  rewrite (a_this _ _ _ _ _ _ A1) in A2. pose proof (acts_trans _ _ _ _ _ _ _ _ _ _ A1 id A2) as B2.
  pose proof (acts_round p2 n (a_wf _ _ _ _ _ _ A2)) as A3. rewrite (a_this _ _ _ _ _ _ A2) in A3.
  pose proof (acts_trans _ _ _ _ _ _ _ _ _ _ B2 id A3) as B3.
  pose proof (acts_on (next_round p2).2 n sid s1
    (λ s, notifySuccessfulConnect (registerBusy (next_round p).1 c s)) (a_wf _ _ _ _ _ _ A3)) as A4.
  rewrite (a_this _ _ _ _ _ _ A3) in A4.
  specialize (A4 (a_ptr _ _ _ _ _ _ B3 _ Ep (λ H, ltac:(done))) eq_refl).
  refine (acts_trans _ _ _ _ _ _ _ _ _ _ B3 _ A4). done.
Qed.

Lemma inv_connected p made U R P n sid c :
  Inv p made U (n :: R) ((n, sid) :: P) → protected (c :: U) R P →
  c_server c = n → c_id c ∉ c_id <$> made →
  Inv (tryBorrow_connected sid c p) (c :: made) (c :: U) R P.
Proof.
  intros I Pr Ec Fr. destruct (inv_points _ _ _ _ _ n sid I) as (s & L & Sv & E & Ep); [left|].
  pose proof (acts_connected p n sid s c (i_wf _ _ _ _ _ I) Ep E) as A.
  apply (inv_acts _ _ _ _ _ _ _ _ _ _ (c :: U) R P I A); try done.
  - by apply serves_connected.
  - intros x _. rewrite E. change (cnt x (c :: U) + cnt x (idle s) + 0 = cnt x U + cnt x (idle s) + cnt x [c])%nat.
    cbn [cnt]. case_decide; lia.
  - intros x Hx. cbn [cnt]. rewrite !decide_False by (intros ->; done). done.
  - intros m Hm. simpl. by rewrite decide_False.
  - intros m sid' Hm. left. by right.
  - simpl. constructor; [done|apply I].
Qed.

Lemma inv_checked p made U R P n sid :
  Inv p made U R P → (n, sid) ∈ P → Inv (checked sid p) made U R P.
Proof.
  intros I H. destruct (inv_points _ _ _ _ _ n sid I H) as (s & L & Sv & E & Ep).
  pose proof (acts_round p n (i_wf _ _ _ _ _ I)) as A1. rewrite E in A1.
  set (f := λ s, s <| roundRobin := (next_round p).1 |>).
  pose proof (acts_on (next_round p).2 n sid s f (a_wf _ _ _ _ _ _ A1) Ep E) as A2.
  assert (acts p n (Some (f s)) [] [] (checked sid p)) as A
    by (refine (acts_trans _ _ _ _ _ _ _ _ _ _ A1 _ A2); done).
  apply (inv_acts _ _ _ _ _ _ _ _ _ _ U R P I A); try done.
  - by destruct Sv.
  - intros c _. rewrite E. change (idle_of (Some (f s))) with (idle s). simpl. lia.
  - apply I.
  - auto.
  - apply I.
Qed.

Lemma inv_drop p made U R P P' : Inv p made U R P → (∀ q, q ∈ P' → q ∈ P) → Inv p made U R P'.
Proof.
  intros [W L Pt Pr C M S] Sub. split; try done; [by auto|]. intros n sid H. eapply Pr, Sub, H.
Qed.

End Accounting.
