(* ===== verification/PoolFacts.v ===== *)
(** What holds of the pool however its clients interleave. *)

From S2P Require Import Prelude Packer Values Errors Pool PoolClients PoolSections.
#[local] Open Scope Z_scope.
#[local] Open Scope go_scope.
Import server pool clients.

(** * What a client has *)

(** The connection it uses. *)
Definition lent (t : client) : list conn :=
  match t with
  | Checking _ _ _ _ c | Unhealthy _ _ _ c _ | Got c | Holding c | Resetting c _ _ => [c]
  | _ => []
  end.

(** The server it has reserved a connection to. *)
Definition resv (t : client) : list string :=
  match t with Connecting _ _ name _ => [name] | _ => [] end.

(** The server it points to. *)
Definition ptrs (t : client) : list (string * nat) :=
  match t with
  | Checking _ _ name sid _ | Connecting _ _ name sid => [(name, sid)]
  | _ => []
  end.

(** The connection it checks is to the server it asked for. *)
Definition client_ok (t : client) : Prop :=
  match t with
  | Checking _ _ name _ c | Unhealthy _ _ name c _ => c_server c = name
  | _ => True
  end.

Definition all_lent (w : world) : list conn := w_clients w ≫= lent.
Definition all_resv (w : world) : list string := w_clients w ≫= resv.
Definition all_ptrs (w : world) : list (string * nat) := w_clients w ≫= ptrs.

(** The idle connections of server [n]. *)
Definition idle_in (n : string) (p : Pool) : list conn := idle_of (srv n p).

Lemma next_try_none rq todo err :
  lent (next_try rq todo err) = [] ∧ resv (next_try rq todo err) = [] ∧
  ptrs (next_try rq todo err) = [] ∧ client_ok (next_try rq todo err).
Proof.
  destruct err as [e|]; simpl; [|done].
  destruct (IsTimeoutError e); [done|]. by destruct (IsFatalDuringDiscovery e).
Qed.

Section Steps.
Context (cfg : config) (Hmax : 1 ≤ MaxConnectionPoolSize cfg).

Notation holds p made t U R P :=
  (client_ok t ∧ Inv cfg p made (lent t ++ U) (resv t ++ R) (ptrs t ++ P)).

(** A client that fails has nothing left to account for. *)
Lemma holds_next_try p made rq todo err U R P :
  Inv cfg p made U R P → holds p made (next_try rq todo err) U R P.
Proof. destruct (next_try_none rq todo err) as (-> & -> & -> & ?). done. Qed.

Lemma holds_attempt p made U R P rq todo n a :
  attempt_ok cfg p made U R P n a → holds p made (after_attempt rq todo n a) U R P.
Proof.
  destruct a; [intros; by apply holds_next_try..| |]; simpl; [done|intros; done].
Qed.

Lemma protected_lent U R P c : protected U R P → protected (c :: U) R P.
Proof. intros Pr n sid [?|(x & ? & ?)]%Pr; [by left|right]. exists x. split; [by right|done]. Qed.

Lemma step_round p made wait names order now U R P p' t' :
  Inv cfg p made U R P → round cfg wait names order now p = Some (p', t') → holds p' made t' U R P.
Proof.
  intros I. unfold round. destruct (checkClosed p); [by intros [= <- <-]|].
  case_decide; [by intros [= <- <-]|].
  pose proof (inv_getPenalties cfg _ _ _ _ _ now names I) as I'.
  destruct (getPenaltiesForServers cfg now names p) as [pens p1].
  destruct (sorts pens order); [|done]. by intros [= <- <-].
Qed.

Lemma step_exhausted p made rq err U R P :
  Inv cfg p made U R P →
  holds (exhausted cfg rq err p).1 made (exhausted cfg rq err p).2 U R P.
Proof.
  intros I. unfold exhausted. destruct err; [done|]. destruct (negb (rq_wait rq)); [done|].
  unfold enqueue. destruct (anyHasCapacity cfg (rq_names rq) p); [done|].
  split; [done|]. by apply (inv_same cfg p).
Qed.

Lemma step_abandon p made U R P q :
  Inv cfg p made U R P → Inv cfg (abandon q p).2 made U R P.
Proof.
  intros I. unfold abandon. set (p0 := p <| queue := _ |>).
  assert (Inv cfg p0 made U R P) by (by apply (inv_same cfg p)).
  case_decide; [by apply inv_wake_front|done].
Qed.

Lemma step_updateCache p made U R P : Inv cfg p made U R P → Inv cfg (updateCacheState p) made U R P.
Proof. intros I. by apply (inv_same cfg p). Qed.

Lemma step_client ch p made t U R P p' t' :
  protected U R P → fits made t ch = true → holds p made t U R P →
  client_step cfg ch p t = Some (p', t') → holds p' (established ch ++ made) t' U R P.
Proof.
  intros Pr F [Ok I] E.
  destruct t, ch; try discriminate E; cbn [client_step] in E; try (by destruct todo).
  - by eapply step_round.
  - destruct todo as [|n todo].
    + injection E as E. pose proof (step_exhausted p made rq err U R P I) as X. by rewrite E in X.
    + unfold tryBorrow_enter in E. destruct (closed p).
      * injection E as <- <-. by apply (holds_next_try p made rq todo (Some PoolClosed)).
      * destruct (tryBorrow_idle cfg n p) as [a p1] eqn:T. injection E as <- <-.
        eapply holds_attempt, inv_tryBorrow_idle; eauto.
  - destruct (healthCheck h idlenessTimeout) as [[] err]; injection E as <- <-; split; try done.
    + eapply inv_drop; [eapply inv_checked; [exact I|by left]|by right].
    + eapply inv_drop; [exact I|by right].
  - injection E as <- <-. simpl in Ok. subst name.
    assert (Inv cfg (unregLocked (c_server c) c now p) made U R P) as I'.
    { eapply inv_unreg; [exact I|done|done]. }
    destruct err; [by apply holds_next_try|done].
  - destruct (tryBorrow_idle cfg name p) as [a p1] eqn:T. injection E as <- <-.
    eapply holds_attempt, inv_tryBorrow_idle; eauto.
  - injection E as <- <-. apply andb_prop in F as [F1%bool_decide_eq_true F2%bool_decide_eq_true].
    split; [done|]. apply (inv_connected cfg p made U R P name sid c I); try done. by apply protected_lent.
  - injection E as <- <-. apply (holds_next_try _ made rq todo (Some e)).
    exact (inv_failed cfg p made U R P name sid now e I Pr).
  - injection E as <- <-. split; [done|]. by apply step_updateCache.
  - case_decide; [|done]. injection E as <- <-. split; [done|]. by apply (inv_same cfg p).
  - pose proof (step_abandon p made U R P q I) as I'.
    destruct (abandon q p) as [[] p1]; by injection E as <- <-.
  - injection E as <- <-. split; [done|]. by apply inv_removeIdleOnServer.
  - injection E as <- <-. split; [done|]. by eapply inv_put_back; [exact I| |].
  - injection E as <- <-. split; [done|]. by apply inv_wake_front, step_updateCache.
Qed.

(** * The invariant of all reachable worlds *)

Definition world_inv (w : world) : Prop :=
  Inv cfg (w_pool w) (w_made w) (all_lent w) (all_resv w) (all_ptrs w) ∧ Forall client_ok (w_clients w).

Lemma client_protected t : client_ok t → protected (lent t) (resv t) (ptrs t).
Proof.
  destruct t; simpl; intros Ok n sid' H; try by apply elem_of_nil in H.
  - apply list_elem_of_singleton in H as [= -> ->]. right. exists c. split; [by left|done].
  - apply list_elem_of_singleton in H as [= -> ->]. by left; left.
Qed.

Lemma protected_app U R P U' R' P' :
  protected U R P → protected U' R' P' → protected (U ++ U') (R ++ R') (P ++ P').
Proof.
  intros H H' n sid [Hp|Hp]%elem_of_app; [destruct (H _ _ Hp) as [?|(c & ? & ?)]|destruct (H' _ _ Hp) as [?|(c & ? & ?)]].
  all: first [left; apply elem_of_app; by auto | right; exists c; split; [apply elem_of_app|]; by auto].
Qed.

Lemma clients_protected l : Forall client_ok l → protected (l ≫= lent) (l ≫= resv) (l ≫= ptrs).
Proof.
  induction 1; simpl; [by intros n sid ?%elem_of_nil|]. by apply protected_app; [apply client_protected|].
Qed.

Lemma bind_middle {A B} (f : A → list B) l1 t l2 :
  (l1 ++ t :: l2) ≫= f ≡ₚ f t ++ ((l1 ++ l2) ≫= f).
Proof. rewrite !bind_app, bind_cons. by rewrite Permutation_app_swap_app. Qed.

Lemma initial_inv : world_inv initial.
Proof.
  split; [|constructor]. split; try done.
  - intros n. split; [apply not_elem_of_nil|]. by intros ? ?%elem_of_nil.
  - by intros ? ? ?%elem_of_nil.
  - by intros ? ? ?%elem_of_nil.
  - constructor.
  - by intros [].
Qed.

Lemma step_inv ev w w' : world_inv w → step cfg ev w = Some w' → world_inv w'.
Proof.
  intros [I Ok] E. destruct w as [p l made]. unfold all_lent, all_resv, all_ptrs in I. simpl in I, Ok.
  destruct ev; simpl in E.
  - injection E as <-. split; [|simpl; apply Forall_app; split; [done|by constructor]].
    change (Inv cfg p made ((l ++ [Top wait]) ≫= lent) ((l ++ [Top wait]) ≫= resv)
                           ((l ++ [Top wait]) ≫= ptrs)).
    rewrite !bind_app. cbn [mbind list_bind lent resv ptrs app]. by rewrite !app_nil_r.
  - destruct (l !! i) as [t|] eqn:Ei; simpl in E; [|done].
    destruct (fits made t ch) eqn:F; [|done].
    destruct (client_step cfg ch p t) as [[p' t']|] eqn:S; simpl in E; [|done]. injection E as <-.
    apply list_elem_of_split_length in Ei as (l1 & l2 & -> & ->).
    rewrite insert_app_r_alt by lia. rewrite Nat.sub_diag. simpl.
    apply Forall_app in Ok as [Ok1 Ok2]. apply Forall_cons in Ok2 as [Okt Ok2].
    assert (Forall client_ok (l1 ++ l2)) as Ok' by (by apply Forall_app).
    pose proof (clients_protected _ Ok') as Pr.
    assert (holds p made t ((l1 ++ l2) ≫= lent) ((l1 ++ l2) ≫= resv) ((l1 ++ l2) ≫= ptrs)) as HH
      by (split; [done|]; eapply Inv_ext; [exact I|..]; apply bind_middle).
    destruct (step_client _ _ _ _ _ _ _ _ _ Pr F HH S) as [Okt' I'].
    split; [|simpl; apply Forall_app; split; [done|by constructor]].
    eapply Inv_ext; [exact I'|..]; symmetry; apply bind_middle.
  - injection E as <-. split; [|done]. by apply inv_CleanUp.
  - injection E as <-. split; [|done]. by apply inv_deactivate.
  - injection E as <-. split; [|done]. by apply (inv_same cfg p).
  - injection E as <-. split; [|done]. by apply inv_wake_front.
  - injection E as <-. split; [|done]. by apply inv_Close_servers.
Qed.

Lemma reachable_inv w : reachable cfg w → world_inv w.
Proof. induction 1; [apply initial_inv|by eapply step_inv]. Qed.
End Steps.

(** * A world *)

Lemma run_reachable cfg evs w w' : reachable cfg w → run cfg evs w = Some w' → reachable cfg w'.
Proof.
  revert w. induction evs as [|ev evs IH]; intros w R; simpl; [by intros [= <-]|].
  destruct (step cfg ev w) as [w1|] eqn:E; simpl; [|done]. apply IH. by eapply reach_step.
Qed.

(** One client borrows a connection of a pool with room for one. *)
Definition one : config := mkConfig 1 3600000000000.
Definition conn1 : conn := mkConn 1 "s" 0 true.
Definition borrow_first (i : nat) (c : conn) : list event :=
  [Spawn true; Run i (Names ["s"] [("s", 256)] 0); Run i Go; Run i (Connected c); Run i Go].

Definition borrowed : world :=
  Eval vm_compute in default initial (run one (borrow_first 0 conn1) initial).

Lemma borrowed_reachable : reachable one borrowed.
Proof. eapply (run_reachable one (borrow_first 0 conn1)); [apply reach_initial|by vm_compute]. Qed.

(** * Safety *)

(** The connections to [n] that clients use. *)
Definition lent_to (n : string) (w : world) : list conn :=
  List.filter (λ c, bool_decide (c_server c = n)) (all_lent w).

Lemma busy_lent cfg n w s :
  world_inv cfg w → srv n (w_pool w) = Some s → length (busy s) = length (lent_to n w).
Proof.
  intros [I _] E. pose proof (i_local _ _ _ _ _ _ I n) as L. rewrite E in L.
  assert (∀ c, cnt c (busy s) = cnt c (lent_to n w)) as H.
  { intros c. rewrite (sv_busy _ _ _ _ _ L). unfold lent_to. rewrite cnt_filter.
    by destruct (decide (c_server c = n)), (bool_decide_reflect (c_server c = n)). }
  apply Nat.le_antisymm; apply length_cnt_le; intros c; by rewrite H.
Qed.

(** C12. The pool never exceeds its limit: in every world that any interleaving of
    borrowing, returning, cleaning up, deactivating and closing leads to, the
    connections to a server that clients use, those it keeps idle and those being
    established are together at most MaxConnectionPoolSize. *)
Theorem pool_capacity cfg w n :
  1 ≤ MaxConnectionPoolSize cfg → reachable cfg w →
  Z.of_nat (length (lent_to n w) + length (idle_in n (w_pool w)) + cnt n (all_resv w))
    ≤ MaxConnectionPoolSize cfg.
Proof.
  intros Hm W%reachable_inv; [|done]. pose proof (proj1 W) as I.
  pose proof (i_local _ _ _ _ _ _ I n) as L. unfold idle_in.
  destruct (srv n (w_pool w)) as [s|] eqn:E; simpl in *.
  - rewrite <- (busy_lent cfg n w s W E). destruct L as [Hs _ _ Hr]. unfold size, Packer.len in Hs. lia.
  - destruct L as [L1 L2]. apply cnt_zero in L1. rewrite L1.
    assert (lent_to n w = []) as ->; [|simpl; lia].
    unfold lent_to. destruct (List.filter _ _) as [|c l] eqn:F; [done|].
    assert (In c (c :: l)) as H by (by left). rewrite <- F in H.
    apply filter_In in H as [H1 H2%bool_decide_eq_true]. destruct (L2 c); [by apply list_elem_of_In|done].
Qed.

Lemma pool_capacity_witness :
  Z.of_nat (length (lent_to "s" borrowed) + length (idle_in "s" (w_pool borrowed)) + cnt "s" (all_resv borrowed)) ≤ 1
  ∧ lent_to "s" borrowed = [conn1].
Proof.
  split; [|by vm_compute].
  apply (pool_capacity one borrowed "s"); [by vm_compute|exact borrowed_reachable].
Defined.

(** C13. No connection is lost, shared or closed twice: every connection ever
    established is, at any time, in exactly one place: used by exactly one client,
    or once among the idle connections of its server, or closed exactly once. *)
Theorem connection_in_one_place cfg w c :
  1 ≤ MaxConnectionPoolSize cfg → reachable cfg w → c ∈ w_made w →
  (cnt c (all_lent w) + cnt c (idle_in (c_server c) (w_pool w)) + cnt c (closedConns (w_pool w)) = 1)%nat.
Proof.
  intros Hm [I _]%reachable_inv Hc; [|done]. unfold idle_in. rewrite (i_cnt _ _ _ _ _ _ I c).
  pose proof (i_made _ _ _ _ _ _ I) as N%NoDup_fmap_1.
  pose proof (proj1 (cnt_NoDup _) N c). apply cnt_elem in Hc. lia.
Qed.

Lemma connection_in_one_place_witness :
  (cnt conn1 (all_lent borrowed) + cnt conn1 (idle_in "s" (w_pool borrowed))
   + cnt conn1 (closedConns (w_pool borrowed)) = 1)%nat.
Proof.
  apply (connection_in_one_place one borrowed conn1); [by vm_compute|exact borrowed_reachable|by left].
Defined.

(** A client that uses a connection finds its server in the pool: the strange
    condition of a missing server never occurs in Return, and OnNeo4jError, which
    dereferences the server without a check, cannot panic. *)
Theorem lent_server_present cfg w c :
  1 ≤ MaxConnectionPoolSize cfg → reachable cfg w → c ∈ all_lent w →
  (∃ sid s, lookup_server (c_server c) (w_pool w) = Some (sid, s) ∧ c ∈ busy s) ∧
  ∀ db manager e, is_Some (OnNeo4jError (c_server c) db manager e (w_pool w)).
Proof.
  intros Hm [I _]%reachable_inv Hc; [|done].
  destruct (inv_present cfg _ _ _ _ _ (c_server c) I) as (sid & s & H); [by right; eauto|].
  split.
  - exists sid, s. split; [done|]. destruct (inv_server cfg _ _ _ _ _ _ _ _ I H) as (Sv & _).
    apply cnt_elem. rewrite (sv_busy _ _ _ _ _ Sv), decide_True by done. by apply cnt_elem.
  - intros db manager e. unfold OnNeo4jError. rewrite H. destruct (decide _); simpl.
    all: destruct (decide _); destruct (HasSecurityCode e), manager as [h|]; try done.
    all: by destruct (h e) as [[] []].
Qed.

Lemma lent_server_present_witness :
  ∃ sid s, lookup_server "s" (w_pool borrowed) = Some (sid, s) ∧ conn1 ∈ busy s.
Proof.
  apply (lent_server_present one borrowed conn1); [by vm_compute|exact borrowed_reachable|by left].
Defined.

(** ** The tracker of server-side routing *)

(** The connections that are not closed. *)
Definition live (w : world) : list conn :=
  List.filter (λ c, negb (bool_decide (c ∈ closedConns (w_pool w)))) (w_made w).

Lemma tally_split b f l : tally b l = tally b (List.filter f l) + tally b (List.filter (λ c, negb (f c)) l).
Proof.
  unfold tally. induction l as [|c l IH]; [done|]. cbn [List.filter].
  destruct (f c); cbn [negb List.filter]; destruct (eqb (c_ssr c) b); cbn [length]; lia.
Qed.

Lemma tally_perm b l1 l2 : l1 ≡ₚ l2 → tally b l1 = tally b l2.
Proof.
  unfold tally. intros H. f_equal. induction H; simpl; repeat case_match; simpl; lia.
Qed.

Lemma tally_live cfg w b :
  world_inv cfg w → tally b (w_made w) - tally b (closedConns (w_pool w)) = tally b (live w).
Proof.
  intros [I _]. pose proof (i_made _ _ _ _ _ _ I) as N%NoDup_fmap_1.
  rewrite (tally_split b (λ c, bool_decide (c ∈ closedConns (w_pool w))) (w_made w)).
  fold (live w).
  assert (tally b (List.filter (λ c, bool_decide (c ∈ closedConns (w_pool w))) (w_made w)) =
          tally b (closedConns (w_pool w))) as ->; [|lia].
  apply tally_perm, NoDup_Permutation.
  - apply cnt_NoDup. intros c. rewrite cnt_filter. case_match; [|lia]. by apply cnt_NoDup.
  - apply cnt_NoDup. intros c. pose proof (i_cnt _ _ _ _ _ _ I c). pose proof (proj1 (cnt_NoDup _) N c). lia.
  - intros c. rewrite !cnt_elem, cnt_filter. pose proof (i_cnt _ _ _ _ _ _ I c).
    case_bool_decide as E; rewrite cnt_elem in E; lia.
Qed.

Lemma tally_pos b l : 0 < tally b l ↔ ∃ c, c ∈ l ∧ c_ssr c = b.
Proof.
  unfold tally. split.
  - destruct (List.filter _ l) as [|c l'] eqn:E; [simpl; lia|]. intros _. exists c.
    assert (In c (c :: l')) as H by (by left). rewrite <- E in H. apply filter_In in H as [H1 H2].
    split; [by apply list_elem_of_In|by apply eqb_prop].
  - intros (c & H & <-). apply list_elem_of_In in H.
    assert (In c (List.filter (λ c', eqb (c_ssr c') (c_ssr c)) l)) as H'
      by (apply filter_In; split; [done|apply eqb_reflx]).
    destruct (List.filter _ l); [done|]. simpl. lia.
Qed.

Lemma tally_le b l : 0 ≤ tally b l ≤ Z.of_nat (length l).
Proof. unfold tally. pose proof (filter_length_le (λ c, eqb (c_ssr c) b) l). lia. Qed.

(** The atomic counters of the tracker are exact: the pool finds server-side
    routing enabled exactly when some open connection has it and no open
    connection lacks it, although the counters are raised and lowered by
    different calls and wrap around at 64 bits. *)
Theorem ssr_tracks_live cfg w :
  1 ≤ MaxConnectionPoolSize cfg → reachable cfg w → Z.of_nat (length (w_made w)) < 2 ^ 64 →
  ssrEnabled (w_pool w) = true ↔
  (∃ c, c ∈ live w ∧ c_ssr c = true) ∧ ¬ (∃ c, c ∈ live w ∧ c_ssr c = false).
Proof.
  intros Hm W%reachable_inv Hl; [|done]. pose proof (proj1 W) as I.
  assert (∀ b, ssr b (w_pool w) = tally b (live w)) as H.
  { intros b. rewrite (i_ssr _ _ _ _ _ _ I), (tally_live cfg w b W).
    pose proof (tally_le b (live w)). unfold u64. apply Z.mod_small.
    pose proof (filter_length_le (λ c, negb (bool_decide (c ∈ closedConns (w_pool w)))) (w_made w)).
    unfold live in *. lia. }
  rewrite <- !tally_pos. pose proof (H true) as Ht. pose proof (H false) as Hf.
  pose proof (tally_le false (live w)). simpl in Ht, Hf.
  unfold ssrEnabled. rewrite Ht, Hf, andb_true_iff, Z.ltb_lt, Z.eqb_eq. lia.
Qed.

Lemma ssr_tracks_live_witness : ¬ (∃ c, c ∈ live borrowed ∧ c_ssr c = false).
Proof.
  apply (ssr_tracks_live one borrowed); [by vm_compute|exact borrowed_reachable|by vm_compute|by vm_compute].
Defined.

(** * Choosing a server *)

(** What makes a server a worse choice, in the order of importance: a recent
    failure to connect, the number of busy connections (up to 255), having no idle
    connection, and the low byte of the round it was last used in. *)
Definition rank (now : Z) (s : server) : list Z :=
  [Z.b2z (hasFailedConnect now s); Z.min (Packer.len (busy s)) 255;
   Z.b2z (bool_decide (idle s = [])); roundRobin s mod 256].

Fixpoint lex_lt (l1 l2 : list Z) : bool :=
  match l1, l2 with
  | x :: l1, y :: l2 => (x <? y) || ((x =? y) && lex_lt l1 l2)
  | _, _ => false
  end.

Lemma lor_add a b k : 0 ≤ k → 0 ≤ b < 2 ^ k → Z.lor (a * 2 ^ k) b = a * 2 ^ k + b.
Proof.
  intros Hk Hb. rewrite <- (Z.add_lor_land (a * 2 ^ k) b).
  assert (Z.land (a * 2 ^ k) b = 0) as ->; [|lia].
  apply Z.bits_inj'. intros i Hi. rewrite Z.land_spec, Z.bits_0.
  destruct (Z_lt_ge_dec i k).
  - by rewrite Z.mul_pow2_bits_low.
  - rewrite (Z.testbit_eqb b i Hi), Z.div_small; [by rewrite andb_false_r|].
    split; [lia|]. eapply Z.lt_le_trans; [apply Hb|]. apply Z.pow_le_mono_r; lia.
Qed.

Lemma penalty_sum now s :
  Packer.len (busy s) < 2 ^ 32 →
  calculatePenalty now s =
    Z.b2z (hasFailedConnect now s) * 2 ^ 31 + Z.min (Packer.len (busy s)) 255 * 2 ^ 16 +
    Z.b2z (bool_decide (idle s = [])) * 2 ^ 8 + roundRobin s mod 256.
Proof.
  intros Hb. unfold calculatePenalty, newConnectionPenalty.
  assert (u32 (Packer.len (busy s)) = Packer.len (busy s)) as ->.
  { unfold u32. apply Z.mod_small. unfold Packer.len in *. lia. }
  remember (Packer.len (busy s)) as k. assert (0 ≤ k) by (subst; unfold Packer.len; lia).
  set (n := if k >? 0xff then 0xff else k).
  assert (n = Z.min k 255 ∧ 0 ≤ n < 256) as [<- Hn]
    by (subst n; rewrite Z.gtb_ltb; destruct (Z.ltb_spec 0xff k); lia).
  change 0xff with (Z.ones 8). rewrite (Z.land_ones (roundRobin s) 8) by lia. change (2 ^ 8) with 256.
  pose proof (Z.mod_pos_bound (roundRobin s) 256). set (r := roundRobin s mod 256) in *.
  rewrite (Z.shiftl_mul_pow2 n 16) by lia.
  assert ((if hasFailedConnect now s then Z.shiftl 1 31 else 0) = Z.b2z (hasFailedConnect now s) * 2 ^ 31) as ->
    by (by destruct (hasFailedConnect now s)).
  rewrite (lor_add _ (n * 2 ^ 16) 31) by lia.
  replace (Z.b2z (hasFailedConnect now s) * 2 ^ 31 + n * 2 ^ 16)
    with ((Z.b2z (hasFailedConnect now s) * 2 ^ 15 + n) * 2 ^ 16) by lia.
  set (a := Z.b2z (hasFailedConnect now s) * 2 ^ 15 + n).
  destruct (decide (idle s = [])) as [E|E].
  - rewrite bool_decide_eq_true_2 by done. change (Z.shiftl 1 8) with 256.
    rewrite (lor_add a 256 16) by lia.
    replace (a * 2 ^ 16 + 256) with ((a * 2 ^ 8 + 1) * 2 ^ 8) by lia.
    rewrite lor_add by lia. simpl Z.b2z. lia.
  - rewrite bool_decide_eq_false_2 by done.
    replace (a * 2 ^ 16) with ((a * 2 ^ 8) * 2 ^ 8) by lia.
    rewrite lor_add by lia. simpl Z.b2z. lia.
Qed.

(** The penalty, packed into one uint32, orders servers by the documented
    priorities: a recent failed connect weighs most, then the number of busy
    connections, then the lack of an idle connection, then the round robin. *)
Theorem calculatePenalty_priorities now s1 s2 :
  Packer.len (busy s1) < 2 ^ 32 → Packer.len (busy s2) < 2 ^ 32 →
  (calculatePenalty now s1 <? calculatePenalty now s2) = lex_lt (rank now s1) (rank now s2) ∧
  0 ≤ calculatePenalty now s1 < 2 ^ 32.
Proof.
  intros H1 H2. rewrite !penalty_sum by done. unfold rank, lex_lt.
  pose proof (Z.mod_pos_bound (roundRobin s1) 256). pose proof (Z.mod_pos_bound (roundRobin s2) 256).
  unfold Packer.len in *.
  destruct (hasFailedConnect now s1), (hasFailedConnect now s2), (bool_decide (idle s1 = [])),
    (bool_decide (idle s2 = [])); simpl Z.b2z; split; try lia.
  all: apply eq_bool_prop_intro; rewrite !Is_true_true; rewrite ?orb_true_iff, ?andb_true_iff, ?orb_true_iff,
    ?andb_true_iff, ?Z.ltb_lt, ?Z.eqb_eq; lia.
Qed.

Lemma calculatePenalty_priorities_witness :
  let used := NewServer <| busy := [conn1] |> in
  let failed := notifyFailedConnect 0 NewServer in
  calculatePenalty 1 used < calculatePenalty 1 failed.
Proof.
  intros used failed. apply Z.ltb_lt.
  rewrite (proj1 (calculatePenalty_priorities 1 used failed ltac:(by vm_compute) ltac:(by vm_compute))).
  by vm_compute.
Defined.
