(* ===== verification/PoolWaiting.v ===== *)
(** Waiting for a connection: the queue of the pool and its wake-up channels,
    and what can go wrong with them. *)

From S2P Require Import Prelude Packer Values Errors Pool PoolClients PoolSections PoolFacts.
#[local] Open Scope Z_scope.
#[local] Open Scope go_scope.
Import server pool clients.

(** * Sections that leave the queue alone *)

Definition qview (p : Pool) : list nat * list nat * nat := (queue p, signals p, nextReq p).

Lemma q_close c p : qview (closeConnection c p) = qview p.
Proof. unfold closeConnection, removeConnection. by destruct (c_ssr c). Qed.

Lemma q_closeAll cs p : qview (closeAll cs p) = qview p.
Proof. revert p. induction cs as [|c cs IH]; intros p; [done|]. unfold closeAll in *. simpl. by rewrite IH, q_close. Qed.

Lemma q_removeIdle sid s now a p : qview (removeIdleOlderThanLocked sid s now a p) = qview p.
Proof. unfold removeIdleOlderThanLocked, removeIdleOlderThan. by rewrite q_closeAll. Qed.

Lemma q_deactivate n p : qview (deactivate n p) = qview p.
Proof. unfold deactivate, startClosing. destruct (lookup_server n p) as [[]|]; [by rewrite q_closeAll|done]. Qed.

Lemma q_cleanUp cfg now n p : qview (cleanUp_server cfg now p n) = qview p.
Proof.
  unfold cleanUp_server. destruct (lookup_server n p) as [[sid s]|]; [|done].
  destruct (lookup_server n (removeIdleOlderThanLocked _ _ _ _ _)) as [[]|]; [|by apply q_removeIdle].
  destruct (_ && _); by rewrite <- (q_removeIdle sid s now (MaxConnectionLifetime cfg) p).
Qed.

Lemma q_foldl {A} (f : Pool → A → Pool) l p :
  (∀ p x, qview (f p x) = qview p) → qview (foldl f p l) = qview p.
Proof. intros H. revert p. induction l; simpl; intros p; [done|]. by rewrite IHl, H. Qed.

Lemma q_penalties cfg now names p : qview (getPenaltiesForServers cfg now names p).2 = qview p.
Proof.
  revert p. induction names as [|n names IH]; intros p; [done|]. simpl.
  destruct (getPenalty cfg now n p) as [x p1] eqn:E. specialize (IH p1).
  destruct (getPenaltiesForServers cfg now names p1). simpl in *. rewrite IH.
  unfold getPenalty in E. destruct (lookup_server n p) as [[]|]; simplify_eq; [by apply q_removeIdle|done].
Qed.

Lemma q_tryBorrow_idle cfg n p : qview (tryBorrow_idle cfg n p).2 = qview p.
Proof.
  unfold tryBorrow_idle, getIdle. destruct (lookup_server n p) as [[sid s]|]; [|done].
  destruct (idle _); [|done]. by destruct (_ <=? _).
Qed.

Lemma q_unreg n c now p : qview (unregLocked n c now p) = qview p.
Proof.
  unfold unregLocked. rewrite q_close. destruct (lookup_server n p) as [[]|]; [|done]. by destruct (_ && _).
Qed.

Lemma q_connected sid c p : qview (tryBorrow_connected sid c p) = qview p.
Proof. unfold tryBorrow_connected, addConnection. by destruct (c_ssr c). Qed.

Lemma q_removeIdleOnServer n now a p : qview (removeIdleOlderThanOnServer n now a p) = qview p.
Proof.
  unfold removeIdleOlderThanOnServer. destruct (lookup_server n p) as [[]|]; [by apply q_removeIdle|done].
Qed.

Lemma q_put_back cfg c alive now p : qview (put_back cfg c alive now p) = qview p.
Proof.
  unfold put_back, returnBusy. destruct (_ || _); [by apply q_unreg|].
  destruct (lookup_server (c_server c) p) as [[sid s]|]; [|by apply q_close].
  destruct (closing (unregisterBusy c s)); simpl; destruct (_ && _); try done.
  all: unfold closeConnection, removeConnection; by destruct (c_ssr c).
Qed.

(** * The queue and the clients *)

(** The request a client waits with. *)
Definition waits (t : client) : list nat := match t with Waiting _ q => [q] | _ => [] end.
Definition all_waits (w : world) : list nat := w_clients w ≫= waits.

(** [ws] are the requests of the waiting clients. *)
Record QInv (v : list nat * list nat * nat) (ws : list nat) : Prop := {
  q_nodup : NoDup (v.1.1 ++ v.1.2);
  q_fresh q : q ∈ v.1.1 ++ v.1.2 → (q < v.2)%nat;
  q_waits : NoDup ws;
  q_known q : q ∈ ws → q ∈ v.1.1 ++ v.1.2;
  q_live q : q ∈ v.1.1 → q ∈ ws
}.

Lemma QInv_perm v ws ws' : QInv v ws → ws ≡ₚ ws' → QInv v ws'.
Proof.
  intros [N F W K L] E. split; [done|done|by rewrite <- E|intros q; rewrite <- E; apply K|].
  intros q H. rewrite <- E. by apply L.
Qed.

Lemma QInv_wake_front p ws : QInv (qview p) ws → QInv (qview (wake_front p)) ws.
Proof.
  intros [N F W K L]. unfold wake_front. cbn [qview fst snd] in *.
  destruct (queue p) as [|q qs] eqn:E; [by split; cbn [qview fst snd]; rewrite ?E|].
  change (qview (wake q (p <| queue := qs |>))) with (qs, q :: signals p, nextReq p).
  split; cbn [fst snd]; try done.
  - by rewrite <- Permutation_middle.
  - intros x. rewrite <- Permutation_middle. apply F.
  - intros x. rewrite <- Permutation_middle. apply K.
  - intros x H. apply L. by right.
Qed.

Lemma QInv_enqueue p ws rq :
  QInv (qview p) ws →
  QInv (queue p ++ [nextReq p], signals p, S (nextReq p)) (waits (Waiting rq (nextReq p)) ++ ws).
Proof.
  intros [N F W K L]. simpl in *.
  assert ((queue p ++ [nextReq p]) ++ signals p ≡ₚ nextReq p :: (queue p ++ signals p)) as E.
  { rewrite <- app_assoc. simpl. by rewrite <- Permutation_middle. }
  assert (nextReq p ∉ queue p ++ signals p) as Fr by (intros H%F; lia).
  split; simpl.
  - rewrite E. by constructor.
  - intros x. rewrite E. intros [->|H%F]%elem_of_cons; lia.
  - constructor; [|done]. by intros H%K.
  - intros x. rewrite E. rewrite !elem_of_cons. intros [?|H]; [by left|right; by apply K].
  - intros x. rewrite elem_of_app, list_elem_of_singleton, elem_of_cons. intros [H|?]; [right; by apply L|by left].
Qed.

Lemma filter_ne_elem q x (l : list nat) : x ∈ List.filter (λ y, negb (y =? q)%nat) l ↔ x ∈ l ∧ x ≠ q.
Proof.
  rewrite !list_elem_of_In, filter_In. by rewrite negb_true_iff, Nat.eqb_neq.
Qed.

Lemma filter_ne_NoDup q (l : list nat) : NoDup l → NoDup (List.filter (λ y, negb (y =? q)%nat) l).
Proof.
  rewrite !cnt_NoDup. intros H x. rewrite cnt_filter. specialize (H x). case_match; lia.
Qed.

(** A request that leaves: it is taken out of the queue and its signal may be
    consumed. *)
Lemma QInv_leave v ws q qs ss :
  QInv v (q :: ws) → qs = List.filter (λ y, negb (y =? q)%nat) v.1.1 →
  ss = v.1.2 ∨ ss = List.filter (λ y, negb (y =? q)%nat) v.1.2 →
  QInv (qs, ss, v.2) ws.
Proof.
  intros [N F W K L] -> Hs. apply NoDup_app in N as (N1 & N2 & N3). apply NoDup_cons in W as [Wq W].
  assert (∀ x, x ∈ ss → x ∈ v.1.2) as S1 by (destruct Hs as [->| ->]; [done|]; intros x [? _]%filter_ne_elem; done).
  assert (∀ x, x ≠ q → x ∈ v.1.2 → x ∈ ss) as S2 by (destruct Hs as [->| ->]; [done|]; intros; by apply filter_ne_elem).
  split; simpl; [| |done| |].
  - apply NoDup_app. split; [by apply filter_ne_NoDup|]. split.
    + intros x [H _]%filter_ne_elem H'%S1. by apply (N2 x).
    + destruct Hs as [->| ->]; [done|by apply filter_ne_NoDup].
  - intros x [[H _]%filter_ne_elem|H%S1]%elem_of_app; apply F, elem_of_app; auto.
  - intros x H. assert (x ≠ q) by (intros ->; done).
    assert (x ∈ v.1.1 ++ v.1.2) as [?|?]%elem_of_app by (apply K; by right); apply elem_of_app.
    + left. by apply filter_ne_elem.
    + right. by apply S2.
  - intros x [H Hx]%filter_ne_elem. apply L in H as [->|?]%elem_of_cons; done.
Qed.

Lemma filter_ne_id q (l : list nat) : q ∉ l → List.filter (λ y, negb (y =? q)%nat) l = l.
Proof.
  induction l as [|x l IH]; simpl; [done|]. intros [H1 H2]%not_elem_of_cons.
  rewrite (proj2 (Nat.eqb_neq x q)) by done. simpl. by rewrite IH.
Qed.

(** One step of a client, among others that wait with [ws]. *)
Lemma q_step cfg ch p t p' t' ws :
  client_step cfg ch p t = Some (p', t') → QInv (qview p) (waits t ++ ws) → QInv (qview p') (waits t' ++ ws).
Proof.
  assert (∀ rq todo err, waits (next_try rq todo err) = []) as Nt.
  { intros rq todo [e|]; simpl; [|done]. by destruct (IsTimeoutError e), (IsFatalDuringDiscovery e). }
  assert (∀ rq todo n a, waits (after_attempt rq todo n a) = []) as Na by (by intros ??? []).
  assert (∀ p n, qview (tryBorrow_enter cfg n p).2 = qview p) as Ne.
  { intros. unfold tryBorrow_enter. destruct (closed _); [done|by apply q_tryBorrow_idle]. }
  intros E Q. destruct t, ch; try discriminate E; cbn [client_step] in E; try (by destruct todo).
  - unfold round in E. destruct (checkClosed p); [by simplify_eq|]. case_decide; [by simplify_eq|].
    pose proof (q_penalties cfg now names p) as X.
    destruct (getPenaltiesForServers cfg now names p). case_match; [|done]. injection E as <- <-. cbn [snd] in X. by rewrite X.
  - destruct todo as [|n todo].
    + injection E as E. unfold exhausted, enqueue in E.
      destruct err; [by simplify_eq|]. destruct (negb (rq_wait rq)); [by simplify_eq|].
      destruct (anyHasCapacity cfg (rq_names rq) p); simplify_eq; [done|]. by apply (QInv_enqueue p ws rq).
    + pose proof (Ne p n) as X. destruct (tryBorrow_enter cfg n p) as [a p1]. injection E as <- <-. rewrite Na. cbn [snd] in X. by rewrite X.
  - destruct (healthCheck h idlenessTimeout) as [[] err]; by simplify_eq.
  - simplify_eq. rewrite q_unreg. destruct err; [|done]. pose proof (Nt rq todo (Some e)) as X.
    simpl in X |- *. by rewrite X.
  - pose proof (q_tryBorrow_idle cfg name p) as X. destruct (tryBorrow_idle cfg name p) as [a p1].
    injection E as <- <-. rewrite Na. cbn [snd] in X. by rewrite X.
  - simplify_eq. by rewrite q_connected.
  - simplify_eq. pose proof (Nt rq todo (Some e)) as X. simpl in X |- *. by rewrite X.
  - by simplify_eq.
  - case_decide as Hs; [|done]. simplify_eq. simpl in *.
    apply (QInv_leave (qview p) ws q (queue p) _ Q); [|by right].
    symmetry. apply filter_ne_id. intros Hq. pose proof (q_nodup _ _ Q) as (_ & N & _)%NoDup_app. by apply (N q).
  - assert (QInv (qview (abandon q p).2) ws) as Q'.
    { unfold abandon. set (p0 := p <| queue := _ |>).
      assert (QInv (qview p0) ws) by (apply (QInv_leave (qview p) ws q _ _ Q); [done|by left]).
      case_decide; [by apply QInv_wake_front|done]. }
    destruct (abandon q p) as [[] p1]; by simplify_eq.
  - simplify_eq. by rewrite q_removeIdleOnServer.
  - simplify_eq. by rewrite q_put_back.
  - simplify_eq. by apply QInv_wake_front.
Qed.

Lemma q_reachable cfg w : reachable cfg w → QInv (qview (w_pool w)) (all_waits w).
Proof.
  induction 1 as [|w ev w' R IH E].
  - split; simpl; try (constructor || by intros ? ?%elem_of_nil).
  - destruct w as [p l made]. unfold all_waits in *. simpl in IH. destruct ev; simpl in E.
    + injection E as <-. change (QInv (qview p) ((l ++ [Top wait]) ≫= waits)). rewrite bind_app.
      cbn [mbind list_bind waits app]. by rewrite app_nil_r.
    + destruct (l !! i) as [t|] eqn:Ei; simpl in E; [|done].
      destruct (fits made t ch); [|done].
      destruct (client_step cfg ch p t) as [[p' t']|] eqn:S; simpl in E; [|done]. injection E as <-.
      apply list_elem_of_split_length in Ei as (l1 & l2 & -> & ->).
      change (QInv (qview p') (<[length l1 := t']> (l1 ++ t :: l2) ≫= waits)).
      rewrite insert_app_r_alt, Nat.sub_diag by lia. simpl.
      eapply QInv_perm; [|symmetry; apply bind_middle].
      eapply q_step; [done|]. eapply QInv_perm; [exact IH|apply bind_middle].
    + injection E as <-. change (QInv (qview (CleanUp cfg now names p)) (l ≫= waits)).
      unfold CleanUp. rewrite q_foldl; [done|]. intros; apply q_cleanUp.
    + injection E as <-. change (QInv (qview (deactivate name p)) (l ≫= waits)). by rewrite q_deactivate.
    + by injection E as <-.
    + injection E as <-. by apply QInv_wake_front.
    + injection E as <-. change (QInv (qview (Close_servers names p)) (l ≫= waits)).
      unfold Close_servers. rewrite q_foldl; [done|]. intros; apply q_deactivate.
Qed.

(** C31. The pool never blocks while it holds the lock of the queue and never wakes
    a ghost: in every reachable world the request at the front of the queue has an
    empty wake-up channel (so the send into the channel of capacity one does not
    block) and belongs to a client that is waiting; and every waiting client is
    still in the queue or has its signal. *)
Theorem wakeups_do_not_block cfg w :
  reachable cfg w →
  (∀ q qs, queue (w_pool w) = q :: qs → q ∉ signals (w_pool w) ∧ ∃ rq, Waiting rq q ∈ w_clients w) ∧
  (∀ rq q, Waiting rq q ∈ w_clients w → q ∈ queue (w_pool w) ∨ q ∈ signals (w_pool w)).
Proof.
  intros [N F W K L]%q_reachable. simpl in *. apply NoDup_app in N as (_ & N & _). split.
  - intros q qs E. assert (q ∈ queue (w_pool w)) as Hq by (rewrite E; left). split; [by apply N|].
    apply L in Hq. unfold all_waits in Hq. apply list_elem_of_bind in Hq as (t & Hq & Ht).
    destruct t; try by apply elem_of_nil in Hq. simpl in Hq. apply list_elem_of_singleton in Hq as ->. eauto.
  - intros rq q H. apply elem_of_app, K. unfold all_waits. apply list_elem_of_bind.
    exists (Waiting rq q). split; [by left|done].
Qed.

(** * What can go wrong *)

(** Client [q] waits and nothing any client can do will end that, but its own
    context. *)
Definition stranded (cfg : config) (w : world) (q : nat) : Prop :=
  (∃ rq, Waiting rq q ∈ w_clients w) ∧
  ∀ i ch w', step cfg (Run i ch) w = Some w' → ∃ e, ch = Expired e.

(** A client that is done, or waits without a signal. *)
Definition inert (p : Pool) (t : client) : bool :=
  match t with
  | Failed _ | Released => true
  | Waiting _ q => negb (bool_decide (q ∈ signals p))
  | _ => false
  end.

Lemma stranded_intro cfg w q rq :
  Waiting rq q ∈ w_clients w → forallb (inert (w_pool w)) (w_clients w) = true → stranded cfg w q.
Proof.
  intros Hq H. split; [eauto|]. intros i ch w' E. simpl in E.
  destruct (w_clients w !! i) as [t|] eqn:Ei; simpl in E; [|done].
  apply list_elem_of_lookup_2, list_elem_of_In in Ei.
  pose proof (proj1 (forallb_forall _ _) H _ Ei) as Ht. destruct (fits _ t ch); [|done].
  destruct t, ch; try done; simpl in *; eauto.
  apply negb_true_iff, bool_decide_eq_false in Ht. by rewrite decide_False in E.
Qed.

(** A failed connect releases its reservation and leaves the queue alone. *)
Lemma q_failed sid now e p : qview (tryBorrow_failed sid now e p) = qview p.
Proof. done. Qed.

Lemma failed_frees cfg w i rq todo name sid now e :
  1 ≤ MaxConnectionPoolSize cfg → reachable cfg w →
  w_clients w !! i = Some (Connecting rq todo name sid) →
  ∃ x, lookup_server name (tryBorrow_failed sid now e (w_pool w)) = Some x ∧
    size x.2 < MaxConnectionPoolSize cfg.
Proof.
  intros Hm [I _]%reachable_inv Hi; [|done].
  assert ((name, sid) ∈ all_ptrs w) as Hp.
  { apply list_elem_of_bind. exists (Connecting rq todo name sid).
    split; [by left|by eapply list_elem_of_lookup_2]. }
  destruct (inv_points _ _ _ _ _ _ name sid I Hp) as (s & _ & Sv%sv_size & E & Ep).
  pose proof (a_this _ _ _ _ _ _ (acts_on _ name sid s (λ s,
    let s := s <| reservations := reservations s - 1 |> in
    match e with
    | FeatureNotSupportedError _ _ _ => s
    | _ => notifyFailedConnect now s
    end) (i_wf _ _ _ _ _ _ I) Ep E)) as A.
  apply srv_pointer in A as (sid' & _ & _ & A). eexists. split; [exact A|]. cbn [snd].
  assert (size (s <| reservations := reservations s - 1 |>) = size s - 1) as Hd.
  { unfold size. change (reservations (s <| reservations := reservations s - 1 |>)) with (reservations s - 1).
    change (busy (s <| reservations := reservations s - 1 |>)) with (busy s).
    change (idle (s <| reservations := reservations s - 1 |>)) with (idle s). lia. }
  destruct e; change (size (s <| reservations := reservations s - 1 |>) < MaxConnectionPoolSize cfg); lia.
Qed.

Lemma inert_view p p' t : signals p' = signals p → inert p' t = inert p t.
Proof. intros E. destruct t; simpl; by rewrite ?E. Qed.

(** The client whose connect failed has nothing left to do, at once or after it has
    looked for another server. *)
Lemma failed_ends cfg w i rq name sid now e p :
  w_clients w !! i = Some (Connecting rq [] name sid) → tryBorrow_failed sid now e (w_pool w) = p →
  ∃ evs err, (evs = [] ∨ evs = [Run i Go]) ∧
    run cfg (Run i (ConnectFailed now e) :: evs) w =
      Some (mkWorld p (<[i := Failed err]> (w_clients w)) (w_made w)).
Proof.
  intros Hi Hp. pose proof (lookup_lt_Some _ _ _ Hi) as Hlt. cbn [run step]. rewrite Hi. simpl. rewrite Hp.
  destruct (IsTimeoutError e); [by exists [], (PoolTimeout e (rq_names rq)); auto|].
  destruct (IsFatalDuringDiscovery e); [by exists [], e; auto|].
  exists [Run i Go], e. split; [by right|]. simpl. rewrite list_lookup_insert_eq by done. simpl.
  by rewrite list_insert_insert_eq.
Qed.

(** C40. A failed connect wakes nobody, so that a waiting client can miss the capacity
    it leaves.  Take any reachable world in which one client connects, with no other
    server left to try, another waits, and the rest have nothing to do (they are done,
    or wait without a signal).  When the connect fails, its client is done after at
    most one more step, and from then on the waiting client is stranded: no client can
    take a step except for a waiting one whose context ends.  Yet the server has room
    for a connection: a client that waits for it, if it looked again, would connect. *)
Theorem failed_connect_strands_waiter cfg w i rq name sid now e rq' q :
  1 ≤ MaxConnectionPoolSize cfg → reachable cfg w →
  w_clients w !! i = Some (Connecting rq [] name sid) → Waiting rq' q ∈ w_clients w →
  (∀ j t, w_clients w !! j = Some t → j ≠ i → inert (w_pool w) t = true) →
  ∃ evs w', (evs = [] ∨ evs = [Run i Go]) ∧ run cfg (Run i (ConnectFailed now e) :: evs) w = Some w' ∧
    stranded cfg w' q ∧ (name ∈ rq_names rq' → anyHasCapacity cfg (rq_names rq') (w_pool w') = true).
Proof.
  intros Hm R Hi Hq Ho. destruct (failed_ends cfg w i rq name sid now e _ Hi eq_refl) as (evs & err & He & Er).
  eexists evs, _. split; [done|]. split; [exact Er|]. split.
  - apply (stranded_intro _ _ _ rq').
    + apply list_elem_of_lookup in Hq as [j Hj]. apply list_elem_of_lookup. exists j. simpl.
      rewrite list_lookup_insert_ne; [done|]. intros ->. congruence.
    + apply forallb_forall. intros t Ht. apply list_elem_of_In, list_elem_of_lookup in Ht as [j Hj].
      simpl in Hj |- *. rewrite (inert_view (w_pool w)) by apply (f_equal (λ v, v.1.2) (q_failed sid now e (w_pool w))).
      destruct (decide (j = i)) as [->|N].
      * rewrite list_lookup_insert_eq in Hj by by eapply lookup_lt_Some. by injection Hj as <-.
      * rewrite list_lookup_insert_ne in Hj by done. by eapply Ho.
  - intros Hn. destruct (failed_frees cfg w i rq [] name sid now e Hm R Hi) as ([sid' s] & Hs & Hlt).
    apply existsb_exists. exists name. split; [by apply list_elem_of_In|]. simpl. rewrite Hs.
    apply orb_true_iff. right. by apply Z.ltb_lt.
Qed.

Definition refused : error := NetError false "connection refused".

(** With room for one connection the first client connects, while the second finds the
    server full and waits; the dial fails, of which the pool is told. *)
Definition dialling : world :=
  Eval vm_compute in default initial (run one
    [Spawn false; Run 0 (Names ["s"] [("s", 256)] 0); Run 0 Go;
     Spawn true; Run 1 (Names ["s"] [("s", 256)] 0); Run 1 Go; Run 1 Go; Deactivate "s"] initial).

(** Nobody is connected or connects any more, but the client waits. *)
Lemma failed_connect_strands_waiter_witness :
  ∃ evs w', run one (Run 0 (ConnectFailed 0 refused) :: evs) dialling = Some w' ∧ stranded one w' 0 ∧
    anyHasCapacity one ["s"] (w_pool w') = true.
Proof.
  destruct (failed_connect_strands_waiter one dialling 0 (mkRequest false ["s"]) "s" 0 0 refused
    (mkRequest true ["s"]) 0) as (evs & w' & _ & Er & Hs & Hc).
  - by vm_compute.
  - eapply (run_reachable one
      [Spawn false; Run 0 (Names ["s"] [("s", 256)] 0); Run 0 Go;
       Spawn true; Run 1 (Names ["s"] [("s", 256)] 0); Run 1 Go; Run 1 Go; Deactivate "s"]);
      [apply reach_initial|by vm_compute].
  - reflexivity.
  - right. left.
  - intros [|[|j]] t Hj N; [done|by injection Hj as <-|done].
  - exists evs, w'. split; [exact Er|]. split; [exact Hs|]. apply Hc. left.
Defined.

Definition conn2 : conn := mkConn 2 "s" 0 true.

(** The server has one connection in use and has been used last in round 1. *)
Definition join_queue (i : nat) : list event :=
  [Spawn true; Run i (Names ["s"] [("s", 65536 + 256 + 1)] 0); Run i Go; Run i Go].

Definition close_all : list event := [CloseFlag; CloseQueue; CloseServers ["s"]].
Definition give_back (i : nat) : list event := [Run i (Alive true 0); Run i (AfterReset true); Run i Go].

(** One client has the only connection, another waits. *)
Definition one_waiting : world :=
  Eval vm_compute in default initial (run one (borrow_first 0 conn1 ++ join_queue 1) initial).

Lemma wakeups_do_not_block_witness : 0%nat ∉ signals (w_pool one_waiting).
Proof.
  apply (wakeups_do_not_block one one_waiting) with (qs := []); [|by vm_compute].
  eapply (run_reachable one (borrow_first 0 conn1 ++ join_queue 1)); [apply reach_initial|by vm_compute].
Defined.

(** One client has the only connection, three wait; the pool is closed, the
    client returns the connection, and every client that is woken sees that. *)
Definition closing_trace : list event :=
  borrow_first 0 conn1 ++ join_queue 1 ++ join_queue 2 ++ join_queue 3 ++ close_all ++
  [Run 1 Go; Run 1 (Names [] [] 0)] ++ give_back 0 ++ [Run 2 Go; Run 2 (Names [] [] 0)].

(** Closing the pool wakes only the first waiter, because the loop reads the
    next element after removing the current one: a client can be left waiting for
    a connection of a closed pool, with no other client left that could wake it. *)
Theorem close_strands_waiter :
  ∃ w q, reachable one w ∧ closed (w_pool w) = true ∧ stranded one w q.
Proof.
  destruct (run one closing_trace initial) as [w|] eqn:E; [|by vm_compute in E].
  exists w, 2%nat. split; [by eapply run_reachable; [apply reach_initial|exact E]|].
  vm_compute in E. injection E as <-. split; [done|].
  by apply (stranded_intro _ _ _ (mkRequest true ["s"])); [do 3 right; left|vm_compute].
Qed.

Definition finished (t : client) : bool := match t with Failed _ | Released => true | _ => false end.

(** A second client takes the idle connection and checks it. *)
Definition checking_trace : list event :=
  borrow_first 0 conn1 ++ give_back 0 ++ [Spawn true; Run 1 (Names ["s"] [("s", 1)] 0); Run 1 Go].

(** The check finds the connection dead, after which the client connects anew,
    uses the connection and returns it. *)
Definition reconnect_trace : list event :=
  [Run 1 (Health (server.mkHealth false 0 true None None true) 0); Run 1 (Clock 0); Run 1 Go;
   Run 1 (Connected conn2); Run 1 Go] ++ give_back 1.

(** A closed pool can keep a connection open: when Close runs while a client
    checks an idle connection that turns out dead, the next pass of tryBorrow does
    not look at the closed flag again; it registers a new server, and the
    connection made there is put among the idle ones on return, where nothing
    closes it. *)
Theorem close_leaks_connection :
  ∃ w0 w, run one checking_trace initial = Some w0 ∧
    (map_to_list (servers (w_pool w0))).*1 = ["s"] ∧
    run one (close_all ++ reconnect_trace) w0 = Some w ∧
    closed (w_pool w) = true ∧ forallb finished (w_clients w) = true ∧
    idle_in "s" (w_pool w) = [conn2] ∧ conn2 ∉ closedConns (w_pool w).
Proof.
  destruct (run one checking_trace initial) as [w0|] eqn:E0; [|by vm_compute in E0].
  destruct (run one (close_all ++ reconnect_trace) w0) as [w|] eqn:E.
  - exists w0, w. vm_compute in E0. injection E0 as <-. vm_compute in E. injection E as <-.
    repeat (split; [done|]). by intros [[=]|?%elem_of_nil]%elem_of_cons.
  - vm_compute in E0. injection E0 as <-. by vm_compute in E.
Qed.
