(* ===== verification/Router.v ===== *)
(** The router: neo4j/internal/router/router.go and readtable.go.

    Routing tables are shared objects: callers keep pointers to them, and their
    server lists are Go slices that [removeServerFromList] shortens in place.  So
    the model has a store of tables and a store of arrays, and a slice is an array
    with a length.  Borrowing a connection and asking it for a table is an
    operation of the environment, which also says which servers the pool reported
    as unreachable meanwhile: the pool calls [InvalidateServer] from within
    [Borrow]. *)

From S2P Require Import Prelude Packer Values Errors.
#[local] Open Scope Z_scope.
#[local] Open Scope go_scope.

Definition missingWriterRetries : nat := 100.
Definition missingReaderRetries : nat := 100.

(** A slice that starts at the beginning of its array. *)
Record slice : Type := mkSlice { arr : nat; slen : nat }.

Record table : Type := mkTable {
  t_TimeToLive : Z;
  t_DatabaseName : string;
  t_Routers : slice;
  t_Readers : slice;
  t_Writers : slice
}.

Record databaseRouter : Type := mkDatabaseRouter { dueUnix : Z; dr_table : nat }.

Record updateKey : Type := mkUpdateKey { uk_database : string; uk_homeDbCacheKey : string }.

#[global] Instance updateKey_eq_dec : EqDecision updateKey.
Proof. solve_decision. Defined.
#[global] Instance updateKey_countable : Countable updateKey.
Proof.
  refine (inj_countable' (λ k, (uk_database k, uk_homeDbCacheKey k)) (λ x, mkUpdateKey x.1 x.2) _).
  by intros [].
Defined.

Record DatabaseSelection : Type := mkDatabaseSelection {
  ds_Name : string;
  ds_IsHomeDbGuess : bool;
  ds_ImpersonatedUser : string;
  ds_HomeDbCacheKey : string
}.

(** [updating] holds the channels of the goroutines that wait for a read in
    progress. *)
Record Router : Type := mkRouter {
  rootRouter : string;
  dbRouters : gmap string databaseRouter;
  updating : gmap updateKey (list nat);
  closedChans : list nat;
  nextChan : nat;
  tables : gmap nat table;
  arrays : gmap nat (list string);
  nextRef : nat
}.

Module router.

Definition New (root : string) : Router := mkRouter root ∅ ∅ [] 0 ∅ ∅ 0.

(** ** Slices *)

Definition array_of (r : Router) (s : slice) : list string := default [] (arrays r !! arr s).
Definition contents (r : Router) (s : slice) : list string := take (slen s) (array_of r s).

Fixpoint index_of (server : string) (l : list string) : option nat :=
  match l with
  | [] => None
  | x :: l => if decide (x = server) then Some 0%nat else S <$> index_of server l
  end.

(** [append(list[0:i], list[i+1:]...)] has room in the array of [list]: the rest
    moves down by one and the last element of the slice stays where it is. *)
Definition removeServerFromList (s : slice) (server : string) (r : Router) : slice * Router :=
  match index_of server (contents r s) with
  | None => (s, r)
  | Some i =>
      let a := array_of r s in
      (mkSlice (arr s) (slen s - 1),
       r <| arrays := <[arr s := take i a ++ drop (S i) (take (slen s) a) ++ drop (slen s - 1) a]> (arrays r) |>)
  end.

(** A fresh array. *)
Definition alloc (l : list string) (r : Router) : slice * Router :=
  (mkSlice (nextRef r) (length l),
   r <| arrays := <[nextRef r := l]> (arrays r) |> <| nextRef := S (nextRef r) |>).

(** The table a connection returned. *)
Definition alloc_table (t : RoutingTable) (r : Router) : nat * Router :=
  let '(routers, r) := alloc (rt_Routers t) r in
  let '(readers, r) := alloc (rt_Readers t) r in
  let '(writers, r) := alloc (rt_Writers t) r in
  (nextRef r,
   r <| tables := <[nextRef r := mkTable (rt_TimeToLive t) (rt_DatabaseName t) routers readers writers]> (tables r) |>
     <| nextRef := S (nextRef r) |>).

(** ** Locked sections *)

(** The due time: [now] is in nanoseconds, the product is an int64. *)
Definition due (now ttl : Z) : Z := (now + swrap 64 (ttl * 1000000000)) / 1000000000.

Definition getTableLocked (now : Z) (d : option databaseRouter) : option nat :=
  match d with
  | Some d => if now / 1000000000 <? dueUnix d then Some (dr_table d) else None
  | None => None
  end.

Definition getTable (now : Z) (database : string) (r : Router) : option nat :=
  getTableLocked now (dbRouters r !! database).

Definition storeRoutingTable (database : string) (ptr : nat) (now : Z) (r : Router) : Router :=
  match tables r !! ptr with
  | None => r
  | Some t =>
      let database := if decide (database = ""%string) then t_DatabaseName t else database in
      r <| dbRouters := <[database := mkDatabaseRouter (due now (t_TimeToLive t)) ptr]> (dbRouters r) |>
  end.

Definition Invalidate (database : string) (r : Router) : Router :=
  match dbRouters r !! database with
  | Some d => r <| dbRouters := <[database := d <| dueUnix := 0 |>]> (dbRouters r) |>
  | None => r
  end.

Definition on_table (ptr : nat) (f : table → Router → table * Router) (r : Router) : Router :=
  match tables r !! ptr with
  | None => r
  | Some t => let '(t, r) := f t r in r <| tables := <[ptr := t]> (tables r) |>
  end.

Definition removeReader (server : string) (t : table) (r : Router) : table * Router :=
  let '(s, r) := removeServerFromList (t_Readers t) server r in (t <| t_Readers := s |>, r).
Definition removeWriter (server : string) (t : table) (r : Router) : table * Router :=
  let '(s, r) := removeServerFromList (t_Writers t) server r in (t <| t_Writers := s |>, r).
Definition removeRouter (server : string) (t : table) (r : Router) : table * Router :=
  let '(s, r) := removeServerFromList (t_Routers t) server r in (t <| t_Routers := s |>, r).

Definition InvalidateWriter (db server : string) (r : Router) : Router :=
  match dbRouters r !! db with
  | None => r
  | Some d => on_table (dr_table d) (removeWriter server) r
  end.

Definition InvalidateReader (db server : string) (r : Router) : Router :=
  match dbRouters r !! db with
  | None => r
  | Some d => on_table (dr_table d) (removeReader server) r
  end.

(** One table of [InvalidateServer]. *)
Definition invalidate_in (server : string) (r : Router) (ptr : nat) : Router :=
  on_table ptr (λ t r,
    let '(t, r) := removeRouter server t r in
    let '(t, r) := removeReader server t r in
    removeWriter server t r) r.

Definition InvalidateServer (server : string) (r : Router) : Router :=
  foldl (invalidate_in server) r ((λ x, dr_table x.2) <$> map_to_list (dbRouters r)).

Definition CleanUp (now : Z) (r : Router) : Router :=
  r <| dbRouters := filter (λ x, negb (dueUnix x.2 <? now / 1000000000)) (dbRouters r) |>.

Definition wrapError (server : string) (e : error) : error :=
  match e with
  | Neo4jErr _ => e
  | _ => ReadRoutingTableError (Some e) server
  end.

(** ** Reading a table *)

(** What asking a router comes to: the pool gives no connection ([ctxErr] is the
    state of the context then), or the connection answers. *)
Inductive answer : Type :=
| NoConnection (e : error) (ctxErr : option error)
| Refused (e : error)
| Answered (t : RoutingTable).

Section Reading.
Context {E : Type}.

(** Asking [router] about [database]; the servers are those the pool reports to
    [InvalidateServer] before the answer. *)
Variable ask : string → string → E → answer * list string * E.
(** The hook that gives other routers. *)
Variable getRouters : option (E → list string * E).
Variable now : E → Z * E.
Variable bookmarksFn : E → option error * E.
Variable sleep : E → E.

Definition st : Type := Router * E.
Definition result (A : Type) : Type := error + A.

(** The error to return at once, or the one to go on with. *)
Definition after_refusal (router : string) (e : error) : error * bool :=
  if IsFatalDuringDiscovery e then (e, true) else (wrapError router e, false).

(** The loop of [readTable] from index [i] over the slice [s], with [n] elements
    to go: each element is read from the array when its turn comes. *)
Fixpoint readTable_loop (s : slice) (database : string) (n i : nat) (err : error) (x : st) :
    result nat * st :=
  match n with
  | O => (inl err, x)
  | S n =>
      let '(r, e) := x in
      let router := default ""%string (array_of r s !! i) in
      let '(a, lost, e) := ask router database e in
      let r := foldl (λ r srv, InvalidateServer srv r) r lost in
      match a with
      | NoConnection _ (Some ctxErr) => (inl (wrapError router ctxErr), (r, e))
      | NoConnection err None | Refused err =>
          match after_refusal router err with
          | (err, true) => (inl err, (r, e))
          | (err, false) => readTable_loop s database n (S i) err (r, e)
          end
      | Answered t => let '(ptr, r) := alloc_table t r in (inr ptr, (r, e))
      end
  end.

(** readtable.go: readTable *)
Definition readTable (s : slice) (database : string) (x : st) : result nat * st :=
  readTable_loop s database (slen s) 0 (ReadRoutingTableError None "") x.

(** A list that no table shares. *)
Definition readTable_list (l : list string) (database : string) (x : st) : result nat * st :=
  let '(s, r) := alloc l x.1 in readTable s database (r, x.2).

(** router.go: Router.readTable.  No further routers are tried when there is a
    table or a fatal error. *)
Definition decided (res : result nat) : bool :=
  match res with inl e => IsFatalDuringDiscovery e | inr _ => true end.

Definition readTable_known (d : option databaseRouter) (database : string) (x : st) :
    option (result nat) * st :=
  match d ≫= (λ d, tables x.1 !! dr_table d) with
  | Some t =>
      if (0 <? slen (t_Routers t))%nat
      then let '(res, x) := readTable (t_Routers t) database x in (Some res, x)
      else (None, x)
  | None => (None, x)
  end.

(** The initial router, then the hook. *)
Definition readTable_others (database : string) (x : st) : result nat * st :=
  let '(res, x) := readTable_list [rootRouter x.1] database x in
  if decided res then (res, x) else
  match getRouters with
  | None => (res, x)
  | Some f => let '(l, e) := f x.2 in readTable_list l database (x.1, e)
  end.

Definition Router_readTable (d : option databaseRouter) (database : string) (x : st) :
    result nat * st :=
  match readTable_known d database x with
  | (Some res, x) => if decided res then (res, x) else readTable_others database x
  | (None, x) => readTable_others database x
  end.

Definition updateTable (database : string) (d : option databaseRouter) (x : st) : result nat * st :=
  let '(r, e) := x in
  match bookmarksFn e with
  | (Some err, e) => (inl err, (r, e))
  | (None, e) =>
      match Router_readTable d database (r, e) with
      | (inl err, x) => (inl err, x)
      | (inr ptr, (r, e)) =>
          let '(n, e) := now e in (inr ptr, (storeRoutingTable database ptr n r, e))
      end
  end.

Definition update_key (sel : DatabaseSelection) : updateKey :=
  if ds_IsHomeDbGuess sel || bool_decide (ds_Name sel = ""%string)
  then mkUpdateKey "" (ds_HomeDbCacheKey sel) else mkUpdateKey (ds_Name sel) "".

(** [getOrUpdateTable] when no other goroutine reads the same table. *)
Definition getOrUpdateTable (sel : DatabaseSelection) (x : st) : result nat * st :=
  let '(r, e) := x in
  let '(n, e) := now e in
  let d := dbRouters r !! ds_Name sel in
  match getTableLocked n d with
  | Some ptr => (inr ptr, (r, e))
  | None => updateTable (uk_database (update_key sel)) d (r, e)
  end.

(** ** Readers and writers *)

Definition role_of (field : table → slice) (ptr : nat) (r : Router) : list string :=
  match tables r !! ptr with Some t => contents r (field t) | None => [] end.

Definition name_of (ptr : nat) (r : Router) : string :=
  match tables r !! ptr with Some t => t_DatabaseName t | None => ""%string end.

(** The loop that both calls share: [n] retries are left, [invalidated] is the
    name they invalidate. *)
Fixpoint retry_role (field : table → slice) (invalidated : nat → Router → string)
    (sel : DatabaseSelection) (n : nat) (ptr : nat) (x : st) : result nat * st :=
  if decide (role_of field ptr x.1 = []) then
    match n with
    | O | 1%nat => (inr ptr, x)
    | S n =>
        let x := (Invalidate (invalidated ptr x.1) x.1, sleep x.2) in
        match getOrUpdateTable sel x with
        | (inl e, x) => (inl e, x)
        | (inr ptr, x) => retry_role field invalidated sel n ptr x
        end
    end
  else (inr ptr, x).

Definition getOrUpdateRole (field : table → slice) (invalidated : nat → Router → string)
    (retries : nat) (missing : string) (sel : DatabaseSelection) (x : st) : result (list string) * st :=
  match getOrUpdateTable sel x with
  | (inl e, x) => (inl e, x)
  | (inr ptr, x) =>
      match retry_role field invalidated sel retries ptr x with
      | (inl e, x) => (inl e, x)
      | (inr ptr, x) =>
          if decide (role_of field ptr x.1 = [])
          then (inl (wrapError (rootRouter x.1) (ErrorString missing)), x)
          else (inr (role_of field ptr x.1), x)
      end
  end.

Definition GetOrUpdateReaders (sel : DatabaseSelection) : st → result (list string) * st :=
  getOrUpdateRole t_Readers name_of missingReaderRetries "no readers" sel.

Definition GetOrUpdateWriters (sel : DatabaseSelection) : st → result (list string) * st :=
  getOrUpdateRole t_Writers (λ _ _, ds_Name sel) missingWriterRetries "no writers" sel.

Definition Readers (n : Z) (database : string) (r : Router) : list string :=
  match getTable n database r with Some ptr => role_of t_Readers ptr r | None => [] end.
Definition Writers (n : Z) (database : string) (r : Router) : list string :=
  match getTable n database r with Some ptr => role_of t_Writers ptr r | None => [] end.

Definition GetNameOfDefaultDatabase (x : st) : result string * st :=
  match Router_readTable None DefaultDatabase x with
  | (inl e, x) => (inl e, x)
  | (inr ptr, (r, e)) =>
      let '(n, e) := now e in
      (inr (name_of ptr r), (storeRoutingTable (name_of ptr r) ptr n r, e))
  end.
End Reading.
End router.
