(* ===== verification/RouterFacts.v ===== *)
(** Theorems about the router. *)

From S2P Require Import Prelude Packer Values Errors Router.
#[local] Open Scope Z_scope.
#[local] Open Scope go_scope.
Import router.

(** * Slices *)

Lemma index_of_Some server l i :
  index_of server l = Some i → ∃ l1 l2, l = l1 ++ server :: l2 ∧ length l1 = i ∧ server ∉ l1.
Proof.
  revert i. induction l as [|x l IH]; simpl; intros i; [done|]. case_decide as D.
  - intros [= <-]. subst. exists [], l. split; [done|]. split; [done|apply not_elem_of_nil].
  - destruct (index_of server l) as [k|]; simpl; [|done]. intros [= <-].
    destruct (IH k eq_refl) as (l1 & l2 & -> & <- & N). exists (x :: l1), l2.
    split; [done|]. split; [done|]. by apply not_elem_of_cons.
Qed.

Lemma index_of_None server l : index_of server l = None → server ∉ l.
Proof.
  induction l as [|x l IH]; simpl; [intros; apply not_elem_of_nil|]. case_decide; [done|].
  destruct (index_of server l); [done|]. intros _. apply not_elem_of_cons. split; [done|by apply IH].
Qed.

Lemma array_of_insert r a l s : arr s = a → array_of (r <| arrays := <[a := l]> (arrays r) |>) s = l.
Proof. intros <-. unfold array_of. cbn [arrays]. change (arrays (r <| arrays := _ |>)) with (<[arr s := l]> (arrays r)). by rewrite lookup_insert_eq. Qed.

(** Removing a server from a list of a routing table drops its first
    occurrence and keeps the order of the rest; the work is done in the array that
    earlier copies of the list share, where everything behind the removed server
    moves down by one and the last element is left twice. *)
Theorem removeServerFromList_in_place s server r l1 l2 tail :
  array_of r s = (l1 ++ server :: l2) ++ tail → slen s = length (l1 ++ server :: l2) → server ∉ l1 →
  let '(s', r') := removeServerFromList s server r in
  contents r' s' = l1 ++ l2 ∧
  contents r' s = l1 ++ l2 ++ [default server (last l2)].
Proof.
  intros Ea El Hn.
  assert (contents r s = l1 ++ server :: l2) as Ec.
  { unfold contents. by rewrite Ea, El, take_app_length. }
  assert (index_of server (contents r s) = Some (length l1)) as Ei.
  { rewrite Ec. clear -Hn. induction l1 as [|x l1 IH]; simpl; [by rewrite decide_True|].
    apply not_elem_of_cons in Hn as [H1 H2]. rewrite decide_False by done. by rewrite IH. }
  unfold removeServerFromList. rewrite Ei.
  set (a := take (length l1) (array_of r s) ++ drop (S (length l1)) (take (slen s) (array_of r s)) ++
            drop (slen s - 1) (array_of r s)).
  assert (a = l1 ++ l2 ++ [default server (last l2)] ++ tail) as Ha.
  { unfold a. rewrite Ea, El, take_app_length.
    replace (take (length l1) ((l1 ++ server :: l2) ++ tail)) with l1
      by (by rewrite <- app_assoc, take_app_length).
    f_equal.
    replace (drop (S (length l1)) (l1 ++ server :: l2)) with l2
      by (rewrite drop_app_ge by lia; by replace (S (length l1) - length l1)%nat with 1%nat by lia).
    f_equal. rewrite length_app. simpl.
    rewrite drop_app_le by (rewrite length_app; simpl; lia). f_equal.
    rewrite drop_app_ge by lia.
    replace (length l1 + S (length l2) - 1 - length l1)%nat with (length l2) by lia.
    destruct l2 as [|y l2 _] using rev_ind; [done|]. rewrite last_snoc, length_app. simpl.
    replace (length l2 + 1)%nat with (S (length l2)) by lia. cbn [drop].
    by rewrite drop_app_length. }
  rewrite length_app in El. simpl in El.
  split; unfold contents; rewrite array_of_insert by done; rewrite Ha.
  - cbn [slen]. rewrite app_assoc, take_app_le by (rewrite length_app; lia).
    apply take_ge. rewrite length_app. lia.
  - rewrite !app_assoc, take_app_le by (rewrite !length_app; simpl; lia).
    rewrite <- app_assoc, take_ge; [done|]. rewrite !length_app. simpl. lia.
Qed.

Lemma removeServerFromList_in_place_witness :
  let r := (New "root") <| arrays := {[ 0%nat := ["a"; "b"; "c"] ]} |> in
  let s := mkSlice 0 3 in
  let '(s', r') := removeServerFromList s "a" r in
  contents r' s' = ["b"; "c"] ∧ contents r' s = ["b"; "c"; "c"].
Proof.
  apply (removeServerFromList_in_place (mkSlice 0 3) "a" _ [] ["b"; "c"] []); [done|done|apply not_elem_of_nil].
Defined.

(** * Times to live *)

(** A stored table is served exactly until its time to live has passed,
    counted in whole seconds, for every time to live the duration can hold;
    one second more and the multiplication wraps around, so that the table is
    never served at all. *)
Theorem stored_table_served r database ptr t now n :
  tables r !! ptr = Some t → database ≠ ""%string →
  (0 ≤ t_TimeToLive t ≤ 9223372036 →
     getTable n database (storeRoutingTable database ptr now r) = Some ptr ↔
     n / 1000000000 < now / 1000000000 + t_TimeToLive t) ∧
  (t_TimeToLive t = 9223372037 → now ≤ n →
     getTable n database (storeRoutingTable database ptr now r) = None).
Proof.
  intros Ht Hd.
  assert (getTable n database (storeRoutingTable database ptr now r) =
          if n / 1000000000 <? due now (t_TimeToLive t) then Some ptr else None) as ->.
  { unfold getTable, storeRoutingTable. rewrite Ht, decide_False by done.
    change (dbRouters (r <| dbRouters := _ |>)) with
      (<[database := mkDatabaseRouter (due now (t_TimeToLive t)) ptr]> (dbRouters r)).
    by rewrite lookup_insert_eq. }
  split.
  - intros Hl. assert (due now (t_TimeToLive t) = now / 1000000000 + t_TimeToLive t) as ->.
    { unfold due. assert (swrap 64 (t_TimeToLive t * 1000000000) = t_TimeToLive t * 1000000000) as ->.
      { apply swrap_small; [lia|]. unfold signed. change (2 ^ (64 - 1)) with 9223372036854775808. lia. }
      by rewrite Z.div_add. }
    destruct (Z.ltb_spec (n / 1000000000) (now / 1000000000 + t_TimeToLive t)); split; done || lia.
  - intros -> Hn. destruct (Z.ltb_spec (n / 1000000000) (due now 9223372037)) as [H|]; [|done].
    exfalso. unfold due in H. change (swrap 64 (9223372037 * 1000000000)) with (-9223372036709551616) in H.
    assert ((now + -9223372036709551616) / 1000000000 ≤ n / 1000000000)
      by (apply Z.div_le_mono; lia). lia.
Qed.

Lemma stored_table_served_witness :
  let t := mkTable 300 "neo4j" (mkSlice 0 0) (mkSlice 0 0) (mkSlice 0 0) in
  let r := (New "root") <| tables := {[ 7%nat := t ]} |> in
  getTable 299999999999 "neo4j" (storeRoutingTable "neo4j" 7 0 r) = Some 7%nat.
Proof.
  intros t r. apply (stored_table_served r "neo4j" 7 t 0 299999999999); [done|done|simpl; lia|done].
Defined.

(** * Discovery *)

(** The table behind a pointer, as a value. *)
Definition read_table (ptr : nat) (r : Router) : option RoutingTable :=
  t ← tables r !! ptr;
  Some (mkRoutingTable (t_TimeToLive t) (t_DatabaseName t) (contents r (t_Routers t))
          (contents r (t_Readers t)) (contents r (t_Writers t))).

Lemma alloc_contents l r : let '(s, r') := alloc l r in contents r' s = l.
Proof.
  unfold alloc, contents, array_of. cbn [slen arr]. change (arrays (_ <| nextRef := _ |>)) with (<[nextRef r := l]> (arrays r)).
  rewrite lookup_insert_eq. cbn [default]. by apply take_ge.
Qed.

Lemma alloc_table_reads t r : let '(ptr, r') := alloc_table t r in read_table ptr r' = Some t.
Proof.
  destruct t as [ttl db ro re wr], r as [root ? ? ? ? ts ars n]. simpl. unfold read_table. simpl.
  unfold constant. rewrite lookup_insert_eq. simpl. unfold contents, array_of. simpl. unfold constant.
  rewrite lookup_insert_eq. rewrite (lookup_insert_ne _ (S (S n)) (S n)), lookup_insert_eq by lia.
  rewrite (lookup_insert_ne _ (S (S n)) n), (lookup_insert_ne _ (S n) n), lookup_insert_eq by lia.
  simpl. by rewrite !take_ge by lia.
Qed.

(** The server is in no list of a table. *)
Definition unlisted (srv : string) (r : Router) : Prop :=
  ∀ ptr t, tables r !! ptr = Some t →
    srv ∉ contents r (t_Routers t) ∧ srv ∉ contents r (t_Readers t) ∧ srv ∉ contents r (t_Writers t).

(** The arrays of the tables are allocated. *)
Definition tidy (r : Router) : Prop :=
  ∀ ptr t, tables r !! ptr = Some t →
    (arr (t_Routers t) < nextRef r ∧ arr (t_Readers t) < nextRef r ∧ arr (t_Writers t) < nextRef r)%nat.

Lemma index_of_absent x l : x ∉ l → index_of x l = None.
Proof.
  induction l as [|y l IH]; [done|]. intros [Hy Hl]%not_elem_of_cons. simpl.
  rewrite decide_False by (intros ->; done). by rewrite IH.
Qed.

Lemma remove_unlisted s srv r : srv ∉ contents r s → removeServerFromList s srv r = (s, r).
Proof. intros Hs. unfold removeServerFromList. by rewrite index_of_absent. Qed.

Lemma InvalidateServer_unlisted srv r : unlisted srv r → InvalidateServer srv r = r.
Proof.
  intros Hu. unfold InvalidateServer. induction ((λ x, dr_table x.2) <$> _) as [|ptr ptrs IH]; [done|]. simpl.
  assert (invalidate_in srv r ptr = r) as ->; [|exact IH].
  unfold invalidate_in, on_table, removeRouter, removeReader, removeWriter.
  destruct (tables r !! ptr) as [t|] eqn:Et; [|done]. destruct (Hu ptr t Et) as (H1 & H2 & H3).
  rewrite remove_unlisted by done. destruct t as [ttl db ro re wr]. cbn in H2, H3 |- *. unfold constant.
  rewrite remove_unlisted by done. cbn. unfold constant. rewrite remove_unlisted by done. cbn. unfold constant.
  destruct r as [? ? ? ? ? ts ? ?]. cbn in Et |- *. unfold constant. by rewrite insert_id.
Qed.

Lemma invalidate_all_unlisted l r :
  Forall (λ srv, unlisted srv r) l → foldl (λ r srv, InvalidateServer srv r) r l = r.
Proof. induction 1 as [|srv l Hs _ IH]; [done|]. simpl. by rewrite InvalidateServer_unlisted. Qed.

Lemma alloc_contents_old l r s : (arr s < nextRef r)%nat → contents (alloc l r).2 s = contents r s.
Proof.
  intros Hs. unfold contents, array_of, alloc. cbn [snd].
  change (arrays (_ <| nextRef := _ |>)) with (<[nextRef r := l]> (arrays r)).
  by rewrite lookup_insert_ne by lia.
Qed.

Lemma alloc_tidy l r : tidy r → tidy (alloc l r).2.
Proof.
  intros Ht ptr t Et. destruct (Ht ptr t Et) as (? & ? & ?). change (nextRef (alloc l r).2) with (S (nextRef r)). lia.
Qed.

Lemma alloc_unlisted l r srv : tidy r → unlisted srv r → unlisted srv (alloc l r).2.
Proof.
  intros Ht Hu ptr t Et. destruct (Ht ptr t Et) as (? & ? & ?). rewrite !alloc_contents_old by done. by apply (Hu ptr).
Qed.

Section Discovery.
(** The pool, the routers and the hook of the client answer as they like. *)
Context {E : Type} (ask : string → string → E → answer * list string * E)
  (getRouters : option (E → list string * E)) (db : string).

(** The same, with a list of the routers asked so far. *)
Definition ask_logged (router database : string) (x : E * list string) : answer * list string * (E * list string) :=
  let '(a, lost, e) := ask router database x.1 in (a, lost, (e, x.2 ++ [router])).
Definition hook_logged : option (E * list string → list string * (E * list string)) :=
  (λ f x, let '(l, e) := f x.1 in (l, (e, x.2))) <$> getRouters.

(** The reference: ask one after the other until one gives a table or fails fatally,
    or until the context ends. *)
Fixpoint scan (l : list string) (e : E) : list string * option (error + RoutingTable) * E :=
  match l with
  | [] => ([], None, e)
  | x :: l =>
      let '(a, _, e) := ask x db e in
      match a with
      | Answered t => ([x], Some (inr t), e)
      | NoConnection _ (Some ctxErr) =>
          ([x], if IsFatalDuringDiscovery (wrapError x ctxErr) then Some (inl (wrapError x ctxErr)) else None, e)
      | Refused err | NoConnection err None =>
          if IsFatalDuringDiscovery err then ([x], Some (inl err), e)
          else let '(asked, d, e) := scan l e in (x :: asked, d, e)
      end
  end.

(** The known routers, then the initial one, then those of the hook, which is called
    only when it comes to that. *)
Definition discover (known : list string) (root : string) (e : E) :
    list string * option (error + RoutingTable) * E :=
  match scan known e with
  | (a, Some d, e) => (a, Some d, e)
  | (a, None, e) =>
      match scan [root] e, getRouters with
      | (b, None, e), Some f =>
          let '(l, e) := f e in let '(c, d, e) := scan l e in (a ++ b ++ c, d, e)
      | (b, d, e), _ => (a ++ b, d, e)
      end
  end.

(** [res] in state [r] is the decision [d]. *)
Definition decides (d : option (error + RoutingTable)) (res : result nat) (r : Router) : Prop :=
  match d with
  | Some (inr t) => ∃ ptr, res = inr ptr ∧ read_table ptr r = Some t
  | Some (inl e) => res = inl e ∧ IsFatalDuringDiscovery e = true
  | None => ∃ e, res = inl e ∧ IsFatalDuringDiscovery e = false
  end.

Lemma decides_decided d res r : decides d res r → decided res = match d with Some _ => true | None => false end.
Proof. destruct d as [[e|t]|]; [by intros [-> ?]|by intros (ptr & -> & _)|by intros (e & -> & ?)]. Qed.

Lemma wrapError_not_fatal x e : IsFatalDuringDiscovery e = false → IsFatalDuringDiscovery (wrapError x e) = false.
Proof. by destruct e. Qed.

(** What the pool reports concerns no table. *)
Record unconcerned (r : Router) : Prop := {
  un_tidy : tidy r;
  un_lost x e srv : srv ∈ (ask x db e).1.2 → unlisted srv r
}.

Lemma unconcerned_alloc l r : unconcerned r → unconcerned (alloc l r).2.
Proof.
  intros [Ht Hl]. split; [by apply alloc_tidy|]. intros x e srv Hs. apply alloc_unlisted; [done|by eapply Hl].
Qed.

(** One stage of the discovery, from the environment [e] and the log [log]. *)
Definition stage (l : list string) (e : E) (log : list string) (r : Router) (res : result nat)
    (x : Router * (E * list string)) : Prop :=
  let '(asked, d, e') := scan l e in
  x.2 = (e', log ++ asked) ∧ decides d res x.1 ∧ rootRouter x.1 = rootRouter r ∧ (d = None → unconcerned x.1).

Lemma loop_stage s n i err r e log :
  unconcerned r → IsFatalDuringDiscovery err = false →
  (i + n = slen s)%nat → (slen s ≤ length (array_of r s))%nat →
  let '(res, x) := readTable_loop ask_logged s db n i err (r, (e, log)) in
  stage (drop i (contents r s)) e log r res x.
Proof.
  intros Hr. revert i err e log. induction n as [|n IH]; intros i err e log Hf Hl Hb.
  - unfold contents. rewrite drop_ge by (rewrite length_take; lia). unfold stage. simpl. rewrite app_nil_r.
    split; [done|]. split; [by exists err|done].
  - destruct (lookup_lt_is_Some_2 (array_of r s) i) as [x Hx]; [lia|].
    assert (contents r s !! i = Some x) as Hc by (unfold contents; rewrite lookup_take_lt by lia; done).
    rewrite (drop_S _ _ _ Hc). cbn [readTable_loop]. unfold stage. cbn [scan]. rewrite Hx.
    change (default _ (Some x)) with x. unfold ask_logged. cbn [fst snd].
    pose proof (un_lost r Hr x e) as Hlost. destruct (ask x db e) as [[a lost] e1]. cbn [fst snd] in Hlost.
    rewrite invalidate_all_unlisted by (by apply Forall_forall). fold ask_logged.
    assert (Hnext : ∀ err', IsFatalDuringDiscovery err' = false →
      let '(res, x0) := readTable_loop ask_logged s db n (S i) (wrapError x err') (r, (e1, log ++ [x])) in
      let '(asked, d, e') := let '(asked, d, e2) := scan (drop (S i) (contents r s)) e1 in (x :: asked, d, e2) in
      x0.2 = (e', log ++ asked) ∧ decides d res x0.1 ∧ rootRouter x0.1 = rootRouter r ∧ (d = None → unconcerned x0.1)).
    { intros err' F. specialize (IH (S i) (wrapError x err') e1 (log ++ [x]) (wrapError_not_fatal x err' F) ltac:(lia) Hb).
      destruct (readTable_loop _ _ _ _ _ _ _) as [res x0]. unfold stage in IH.
      destruct (scan (drop (S i) (contents r s)) e1) as [[asked d] e2]. by rewrite <- app_assoc in IH. }
    destruct a as [err1 [c|]|err1|t]; unfold after_refusal.
    + destruct (IsFatalDuringDiscovery (wrapError x c)) eqn:F; (split; [done|]).
      * by repeat split.
      * split; [by eexists|done].
    + destruct (IsFatalDuringDiscovery err1) eqn:F; [by repeat split|by apply Hnext].
    + destruct (IsFatalDuringDiscovery err1) eqn:F; [by repeat split|by apply Hnext].
    + pose proof (alloc_table_reads t r) as AT. destruct (alloc_table t r) as [ptr r'] eqn:Et.
      split; [done|]. split; [by exists ptr|]. split; [|done]. by injection Et as <- <-.
Qed.

Lemma list_stage l r e log :
  unconcerned r → let '(res, x) := readTable_list ask_logged l db (r, (e, log)) in stage l e log r res x.
Proof.
  intros Hr. unfold readTable_list, readTable. cbn [fst snd].
  pose proof (unconcerned_alloc l r Hr) as Hr1. pose proof (alloc_contents l r) as C.
  destruct (alloc l r) as [s r1] eqn:A. cbn [snd] in Hr1.
  assert (slen s = length l ∧ rootRouter r1 = rootRouter r ∧ array_of r1 s = l) as (El & Er & Ea).
  { injection A as <- <-. split; [done|]. split; [done|]. unfold array_of. simpl. unfold constant.
    by rewrite lookup_insert_eq. }
  pose proof (loop_stage s (slen s) 0 (ReadRoutingTableError None "") r1 e log Hr1 eq_refl eq_refl) as L.
  specialize (L ltac:(rewrite Ea; lia)). rewrite drop_0, C in L.
  destruct (readTable_loop _ _ _ _ _ _ _) as [res x]. unfold stage in *.
  destruct (scan l e) as [[asked d] e']. destruct L as (-> & ? & E1 & ?). split_and!; try done. congruence.
Qed.

(** The stages after the known routers, against the rest of [discover]. *)
Lemma others_stage r e log :
  unconcerned r →
  let '(res, x) := readTable_others ask_logged hook_logged db (r, (e, log)) in
  let '(asked, d, e') := discover [] (rootRouter r) e in x.2 = (e', log ++ asked) ∧ decides d res x.1.
Proof.
  intros Hr. unfold readTable_others, discover. cbn [fst]. change (scan [] e) with ([] : list string, @None (error + RoutingTable), e).
  pose proof (list_stage [rootRouter r] r e log Hr) as S1.
  destruct (readTable_list ask_logged [rootRouter r] db (r, (e, log))) as [res [r1 x1]]. unfold stage in S1.
  destruct (scan [rootRouter r] e) as [[b d] e1]. cbn [fst snd] in S1. destruct S1 as (-> & D & _ & U).
  rewrite (decides_decided _ _ _ D). destruct d as [d|]; [by destruct getRouters|].
  unfold hook_logged. destruct getRouters as [f|]; [|done]. cbn [fmap option_fmap option_map fst snd].
  destruct (f e1) as [l e2]. pose proof (list_stage l r1 e2 (log ++ b) (U eq_refl)) as S2.
  destruct (readTable_list ask_logged l db (r1, (e2, log ++ b))) as [res2 [r2 x2]]. unfold stage in S2.
  destruct (scan l e2) as [[c d] e3]. destruct S2 as (E2 & D2 & _). cbn [fst snd] in *.
  by rewrite E2, <- app_assoc.
Qed.

(** The routers of the last known table. *)
Definition known_routers (d : option databaseRouter) (r : Router) : list string :=
  match d ≫= (λ d, tables r !! dr_table d) with Some t => contents r (t_Routers t) | None => [] end.

(** C32. Discovery asks the routers of the last known table, then the initial router,
    then those of the hook, in this order, each once; it stops at the first that
    returns a table or fails in a way that no other router can repair, and passes on
    to the next of the three when the context has ended.  The result is that table or
    that error, and another error when nobody decides.  Pool, routers and hook may
    answer anything.  One condition is needed: the servers that the pool reports as
    lost meanwhile are in no known table.  Those are removed from the array over which
    the loop is ranging ([known_router_skipped]); where no table is known, as at the
    start, it always holds.  (Slices, as in Go, end within their arrays, which are
    allocated.) *)
Theorem discovery_order d r e :
  tidy r → (∀ x e srv, srv ∈ (ask x db e).1.2 → unlisted srv r) →
  (∀ t, d ≫= (λ d, tables r !! dr_table d) = Some t →
        (slen (t_Routers t) ≤ length (array_of r (t_Routers t)))%nat) →
  let '(res, (r', (e', log))) := Router_readTable ask_logged hook_logged d db (r, (e, [])) in
  let '(asked, decision, e'') := discover (known_routers d r) (rootRouter r) e in
  log = asked ∧ e' = e'' ∧ decides decision res r'.
Proof.
  intros Ht Hlost Hw. assert (Hr : unconcerned r) by by split.
  assert (Hother : ∀ r1 e1 log, unconcerned r1 → rootRouter r1 = rootRouter r →
    let '(res, (r', (e', log'))) := readTable_others ask_logged hook_logged db (r1, (e1, log)) in
    let '(asked, d, e'') := discover [] (rootRouter r) e1 in log' = log ++ asked ∧ e' = e'' ∧ decides d res r').
  { intros r1 e1 log H1 E1. pose proof (others_stage r1 e1 log H1) as S. rewrite E1 in S.
    destruct (readTable_others _ _ _ _) as [res [r' [e' log']]]. destruct (discover [] (rootRouter r) e1) as [[asked dd] e''].
    destruct S as [S D]. by injection S as -> ->. }
  unfold Router_readTable, readTable_known, known_routers. cbn [fst].
  destruct (d ≫= (λ d, tables r !! dr_table d)) as [t|] eqn:Ed; [|by apply (Hother r e [])].
  specialize (Hw t eq_refl). destruct (Nat.ltb_spec 0 (slen (t_Routers t))).
  - pose proof (loop_stage (t_Routers t) (slen (t_Routers t)) 0 (ReadRoutingTableError None "") r e [] Hr eq_refl eq_refl Hw) as L.
    rewrite drop_0 in L. unfold readTable.
    destruct (readTable_loop ask_logged (t_Routers t) db _ 0 _ (r, (e, []))) as [res [r1 x1]].
    unfold stage in L. unfold discover. destruct (scan (contents r (t_Routers t)) e) as [[a dd] e1].
    destruct L as (E1 & D & Er & U). cbn [fst snd] in *. subst x1. rewrite (decides_decided _ _ _ D).
    destruct dd as [dd|]; [done|]. specialize (Hother r1 e1 a (U eq_refl) Er).
    unfold discover in Hother. change (scan [] e1) with ([] : list string, @None (error + RoutingTable), e1) in Hother.
    change ([] ++ a) with a. destruct (readTable_others _ _ _ _) as [res' [r' [e' log']]].
    destruct (scan [rootRouter r] e1) as [[b [d1|]] e2]; [by destruct getRouters|].
    destruct getRouters as [f|]; [|done]. destruct (f e2) as [l e3]. by destruct (scan l e3) as [[c d2] e4].
  - assert (contents r (t_Routers t) = []) as -> by (unfold contents; by replace (slen (t_Routers t)) with 0%nat by lia).
    by apply (Hother r e []).
Qed.
End Discovery.

(** The answers of three routers, the middle one alive. *)
Definition table_of (routers readers writers : list string) : RoutingTable :=
  mkRoutingTable 300 "neo4j" routers readers writers.
Definition unreachable : error := NetError false "dial".
Definition only_r1 (x : string) : answer :=
  if decide (x = "r1"%string) then Answered (table_of ["r1"] ["r1"] ["r1"]) else NoConnection unreachable None.

(** A router that knows the routers r0, r1 and r2. *)
Definition knows_three : Router :=
  let '(ptr, r) := alloc_table (table_of ["r0"; "r1"; "r2"] [] []) (New "root") in
  storeRoutingTable "neo4j" ptr 0 r.

(** An environment without a state; unless they are known, the pool reports the
    routers that it cannot reach. *)
Definition ask_only_r1 (router database : string) (e : unit) : answer * list string * unit :=
  (only_r1 router, if decide (router = "root"%string) then ["root"] else [], e).

Lemma discovery_order_witness :
  let '(_, (_, (_, log))) :=
    Router_readTable (ask_logged ask_only_r1) (hook_logged None) (dbRouters knows_three !! "neo4j") "neo4j"
      (knows_three, (tt, [])) in
  log = ["r0"; "r1"].
Proof.
  pose proof (discovery_order ask_only_r1 None "neo4j" (dbRouters knows_three !! "neo4j") knows_three tt) as H.
  assert (Hone : ∀ ptr t, tables knows_three !! ptr = Some t →
    t = mkTable 300 "neo4j" (mkSlice 0 3) (mkSlice 1 0) (mkSlice 2 0)).
  { intros ptr t Ht. change (tables knows_three) with ({[3%nat := mkTable 300 "neo4j" (mkSlice 0 3) (mkSlice 1 0) (mkSlice 2 0)]} : gmap nat table) in Ht.
    by apply lookup_singleton_Some in Ht as [_ <-]. }
  specialize (H ltac:(intros ptr t ->%Hone; vm_compute; lia)).
  specialize (H ltac:(intros x e srv Hs; unfold ask_only_r1 in Hs; simpl in Hs; case_decide;
    [apply list_elem_of_singleton in Hs as -> | by apply elem_of_nil in Hs];
    intros ptr t ->%Hone; split_and!; apply (bool_decide_unpack _); by vm_compute)).
  specialize (H ltac:(intros t Ht; vm_compute in Ht; injection Ht as <-; vm_compute; lia)).
  assert ((discover ask_only_r1 None "neo4j" (known_routers (dbRouters knows_three !! "neo4j") knows_three)
             (rootRouter knows_three) tt).1.1 = ["r0"; "r1"]) as Es by (by vm_compute).
  destruct (Router_readTable _ _ _ _ _) as [res [r' [e' log]]].
  destruct (discover _ _ _ _ _ _) as [[asked decision] e'']. cbn [fst] in Es. rewrite <- Es. apply H.
Defined.

(** As the pool does it: a router that cannot be reached is reported. *)
Definition ask_reporting (ans : string → answer) (router database : string) (log : list string) :
    answer * list string * list string :=
  (ans router, match ans router with NoConnection _ _ => [router] | _ => [] end, log ++ [router]).

(** A known router can be passed over: when the first of three known routers
    cannot be reached, the pool has it removed from the table, in the array that
    the loop of readTable is ranging over; the loop then reads the third router
    twice and never asks the second one, although it would answer, and discovery
    fails. *)
Theorem known_router_skipped :
  let '(res, (_, log)) :=
    Router_readTable (ask_reporting only_r1) None (dbRouters knows_three !! "neo4j") "neo4j" (knows_three, []) in
  log = ["r0"; "r2"; "r2"; "root"] ∧
  res = inl (ReadRoutingTableError (Some unreachable) "root") ∧
  known_routers (dbRouters knows_three !! "neo4j") knows_three = ["r0"; "r1"; "r2"].
Proof. by vm_compute. Qed.

(** * Readers and writers *)

Section Roles.
Context {E : Type} (ask : string → string → E → answer * list string * E)
  (getRouters : option (E → list string * E)) (now : E → Z * E)
  (bookmarksFn : E → option error * E) (sleep : E → E).
(** [slept e] counts the calls of [sleep]. *)
Context (slept : E → nat).
Hypothesis slept_sleep : ∀ e, slept (sleep e) = S (slept e).
Hypothesis slept_ask : ∀ x db e, slept (ask x db e).2 = slept e.
Hypothesis slept_hook : ∀ f e, getRouters = Some f → slept (f e).2 = slept e.
Hypothesis slept_now : ∀ e, slept (now e).2 = slept e.
Hypothesis slept_bookmarks : ∀ e, slept (bookmarksFn e).2 = slept e.

Lemma slept_loop s db n i err x : slept (readTable_loop ask s db n i err x).2.2 = slept x.2.
Proof.
  revert i err x. induction n as [|n IH]; intros i err [r e]; [done|]. cbn [readTable_loop].
  pose proof (slept_ask (default ""%string (array_of r s !! i)) db e) as H.
  destruct (ask _ db e) as [[a lost] e1]. cbn [snd] in H |- *. rewrite <- H.
  destruct a as [err1 [c|]|err1|t]; [done| | |by destruct (alloc_table t _)];
    unfold after_refusal; destruct (IsFatalDuringDiscovery err1); try done; by rewrite IH.
Qed.

Lemma slept_list l db x : slept (readTable_list ask l db x).2.2 = slept x.2.
Proof. unfold readTable_list, readTable. destruct (alloc l x.1). by rewrite slept_loop. Qed.

Lemma slept_others db x : slept (readTable_others ask getRouters db x).2.2 = slept x.2.
Proof.
  unfold readTable_others. pose proof (slept_list [rootRouter x.1] db x) as H.
  destruct (readTable_list ask [rootRouter x.1] db x) as [res x1]. cbn [snd] in H.
  destruct (decided res); [done|]. destruct getRouters as [f|] eqn:Ef; [|done].
  pose proof (slept_hook f x1.2 eq_refl) as H'. destruct (f x1.2) as [l e]. cbn [snd] in H'.
  rewrite slept_list. cbn [snd]. congruence.
Qed.

Lemma slept_readTable d db x : slept (Router_readTable ask getRouters d db x).2.2 = slept x.2.
Proof.
  unfold Router_readTable, readTable_known.
  destruct (d ≫= _) as [t|]; [|by rewrite slept_others].
  destruct (0 <? slen (t_Routers t))%nat; [|by rewrite slept_others]. unfold readTable.
  pose proof (slept_loop (t_Routers t) db (slen (t_Routers t)) 0 (ReadRoutingTableError None "") x) as H.
  destruct (readTable_loop _ _ _ _ _ _ x) as [res x1]. cbn [snd] in H.
  destruct (decided res); [done|]. by rewrite slept_others.
Qed.

Lemma slept_table sel x : slept (getOrUpdateTable ask getRouters now bookmarksFn sel x).2.2 = slept x.2.
Proof.
  destruct x as [r e]. unfold getOrUpdateTable, updateTable. pose proof (slept_now e) as H.
  destruct (now e) as [n e1]. cbn [snd] in H. destruct (getTableLocked n _); [done|].
  pose proof (slept_bookmarks e1) as H1. destruct (bookmarksFn e1) as [[err|] e2]; cbn [snd] in *; [congruence|].
  pose proof (slept_readTable (dbRouters r !! ds_Name sel) (uk_database (update_key sel)) (r, e2)) as H2.
  destruct (Router_readTable _ _ _ _ _) as [[err|ptr] [r3 e3]]; cbn [snd] in *; [congruence|].
  pose proof (slept_now e3) as H3. destruct (now e3). cbn [snd] in *. congruence.
Qed.

Lemma slept_retry field inv sel n ptr x :
  let '(res, x') := retry_role ask getRouters now bookmarksFn sleep field inv sel n ptr x in
  (slept x'.2 ≤ slept x.2 + (n - 1))%nat ∧
  ∀ ptr', res = inr ptr' → role_of field ptr' x'.1 = [] → slept x'.2 = (slept x.2 + (n - 1))%nat.
Proof.
  revert ptr x. induction n as [|n IH]; intros ptr x; cbn [retry_role].
  - case_decide; (split; [lia|]); intros ptr' [= <-]; [intros; lia|done].
  - case_decide as D; [|split; [lia|]; by intros ptr' [= <-]]. destruct n as [|n].
    + split; [lia|]. intros ptr' _ _. lia.
    + set (x0 := (Invalidate (inv ptr x.1) x.1, sleep x.2)).
      pose proof (slept_table sel x0) as H.
      change (slept x0.2) with (slept (sleep x.2)) in H. rewrite slept_sleep in H.
      destruct (getOrUpdateTable _ _ _ _ sel x0) as [[e|ptr1] x1]; cbn [snd] in H.
      * split; [lia|done].
      * specialize (IH ptr1 x1). destruct (retry_role _ _ _ _ _ _ _ _ _ _ x1) as [res x2].
        destruct IH as [I1 I2]. split; [lia|]. intros ptr' E1 E2. rewrite (I2 ptr' E1 E2). lia.
Qed.

Lemma retry_error field inv sel n ptr x e :
  (retry_role ask getRouters now bookmarksFn sleep field inv sel n ptr x).1 = inl e →
  ∃ x1 x2, getOrUpdateTable ask getRouters now bookmarksFn sel x1 = (inl e, x2).
Proof.
  revert ptr x. induction n as [|n IH]; intros ptr x; cbn [retry_role]; case_decide; try done.
  destruct n as [|n]; [done|].
  destruct (getOrUpdateTable _ _ _ _ sel _) as [[e1|ptr1] x1] eqn:E1; [|by apply IH].
  intros [= ->]. eauto.
Qed.

(** Waiting for readers is bounded: a call of GetOrUpdateReaders sleeps at most
    99 times. When it returns readers there is at least one; it reports that there
    are none only after all 99 retries. *)
Theorem readers_bounded sel x :
  let '(res, x') := GetOrUpdateReaders ask getRouters now bookmarksFn sleep sel x in
  (slept x'.2 ≤ slept x.2 + 99)%nat ∧
  match res with
  | inr l => l ≠ []
  | inl e => slept x'.2 = (slept x.2 + 99)%nat ∨
             (∃ x1 x2, getOrUpdateTable ask getRouters now bookmarksFn sel x1 = (inl e, x2))
  end.
Proof.
  unfold GetOrUpdateReaders, getOrUpdateRole. pose proof (slept_table sel x) as H.
  destruct (getOrUpdateTable ask getRouters now bookmarksFn sel x) as [[e|ptr] x1] eqn:Et; cbn [snd] in H.
  { split; [lia|]. right. eauto. }
  pose proof (slept_retry t_Readers name_of sel missingReaderRetries ptr x1) as R.
  pose proof (retry_error t_Readers name_of sel missingReaderRetries ptr x1) as Er.
  destruct (retry_role _ _ _ _ _ _ _ _ _ _ x1) as [[e|ptr'] x2]; destruct R as [R1 R2];
    change (missingReaderRetries - 1)%nat with 99%nat in *.
  { split; [lia|]. right. by apply Er. }
  case_decide as D; (split; [lia|]); [|done]. left. rewrite (R2 ptr' eq_refl D). lia.
Qed.
End Roles.

(** The environment of a fixed time, in which no router is asked silently. *)
Definition fixed_now (n : Z) (log : list string) : Z * list string := (n, log).
Definition no_bookmarks (log : list string) : option error * list string := (None, log).

Section Alias.
Context (ask : string → string → list string → answer * list string * list string)
  (getRouters : option (list string → list string * list string)) (n : Z).

Notation readers := (GetOrUpdateReaders ask getRouters (fixed_now n) no_bookmarks id).

Lemma alias_retry sel ptr t r k log :
  dbRouters r !! ds_Name sel ≫= (λ d, getTableLocked n (Some d)) = Some ptr →
  tables r !! ptr = Some t → contents r (t_Readers t) = [] →
  dbRouters r !! t_DatabaseName t = None →
  retry_role ask getRouters (fixed_now n) no_bookmarks id t_Readers name_of sel k ptr (r, log) = (inr ptr, (r, log)).
Proof.
  intros Hd Ht Hc Hn. revert log. induction k as [|[|k] IH]; intros log; simpl.
  all: assert (role_of t_Readers ptr r = []) as Hr by (unfold role_of; by rewrite Ht).
  all: rewrite decide_True by done; try done.
  assert (Invalidate (name_of ptr r) r = r) as ->.
  { unfold Invalidate, name_of. by rewrite Ht, Hn. }
  unfold getOrUpdateTable. cbn [fixed_now id].
  destruct (dbRouters r !! ds_Name sel) as [d|]; simpl in Hd |- *; [|done].
  rewrite Hd. apply IH.
Qed.

(** For a database selected by an alias, missing readers are never looked for:
    the retries of GetOrUpdateReaders invalidate the table under the name the
    server resolved the alias to, but the table is cached under the alias. While
    the cached table is current, all retries see the same empty table and the call
    fails without asking any router. *)
Theorem alias_never_refreshed sel d t r log :
  dbRouters r !! ds_Name sel = Some d → n / 1000000000 < dueUnix d →
  tables r !! dr_table d = Some t → contents r (t_Readers t) = [] →
  dbRouters r !! t_DatabaseName t = None →
  readers sel (r, log) = (inl (ReadRoutingTableError (Some (ErrorString "no readers")) (rootRouter r)), (r, log)).
Proof.
  intros Hd Hl Ht Hc Hn. apply Z.ltb_lt in Hl.
  assert (getOrUpdateTable ask getRouters (fixed_now n) no_bookmarks sel (r, log) = (inr (dr_table d), (r, log))) as Et.
  { unfold getOrUpdateTable. simpl. rewrite Hd. simpl. by rewrite Hl. }
  unfold GetOrUpdateReaders, getOrUpdateRole. rewrite Et. rewrite (alias_retry sel (dr_table d) t).
  - rewrite decide_True by (unfold role_of; cbn [fst]; by rewrite Ht). done.
  - rewrite Hd. simpl. by rewrite Hl.
  - done.
  - done.
  - done.
Qed.
End Alias.

(** A table without readers that is cached under the alias "home". *)
Definition alias_router : Router :=
  let '(ptr, r) := alloc_table (table_of ["r0"] [] ["r0"]) (New "root") in
  storeRoutingTable "home" ptr 0 r.
Definition home_selection : DatabaseSelection := mkDatabaseSelection "home" false "" "".

(** Every router would answer with readers. *)
Definition all_fine (x : string) : answer := Answered (table_of ["r0"] ["r0"] ["r0"]).

Lemma alias_never_refreshed_witness :
  (GetOrUpdateReaders (ask_reporting all_fine) None (fixed_now 0) no_bookmarks id home_selection (alias_router, [])).2.2 = [].
Proof.
  rewrite (alias_never_refreshed (ask_reporting all_fine) None 0 home_selection (mkDatabaseRouter 300 3)
    (mkTable 300 "neo4j" (mkSlice 0 1) (mkSlice 1 0) (mkSlice 2 1)) alias_router []); by vm_compute.
Defined.

(** Sleeping is counted, everything else is free. *)
Lemma readers_bounded_witness :
  let ask := (λ _ _ k, (all_fine "x", [], k)) : string → string → nat → answer * list string * nat in
  let '(res, x') := GetOrUpdateReaders ask None (λ k, (0, k)) (λ k, (None, k)) S
                      (mkDatabaseSelection "neo4j" false "" "") (New "root", 0%nat) in
  res = inr ["r0"] ∧ (x'.2 ≤ 99)%nat.
Proof.
  intros ask.
  pose proof (readers_bounded ask None (λ k, (0, k)) (λ k, (None, k)) S (λ k, k)
    (λ _, eq_refl) (λ _ _ _, eq_refl) (λ f e H, ltac:(discriminate H)) (λ _, eq_refl) (λ _, eq_refl)
    (mkDatabaseSelection "neo4j" false "" "") (New "root", 0%nat)) as H.
  destruct (GetOrUpdateReaders _ _ _ _ _ _ _) as [res x'] eqn:E. split; [|apply H].
  by vm_compute in E; injection E as <- _.
Defined.
