(* ===== verification/RouterUpdates.v ===== *)
(** The update protocol of [getOrUpdateTable] (neo4j/internal/router/router.go):
    goroutines that need the same table let one of them read it and wait on a
    channel each, which the reader closes when it is done.

    The sections under the lock are the steps; between them the other operations
    of the router may run. *)

From S2P Require Import Prelude Packer Values Errors Router.
#[local] Open Scope Z_scope.
#[local] Open Scope go_scope.
Import router.

(** Where a call of [getOrUpdateTable] is. *)
Inductive caller : Type :=
| Entering (sel : DatabaseSelection)             (* at the top of the loop, about to hold the lock *)
| Awaiting (sel : DatabaseSelection) (ch : nat)  (* in the select *)
| Reading (sel : DatabaseSelection)              (* in updateTable *)
| Done (res : option nat).                       (* returned; None for the errors *)

Record world : Type := mkWorld { w_router : Router; w_callers : list caller }.

Module updates.

(** The section from the top of the loop to the unlock. *)
Definition enter (now : Z) (sel : DatabaseSelection) (r : Router) : caller * Router :=
  match getTable now (ds_Name sel) r with
  | Some ptr => (Done (Some ptr), r)
  | None =>
      let key := update_key sel in
      match updating r !! key with
      | Some waiters =>
          let ch := nextChan r in
          (Awaiting sel ch,
           r <| updating := <[key := waiters ++ [ch]]> (updating r) |> <| nextChan := S ch |>)
      | None => (Reading sel, r <| updating := <[key := []]> (updating r) |>)
      end
  end.

(** [close(waiter)] for each; closing a closed channel panics. *)
Fixpoint close_all (waiters closed : list nat) : option (list nat) :=
  match waiters with
  | [] => Some closed
  | ch :: waiters => if decide (ch ∈ closed) then None else close_all waiters (ch :: closed)
  end.

(** The section after [updateTable]; [None] is a panic. *)
Definition finish (sel : DatabaseSelection) (r : Router) : option Router :=
  let key := update_key sel in
  closed ← close_all (default [] (updating r !! key)) (closedChans r);
  Some (r <| closedChans := closed |> <| updating := delete key (updating r) |>).

Inductive event : Type :=
| Call (sel : DatabaseSelection)
| Enter (i : nat) (now : Z)
| Wake (i : nat)
| Expire (i : nat)
| Finish (i : nat) (res : option nat)
| Fetched (t : RoutingTable)
| Stored (database : string) (ptr : nat) (now : Z)
| Invalidated (database : string)
| Lost (server : string)
| LostWriter (db server : string)
| LostReader (db server : string)
| Cleaned (now : Z).

Inductive outcome : Type := Disabled | Panic | Next (w : world).

Definition others (ev : event) (r : Router) : Router :=
  match ev with
  | Fetched t => (alloc_table t r).2
  | Stored database ptr now => storeRoutingTable database ptr now r
  | Invalidated database => Invalidate database r
  | Lost server => InvalidateServer server r
  | LostWriter db server => InvalidateWriter db server r
  | LostReader db server => InvalidateReader db server r
  | Cleaned now => CleanUp now r
  | _ => r
  end.

Definition step (ev : event) (w : world) : outcome :=
  let r := w_router w in
  let l := w_callers w in
  match ev with
  | Call sel => Next (mkWorld r (l ++ [Entering sel]))
  | Enter i now =>
      match l !! i with
      | Some (Entering sel) => let '(t, r) := enter now sel r in Next (mkWorld r (<[i := t]> l))
      | _ => Disabled
      end
  | Wake i =>
      match l !! i with
      | Some (Awaiting sel ch) =>
          if decide (ch ∈ closedChans r) then Next (mkWorld r (<[i := Entering sel]> l)) else Disabled
      | _ => Disabled
      end
  | Expire i =>
      match l !! i with
      | Some (Awaiting _ _) => Next (mkWorld r (<[i := Done None]> l))
      | _ => Disabled
      end
  | Finish i res =>
      match l !! i with
      | Some (Reading sel) =>
          match finish sel r with
          | Some r => Next (mkWorld r (<[i := Done res]> l))
          | None => Panic
          end
      | _ => Disabled
      end
  | _ => Next (mkWorld (others ev r) l)
  end.

Inductive reachable (root : string) : world → Prop :=
| reach_new : reachable root (mkWorld (New root) [])
| reach_step w ev w' : reachable root w → step ev w = Next w' → reachable root w'.

(** * The invariant *)

(** The keys being read by callers. *)
Definition reads (t : caller) : list updateKey :=
  match t with Reading sel => [update_key sel] | _ => [] end.

Definition uview (r : Router) : gmap updateKey (list nat) * list nat * nat :=
  (updating r, closedChans r, nextChan r).

(** The channels of waiting callers, with what they wait for. *)
Definition covered (u : gmap updateKey (list nat)) (closed : list nat) (t : caller) : Prop :=
  match t with
  | Awaiting sel ch => ch ∈ closed ∨ ∃ ws, u !! update_key sel = Some ws ∧ ch ∈ ws
  | _ => True
  end.

Record UInv (v : gmap updateKey (list nat) * list nat * nat) (keys : list updateKey) (l : list caller) : Prop := {
  u_keys : NoDup keys;
  u_dom k : k ∈ keys ↔ is_Some (v.1.1 !! k);
  u_nodup k ws : v.1.1 !! k = Some ws → NoDup ws;
  u_open k ws ch : v.1.1 !! k = Some ws → ch ∈ ws → ch ∉ v.1.2 ∧ (ch < v.2)%nat;
  u_disjoint k1 k2 ws1 ws2 ch :
    v.1.1 !! k1 = Some ws1 → v.1.1 !! k2 = Some ws2 → ch ∈ ws1 → ch ∈ ws2 → k1 = k2;
  u_closed ch : ch ∈ v.1.2 → (ch < v.2)%nat;
  u_covered : Forall (covered v.1.1 v.1.2) l
}.

Lemma close_all_Some ws closed :
  NoDup ws → (∀ ch, ch ∈ ws → ch ∉ closed) → ∃ closed', close_all ws closed = Some closed' ∧
  ∀ ch, ch ∈ closed' ↔ ch ∈ ws ∨ ch ∈ closed.
Proof.
  revert closed. induction ws as [|ch ws IH]; intros closed N D; simpl.
  - exists closed. split; [done|]. intros ch. split; [by right|]. by intros [?%elem_of_nil|].
  - apply NoDup_cons in N as [N1 N2]. rewrite decide_False by (apply D; left).
    destruct (IH (ch :: closed) N2) as (c' & -> & H).
    { intros x Hx [->|H]%elem_of_cons; [done|]. by apply (D x); [right|]. }
    exists c'. split; [done|]. intros x. rewrite H, !elem_of_cons. tauto.
Qed.

Lemma others_uview ev r : uview (others ev r) = uview r.
Proof.
  assert (∀ s srv r, uview (removeServerFromList s srv r).2 = uview r) as Hs.
  { intros s srv r0. unfold removeServerFromList. by destruct (index_of srv (contents r0 s)). }
  assert (∀ srv t r, uview (removeReader srv t r).2 = uview r) as H1.
  { intros srv t r0. unfold removeReader. pose proof (Hs (t_Readers t) srv r0). by destruct (removeServerFromList _ srv r0). }
  assert (∀ srv t r, uview (removeWriter srv t r).2 = uview r) as H2.
  { intros srv t r0. unfold removeWriter. pose proof (Hs (t_Writers t) srv r0). by destruct (removeServerFromList _ srv r0). }
  assert (∀ srv t r, uview (removeRouter srv t r).2 = uview r) as H3.
  { intros srv t r0. unfold removeRouter. pose proof (Hs (t_Routers t) srv r0). by destruct (removeServerFromList _ srv r0). }
  assert (∀ ptr f r, (∀ t r, uview (f t r).2 = uview r) → uview (on_table ptr f r) = uview r) as Ho.
  { intros ptr f r0 Hf. unfold on_table. destruct (tables r0 !! ptr) as [t|]; [|done].
    specialize (Hf t r0). by destruct (f t r0). }
  destruct ev; simpl; try done.
  - unfold storeRoutingTable. by destruct (tables r !! ptr).
  - unfold Invalidate. by destruct (dbRouters r !! database).
  - unfold InvalidateServer. generalize ((λ x : string * databaseRouter, dr_table x.2) <$> map_to_list (dbRouters r)).
    intros ptrs. revert r. induction ptrs as [|ptr ptrs IH]; intros r; [done|]. simpl. rewrite IH.
    unfold invalidate_in. apply Ho. intros t r0.
    pose proof (H3 server t r0) as E3. destruct (removeRouter server t r0) as [t1 r1].
    pose proof (H1 server t1 r1) as E1. destruct (removeReader server t1 r1) as [t2 r2].
    rewrite H2. cbn [snd] in *. congruence.
  - unfold InvalidateWriter. destruct (dbRouters r !! db); [by apply Ho|done].
  - unfold InvalidateReader. destruct (dbRouters r !! db); [by apply Ho|done].
Qed.

Lemma UInv_perm v K K' l l' : UInv v K l → K ≡ₚ K' → l ≡ₚ l' → UInv v K' l'.
Proof.
  intros [] E1 E2. split; try done.
  - by rewrite <- E1.
  - intros k. by rewrite <- E1.
  - by rewrite <- E2.
Qed.

(** A caller that moves on without a channel or a key to account for. *)
Lemma UInv_move v K t t' L : UInv v (reads t ++ K) (t :: L) → reads t' = reads t → covered v.1.1 v.1.2 t' →
  UInv v (reads t' ++ K) (t' :: L).
Proof.
  intros [K1 K2 K3 K4 K5 K6 K7] Er Hc. apply Forall_cons in K7 as [_ K7].
  split; rewrite ?Er; try done. by constructor.
Qed.

Lemma UInv_await r sel ws K L :
  UInv (uview r) K (Entering sel :: L) → updating r !! update_key sel = Some ws →
  UInv (<[update_key sel := ws ++ [nextChan r]]> (updating r), closedChans r, S (nextChan r)) K
       (Awaiting sel (nextChan r) :: L).
Proof.
  intros [K1 K2 K3 K4 K5 K6 K7] E. set (key := update_key sel) in *. cbn [uview fst snd] in *.
  assert (∀ k ws' ch, updating r !! k = Some ws' → ch ∈ ws' → ch ≠ nextChan r) as Fr.
  { intros k ws' ch H Hc ->. destruct (K4 _ _ _ H Hc). lia. }
  assert (∀ k ws' ch, <[key := ws ++ [nextChan r]]> (updating r) !! k = Some ws' → ch ∈ ws' →
            (k = key ∧ ch = nextChan r) ∨ (∃ ws0, updating r !! k = Some ws0 ∧ ch ∈ ws0)) as In.
  { intros k ws' ch [[<- <-]|[? H]]%lookup_insert_Some Hc; [|by right; eauto].
    apply elem_of_app in Hc as [Hc|Hc%list_elem_of_singleton]; [right; eauto|by left]. }
  split; cbn [fst snd]; try done.
  - intros k. rewrite K2, lookup_insert_is_Some'. split; [by right|]. intros [<-|]; [by rewrite E|done].
  - intros k ws' [[<- <-]|[? H]]%lookup_insert_Some; [|by apply (K3 k)].
    apply NoDup_app. split; [by apply (K3 key)|]. split; [|apply NoDup_singleton].
    intros ch Hc ->%list_elem_of_singleton. by apply (Fr key ws (nextChan r)).
  - intros k ws' ch H Hc. destruct (In _ _ _ H Hc) as [[-> ->]|(ws0 & H0 & Hc0)].
    + split; [|lia]. intros Hx%K6. lia.
    + destruct (K4 _ _ _ H0 Hc0). split; [done|lia].
  - intros k1 k2 ws1 ws2 ch H1 H2 C1 C2.
    destruct (In _ _ _ H1 C1) as [[-> ->]|(w1 & A1 & B1)], (In _ _ _ H2 C2) as [[-> E2]|(w2 & A2 & B2)]; try done.
    + by destruct (Fr _ _ _ A2 B2).
    + subst. by destruct (Fr _ _ _ A1 B1).
    + by eapply K5.
  - intros ch H%K6. lia.
  - apply Forall_cons in K7 as [_ K7]. constructor.
    + right. exists (ws ++ [nextChan r]). rewrite lookup_insert_eq. split; [done|]. apply elem_of_app. right. by left.
    + eapply Forall_impl; [exact K7|]. intros [| sel' ch| |]; try done. intros [?|(ws' & H & Hc)]; [by left|right].
      destruct (decide (update_key sel' = key)) as [Ek|Ek].
      * exists (ws ++ [nextChan r]). fold key. rewrite Ek, lookup_insert_eq. split; [done|].
        rewrite Ek, E in H. injection H as ->. apply elem_of_app. by left.
      * exists ws'. by rewrite lookup_insert_ne.
Qed.

Lemma UInv_read r sel K L :
  UInv (uview r) K (Entering sel :: L) → updating r !! update_key sel = None →
  UInv (<[update_key sel := []]> (updating r), closedChans r, nextChan r) (update_key sel :: K) (Reading sel :: L).
Proof.
  intros [K1 K2 K3 K4 K5 K6 K7] E. set (key := update_key sel) in *. cbn [uview fst snd] in *.
  assert (∀ k ws' ch, <[key := []]> (updating r) !! k = Some ws' → ch ∈ ws' → updating r !! k = Some ws') as In.
  { intros k ws' ch [[<- <-]|[? H]]%lookup_insert_Some Hc; [by apply elem_of_nil in Hc|done]. }
  split; cbn [fst snd]; try done.
  - constructor; [|done]. intros H%K2. rewrite E in H. by apply is_Some_None in H.
  - intros k. rewrite elem_of_cons, K2, lookup_insert_is_Some'. naive_solver.
  - intros k ws' [[<- <-]|[? H]]%lookup_insert_Some; [constructor|by apply (K3 k)].
  - intros k ws' ch H Hc. by eapply K4; [eapply In|].
  - intros k1 k2 ws1 ws2 ch H1 H2 C1 C2. eapply K5; [by eapply In|by eapply In|done|done].
  - apply Forall_cons in K7 as [_ K7]. constructor; [done|].
    eapply Forall_impl; [exact K7|]. intros [| sel' ch| |]; try done. intros [?|(ws' & H & Hc)]; [by left|right].
    exists ws'. rewrite lookup_insert_ne; [done|]. intros Ek. fold key in Ek. rewrite <- Ek, E in H. done.
Qed.

Lemma UInv_finish r sel K L res :
  UInv (uview r) (update_key sel :: K) (Reading sel :: L) →
  ∃ r', finish sel r = Some r' ∧ UInv (uview r') K (Done res :: L).
Proof.
  intros [K1 K2 K3 K4 K5 K6 K7]. unfold finish. set (key := update_key sel) in *. cbn [uview fst snd] in *.
  destruct (proj1 (K2 key)) as [ws E]; [left|]. rewrite E. change (default [] (Some ws)) with ws.
  destruct (close_all_Some ws (closedChans r)) as (closed' & -> & Hc).
  { by apply (K3 key). } { intros ch H. by apply (K4 key ws). }
  eexists. split; [done|]. apply NoDup_cons in K1 as [N1 N2].
  change (uview _) with (delete key (updating r), closed', nextChan r). split; cbn [fst snd]; try done.
  - intros k. rewrite lookup_delete_is_Some, <- K2, elem_of_cons. split; [|by intros [? [->|?]]].
    intros H. split; [by intros <-|by right].
  - intros k ws' [_ H]%lookup_delete_Some. by apply (K3 k).
  - intros k ws' ch [Hk H]%lookup_delete_Some C. destruct (K4 _ _ _ H C) as [C1 C2]. split; [|done].
    intros [C3|]%Hc; [|done]. by apply Hk, (K5 _ _ _ _ ch E H).
  - intros k1 k2 ws1 ws2 ch [_ H1]%lookup_delete_Some [_ H2]%lookup_delete_Some. by eapply K5.
  - intros ch [H|H]%Hc; [by destruct (K4 _ _ _ E H)|by apply K6].
  - apply Forall_cons in K7 as [_ K7]. constructor; [done|].
    eapply Forall_impl; [exact K7|]. intros [| sel' ch| |]; try done. intros [?|(ws' & H & C)].
    + left. apply Hc. by right.
    + destruct (decide (update_key sel' = key)) as [Ek|Ek].
      * left. apply Hc. left. rewrite Ek, E in H. by injection H as ->.
      * right. exists ws'. by rewrite lookup_delete_ne.
Qed.

Definition all_reads (w : world) : list updateKey := w_callers w ≫= reads.
Definition world_inv (w : world) : Prop := UInv (uview (w_router w)) (all_reads w) (w_callers w).

Lemma reads_middle l1 t l2 : (l1 ++ t :: l2) ≫= reads ≡ₚ reads t ++ ((l1 ++ l2) ≫= reads).
Proof. rewrite !bind_app, bind_cons. by rewrite Permutation_app_swap_app. Qed.

(** The invariant around one caller. *)
Lemma world_focus r l i t :
  world_inv (mkWorld r l) → l !! i = Some t →
  ∃ L, UInv (uview r) (reads t ++ (L ≫= reads)) (t :: L) ∧
       ∀ r' t', UInv (uview r') (reads t' ++ (L ≫= reads)) (t' :: L) → world_inv (mkWorld r' (<[i := t']> l)).
Proof.
  intros W Ei. apply list_elem_of_split_length in Ei as (l1 & l2 & -> & ->). exists (l1 ++ l2). split.
  - eapply UInv_perm; [exact W|apply reads_middle|]. symmetry. apply Permutation_middle.
  - intros r' t' I. rewrite insert_app_r_alt, Nat.sub_diag by lia. simpl.
    eapply UInv_perm; [exact I|symmetry; apply reads_middle|]. apply Permutation_middle.
Qed.

Lemma updates_step_inv ev w : world_inv w → match step ev w with Next w' => world_inv w' | Panic => False | Disabled => True end.
Proof.
  intros W. destruct w as [r l].
  assert (∀ ev, world_inv (mkWorld (others ev r) l)) as Ho.
  { intros ev'. unfold world_inv. simpl. by rewrite others_uview. }
  destruct ev; cbn [step w_router w_callers]; try apply Ho.
  - unfold world_inv, all_reads in *. simpl in *. rewrite bind_app. cbn [mbind list_bind reads app].
    rewrite app_nil_r. destruct W as [K1 K2 K3 K4 K5 K6 K7]. split; try done. apply Forall_app. split; [done|by constructor].
  - destruct (l !! i) as [[sel| | |]|] eqn:Ei; try done. destruct (world_focus _ _ _ _ W Ei) as (L & I & F).
    unfold enter. destruct (getTable now (ds_Name sel) r); [by apply F, (UInv_move _ _ (Entering sel))|].
    destruct (updating r !! update_key sel) eqn:E; apply F; [by apply (UInv_await r)|by apply (UInv_read r)].
  - destruct (l !! i) as [[|sel ch| |]|] eqn:Ei; try done. destruct (world_focus _ _ _ _ W Ei) as (L & I & F).
    case_decide; [|done]. by apply F, (UInv_move _ _ (Awaiting sel ch)).
  - destruct (l !! i) as [[|sel ch| |]|] eqn:Ei; try done. destruct (world_focus _ _ _ _ W Ei) as (L & I & F).
    by apply F, (UInv_move _ _ (Awaiting sel ch)).
  - destruct (l !! i) as [[| |sel|]|] eqn:Ei; try done. destruct (world_focus _ _ _ _ W Ei) as (L & I & F).
    destruct (UInv_finish r sel _ L res I) as (r' & -> & I'). by apply F.
Qed.

Lemma updates_reachable_inv root w : reachable root w → world_inv w.
Proof.
  induction 1 as [|w ev w' _ IH E].
  - split; simpl.
    + constructor.
    + intros k. split; [by intros ?%elem_of_nil|]. rewrite lookup_empty. by intros [? [=]].
    + intros k ws. by rewrite lookup_empty.
    + intros k ws ch. by rewrite lookup_empty.
    + intros k1 k2 ws1 ws2 ch. by rewrite lookup_empty.
    + by intros ? ?%elem_of_nil.
    + constructor.
  - pose proof (updates_step_inv ev w IH) as S. by rewrite E in S.
Qed.

(** C14. Sharing a read of a routing table is safe: whatever calls arrive, expire,
    finish and invalidate in between, no channel is ever closed twice (which would
    panic), at most one caller reads the table of a key at a time, and a caller that
    waits on an open channel waits for a caller that is reading that very key, so
    it will be woken. *)
Theorem updates_safe root w :
  reachable root w →
  (∀ ev, step ev w ≠ Panic) ∧
  NoDup (w_callers w ≫= reads) ∧
  (∀ sel ch, Awaiting sel ch ∈ w_callers w → ch ∉ closedChans (w_router w) →
     ∃ sel', Reading sel' ∈ w_callers w ∧ update_key sel' = update_key sel).
Proof.
  intros W%updates_reachable_inv. split; [|split].
  - intros ev E. pose proof (updates_step_inv ev w W) as S. by rewrite E in S.
  - apply W.
  - intros sel ch H Hc. destruct (proj1 (Forall_forall _ _) (u_covered _ _ _ W) _ H) as [?|(ws & E & _)]; [done|].
    assert (update_key sel ∈ all_reads w) as Hk by (by apply (u_dom _ _ _ W); eauto).
    unfold all_reads in Hk. apply list_elem_of_bind in Hk as (t & Hk & Ht).
    destruct t as [| |sel'|]; try by apply elem_of_nil in Hk.
    apply list_elem_of_singleton in Hk. eauto.
Qed.

(** The first caller reads the table of "neo4j", the second waits. *)
Definition some_db : DatabaseSelection := mkDatabaseSelection "neo4j" false "" "".

Fixpoint run (evs : list event) (w : world) : option world :=
  match evs with
  | [] => Some w
  | ev :: evs => match step ev w with Next w => run evs w | _ => None end
  end.

Lemma updates_run_reachable root evs w w' : reachable root w → run evs w = Some w' → reachable root w'.
Proof.
  revert w. induction evs as [|ev evs IH]; intros w R; simpl; [by intros [= <-]|].
  destruct (step ev w) as [| |w1] eqn:E; try done. apply IH. by eapply reach_step.
Qed.

Definition two_callers : world :=
  Eval vm_compute in
  default (mkWorld (New "root") []) (run [Call some_db; Enter 0 0; Call some_db; Enter 1 0] (mkWorld (New "root") [])).

Lemma two_callers_reachable : reachable "root" two_callers.
Proof.
  eapply (updates_run_reachable _ [Call some_db; Enter 0 0; Call some_db; Enter 1 0]); [apply reach_new|by vm_compute].
Qed.

Lemma updates_safe_witness :
  ∃ sel', Reading sel' ∈ w_callers two_callers ∧ update_key sel' = update_key some_db.
Proof.
  apply (updates_safe "root" two_callers two_callers_reachable) with (ch := 0%nat); [by right; left|].
  apply not_elem_of_nil.
Defined.
End updates.
