(* ===== verification/Uuid.v ===== *)
(** UUIDs and their text form: neo4j/dbtype/uuid.go.

    A UUID is its 16 bytes; a Go string is its bytes.  [encoding/hex] belongs to
    the standard library: encoding uses lower-case digits, decoding accepts both
    cases and fails on any other byte. *)

From S2P Require Import Prelude.
From Stdlib Require Import Strings.Byte.
#[local] Open Scope Z_scope.
#[local] Open Scope go_scope.

Module uuid.

(** ** encoding/hex *)

Definition hexdigit (v : Z) : byte := to_byte (if v <? 10 then 48 + v else 87 + v).

Definition unhex (c : byte) : option Z :=
  let c := of_byte c in
  if (48 <=? c) && (c <=? 57) then Some (c - 48)
  else if (97 <=? c) && (c <=? 102) then Some (c - 87)
  else if (65 <=? c) && (c <=? 70) then Some (c - 55)
  else None.

Definition hex_Encode (l : list byte) : list byte :=
  l ≫= λ b, [hexdigit (Z.shiftr (of_byte b) 4); hexdigit (Z.land (of_byte b) 15)].

Fixpoint hex_Decode (l : list byte) : option (list byte) :=
  match l with
  | [] => Some []
  | a :: b :: l =>
      x ← unhex a; y ← unhex b; r ← hex_Decode l;
      Some (to_byte (Z.lor (Z.shiftl x 4) y) :: r)
  | [_] => None
  end.

(** ** uuid.go *)

(** [l[a:b]] *)
Definition sub (a b : nat) (l : list byte) : list byte := take (b - a) (drop a l).

Definition hyphen : byte := x2d.

Definition canonical (u : list byte) : list byte :=
  hex_Encode (sub 0 4 u) ++ [hyphen] ++ hex_Encode (sub 4 6 u) ++ [hyphen] ++
  hex_Encode (sub 6 8 u) ++ [hyphen] ++ hex_Encode (sub 8 10 u) ++ [hyphen] ++
  hex_Encode (sub 10 16 u).

(** [String] and [MarshalText]. *)
Definition String (u : list byte) : list byte := canonical u.

Definition hyphen_at (i : nat) (s : list byte) : bool := bool_decide (s !! i = Some hyphen).

(** [None] is the error "invalid UUID format". *)
Definition ParseUUID (s : list byte) : option (list byte) :=
  if negb (length s =? 36)%nat || negb (hyphen_at 8 s) || negb (hyphen_at 13 s) ||
     negb (hyphen_at 18 s) || negb (hyphen_at 23 s)
  then None
  else hex_Decode (sub 0 8 s ++ sub 9 13 s ++ sub 14 18 s ++ sub 19 23 s ++ sub 24 36 s).

(** [UnmarshalText] into the UUID [u]. *)
Definition UnmarshalText (text u : list byte) : bool * list byte :=
  match ParseUUID text with Some p => (true, p) | None => (false, u) end.

(** * Facts *)

(** ASCII letters in lower case. *)
Definition lower (c : byte) : byte :=
  if (65 <=? of_byte c) && (of_byte c <=? 90) then to_byte (of_byte c + 32) else c.

(** A fact about all bytes, by evaluation. *)
Lemma byte_forall (f : byte → bool) :
  forallb f (to_byte <$> seqZ 0 256) = true → ∀ b, f b = true.
Proof.
  intros H b. apply (proj1 (forallb_forall f _) H), list_elem_of_In, list_elem_of_fmap.
  exists (of_byte b). split; [symmetry; apply byte.of_Z_unsigned|].
  apply elem_of_seqZ. pose proof (byte.unsigned_range b). lia.
Qed.

Lemma byte_roundtrip b :
  unhex (hexdigit (Z.shiftr (of_byte b) 4)) = Some (Z.shiftr (of_byte b) 4) ∧
  unhex (hexdigit (Z.land (of_byte b) 15)) = Some (Z.land (of_byte b) 15) ∧
  to_byte (Z.lor (Z.shiftl (Z.shiftr (of_byte b) 4) 4) (Z.land (of_byte b) 15)) = b.
Proof.
  pose proof (byte_forall (λ b, bool_decide (
    unhex (hexdigit (Z.shiftr (of_byte b) 4)) = Some (Z.shiftr (of_byte b) 4) ∧
    unhex (hexdigit (Z.land (of_byte b) 15)) = Some (Z.land (of_byte b) 15) ∧
    to_byte (Z.lor (Z.shiftl (Z.shiftr (of_byte b) 4) 4) (Z.land (of_byte b) 15)) = b)) ltac:(by vm_compute) b) as H.
  by apply bool_decide_eq_true in H.
Qed.

Lemma decode_encode l : hex_Decode (hex_Encode l) = Some l.
Proof.
  induction l as [|b l IH]; [done|]. unfold hex_Encode in *. cbn [mbind list_bind app hex_Decode].
  destruct (byte_roundtrip b) as (-> & -> & E). cbn [mbind option_bind]. rewrite IH.
  cbn [mbind option_bind]. by rewrite E.
Qed.

(** The digit of a decoded character is the character in lower case. *)
Lemma unhex_lower c : match unhex c with Some v => hexdigit v = lower c ∧ 0 ≤ v < 16 | None => True end.
Proof.
  pose proof (byte_forall (λ c, match unhex c with
    | Some v => bool_decide (hexdigit v = lower c ∧ 0 ≤ v < 16) | None => true end) ltac:(by vm_compute) c) as H.
  cbv beta in H. destruct (unhex c); [by apply bool_decide_eq_true in H|done].
Qed.

Lemma nibbles x y : 0 ≤ x < 16 → 0 ≤ y < 16 →
  let b := of_byte (to_byte (Z.lor (Z.shiftl x 4) y)) in Z.shiftr b 4 = x ∧ Z.land b 15 = y.
Proof.
  intros Hx Hy.
  assert (forallb (λ x, forallb (λ y,
    let b := of_byte (to_byte (Z.lor (Z.shiftl x 4) y)) in
    (Z.shiftr b 4 =? x) && (Z.land b 15 =? y)) (seqZ 0 16)) (seqZ 0 16) = true) as H by (by vm_compute).
  rewrite forallb_forall in H. specialize (H x ltac:(apply list_elem_of_In, elem_of_seqZ; lia)).
  rewrite forallb_forall in H. specialize (H y ltac:(apply list_elem_of_In, elem_of_seqZ; lia)).
  by apply andb_prop in H as [?%Z.eqb_eq ?%Z.eqb_eq].
Qed.

Lemma encode_decode l u : hex_Decode l = Some u → hex_Encode u = lower <$> l.
Proof.
  revert l. induction u as [|v u IH]; intros l; destruct l as [|a [|b l]]; cbn [hex_Decode]; try done.
  - destruct (unhex a), (unhex b); simpl; try done. by destruct (hex_Decode l).
  - pose proof (unhex_lower a) as Ha. pose proof (unhex_lower b) as Hb.
    destruct (unhex a) as [x|], (unhex b) as [y|]; simpl; try done.
    destruct (hex_Decode l) as [r|] eqn:E; simpl; [|done]. intros [= <- <-].
    destruct Ha as [Ha Hx], Hb as [Hb Hy]. destruct (nibbles x y Hx Hy) as [N1 N2].
    unfold hex_Encode. cbn [mbind list_bind app fmap list_fmap].
    rewrite N1, N2, Ha, Hb. do 2 f_equal. exact (IH l E).
Qed.

Lemma encode_sub a b u : hex_Encode (sub a b u) = sub (2 * a) (2 * b) (hex_Encode u).
Proof.
  assert (∀ n u, hex_Encode (drop n u) = drop (2 * n) (hex_Encode u)) as Hd.
  { induction n as [|n IH]; intros [|v w]; try done. replace (2 * S n)%nat with (S (S (2 * n))) by lia. apply IH. }
  assert (∀ n u, hex_Encode (take n u) = take (2 * n) (hex_Encode u)) as Ht.
  { induction n as [|n IH]; intros [|v w]; try done. replace (2 * S n)%nat with (S (S (2 * n))) by lia.
    cbn [take hex_Encode mbind list_bind app]. do 2 f_equal. apply IH. }
  unfold sub. rewrite Ht, Hd. f_equal. lia.
Qed.

(** The text form of a UUID is read back as the UUID, so MarshalText and
    UnmarshalText are a round trip for all 16-byte values. *)
Theorem uuid_roundtrip u : length u = 16%nat → ParseUUID (String u) = Some u.
Proof.
  intros Hl. rewrite <- (decode_encode u). unfold String, canonical. rewrite !encode_sub.
  do 16 (destruct u as [|? u]; [discriminate|]). destruct u; [|discriminate].
  unfold hex_Encode. cbn [mbind list_bind app]. unfold sub. cbn [take drop app Nat.mul Nat.add Nat.sub].
  unfold ParseUUID, hyphen_at. cbn [length Nat.eqb negb orb].
  rewrite !bool_decide_eq_true_2 by done. cbn [negb orb]. unfold sub. by cbn [take drop app Nat.sub].
Qed.

(** Whatever text ParseUUID accepts is the text form of the UUID it returns, up
    to the case of the letters: no two different UUIDs share a text. *)
Theorem parse_canonical s u : ParseUUID s = Some u → String u = lower <$> s.
Proof.
  unfold ParseUUID. destruct (length s =? 36)%nat eqn:Hl; cbn [negb orb]; [|done].
  destruct (hyphen_at 8 s) eqn:H1, (hyphen_at 13 s) eqn:H2, (hyphen_at 18 s) eqn:H3, (hyphen_at 23 s) eqn:H4;
    cbn [negb orb]; try done.
  intros E%encode_decode. unfold String, canonical. rewrite !encode_sub, E.
  unfold hyphen_at in *. apply bool_decide_eq_true in H1, H2, H3, H4. apply Nat.eqb_eq in Hl.
  do 36 (destruct s as [|? s]; [discriminate|]). destruct s; [|discriminate].
  cbn [lookup list_lookup] in *. injection H1 as ->. injection H2 as ->. injection H3 as ->. injection H4 as ->.
  unfold sub. cbn [take drop app fmap list_fmap Nat.sub Nat.mul Nat.add].
  by change (lower hyphen) with hyphen.
Qed.

Definition sample : list byte := bytes_of "550E8400-e29b-41d4-a716-446655440000".

Lemma parse_canonical_witness :
  ∃ u, ParseUUID sample = Some u ∧ String u = bytes_of "550e8400-e29b-41d4-a716-446655440000".
Proof.
  destruct (ParseUUID sample) as [u|] eqn:E; [|by vm_compute in E].
  exists u. split; [done|]. rewrite (parse_canonical sample u E). by vm_compute.
Defined.

Lemma uuid_roundtrip_witness : ParseUUID (String (repeat x41 16)) = Some (repeat x41 16).
Proof. apply (uuid_roundtrip (repeat x41 16)). by vm_compute. Defined.
End uuid.
