(* ===== verification/Retry.v ===== *)
(** Retrying transaction functions: neo4j/internal/retry/state.go, throttler.go
    and the loop of neo4j/session.go that uses them.

    The clock, the context, the sleep function, the random number and what an
    attempt comes to are inputs.  The throttler computes with float64; the model
    uses the executable IEEE arithmetic of the standard library. *)

From S2P Require Import Prelude Packer Values Errors.
From Stdlib Require Import Floats.SpecFloat.
#[local] Open Scope Z_scope.
#[local] Open Scope go_scope.

Module retry.

(** ** throttler.go *)

Definition float64 : Type := spec_float.
Definition fmul : float64 → float64 → float64 := SFmul 53 1024.
Definition of_int (z : Z) : float64 := binary_normalize 53 1024 z 0 false.

(** [time.Duration(f)] for a finite float: truncation. *)
Definition truncate (f : float64) : Z :=
  match f with
  | S754_finite s m e =>
      let v := if 0 <=? e then Zpos m * 2 ^ e else Z.quot (Zpos m) (2 ^ (- e)) in
      if s then - v else v
  | _ => 0
  end.

(** The float64 nearest to 0.2. *)
Definition delayJitter : float64 := S754_finite false 7205759403792794 (-55).

(** [rnd] is the result of [rand.Float64()]. *)
Definition next (rnd : float64) (delay : Z) : Z :=
  let jitter := fmul (of_int delay) delayJitter in
  swrap 64 (2 * delay - truncate jitter + truncate (fmul (fmul (of_int 2) jitter) rnd)).

(** ** state.go *)

Record State : Type := mkState {
  Errs : list error;
  MaxTransactionRetryTime : Z;
  Throttle : Z;
  MaxDeadConnections : Z;
  start : option Z;                (* the zero time is None *)
  deadErrors : Z;
  skipSleep : bool
}.

(** [conn] tells whether there is a connection and whether it is alive. *)
Definition OnFailure (err : error) (conn : option bool) (isCommitting : bool) (s : State) : State :=
  match conn with
  | Some false =>
      s <| Errs := Errs s ++ [if isCommitting then CommitFailedDeadError err else err] |>
        <| deadErrors := deadErrors s + 1 |> <| skipSleep := true |>
  | _ => s <| Errs := Errs s ++ [err] |> <| skipSleep := false |>
  end.

(** What the environment contributes to [Continue]: the time, the state of the
    context, the random number and the result of [Sleep]. *)
Record moment : Type := mkMoment {
  m_now : Z;
  m_ctxErr : option error;
  m_rnd : float64;
  m_sleepErr : option error
}.

Section Deciding.
(** [err.Error()] *)
Variable show : error → string.
(** [Duration.String()] and the formatting of an int. *)
Variable show_duration : Z → string.
Variable show_int : Z → string.

Definition limit (cause : string) (s : State) : State :=
  s <| Errs := [TransactionExecutionLimit cause (Errs s)] |>.

Definition Continue (m : moment) (s : State) : bool * State :=
  let s := match start s with None => s <| start := Some (m_now m) |> | Some _ => s end in
  let started := default (m_now m) (start s) in
  match m_ctxErr m with
  | Some e => (false, s <| Errs := Errs s ++ [e] |>)
  | None =>
      match last (Errs s) with
      | None => (true, s)
      | Some lastErr =>
          if negb (IsRetryable (WrapError show lastErr)) then (false, s)
          else if m_now m - started >? MaxTransactionRetryTime s then
            (false, limit ("timeout (exceeded max retry time: " +:+ show_duration (MaxTransactionRetryTime s) +:+ ")") s)
          else if deadErrors s >? MaxDeadConnections s then
            (false, limit ("too many failed connection attempts (allowed max " +:+ show_int (MaxDeadConnections s) +:+ ")") s)
          else if skipSleep s then (true, s)
          else
            let s := s <| Throttle := next (m_rnd m) (Throttle s) |> in
            match m_sleepErr m with
            | Some e => (false, limit (show e) s)
            | None => (true, s)
            end
      end
  end.

(** [None] is the panic of indexing an empty slice. *)
Definition ProduceError (s : State) : option error :=
  lastErr ← last (Errs s);
  Some match lastErr with
       | TransactionExecutionLimit _ _ => lastErr
       | _ => WrapError show lastErr
       end.

(** ** The loop of session.go *)

(** What an attempt comes to: a value, or a failure as it is reported to
    [OnFailure]. *)
Inductive attempt (A : Type) : Type :=
| Completed (a : A)
| Failed (err : error) (conn : option bool) (isCommitting : bool).
Arguments Completed {A}.
Arguments Failed {A}.

Inductive verdict (A : Type) : Type :=
| Returned (a : A)
| GaveUp (err : error)
| Panicked
| Trying (s : State).               (* the given attempts are used up *)
Arguments Returned {A}.
Arguments GaveUp {A}.
Arguments Panicked {A}.
Arguments Trying {A}.

Fixpoint runRetriable {A} (l : list (moment * attempt A)) (s : State) : verdict A :=
  match l with
  | [] => Trying s
  | (m, a) :: l =>
      match Continue m s with
      | (false, s) => match ProduceError s with Some e => GaveUp e | None => Panicked end
      | (true, s) =>
          match a with
          | Completed x => Returned x
          | Failed err conn committing => runRetriable l (OnFailure err conn committing s)
          end
      end
  end.

Definition new_state (maxTime throttle maxDead : Z) : State := mkState [] maxTime throttle maxDead None 0 false.

(** * Facts *)

Lemma Continue_false m s : (Continue m s).1 = false → Errs (Continue m s).2 ≠ [].
Proof.
  unfold Continue. set (s0 := match start s with None => _ | Some _ => _ end).
  destruct (m_ctxErr m) as [e|]; [intros _ H; by apply app_eq_nil in H as [_ ?]|].
  destruct (last (Errs s0)) as [e|] eqn:L; [|done].
  assert (Errs s0 ≠ []) as N by (intros H; by rewrite H in L).
  destruct (negb _); [done|]. destruct (_ >? _); [done|]. destruct (_ >? _); [done|].
  destruct (skipSleep s0); [done|]. by destruct (m_sleepErr m).
Qed.

(** The loop never panics: ProduceError indexes the last recorded error
    without a check, and whenever Continue ends the loop there is one. *)
Theorem retry_never_panics {A} (l : list (moment * attempt A)) s : runRetriable l s ≠ Panicked.
Proof.
  revert s. induction l as [|[m a] l IH]; intros s; simpl; [done|].
  pose proof (Continue_false m s) as C. destruct (Continue m s) as [[] s'].
  - destruct a; [done|apply IH].
  - specialize (C eq_refl). unfold ProduceError. destruct (last (Errs s')) as [e|] eqn:L; [done|].
    by apply last_None in L.
Qed.

(** When the connection dies during the commit, the next check ends the loop, whatever
    the error was and whatever the limits are, with the connectivity error that names
    the failed commit, or with the end of the context. *)
Lemma failed_commit_ends m err s :
  let '(continue, s') := Continue m (OnFailure err (Some false) true s) in
  continue = false ∧
  ProduceError s' =
    Some match m_ctxErr m with
         | Some (TransactionExecutionLimit c es) => TransactionExecutionLimit c es
         | Some e => WrapError show e
         | None => ConnectivityError (CommitFailedDeadError err)
         end.
Proof.
  set (s1 := OnFailure err (Some false) true s).
  assert (Errs s1 = Errs s ++ [CommitFailedDeadError err]) as E1 by done.
  unfold Continue. set (s2 := match start s1 with None => _ | Some _ => _ end).
  assert (Errs s2 = Errs s1) as E2 by (subst s2; by destruct (start s1)).
  destruct (m_ctxErr m) as [c|].
  - split; [done|]. unfold ProduceError. change (Errs (s2 <| Errs := Errs s2 ++ [c] |>)) with (Errs s2 ++ [c]).
    rewrite last_snoc. by destruct c.
  - rewrite E2, E1, last_snoc. cbn [WrapError IsRetryable negb]. split; [done|].
    unfold ProduceError. by rewrite E2, E1, last_snoc.
Qed.

(** The failures in [l] that lost their connection. *)
Definition dead_failures {A} (l : list (moment * attempt A)) : Z :=
  Z.of_nat (length (List.filter (λ x, match x.2 with Failed _ (Some false) _ => true | _ => false end) l)).

(** The loop goes on only while the limit on dead connections is kept. *)
Lemma Continue_true m s :
  (Continue m s).1 = true → (Errs s = [] → deadErrors s ≤ MaxDeadConnections s) →
  deadErrors s ≤ MaxDeadConnections s ∧ deadErrors (Continue m s).2 = deadErrors s ∧
  MaxDeadConnections (Continue m s).2 = MaxDeadConnections s.
Proof.
  unfold Continue. set (s0 := match start s with None => _ | Some _ => _ end).
  assert (Errs s0 = Errs s ∧ deadErrors s0 = deadErrors s ∧ MaxDeadConnections s0 = MaxDeadConnections s)
    as (E1 & E2 & E3) by (subst s0; by destruct (start s)).
  destruct (m_ctxErr m); [done|].
  destruct (last (Errs s0)) as [e|] eqn:L; [|intros _ H; split; [apply H; rewrite <- E1; by apply last_None|done]].
  destruct (negb _); [done|]. destruct (_ >? _); [done|].
  rewrite Z.gtb_ltb. destruct (Z.ltb_spec (MaxDeadConnections s0) (deadErrors s0)); [done|].
  destruct (skipSleep s0); [intros _ _; split; [lia|done]|].
  destruct (m_sleepErr m); [done|]. intros _ _. split; [lia|done].
Qed.

Lemma dead_bounded {A} (l : list (moment * attempt A)) s s' :
  (Errs s = [] → deadErrors s ≤ MaxDeadConnections s) → deadErrors s ≤ MaxDeadConnections s + 1 →
  runRetriable l s = Trying s' → deadErrors s + dead_failures l ≤ MaxDeadConnections s + 1.
Proof.
  revert s. induction l as [|[m a] l IH]; intros s He Hd; [intros _; unfold dead_failures; simpl; lia|].
  cbn [runRetriable]. pose proof (Continue_true m s) as C.
  destruct (Continue m s) as [[] s1]; [|by destruct (ProduceError s1)]. cbn [fst snd] in C.
  destruct (C eq_refl He) as (C1 & C2 & C3). destruct a as [|err conn committing]; [done|].
  intros E. set (s2 := OnFailure err conn committing s1) in *.
  assert (Errs s2 ≠ [] ∧ MaxDeadConnections s2 = MaxDeadConnections s1) as [N M].
  { subst s2. unfold OnFailure. by destruct conn as [[]|]; split; try done; intros [_ ?]%app_eq_nil. }
  assert (deadErrors s2 = deadErrors s1 + match conn with Some false => 1 | _ => 0 end) as D.
  { subst s2. unfold OnFailure. destruct conn as [[]|]; [|done|]; symmetry; apply Z.add_0_r. }
  specialize (IH s2 (λ H, False_ind _ (N H))). rewrite D, M, C2, C3 in IH.
  assert (dead_failures ((m, Failed err conn committing) :: l) =
          match conn with Some false => 1 | _ => 0 end + dead_failures l) as ->.
  { unfold dead_failures. cbn [List.filter snd]. destruct conn as [[]|]; cbn [length]; lia. }
  destruct conn as [[]|]; specialize (IH ltac:(lia) E); lia.
Qed.

(** Retries on dead connections are bounded: from a fresh state, as long as the
    loop goes on, at most MaxDeadConnections + 1 attempts have lost their
    connection, however the other attempts fail in between. *)
Theorem dead_connections_bounded {A} (l : list (moment * attempt A)) maxTime throttle maxDead s' :
  0 ≤ maxDead → runRetriable l (new_state maxTime throttle maxDead) = Trying s' →
  dead_failures l ≤ maxDead + 1.
Proof. intros H E. apply (dead_bounded l (new_state maxTime throttle maxDead) s'); simpl; [done|lia|done]. Qed.
End Deciding.

(** ** A run *)

Definition text (e : error) : string := "".
Definition at_once : moment := mkMoment 0 None (S754_zero false) None.

Arguments Failed {A}.

(** A lost connection, which is retried. *)
Definition lost : list (moment * attempt nat) := [(at_once, Failed EOF (Some false) false)].

Lemma dead_connections_bounded_witness : dead_failures lost ≤ 1.
Proof.
  apply (dead_connections_bounded text (λ _, "") (λ _, "") lost 30000000000 1000000000 0
    (OnFailure EOF (Some false) false ((new_state 30000000000 1000000000 0) <| start := Some 0 |>))); [done|].
  by vm_compute.
Defined.

(** The throttle starts at one second; without jitter the next delay is 1.8
    seconds. *)
Example next_low : next (S754_zero false) 1000000000 = 1800000000.
Proof. by vm_compute. Qed.
End retry.
