(* ===== verification/Bolt.v ===== *)
(** Bolt connections: neo4j/internal/bolt/bolt4.go, bolt5.go and bolt6.go with
    message_queue.go, stream.go, response_handler.go, reauth.go and
    notifications.go.

    The three versions are one program with differences; each definition takes
    the version and shows where they differ.  What a connection works with (the
    buffers of [outgoing] and [incoming] with the socket behind them, the clock
    and the listener) is the world of the connection, behind the interface
    [World].  Response handlers are closures in the code; here they are data and
    [onSuccess], [onRecord], [onFailure] and [onIgnored] say what they do, with
    [None] for a handler that is nil.  Streams are shared objects: the connection
    keeps them in a store, and a handle is an index into it. *)

From S2P Require Import Prelude Values Errors Messages Outgoing.
#[local] Open Scope Z_scope.
#[local] Open Scope go_scope.

(** * Results

    A Go function with results [(T, error)] returns [error + T]; the notations
    return early with the error. *)

Notation "x ←? m ; k" :=
  (m ≫= λ r, match r with inl e => mret (inl e) | inr x => k end)
  (at level 20, m at level 100, k at level 200) : go_scope.
Notation "m ;? k" :=
  (m ≫= λ r, match r with inl e => mret (inl e) | inr _ => k end)
  (at level 100, k at level 200, right associativity) : go_scope.

(** * What a connection is configured with (internal/db/connection.go) *)

Inductive AccessMode : Type := WriteMode | ReadMode.

(** The types of package notifications: [none] and the disabled names. *)
Record disabled : Type := mkDisabled { dis_none : bool; dis_names : list string }.

Record NotificationConfig : Type := mkNotificationConfig {
  MinSev : string;
  DisCats : disabled;
  DisClas : disabled
}.

Definition DefaultLevel : string := "".

Record TxConfig : Type := mkTxConfig {
  tc_Mode : AccessMode;
  tc_Bookmarks : list string;
  tc_Timeout : Z;
  tc_ImpersonatedUser : string;
  tc_Meta : gomap goval;
  tc_NotificationConfig : NotificationConfig
}.

Record Command : Type := mkCommand {
  cmd_Cypher : string;
  cmd_Params : gomap goval;
  cmd_FetchSize : Z
}.

Definition disabledKey (v : ProtocolVersion) : string :=
  if (6 <=? pv_Major v) || ((pv_Major v =? 5) && (5 <=? pv_Minor v))
  then "notifications_disabled_classifications"
  else "notifications_disabled_categories".

Definition ToMeta (n : NotificationConfig) (version : ProtocolVersion) (meta : gomap goval) :
    gomap goval :=
  let names (l : list string) := GSlice false (GString <$> l) in
  let set_names (l : list string) (meta : gomap goval) :=
    match l with [] => meta | _ => map_set (disabledKey version) (names l) meta end in
  let meta :=
    if decide (MinSev n = DefaultLevel) then meta
    else map_set "notifications_minimum_severity" (GString (MinSev n)) meta in
  if dis_none (DisCats n) || dis_none (DisClas n)
  then map_set (disabledKey version) (GStrings []) meta
  else meta ▷ set_names (dis_names (DisCats n)) ▷ set_names (dis_names (DisClas n)).

(** * Streams (stream.go) *)

(** The rest of [idb.Summary], filled by [extractSummary]. *)
Record Summary_ : Type := mkSummary_ {
  su_success : Summary;
  su_Agent : string;
  su_Major : Z;
  su_Minor : Z;
  su_ServerName : string;
  su_TFirst : Z;
  su_HadRecord : bool;
  su_HadKey : bool
}.

Record stream : Type := mkStream {
  s_attached : bool;
  s_keys : list string;
  s_fifo : list Record_;
  s_sum : option Summary_;
  s_err : option error;
  s_qid : Z;
  s_fetchSize : Z;
  s_key : Z;
  s_endOfBatch : bool;
  s_discarding : bool;
  s_tfirst : Z;
  s_hadRecord : bool
}.

(** [&stream{fetchSize: fetchSize}] *)
Definition new_stream (fetchSize : Z) : stream :=
  mkStream false [] [] None None 0 fetchSize 0 false false 0 false.

(** [(buffered, record, summary, error)] and the stream without the record. *)
Definition bufferedNext (s : stream) :
    (bool * option Record_ * option Summary_ * option error) * stream :=
  match s_fifo s with
  | r :: rest => ((true, Some r, None, None), s <| s_fifo := rest |>)
  | [] =>
      match s_err s, s_sum s with
      | Some e, _ => ((true, None, None, Some e), s)
      | None, Some sum => ((true, None, Some sum, None), s)
      | None, None => ((false, None, None, None), s)
      end
  end.

Definition emptyRecords (s : stream) : stream := s <| s_fifo := [] |>.
Definition push (r : Record_) (s : stream) : stream := s <| s_fifo := s_fifo s ++ [r] |>.

Definition Err (s : stream) : option error :=
  match s_fifo s with _ :: _ => None | [] => s_err s end.

Definition HadKey (s : stream) : bool := match s_keys s with [] => false | _ => true end.

(** Open streams; [curr] is an index into the store of streams. *)
Record openstreams : Type := mkOpenstreams {
  o_curr : option nat;
  o_num : Z;
  o_key : Z
}.

Definition errInvalidStream : error := ErrorString "invalid stream handle".

(** * The protocol messages a client sends *)

Inductive request : Type :=
| RHello (hello : gomap goval)
| RLogoff
| RLogon (token : gomap goval)
| RRoute (context : gomap string) (bookmarks : list string) (extras : gomap goval)
| RRouteV43 (context : gomap string) (bookmarks : list string) (database : string)
| RBegin (meta : gomap goval)
| RRun (cypher : string) (params meta : gomap goval)
| RPullAll
| RPullN (n : Z)
| RPullNQid (n qid : Z)
| RDiscardN (n : Z)
| RDiscardNQid (n qid : Z)
| RCommit
| RRollback
| RReset
| RGoodbye
| RTelemetry (api : Z).

(** * Response handlers (response_handler.go) *)

Inductive responseHandler : Type :=
| helloHandler (checkUtcPatch : bool)
| logoffHandler
| logonHandler
| routeHandler (table : nat)        (* the variable the routing table goes to *)
| beginHandler
| runHandler (s : nat)
| commitHandler
| rollbackHandler
| discardHandler (s : nat)
| pullHandler (s : nat)
| resetHandler
| telemetryHandler (onSuccess : bool).  (* whether there is a callback *)

(** * The world of a connection

    [wpack] appends a message to the output and returns the errors reported to
    [onPackErr]; [wdrop] is [chunker.reset]; [wsend] and [wnext] are
    [outgoing.send] with the error given to [onIoErr] and [incoming.next];
    [wclose] closes the socket.  [wnow] reads the clock in nanoseconds.
    [wlisten] is [OnNeo4jError]: the error, possibly marked retriable, what the
    listener returns, and whether it has called [ResetAuth] on the connection.  A
    call that never returns is [OutOfFuel]. *)

Inductive callback : Type :=
| OnIoError (e : error)
| PinHomeDatabase (db : string)
| TelemetrySucceeded.

Class World (W : Type) : Type := {
  wpack : request → GoM W (list error);
  wdrop : GoM W unit;
  wsend : GoM W (option error);
  wnext : GoM W (option message * option error);
  wclose : GoM W (option error);
  wnow : GoM W Z;
  wlisten : Neo4jError → GoM W (Neo4jError * option error * bool);
  wcall : callback → GoM W unit;
  wuseUtc : bool → GoM W unit;
  wsupportsUuid : bool → GoM W unit
}.

(** * The connection *)

Inductive version : Type := V4 | V5 | V6.

Inductive conn_state : Type :=
| Ready | Streaming | Tx | StreamingTx | Failed | Dead | Unauthorized.

#[global] Instance conn_state_eq_dec : EqDecision conn_state.
Proof. solve_decision. Defined.
#[global] Instance version_eq_dec : EqDecision version.
Proof. solve_decision. Defined.

(** The constants of the code are [iota] in this order. *)
Definition state_number (s : conn_state) : Z :=
  match s with
  | Ready => 0 | Streaming => 1 | Tx => 2 | StreamingTx => 3
  | Failed => 4 | Dead => 5 | Unauthorized => 6
  end.

(** [Token] stands for the [map\[string\]any] of a token up to
    [reflect.DeepEqual], [entries] lists it. *)
Class Tokens (Token : Type) : Type := {
  token_eq :: EqDecision Token;
  entries : Token → gomap goval
}.

(** What a token manager answers is its state when asked. *)
Record TokenManager (Token : Type) : Type := mkManager {
  manager_id : Z;
  GetAuthToken : error + Token
}.
Arguments mkManager {Token}.
Arguments manager_id {Token}.
Arguments GetAuthToken {Token}.

Record ReAuthToken (Token : Type) : Type := mkReAuthToken {
  Manager : TokenManager Token;
  FromSession : bool;
  ForceReAuth : bool
}.
Arguments mkReAuthToken {Token}.
Arguments Manager {Token}.
Arguments FromSession {Token}.
Arguments ForceReAuth {Token}.

Record bolt (W Token : Type) : Type := mkBolt {
  b_state : conn_state;
  b_txId : Z;
  b_streams : openstreams;
  b_serverName : string;
  b_handlers : list responseHandler;   (* queue.handlers *)
  b_qerr : option error;               (* queue.err *)
  b_connId : string;
  b_serverVersion : string;
  b_bookmark : string;
  b_birthDate : Z;
  b_databaseName : string;
  b_err : option error;
  b_minor : Z;
  b_lastQid : Z;
  b_idleDate : Z;
  b_auth : option Token;
  b_authManager : option Z;
  b_resetAuth : bool;
  b_telemetryEnabled : bool;
  b_ssrEnabled : bool;
  b_pin : bool;                        (* pinHomeDatabaseCallback is not nil *)
  b_connReadTimeout : Z;               (* queue.in.connReadTimeout *)
  b_store : list stream;
  b_tables : list (option RoutingTable);
  b_world : W
}.
Arguments mkBolt {W Token}.
Arguments b_state {W Token}.
Arguments b_txId {W Token}.
Arguments b_streams {W Token}.
Arguments b_serverName {W Token}.
Arguments b_handlers {W Token}.
Arguments b_qerr {W Token}.
Arguments b_connId {W Token}.
Arguments b_serverVersion {W Token}.
Arguments b_bookmark {W Token}.
Arguments b_birthDate {W Token}.
Arguments b_databaseName {W Token}.
Arguments b_err {W Token}.
Arguments b_minor {W Token}.
Arguments b_lastQid {W Token}.
Arguments b_idleDate {W Token}.
Arguments b_auth {W Token}.
Arguments b_authManager {W Token}.
Arguments b_resetAuth {W Token}.
Arguments b_telemetryEnabled {W Token}.
Arguments b_ssrEnabled {W Token}.
Arguments b_pin {W Token}.
Arguments b_connReadTimeout {W Token}.
Arguments b_store {W Token}.
Arguments b_tables {W Token}.
Arguments b_world {W Token}.

Section Connection.
Context {W Token : Type} `{World W} `{Tokens Token}.
(** The text of an error, where the code prints it. *)
Variable show : error → string.
Variable v : version.

Abbreviation conn := (bolt W Token).
Abbreviation B := (GoM conn).

Definition do_world {A} (m : GoM W A) : B A := λ b,
  match m (b_world b) with
  | Done (a, w) => Done (a, b <| b_world := w |>)
  | Panic => Panic
  | OutOfFuel => OutOfFuel
  end.

Definition set_state (s : conn_state) : B unit := go_modify (λ b, b <| b_state := s |>).

(** [b.err] as the result of a call *)
Definition last_err : B (error + unit) :=
  go_get (λ b, match b_err b with Some e => inl e | None => inr tt end).

Definition has_err : B bool :=
  go_get (λ b, match b_err b with Some _ => true | None => false end).

Definition when (c : bool) (m : B unit) : B unit := if c then m else mret tt.

(** Dereferencing a [*stream]; handles only come from [run]. *)
Definition the_stream (s : nat) : B stream := λ b,
  match b_store b !! s with Some st => Done (st, b) | None => Panic end.

Definition on_stream (s : nat) (f : stream → stream) : B unit :=
  st ← the_stream s; go_modify (λ b, b <| b_store := <[s := f st]> (b_store b) |>).

Definition on_streams (f : openstreams → openstreams) : B unit :=
  go_modify (λ b, b <| b_streams := f (b_streams b) |>).

Definition in_state (l : list conn_state) : B bool :=
  go_get (λ b, bool_decide (b_state b ∈ l)).

(** ** openstreams (stream.go) *)

Definition attach (s : nat) : B unit :=
  o ← go_get b_streams;
  match o_curr o with
  | Some _ => mret tt
  | None =>
      on_streams (λ o, o <| o_num := o_num o + 1 |> <| o_curr := Some s |>);;
      on_stream s (λ st, st <| s_key := o_key o |>)
  end.

Definition remove (s : nat) : B unit :=
  on_streams (λ o, o <| o_num := o_num o - 1 |>);;
  on_stream s (λ st, st <| s_key := 0 |>);;
  on_streams (λ o, if decide (o_curr o = Some s) then o <| o_curr := None |> else o).

Definition detach (sum : option Summary_) (err : option error) : B unit :=
  o ← go_get b_streams;
  match o_curr o with
  | None => mret tt
  | Some s =>
      on_stream s (λ st, st <| s_sum := sum |> <| s_err := err |>);;
      remove s
  end.

Definition pause : B unit := on_streams (λ o, o <| o_curr := None |>).

Definition resume (s : nat) : B unit :=
  on_streams (λ o, match o_curr o with Some _ => o | None => o <| o_curr := Some s |> end).

Definition reset_streams : B unit :=
  t ← do_world wnow;
  on_streams (λ _, mkOpenstreams None 0 t).

(** A handle is [None] when it is nil or not a stream. *)
Definition getUnsafe (h : option nat) : B (error + nat) :=
  match h with Some s => mret (inr s) | None => mret (inl errInvalidStream) end.

Definition isSafe (s : nat) : B (error + unit) :=
  st ← the_stream s;
  o ← go_get b_streams;
  mret (if s_key st =? o_key o then inr tt else inl errInvalidStream).

(** ** Errors *)

Definition checkStreams : B unit :=
  o ← go_get b_streams;
  if o_num o <=? 0 then
    s ← go_get b_state;
    match s with
    | StreamingTx => set_state Tx
    | Streaming => set_state Ready
    | _ => mret tt
    end
  else mret tt.

Definition contextTerminatedErr (e : error) : bool :=
  match e with
  | ConnectionWriteTimeout _ | ConnectionReadTimeout _
  | ConnectionWriteCanceled _ | ConnectionReadCanceled _ => true
  | _ => false
  end.

Definition handleTerminatedContextError (e : error) : B (option error) :=
  if contextTerminatedErr e then
    closeErr ← do_world wclose;
    mret (match closeErr with
          | None => None
          | Some c => CombineErrors show (Some e) (Some c)
          end)
  else mret None.

Definition setError (err : error) (fatal : bool) : B unit :=
  prior ← has_err;
  when (negb prior) (go_modify (λ b, b <| b_err := Some err |> <| b_state := Failed |>));;
  when fatal (
    ctxErr ← handleTerminatedContextError err;
    (match ctxErr with
     | Some e => go_modify (λ b, b <| b_err := Some e |>)
     | None => mret tt
     end);;
    set_state Dead);;
  o ← go_get b_streams;
  match o_curr o with
  | Some _ => detach None (Some err);; checkStreams
  | None => mret tt
  end.

(** errors.go *)
Definition fillServerName (e : error) (serverName : string) : error :=
  match e with
  | FeatureNotSupportedError "" f r => FeatureNotSupportedError serverName f r
  | _ => e
  end.

Definition is_feature_error (e : error) : bool :=
  match e with FeatureNotSupportedError _ _ _ => true | _ => false end.

(** The callback that [NewBolt4], [NewBolt5] and [NewBolt6] give to [outgoing]. *)
Definition onPackErr (e : error) : B unit :=
  name ← go_get b_serverName;
  let e := fillServerName e name in
  match v with
  | V6 => setError e (negb (is_feature_error e))
  | _ => setError e true
  end.

Definition onIoError (e : error) : B unit :=
  broken ← in_state [Failed; Dead];
  when (negb broken) (do_world (wcall (OnIoError e)));;
  setError e true.

(** bolt4.go *)
Definition isFatalError (e : Neo4jError) : bool :=
  bool_decide (Code e = "Status.Security.AuthorizationExpired").

(** [b.errorListener.OnNeo4jError]; the listener may call [ResetAuth]. *)
Definition OnNeo4jError (failure : Neo4jError) : B (Neo4jError * option error) :=
  r ← do_world (wlisten failure);
  let '(failure, callbackErr, reset) := r in
  when reset (go_modify (λ b, b <| b_resetAuth := true |>));;
  mret (failure, callbackErr).

(** [onFailure] after the listener was called; it returns the failure, which the
    listener may have changed. *)
Definition fail_with (failure : Neo4jError) (callbackErr : option error) : B Neo4jError :=
  let err :=
    match callbackErr, v with
    | None, _ => Neo4jErr failure
    | Some c, V4 => default (Neo4jErr failure) (CombineErrors show (Some (Neo4jErr failure)) (Some c))
    | Some c, _ => default (Neo4jErr failure) (CombineErrors show (Some c) (Some (Neo4jErr failure)))
    end in
  setError err (isFatalError failure);;
  mret failure.

Definition onNextMessage : B unit :=
  t ← do_world wnow;
  go_modify (λ b, b <| b_idleDate := t |>).

(** ** The message queue (message_queue.go) *)

Definition pushFront (h : responseHandler) : B unit :=
  go_modify (λ b, b <| b_handlers := h :: b_handlers b |>).

Definition enqueueCallback (h : responseHandler) : B unit :=
  go_modify (λ b, b <| b_handlers := b_handlers b ++ [h] |>).

Definition pop : B responseHandler := λ b,
  match b_handlers b with
  | h :: rest => Done (h, b <| b_handlers := rest |>)
  | [] => Panic
  end.

Definition isEmpty : B bool :=
  go_get (λ b, match b_handlers b with [] => true | _ => false end).

(** Packing reports its errors to [onPackErr], which does not touch the output. *)
Fixpoint report_pack_errors (es : list error) : B unit :=
  match es with
  | [] => mret tt
  | e :: es => onPackErr e;; report_pack_errors es
  end.

Definition pack (r : request) : B unit :=
  es ← do_world (wpack r);
  report_pack_errors es.

(** [appendHello], [appendLogoff], ... : pack the message, enqueue its handler. *)
Definition append (r : request) (h : responseHandler) : B unit :=
  pack r;; enqueueCallback h.

Definition send : B unit :=
  e ← do_world wsend;
  match e with Some e => onIoError e | None => mret tt end.

Definition receiveMsg : B (option message) :=
  q ← go_get b_qerr;
  match q with
  | Some _ => mret None
  | None =>
      r ← do_world wnext;
      let '(msg, err) := r in
      go_modify (λ b, b <| b_qerr := err |>);;
      (match err with Some e => onIoError e | None => onNextMessage end);;
      mret msg
  end.

(** ** Configuration hints of the server *)

Definition readTimeoutHintName : string := "connection.recv_timeout_seconds".
Definition telemetryEnabledHintName : string := "telemetry.enabled".
Definition ssrEnabledHintName : string := "ssr.enabled".

Definition initializeReadTimeoutHint (hints : gomap value) : B unit :=
  match get_as as_int readTimeoutHintName hints with
  | Some readTimeout =>
      when (0 <? readTimeout)
        (go_modify (λ b, b <| b_connReadTimeout := i64 (readTimeout * 1000000000) |>))
  | None => mret tt
  end.

Definition initializeTelemetryEnabledHint (hints : gomap value) : B unit :=
  match get_as as_bool telemetryEnabledHintName hints with
  | Some e => go_modify (λ b, b <| b_telemetryEnabled := e |>)
  | None => mret tt
  end.

Definition initializeSsrEnabledHint (hints : gomap value) : B unit :=
  match get_as as_bool ssrEnabledHintName hints with
  | Some e => go_modify (λ b, b <| b_ssrEnabled := e |>)
  | None => mret tt
  end.

(** ** What the handlers do *)

Definition onHelloSuccess (checkUtcPatch : bool) (m : success) : B unit :=
  when checkUtcPatch (do_world (wuseUtc (bool_decide ("utc" ∈ patches m))));;
  go_modify (λ b, b <| b_connId := connectionId m |> <| b_serverVersion := server m |>);;
  initializeReadTimeoutHint (configurationHints m);;
  match v with
  | V4 => mret tt
  | _ =>
      initializeTelemetryEnabledHint (configurationHints m);;
      initializeSsrEnabledHint (configurationHints m)
  end.

Definition pin_database (m : success) : B unit :=
  match v with
  | V4 => mret tt
  | _ =>
      p ← go_get b_pin;
      when (p && negb (bool_decide (db m = ""))) (do_world (wcall (PinHomeDatabase (db m))))
  end.

Definition onRunSuccess (s : nat) (m : success) : B unit :=
  pin_database m;;
  on_stream s (λ st,
    (if decide (v = V4) then st else st <| s_attached := true |>)
      <| s_keys := fields m |> <| s_qid := qid m |> <| s_tfirst := tfirst m |>);;
  when (-1 <? qid m) (go_modify (λ b, b <| b_lastQid := qid m |>));;
  attach s.

Definition onCommitSuccess (m : success) : B unit :=
  when (negb (bool_decide (bookmark m = ""))) (go_modify (λ b, b <| b_bookmark := bookmark m |>)).

Definition major : Z := match v with V4 => 4 | V5 => 5 | V6 => 6 end.

Definition extractSummary (m : success) (st : stream) : B Summary_ :=
  s ← go_lift (summary m);
  b ← go_get id;
  mret (mkSummary_ s (b_serverVersion b) major (b_minor b) (b_serverName b)
          (s_tfirst st) (s_hadRecord st) (HadKey st)).

(** The end of a stream, in the handlers of PULL and DISCARD. *)
Definition finish_stream (s : nat) (m : success) : B unit :=
  st ← the_stream s;
  sum ← extractSummary m st;
  let bm := sum_Bookmark (su_success sum) in
  when (negb (bool_decide (bm = ""))) (go_modify (λ b, b <| b_bookmark := bm |>));;
  on_stream s (λ st, st <| s_sum := Some sum |>);;
  remove s;;
  checkStreams.

Definition onSuccess (h : responseHandler) (m : success) : B unit :=
  match h with
  | helloHandler checkUtcPatch => onHelloSuccess checkUtcPatch m
  | logoffHandler | logonHandler | rollbackHandler => mret tt
  | routeHandler table =>
      go_modify (λ b, b <| b_tables := <[table := routingTable_ m]> (b_tables b) |>)
  | beginHandler => pin_database m
  | runHandler s => onRunSuccess s m
  | commitHandler => onCommitSuccess m
  | discardHandler s =>
      if hasMore m then on_stream s (λ st, st <| s_endOfBatch := true |>)
      else finish_stream s m
  | pullHandler s =>
      on_stream s (λ st, if s_discarding st then emptyRecords st else st);;
      if hasMore m then on_stream s (λ st, st <| s_endOfBatch := true |>)
      else finish_stream s m
  | resetHandler => set_state Ready
  | telemetryHandler callback => when callback (do_world (wcall TelemetrySucceeded))
  end.

Definition take_record (s : nat) (record : Record_) : B unit :=
  on_stream s (λ st,
    let st := st <| s_hadRecord := true |> in
    if s_discarding st then emptyRecords st
    else push (record <| rec_Keys := s_keys st |>) st);;
  pushFront (pullHandler s).

Definition onRecord (h : responseHandler) : option (Record_ → B unit) :=
  match h with
  | pullHandler s => Some (take_record s)
  | _ => None
  end.

Definition interrupted (s : nat) (doing : string) : B unit :=
  on_stream s (λ st, st <| s_err := Some (ErrorString ("stream interrupted while " +:+ doing)) |>);;
  remove s;;
  checkStreams.

Definition onIgnored (h : responseHandler) : option (B unit) :=
  match h with
  | resetHandler => None
  | discardHandler s => Some (interrupted s "discarding results")
  | pullHandler s => Some (interrupted s "pulling results")
  | _ => Some (mret tt)
  end.

(** The failure is shared: what the listener does to it also shows in the error
    of the stream, which is set first. *)
Definition onFailure (h : responseHandler) (failure : Neo4jError) : B Neo4jError :=
  match h with
  | discardHandler s | pullHandler s =>
      r ← OnNeo4jError failure;
      let '(failure, callbackErr) := r in
      on_stream s (λ st, st <| s_err := Some (Neo4jErr failure) |>);;
      fail_with failure callbackErr
  | resetHandler =>
      r ← OnNeo4jError failure;
      set_state Dead;;
      mret r.1
  | _ =>
      r ← OnNeo4jError failure;
      let '(failure, callbackErr) := r in
      fail_with failure callbackErr
  end.

Definition violation (m : string) : B (error + unit) :=
  mret (inl (ErrorString ("protocol violation: the server sent an unexpected " +:+ m +:+ " response"))).

(** The part of [receive] after a message was read. *)
Definition deliver (res : option message) : B (error + unit) :=
  empty ← isEmpty;
  if empty : bool then mret (inl (ErrorString "no more response callback to apply"))
  else
    h ← pop;
    match res with
    | Some (MRecord r) =>
        match onRecord h with
        | None => violation "RECORD"
        | Some f => f r;; mret (inr tt)
        end
    | Some (MSuccess m) => onSuccess h m;; mret (inr tt)
    | Some (MFailure e) => e ← onFailure h e; mret (inl (Neo4jErr e))
    | Some MIgnored =>
        match onIgnored h with
        | None => violation "IGNORED"
        | Some f => f;; mret (inr tt)
        end
    | None => go_panic
    end.

Definition receive : B (error + unit) :=
  res ← receiveMsg;
  q ← go_get b_qerr;
  match q with
  | Some e => mret (inl e)
  | None => deliver res
  end.

Fixpoint receiveAll (fuel : nat) : B (error + unit) :=
  match fuel with
  | O => go_nofuel
  | S fuel =>
      empty ← isEmpty;
      if empty : bool then mret (inr tt)
      else receive ;? receiveAll fuel
  end.

(** ** Guards *)

Definition Version (b : conn) : ProtocolVersion := mkVersion major (b_minor b).

Definition show_states (l : list conn_state) : string :=
  match l with
  | [] => "[]"
  | s :: l =>
      "[" +:+ pretty (state_number s) +:+
      foldr (λ s acc, " " +:+ pretty (state_number s) +:+ acc) "]" l
  end.

Definition assertState (allowed : list conn_state) : B (error + unit) :=
  go_get (λ b,
    match b_err b with
    | Some e => inl e
    | None =>
        if decide (b_state b ∈ allowed) then inr tt
        else inl (ErrorString ("invalid state " +:+ pretty (state_number (b_state b)) +:+
                               ", expected: " +:+ show_states allowed))
    end).

Definition assertTxHandle (h : Z) : B (error + unit) :=
  go_get (λ b, if b_txId b =? h then inr tt else inl (ErrorString InvalidTransactionError)).

Definition checkReAuth (auth : ReAuthToken Token) : B (error + unit) :=
  go_get (λ b,
    if FromSession auth && ((major <? 5) || ((major =? 5) && (b_minor b =? 0)))
    then inl (FeatureNotSupportedError (b_serverName b) "session auth" "requires least server v5.5")
    else inr tt).

Definition is_default (n : NotificationConfig) : bool :=
  bool_decide (MinSev n = DefaultLevel) &&
  negb (dis_none (DisCats n)) && bool_decide (dis_names (DisCats n) = []) &&
  negb (dis_none (DisClas n)) && bool_decide (dis_names (DisClas n) = []).

Definition checkNotificationFiltering (n : NotificationConfig) : B (error + unit) :=
  go_get (λ b,
    if is_default n then inr tt
    else if (major <? 5) || ((major =? 5) && (b_minor b <? 2))
    then inl (FeatureNotSupportedError (b_serverName b) "notification filtering"
                "requires least server v5.7")
    else inr tt).

(** Only bolt4.go has this check. *)
Definition checkImpersonationAndVersion (impersonatedUser : string) : B (error + unit) :=
  go_get (λ b,
    if decide (v = V4) then
      if negb (bool_decide (impersonatedUser = "")) && (b_minor b <? 4)
      then inl (FeatureNotSupportedError (b_serverName b) "user impersonation"
                  "requires at least server v4.4")
      else inr tt
    else inr tt).

(** ** Connecting *)

(** [token.Tokens] merged into [hello] without overwriting. *)
Definition merge_missing (tokens : gomap goval) (hello : gomap goval) : gomap goval :=
  foldl (λ hello kv, match map_get kv.1 hello with
                     | Some _ => hello
                     | None => map_set kv.1 kv.2 hello
                     end) hello tokens.

Definition make_hello (minor : Z) (userAgent : string) (routingContext : option (gomap string))
    (agent : gomap string) (tokens : gomap goval) (notificationConfig : NotificationConfig) :
    gomap goval :=
  let hello := [("user_agent", GString userAgent)] in
  let hello := match routingContext with
               | Some c => map_set "routing" (GStringMap c) hello
               | None => hello
               end in
  match v with
  | V4 =>
      let hello := if 3 <=? minor then map_set "patch_bolt" (GStrings ["utc"]) hello else hello in
      merge_missing tokens hello
  | V5 =>
      let hello := if 3 <=? minor then map_set "bolt_agent" (GStringMap agent) hello else hello in
      let hello := if minor =? 0 then merge_missing tokens hello else hello in
      ToMeta notificationConfig (mkVersion 5 minor) hello
  | V6 =>
      let hello := map_set "bolt_agent" (GStringMap agent) hello in
      ToMeta notificationConfig (mkVersion 6 minor) hello
  end.

(** Whether LOGON is a message of its own. *)
Definition separate_logon (minor : Z) : bool :=
  match v with V4 => false | V5 => 0 <? minor | V6 => true end.

(** [agent] is what package boltagent says about product, platform and language. *)
Definition Connect (fuel : nat) (minor : Z) (auth : ReAuthToken Token) (userAgent : string)
    (routingContext : option (gomap string)) (agent : gomap string)
    (notificationConfig : NotificationConfig) : B (error + unit) :=
  assertState [Unauthorized] ;?
  go_modify (λ b, b <| b_minor := minor |>);;
  (if decide (v = V6) then do_world (wsupportsUuid (1 <=? minor)) else mret tt);;
  checkReAuth auth ;?
  match GetAuthToken (Manager auth) with
  | inl e => mret (inl e)
  | inr token =>
      go_modify (λ b, b <| b_auth := Some token |>
                        <| b_authManager := Some (manager_id (Manager auth)) |>);;
      checkNotificationFiltering notificationConfig ;?
      append (RHello (make_hello minor userAgent routingContext agent (entries token)
                        notificationConfig))
             (helloHandler (bool_decide (v = V4) && (3 <=? minor)));;
      when (separate_logon minor) (append (RLogon (entries token)) logonHandler);;
      send;;
      last_err ;?
      (match v with V4 => receive | _ => receiveAll fuel end) ;?
      last_err ;?
      set_state Ready;;
      reset_streams;;
      mret (inr tt)
  end.

(** ** Working on streams *)

Definition appendPullN (s : nat) : B unit :=
  st ← the_stream s;
  b ← go_get id;
  match b_state b with
  | Streaming => append (RPullN (s_fetchSize st)) (pullHandler s)
  | StreamingTx =>
      if s_qid st =? b_lastQid b
      then append (RPullN (s_fetchSize st)) (pullHandler s)
      else append (RPullNQid (s_fetchSize st) (s_qid st)) (pullHandler s)
  | _ => mret tt
  end.

(** [stream.sum != nil || stream.err != nil] *)
Definition completed (s : nat) : B bool :=
  st ← the_stream s;
  mret (match s_sum st, s_err st with None, None => false | _, _ => true end).

(** The body of the loop of [bufferStream]; [true] is a return. *)
Definition bufferStream_step (fuel : nat) (s : nat) : B bool :=
  r ← receiveAll fuel;
  match r with
  | inl _ => mret true
  | inr _ =>
      e ← has_err;
      if e : bool then mret true else
      c ← completed s;
      if c : bool then mret true else
      st ← the_stream s;
      if s_endOfBatch st then
        on_stream s (λ st, st <| s_fetchSize := -1 |>);;
        appendPullN s;;
        send;;
        has_err
      else mret false
  end.

(** [for { ... }] around a body that tells when to return *)
Fixpoint go_for (fuel : nat) (body : B bool) : B unit :=
  match fuel with
  | O => go_nofuel
  | S fuel => stop ← body; if stop : bool then mret tt else go_for fuel body
  end.

Definition bufferStream (fuel : nat) : B unit :=
  o ← go_get b_streams;
  match o_curr o with
  | None => mret tt
  | Some s => go_for fuel (bufferStream_step fuel s)
  end.

Definition pauseStream (fuel : nat) : B unit :=
  o ← go_get b_streams;
  match o_curr o with
  | None => mret tt
  | Some s =>
      r ← receiveAll fuel;
      match r with
      | inl _ => mret tt
      | inr _ =>
          e ← has_err;
          if e : bool then mret tt else
          c ← completed s;
          if c : bool then mret tt else
          st ← the_stream s;
          when (s_endOfBatch st) pause
      end
  end.

Definition resumeStream (s : nat) : B unit :=
  resume s;;
  appendPullN s;;
  send.

Definition append_discard (s : nat) : B unit :=
  st ← the_stream s;
  b ← go_get id;
  if bool_decide (b_state b = StreamingTx) && negb (s_qid st =? b_lastQid b)
  then append (RDiscardNQid (s_fetchSize st) (s_qid st)) (discardHandler s)
  else append (RDiscardN (s_fetchSize st)) (discardHandler s).

(** The loop of [discardStream]; [discarded] is the local variable. *)
Fixpoint discard_loop (n fuel : nat) (s : nat) (discarded : bool) : B unit :=
  match n with
  | O => go_nofuel
  | S n =>
      r ← receiveAll fuel;
      match r with
      | inl _ => mret tt
      | inr _ =>
          e ← has_err;
          if e : bool then mret tt else
          c ← completed s;
          if c : bool then mret tt else
          st ← the_stream s;
          if s_endOfBatch st && discarded then remove s;; checkStreams
          else
            on_stream s (λ st, st <| s_fetchSize := -1 |>);;
            append_discard s;;
            send;;
            e ← has_err;
            if e : bool then mret tt else discard_loop n fuel s true
      end
  end.

Definition discardStream (fuel : nat) : B unit :=
  streaming ← in_state [Streaming; StreamingTx];
  if streaming : bool then
    o ← go_get b_streams;
    match o_curr o with
    | None => mret tt
    | Some s =>
        on_stream s (λ st, st <| s_discarding := true |>);;
        discard_loop fuel fuel s false
    end
  else mret tt.

Definition discardAllStreams (fuel : nat) : B unit :=
  streaming ← in_state [Streaming; StreamingTx];
  when streaming (
    discardStream fuel;;
    reset_streams;;
    checkStreams).

(** ** Transactions and queries *)

Record internalTx : Type := mkInternalTx {
  itx_mode : AccessMode;
  itx_bookmarks : list string;
  itx_timeout : Z;
  itx_txMeta : gomap goval;
  itx_databaseName : string;
  itx_impersonatedUser : string;
  itx_notificationConfig : NotificationConfig
}.

(** The timeout in milliseconds, rounded up. *)
Definition timeout_ms (timeout : Z) : Z :=
  let ms := go_div timeout 1000000 in
  if 0 <? go_rem timeout 1000000 then i64 (ms + 1) else ms.

Definition toMeta (version : ProtocolVersion) (i : internalTx) : gomap goval :=
  let meta : gomap goval := [] in
  let meta := match itx_mode i with ReadMode => map_set "mode" (GString "r") meta | WriteMode => meta end in
  let meta := match itx_bookmarks i with [] => meta | l => map_set "bookmarks" (GStrings l) meta end in
  let ms := timeout_ms (itx_timeout i) in
  let meta := if 0 <? ms then map_set "tx_timeout" (GInt ms) meta else meta in
  let meta := match itx_txMeta i with [] => meta | m => map_set "tx_metadata" (GAnyMap m) meta end in
  let meta := if decide (itx_databaseName i = DefaultDatabase) then meta
              else map_set "db" (GString (itx_databaseName i)) meta in
  let meta := if decide (itx_impersonatedUser i = "") then meta
              else map_set "imp_user" (GString (itx_impersonatedUser i)) meta in
  match v with V4 => meta | _ => ToMeta (itx_notificationConfig i) version meta end.

(** The [internalTx] that [TxBegin] and [Run] build. *)
Definition of_config (c : TxConfig) (databaseName : string) : internalTx :=
  mkInternalTx (tc_Mode c) (tc_Bookmarks c) (tc_Timeout c) (tc_Meta c) databaseName
    (tc_ImpersonatedUser c) (tc_NotificationConfig c).

Definition TxBegin (fuel : nat) (txConfig : TxConfig) (syncMessages : bool) : B (error + Z) :=
  streaming ← in_state [Streaming];
  when streaming (bufferStream fuel);;
  (if streaming : bool then last_err else mret (inr tt)) ;?
  reset_streams;;
  assertState [Ready] ;?
  checkImpersonationAndVersion (tc_ImpersonatedUser txConfig) ;?
  checkNotificationFiltering (tc_NotificationConfig txConfig) ;?
  b ← go_get id;
  append (RBegin (toMeta (Version b) (of_config txConfig (b_databaseName b)))) beginHandler;;
  (if syncMessages then send;; last_err ;? receiveAll fuel else mret (inr tt)) ;?
  last_err ;?
  set_state Tx;;
  t ← do_world wnow;
  go_modify (λ b, b <| b_txId := u64 (t `div` 1000000000) |>);;
  inr <$> go_get b_txId.

(** The common part of [TxCommit] and [TxRollback]. *)
Definition end_transaction (fuel : nat) (txh : Z) (r : request) (h : responseHandler) :
    B (error + unit) :=
  assertTxHandle txh ;?
  discardAllStreams fuel;;
  last_err ;?
  assertState [Tx] ;?
  append r h;;
  send;;
  last_err ;?
  receiveAll fuel ;?
  last_err ;?
  set_state Ready;;
  mret (inr tt).

Definition TxCommit (fuel : nat) (txh : Z) : B (error + unit) :=
  end_transaction fuel txh RCommit commitHandler.

Definition TxRollback (fuel : nat) (txh : Z) : B (error + unit) :=
  end_transaction fuel txh RRollback rollbackHandler.

Definition fetchSize_default : Z := 1000.

Definition normalizeFetchSize (fetchSize : Z) : Z :=
  if fetchSize <? 0 then -1 else if fetchSize =? 0 then fetchSize_default else fetchSize.

(** [stream := &stream{fetchSize: fetchSize}] *)
Definition alloc_stream (fetchSize : Z) : B nat := λ b,
  Done (length (b_store b), b <| b_store := b_store b ++ [new_stream fetchSize] |>).

(** [for !stream.attached] *)
Fixpoint await_attached (fuel : nat) (s : nat) : B (error + unit) :=
  match fuel with
  | O => go_nofuel
  | S fuel =>
      st ← the_stream s;
      if s_attached st then mret (inr tt)
      else receive ;? last_err ;? await_attached fuel s
  end.

(** bolt6.go drops the message and the first handler when packing failed. *)
Definition after_append_run : B (error + unit) :=
  match v with
  | V6 =>
      e ← has_err;
      if e : bool then do_world wdrop;; pop;; last_err else mret (inr tt)
  | _ => mret (inr tt)
  end.

Definition start_streaming : B unit :=
  s ← go_get b_state;
  match s, v with
  | Ready, _ => set_state Streaming
  | Tx, _ | _, V4 => set_state StreamingTx
  | _, _ => mret tt
  end.

(** [run] once the stream exists. *)
Definition run_stream (fuel : nat) (cypher : string) (params : gomap goval)
    (tx : option internalTx) (fetchSize : Z) (s : nat) : B (error + unit) :=
  b ← go_get id;
  append (RRun cypher params (default [] (toMeta (Version b) <$> tx))) (runHandler s);;
  after_append_run ;?
  append (RPullN fetchSize) (pullHandler s);;
  send;;
  last_err ;?
  (match v with V4 => receive ;? last_err | _ => await_attached fuel s end) ;?
  start_streaming;;
  mret (inr tt).

Definition run (fuel : nat) (cypher : string) (params : gomap goval) (rawFetchSize : Z)
    (tx : option internalTx) : B (error + nat) :=
  st ← go_get b_state;
  (match st with
   | Streaming => bufferStream fuel;; last_err
   | StreamingTx => pauseStream fuel;; last_err
   | _ => mret (inr tt)
   end) ;?
  assertState [Tx; Ready; StreamingTx] ;?
  let fetchSize := normalizeFetchSize rawFetchSize in
  s ← alloc_stream fetchSize;
  run_stream fuel cypher params tx fetchSize s ;?
  mret (inr s).

Definition Run (fuel : nat) (cmd : Command) (txConfig : TxConfig) : B (error + nat) :=
  assertState [Streaming; Ready] ;?
  checkImpersonationAndVersion (tc_ImpersonatedUser txConfig) ;?
  checkNotificationFiltering (tc_NotificationConfig txConfig) ;?
  b ← go_get id;
  run fuel (cmd_Cypher cmd) (cmd_Params cmd) (cmd_FetchSize cmd)
    (Some (of_config txConfig (b_databaseName b))).

Definition RunTx (fuel : nat) (txh : Z) (cmd : Command) : B (error + nat) :=
  assertTxHandle txh ;?
  run fuel (cmd_Cypher cmd) (cmd_Params cmd) (cmd_FetchSize cmd) None.

(** ** Results *)

Definition Keys (h : option nat) : B (error + list string) :=
  s ←? getUnsafe h;
  st ← the_stream s;
  mret (inr (s_keys st)).

Definition next_result : Type := option Record_ * option Summary_ * option error.
Definition next_error (e : error) : next_result := (None, None, Some e).

(** The loop of [Next]. *)
Fixpoint next_loop (fuel : nat) (s : nat) : B next_result :=
  match fuel with
  | O => go_nofuel
  | S fuel =>
      st ← the_stream s;
      let '((buf, rec, sum, err), st') := bufferedNext st in
      on_stream s (λ _, st');;
      if buf : bool then mret (rec, sum, err) else
      e ← (if s_endOfBatch st' then
             appendPullN s;;
             send;;
             last_err ;?
             on_stream s (λ st, st <| s_endOfBatch := false |>);;
             mret (inr tt)
           else mret (inr tt));
      match e with
      | inl e => mret (next_error e)
      | inr _ =>
          empty ← isEmpty;
          if empty : bool then mret (next_error (ErrorString "there should be more results to pull"))
          else
            r ← (receive ;? last_err);
            match r with
            | inl e => mret (next_error e)
            | inr _ => next_loop fuel s
            end
      end
  end.

Definition Next (fuel : nat) (h : option nat) : B next_result :=
  r ← getUnsafe h;
  match r with
  | inl e => mret (next_error e)
  | inr s => next_loop fuel s
  end.

(** The guards that [Consume] and [Buffer] share, and the switch of streams. *)
Definition select_stream (fuel : nat) (s : nat) : B (error + unit) :=
  isSafe s ;?
  assertState [Streaming; StreamingTx] ;?
  o ← go_get b_streams;
  if decide (o_curr o = Some s) then mret (inr tt)
  else
    pauseStream fuel;;
    last_err ;?
    resumeStream s;;
    mret (inr tt).

(** [(summary, error)], both of which come from the stream. *)
Definition Consume (fuel : nat) (h : option nat) : B (option Summary_ * option error) :=
  r ← getUnsafe h;
  match r with
  | inl e => mret (None, Some e)
  | inr s =>
      c ← completed s;
      st ← the_stream s;
      if c : bool then mret (s_sum st, s_err st) else
      r ← select_stream fuel s;
      match r with
      | inl e => mret (None, Some e)
      | inr _ =>
          discardStream fuel;;
          st ← the_stream s;
          mret (s_sum st, s_err st)
      end
  end.

Definition Buffer (fuel : nat) (h : option nat) : B (option error) :=
  r ← getUnsafe h;
  match r with
  | inl e => mret (Some e)
  | inr s =>
      c ← completed s;
      st ← the_stream s;
      if c : bool then mret (Err st) else
      r ← select_stream fuel s;
      match r with
      | inl e => mret (Some e)
      | inr _ =>
          bufferStream fuel;;
          Err <$> the_stream s
      end
  end.

(** ** Resetting, routing, authentication *)

Definition IsAlive (b : conn) : bool := negb (bool_decide (b_state b = Dead)).
Definition HasFailed (b : conn) : bool := bool_decide (b_state b = Failed).

Definition ForceReset (fuel : nat) : B unit :=
  dead ← in_state [Dead];
  if dead : bool then mret tt else
  go_modify (λ b, b <| b_err := None |>);;
  r ← (receiveAll fuel ;? last_err);
  match r with
  | inl _ => mret tt
  | inr _ =>
      append RReset resetHandler;;
      send;;
      e ← has_err;
      if e : bool then mret tt else receive;; mret tt
  end.

Definition Reset (fuel : nat) : B unit :=
  ready ← in_state [Ready];
  when (negb ready) (ForceReset fuel);;
  go_modify (λ b, b <| b_txId := 0 |> <| b_bookmark := "" |>
                    <| b_databaseName := DefaultDatabase |> <| b_err := None |>
                    <| b_lastQid := -1 |>);;
  reset_streams.

(** [var routingTable *idb.RoutingTable] *)
Definition alloc_table : B nat := λ b,
  Done (length (b_tables b), b <| b_tables := b_tables b ++ [None] |>).

Definition request_table (fuel : nat) (r : request) : B (error + option RoutingTable) :=
  table ← alloc_table;
  append r (routeHandler table);;
  send;;
  last_err ;?
  receiveAll fuel ;?
  last_err ;?
  inr <$> go_get (λ b, default None (b_tables b !! table)).

Definition route_extras (database impersonatedUser : string) : gomap goval :=
  let extras : gomap goval := [] in
  let extras := if decide (database = DefaultDatabase) then extras
                else map_set "db" (GString database) extras in
  if decide (impersonatedUser = "") then extras
  else map_set "imp_user" (GString impersonatedUser) extras.

Definition DefaultTxConfigTimeout : Z := - 2 ^ 63.
Definition no_notifications : NotificationConfig :=
  mkNotificationConfig "" (mkDisabled false []) (mkDisabled false []).

(** bolt4.go: the query that older servers answer. *)
Definition routing_command (routingContext : gomap string) (database : string) : Command :=
  if decide (database = DefaultDatabase)
  then mkCommand "CALL dbms.routing.getRoutingTable($context)"
         [("context", GStringMap routingContext)] (-1)
  else mkCommand "CALL dbms.routing.getRoutingTable($context, $database)"
         [("context", GStringMap routingContext); ("database", GString database)] (-1).

Definition set_database (t : RoutingTable) (database : string) : RoutingTable :=
  t <| rt_DatabaseName := database |>.

Definition query_table (fuel : nat) (routingContext : gomap string) (bookmarks : list string)
    (database : string) : B (error + option RoutingTable) :=
  s ←? Run fuel (routing_command routingContext database)
         (mkTxConfig ReadMode bookmarks DefaultTxConfigTimeout "" [] no_notifications);
  n ← Next fuel (Some s);
  match n with
  | (_, _, Some e) => mret (inl e)
  | (None, _, None) => mret (inl (ErrorString "no routing table record"))
  | (Some rec, _, None) =>
      Next fuel (Some s);;
      t ← go_lift (Summaries.parseRoutingTableRecord rec);
      match t with
      | None => mret (inl (ErrorString "unable to parse routing table"))
      | Some t => mret (inr (Some (set_database t database)))
      end
  end.

Definition callGetRoutingTable (fuel : nat) (routingContext : gomap string)
    (bookmarks : list string) (database : string) : B (error + option RoutingTable) :=
  originalDatabaseName ← go_get b_databaseName;
  go_modify (λ b, b <| b_databaseName := "system" |>);;
  r ← query_table fuel routingContext bookmarks database;
  go_modify (λ b, b <| b_databaseName := originalDatabaseName |>);;
  mret r.

(** A nil table is dereferenced in the second case of bolt4.go. *)
Definition GetRoutingTable (fuel : nat) (routingContext : gomap string) (bookmarks : list string)
    (database impersonatedUser : string) : B (error + option RoutingTable) :=
  assertState [Ready] ;?
  minor ← go_get b_minor;
  if decide (v = V4 ∧ minor <= 3) then
    checkImpersonationAndVersion impersonatedUser ;?
    if 2 <? minor then
      t ←? request_table fuel (RRouteV43 routingContext bookmarks database);
      t ← go_lift t;
      mret (inr (Some (set_database t database)))
    else callGetRoutingTable fuel routingContext bookmarks database
  else request_table fuel (RRoute routingContext bookmarks (route_extras database impersonatedUser)).

Definition Close : B unit :=
  dead ← in_state [Dead];
  when (negb dead) (
    when (negb (bool_decide (v = V4))) (set_state Dead);;
    pack RGoodbye;;
    send);;
  do_world wclose;;
  when (bool_decide (v = V4)) (set_state Dead).

Definition fallbackReAuth (auth : ReAuthToken Token) : B (error + unit) :=
  checkReAuth auth ;?
  b ← go_get id;
  if b_resetAuth b then Close;; mret (inr tt)
  else
    match GetAuthToken (Manager auth) with
    | inl e => mret (inl e)
    | inr token =>
        when (negb (bool_decide (b_auth b = Some token))) Close;;
        mret (inr tt)
    end.

Definition reAuth (fuel : nat) (auth : ReAuthToken Token) : B (error + unit) :=
  match GetAuthToken (Manager auth) with
  | inl e => mret (inl e)
  | inr token =>
      b ← go_get id;
      if b_resetAuth b || negb (bool_decide (b_auth b = Some token)) || ForceReAuth auth then
        append RLogoff logoffHandler;;
        append (RLogon (entries token)) logonHandler;;
        send;;
        last_err ;?
        go_modify (λ b, b <| b_auth := Some token |>
                          <| b_authManager := Some (manager_id (Manager auth)) |>);;
        if ForceReAuth auth then receiveAll fuel ;? last_err
        else mret (inr tt)
      else mret (inr tt)
  end.

Definition ReAuth (fuel : nat) (auth : ReAuthToken Token) : B (error + unit) :=
  minor ← go_get b_minor;
  match v with
  | V4 => fallbackReAuth auth
  | V5 => if minor =? 0 then fallbackReAuth auth else reAuth fuel auth
  | V6 => reAuth fuel auth
  end.

Definition ResetAuth : B unit := go_modify (λ b, b <| b_resetAuth := true |>).
Definition SelectDatabase (database : string) : B unit :=
  go_modify (λ b, b <| b_databaseName := database |>).

(** [callback] tells whether a callback is given. *)
Definition SetPinHomeDatabaseCallback (callback : bool) : B unit :=
  match v with
  | V4 => mret tt
  | _ => go_modify (λ b, b <| b_pin := callback |>)
  end.

Definition IsSsrEnabled (b : conn) : bool :=
  match v with V4 => false | _ => b_ssrEnabled b end.

Definition Telemetry (api : Z) (callback : bool) : B unit :=
  b ← go_get id;
  if match v with
     | V4 => false
     | V5 => b_telemetryEnabled b && (4 <=? b_minor b)
     | V6 => b_telemetryEnabled b
     end
  then append (RTelemetry api) (telemetryHandler callback)
  else when callback (do_world (wcall TelemetrySucceeded)).

(** [NewBolt4], [NewBolt5], [NewBolt6]; [now] is the time. *)
Definition NewBolt (serverName : string) (now : Z) (w : W) : conn :=
  mkBolt Unauthorized 0 (mkOpenstreams None 0 0) serverName [] None "" "" "" now "" None 0 (-1)
    now None None false false false false (-1) [] [] w.
End Connection.
