(* ===== verification/BoltLogic.v ===== *)
(** Reasoning about connections: a program logic for methods of a connection, the
    interface of a server that answers every request in order, and the invariant
    that ties the handlers of a connection to the answers it is owed. *)

From S2P Require Import Prelude Values Errors Messages Outgoing Bolt.
#[local] Open Scope Z_scope.
#[local] Open Scope go_scope.

Create HintDb bolt discriminated.

(** Lets [simpl] compute fields of updated records. *)
#[global] Arguments RecordSetters.constant {_} _ _ /.

(** * Hoare triples

    [px] and [bx] say whether a panic and a call that does not return are
    acceptable. *)

Section Logic.
Context {S : Type} (px bx : Prop).

Definition hoare {A} (P : S → Prop) (m : GoM S A) (Q : A → S → Prop) : Prop :=
  ∀ s, P s →
    match m s with
    | Done (a, s') => Q a s'
    | Panic => px
    | OutOfFuel => bx
    end.

Lemma hoare_bind {A B} P (m : GoM S A) R (k : A → GoM S B) Q :
  hoare P m R → (∀ a, hoare (R a) (k a) Q) → hoare P (m ≫= k) Q.
Proof.
  intros Hm Hk s Hs. unfold mbind, GoM_bind. specialize (Hm s Hs).
  destruct (m s) as [[a s'] | |]; [by apply Hk | done | done].
Qed.

Lemma hoare_seq {A B} P (m : GoM S A) R (k : GoM S B) Q :
  hoare P m (λ _, R) → hoare R k Q → hoare P (m;; k) Q.
Proof. intros Hm Hk. by eapply hoare_bind. Qed.

Lemma hoare_pre {A} (P P' : S → Prop) (m : GoM S A) Q :
  hoare P' m Q → (∀ s, P s → P' s) → hoare P m Q.
Proof. intros Hm HP s Hs. by apply Hm, HP. Qed.

Lemma hoare_post {A} P (m : GoM S A) (Q Q' : A → S → Prop) :
  hoare P m Q' → (∀ a s, Q' a s → Q a s) → hoare P m Q.
Proof.
  intros Hm HQ s Hs. specialize (Hm s Hs).
  destruct (m s) as [[a s'] | |]; auto.
Qed.

Lemma hoare_and {A} P (m : GoM S A) (Q Q' : A → S → Prop) :
  hoare P m Q → hoare P m Q' → hoare P m (λ a s, Q a s ∧ Q' a s).
Proof.
  intros HQ HQ' s Hs. specialize (HQ s Hs). specialize (HQ' s Hs).
  destruct (m s) as [[a s'] | |]; auto.
Qed.

Lemma hoare_ret {A} (a : A) (P : S → Prop) (Q : A → S → Prop) :
  (∀ s, P s → Q a s) → hoare P (mret a) Q.
Proof. intros HQ s Hs. by apply HQ. Qed.

Lemma hoare_fmap {A B} P (m : GoM S A) R (f : A → B) (Q : B → S → Prop) :
  hoare P m R → (∀ a s, R a s → Q (f a) s) → hoare P (f <$> m) Q.
Proof. intros Hm HQ. eapply hoare_bind; [done |]. intros a. apply hoare_ret, HQ. Qed.

Lemma hoare_get {A} (f : S → A) (P : S → Prop) (Q : A → S → Prop) :
  (∀ s, P s → Q (f s) s) → hoare P (go_get f) Q.
Proof. intros HQ s Hs. by apply HQ. Qed.

Lemma hoare_read {A B} (f : S → A) P (k : A → GoM S B) Q :
  (∀ a, hoare P (k a) Q) → hoare P (go_get f ≫= k) Q.
Proof. intros Hk s Hs. by apply Hk. Qed.

Lemma hoare_modify (f : S → S) (P : S → Prop) (Q : unit → S → Prop) :
  (∀ s, P s → Q tt (f s)) → hoare P (go_modify f) Q.
Proof. intros HQ s Hs. by apply HQ. Qed.

Lemma hoare_nofuel {A} P (Q : A → S → Prop) : bx → hoare P go_nofuel Q.
Proof. by intros ? s ?. Qed.

Lemma hoare_panic {A} P (Q : A → S → Prop) : px → hoare P go_panic Q.
Proof. by intros ? s ?. Qed.

Lemma hoare_pure {A} (φ : Prop) P (m : GoM S A) Q :
  (φ → hoare P m Q) → hoare (λ s, φ ∧ P s) m Q.
Proof. intros Hm s [Hφ Hs]. by apply Hm. Qed.

(** The state before the call, for use in the rest of the proof. *)
Lemma hoare_at {A} (P : S → Prop) (m : GoM S A) Q :
  (∀ s, P s → hoare (eq s) m Q) → hoare P m Q.
Proof. intros Hm s Hs. by apply (Hm s). Qed.
End Logic.

(** ** Methods that leave a part of the state alone *)

Section Preserving.
Context {S X : Type} (f : S → X).

Definition preserves {A} (m : GoM S A) : Prop :=
  ∀ s a s', m s = Done (a, s') → f s' = f s.

Lemma preserves_ret {A} (a : A) : preserves (mret a).
Proof. by intros s a' s' [= _ <-]. Qed.

Lemma preserves_get {A} (g : S → A) : preserves (go_get g).
Proof. by intros s a' s' [= _ <-]. Qed.

Lemma preserves_modify (g : S → S) : (∀ s, f (g s) = f s) → preserves (go_modify g).
Proof. by intros Hg s a' s' [= _ <-]. Qed.

Lemma preserves_lift {A} (o : option A) : preserves (go_lift o).
Proof. intros s a s'. unfold go_lift. by destruct o; intros [= _ <-]. Qed.

Lemma preserves_panic {A} : preserves (A := A) go_panic.
Proof. by intros s a s'. Qed.

Lemma preserves_bind {A B} (m : GoM S A) (k : A → GoM S B) :
  preserves m → (∀ a, preserves (k a)) → preserves (m ≫= k).
Proof.
  intros Hm Hk s b s'. unfold mbind, GoM_bind. destruct (m s) as [[a s1] | |] eqn:E; [| done..].
  intros Hs. by rewrite (Hk _ _ _ _ Hs), (Hm _ _ _ E).
Qed.

Lemma hoare_preserves {A} px bx (P : S → Prop) (m : GoM S A) Q x :
  hoare px bx P m Q → preserves m →
  hoare px bx (λ s, P s ∧ f s = x) m (λ a s, Q a s ∧ f s = x).
Proof.
  intros Hm Hp s [Hs Hx]. specialize (Hm s Hs). specialize (Hp s).
  destruct (m s) as [[a s'] | |]; [| done..]. by rewrite (Hp a s').
Qed.
End Preserving.

Section PreservingParts.
Context {W Token : Type} `{World W}.

Lemma preserves_world {A X} (f : bolt W Token → X) (m : GoM W A) :
  (∀ b w, f (b <| b_world := w |>) = f b) → preserves f (do_world m).
Proof.
  intros Hf b a b'. unfold do_world.
  destruct (m (b_world b)) as [[? ?] | |]; intros [= _ <-]. apply Hf.
Qed.

Lemma preserves_the_stream {X} (f : bolt W Token → X) s : preserves f (the_stream s).
Proof. intros b a b'. unfold the_stream. by destruct (b_store b !! s); intros [= _ <-]. Qed.

Lemma preserves_on_stream {X} (f : bolt W Token → X) s g :
  (∀ b l, f (b <| b_store := l |>) = f b) → preserves f (on_stream s g).
Proof.
  intros Hf. apply preserves_bind; [apply preserves_the_stream |].
  intros st; by apply preserves_modify.
Qed.

End PreservingParts.

(** * Servers that keep to the protocol

    [owed] lists the requests whose last response has not been read yet, oldest
    first; the last [unsent] of them have not left the client, and [backlog]
    bounds the messages on their way. *)

Definition is_pull (r : request) : bool :=
  match r with RPullAll | RPullN _ | RPullNQid _ _ => true | _ => false end.

(** The messages a server may send in response to a request. *)
Definition answers (r : request) (m : message) : Prop :=
  match m with
  | MRecord _ => is_pull r = true
  | MSuccess s => is_Some (summary s)
  | MFailure _ => True
  | MIgnored => r ≠ RReset
  end.

(** The requests that remain owed when the oldest got this message. *)
Definition after_message (m : message) (l : list request) : list request :=
  match m with MRecord _ => l | _ => tail l end.

Definition expected (r : request) : list request :=
  match r with RGoodbye => [] | _ => [r] end.

Class Conforming (W : Type) `{World W} : Type := {
  owed : W → list request;
  unsent : W → nat;
  backlog : W → nat;
  (** an operation that does not concern the requests *)
  quiet {A} (m : GoM W A) : Prop := ∀ w,
    match m w with
    | Done (_, w') => owed w' = owed w ∧ unsent w' = unsent w ∧ backlog w' = backlog w
    | _ => False
    end;
  quiet_close : quiet wclose;
  quiet_now : quiet wnow;
  quiet_listen e : quiet (wlisten e);
  quiet_call c : quiet (wcall c);
  quiet_utc u : quiet (wuseUtc u);
  quiet_uuid u : quiet (wsupportsUuid u);
  drop_returns w : ∃ w', wdrop w = Done (tt, w');
  pack_owed r w :
    match wpack r w with
    | Done ([], w') =>
        owed w' = owed w ++ expected r ∧ unsent w' = (unsent w + length (expected r))%nat
        ∧ backlog w' = backlog w
    | Done (_, _) => True
    | _ => False
    end;
  send_owed w :
    match wsend w with
    | Done (None, w') => owed w' = owed w ∧ unsent w' = 0%nat
    | Done (Some _, _) => True
    | _ => False
    end;
  next_owed w :
    match wnext w with
    | Done ((Some m, None), w') =>
        ∃ r rest, owed w = r :: rest ∧ answers r m ∧ owed w' = after_message m (owed w)
                  ∧ unsent w' = unsent w ∧ (backlog w' < backlog w)%nat
    | Done ((None, None), _) | Panic => False
    | Done ((_, Some _), _) => True
    | OutOfFuel => length (owed w) = unsent w
    end
}.

(** How far the answers are: only sending, packing and reading change it. *)
Definition load {W Token : Type} `{Conforming W} (b : bolt W Token) : nat * nat :=
  (unsent (b_world b), backlog (b_world b)).

Lemma preserves_load {W Token A : Type} `{Conforming W} (m : GoM W A) :
  quiet m → preserves (load (Token := Token)) (do_world m).
Proof.
  intros Hm b a b'. unfold do_world. specialize (Hm (b_world b)).
  destruct (m (b_world b)) as [[? w] | |]; intros [= _ <-].
  destruct Hm as (_ & Hu & Hb). unfold load. simpl. by rewrite Hu, Hb.
Qed.

Ltac preserving := repeat first [ progress intros
  | lazymatch goal with
    | |- preserves _ (mret _) => apply preserves_ret
    | |- preserves _ (go_get _) => apply preserves_get
    | |- preserves _ (go_modify _) => apply preserves_modify; intros; reflexivity
    | |- preserves _ (do_world _) =>
        first [ apply preserves_world; intros; reflexivity
              | apply preserves_load;
                first [ apply quiet_close | apply quiet_now | apply quiet_listen | apply quiet_call
                      | apply quiet_utc | apply quiet_uuid ] ]
    | |- preserves _ (the_stream _) => apply preserves_the_stream
    | |- preserves _ (go_lift _) => apply preserves_lift
    | |- preserves _ go_panic => apply preserves_panic
    | |- preserves _ (on_stream _ _) => apply preserves_on_stream; intros; reflexivity
    | |- preserves _ (match ?c with _ => _ end) => destruct c
    | |- preserves _ (when ?c _) => destruct c; unfold when
    | |- preserves _ (_ ≫= _) => apply preserves_bind
    end ].

(** * The invariant *)

(** The handler that [append] is called with for a request. *)
Definition handles (h : responseHandler) (r : request) : bool :=
  match h, r with
  | helloHandler _, RHello _ | logoffHandler, RLogoff | logonHandler, RLogon _
  | routeHandler _, RRoute _ _ _ | routeHandler _, RRouteV43 _ _ _
  | beginHandler, RBegin _ | runHandler _, RRun _ _ _
  | commitHandler, RCommit | rollbackHandler, RRollback
  | discardHandler _, RDiscardN _ | discardHandler _, RDiscardNQid _ _
  | pullHandler _, RPullN _ | pullHandler _, RPullNQid _ _
  | resetHandler, RReset | telemetryHandler _, RTelemetry _ => true
  | _, _ => false
  end.

Definition stream_of (h : responseHandler) : option nat :=
  match h with
  | runHandler s | discardHandler s | pullHandler s => Some s
  | _ => None
  end.

Lemma handles_expected h r : handles h r = true → expected r = [r].
Proof. by destruct h, r. Qed.

Lemma onRecord_is_Some {W Token : Type} `{World W} h r :
  handles h r = true → is_pull r = true → ∃ s, h = pullHandler s.
Proof. destruct h, r; simpl; intros; try done; eauto. Qed.

Section Invariant.
Context {W Token : Type} `{Conforming W}.
Abbreviation conn := (bolt W Token).

(** How much holds while a call is under way: the handlers need not fit while the
    mode is not [aligned], which must end with the death of the connection; a
    handler of RESET is only in the queue while [resetting]. *)
Record mode : Type := mkMode { aligned : bool; resetting : bool }.
Definition settled : mode := mkMode true false.
Definition broken (md : mode) : mode := mkMode false (resetting md).

(** [n] streams exist; [pre] are handlers taken from the front of the queue and
    [post] handlers not yet put at its end. *)
Record inv (md : mode) (n : nat) (pre post : list responseHandler) (b : conn) : Prop := {
  inv_store : (n <= length (b_store b))%nat;
  inv_curr s : o_curr (b_streams b) = Some s → (s < length (b_store b))%nat;
  inv_streams h s : h ∈ pre ++ b_handlers b ++ post → stream_of h = Some s →
    (s < length (b_store b))%nat;
  inv_dead : aligned md = true → b_state b = Dead → b_err b ≠ None;
  inv_err : b_err b ≠ None → b_state b = Failed ∨ b_state b = Dead;
  inv_qerr : aligned md = true → b_state b ≠ Dead → b_qerr b = None;
  inv_owed : aligned md = true → b_state b ≠ Dead →
    Forall2 (λ h r, handles h r = true) (pre ++ b_handlers b ++ post) (owed (b_world b));
  inv_reset : resetting md = false → resetHandler ∉ pre ++ b_handlers b ++ post
}.

(** The invariant looks at little of the connection. *)
Lemma inv_change md n pre post (b b' : conn) :
  inv md n pre post b →
  (length (b_store b) <= length (b_store b'))%nat →
  o_curr (b_streams b') = o_curr (b_streams b) ∨ o_curr (b_streams b') = None →
  b_handlers b' = b_handlers b →
  (aligned md = true → b_state b' = Dead → b_err b' ≠ None) →
  (b_err b' ≠ None → b_state b' = Failed ∨ b_state b' = Dead) →
  (aligned md = true → b_state b' ≠ Dead →
     b_state b ≠ Dead ∧ b_qerr b' = b_qerr b ∧ owed (b_world b') = owed (b_world b)) →
  inv md n pre post b'.
Proof.
  intros [] Hs Hc Hh Hd He Ha. constructor; rewrite ?Hh; auto.
  - lia.
  - intros s Hcurr. destruct Hc as [Hc | Hc]; rewrite Hc in Hcurr; [| done].
    apply inv_curr0 in Hcurr. lia.
  - intros h s Hin Hst. specialize (inv_streams0 h s Hin Hst). lia.
  - intros Hm Hb. apply Ha in Hb as (? & -> & _); auto.
  - intros Hm Hb. apply Ha in Hb as (? & _ & ->); auto.
Qed.

Lemma inv_ext md n pre post (b b' : conn) :
  inv md n pre post b →
  (length (b_store b) <= length (b_store b'))%nat →
  o_curr (b_streams b') = o_curr (b_streams b) ∨ o_curr (b_streams b') = None →
  b_handlers b' = b_handlers b → b_state b' = b_state b → b_err b' = b_err b →
  b_qerr b' = b_qerr b → owed (b_world b') = owed (b_world b) →
  inv md n pre post b'.
Proof.
  intros Hb Hs Hc Hh Ht He Hq Ho.
  apply (inv_change _ _ _ _ b); rewrite ?Ht, ?He; auto;
    [apply (inv_dead _ _ _ _ _ Hb) | apply (inv_err _ _ _ _ _ Hb)].
Qed.

Lemma inv_weaken md n n' pre post (b : conn) :
  inv md n pre post b → (n' <= n)%nat → inv md n' pre post b.
Proof. intros [] Hn. constructor; auto. lia. Qed.

Lemma bolt_inv_length md n pre post (b : conn) :
  inv md n pre post b → inv md (length (b_store b)) pre post b.
Proof. intros []. constructor; auto. Qed.

(** A dead connection needs no alignment. *)
Lemma inv_of_dead md n pre post b :
  inv (broken md) n pre post b → b_state b = Dead → b_err b ≠ None → inv md n pre post b.
Proof. intros [] Hd He. constructor; auto; by intros. Qed.

Lemma inv_broken md n pre post b : inv md n pre post b → inv (broken md) n pre post b.
Proof. intros []. constructor; auto; by intros. Qed.

Lemma inv_resetting n pre post b :
  inv settled n pre post b → inv (mkMode true true) n pre post b.
Proof. intros []. constructor; auto; by intros. Qed.
End Invariant.
