(* ===== verification/BoltSteps.v ===== *)
(** The operations of a connection keep the invariant of [BoltLogic]: one lemma
    per method, for any server that keeps to the protocol. *)

From S2P Require Import Prelude Values Errors Messages Outgoing Bolt BoltLogic.
#[local] Open Scope Z_scope.
#[local] Open Scope go_scope.

Section Steps.
Context {W Token : Type} `{Conforming W} `{Tokens Token}.
Variable show : error → string.
Variable v : version.
(** Whether a panic and a call that does not return are acceptable. *)
Variable px bx : Prop.

(** In bolt6.go an unsupported feature is the only error of packing that is not
    fatal. *)
Hypothesis packs : v = V6 → ∀ r w es w',
  wpack r w = Done (es, w') → Forall (λ e, is_feature_error e = false) es.

Abbreviation conn := (bolt W Token).
Abbreviation B := (GoM conn).
Abbreviation triple P m Q := (hoare px bx (P : conn → Prop) m Q).
Abbreviation I := (inv (Token := Token)).

(** What is known of [b.err] and [b.state] besides the invariant. *)
Abbreviation fact := (option error → conn_state → Prop).
Abbreviation J Φ md n pre post := (λ b : conn, I md n pre post b ∧ Φ (b_err b) (b_state b)).

(** A method that keeps the invariant, and a fact. *)
Definition keeps {A} (Φ : fact) (n0 : nat) (m : B A) : Prop :=
  ∀ md n pre post, (n0 <= n)%nat → triple (J Φ md n pre post) m (λ _, J Φ md n pre post).

Definition anything : fact := λ _ _, True.

(** Facts that survive the end of a stream. *)
Definition stable (Φ : fact) : Prop :=
  (∀ e, Φ e StreamingTx → Φ e Tx) ∧ (∀ e, Φ e Streaming → Φ e Ready).

Lemma keeps_ret {A} Φ n0 (a : A) : keeps Φ n0 (mret a).
Proof. intros md n pre post _. by apply hoare_ret. Qed.

Lemma keeps_bind {A C} Φ n0 (m : B A) (k : A → B C) :
  keeps Φ n0 m → (∀ a, keeps Φ n0 (k a)) → keeps Φ n0 (m ≫= k).
Proof.
  intros Hm Hk md n pre post Hn. eapply hoare_bind; [by apply Hm |]. intros a. by apply Hk.
Qed.

Lemma keeps_get {A} Φ n0 (f : conn → A) : keeps Φ n0 (go_get f).
Proof. intros md n pre post _. by apply hoare_get. Qed.

Lemma keeps_when Φ n0 c (m : B unit) : keeps Φ n0 m → keeps Φ n0 (when c m).
Proof. destruct c; [done | intros; apply keeps_ret]. Qed.

Lemma keeps_nofuel {A} Φ n0 : bx → keeps (A := A) Φ n0 go_nofuel.
Proof. intros Hbx md n pre post _. by apply hoare_nofuel. Qed.

(** A change of fields that the invariant does not mention. *)
Lemma keeps_modify Φ n0 (f : conn → conn) :
  (∀ b, (length (b_store b) <= length (b_store (f b)))%nat) →
  (∀ b, o_curr (b_streams (f b)) = o_curr (b_streams b) ∨ o_curr (b_streams (f b)) = None) →
  (∀ b, b_handlers (f b) = b_handlers b) → (∀ b, b_state (f b) = b_state b) →
  (∀ b, b_err (f b) = b_err b) → (∀ b, b_qerr (f b) = b_qerr b) →
  (∀ b, b_world (f b) = b_world b) → keeps Φ n0 (go_modify f).
Proof.
  intros Hs Hc Hh Ht He Hq Hw md n pre post _. apply hoare_modify. intros b [Hb HΦ]. split.
  - eapply inv_ext; eauto. f_equal. auto.
  - by rewrite He, Ht.
Qed.

Lemma keeps_world {A} Φ n0 (m : GoM W A) : quiet m → keeps Φ n0 (do_world m).
Proof.
  intros Hm md n pre post _ b [Hb HΦ]. unfold do_world. specialize (Hm (b_world b)).
  destruct (m (b_world b)) as [[a w] | |]; [| done | done]. split; [| done].
  eapply inv_ext; [done | by simpl | by left | done.. | by apply Hm].
Qed.

Lemma keeps_the_stream Φ n0 s : (s < n0)%nat → keeps Φ n0 (the_stream s).
Proof.
  intros Hs md n pre post Hn b [Hb HΦ]. unfold the_stream.
  destruct (lookup_lt_is_Some_2 (b_store b) s) as [st ->]; [| done].
  pose proof (inv_store _ _ _ _ _ Hb). lia.
Qed.

Ltac quiet_modify :=
  apply keeps_modify; intros; simpl;
  rewrite ?length_insert; try done; try (by left); try (by right); try lia.

Lemma keeps_on_stream Φ n0 s f : (s < n0)%nat → keeps Φ n0 (on_stream s f).
Proof.
  intros. apply keeps_bind; [by apply keeps_the_stream |]. intros st. quiet_modify.
Qed.

Lemma keeps_reset_streams Φ n0 : keeps Φ n0 reset_streams.
Proof.
  apply keeps_bind; [apply keeps_world, quiet_now |]. intros t. quiet_modify.
Qed.

#[local] Hint Resolve keeps_ret keeps_get keeps_when keeps_nofuel keeps_the_stream
  keeps_on_stream keeps_reset_streams keeps_world quiet_close quiet_now quiet_listen quiet_call
  quiet_utc quiet_uuid : bolt.
#[local] Hint Extern 5 (keeps _ _ (go_modify _)) => solve [quiet_modify] : bolt.
#[local] Hint Extern 5 (keeps _ _ (on_streams _)) => solve [quiet_modify] : bolt.

Ltac keeping := repeat first [ progress intros | solve [eauto with bolt]
  | match goal with
    | |- keeps _ _ (match ?c with _ => _ end) => destruct c
    | |- keeps _ _ (when _ _) => apply keeps_when
    | |- keeps _ _ (_ ≫= _) => apply keeps_bind
    end ].

Lemma keeps_pause Φ n0 : keeps Φ n0 pause.
Proof. quiet_modify. Qed.

Lemma keeps_remove Φ n0 s : (s < n0)%nat → keeps Φ n0 (remove s).
Proof.
  intros. unfold remove. keeping. quiet_modify. case_decide; simpl; auto.
Qed.
#[local] Hint Resolve keeps_pause keeps_remove : bolt.

(** The stream that is current exists. *)
Lemma with_current Φ {A} n0 (k : option nat → B A) :
  (∀ n1, (n0 <= n1)%nat → keeps Φ n1 (k None)) →
  (∀ s n1, (n0 <= n1)%nat → (s < n1)%nat → keeps Φ n1 (k (Some s))) →
  keeps Φ n0 (o ← go_get b_streams; k (o_curr o)).
Proof.
  intros HN HS md n pre post Hn b [Hb HΦ]. unfold mbind, GoM_bind, go_get.
  destruct (o_curr (b_streams b)) as [s |] eqn:Hc; [| by apply (HN n0); [lia | lia |]].
  pose proof (inv_curr _ _ _ _ _ Hb s Hc) as Hs.
  assert (Hb' : I md (length (b_store b)) pre post b) by (destruct Hb; constructor; auto).
  pose proof (inv_store _ _ _ _ _ Hb).
  specialize (HS s (length (b_store b)) ltac:(lia) Hs md _ pre post (le_n _) b (conj Hb' HΦ)).
  destruct (k (Some s) b) as [[a b'] | |]; [| done | done].
  destruct HS as [[] ?]. split; [| done]. constructor; eauto. lia.
Qed.

(** ** Changing the state *)

Lemma keeps_checkStreams Φ n0 : stable Φ → keeps Φ n0 checkStreams.
Proof.
  intros [Htx Hrd] md n pre post _ b [Hb HΦ].
  unfold checkStreams, mbind, GoM_bind, go_get. destruct (_ <=? _); [| done].
  destruct (b_state b) eqn:Hs; try (split; [done | by rewrite Hs]).
  all: pose proof (inv_err _ _ _ _ _ Hb) as He; rewrite Hs in He.
  all: split; [apply (inv_change _ _ _ _ b) | simpl; auto]; auto; try done; [| by rewrite Hs].
  all: intros Hn; by destruct (He Hn).
Qed.

Lemma keeps_detach Φ n0 sum err : keeps Φ n0 (detach sum err).
Proof.
  apply (with_current Φ n0 (λ c, match c with None => mret tt | Some s =>
    on_stream s (λ st, st <| s_sum := sum |> <| s_err := err |>);; remove s end)); keeping.
Qed.
#[local] Hint Resolve keeps_detach keeps_checkStreams : bolt.

Lemma keeps_handleTerminated Φ n0 e : keeps Φ n0 (handleTerminatedContextError show e).
Proof. unfold handleTerminatedContextError. keeping. Qed.
#[local] Hint Resolve keeps_handleTerminated : bolt.

Definition failed (fatal : bool) : fact := λ e s, e ≠ None ∧ (fatal = true → s = Dead).

Lemma stable_failed f : stable (failed f).
Proof. split; intros e [He Hs]; split; auto; intros Hf; by apply Hs in Hf. Qed.
#[local] Hint Resolve stable_failed : bolt.

(** ** Errors *)

(** The invariant of [b] changed, with what [inv_change] leaves to show. *)
Ltac change_inv b :=
  apply (inv_change _ _ _ _ b);
  [assumption | apply Nat.le_refl | by left | reflexivity | simpl; try done | simpl; auto; try done
  | simpl; try done].

Definition has_failed : fact := λ e _, e ≠ None.

Lemma record_error_spec e prior md n pre post :
  triple (λ b, I md n pre post b ∧ (if prior : bool then b_err b ≠ None else b_err b = None))
    (when (negb prior) (go_modify (λ b : conn, b <| b_err := Some e |> <| b_state := Failed |>)))
    (λ _, J has_failed md n pre post).
Proof.
  intros b [Hb He]. destruct prior; simpl; [done |]. split; [| done].
  change_inv b. intros Hm _. split; [| done]. intros Hd. by apply (inv_dead _ _ _ _ _ Hb Hm) in Hd.
Qed.

Lemma has_err_spec md n pre post :
  triple (I md n pre post) has_err
    (λ prior b, I md n pre post b ∧ (if prior : bool then b_err b ≠ None else b_err b = None)).
Proof. apply hoare_get. intros b Hb. split; [done |]. by destruct (b_err b). Qed.

Lemma set_dead_spec md n pre post :
  triple (J has_failed md n pre post) (set_state Dead) (λ _, J (failed true) md n pre post).
Proof.
  apply hoare_modify. intros b [Hb HΦ]. split; [| done].
  by change_inv b.
Qed.

Lemma keeps_override e n0 : keeps has_failed n0 (go_modify (λ b : conn, b <| b_err := Some e |>)).
Proof.
  intros md n pre post _. apply hoare_modify. intros b [Hb HΦ]. split; [| done].
  change_inv b. intros _. by apply (inv_err _ _ _ _ _ Hb).
Qed.
#[local] Hint Resolve keeps_override : bolt.

Lemma end_of_setError_spec e fatal n0 :
  keeps (failed fatal) n0 (
    o ← go_get b_streams;
    match o_curr o with
    | Some _ => detach None (Some e);; checkStreams
    | None => mret tt
    end).
Proof. keeping. Qed.

Lemma setError_spec e fatal md n pre post :
  triple (I md n pre post) (setError show e fatal) (λ _, J (failed fatal) md n pre post).
Proof.
  unfold setError. eapply hoare_bind; [apply has_err_spec |]. intros prior.
  eapply hoare_bind; [apply record_error_spec |]. intros [].
  eapply hoare_bind with (R := λ _, J (failed fatal) md n pre post).
  - destruct fatal; simpl; [| by apply hoare_ret; intros b [? ?]; split].
    eapply hoare_bind; [apply (keeps_handleTerminated _ 0); lia |]. intros c.
    eapply hoare_seq; [| apply set_dead_spec].
    destruct c; [apply (keeps_override _ 0) | apply (keeps_ret _ 0)]; lia.
  - intros []. apply (end_of_setError_spec _ _ 0). lia.
Qed.

(** A fatal error makes up for whatever was broken. *)
Lemma fatal_spec (m : B unit) md n pre post :
  triple (I (broken md) n pre post) m (λ _, J (failed true) (broken md) n pre post) →
  triple (I (broken md) n pre post) m (λ _, J (failed true) md n pre post).
Proof.
  intros Hm. eapply hoare_post; [apply Hm |]. intros _ b [Hb [He Hd]].
  split; [| done]. apply inv_of_dead; auto.
Qed.

Lemma is_feature_fill e name : is_feature_error (fillServerName e name) = is_feature_error e.
Proof. by destruct e as [| | | [|? ?] | | | | | | | | | | | | | | | | | | | | | | | |]. Qed.

Lemma onPackErr_spec e md n pre post :
  (v = V6 → is_feature_error e = false) →
  triple (I (broken md) n pre post) (onPackErr show v e) (λ _, J (failed true) md n pre post).
Proof.
  intros He. apply fatal_spec. apply hoare_read. intros name. cbv zeta.
  destruct v; [apply setError_spec | apply setError_spec |].
  rewrite is_feature_fill, He by done. apply setError_spec.
Qed.

Lemma report_pack_errors_spec es md n pre post :
  es ≠ [] → (v = V6 → Forall (λ e, is_feature_error e = false) es) →
  triple (I (broken md) n pre post) (report_pack_errors show v es) (λ _, J (failed true) md n pre post).
Proof.
  destruct es as [| e es]; [done |]. intros _. revert e.
  induction es as [| e' es IH]; intros e Hes; simpl.
  - eapply hoare_seq; [apply (onPackErr_spec _ md) |]; [| by apply hoare_ret].
    intros Hv. by apply Hes, Forall_cons in Hv as [? _].
  - eapply hoare_seq; [apply (onPackErr_spec _ (broken md)) |].
    { intros Hv. by apply Hes, Forall_cons in Hv as [? _]. }
    eapply hoare_pre; [apply IH |]; [| by intros b [? _]].
    intros Hv. by apply Hes, Forall_cons in Hv as [_ ?].
Qed.

Lemma onIoError_spec e md n pre post :
  triple (I (broken md) n pre post) (onIoError show e) (λ _, J (failed true) md n pre post).
Proof.
  apply fatal_spec. unfold onIoError.
  apply hoare_read. intros broken.
  eapply hoare_seq; [| apply setError_spec].
  eapply hoare_pre; [eapply hoare_post |].
  - apply (keeps_when anything 0); [apply keeps_world, quiet_call | lia].
  - by intros ? ? [? _].
  - done.
Qed.

(** ** Sending *)

(** A request is packed and owed, or packing has failed for good. *)
Lemma pack_spec Φ r h md n pre :
  handles h r = true → (∀ s, stream_of h = Some s → (s < n)%nat) →
  (resetting md = false → h ≠ resetHandler) →
  triple (J Φ md n pre []) (pack show v r)
    (λ _ b, I md n pre [h] b ∧ (Φ (b_err b) (b_state b) ∨ failed true (b_err b) (b_state b))).
Proof.
  intros Hh Hs Hr b [Hb HΦ]. unfold pack, mbind, GoM_bind, do_world.
  pose proof (pack_owed r (b_world b)) as Ho. pose proof (λ Hv, packs Hv r (b_world b)) as Hp.
  destruct (wpack r (b_world b)) as [[es w] | |]; [| done | done].
  assert (Hst : ∀ h' s, h' ∈ pre ++ b_handlers b ++ [h] → stream_of h' = Some s →
                  (s < length (b_store b))%nat).
  { intros h' s. rewrite app_assoc, elem_of_app, list_elem_of_singleton. intros [Hin | ->] Hh'.
    - eapply (inv_streams _ _ _ _ _ Hb); [rewrite app_nil_r |]; eauto.
    - specialize (Hs _ Hh'). pose proof (inv_store _ _ _ _ _ Hb). lia. }
  destruct es as [| e es].
  - simpl. split; [| by left]. destruct Ho as (Ho & _). rewrite (handles_expected h r Hh) in Ho.
    destruct Hb. rewrite app_nil_r in *. constructor; simpl; auto.
    + intros Hmd Hd. rewrite Ho, app_assoc. by apply Forall2_app; [auto | constructor].
    + intros Hmd. rewrite app_assoc, not_elem_of_app, list_elem_of_singleton.
      split; [auto | intros Heq; by apply Hr].
  - assert (Hbr : I (broken md) n pre [h] (b <| b_world := w |>)).
    { destruct Hb. rewrite app_nil_r in *. constructor; auto; try done. intros Hmd.
      rewrite app_assoc, not_elem_of_app, list_elem_of_singleton.
      split; [auto | intros Heq; by apply Hr]. }
    assert (Hes : e :: es ≠ []) by done.
    pose proof (report_pack_errors_spec _ md n pre [h] Hes (λ Hv, Hp Hv _ _ eq_refl) _ Hbr) as Hq.
    destruct (report_pack_errors show v (e :: es) _) as [[[] b'] | |]; [| done | done].
    destruct Hq as [? ?]. auto.
Qed.

Lemma enqueue_spec (Φ : fact) h md n pre :
  triple (λ b, I md n pre [h] b ∧ Φ (b_err b) (b_state b)) (enqueueCallback h)
    (λ _ b, J Φ md n pre [] b ∧ b_handlers b ≠ []).
Proof.
  apply hoare_modify. intros b [[] HΦ]. split; [split; [| done] |].
  - constructor; auto; simpl; by rewrite app_nil_r.
  - simpl. by destruct (b_handlers b).
Qed.

Definition or_dead (Φ : fact) : fact := λ e s, Φ e s ∨ failed true e s.

Lemma append_spec Φ r h md n pre :
  handles h r = true → (∀ s, stream_of h = Some s → (s < n)%nat) →
  (resetting md = false → h ≠ resetHandler) →
  triple (J Φ md n pre []) (append show v r h)
    (λ _ b, J (or_dead Φ) md n pre [] b ∧ b_handlers b ≠ []).
Proof.
  intros. eapply hoare_seq; [by apply (pack_spec Φ r h) |]. apply (enqueue_spec (or_dead Φ)).
Qed.

Lemma send_spec Φ md n pre post :
  triple (J Φ md n pre post) (send show) (λ _, J (or_dead Φ) md n pre post).
Proof.
  intros b [Hb HΦ]. unfold send, mbind, GoM_bind, do_world.
  pose proof (send_owed (b_world b)) as Ho.
  destruct (wsend (b_world b)) as [[[e |] w] | |]; [| | done | done].
  - assert (Hbr : I (broken md) n pre post (b <| b_world := w |>)).
    { destruct Hb. constructor; auto; done. }
    pose proof (onIoError_spec e md n pre post _ Hbr) as Hq.
    destruct (onIoError show e _) as [[[] b'] | |]; [| done | done].
    destruct Hq. split; [done | by right].
  - simpl. split; [| by left]. destruct Ho as [Ho _]. eapply inv_ext; eauto.
Qed.

(** ** Handlers *)

Lemma keeps_set_current Φ n0 s f :
  (s < n0)%nat → (∀ o, o_curr (f o) = Some s ∨ o_curr (f o) = o_curr o) →
  keeps Φ n0 (on_streams f).
Proof.
  intros Hs Hf md n pre post Hn. apply hoare_modify. intros b [Hb HΦ]. split; [| done].
  destruct Hb. constructor; simpl; auto. intros s' Hc.
  destruct (Hf (b_streams b)) as [Hf' | Hf']; rewrite Hf' in Hc; [| by auto].
  simplify_eq. eapply Nat.lt_le_trans; [| done]. lia.
Qed.

Lemma keeps_attach Φ n0 s : (s < n0)%nat → keeps Φ n0 (attach s).
Proof.
  intros. unfold attach. keeping. eapply keeps_set_current; [done |]. intros. by left.
Qed.

Lemma keeps_resume Φ n0 s : (s < n0)%nat → keeps Φ n0 (resume s).
Proof.
  intros. eapply keeps_set_current; [done |]. intros o. simpl. destruct (o_curr o) eqn:?; auto.
Qed.
#[local] Hint Resolve keeps_attach keeps_resume : bolt.

Lemma keeps_lift {A} Φ n0 (o : option A) : is_Some o → keeps Φ n0 (go_lift o).
Proof. intros [a ->] md n pre post _. by apply hoare_ret. Qed.
#[local] Hint Resolve keeps_lift : bolt.

Lemma keeps_finish_stream Φ n0 s m :
  stable Φ → is_Some (summary m) → (s < n0)%nat → keeps Φ n0 (finish_stream v s m).
Proof. intros. unfold finish_stream, extractSummary. keeping. Qed.

Lemma keeps_hints Φ n0 hints :
  keeps Φ n0 (initializeReadTimeoutHint hints) ∧ keeps Φ n0 (initializeTelemetryEnabledHint hints) ∧
  keeps Φ n0 (initializeSsrEnabledHint hints).
Proof.
  unfold initializeReadTimeoutHint, initializeTelemetryEnabledHint, initializeSsrEnabledHint.
  split_and!; keeping.
Qed.

Lemma keeps_onHelloSuccess Φ n0 c m : keeps Φ n0 (onHelloSuccess v c m).
Proof.
  destruct (keeps_hints Φ n0 (configurationHints m)) as (? & ? & ?).
  unfold onHelloSuccess. keeping.
Qed.

Lemma keeps_pin_database Φ n0 m : keeps Φ n0 (pin_database v m).
Proof. unfold pin_database. keeping. Qed.
#[local] Hint Resolve keeps_finish_stream keeps_onHelloSuccess keeps_pin_database : bolt.

Lemma keeps_onSuccess Φ n0 h m :
  stable Φ → is_Some (summary m) → h ≠ resetHandler →
  (∀ s, stream_of h = Some s → (s < n0)%nat) → keeps Φ n0 (onSuccess v h m).
Proof.
  intros HΦ Hm Hh Hs.
  destruct h; try done; simpl; unfold onRunSuccess, onCommitSuccess;
    try specialize (Hs _ eq_refl); keeping.
Qed.

Lemma keeps_onIgnored Φ n0 h f :
  stable Φ → (∀ s, stream_of h = Some s → (s < n0)%nat) → onIgnored h = Some f → keeps Φ n0 f.
Proof.
  intros HΦ Hs. destruct h; intros [= <-]; simpl; try specialize (Hs _ eq_refl);
    unfold interrupted; keeping.
Qed.

Lemma keeps_OnNeo4jError Φ n0 e : keeps Φ n0 (OnNeo4jError e).
Proof. unfold OnNeo4jError. keeping. Qed.

Lemma fail_with_spec e c md n pre post :
  triple (I md n pre post) (fail_with show v e c) (λ _, J has_failed md n pre post).
Proof.
  unfold fail_with. eapply hoare_seq; [apply setError_spec |].
  apply hoare_ret. by intros b [? [? _]].
Qed.

Lemma onFailure_spec h e md n pre post :
  h ≠ resetHandler → (∀ s, stream_of h = Some s → (s < n)%nat) →
  triple (I md n pre post) (onFailure show v h e) (λ _, J has_failed md n pre post).
Proof.
  intros Hh Hs.
  assert (Hk : ∀ k : Neo4jError * option error → B Neo4jError,
    (∀ r, triple (I md n pre post) (k r) (λ _, J has_failed md n pre post)) →
    triple (I md n pre post) (OnNeo4jError e ≫= k) (λ _, J has_failed md n pre post)).
  { intros k Hk. eapply hoare_bind; [| apply Hk].
    eapply hoare_pre; [eapply hoare_post; [by apply (keeps_OnNeo4jError anything 0); lia |] |].
    - by intros ? ? [? _].
    - done. }
  destruct h; try done; apply Hk; intros [e' c]; try apply fail_with_spec.
  all: eapply hoare_seq; [| apply fail_with_spec].
  all: eapply hoare_pre; [eapply hoare_post; [by apply (keeps_on_stream anything n); auto |] |].
  all: try done; by intros ? ? [? _].
Qed.

(** ** Receiving *)

(** Just after [m] was read: it answers the request of the first handler. *)
Definition due (m : message) (b : conn) : Prop :=
  ∃ r rest, Forall2 (λ h r, handles h r = true) (b_handlers b) (r :: rest) ∧ answers r m ∧
            owed (b_world b) = after_message m (r :: rest).

Definition readable (m : message) : Prop :=
  match m with MSuccess s => is_Some (summary s) | _ => True end.

(** The outcome of reading: an error only if the connection has failed. *)
Definition received (Φ : fact) (n : nat) (r : error + unit) (b : conn) : Prop :=
  I settled n [] [] b ∧
  match r with inr _ => Φ (b_err b) (b_state b) | inl _ => b_err b ≠ None end.

Lemma popped_inv m h hs n b :
  I (broken settled) n [] [] b → b_qerr b = None → b_handlers b = h :: hs →
  (b_state b = Dead → b_err b ≠ None) → (b_state b ≠ Dead → due m b) →
  match m with
  | MRecord _ => I settled n [h] [] (b <| b_handlers := hs |>)
  | _ => I settled n [] [] (b <| b_handlers := hs |>)
  end.
Proof.
  intros Hb Hq Hh Hde Hd.
  assert (Hdone : b_state b ≠ Dead → ∃ r rest, owed (b_world b) = after_message m (r :: rest) ∧
    handles h r = true ∧ Forall2 (λ h r, handles h r = true) hs rest).
  { intros Ha. destruct (Hd Ha) as (r & rest & Hal & _ & Ho).
    rewrite Hh in Hal. apply Forall2_cons_1 in Hal as [? ?]. eauto. }
  destruct Hb as [H2 H3 H4 _ H5 _ _ H6]. rewrite Hh in H4, H6.
  destruct m; (constructor; [exact H2 | exact H3 | | exact (λ _, Hde) | exact H5 | done | |]).
  all: try (intros h' i Hin; first [exact (H4 h' i Hin) | exact (H4 h' i (list_elem_of_further _ h _ Hin))]).
  all: try (intros Hmd Hin; first [exact (H6 Hmd Hin) | exact (H6 Hmd (list_elem_of_further _ h _ Hin))]).
  all: intros _ Ha; destruct (Hdone Ha) as (q & rest & Ho & ? & ?); simpl in Ho;
    first [ change (Forall2 (λ h r, handles h r = true) (hs ++ []) (owed (b_world b)))
          | change (Forall2 (λ h r, handles h r = true) (h :: hs ++ []) (owed (b_world b))) ];
    rewrite app_nil_r, Ho; by try constructor.
Qed.

Lemma pushFront_spec Φ h n :
  triple (J Φ settled n [h] []) (pushFront h) (λ _, J Φ settled n [] []).
Proof. apply hoare_modify. intros b [[] HΦ]. split; [| done]. by constructor. Qed.

Lemma take_record_spec Φ s r n :
  (s < n)%nat →
  triple (J Φ settled n [pullHandler s] []) (take_record s r) (λ _, J Φ settled n [] []).
Proof.
  intros. eapply hoare_seq; [| apply pushFront_spec]. by apply (keeps_on_stream _ n).
Qed.

Lemma received_at Φ n pre (m : B unit) b :
  (∀ n1, n1 = length (b_store b) →
     triple (J Φ settled n1 pre []) m (λ _, J Φ settled n1 [] [])) →
  I settled n pre [] b → Φ (b_err b) (b_state b) →
  match (m;; mret (inr tt)) b with
  | Done (r, b') => received Φ n r b'
  | Panic => px
  | OutOfFuel => bx
  end.
Proof.
  intros Hm Hb HΦ. specialize (Hm _ eq_refl b (conj (bolt_inv_length _ _ _ _ _ Hb) HΦ)).
  pose proof (inv_store _ _ _ _ _ Hb). unfold mbind, GoM_bind.
  destruct (m b) as [[[] b'] | |]; [| done..]. destruct Hm as [Hb' HΦ'].
  split; [by eapply inv_weaken | done].
Qed.

Lemma deliver_spec Φ m n :
  stable Φ → readable m →
  triple (λ b, I (broken settled) n [] [] b ∧ b_qerr b = None ∧ Φ (b_err b) (b_state b) ∧
               (b_state b = Dead → b_err b ≠ None) ∧ (b_state b ≠ Dead → due m b))
    (deliver show v (Some m)) (received Φ n).
Proof.
  intros HΦ Hm b (Hb & Hq & HΦb & Hde & Hd). unfold deliver, isEmpty, pop.
  unfold mbind at 1, GoM_bind at 1. unfold go_get.
  destruct (b_handlers b) as [| h hs] eqn:Hh.
  { assert (Hdead : b_state b = Dead).
    { destruct (decide (b_state b = Dead)) as [| Ha]; [done |].
      destruct (Hd Ha) as (r & rest & Hal & _). rewrite Hh in Hal. by inversion Hal. }
    split; [apply inv_of_dead; auto | auto]. }
  unfold mbind at 1, GoM_bind at 1. rewrite Hh.
  pose proof (popped_inv m h hs n b Hb Hq Hh Hde Hd) as Hp.
  assert (Hr : h ≠ resetHandler).
  { intros ->. apply (inv_reset _ _ _ _ _ Hb eq_refl). rewrite Hh. by left. }
  assert (Hs : ∀ s, stream_of h = Some s → (s < length (b_store b))%nat).
  { intros s Hst. apply (inv_streams _ _ _ _ _ Hb h); [| done]. rewrite Hh. by left. }
  destruct m as [m | | e | rec].
  - apply (received_at _ _ []); [| done | done]. intros n1 ->. apply (keeps_onSuccess _ (length (b_store b))); auto.
  - destruct (onIgnored h) as [f |] eqn:Hf; [| by destruct h].
    apply (received_at _ _ []); [| done | done]. intros n1 ->.
    by apply (keeps_onIgnored _ (length (b_store b)) h).
  - pose proof (onFailure_spec h e settled _ [] [] Hr Hs _ (bolt_inv_length _ _ _ _ _ Hp)) as Hf.
    pose proof (inv_store _ _ _ _ _ Hb).
    unfold mbind, GoM_bind. destruct (onFailure show v h e _) as [[e' b'] | |]; [| done..].
    destruct Hf as [Hb' He]. split; [by eapply inv_weaken | done].
  - destruct (onRecord h) as [f |] eqn:Hf.
    + destruct h; try done. injection Hf as <-.
      apply (received_at _ _ [pullHandler s]); [| done | done]. intros n1 ->. apply take_record_spec. by apply Hs.
    + assert (Hdead : b_state b = Dead).
      { destruct (decide (b_state b = Dead)) as [| Ha]; [done |].
        destruct (Hd Ha) as (r & rest & Hal & Han & _). rewrite Hh in Hal.
        apply Forall2_cons_1 in Hal as [Hhr _]. simpl in Han. by destruct h, r. }
      specialize (Hde Hdead). split; [| done]. apply inv_of_dead; [| done | done].
      destruct Hp as [P1 P2 P3 P4 P5 _ _ P6]. constructor; try done.
      * intros h' s Hin. exact (P3 h' s (list_elem_of_further _ h _ Hin)).
      * intros Hmd Hin. exact (P6 Hmd (list_elem_of_further _ h _ Hin)).
Qed.


Lemma setError_qerr e fatal : preserves (b_qerr (W := W) (Token := Token)) (setError show e fatal).
Proof.
  unfold setError, handleTerminatedContextError, detach, remove, checkStreams, set_state, on_streams.
  unfold has_err. preserving.
Qed.

Lemma onIoError_qerr e : preserves (b_qerr (W := W) (Token := Token)) (onIoError show e).
Proof.
  unfold onIoError, in_state. preserving. apply setError_qerr.
Qed.

(** What reading a message leads to. *)
Record read_message (b : conn) (m : message) (r : request) (rest : list request) (b' : conn) : Prop := {
  read_owed : owed (b_world b) = r :: rest;
  read_answers : answers r m;
  read_after : owed (b_world b') = after_message m (r :: rest);
  read_unsent : unsent (b_world b') = unsent (b_world b);
  read_backlog : (backlog (b_world b') < backlog (b_world b))%nat;
  read_qerr : b_qerr b' = None;
  read_handlers : b_handlers b' = b_handlers b;
  read_state : b_state b' = b_state b;
  read_err : b_err b' = b_err b;
  read_streams : b_streams b' = b_streams b;
  read_store : b_store b' = b_store b
}.

Lemma receive_cases md n (b : conn) :
  I md n [] [] b → b_qerr b = None →
  (∃ m r rest b', read_message b m r rest b' ∧ receive show v b = deliver show v (Some m) b') ∨
  match receive show v b with
  | Done (r, b') => (∃ e, r = inl e) ∧ J (failed true) md n [] [] b'
  | Panic => px
  | OutOfFuel => bx ∨ length (owed (b_world b)) = unsent (b_world b)
  end.
Proof.
  intros Hb Hq. unfold receive, receiveMsg, mbind, GoM_bind, mret, GoM_ret, go_get, do_world.
  rewrite Hq. pose proof (next_owed (b_world b)) as Ho.
  destruct (wnext (b_world b)) as [[[m [e |]] w] | |]; [right | left | by destruct Ho | by right; right].
  - change (go_modify _ _) with (Done (tt, b <| b_world := w |> <| b_qerr := Some e |>)). cbv iota beta.
    assert (Hbr : I (broken md) n [] [] (b <| b_world := w |> <| b_qerr := Some e |>)).
    { destruct Hb. by constructor. }
    pose proof (onIoError_spec e _ _ _ _ _ Hbr) as He.
    pose proof (onIoError_qerr e (b <| b_world := w |> <| b_qerr := Some e |>)) as Hqe.
    destruct (onIoError show e _) as [[[] b'] | |]; [| done | by left].
    rewrite (Hqe _ _ eq_refl). split; [by eexists | done].
  - destruct m as [m |]; [| done]. destruct Ho as (r & rest & Ho & Ha & Ho' & Hu & Hl).
    change (go_modify _ _) with (Done (tt, b <| b_world := w |> <| b_qerr := None |>)). cbv iota beta.
    unfold onNextMessage, mbind, GoM_bind, do_world. simpl b_world.
    pose proof (quiet_now w) as Hn. destruct (wnow w) as [[t w'] | |]; [| done..].
    destruct Hn as (Hn & Hn' & Hn''). exists m, r, rest.
    exists (b <| b_world := w |> <| b_qerr := None |> <| b_world := w' |> <| b_idleDate := t |>).
    split; [| done]. constructor; simpl; auto; [congruence.. | lia].
Qed.

Lemma read_inv md n b m r rest b' :
  I md n [] [] b → read_message b m r rest b' → I (broken md) n [] [] b'.
Proof.
  intros [H2 H3 H4 H5 Hf _ _ H6] [_ _ _ _ _ _ Hh Ht He Hs Hst].
  constructor; rewrite ?Hst, ?Hs, ?Hh, ?Ht, ?He; auto; done.
Qed.

Lemma inv_no_handlers md n b :
  I md n [] [] b → I (broken md) n [] [] (b <| b_handlers := [] |>).
Proof.
  intros []. constructor; try done.
  - intros h s Hin. by apply elem_of_nil in Hin.
  - intros _ Hin. by apply elem_of_nil in Hin.
Qed.

Abbreviation L Φ n := (J Φ settled n [] []).

Definition no_error : fact := λ e _, e = None.

(** ** Receiving the answer to RESET *)

Lemma receiveAll_empty fuel (b b' : conn) :
  receiveAll show v fuel b = Done (inr tt, b') → b_handlers b' = [].
Proof.
  revert b. induction fuel as [| fuel IH]; intros b; simpl; [done |].
  unfold mbind, GoM_bind, isEmpty, go_get.
  destruct (b_handlers b) eqn:Hh.
  - intros [= <-]. done.
  - destruct (receive show v b) as [[[e | []] b1] | |]; try done. apply IH.
Qed.

Lemma setError_handlers e fatal :
  preserves (b_handlers (W := W) (Token := Token)) (setError show e fatal).
Proof.
  unfold setError, handleTerminatedContextError, detach, remove, checkStreams, set_state, on_streams.
  unfold has_err. preserving.
Qed.

Lemma pack_handlers r : preserves (b_handlers (W := W) (Token := Token)) (pack show v r).
Proof.
  unfold pack. apply preserves_bind; [by apply preserves_world |]. intros es.
  induction es as [| e es IH]; simpl; [apply preserves_ret |].
  apply preserves_bind; [| done]. unfold onPackErr. preserving; apply setError_handlers.
Qed.

Lemma send_handlers : preserves (b_handlers (W := W) (Token := Token)) (send show).
Proof.
  unfold send, onIoError, in_state. preserving. apply setError_handlers.
Qed.

Abbreviation reset_mode := (mkMode true true).

(** The answer to RESET makes the connection ready or ends it. *)
Lemma receive_reset_spec n :
  triple (λ b, I reset_mode n [] [] b ∧ b_err b = None ∧ b_handlers b = [resetHandler] ∧
               unsent (b_world b) = 0%nat)
    (receive show v)
    (λ _ b, b_state b ≠ Dead → L anything n b ∧ b_state b = Ready ∧ b_handlers b = []).
Proof.
  intros b (Hb & He & Hh & Hu).
  assert (Ha : b_state b ≠ Dead).
  { intros Hd. by apply (inv_dead _ _ _ _ _ Hb eq_refl) in Hd. }
  pose proof (inv_owed _ _ _ _ _ Hb eq_refl Ha) as Hal. rewrite Hh in Hal. simpl in Hal.
  destruct (receive_cases _ _ _ Hb (inv_qerr _ _ _ _ _ Hb eq_refl Ha))
    as [(m & r & rest & b' & Hr & ->) | Hf].
  2:{ destruct (receive show v b) as [[r b'] | |]; [| done |]; cycle 1.
      { destruct Hf as [? | Hf]; [done |]. apply Forall2_length in Hal. by rewrite Hf, Hu in Hal. }
      destruct Hf as (_ & _ & _ & Hd). intros Hn. by rewrite Hd in Hn. }
  pose proof (inv_no_handlers _ _ _ (read_inv _ _ _ _ _ _ _ Hb Hr)) as Hb'.
  destruct Hr. rewrite read_owed0 in Hal. apply Forall2_cons_1 in Hal as [Hr Hal].
  apply Forall2_nil_inv_l in Hal as ->. assert (r = RReset) as -> by by destruct r.
  unfold deliver, isEmpty, pop, mbind, GoM_bind, go_get. rewrite read_handlers0, Hh, read_handlers0, Hh.
  destruct m as [m | | e | rec]; [| done | | done].
  - intros _. split; [split; [| done] | done]. destruct Hb' as [H2 H3 H4 _ _ _ _ _].
    constructor; try done.
    + change (b_err b' ≠ None → Ready = Failed ∨ Ready = Dead). by rewrite read_err0, He.
    + intros _ _. simpl in read_after0. change (Forall2 (λ h r, handles h r = true) [] (owed (b_world b'))).
      rewrite read_after0. constructor.
    + intros _ Hin. by apply elem_of_nil in Hin.
  - unfold onFailure, mbind, GoM_bind.
    pose proof (keeps_OnNeo4jError anything 0 e (broken (broken reset_mode)) n [] [] ltac:(lia) _
      (conj Hb' Logic.I)) as HN.
    destruct (OnNeo4jError e _) as [[r b''] | |]; [by intros Hd | done..].
Qed.

(** What is sent is no longer waiting to be sent. *)
Lemma send_unsent md n :
  triple (I md n [] []) (send show)
    (λ _ b, unsent (b_world b) = 0%nat ∨ failed true (b_err b) (b_state b)).
Proof.
  intros b Hb. pose proof (send_spec anything md n [] [] b (conj Hb Logic.I)) as Hs.
  unfold send, mbind, GoM_bind, do_world in *. pose proof (send_owed (b_world b)) as Ho.
  destruct (wsend (b_world b)) as [[[e |] w] | |]; [| | done | done].
  - pose proof (onIoError_spec e md n [] [] (b <| b_world := w |>)) as He.
    destruct (onIoError show e _) as [[[] b'] | |]; [| done..]. right. apply He.
    destruct Hb. constructor; auto; done.
  - left. apply Ho.
Qed.

Lemma send_handlers_spec Φ md n hs :
  triple (λ b, J Φ md n [] [] b ∧ b_handlers b = hs) (send show)
    (λ _ b, (J (or_dead Φ) md n [] [] b ∧ b_handlers b = hs) ∧
            (unsent (b_world b) = 0%nat ∨ failed true (b_err b) (b_state b))).
Proof.
  apply hoare_and.
  - apply (hoare_preserves b_handlers); [apply send_spec | apply send_handlers].
  - eapply hoare_pre; [apply send_unsent |]. by intros b [[? _] _].
Qed.

Lemma append_handlers_spec Φ r h md n hs :
  handles h r = true → (∀ s, stream_of h = Some s → (s < n)%nat) →
  (resetting md = false → h ≠ resetHandler) →
  triple (λ b, J Φ md n [] [] b ∧ b_handlers b = hs) (append show v r h)
    (λ _ b, J (or_dead Φ) md n [] [] b ∧ b_handlers b = hs ++ [h]).
Proof.
  intros Hh Hs Hr. eapply hoare_bind.
  - apply (hoare_preserves b_handlers); [by apply (pack_spec Φ r h) | apply pack_handlers].
  - intros _ b [Hb Hhs]. pose proof (enqueue_spec (or_dead Φ) h md n [] b Hb) as He.
    unfold enqueueCallback, go_modify in *. destruct He as [He _]. split; [exact He |].
    rewrite <- Hhs. done.
Qed.

Lemma after_reset_spec n :
  triple (λ b, (J (or_dead (or_dead no_error)) reset_mode n [] [] b ∧ b_handlers b = [resetHandler]) ∧
               (unsent (b_world b) = 0%nat ∨ failed true (b_err b) (b_state b)))
    (e ← has_err; if e : bool then mret tt else receive show v;; mret tt)
    (λ _ b, b_state b ≠ Dead → L anything n b ∧ b_state b = Ready ∧ b_handlers b = []).
Proof.
  intros b [[[Hb HΦ] Hh] Hu]. unfold has_err, go_get. unfold mbind at 1, GoM_bind at 1.
  destruct (b_err b) as [e |] eqn:He.
  - destruct HΦ as [[Hn | [_ Hd]] | [_ Hd]]; [done | |]; intros Ha; by destruct Ha, Hd.
  - destruct Hu as [Hu | [? _]]; [| done].
    pose proof (receive_reset_spec n b (conj Hb (conj He (conj Hh Hu)))) as Hr.
    unfold mbind, GoM_bind. by destruct (receive show v b) as [[r b'] | |].
Qed.

(** RESET is sent once everything else is answered. *)
Lemma finish_reset_spec n :
  triple (λ b, L no_error n b ∧ b_handlers b = [])
    (append show v RReset resetHandler;; send show;;
     e ← has_err; if e : bool then mret tt else receive show v;; mret tt)
    (λ _ b, b_state b ≠ Dead → L anything n b ∧ b_state b = Ready ∧ b_handlers b = []).
Proof.
  eapply hoare_seq; [eapply hoare_pre; [by apply (append_handlers_spec no_error RReset resetHandler reset_mode n []) |] |].
  { intros b [[Hb He] Hh]. split; [split; [by apply inv_resetting | done] | done]. }
  eapply hoare_seq; [apply send_handlers_spec |]. apply after_reset_spec.
Qed.

(** From here on a call may block. *)
Hypothesis Hbx : bx.

Lemma receive_spec Φ n :
  stable Φ → triple (J Φ settled n [] []) (receive show v) (received Φ n).
Proof.
  intros HΦ b [Hb HΦb]. destruct (b_qerr b) as [q |] eqn:Hq.
  { unfold receive, receiveMsg, mbind, GoM_bind, mret, GoM_ret, go_get. rewrite Hq, Hq.
    assert (b_state b = Dead).
    { destruct (decide (b_state b = Dead)) as [| Ha]; [done |].
      rewrite (inv_qerr _ _ _ _ _ Hb) in Hq; done. }
    split; [done | by apply (inv_dead _ _ _ _ _ Hb eq_refl)]. }
  destruct (receive_cases _ _ _ Hb Hq) as [(m & r & rest & b' & Hr & ->) | He].
  - pose proof (read_inv _ _ _ _ _ _ _ Hb Hr) as Hb'. destruct Hr.
    apply (deliver_spec Φ m n); [done | by destruct m | split_and!; [done | done | | |]].
    + by rewrite read_err0, read_state0.
    + rewrite read_err0, read_state0. by apply (inv_dead _ _ _ _ _ Hb).
    + rewrite read_state0. intros Ha. exists r, rest. split_and!; [| done..].
      pose proof (inv_owed _ _ _ _ _ Hb eq_refl Ha) as Hal.
      rewrite read_handlers0, <- read_owed0. by rewrite app_nil_r in Hal.
  - destruct (receive show v b) as [[r b'] | |]; [| done..].
    destruct He as ([e ->] & Hb' & He & _). done.
Qed.

(** ** Whole calls *)

(** From a fact to the invariant, between the messages of a call. *)
Definition safe {A} (Φ : fact) (n0 : nat) (m : B A) : Prop :=
  ∀ n, (n0 <= n)%nat → triple (L Φ n) m (λ _, L anything n).

Lemma stable_anything : stable anything.
Proof. done. Qed.
#[local] Hint Resolve stable_anything : bolt.

Lemma safe_keeps {A} Φ n0 (m : B A) : keeps anything n0 m → safe Φ n0 m.
Proof. intros Hm n Hn. eapply hoare_pre; [by apply Hm |]. by intros b [? _]. Qed.

Lemma safe_weaken {A} (Φ Φ' : fact) n0 (m : B A) :
  safe Φ' n0 m → (∀ e s, Φ e s → Φ' e s) → safe Φ n0 m.
Proof. intros Hm HΦ n Hn. eapply hoare_pre; [by apply Hm |]. intros b [? ?]. auto. Qed.

Lemma safe_any {A} Φ n0 (m : B A) : safe anything n0 m → safe Φ n0 m.
Proof. intros Hm. by eapply safe_weaken. Qed.

Lemma conn_safe_ret {A} Φ n0 (a : A) : safe Φ n0 (mret a).
Proof. apply safe_keeps, keeps_ret. Qed.

Lemma safe_nofuel {A} Φ n0 : safe (A := A) Φ n0 go_nofuel.
Proof. by apply safe_keeps, keeps_nofuel. Qed.

Lemma conn_safe_bind {A C} Φ n0 (m : B A) (k : A → B C) :
  safe Φ n0 m → (∀ a, safe anything n0 (k a)) → safe Φ n0 (m ≫= k).
Proof.
  intros Hm Hk n Hn. eapply hoare_bind; [by apply Hm |]. intros a. by apply Hk.
Qed.

(** A method that does not change what is known is followed by the rest. *)
Lemma safe_after {A C} Φ n0 (m : B A) (k : A → B C) :
  keeps Φ n0 m → (∀ a, safe Φ n0 (k a)) → safe Φ n0 (m ≫= k).
Proof.
  intros Hm Hk n Hn. eapply hoare_bind; [by apply Hm |]. intros a. by apply Hk.
Qed.

Lemma safe_when Φ n0 c (m : B unit) : safe Φ n0 m → safe Φ n0 (when c m).
Proof. destruct c; [done | intros; apply conn_safe_ret]. Qed.

Lemma safe_fmap {A C} Φ n0 (m : B A) (f : A → C) : safe Φ n0 m → safe Φ n0 (f <$> m).
Proof. intros. apply conn_safe_bind; [done |]. intros. apply conn_safe_ret. Qed.

(** The three ways of asking for [b.err]. *)
Lemma safe_last_err {A} Φ n0 (k : B (error + A)) :
  safe no_error n0 k → safe Φ n0 (last_err ;? k).
Proof.
  intros Hk n Hn b [Hb HΦ]. unfold mbind, GoM_bind, last_err, go_get.
  destruct (b_err b) eqn:He; [by split |]. apply (Hk n Hn). split; [done | by rewrite He].
Qed.

Lemma safe_has_err {A} Φ n0 (k : bool → B A) :
  safe Φ n0 (k true) → safe no_error n0 (k false) → safe Φ n0 (has_err ≫= k).
Proof.
  intros Ht Hf n Hn b [Hb HΦ]. unfold mbind, GoM_bind, has_err, go_get.
  destruct (b_err b) eqn:He; [apply (Ht n Hn) | apply (Hf n Hn)]; rewrite ?He; by split.
Qed.

Lemma safe_assertState {A} Φ n0 l (k : B (error + A)) :
  safe (λ e s, e = None ∧ s ∈ l) n0 k → safe Φ n0 (assertState l ;? k).
Proof.
  intros Hk n Hn b [Hb HΦ]. unfold mbind, GoM_bind, assertState, go_get.
  destruct (b_err b) eqn:He; [by split |]. case_decide; [| by split].
  apply (Hk n Hn). split; [done | by rewrite He].
Qed.

Lemma safe_set_state {A} n0 x (k : B A) :
  x ≠ Dead → safe anything n0 k → safe no_error n0 (set_state x;; k).
Proof.
  intros Hx Hk n Hn b [Hb He]. unfold mbind, GoM_bind, set_state, go_modify.
  apply (Hk n Hn). split; [| done]. change_inv b. intros _. split; [| done].
  intros Hd. by apply (inv_dead _ _ _ _ _ Hb eq_refl) in Hd.
Qed.

(** A guard that only reads. *)
Lemma safe_guard {A} Φ n0 (f : conn → error + unit) (k : B (error + A)) :
  safe Φ n0 k → safe Φ n0 (go_get f ;? k).
Proof.
  intros Hk n Hn b [Hb HΦ]. unfold mbind, GoM_bind, go_get.
  destruct (f b); [by split | by apply (Hk n Hn)].
Qed.

Lemma safe_append Φ n0 r h :
  handles h r = true → (∀ s, stream_of h = Some s → (s < n0)%nat) → h ≠ resetHandler →
  safe Φ n0 (append show v r h).
Proof.
  intros Hr Hs Hh n Hn. eapply hoare_post; [apply append_spec; auto |].
  - intros s Hst. specialize (Hs s Hst). lia.
  - by intros ? b [[? _] _].
Qed.

Lemma safe_send Φ n0 : safe Φ n0 (send show).
Proof.
  intros n Hn. eapply hoare_post; [apply send_spec |]. by intros ? b [? _].
Qed.

Lemma safe_receive Φ n0 : safe Φ n0 (receive show v).
Proof.
  apply safe_any. intros n Hn. eapply hoare_post; [apply receive_spec, stable_anything |].
  by intros ? b [? _].
Qed.
#[local] Hint Resolve conn_safe_ret safe_nofuel safe_append safe_send safe_receive : bolt.

Lemma safe_receiveAll Φ n0 fuel : safe Φ n0 (receiveAll show v fuel).
Proof.
  apply safe_any. induction fuel as [| fuel IH]; simpl; [apply safe_nofuel |].
  apply safe_after; [apply keeps_get |]. intros []; [apply conn_safe_ret |].
  apply conn_safe_bind; [apply safe_receive |]. intros []; [apply conn_safe_ret | done].
Qed.
#[local] Hint Resolve safe_receiveAll : bolt.

(** All the streams of the store may be used. *)
Lemma safe_here {A} Φ n (m : B A) b :
  safe Φ (length (b_store b)) m → L Φ n b →
  match m b with Done (_, b') => L anything n b' | Panic => px | OutOfFuel => bx end.
Proof.
  intros Hm [Hb HΦ]. pose proof (inv_store _ _ _ _ _ Hb).
  specialize (Hm _ (le_n _) b (conj (bolt_inv_length _ _ _ _ _ Hb) HΦ)).
  destruct (m b) as [[a b'] | |]; [| done..]. destruct Hm as [Hm _].
  split; [by eapply inv_weaken | done].
Qed.

Lemma safe_current {A} Φ n0 (k : option nat → B A) :
  (∀ n1, safe Φ n1 (k None)) → (∀ s n1, (s < n1)%nat → safe Φ n1 (k (Some s))) →
  safe Φ n0 (o ← go_get b_streams; k (o_curr o)).
Proof.
  intros HN HS n Hn b [Hb HΦ]. unfold mbind, GoM_bind, go_get.
  destruct (o_curr (b_streams b)) as [s |] eqn:Hc; [| by apply (HN n)].
  apply (safe_here Φ); [| done]. apply HS. by apply (inv_curr _ _ _ _ _ Hb).
Qed.

Lemma safe_alloc_stream {A} Φ n0 f (k : nat → B A) :
  (∀ s n1, (s < n1)%nat → safe Φ n1 (k s)) → safe Φ n0 (alloc_stream f ≫= k).
Proof.
  intros Hk n Hn b [Hb HΦ]. unfold mbind, GoM_bind, alloc_stream.
  apply (safe_here Φ).
  - apply Hk. simpl. rewrite length_app. simpl. lia.
  - split; [| done]. eapply inv_ext; [done | | by left | done..].
    simpl. rewrite length_app. lia.
Qed.

Lemma safe_alloc_table {A} Φ n0 (k : nat → B A) :
  (∀ t, safe Φ n0 (k t)) → safe Φ n0 (alloc_table ≫= k).
Proof.
  intros Hk n Hn b [Hb HΦ]. unfold mbind, GoM_bind, alloc_table.
  apply (Hk _ n Hn). split; [| done]. by eapply inv_ext; [| | left | ..].
Qed.

(** By version, without forgetting which one it is. *)
Lemma safe_version {A} Φ n0 (c : version) (m4 m5 m6 : B A) :
  safe Φ n0 m4 → safe Φ n0 m5 → safe Φ n0 m6 →
  safe Φ n0 (match c with V4 => m4 | V5 => m5 | V6 => m6 end).
Proof. by destruct c. Qed.

Ltac safety := repeat first [ progress intros | solve [eauto with bolt]
  | lazymatch goal with
    | |- safe _ _ (last_err ≫= _) => apply safe_last_err
    | |- safe _ _ (has_err ≫= _) => apply safe_has_err
    | |- safe _ _ (assertState _ ≫= _) => apply safe_assertState
    | |- safe _ _ (checkReAuth _ _ ≫= _) => apply safe_guard
    | |- safe _ _ (checkNotificationFiltering _ _ ≫= _) => apply safe_guard
    | |- safe _ _ (checkImpersonationAndVersion _ _ ≫= _) => apply safe_guard
    | |- safe _ _ (assertTxHandle _ ≫= _) => apply safe_guard
    | |- safe no_error _ (set_state _ ≫= _) => apply safe_set_state; [done |]
    | |- safe _ _ (alloc_stream _ ≫= _) => apply safe_alloc_stream
    | |- safe _ _ (alloc_table ≫= _) => apply safe_alloc_table
    | |- safe _ _ (go_get _ ≫= _) => apply safe_after; [apply keeps_get |]
    | |- safe _ _ (_ ≫= _) =>
        first [ apply safe_after; [solve [keeping] |] | apply conn_safe_bind ]
    | |- safe _ _ (_ <$> _) => apply safe_fmap
    | |- safe _ _ (when _ _) => apply safe_when
    | |- safe _ _ (match ?c with _ => _ end) =>
        first [ apply safe_version | destruct c ]
    | |- safe _ _ _ => apply safe_keeps; solve [keeping]
    end ].

Lemma safe_appendPullN Φ n0 s : (s < n0)%nat → safe Φ n0 (appendPullN show v s).
Proof.
  intros Hs. unfold appendPullN. safety; apply safe_append; try done; by intros ? [= <-].
Qed.
#[local] Hint Resolve safe_appendPullN : bolt.

Lemma keeps_completed Φ n0 s : (s < n0)%nat → keeps Φ n0 (completed s).
Proof. intros. unfold completed. keeping. Qed.
#[local] Hint Resolve keeps_completed : bolt.

Lemma safe_bufferStream Φ n0 fuel : safe Φ n0 (bufferStream show v fuel).
Proof.
  apply safe_any. apply (safe_current _ _ (λ c, match c with None => mret tt | Some s =>
    go_for fuel (bufferStream_step show v fuel s) end)); [safety |].
  intros s n1 Hs. simpl.
  assert (Hstep : safe anything n1 (bufferStream_step show v fuel s)).
  { unfold bufferStream_step. safety. }
  generalize fuel at 1. intros k. induction k as [| k IH]; simpl; [apply safe_nofuel |].
  apply conn_safe_bind; [done |]. intros []; [apply conn_safe_ret | done].
Qed.

Lemma safe_pauseStream Φ n0 fuel : safe Φ n0 (pauseStream show v fuel).
Proof.
  apply safe_any. unfold pauseStream.
  eapply (safe_current _ _ (λ c, match c with None => _ | Some s => _ end)); simpl; safety.
Qed.

Lemma safe_resumeStream Φ n0 s : (s < n0)%nat → safe Φ n0 (resumeStream show v s).
Proof. intros. unfold resumeStream. safety. Qed.

Lemma safe_discardStream Φ n0 fuel : safe Φ n0 (discardStream show v fuel).
Proof.
  unfold discardStream. apply safe_after; [apply keeps_get |]. intros []; [| safety]. apply safe_any.
  eapply (safe_current _ _ (λ c, match c with None => _ | Some s => _ end)); simpl; [safety |].
  intros s n1 Hs. apply safe_after; [keeping |]. intros _.
  generalize false. generalize fuel at 1. intros k. induction k as [| k IH]; intros d; simpl; safety.
  - unfold append_discard. safety; apply safe_append; try done; by intros ? [= <-].
  - apply safe_any, IH.
Qed.
#[local] Hint Resolve safe_bufferStream safe_pauseStream safe_resumeStream safe_discardStream : bolt.

Lemma safe_discardAllStreams Φ n0 fuel : safe Φ n0 (discardAllStreams show v fuel).
Proof. unfold discardAllStreams. safety. Qed.
#[local] Hint Resolve safe_discardAllStreams : bolt.

(** ** The calls of a client *)

Lemma safe_Connect n0 fuel minor auth ua rc agent nc :
  safe anything n0 (Connect show v fuel minor auth ua rc agent nc).
Proof.
  unfold Connect. safety; try (apply safe_append; by intros).
Qed.

Lemma safe_TxBegin n0 fuel c sync : safe anything n0 (TxBegin show v fuel c sync).
Proof. unfold TxBegin. safety; try (apply safe_append; by intros). Qed.

Lemma safe_end_transaction n0 fuel txh r h :
  handles h r = true → stream_of h = None → h ≠ resetHandler →
  safe anything n0 (end_transaction show v fuel txh r h).
Proof.
  intros Hh Hs Hr. unfold end_transaction. safety. apply safe_append; auto. by rewrite Hs.
Qed.

Lemma safe_await_attached Φ n0 fuel s : (s < n0)%nat → safe Φ n0 (await_attached show v fuel s).
Proof.
  intros Hs. apply safe_any. induction fuel as [| fuel IH]; simpl; safety. by apply safe_any.
Qed.
#[local] Hint Resolve safe_await_attached : bolt.

(** When bolt6.go drops a message, the connection is already lost. *)
Lemma after_append_run_spec (Φ : fact) n :
  (∀ e s, Φ e s → e = None) →
  triple (λ b, J (or_dead Φ) settled n [] [] b ∧ b_handlers b ≠ []) (after_append_run v)
    (λ _, L anything n).
Proof.
  intros HΦ. unfold after_append_run.
  destruct v; try (apply hoare_ret; by intros b [[? _] _]).
  intros b [[Hb Hor] Hh]. unfold mbind, GoM_bind, has_err, go_get, do_world.
  destruct (b_err b) as [e |] eqn:He; [| by split].
  destruct Hor as [Hn | [_ Hd]]; [by apply HΦ in Hn |]. specialize (Hd eq_refl).
  destruct (drop_returns (b_world b)) as [w ->]. unfold pop.
  change (b_handlers (b <| b_world := w |>)) with (b_handlers b).
  destruct (b_handlers b) as [| h hs] eqn:Hhs; [done |]. unfold last_err, go_get.
  split; [| done]. destruct Hb as [H2 H3 H4 H5 Hf _ _ H6]. rewrite Hhs in H4, H6. constructor; auto.
  - intros h' s Hin. exact (H4 h' s (list_elem_of_further _ h _ Hin)).
  - intros _ Ha. by destruct Ha.
  - intros _ Ha. by destruct Ha.
  - intros Hmd Hin. exact (H6 Hmd (list_elem_of_further _ h _ Hin)).
Qed.

Lemma safe_append_run {A} (Φ : fact) n0 r s (k : B (error + A)) :
  (∀ e st, Φ e st → e = None) → handles (runHandler s) r = true → (s < n0)%nat →
  safe anything n0 k →
  safe Φ n0 (append show v r (runHandler s);; after_append_run v ;? k).
Proof.
  intros HΦ Hr Hs Hk n Hn. eapply hoare_seq; [apply (append_spec Φ); [done | | done] |].
  { intros s' [= <-]. lia. }
  eapply hoare_bind; [by apply after_append_run_spec |].
  intros []; [apply (conn_safe_ret _ n); lia | by apply Hk].
Qed.

Lemma start_streaming_spec n :
  triple (λ b, L anything n b ∧ (v = V4 → b_err b = None)) (start_streaming v) (λ _, L anything n).
Proof.
  intros b [[Hb _] Hv]. unfold start_streaming, mbind, GoM_bind, go_get, set_state, go_modify, mret, GoM_ret.
  assert (Ha : v = V4 → b_state b ≠ Dead).
  { intros Hv4 Hd. apply (inv_dead _ _ _ _ _ Hb eq_refl) in Hd. auto. }
  pose proof (inv_err _ _ _ _ _ Hb) as He.
  destruct (b_state b) eqn:Hs, v; (split; [| done]); try done; change_inv b.
  all: try (intros _ _; rewrite Hs; by auto).
  all: intros Hn; first [by destruct (He Hn) | by destruct Hn; apply Hv].
Qed.

Lemma await_run_spec n fuel s :
  (s < n)%nat →
  triple (L no_error n)
    (match v with V4 => receive show v ;? last_err | _ => await_attached show v fuel s end)
    (λ r b, L anything n b ∧ (v = V4 → r = inr tt → b_err b = None)).
Proof.
  intros Hs. destruct (decide (v = V4)) as [Hv | Hv].
  - rewrite Hv at 1. eapply hoare_bind; [apply (safe_receive _ n); lia |]. intros [e | []].
    + by apply hoare_ret.
    + apply hoare_get. intros b Hb. split; [done |]. by destruct (b_err b).
  - assert (Hk : safe no_error n (match v with V4 => receive show v ;? last_err
                                  | _ => await_attached show v fuel s end)).
    { safety. }
    eapply hoare_post; [by apply (Hk n) |]. by intros r b ?.
Qed.

Lemma safe_run_stream (Φ : fact) n0 fuel cypher params tx fetch s :
  (∀ e st, Φ e st → e = None) → (s < n0)%nat →
  safe Φ n0 (run_stream show v fuel cypher params tx fetch s).
Proof.
  intros HΦ Hs. unfold run_stream. apply safe_after; [apply keeps_get |]. intros b.
  apply safe_append_run; [done | done | done |].
  apply conn_safe_bind; [apply safe_append; try done; by intros ? [= <-] |]. intros _.
  apply conn_safe_bind; [safety |]. intros _. apply safe_last_err.
  intros n Hn. eapply hoare_bind; [apply await_run_spec; lia |]. intros [e | []].
  - apply hoare_ret. by intros b' [? _].
  - eapply hoare_seq with (R := L anything n); [| by apply hoare_ret].
    eapply hoare_pre; [apply start_streaming_spec |]. intros b' [? ?]. auto.
Qed.

(** The stream that [run] returns exists. *)
Definition returned (n : nat) (r : error + nat) (b : conn) : Prop :=
  L anything n b ∧ ∀ s, r = inr s → (s < length (b_store b))%nat.

Lemma alloc_run_spec (Φ : fact) n fetch (m : nat → B (error + unit)) :
  (∀ s n1, (s < n1)%nat → safe Φ n1 (m s)) →
  triple (L Φ n) (s ← alloc_stream fetch; m s ;? mret (inr s)) (returned n).
Proof.
  intros Hm b [Hb HΦ]. unfold mbind, GoM_bind, alloc_stream.
  set (b1 := b <| b_store := b_store b ++ [new_stream fetch] |>).
  assert (Hlen : length (b_store b1) = S (length (b_store b))).
  { unfold b1. simpl. rewrite length_app. simpl. lia. }
  assert (Hb1 : I settled (length (b_store b1)) [] [] b1).
  { apply (bolt_inv_length _ n). eapply inv_ext; [done | lia | by left | done..]. }
  rewrite Hlen in Hb1.
  specialize (Hm _ _ (Nat.lt_succ_diag_r (length (b_store b))) _ (le_n _) b1 (conj Hb1 HΦ)).
  pose proof (inv_store _ _ _ _ _ Hb).
  destruct (m (length (b_store b)) b1) as [[[e | []] b'] | |]; [| | done..];
    destruct Hm as [Hm _]; (split; [split; [| done] |]).
  all: try (eapply inv_weaken; [done | lia]).
  - done.
  - intros s [= <-]. pose proof (inv_store _ _ _ _ _ Hm). lia.
Qed.

Lemma run_spec n fuel cypher params fetch tx :
  triple (L anything n) (run show v fuel cypher params fetch tx) (returned n).
Proof.
  unfold run. apply hoare_read. intros st.
  eapply hoare_bind with (R := λ _, L anything n); [| intros [e | []]].
  - assert (Hs : safe anything n (match st with
       | Streaming => bufferStream show v fuel;; last_err
       | StreamingTx => pauseStream show v fuel;; last_err
       | _ => mret (inr tt) end)) by safety.
    by apply Hs.
  - by apply hoare_ret.
  - intros b [Hb _]. unfold assertState. unfold mbind at 1, GoM_bind at 1. unfold go_get.
    destruct (b_err b) eqn:He; [by split |]. case_decide; [| by split].
    apply (alloc_run_spec no_error n); [| by split].
    intros s n1 Hs. by apply safe_run_stream.
Qed.

Lemma Run_spec n fuel cmd c :
  triple (L anything n) (Run show v fuel cmd c) (returned n).
Proof.
  unfold Run. 
  assert (Hg : ∀ {A} (f : conn → error + A) (k : B (error + nat)),
    triple (L anything n) k (returned n) → triple (L anything n) (go_get f ;? k) (returned n)).
  { intros A f k Hk b Hb. unfold mbind, GoM_bind, go_get. destruct (f b); [by split | by apply Hk]. }
  do 3 apply Hg. apply hoare_read. intros b. apply run_spec.
Qed.

Lemma RunTx_spec n fuel txh cmd :
  triple (L anything n) (RunTx show v fuel txh cmd) (returned n).
Proof.
  unfold RunTx. intros b Hb. unfold assertTxHandle. unfold mbind at 1, GoM_bind at 1, go_get at 1.
  destruct (_ =? _); [by apply run_spec | by split].
Qed.

(** A handle that a client has. *)
Definition known (n0 : nat) (h : option nat) : Prop := ∀ s, h = Some s → (s < n0)%nat.

(** [getUnsafe] followed by the rest of the call *)
Lemma safe_handle {A} n0 h (fail : error → B A) (k : nat → B A) :
  known n0 h → (∀ e, safe anything n0 (fail e)) →
  (∀ s, (s < n0)%nat → safe anything n0 (k s)) →
  safe anything n0 (r ← getUnsafe h; match r with inl e => fail e | inr s => k s end).
Proof.
  intros Hh Hf Hk. destruct h as [s |].
  - apply (Hk s). by apply Hh.
  - apply (Hf errInvalidStream).
Qed.

Lemma safe_Keys n0 h : known n0 h → safe anything n0 (Keys h).
Proof.
  intros. unfold Keys. apply (safe_handle n0 h (λ e, mret (inl e))
    (λ s, st ← the_stream s; mret (inr (s_keys st)))); [done | safety |]. intros. safety.
Qed.

Lemma safe_next_loop n0 fuel s : (s < n0)%nat → safe anything n0 (next_loop show v fuel s).
Proof.
  intros Hs. induction fuel as [| fuel IH]; [apply safe_nofuel |]. simpl.
  apply safe_after; [by apply keeps_the_stream |]. intros st.
  destruct (bufferedNext st) as [[[[buf rec] sum] err] st']. safety.
Qed.

Lemma safe_conn_Next n0 fuel h : known n0 h → safe anything n0 (Next show v fuel h).
Proof. intros. apply safe_handle; [done | safety |]. intros. by apply safe_next_loop. Qed.

Lemma safe_select_stream n0 fuel s : (s < n0)%nat → safe anything n0 (select_stream show v fuel s).
Proof.
  intros Hs. unfold select_stream. apply conn_safe_bind; [| intros []; safety].
  unfold isSafe. safety.
Qed.
#[local] Hint Resolve safe_select_stream : bolt.

Lemma safe_Consume n0 fuel h : known n0 h → safe anything n0 (Consume show v fuel h).
Proof. intros. apply safe_handle; [done | safety |]. intros. safety. Qed.

Lemma safe_Buffer n0 fuel h : known n0 h → safe anything n0 (Buffer show v fuel h).
Proof. intros. apply safe_handle; [done | safety |]. intros. safety. Qed.

Lemma safe_request_table n0 fuel r :
  (∀ t, handles (routeHandler t) r = true) → safe anything n0 (request_table show v fuel r).
Proof.
  intros Hr. unfold request_table. safety. apply safe_append; try done.
Qed.

Lemma safe_Telemetry n0 api c : safe anything n0 (Telemetry show v api c).
Proof. unfold Telemetry. safety; apply safe_append; done. Qed.

Lemma safe_reAuth n0 fuel auth : safe anything n0 (reAuth show v fuel auth).
Proof. unfold reAuth. safety; apply safe_append; done. Qed.

(** ** Calls that may end the connection *)

(** The invariant holds again, unless the connection is dead. *)
Definition lives {A} (n : nat) (m : B A) : Prop :=
  triple (L anything n) m (λ _ b, b_state b ≠ Dead → L anything n b).

Lemma lives_safe {A} n (m : B A) : safe anything n m → lives n m.
Proof. intros Hm. eapply hoare_post; [by apply Hm |]. by intros. Qed.

(** A call after which the connection is dead, whatever it does before. *)
Lemma lives_to_die {A} n (m : B A) :
  hoare px bx (λ b, I (broken settled) n [] [] b) m (λ _ b, b_state b = Dead) → lives n m.
Proof.
  intros Hm. eapply hoare_pre; [eapply hoare_post; [apply Hm |] |].
  - by intros a b Hd Hn.
  - intros b [Hb _]. by apply inv_broken.
Qed.

(** *** Reset *)

Lemma ForceReset_spec n fuel :
  triple (L anything n) (ForceReset show v fuel)
    (λ _ b, b_state b ≠ Dead → L anything n b).
Proof.
  unfold ForceReset. intros b [Hb _]. unfold in_state. unfold mbind at 1, GoM_bind at 1, go_get at 1.
  case_bool_decide as Hd; [by split |].
  unfold mbind at 1, GoM_bind at 1, go_modify at 1.
  set (b1 := b <| b_err := None |>).
  assert (Hb1 : L no_error n b1).
  { split; [| done]. unfold b1. change_inv b.
    intros _ Hdead. destruct Hd. change (b_state b = Dead) in Hdead. rewrite Hdead. by left. }
  pose proof (safe_receiveAll no_error n fuel n (le_n n) b1 Hb1) as Hr.
  pose proof (receiveAll_empty fuel b1) as He.
  unfold mbind at 1, GoM_bind at 1. unfold mbind at 1, GoM_bind at 1.
  destruct (receiveAll show v fuel b1) as [[[e | []] b2] | |]; [| | done..].
  - by unfold mret, GoM_ret.
  - specialize (He b2 eq_refl). unfold last_err, go_get.
    destruct (b_err b2) eqn:Herr; [by unfold mret, GoM_ret |].
    pose proof (finish_reset_spec n b2 (conj (conj (proj1 Hr) Herr) He)) as Hf.
    unfold mret, GoM_ret in Hf |- *.
    destruct ((append show v RReset resetHandler;; _) b2) as [[[] b3] | |]; [| done..].
    intros Ha. by destruct (Hf Ha).
Qed.

Lemma lives_Reset n fuel : lives n (Reset show v fuel).
Proof.
  unfold Reset. apply hoare_read. intros ready.
  eapply hoare_seq with (R := λ b, b_state b ≠ Dead → L anything n b).
  { destruct ready; [by apply hoare_ret | apply ForceReset_spec]. }
  eapply hoare_seq with (R := λ b, b_state b ≠ Dead → L anything n b).
  { apply hoare_modify. intros b Hb Ha. destruct (Hb Ha) as [Hb' _]. split; [| done].
    by change_inv b. }
  intros b Hb. unfold reset_streams, mbind, GoM_bind, do_world.
  pose proof (quiet_now (b_world b)) as Hn. destruct (wnow (b_world b)) as [[t w] | |]; [| done..].
  intros Ha. destruct (Hb Ha) as [Hb' _]. split; [| done].
  apply (inv_ext _ _ _ _ b); [done | by apply Nat.le_refl | by right | done.. |]. by destruct Hn as [Hn _].
Qed.

(** *** Close *)

Lemma pack_broken_spec Φ r md n :
  triple (J Φ (broken md) n [] []) (pack show v r) (λ _, J (or_dead Φ) (broken md) n [] []).
Proof.
  intros b [Hb HΦ]. unfold pack, mbind, GoM_bind, do_world.
  pose proof (pack_owed r (b_world b)) as Ho. pose proof (λ Hv, packs Hv r (b_world b)) as Hp.
  destruct (wpack r (b_world b)) as [[es w] | |]; [| done | done].
  assert (Hw : I (broken md) n [] [] (b <| b_world := w |>)) by (destruct Hb; by constructor).
  destruct es as [| e es]; [by split; [| left] |].
  assert (Hes : e :: es ≠ []) by done.
  pose proof (report_pack_errors_spec _ (broken md) n [] [] Hes (λ Hv, Hp Hv _ _ eq_refl) _ Hw) as Hq.
  destruct (report_pack_errors show v (e :: es) _) as [[[] b'] | |]; [| done | done].
  destruct Hq as [? ?]. by split; [| right].
Qed.

Lemma goodbye_spec (Φ : fact) n :
  (∀ e, Φ e Dead) →
  triple (J Φ (broken settled) n [] []) (pack show v RGoodbye;; send show)
    (λ _, J Φ (broken settled) n [] []).
Proof.
  intros HΦ. eapply hoare_seq; [apply pack_broken_spec |].
  eapply hoare_post; [apply send_spec |].
  intros _ b [Hb Hor]. split; [done |].
  destruct Hor as [[? | [_ Hd]] | [_ Hd]]; [done | |]; rewrite Hd by done; apply HΦ.
Qed.

Lemma closing_spec n :
  let Φ : fact := λ _ s, v = V4 ∨ s = Dead in
  triple (I (broken settled) n [] [])
    (when (negb (bool_decide (v = V4))) (set_state Dead);; pack show v RGoodbye;; send show)
    (λ _, J Φ (broken settled) n [] []).
Proof.
  intros Φ. eapply hoare_seq; [| apply (goodbye_spec Φ); by right].
  case_bool_decide as Hv; simpl.
  - apply hoare_ret. intros b Hb. split; [done | by left].
  - apply hoare_modify. intros b Hb. split; [by change_inv b | by right].
Qed.

Lemma lives_Close n : lives n (Close show v).
Proof.
  apply lives_to_die. unfold Close. intros b Hb. unfold in_state.
  unfold mbind at 1, GoM_bind at 1, go_get at 1.
  set (Φ := λ (_ : option error) (s : conn_state), v = V4 ∨ s = Dead).
  apply (hoare_seq px bx (λ b', b' = b) _ (J Φ (broken settled) n [] []) _ (λ _ b, b_state b = Dead));
    [| | done].
  - intros ? ->. case_bool_decide as Hd; simpl; [| by apply closing_spec].
    split; [done |]. right. by apply list_elem_of_singleton.
  - eapply hoare_seq; [apply (keeps_world _ 0 wclose quiet_close); lia |].
    case_bool_decide as Hv; simpl.
    + by apply hoare_modify.
    + apply hoare_ret. intros b' [_ [? | ?]]; done.
Qed.

(** ** Authentication and routing *)

Lemma lives_ReAuth n fuel auth : lives n (ReAuth show v fuel auth).
Proof.
  assert (Hf : lives n (fallbackReAuth show v auth)).
  { unfold fallbackReAuth. intros b Hb. unfold checkReAuth.
    unfold mbind at 1, GoM_bind at 1, go_get at 1. destruct (_ && _); [by intros _ |].
    unfold mbind at 1, GoM_bind at 1, go_get at 1.
    pose proof (lives_Close n b Hb) as Hc.
    destruct (b_resetAuth _); [| destruct (GetAuthToken _); [by intros _ |]; destruct (negb _); [| by intros _]];
      unfold when, mbind, GoM_bind; by destruct (Close show v b) as [[[] b'] | |]. }
  pose proof (lives_safe n _ (safe_reAuth n fuel auth)) as Hr.
  unfold ReAuth. apply hoare_read. intros minor. destruct v; [done | | done].
  by destruct (_ =? _).
Qed.

Lemma safe_lift {A} Φ n0 (o : option A) : px → safe Φ n0 (go_lift o).
Proof.
  intros Hp. destruct o; [apply conn_safe_ret |]. intros n Hn b Hb. done.
Qed.

Lemma safe_query_table n0 fuel ctx bms db : px → safe anything n0 (query_table show v fuel ctx bms db).
Proof.
  intros Hp n Hn. unfold query_table. eapply hoare_bind; [apply Run_spec |].
  intros [e | s]; [apply hoare_ret; by intros b [? _] |].
  intros b [Hb Hs]. specialize (Hs s eq_refl). apply (safe_here anything); [| done].
  assert (Hk : known (length (b_store b)) (Some s)) by by intros ? [= <-].
  apply conn_safe_bind; [by apply safe_conn_Next |]. intros [[[rec |] sum] [e |]]; try apply conn_safe_ret.
  apply conn_safe_bind; [by apply safe_conn_Next |]. intros _.
  apply conn_safe_bind; [by apply safe_lift |]. intros []; apply conn_safe_ret.
Qed.

Lemma safe_GetRoutingTable n0 fuel ctx bms db user :
  (v = V4 → px) → safe anything n0 (GetRoutingTable show v fuel ctx bms db user).
Proof.
  intros Hp. unfold GetRoutingTable. apply safe_assertState, safe_any.
  apply safe_after; [apply keeps_get |]. intros minor. case_decide as Hv.
  - destruct Hv as [Hv _]. specialize (Hp Hv). apply safe_guard.
    destruct (_ <? _).
    + apply conn_safe_bind; [by apply safe_request_table |]. intros [e | t]; [apply conn_safe_ret |].
      apply conn_safe_bind; [by apply safe_lift |]. intros t'. apply conn_safe_ret.
    + unfold callGetRoutingTable. safety. by apply safe_query_table.
  - by apply safe_request_table.
Qed.
End Steps.
