(* ===== verification/BoltServer.v ===== *)
(** A world for connections: a network that delivers what is sent, in order, to a
    server given as a function from requests to responses, and one such server
    that runs queries with the cursors of the Bolt protocol.  The witnesses and
    traces of [BoltFacts] run connections against it. *)

From S2P Require Import Prelude Values Errors Messages Outgoing Bolt BoltLogic.
#[local] Open Scope Z_scope.
#[local] Open Scope go_scope.

(** * Networks *)

(** A server answers a request with messages; [pack_fails] are the errors that
    packing a request reports. *)
Class Server (D : Type) : Type := {
  serve : request → D → list message * D;
  pack_fails : request → list error
}.

Record net (D : Type) : Type := mkNet {
  n_unsent : list request;                   (* packed, not sent *)
  n_sent : list (request * list message);    (* sent, with what is still to be read *)
  n_server : D;
  n_time : Z;
  n_calls : list callback
}.
Arguments mkNet {D}.
Arguments n_unsent {D}.
Arguments n_sent {D}.
Arguments n_server {D}.
Arguments n_time {D}.
Arguments n_calls {D}.

Definition answersb (r : request) (m : message) : bool :=
  match m with
  | MRecord _ => is_pull r
  | MSuccess s => match summary s with Some _ => true | None => false end
  | MFailure _ => true
  | MIgnored => match r with RReset => false | _ => true end
  end.

Lemma answersb_spec r m : answersb r m = true → answers r m.
Proof.
  destruct m; simpl; [by destruct (summary _); eauto | by destruct r | done | done].
Qed.

Section Network.
Context {D : Type} `{Server D}.

Definition net_pack (r : request) : GoM (net D) (list error) := λ w,
  Done (pack_fails r, w <| n_unsent := n_unsent w ++ [r] |>).

(** The server answers the requests one by one. *)
Fixpoint transmit (rs : list request) (w : net D) : net D :=
  match rs with
  | [] => w
  | r :: rs =>
      let '(ms, d) := serve r (n_server w) in
      let w := w <| n_server := d |> in
      transmit rs (match r with RGoodbye => w | _ => w <| n_sent := n_sent w ++ [(r, ms)] |> end)
  end.

Definition net_send : GoM (net D) (option error) := λ w,
  Done (None, (transmit (n_unsent w) w) <| n_unsent := [] |>).

(** Reading blocks when no answer is due; a server that sends what does not
    answer the request is cut off. *)
Definition net_next : GoM (net D) (option message * option error) := λ w,
  match n_sent w with
  | [] => OutOfFuel
  | (r, []) :: _ => Done ((None, Some EOF), w)
  | (r, m :: ms) :: rest =>
      if answersb r m then
        Done ((Some m, None),
              w <| n_sent := match m with MRecord _ => (r, ms) :: rest | _ => rest end |>)
      else Done ((None, Some EOF), w)
  end.

#[global] Instance net_world : World (net D) := {
  wpack := net_pack;
  wdrop := go_modify (λ w, w <| n_unsent := [] |>);
  wsend := net_send;
  wnext := net_next;
  wclose := mret None;
  wnow := λ w, Done (n_time w, w <| n_time := n_time w + 1 |>);
  wlisten := λ e, mret (e, None, false);
  wcall := λ c, go_modify (λ w, w <| n_calls := n_calls w ++ [c] |>);
  wuseUtc := λ _, mret tt;
  wsupportsUuid := λ _, mret tt
}.

Definition net_owed (w : net D) : list request := (n_sent w).*1 ++ concat (expected <$> n_unsent w).

Definition net_backlog (w : net D) : nat :=
  foldr (λ x acc, (length x.2 + acc)%nat) 0%nat (n_sent w).

Lemma transmit_owed rs w :
  (n_sent (transmit rs w)).*1 = (n_sent w).*1 ++ concat (expected <$> rs).
Proof.
  revert w. induction rs as [| r rs IH]; intros w; simpl; [by rewrite app_nil_r |].
  destruct (serve r (n_server w)) as [ms d]. rewrite IH.
  destruct r; simpl; rewrite ?fmap_app, <- ?app_assoc; done.
Qed.

Definition net_pending (w : net D) : nat := length (concat (expected <$> n_unsent w)).

#[global] Instance net_conforming : Conforming (net D).
Proof.
  refine (Build_Conforming _ _ net_owed net_pending net_backlog _ _ _ _ _ _ _ _ _ _);
    try (by intros).
  - intros w. by eexists.
  - intros r w. simpl. destruct (pack_fails r); [| done].
    unfold net_owed, net_pending. simpl. rewrite fmap_app, concat_app, length_app. simpl.
    rewrite app_nil_r, app_assoc. done.
  - intros w. simpl. unfold net_owed, net_pending. simpl. rewrite app_nil_r.
    split; [| done]. apply transmit_owed.
  - intros w. simpl. unfold net_next, net_owed, net_pending, net_backlog.
    destruct (n_sent w) as [| [r [| m ms]] rest] eqn:Hs; [done | done |].
    destruct (answersb r m) eqn:Ha; [| done].
    exists r, (rest.*1 ++ concat (expected <$> n_unsent w)). simpl.
    split_and!; [done | by apply answersb_spec | by destruct m | done |].
    destruct m; simpl; lia.
Defined.
End Network.

(** * A server with cursors

    The results of the queries to come are given in advance: each is a list of
    records and possibly a failure that follows them. *)

Record cursor : Type := mkCursor {
  c_qid : Z;
  c_records : list Record_;
  c_failure : option Neo4jError
}.

(** A query as the server runs it, with its parameters. *)
Definition query : Type := string * gomap goval.

Record database : Type := mkDatabase {
  d_failed : bool;
  d_tx : bool;
  d_cursors : list cursor;         (* the latest first *)
  d_next : Z;                      (* the next query id in a transaction *)
  d_results : list (list Record_ * option Neo4jError);
  d_work : list query;             (* run in the open transaction *)
  d_committed : list (list query)  (* the transactions that were committed *)
}.

Definition commit (d : database) : database :=
  d <| d_committed := d_committed d ++ [d_work d] |> <| d_work := [] |>.

Definition failure_code (code : string) : Neo4jError :=
  zero_Neo4jError <| Code := code |>.

Definition bad_request : Neo4jError := failure_code "Neo.ClientError.Request.Invalid".

Definition succeed : message := MSuccess clear_success.
Definition more : message := MSuccess (clear_success <| hasMore := true |>).
Definition finished : message := MSuccess (clear_success <| bookmark := "bm" |>).

Definition fail (e : Neo4jError) (d : database) : list message * database :=
  ([MFailure e], d <| d_failed := true |>).

Definition fields_of_results : list string := ["x"].

(** RUN; outside a transaction the query is one of its own. *)
Definition open_cursor (q : query) (d : database) : list message * database :=
  match d_results d with
  | [] => fail (failure_code "Neo.ClientError.Statement.SyntaxError") d
  | (records, failure) :: results =>
      let qid := if d_tx d then d_next d else -1 in
      ([MSuccess (clear_success <| fields := fields_of_results |> <| Messages.qid := qid |>)],
       d <| d_results := results |>
         <| d_work := if d_tx d then d_work d ++ [q] else [q] |>
         <| d_next := d_next d + 1 |>
         <| d_cursors := mkCursor (if d_tx d then d_next d else 0) records failure :: d_cursors d |>)
  end.

(** The cursor with a query id, [-1] for the latest, and the others. *)
Fixpoint find_cursor (qid : Z) (l : list cursor) : option (cursor * list cursor) :=
  match l with
  | [] => None
  | c :: l =>
      if (qid =? -1) || (c_qid c =? qid) then Some (c, l)
      else '(c', l') ← find_cursor qid l; Some (c', c :: l')
  end.

(** The records of a batch of size [n], all of them if [n] is negative. *)
Definition split_batch (n : Z) (l : list Record_) : list Record_ * list Record_ :=
  if n <? 0 then (l, []) else (take (Z.to_nat n) l, drop (Z.to_nat n) l).

(** The end of a result: outside a transaction it commits the query and brings the
    bookmark, inside only COMMIT does. *)
Definition end_cursor (c : cursor) (d : database) : list message * database :=
  match c_failure c with
  | Some e => fail e d
  | None => if d_tx d then ([succeed], d) else ([finished], commit d)
  end.

Definition pull (n qid : Z) (d : database) : list message * database :=
  match find_cursor qid (d_cursors d) with
  | None => fail bad_request d
  | Some (c, others) =>
      let '(now, later) := split_batch n (c_records c) in
      match later with
      | [] =>
          let '(ms, d) := end_cursor c (d <| d_cursors := others |>) in
          ((MRecord <$> now) ++ ms, d)
      | _ => ((MRecord <$> now) ++ [more], d <| d_cursors := c <| c_records := later |> :: others |>)
      end
  end.

Definition discard (n qid : Z) (d : database) : list message * database :=
  match find_cursor qid (d_cursors d) with
  | None => fail bad_request d
  | Some (c, others) =>
      match (split_batch n (c_records c)).2 with
      | [] => end_cursor c (d <| d_cursors := others |>)
      | later => ([more], d <| d_cursors := c <| c_records := later |> :: others |>)
      end
  end.

Definition serve_database (r : request) (d : database) : list message * database :=
  match r with
  | RReset => ([succeed], d <| d_failed := false |> <| d_tx := false |> <| d_cursors := [] |>
                           <| d_work := [] |>)
  | RGoodbye => ([], d)
  | _ =>
      if d_failed d then ([MIgnored], d)
      else
        match r with
        | RBegin _ => ([succeed], d <| d_tx := true |> <| d_work := [] |>)
        | RCommit => ([finished], commit (d <| d_tx := false |>))
        | RRollback => ([succeed], d <| d_tx := false |> <| d_work := [] |>)
        | RRun cypher params _ => open_cursor (cypher, params) d
        | RPullAll => pull (-1) (-1) d
        | RPullN n => pull n (-1) d
        | RPullNQid n qid => pull n qid d
        | RDiscardN n => discard n (-1) d
        | RDiscardNQid n qid => discard n qid d
        | _ => ([succeed], d)
        end
  end.

(** A client that packs without errors, and one whose queries have a UUID as a
    parameter and a server without them (packUUID, outgoing.go). *)
#[global] Instance database_server : Server database :=
  {| serve := serve_database; pack_fails := λ _, [] |}.

Record unsupporting : Type := mkUnsupporting { u_database : database }.

#[global] Instance unsupporting_server : Server unsupporting := {|
  serve := λ r d, let '(ms, d) := serve_database r (u_database d) in (ms, mkUnsupporting d);
  pack_fails := λ r, match r with
    | RRun _ _ _ => [FeatureNotSupportedError "" "UUID type" "requires at least Bolt 6.1"]
    | _ => []
    end
|}.

(** Tokens of the sample connections. *)
#[global] Instance string_tokens : Tokens string :=
  {| entries := λ s, [("scheme", GString s)] |}.

Definition new_database (results : list (list Record_ * option Neo4jError)) : database :=
  mkDatabase false false [] 0 results [] [].

Definition new_net {D} (d : D) : net D := mkNet [] [] d 1000000000 [].

(** Samples for the traces. *)
Definition sample_auth : ReAuthToken string :=
  mkReAuthToken (mkManager 1 (inr "basic")) false false.
Definition sample_config : TxConfig := mkTxConfig WriteMode [] 0 "" [] no_notifications.
Definition sample_command : Command := mkCommand "RETURN 1 AS x" [] 2.
Definition sample_record (i : Z) : Record_ := mkRecord [VInt i] [].
Definition shown (e : error) : string := "error".
