(* ===== verification/BoltFacts.v ===== *)
(** What holds of connections in every situation: the calls a client makes on a
    live connection, in any order, keep the handlers aligned with the answers, do
    not panic, and resetting returns. *)

From S2P Require Import Prelude Values Errors Messages Outgoing Bolt BoltLogic BoltSteps BoltServer.
#[local] Open Scope Z_scope.
#[local] Open Scope go_scope.

(** * The calls of a client *)

Inductive call (Token : Type) : Type :=
| CConnect (minor : Z) (auth : ReAuthToken Token) (userAgent : string)
    (routingContext : option (gomap string)) (agent : gomap string) (n : NotificationConfig)
| CTxBegin (c : TxConfig) (syncMessages : bool)
| CTxCommit (txh : Z)
| CTxRollback (txh : Z)
| CRun (cmd : Command) (c : TxConfig)
| CRunTx (txh : Z) (cmd : Command)
| CKeys (h : option nat)
| CNext (h : option nat)
| CConsume (h : option nat)
| CBuffer (h : option nat)
| CReset
| CForceReset
| CGetRoutingTable (routingContext : gomap string) (bookmarks : list string)
    (database impersonatedUser : string)
| CReAuth (auth : ReAuthToken Token)
| CResetAuth
| CSelectDatabase (database : string)
| CSetPin (callback : bool)
| CTelemetry (api : Z) (callback : bool)
| CClose.
Arguments CConnect {Token}.
Arguments CTxBegin {Token}.
Arguments CTxCommit {Token}.
Arguments CTxRollback {Token}.
Arguments CRun {Token}.
Arguments CRunTx {Token}.
Arguments CKeys {Token}.
Arguments CNext {Token}.
Arguments CConsume {Token}.
Arguments CBuffer {Token}.
Arguments CReset {Token}.
Arguments CForceReset {Token}.
Arguments CGetRoutingTable {Token}.
Arguments CReAuth {Token}.
Arguments CResetAuth {Token}.
Arguments CSelectDatabase {Token}.
Arguments CSetPin {Token}.
Arguments CTelemetry {Token}.
Arguments CClose {Token}.

Section Calls.
Context {W Token : Type} `{World W} `{Tokens Token}.
Variable show : error → string.
Variable v : version.
Abbreviation conn := (bolt W Token).

Definition ignore {A} (m : GoM conn A) : GoM conn unit := m;; mret tt.

Definition perform (fuel : nat) (c : call Token) : GoM conn unit :=
  match c with
  | CConnect minor auth ua rc agent n => ignore (Connect show v fuel minor auth ua rc agent n)
  | CTxBegin c sync => ignore (TxBegin show v fuel c sync)
  | CTxCommit txh => ignore (TxCommit show v fuel txh)
  | CTxRollback txh => ignore (TxRollback show v fuel txh)
  | CRun cmd c => ignore (Run show v fuel cmd c)
  | CRunTx txh cmd => ignore (RunTx show v fuel txh cmd)
  | CKeys h => ignore (Keys h)
  | CNext h => ignore (Next show v fuel h)
  | CConsume h => ignore (Consume show v fuel h)
  | CBuffer h => ignore (Buffer show v fuel h)
  | CReset => Reset show v fuel
  | CForceReset => ForceReset show v fuel
  | CGetRoutingTable ctx bms db user => ignore (GetRoutingTable show v fuel ctx bms db user)
  | CReAuth auth => ignore (ReAuth show v fuel auth)
  | CResetAuth => ResetAuth
  | CSelectDatabase db => SelectDatabase db
  | CSetPin c => SetPinHomeDatabaseCallback v c
  | CTelemetry api c => Telemetry show v api c
  | CClose => Close show v
  end.

(** Handles come from earlier calls on the connection. *)
Definition valid_call (b : conn) (c : call Token) : Prop :=
  match c with
  | CKeys h | CNext h | CConsume h | CBuffer h => known (length (b_store b)) h
  | _ => True
  end.

(** The states a client can bring about with calls on a live connection; the
    fuel of a call is arbitrary, as long as it is enough. *)
Inductive reachable `{!Conforming W} : conn → Prop :=
| reach_new name now w : owed w = [] → reachable (NewBolt name now w)
| reach_call fuel c b b' :
    reachable b → IsAlive b = true → valid_call b c →
    perform fuel c b = Done (tt, b') → reachable b'.
End Calls.

Section Facts.
Context {W Token : Type} `{Conforming W} `{Tokens Token}.
Variable show : error → string.
Variable v : version.
Hypothesis packs : v = V6 → ∀ r w es w',
  wpack r w = Done (es, w') → Forall (λ e, is_feature_error e = false) es.
Abbreviation conn := (bolt W Token).

Lemma lives_ignore {A} px bx n (m : GoM conn A) :
  lives px bx n m → lives px bx n (ignore m).
Proof. intros Hm. eapply hoare_bind; [exact Hm |]. intros a. by apply hoare_ret. Qed.

(** Every call keeps the invariant. *)
Lemma lives_perform (px : Prop) fuel c (b : conn) :
  (v = V4 → (∃ ctx bms db user, c = CGetRoutingTable ctx bms db user) → px) →
  valid_call b c → lives px True (length (b_store b)) (perform show v fuel c).
Proof.
  intros Hp Hc.
  destruct c; simpl in *; try apply lives_ignore.
  - by apply lives_safe, safe_Connect.
  - by apply lives_safe, safe_TxBegin.
  - by apply lives_safe, safe_end_transaction.
  - by apply lives_safe, safe_end_transaction.
  - eapply hoare_post; [by apply Run_spec |]. by intros r b' [? _].
  - eapply hoare_post; [by apply RunTx_spec |]. by intros r b' [? _].
  - by apply lives_safe, safe_Keys.
  - by apply lives_safe, safe_conn_Next.
  - by apply lives_safe, safe_Consume.
  - by apply lives_safe, safe_Buffer.
  - by apply lives_Reset.
  - by apply ForceReset_spec.
  - apply lives_safe, safe_GetRoutingTable; [done | done |]. intros Hv. apply Hp; eauto.
  - by apply lives_ReAuth.
  - apply lives_safe, safe_keeps, keeps_modify; intros; simpl; auto.
  - apply lives_safe, safe_keeps, keeps_modify; intros; simpl; auto.
  - apply lives_safe, safe_keeps. unfold SetPinHomeDatabaseCallback.
    destruct v; [apply keeps_ret | |]; apply keeps_modify; intros; simpl; auto.
  - by apply lives_safe, safe_Telemetry.
  - by apply lives_Close.
Qed.

Definition matched (b : conn) : Prop :=
  b_qerr b = None ∧ Forall2 (λ h r, handles h r = true) (b_handlers b) (owed (b_world b)).

Lemma conn_reachable_inv (b : conn) :
  reachable show v b → IsAlive b = true → inv settled (length (b_store b)) [] [] b.
Proof.
  induction 1 as [name now w Hw | fuel c b b' Hr IH Ha Hc Hp]; intros Hl.
  - constructor; simpl; try done; [by intros h s ?%elem_of_nil | by rewrite Hw | by intros _ ?%elem_of_nil].
  - pose proof (lives_perform True fuel c b ltac:(done) Hc b (conj (IH Ha) Logic.I)) as Hb.
    rewrite Hp in Hb. apply (bolt_inv_length _ (length (b_store b))), Hb.
    unfold IsAlive in Hl. intros Hd. by rewrite Hd in Hl.
Qed.

(** C2. On a live connection the response handlers in the queue are, one by one
    and in order, those of the requests that the server still owes an answer, so
    that every message is given to the handler of the request it answers; and no
    read has failed.  This holds after any calls in any order on a live
    connection, for any server that answers requests in order, any listener and
    clock; in version 6, as long as packing reports no unsupported feature. *)
Theorem responses_matched (b : conn) :
  reachable show v b → IsAlive b = true → matched b.
Proof.
  intros Hr Ha. pose proof (conn_reachable_inv b Hr Ha) as Hb.
  assert (Hd : b_state b ≠ Dead).
  { intros Hd. unfold IsAlive in Ha. by rewrite Hd in Ha. }
  split; [by apply (inv_qerr _ _ _ _ _ Hb) |].
  pose proof (inv_owed _ _ _ _ _ Hb eq_refl Hd) as Ho. by rewrite app_nil_r in Ho.
Qed.

(** C20. No call on a live connection panics, whatever the server answers within
    the protocol: streams and handlers that the code dereferences exist.  The
    exception is the routing table of servers before 4.4; and in version 6 it holds
    as long as packing reports no unsupported feature. *)
Theorem calls_do_not_panic (b : conn) fuel c :
  reachable show v b → IsAlive b = true → valid_call b c →
  (v = V4 → ∀ ctx bms db user, c ≠ CGetRoutingTable ctx bms db user) →
  perform show v fuel c b ≠ Panic.
Proof.
  intros Hr Ha Hc Hv.
  assert (Hp : v = V4 → (∃ ctx bms db user, c = CGetRoutingTable ctx bms db user) → False).
  { intros Hv4 (? & ? & ? & ? & ?). by eapply Hv. }
  pose proof (lives_perform False fuel c b Hp Hc b (conj (conn_reachable_inv b Hr Ha) Logic.I)) as Hb.
  intros E. by rewrite E in Hb.
Qed.
End Facts.
