(* ===== verification/BoltLiveness.v ===== *)
(** Calls return: how long reading answers takes, and that resetting a connection
    comes to an end when everything has been sent. *)

From S2P Require Import Prelude Values Errors Messages Outgoing Bolt BoltLogic BoltSteps BoltServer BoltFacts.
#[local] Open Scope Z_scope.
#[local] Open Scope go_scope.

Section Liveness.
Context {W Token : Type} `{Conforming W} `{Tokens Token}.
Variable show : error → string.
Variable v : version.
Hypothesis packs : v = V6 → ∀ r w es w',
  wpack r w = Done (es, w') → Forall (λ e, is_feature_error e = false) es.
Abbreviation conn := (bolt W Token).
Abbreviation I := (inv (Token := Token)).

(** Handling a message neither sends nor reads. *)
Lemma setError_load e fatal : preserves (load (Token := Token)) (setError show e fatal).
Proof.
  unfold setError, handleTerminatedContextError, detach, remove, checkStreams, set_state, on_streams, has_err.
  preserving.
Qed.

Lemma finish_stream_load s m : preserves (load (Token := Token)) (finish_stream v s m).
Proof.
  unfold finish_stream, extractSummary, remove, checkStreams, set_state, on_streams. preserving.
Qed.

Lemma onFailure_load h e : preserves (load (Token := Token)) (onFailure show v h e).
Proof.
  unfold onFailure, fail_with, OnNeo4jError, set_state.
  destruct h; preserving; apply setError_load.
Qed.

Lemma onSuccess_load h m : preserves (load (Token := Token)) (onSuccess v h m).
Proof.
  destruct h; simpl; unfold onHelloSuccess, onRunSuccess, onCommitSuccess, pin_database,
    initializeReadTimeoutHint, initializeTelemetryEnabledHint, initializeSsrEnabledHint, attach,
    set_state, on_streams; preserving; apply finish_stream_load.
Qed.

Lemma onIgnored_load h f : onIgnored h = Some f → preserves (load (Token := Token)) f.
Proof.
  destruct h; intros [= <-]; unfold interrupted, remove, checkStreams, set_state, on_streams; preserving.
Qed.

Lemma deliver_load m : preserves (load (Token := Token)) (deliver show v m).
Proof.
  unfold deliver. apply preserves_bind; [apply preserves_get |]. intros []; [apply preserves_ret |].
  apply preserves_bind.
  { intros b h b'. unfold pop. by destruct (b_handlers b); intros [= _ <-]. }
  intros h. destruct m as [[m | | e | r] |]; [| | | | apply preserves_panic].
  - apply preserves_bind; [apply onSuccess_load | preserving].
  - destruct (onIgnored h) as [f |] eqn:Hf; [| apply preserves_ret].
    apply preserves_bind; [by eapply onIgnored_load | preserving].
  - apply preserves_bind; [apply onFailure_load | preserving].
  - destruct h; simpl; unfold violation, take_record, pushFront; preserving.
Qed.

(** ** Reading *)

Definition well (n : nat) (b : conn) : Prop :=
  I settled n [] [] b ∧ b_state b ≠ Dead ∧ unsent (b_world b) = 0%nat.

(** When everything is sent, a message arrives for the first handler. *)
Lemma receive_returns n (b : conn) :
  well n b → b_handlers b ≠ [] →
  ∃ r b', receive show v b = Done (r, b') ∧
    match r with
    | inl _ => I settled n [] [] b' ∧ b_err b' ≠ None
    | inr _ => well n b' ∧ (backlog (b_world b') < backlog (b_world b))%nat ∧
               (b_err b = None → b_err b' = None)
    end.
Proof.
  intros (Hb & Ha & Hu) Hh.
  set (Φ := λ (e : option error) s, s ≠ Dead ∧ (b_err b = None → e = None)).
  assert (HΦ : stable Φ) by (split; intros e [? ?]; split; done).
  pose proof (inv_owed _ _ _ _ _ Hb eq_refl Ha) as Hal. rewrite app_nil_r in Hal. simpl in Hal.
  destruct (receive_cases show v False False _ _ _ Hb (inv_qerr _ _ _ _ _ Hb eq_refl Ha))
    as [(m & r & rest & b1 & Hr & E) | Hf].
  - rewrite E. pose proof (read_inv _ _ _ _ _ _ _ Hb Hr) as Hb1.
    destruct Hr as [Hro Hans Hraf Hru Hrb Hrq Hrh Hrs Hre _ _].
    assert (Hpre : I (broken settled) n [] [] b1 ∧ b_qerr b1 = None ∧ Φ (b_err b1) (b_state b1) ∧
      (b_state b1 = Dead → b_err b1 ≠ None) ∧ (b_state b1 ≠ Dead → due m b1)).
    { rewrite Hrs, Hre. split_and!; try done.
      intros _. exists r, rest. split_and!; [by rewrite Hrh, <- Hro | done..]. }
    pose proof (deliver_spec show v False False packs Φ m n HΦ ltac:(by destruct m) b1 Hpre) as Hd.
    pose proof (deliver_load (Some m) b1) as Hl.
    destruct (deliver show v (Some m) b1) as [[r' b'] | |]; [| done..].
    specialize (Hl _ _ eq_refl). unfold load in Hl. injection Hl as Hl1 Hl2.
    exists r', b'. split; [done |]. destruct Hd as [Hb' Hr'].
    destruct r' as [e | []]; [done |]. destruct Hr' as [Hr1 Hr2].
    split_and!; [split_and!; [done | done | congruence] | lia | done].
  - destruct (receive show v b) as [[r b'] | |]; [| done |].
    + destruct Hf as ([e ->] & Hb' & He & _). by exists (inl e), b'.
    + destruct Hf as [[] | Hf]. rewrite Hu in Hf. apply Forall2_length in Hal. rewrite Hf in Hal.
      by destruct (b_handlers b).
Qed.

(** Reading all answers takes no longer than there are messages on the way. *)
Lemma receiveAll_returns n fuel (b : conn) :
  well n b → (backlog (b_world b) < fuel)%nat →
  ∃ r b', receiveAll show v fuel b = Done (r, b') ∧
    match r with
    | inl _ => I settled n [] [] b' ∧ b_err b' ≠ None
    | inr _ => well n b' ∧ b_handlers b' = [] ∧ (b_err b = None → b_err b' = None)
    end.
Proof.
  revert b. induction fuel as [| fuel IH]; intros b Hb Hf; [lia |].
  simpl. unfold mbind, GoM_bind, isEmpty, go_get.
  destruct (b_handlers b) as [| h hs] eqn:Hh; [by eexists _, _ |].
  destruct (receive_returns n b Hb) as (r & b1 & -> & Hr); [by rewrite Hh |].
  destruct r as [e | []]; [by eexists _, _ |]. destruct Hr as (Hb1 & Hl & He).
  destruct (IH b1 Hb1) as (r & b2 & -> & Hr); [lia |].
  exists r, b2. split; [done |]. destruct r as [e | []]; [done |]. naive_solver.
Qed.

(** ** Resetting *)

(** Where a reset leads: without an answer that is a failure, to [Ready]. *)
Definition reset_result (b : conn) : Prop :=
  b_state b = Dead ∨ b_state b = Failed ∨ (b_state b = Ready ∧ b_handlers b = []).

Lemma failed_or_dead n (b : conn) : I settled n [] [] b → b_err b ≠ None → reset_result b.
Proof. intros Hb He. destruct (inv_err _ _ _ _ _ Hb He); unfold reset_result; auto. Qed.

Lemma ForceReset_returns n fuel (b : conn) :
  well n b → (backlog (b_world b) < fuel)%nat →
  ∃ b', ForceReset show v fuel b = Done (tt, b') ∧ reset_result b'.
Proof.
  intros (Hb & Ha & Hu) Hf. unfold ForceReset, in_state.
  unfold mbind at 1, GoM_bind at 1, go_get at 1.
  rewrite bool_decide_eq_false_2 by (rewrite list_elem_of_singleton; done).
  unfold mbind at 1, GoM_bind at 1, go_modify at 1.
  set (b1 := b <| b_err := None |>).
  assert (Hb1 : well n b1).
  { split_and!; [| done | done]. unfold b1. apply (inv_change _ _ _ _ b); try done; by left. }
  destruct (receiveAll_returns n fuel b1 Hb1 Hf) as (r & b2 & E & Hr).
  unfold mbind at 1, GoM_bind at 1. unfold mbind at 1, GoM_bind at 1. rewrite E.
  destruct r as [e | []].
  - exists b2. split; [done |]. destruct Hr. by eapply failed_or_dead.
  - destruct Hr as ((Hb2 & Ha2 & _) & Hh & He). specialize (He eq_refl).
    unfold last_err, go_get. rewrite He.
    pose proof (finish_reset_spec show v False False packs n b2 (conj (conj Hb2 He) Hh)) as Hfin.
    unfold mret, GoM_ret in *. cbv beta iota.
    destruct ((append show v RReset resetHandler;; _) b2) as [[[] b3] | |]; [| done..].
    exists b3. split; [done |]. destruct (decide (b_state b3 = Dead)) as [| Hd]; [by left |].
    right; right. by destruct (Hfin Hd).
Qed.

Lemma reset_streams_returns (b : conn) :
  ∃ t w, reset_streams b =
    Done (tt, b <| b_world := w |> <| b_streams := mkOpenstreams None 0 t |>).
Proof.
  unfold reset_streams, mbind, GoM_bind, do_world. pose proof (quiet_now (b_world b)) as Hn.
  destruct (wnow (b_world b)) as [[t w] | |]; [by exists t, w | done..].
Qed.

(** What is left when resetting leads from [b] to [b']. *)
Definition resets (b b' : conn) : Prop :=
  (b_state b = Ready → b_state b' = Ready ∧ b_handlers b' = b_handlers b) ∧
  (b_state b ≠ Ready → reset_result b').

Lemma Reset_returns n fuel (b : conn) :
  well n b → (backlog (b_world b) < fuel)%nat →
  ∃ b', Reset show v fuel b = Done (tt, b') ∧ resets b b' ∧
    b_err b' = None ∧ b_txId b' = 0 ∧ o_curr (b_streams b') = None.
Proof.
  intros Hb Hf. unfold Reset. unfold mbind at 1, GoM_bind at 1, in_state, go_get.
  assert (Hfin : ∀ b1 : conn, resets b b1 →
     ∃ b', (go_modify (λ b : conn, b <| b_txId := 0 |> <| b_bookmark := "" |>
                    <| b_databaseName := DefaultDatabase |> <| b_err := None |>
                    <| b_lastQid := -1 |>);; reset_streams) b1 = Done (tt, b') ∧ resets b b' ∧
       b_err b' = None ∧ b_txId b' = 0 ∧ o_curr (b_streams b') = None).
  { intros b1 Hb1. unfold mbind, GoM_bind, go_modify.
    edestruct reset_streams_returns as (t & w & ->).
    eexists. split; [reflexivity |]. split; [exact Hb1 | done]. }
  case_bool_decide as Hr; rewrite list_elem_of_singleton in Hr; simpl.
  - apply (Hfin b). by split.
  - destruct (ForceReset_returns n fuel b Hb Hf) as (b1 & E & Hb1).
    unfold mbind at 1, GoM_bind at 1. rewrite E. apply (Hfin b1). by split.
Qed.

(** C21. Resetting returns: on a live connection with everything sent, [Reset]
    comes to an end after at most as many reads as messages are on their way,
    with no error, no transaction and no current stream left behind.  A connection
    that was ready stays ready with the handlers it had; any other is then ready with
    an empty queue, or dead, or it has failed.  In version 6 this holds as long as
    packing reports no unsupported feature. *)
Theorem reset_returns fuel (b : conn) :
  reachable show v b → IsAlive b = true →
  unsent (b_world b) = 0%nat → (backlog (b_world b) < fuel)%nat →
  ∃ b', Reset show v fuel b = Done (tt, b') ∧ resets b b' ∧
    b_err b' = None ∧ b_txId b' = 0 ∧ o_curr (b_streams b') = None.
Proof.
  intros Hr Ha Hu Hf. apply (Reset_returns (length (b_store b))); [| done].
  split_and!; [by apply (conn_reachable_inv show v packs) | | done].
  intros Hd. unfold IsAlive in Ha. by rewrite Hd in Ha.
Qed.
End Liveness.
