(* ===== verification/BoltStreams.v ===== *)
(** Results as a client sees them: what [Next] does with each message, and that a
    query hands over all records of the server, in order, before its summary. *)

From S2P Require Import Prelude Values Errors Messages Outgoing Bolt BoltLogic BoltServer.
#[local] Open Scope Z_scope.
#[local] Open Scope go_scope.

Section Steps.
Context {W Token : Type} `{World W} `{Tokens Token}.
Variable show : error → string.
Variable v : version.
Abbreviation conn := (bolt W Token).

(** Stream [s] waits for an answer to its PULL and has nothing buffered. *)
Record awaiting (s : nat) (st : stream) (hs : list responseHandler) (b : conn) : Prop := {
  aw_stream : b_store b !! s = Some st;
  aw_fifo : s_fifo st = [];
  aw_err : s_err st = None;
  aw_sum : s_sum st = None;
  aw_batch : s_endOfBatch st = false;
  aw_keep : s_discarding st = false;
  aw_handlers : b_handlers b = pullHandler s :: hs;
  aw_qerr : b_qerr b = None;
  aw_ok : b_err b = None
}.

(** The connection after a message was read at time [t]. *)
Definition after_read (w : W) (t : Z) (b : conn) : conn :=
  b <| b_qerr := None |> <| b_world := w |> <| b_idleDate := t |>.

Lemma receive_message (b : conn) m w w' t :
  b_qerr b = None → wnext (b_world b) = Done ((Some m, None), w) → wnow w = Done (t, w') →
  receive show v b = deliver show v (Some m) (after_read w' t b).
Proof.
  intros Hq Hn Ht. unfold receive, receiveMsg, onNextMessage, mbind, GoM_bind, do_world, go_get.
  rewrite Hq, Hn. unfold mbind, GoM_bind, go_modify. simpl b_world. rewrite Ht. done.
Qed.

Definition set_stream (s : nat) (st : stream) (b : conn) : conn :=
  b <| b_store := <[s := st]> (b_store b) |>.

Lemma on_stream_at s st f (b : conn) :
  b_store b !! s = Some st → on_stream s f b = Done (tt, set_stream s (f st) b).
Proof. intros Hs. unfold on_stream, mbind, GoM_bind, the_stream. by rewrite Hs. Qed.

Lemma set_stream_id s st (b : conn) : b_store b !! s = Some st → set_stream s st b = b.
Proof. intros Hs. destruct b. unfold set_stream. simpl in *. by rewrite list_insert_id. Qed.

Lemma set_stream_twice s st st' (b : conn) : set_stream s st (set_stream s st' b) = set_stream s st b.
Proof. unfold set_stream. simpl. by rewrite list_insert_insert_eq. Qed.

Lemma lookup_set_stream s st st' (b : conn) :
  b_store b !! s = Some st' → b_store (set_stream s st b) !! s = Some st.
Proof. intros Hs. apply list_lookup_insert_eq. by eapply lookup_lt_Some. Qed.

(** One pass of the loop of [Next], when a record is buffered or nothing is. *)
Lemma next_loop_buffered fuel s st r rest (b : conn) :
  b_store b !! s = Some st → s_fifo st = r :: rest →
  next_loop show v (S fuel) s b =
    Done ((Some r, None, None), set_stream s (st <| s_fifo := rest |>) b).
Proof.
  intros Hs Hf. simpl. unfold mbind at 1, GoM_bind at 1, the_stream. rewrite Hs.
  unfold bufferedNext. rewrite Hf. unfold mbind, GoM_bind.
  by rewrite (on_stream_at _ st).
Qed.

Lemma next_loop_waits fuel s st hs (b : conn) :
  awaiting s st hs b →
  next_loop show v (S fuel) s b =
    match receive show v b with
    | Done (inl e, b') => Done (next_error e, b')
    | Done (inr _, b') =>
        match b_err b' with
        | Some e => Done (next_error e, b')
        | None => next_loop show v fuel s b'
        end
    | Panic => Panic
    | OutOfFuel => OutOfFuel
    end.
Proof.
  intros [Hs Hf He Hsum Hb _ Hh _ _]. simpl. unfold mbind at 1, GoM_bind at 1, the_stream. rewrite Hs.
  unfold bufferedNext. rewrite Hf, He, Hsum, Hb.
  unfold mbind at 1, GoM_bind at 1. rewrite (on_stream_at _ st) by done.
  rewrite (set_stream_id s st) by done.
  unfold mbind, GoM_bind, mret, GoM_ret, isEmpty, go_get, last_err. rewrite Hh.
  destruct (receive show v b) as [[[e | u] b'] | |]; [done | | done..].
  unfold go_get. by destruct (b_err b').
Qed.

Lemma deliver_record s st hs (b : conn) r :
  b_handlers b = pullHandler s :: hs → b_store b !! s = Some st → s_discarding st = false →
  deliver show v (Some (MRecord r)) b =
    Done (inr tt, set_stream s (push (r <| rec_Keys := s_keys st |>) (st <| s_hadRecord := true |>)) b).
Proof.
  intros Hh Hs Hd. destruct b, st; simpl in *. subst.
  unfold deliver, isEmpty, pop, take_record, mbind, GoM_bind, mret, GoM_ret, go_get. simpl.
  unfold take_record, mbind, GoM_bind. erewrite on_stream_at by done. done.
Qed.

(** The end of a batch, or of the stream. *)
Lemma deliver_more s st hs (b : conn) m :
  b_handlers b = pullHandler s :: hs → b_store b !! s = Some st → s_discarding st = false →
  hasMore m = true →
  deliver show v (Some (MSuccess m)) b =
    Done (inr tt, set_stream s (st <| s_endOfBatch := true |>) (b <| b_handlers := hs |>)).
Proof.
  intros Hh Hs Hd Hm. destruct b; simpl in *. subst.
  unfold deliver, isEmpty, pop, mbind, GoM_bind, mret, GoM_ret, go_get. simpl.
  unfold mbind, GoM_bind. rewrite (on_stream_at s st) by done. rewrite Hd, Hm.
  rewrite (on_stream_at s st) by by apply (lookup_set_stream s st st). by rewrite set_stream_twice.
Qed.

(** A record is handed over with the keys of the stream. *)
Lemma Next_record fuel s st hs (b : conn) r w w' t :
  awaiting s st hs b →
  wnext (b_world b) = Done ((Some (MRecord r), None), w) → wnow w = Done (t, w') →
  Next show v (S (S fuel)) (Some s) b =
    Done ((Some (r <| rec_Keys := s_keys st |>), None, None),
          set_stream s (st <| s_hadRecord := true |>) (after_read w' t b)).
Proof.
  intros Hb Hn Ht. unfold Next, getUnsafe, mbind, GoM_bind, mret, GoM_ret.
  rewrite (next_loop_waits _ _ _ _ _ Hb), (receive_message b _ _ _ _ (aw_qerr _ _ _ _ Hb) Hn Ht).
  destruct Hb as [Hs Hf He Hsum Hb Hd Hh Hq Hok].
  rewrite (deliver_record s st hs) by done.
  change (b_err _) with (b_err b). rewrite Hok.
  destruct st. simpl in Hf. subst.
  erewrite next_loop_buffered; [| by eapply lookup_set_stream | done]. by rewrite set_stream_twice.
Qed.
End Steps.

(** * Against a server with cursors *)

Section Delivery.
Context {Token : Type} `{Tokens Token}.
Variable show : error → string.
Variable v : version.
Abbreviation conn := (bolt (net database) Token).

Lemma append_net r h (b : conn) :
  append show v r h b =
    Done (tt, b <| b_world := (b_world b) <| n_unsent := n_unsent (b_world b) ++ [r] |> |>
                <| b_handlers := b_handlers b ++ [h] |>).
Proof. done. Qed.

Lemma send_net (b : conn) :
  send show b =
    Done (tt, b <| b_world := (transmit (n_unsent (b_world b)) (b_world b)) <| n_unsent := [] |> |>).
Proof. done. Qed.

Lemma assertState_ok l (b : conn) :
  b_err b = None → b_state b ∈ l → assertState l b = Done (inr tt, b).
Proof. intros He Hs. unfold assertState, go_get. by rewrite He, decide_True. Qed.

(** Reading the first message of the oldest answer. *)
Definition tick (w : net database) : net database := w <| n_time := n_time w + 1 |>.

Lemma next_net (w : net database) r m ms rest :
  n_sent w = (r, m :: ms) :: rest → answersb r m = true →
  wnext w = Done ((Some m, None),
    w <| n_sent := match m with MRecord _ => (r, ms) :: rest | _ => rest end |>).
Proof. intros Hs Ha. simpl. unfold net_next. by rewrite Hs, Ha. Qed.

(** The answers to the PULL of a stream whose next records are [now], with
    [later] left at the server. *)
Definition left_over (q : Z) (later : list Record_) (others : list cursor) : list cursor :=
  match later with [] => others | _ => mkCursor q later None :: others end.

(** A transaction: its handle, the queries run in it, and what was committed before. *)
Record open_tx : Type := mkOpenTx {
  ot_handle : Z;
  ot_work : list query;
  ot_before : list (list query)
}.

(** Whether the query runs in a transaction, and that; there it is the latest query. *)
Variable tx : bool.
Variable open : open_tx.

Definition batch_end (later : list Record_) : message :=
  match later with [] => if tx then succeed else finished | _ => more end.

Definition in_tx (d : database) : Prop :=
  d_tx d = tx ∧ (tx = true → d_work d = ot_work open ∧ d_committed d = ot_before open).

Definition streaming_state : conn_state := if tx then StreamingTx else Streaming.
Definition ended_state : conn_state := if tx then Tx else Ready.

Record delivering (s : nat) (st : stream) (now later : list Record_) (b : conn) : Prop := {
  dl_awaiting : awaiting s st [] b;
  dl_state : b_state b = streaming_state;
  dl_latest : tx = true → s_qid st = b_lastQid b;
  dl_handle : tx = true → b_txId b = ot_handle open;
  dl_open : o_num (b_streams b) = 1;
  dl_unsent : n_unsent (b_world b) = [];
  dl_sent : ∃ n, n_sent (b_world b) = [(RPullN n, (MRecord <$> now) ++ [batch_end later])];
  dl_alive : d_failed (n_server (b_world b)) = false;
  dl_tx : in_tx (n_server (b_world b));
  dl_cursors : ∃ q others, d_cursors (n_server (b_world b)) = left_over q later others;
  dl_fetch : s_fetchSize st ≠ 0;
  dl_calls : n_calls (b_world b) = []
}.

Lemma deliver_next fuel s st r now later (b : conn) :
  delivering s st (r :: now) later b →
  ∃ b', Next show v (S (S fuel)) (Some s) b =
          Done ((Some (r <| rec_Keys := s_keys st |>), None, None), b') ∧
        delivering s (st <| s_hadRecord := true |>) now later b'.
Proof.
  intros [Ha Hs Hla Hha Ho Hu [n Hn] Hd Htx Hc Hf Hcs].
  eexists. split.
  - eapply (Next_record show v fuel s st [] b r); [done | | done].
    by apply (next_net _ (RPullN n) _ ((MRecord <$> now) ++ [batch_end later]) []).
  - destruct Ha. constructor; try done.
    + constructor; try done. by eapply list_lookup_insert_eq, lookup_lt_Some.
    + by exists n.
Qed.

Lemma last_err_ok (b : conn) : b_err b = None → last_err b = Done (inr tt, b).
Proof. intros He. unfold last_err, go_get. by rewrite He. Qed.

Lemma isEmpty_no h hs (b : conn) : b_handlers b = h :: hs → isEmpty b = Done (false, b).
Proof. intros Hh. unfold isEmpty, go_get. by rewrite Hh. Qed.

Lemma appendPullN_net s st (b : conn) :
  b_store b !! s = Some st → b_state b = streaming_state → (tx = true → s_qid st = b_lastQid b) →
  appendPullN show v s b = append show v (RPullN (s_fetchSize st)) (pullHandler s) b.
Proof.
  intros Hs Ht Hq. unfold appendPullN, mbind, GoM_bind, the_stream, go_get, id. rewrite Hs, Ht.
  unfold streaming_state. destruct tx; [| done]. by rewrite Hq, Z.eqb_refl.
Qed.

(** The connection after a PULL for the stream was sent. *)
Definition pulled (s : nat) (st : stream) (b : conn) : conn :=
  set_stream s (st <| s_endOfBatch := false |>)
    (b <| b_world := (transmit [RPullN (s_fetchSize st)] (b_world b)) <| n_unsent := [] |> |>
       <| b_handlers := [pullHandler s] |>).

Lemma next_loop_pulls fuel s st (b : conn) :
  b_store b !! s = Some st → s_fifo st = [] → s_err st = None → s_sum st = None →
  s_endOfBatch st = true → s_discarding st = false → b_handlers b = [] → b_qerr b = None →
  b_err b = None → b_state b = streaming_state → (tx = true → s_qid st = b_lastQid b) →
  n_unsent (b_world b) = [] →
  next_loop show v (S fuel) s b = next_loop show v (S fuel) s (pulled s st b).
Proof.
  intros Hs Hf He Hsum Hb Hd Hh Hq Hok Hst Hla Hu.
  rewrite (next_loop_waits show v fuel s (st <| s_endOfBatch := false |>) [] (pulled s st b)).
  2:{ constructor; try done. by eapply list_lookup_insert_eq, lookup_lt_Some. }
  simpl next_loop. unfold mbind at 1, GoM_bind at 1, the_stream. rewrite Hs.
  unfold bufferedNext. rewrite Hf, He, Hsum.
  unfold mbind at 1, GoM_bind at 1. rewrite (on_stream_at _ st) by done.
  rewrite (set_stream_id s st), Hb by done. cbv iota.
  unfold mbind, GoM_bind. rewrite (appendPullN_net s st), append_net, send_net by done.
  rewrite last_err_ok by exact Hok. cbv iota beta.
  erewrite on_stream_at by exact Hs. unfold mret, GoM_ret. cbv iota beta.
  erewrite isEmpty_no; [| simpl; rewrite Hh; reflexivity]. cbv iota beta.
  match goal with |- context [receive show v ?b'] => replace b' with (pulled s st b) end.
  - destruct (receive show v (pulled s st b)) as [[[e | u] b'] | |]; try done.
    unfold last_err, go_get. by destruct (b_err b').
  - unfold pulled, set_stream. destruct b as [? ? ? ? ? ? ? ? ? ? ? ? ? ? ? ? ? ? ? ? ? ? ? ? []].
    simpl in *. subst. simpl. destruct (d_failed n_server); [done |]. by destruct (pull _ _ _).
Qed.

Lemma split_batch_cons n r l :
  n ≠ 0 → ∃ now later, split_batch n (r :: l) = (r :: now, later) ∧ r :: l = r :: now ++ later.
Proof.
  intros Hn. unfold split_batch. destruct (n <? 0) eqn:E.
  - exists l, []. by rewrite app_nil_r.
  - zbool. destruct (Z.to_nat n) as [| k] eqn:Hk; [lia |].
    exists (take k l), (drop k l). by rewrite take_drop.
Qed.

#[local] Arguments pull : simpl never.

(** A PULL for the latest cursor. *)
Definition after_pull (q : Z) (later : list Record_) (others : list cursor) (d : database) : database :=
  let d := d <| d_cursors := left_over q later others |> in
  match later with [] => if tx then d else commit d | _ => d end.

Lemma after_pull_in_tx q later others d :
  in_tx d → in_tx (after_pull q later others d) ∧
  d_failed (after_pull q later others d) = d_failed d ∧
  d_cursors (after_pull q later others d) = left_over q later others.
Proof. unfold after_pull, in_tx. destruct later; simpl; [destruct tx; simpl |]; naive_solver. Qed.

Lemma pull_latest n q l others now later (d : database) :
  d_cursors d = mkCursor q l None :: others → split_batch n l = (now, later) → d_tx d = tx →
  pull n (-1) d = ((MRecord <$> now) ++ [batch_end later], after_pull q later others d).
Proof.
  intros Hc Hs Ht. unfold pull, after_pull. rewrite Hc. simpl. rewrite Hs.
  destruct later; [| unfold left_over; by destruct d].
  unfold end_cursor. destruct d. simpl in *. subst. by destruct tx.
Qed.

Lemma refill_next fuel s st r l (b : conn) :
  delivering s st [] (r :: l) b →
  ∃ b' now later,
    Next show v (S (S (S fuel))) (Some s) b =
      Done ((Some (r <| rec_Keys := s_keys st |>), None, None), b') ∧
    delivering s (st <| s_hadRecord := true |>) now later b' ∧ l = now ++ later.
Proof.
  intros [Ha Hs Hla Hha Ho Hu [n Hn] Hd Htx (q & others & Hc) Hf Hcs].
  destruct (split_batch_cons (s_fetchSize st) r l Hf) as (now & later & Hsp & Hl).
  injection Hl as Hl. unfold Next, getUnsafe, mbind, GoM_bind, mret, GoM_ret.
  rewrite (next_loop_waits show v _ s st [] b Ha).
  erewrite receive_message; [| apply (aw_qerr _ _ _ _ Ha) | by apply (next_net _ (RPullN n) more [] []) | reflexivity].
  unfold more. erewrite (deliver_more show v s st []); [| apply (aw_handlers _ _ _ _ Ha)
    | apply (aw_stream _ _ _ _ Ha) | apply (aw_keep _ _ _ _ Ha) | done].
  destruct Ha as [Hst Hfi He Hsum Hb Hk Hh Hq Hok].
  match goal with |- context [match b_err ?b1 with _ => _ end] => set (b1' := b1) end.
  change (b_err b1') with (b_err b). rewrite Hok.
  assert (Hs1 : b_store b1' !! s = Some (st <| s_endOfBatch := true |>)).
  { by eapply list_lookup_insert_eq, lookup_lt_Some. }
  rewrite (next_loop_pulls (S fuel) s _ b1' Hs1) by done.
  assert (Hdel : delivering s st (r :: now) later (pulled s (st <| s_endOfBatch := true |>) b1')).
  { subst b1'. destruct b as [? ? ? ? ? ? ? ? ? ? ? ? ? ? ? ? ? ? ? ? ? ? ? ? [us sn sv t cs]].
    simpl in *. subst. unfold pulled, set_stream. simpl. rewrite Hd.
    erewrite (pull_latest _ q (r :: now ++ later) others); [| exact Hc | done | apply Htx]. simpl.
    destruct (after_pull_in_tx q later others sv Htx) as (Htx' & Hd' & Hc'). rewrite Hd in Hd'.
    constructor; simpl; eauto.
    constructor; simpl; eauto. destruct st; simpl in *; subst.
    apply list_lookup_insert_eq. rewrite length_insert. by eapply lookup_lt_Some. }
  destruct (deliver_next fuel s st r now later _ Hdel) as (b' & E & Hb').
  exists b', now, later. split_and!; [exact E | done | done].
Qed.

(** The end of the stream makes the connection ready again. *)
Definition end_bookmark : string := if tx then "" else "bm".

Lemma deliver_finished s st (b : conn) :
  b_handlers b = [pullHandler s] → b_store b !! s = Some st → s_discarding st = false →
  b_state b = streaming_state → o_num (b_streams b) = 1 →
  ∃ sum b', deliver show v (Some (batch_end [])) b = Done (inr tt, b') ∧
    b_store b' !! s = Some (st <| s_sum := Some sum |> <| s_key := 0 |>) ∧
    sum_Bookmark (su_success sum) = end_bookmark ∧ su_HadRecord sum = s_hadRecord st ∧
    b_state b' = ended_state ∧ b_handlers b' = [] ∧ (tx = false → b_bookmark b' = "bm") ∧ b_err b' = b_err b ∧
    b_world b' = b_world b ∧ b_qerr b' = b_qerr b ∧ b_txId b' = b_txId b.
Proof.
  intros Hh Hs Hd Ht Ho.
  destruct b as [? ? [cu nu ke] ? ? ? ? ? ? ? ? ? ? ? ? ? ? ? ? ? ? ? sto ? ?]. simpl in *. subst.
  unfold batch_end, end_bookmark, streaming_state, ended_state.
  unfold deliver, isEmpty, pop, mbind, GoM_bind, mret, GoM_ret, go_get.
  destruct tx; simpl; unfold mbind, GoM_bind.
  all: erewrite on_stream_at by exact Hs; rewrite Hd, set_stream_id by exact Hs.
  all: unfold finish_stream, extractSummary, mbind, GoM_bind, mret, GoM_ret, the_stream; simpl b_store.
  all: rewrite Hs; simpl; unfold mbind, GoM_bind.
  all: erewrite on_stream_at by exact Hs; unfold remove, mbind, GoM_bind, on_streams, go_modify; simpl.
  all: erewrite on_stream_at by (by apply list_lookup_insert_eq, (lookup_lt_Some _ _ _ Hs)).
  all: unfold set_stream, checkStreams, mbind, GoM_bind, go_get, set_state, go_modify; simpl.
  all: case_decide; (eexists _, _; split; [reflexivity |]; split;
    [apply list_lookup_insert_eq; rewrite length_insert; by eapply lookup_lt_Some | done]).
Qed.

(** A stream whose summary was handed over; the connection owes nothing. *)
Record ended (s : nat) (keys : list string) (sum : Summary_) (b : conn) : Prop := {
  en_stream : ∃ st, b_store b !! s = Some st ∧ s_sum st = Some sum ∧ s_err st = None ∧ s_keys st = keys;
  en_bookmark : sum_Bookmark (su_success sum) = end_bookmark ∧ (tx = false → b_bookmark b = "bm");
  en_state : b_state b = ended_state;
  en_handle : tx = true → b_txId b = ot_handle open;
  en_handlers : b_handlers b = [];
  en_qerr : b_qerr b = None;
  en_ok : b_err b = None;
  en_unsent : n_unsent (b_world b) = [];
  en_sent : n_sent (b_world b) = [];
  en_alive : d_failed (n_server (b_world b)) = false;
  en_tx : in_tx (n_server (b_world b));
  en_calls : n_calls (b_world b) = []
}.

Lemma next_end n (w : net database) :
  n_sent w = [(RPullN n, [batch_end []])] →
  wnext w = Done ((Some (batch_end []), None), w <| n_sent := [] |>).
Proof. intros Hn. simpl. unfold net_next, batch_end in *. rewrite Hn. by destruct tx. Qed.

Lemma finish_next fuel s st (b : conn) :
  delivering s st [] [] b →
  ∃ sum b', Next show v (S (S fuel)) (Some s) b = Done ((None, Some sum, None), b') ∧
    ended s (s_keys st) sum b'.
Proof.
  intros [Ha Hs Hla Hha Ho Hu [n Hn] Hd Htx _ Hf Hcs].
  unfold Next, getUnsafe, mbind, GoM_bind, mret, GoM_ret.
  rewrite (next_loop_waits show v _ s st [] b Ha).
  erewrite receive_message; [| apply (aw_qerr _ _ _ _ Ha)
    | by apply (next_end n) | reflexivity].
  destruct Ha as [Hst Hfi He Hsum Hb Hk Hh Hq Hok].
  edestruct deliver_finished as (sum & b' & -> & Hst' & Hbm & Hhr & Hst2 & Hh2 & Hb2 & He2 & Hw2 & Hq2 & Hx2);
    [exact Hh | exact Hst | done..|].
  rewrite He2. change (b_err (after_read _ _ b)) with (b_err b) in *. rewrite Hok.
  exists sum, b'. split.
  - destruct st. simpl in *. subst. unfold mbind, GoM_bind, the_stream. rewrite Hst'. simpl.
    by erewrite on_stream_at, set_stream_id by exact Hst'.
  - constructor; rewrite ?Hw2, ?He2, ?Hq2, ?Hx2; try done. by eexists.
Qed.

(** The next record, from the batch or from the one that is pulled. *)
Lemma take_one fuel s st now later r l (b : conn) :
  delivering s st now later b → now ++ later = r :: l →
  ∃ b' now' later', Next show v (S (S (S fuel))) (Some s) b =
      Done ((Some (r <| rec_Keys := s_keys st |>), None, None), b') ∧
    delivering s (st <| s_hadRecord := true |>) now' later' b' ∧ l = now' ++ later'.
Proof.
  intros Hb Hl. destruct now as [| r' now]; simpl in Hl.
  - subst later. by apply refill_next.
  - injection Hl as -> <-. destruct (deliver_next (S fuel) s st r now later b Hb) as (b' & E & Hb').
    eauto 6.
Qed.

(** [Next] until there are no more records; at most [k] of them. *)
Fixpoint drain (k fuel s : nat) : GoM conn (list Record_ * (option Summary_ * option error)) :=
  r ← Next show v fuel (Some s);
  match k, r with
  | S k, (Some rec, _, _) => '(l, e) ← drain k fuel s; mret (rec :: l, e)
  | _, (_, sum, err) => mret ([], (sum, err))
  end.

Definition drained (s : nat) (st : stream) (recs : list Record_)
    (o : outcome (list Record_ * (option Summary_ * option error) * conn)) : Prop :=
  ∃ sum b', o = Done ((λ r, r <| rec_Keys := s_keys st |>) <$> recs, (Some sum, None), b') ∧
    ended s (s_keys st) sum b'.

Lemma drain_all fuel s st now later (b : conn) :
  delivering s st now later b →
  drained s st (now ++ later) (drain (length (now ++ later)) (S (S (S fuel))) s b).
Proof.
  remember (now ++ later) as l eqn:Hl. revert st now later b Hl.
  induction l as [| r l IH]; intros st now later b Hl Hb.
  - symmetry in Hl. apply app_eq_nil in Hl as [-> ->].
    destruct (finish_next (S fuel) s st b Hb) as (sum & b' & E & Hs).
    exists sum, b'. split; [| exact Hs]. simpl. unfold mbind, GoM_bind. by rewrite E.
  - destruct (take_one fuel s st now later r l b Hb (eq_sym Hl)) as (b' & now' & later' & E & Hb' & Hl').
    destruct (IH _ _ _ b' Hl' Hb') as (sum & b2 & E2 & Hs).
    exists sum, b2. split; [| done]. simpl drain. unfold mbind, GoM_bind. rewrite E, E2. done.
Qed.

End Delivery.

(** * Running a query *)

Definition no_tx : open_tx := mkOpenTx 0 [] [].

Section Query.
Context {Token : Type} `{Tokens Token}.
Variable show : error → string.
Variable v : version.
Abbreviation conn := (bolt (net database) Token).
#[local] Arguments pull : simpl never.

(** A connection between queries, to a server with the records of the next query. *)
Record idle (recs : list Record_) (b : conn) : Prop := {
  id_state : b_state b = Ready;
  id_err : b_err b = None;
  id_qerr : b_qerr b = None;
  id_handlers : b_handlers b = [];
  id_curr : o_curr (b_streams b) = None;
  id_num : o_num (b_streams b) = 0;
  id_unsent : n_unsent (b_world b) = [];
  id_sent : n_sent (b_world b) = [];
  id_alive : d_failed (n_server (b_world b)) = false;
  id_auto : d_tx (n_server (b_world b)) = false;
  id_results : ∃ rest, d_results (n_server (b_world b)) = (recs, None) :: rest;
  id_calls : n_calls (b_world b) = []
}.

Lemma normalizeFetchSize_nonzero n : normalizeFetchSize n ≠ 0.
Proof. unfold normalizeFetchSize, fetchSize_default. repeat split_if; zbool; lia. Qed.

Lemma split_batch_app n l : (split_batch n l).1 ++ (split_batch n l).2 = l.
Proof. unfold split_batch. destruct (n <? 0); simpl; [by rewrite app_nil_r | by rewrite take_drop]. Qed.

Lemma after_append_run_ok (b : conn) : b_err b = None → after_append_run v b = Done (inr tt, b).
Proof.
  intros He. unfold after_append_run. destruct v; [done | done |].
  unfold mbind, GoM_bind, has_err, go_get. by rewrite He.
Qed.

(** The state in which [run] leaves the stream when the answer to RUN was read. *)
Definition started (m : success) (fetch : Z) (st : stream) : Prop :=
  s_keys st = fields m ∧ s_fetchSize st = fetch ∧ s_fifo st = [] ∧ s_err st = None ∧
  s_sum st = None ∧ s_endOfBatch st = false ∧ s_discarding st = false ∧ s_qid st = qid m ∧
  (v ≠ V4 → s_attached st = true).

Definition run_answered (s : nat) (m : success) (fetch : Z) (b b' : conn) : Prop :=
  (∃ st, b_store b' !! s = Some st ∧ started m fetch st) ∧
  b_err b' = b_err b ∧ b_qerr b' = b_qerr b ∧ b_handlers b' = [pullHandler s] ∧
  b_state b' = b_state b ∧ o_num (b_streams b') = o_num (b_streams b) + 1 ∧ b_world b' = b_world b ∧
  b_txId b' = b_txId b ∧ b_lastQid b' = (if -1 <? qid m then qid m else b_lastQid b).

Lemma pin_nothing m (b : conn) : db m = "" → pin_database v m b = Done (tt, b).
Proof.
  intros Hdb. unfold pin_database, mbind, GoM_bind, go_get. rewrite Hdb. by destruct v, (b_pin b).
Qed.

Lemma deliver_run s m fetch (b : conn) :
  b_store b !! s = Some (new_stream fetch) → b_handlers b = [runHandler s; pullHandler s] →
  o_curr (b_streams b) = None → db m = "" →
  ∃ b', deliver show v (Some (MSuccess m)) b = Done (inr tt, b') ∧ run_answered s m fetch b b'.
Proof.
  intros Hs Hh Hc Hdb. destruct b as [? ? [cu nu ke] ? ? ? ? ? ? ? ? ? ? ? ? ? ? ? ? ? ? ? sto ? ?].
  simpl in *. subst.
  unfold deliver, isEmpty, pop, mbind, GoM_bind, mret, GoM_ret, go_get. simpl.
  unfold onRunSuccess, mbind, GoM_bind. rewrite pin_nothing by done.
  erewrite on_stream_at by exact Hs. simpl. unfold mret, GoM_ret, when, run_answered. destruct (-1 <? qid m).
  all: unfold attach, mbind, GoM_bind, go_get, on_streams, go_modify; simpl.
  all: erewrite on_stream_at by (by apply list_lookup_insert_eq, (lookup_lt_Some _ _ _ Hs)).
  all: eexists; split; [reflexivity |]; split; [| done]; eexists; split;
    [unfold set_stream; simpl; apply list_lookup_insert_eq; rewrite ?length_insert; by eapply lookup_lt_Some |].
  all: unfold started; case_decide; naive_solver.
Qed.

Lemma await_net fuel s q m ms fetch (b : conn) :
  b_store b !! s = Some (new_stream fetch) → b_err b = None → b_qerr b = None →
  b_handlers b = [runHandler s; pullHandler s] → db m = "" →
  o_curr (b_streams b) = None → n_sent (b_world b) = (q, [MSuccess m]) :: ms →
  answersb q (MSuccess m) = true →
  ∃ b', (match v with V4 => receive show v ;? last_err | _ => await_attached show v (S (S fuel)) s end) b =
      Done (inr tt, b') ∧
    run_answered s m fetch (b <| b_world := tick ((b_world b) <| n_sent := ms |>) |>) b'.
Proof.
  intros Hs He Hqe Hh Hdb Hc Hn Ha.
  set (b1 := after_read (tick ((b_world b) <| n_sent := ms |>)) (n_time (b_world b)) b).
  destruct (deliver_run s m fetch b1) as (b' & E & (st & Hst & Hsta) & Hr); try done.
  assert (Er : receive show v b = Done (inr tt, b')).
  { erewrite receive_message; [exact E | done | by eapply next_net | done]. }
  destruct Hr as (He' & Hr).
  change (b_err b1) with (b_err b) in He'. rewrite He in He'.
  exists b'. split.
  2:{ split; [by eauto |]. change (b_qerr b1) with (@None error) in Hr. rewrite <- Hqe in Hr.
      split; [| exact Hr]. rewrite He'. by rewrite <- He. }
  assert (Eq : (receive show v ;? last_err) b = Done (inr tt, b')).
  { unfold mbind, GoM_bind. rewrite Er. by apply last_err_ok. }
  assert (Ew : v ≠ V4 → await_attached show v (S (S fuel)) s b = Done (inr tt, b')).
  { intros Hv. destruct Hsta as (_ & _ & _ & _ & _ & _ & _ & _ & Hat). specialize (Hat Hv).
    simpl. unfold mbind, GoM_bind, the_stream. rewrite Hs. simpl.
    unfold mbind, GoM_bind. rewrite Er. unfold last_err, go_get. rewrite He'. simpl. by rewrite Hst, Hat. }
  destruct v; [exact Eq | by apply Ew..].
Qed.

Definition run_success : success :=
  clear_success <| fields := fields_of_results |>.

Lemma transmit_run c p meta fetch recs now later (w : net database) :
  d_failed (n_server w) = false → d_tx (n_server w) = false → n_sent w = [] →
  (∃ rest, d_results (n_server w) = (recs, None) :: rest) → split_batch fetch recs = (now, later) →
  let w' := transmit [RRun c p meta; RPullN fetch] w in
  n_sent w' = [(RRun c p meta, [MSuccess run_success]);
               (RPullN fetch, (MRecord <$> now) ++ [batch_end false later])] ∧
  d_failed (n_server w') = false ∧ in_tx false no_tx (n_server w') ∧
  d_cursors (n_server w') = left_over 0 later (d_cursors (n_server w)) ∧ n_calls w' = n_calls w.
Proof.
  intros Hf Ht Hs [rest Hr] Hsp. destruct w as [us sn [fl tx cur nx res wk cm] t cs]. simpl in *. subst.
  unfold open_cursor. simpl.
  erewrite (pull_latest false _ 0 recs cur); [| done..]. simpl. by destruct later.
Qed.

Lemma run_stream_net fuel cypher params tx fetch s recs (b : conn) :
  idle recs b → fetch ≠ 0 → b_store b !! s = Some (new_stream fetch) →
  ∃ st b', run_stream show v (S (S fuel)) cypher params tx fetch s b = Done (inr tt, b') ∧
    delivering false no_tx s st (split_batch fetch recs).1 (split_batch fetch recs).2 b' ∧
    s_keys st = fields_of_results.
Proof.
  intros [Hst He Hq Hh Hc Hn Hu Hse Hfl Htx Hres Hcs] Hf Hs.
  destruct (split_batch fetch recs) as [now later] eqn:Hsp.
  unfold run_stream. unfold mbind at 1, GoM_bind at 1, go_get at 1. unfold id at 1.
  set (q := RRun cypher params _).
  unfold mbind at 1, GoM_bind at 1. rewrite append_net.
  unfold mbind at 1, GoM_bind at 1. rewrite after_append_run_ok by exact He.
  unfold mbind at 1, GoM_bind at 1. rewrite append_net.
  unfold mbind at 1, GoM_bind at 1. rewrite send_net.
  unfold mbind at 1, GoM_bind at 1. rewrite last_err_ok by exact He.
  match goal with |- context [(_ ≫= _) ?b1] => set (b2 := b1) end.
  set (w1 := (b_world b) <| n_unsent := [q; RPullN fetch] |>).
  assert (Ew : b_world b2 = (transmit [q; RPullN fetch] w1) <| n_unsent := [] |>).
  { unfold b2, w1. destruct b as [? ? ? ? ? ? ? ? ? ? ? ? ? ? ? ? ? ? ? ? ? ? ? ? []]. simpl in *. by subst. }
  assert (Et := transmit_run cypher params (default [] (toMeta v (Version v b) <$> tx)) fetch recs
    now later w1 Hfl Htx Hse Hres Hsp).
  change (RRun cypher params _) with q in Et. destruct Et as (Es & Ef & Etx & Ec & Ek). change (n_calls w1) with (n_calls (b_world b)) in Ek. rewrite Hcs in Ek.
  destruct (await_net fuel s q run_success [(RPullN fetch, (MRecord <$> now) ++ [batch_end false later])] fetch b2)
    as (b3 & E3 & (st & Hs3 & Hsta) & He3 & Hq3 & Hh3 & Ht3 & Hn3 & Hw3 & _); try done.
  { change (b_handlers b2) with ((b_handlers b ++ [runHandler s]) ++ [pullHandler s]). by rewrite Hh. }
  { rewrite Ew. exact Es. }
  destruct Hsta as (Hk & Hfs & Hfi & Hse3 & Hsu & Heb & Hdi & _ & _).
  change (b_state _) with (b_state b) in Ht3 at 2. rewrite Hst in Ht3.
  change (o_num _) with (o_num (b_streams b)) in Hn3 at 2. rewrite Hn in Hn3.
  unfold mbind at 1, GoM_bind at 1. rewrite E3. unfold start_streaming, mbind, GoM_bind, go_get.
  rewrite Ht3. exists st. eexists. split; [done |]. split; [| done].
  assert (Hw : b_world b3 = tick ((transmit [q; RPullN fetch] w1)
      <| n_unsent := [] |> <| n_sent := [(RPullN fetch, (MRecord <$> now) ++ [batch_end false later])] |>)).
  { rewrite Hw3. by destruct b2; simpl in *; subst. }
  change (b_qerr _) with (b_qerr b) in Hq3 at 2. change (b_err _) with (b_err b) in He3 at 2.
  rewrite Hq in Hq3. rewrite He in He3. clear - Hs3 Hk Hfs Hfi Hse3 Hsu Heb Hdi He3 Hq3 Hh3 Ht3 Hn3 Hw Hf Ef Etx Ec Ek.
  destruct b3. simpl in *. subst b_world. constructor; simpl; eauto; try done; try by constructor.
  by rewrite Hfs.
Qed.

Lemma Run_net fuel cmd cfg recs (b : conn) :
  idle recs b → is_default (tc_NotificationConfig cfg) = true → tc_ImpersonatedUser cfg = "" →
  let fetch := normalizeFetchSize (cmd_FetchSize cmd) in
  ∃ s st b1, Run show v (S (S fuel)) cmd cfg b = Done (inr s, b1) ∧
    delivering false no_tx s st (split_batch fetch recs).1 (split_batch fetch recs).2 b1 ∧
    s_keys st = fields_of_results.
Proof.
  intros Hb Hn Hu fetch. set (s := length (b_store b)).
  set (b0 := b <| b_store := b_store b ++ [new_stream fetch] |>).
  assert (Hb0 : idle recs b0) by by destruct Hb.
  destruct (run_stream_net fuel (cmd_Cypher cmd) (cmd_Params cmd)
    (Some (of_config cfg (b_databaseName b))) fetch s recs b0) as (st & b1 & E & Hd & Hk);
    [done | apply normalizeFetchSize_nonzero | by apply list_lookup_middle |].
  exists s, st, b1. split; [| done].
  destruct Hb as [Hst He _ _ _ _ _ _ _ _ _ _].
  unfold Run, mbind, GoM_bind. rewrite assertState_ok by (rewrite ?Hst; set_solver).
  unfold checkImpersonationAndVersion, checkNotificationFiltering, go_get, id.
  rewrite Hn, Hu. replace (if decide (v = V4) then _ else _) with (@inr error unit tt) by by case_decide.
  unfold run, mbind, GoM_bind, go_get. rewrite Hst. unfold mret, GoM_ret.
  rewrite assertState_ok by (rewrite ?Hst; set_solver).
  unfold alloc_stream. fold fetch s b0. by rewrite E.
Qed.

(** A query hands over its whole result: against a server that runs it, [Run]
    on an idle connection returns a stream, and calling [Next] on that stream
    yields every record of the result, in the order of the server, each with the
    keys the server announced, then the summary; the batches the fetch size cuts
    the result into do not show.  The connection is then ready again, owes
    nothing and has the bookmark of the summary. *)
Theorem records_delivered fuel cmd cfg recs (b : conn) :
  idle recs b → is_default (tc_NotificationConfig cfg) = true → tc_ImpersonatedUser cfg = "" →
  ∃ s b1 sum b2,
    Run show v (S (S fuel)) cmd cfg b = Done (inr s, b1) ∧
    drain show v (length recs) (S (S (S fuel))) s b1 =
      Done ((λ r, r <| rec_Keys := fields_of_results |>) <$> recs, (Some sum, None), b2) ∧
    sum_Bookmark (su_success sum) = "bm" ∧
    b_state b2 = Ready ∧ b_handlers b2 = [] ∧ b_bookmark b2 = "bm".
Proof.
  intros Hb Hn Hu. destruct (Run_net fuel cmd cfg recs b Hb Hn Hu) as (s & st & b1 & E & Hd & Hk).
  destruct (drain_all show v false no_tx fuel s st _ _ b1 Hd) as (sum & b2 & Ed & [_ [Hbm1 Hbm2] Hst _ Hh _ _ _ _ _ _ _]).
  rewrite split_batch_app, Hk in Ed. exists s, b1, sum, b2. split; [done |]. split; [done |]. split; [exact Hbm1 |]. split; [done |]. split; [done | by apply Hbm2].
Qed.
End Query.
