(* ===== verification/BoltTransactions.v ===== *)
(** A query in a transaction, from BEGIN to COMMIT: [TxBegin] without waiting for its
    answer, [RunTx], the records of the stream, and [TxCommit]. *)

From S2P Require Import Prelude Values Errors Messages Outgoing Bolt BoltLogic BoltServer BoltStreams.
#[local] Open Scope Z_scope.
#[local] Open Scope go_scope.

Section Transactions.
Context {Token : Type} `{Tokens Token}.
Variable show : error → string.
Variable v : version.
Abbreviation conn := (bolt (net database) Token).
#[local] Arguments pull : simpl never.

(** BEGIN was packed and not sent; the answer to it is the next that is due. *)
Record begun (h : Z) (before : list (list query)) (recs : list Record_) (b : conn) : Prop := {
  be_state : b_state b = Tx;
  be_handle : b_txId b = h;
  be_err : b_err b = None;
  be_qerr : b_qerr b = None;
  be_handlers : b_handlers b = [beginHandler];
  be_curr : o_curr (b_streams b) = None;
  be_num : o_num (b_streams b) = 0;
  be_unsent : ∃ meta, n_unsent (b_world b) = [RBegin meta];
  be_sent : n_sent (b_world b) = [];
  be_alive : d_failed (n_server (b_world b)) = false;
  be_before : d_committed (n_server (b_world b)) = before;
  be_next : 0 <= d_next (n_server (b_world b));
  be_results : ∃ rest, d_results (n_server (b_world b)) = (recs, None) :: rest;
  be_calls : n_calls (b_world b) = []
}.

Lemma TxBegin_net fuel cfg recs (b : conn) :
  idle recs b → 0 <= d_next (n_server (b_world b)) →
  is_default (tc_NotificationConfig cfg) = true → tc_ImpersonatedUser cfg = "" →
  ∃ h b', TxBegin show v fuel cfg false b = Done (inr h, b') ∧
    begun h (d_committed (n_server (b_world b))) recs b'.
Proof.
  intros [Hst He Hq Hh Hc Hn Hu Hse Hfl Htx Hres Hcs] Hd Hno Hus.
  destruct b as [bs ? [cu nu ke] ? ? ? ? ? ? ? ? ? ? ? ? ? ? ? ? ? ? ? ? ? [us sn sv t cs]]. simpl in *. subst.
  unfold TxBegin, in_state, when, reset_streams, on_streams, mbind, GoM_bind, mret, GoM_ret, go_get, go_modify, id.
  simpl. unfold assertState, checkImpersonationAndVersion, checkNotificationFiltering, go_get. simpl.
  rewrite Hno, Hus. destruct (decide (v = V4)); simpl.
  all: eexists _, _; split; [reflexivity |]; constructor; simpl; try done; eauto.
Qed.

(** ** RUN *)

Lemma deliver_begin hs m (b : conn) :
  b_handlers b = beginHandler :: hs → db m = "" →
  deliver show v (Some (MSuccess m)) b = Done (inr tt, b <| b_handlers := hs |>).
Proof.
  intros Hh Hdb. destruct b. simpl in *. subst.
  unfold deliver, isEmpty, pop, mbind, GoM_bind, mret, GoM_ret, go_get. simpl.
  by rewrite pin_nothing.
Qed.

Definition tx_success (q : Z) : success := run_success <| qid := q |>.

(** What the server has answered to BEGIN, RUN and PULL. *)
Lemma transmit_tx h meta c p fetch recs now later (w : net database) :
  d_failed (n_server w) = false → n_sent w = [] →
  (∃ rest, d_results (n_server w) = (recs, None) :: rest) → split_batch fetch recs = (now, later) →
  let w' := transmit [RBegin meta; RRun c p []; RPullN fetch] w in
  let q := d_next (n_server w) in
  let open := mkOpenTx h [(c, p)] (d_committed (n_server w)) in
  n_sent w' = [(RBegin meta, [succeed]); (RRun c p [], [MSuccess (tx_success q)]);
               (RPullN fetch, (MRecord <$> now) ++ [batch_end true later])] ∧
  d_failed (n_server w') = false ∧ in_tx true open (n_server w') ∧
  d_cursors (n_server w') = left_over q later (d_cursors (n_server w)) ∧ n_calls w' = n_calls w.
Proof.
  intros Hf Hs [rest Hr] Hsp. destruct w as [us sn [fl tx cur nx res wk cm] t cs]. simpl in *. subst.
  unfold open_cursor. simpl.
  erewrite (pull_latest true _ nx recs cur); [| done..]. simpl. by destruct later.
Qed.

Lemma await_step n s st (b b1 : conn) :
  b_store b !! s = Some st → s_attached st = false → receive show v b = Done (inr tt, b1) → b_err b1 = None →
  await_attached show v (S n) s b = await_attached show v n s b1.
Proof.
  intros Hs Ha Er He. simpl. unfold mbind, GoM_bind, the_stream. rewrite Hs, Ha. rewrite Er.
  unfold last_err, go_get. by rewrite He.
Qed.

(** Reading the answer to BEGIN, then that to RUN. *)
Lemma await_tx fuel s meta q m ms fetch (b : conn) :
  v ≠ V4 → b_store b !! s = Some (new_stream fetch) → b_err b = None → b_qerr b = None →
  b_handlers b = [beginHandler; runHandler s; pullHandler s] → db m = "" →
  o_curr (b_streams b) = None →
  n_sent (b_world b) = (RBegin meta, [succeed]) :: (q, [MSuccess m]) :: ms →
  answersb q (MSuccess m) = true →
  ∃ b' w, await_attached show v (S (S (S fuel))) s b = Done (inr tt, b') ∧
    run_answered v s m fetch (b <| b_world := w |>) b' ∧
    w = tick (tick ((b_world b) <| n_sent := ms |>)).
Proof.
  intros Hv Hs He Hqe Hh Hdb Hc Hn Ha.
  set (b1 := (after_read (tick ((b_world b) <| n_sent := (q, [MSuccess m]) :: ms |>))
                (n_time (b_world b)) b) <| b_handlers := [runHandler s; pullHandler s] |>).
  assert (Er : receive show v b = Done (inr tt, b1)).
  { erewrite receive_message; [| done | by eapply next_net | reflexivity].
    by apply (deliver_begin [runHandler s; pullHandler s]). }
  destruct (await_net show v fuel s q m ms fetch b1) as (b' & E & Hr); try done.
  assert (E' : await_attached show v (S (S fuel)) s b1 = Done (inr tt, b')) by by destruct v.
  exists b'. eexists. split; [| split; [| reflexivity]].
  2:{ destruct Hr as (Hst & He' & Hq' & Hr). split; [exact Hst |]. split; [exact He' |].
      split; [rewrite Hq'; symmetry; exact Hqe | exact Hr]. }
  by rewrite (await_step _ s (new_stream fetch) b b1).
Qed.

Lemma run_stream_tx fuel cypher params fetch s h before recs (b : conn) :
  v ≠ V4 → begun h before recs b → fetch ≠ 0 → b_store b !! s = Some (new_stream fetch) →
  ∃ st b', run_stream show v (S (S (S fuel))) cypher params None fetch s b = Done (inr tt, b') ∧
    delivering true (mkOpenTx h [(cypher, params)] before) s st
      (split_batch fetch recs).1 (split_batch fetch recs).2 b' ∧
    s_keys st = fields_of_results.
Proof.
  intros Hv [Hst Hha He Hq Hh Hc Hn [meta Hu] Hse Hfl Hbe Hnx Hres Hcs] Hf Hs.
  destruct (split_batch fetch recs) as [now later] eqn:Hsp.
  unfold run_stream. unfold mbind at 1, GoM_bind at 1, go_get at 1. unfold id at 1. simpl default.
  set (q := RRun cypher params []).
  unfold mbind at 1, GoM_bind at 1. rewrite append_net.
  unfold mbind at 1, GoM_bind at 1. rewrite after_append_run_ok by exact He.
  unfold mbind at 1, GoM_bind at 1. rewrite append_net.
  unfold mbind at 1, GoM_bind at 1. rewrite send_net.
  unfold mbind at 1, GoM_bind at 1. rewrite last_err_ok by exact He.
  match goal with |- context [(_ ≫= _) ?b1] => set (b2 := b1) end.
  set (w1 := (b_world b) <| n_unsent := [RBegin meta; q; RPullN fetch] |>).
  assert (Ew : b_world b2 = (transmit [RBegin meta; q; RPullN fetch] w1) <| n_unsent := [] |>).
  { unfold b2, w1. destruct b as [? ? ? ? ? ? ? ? ? ? ? ? ? ? ? ? ? ? ? ? ? ? ? ? []]. simpl in *. by subst. }
  destruct (transmit_tx h meta cypher params fetch recs now later w1 Hfl Hse Hres Hsp)
    as (Es & Ef & Etx & Ec & Ek).
  fold q in Es, Ef, Etx, Ec, Ek. change (d_committed (n_server w1)) with (d_committed (n_server (b_world b))) in Etx.
  rewrite Hbe in Etx. change (n_calls w1) with (n_calls (b_world b)) in Ek. rewrite Hcs in Ek.
  change (d_next (n_server w1)) with (d_next (n_server (b_world b))) in Es, Ec.
  set (id := d_next (n_server (b_world b))) in *.
  destruct (await_tx fuel s meta q (tx_success id) [(RPullN fetch, (MRecord <$> now) ++ [batch_end true later])] fetch b2)
    as (b3 & w3 & E3 & ((st & Hs3 & Hsta) & He3 & Hq3 & Hh3 & Ht3 & Hn3 & Hw3 & Hx3 & Hl3) & Hw); try done.
  { change (b_handlers b2) with ((b_handlers b ++ [runHandler s]) ++ [pullHandler s]). by rewrite Hh. }
  { rewrite Ew. exact Es. }
  destruct Hsta as (Hk & Hfs & Hfi & Hse3 & Hsu & Heb & Hdi & Hqi & _).
  change (b_state _) with (b_state b) in Ht3 at 2. rewrite Hst in Ht3.
  change (o_num _) with (o_num (b_streams b)) in Hn3 at 2. rewrite Hn in Hn3.
  change (b_txId _) with (b_txId b) in Hx3 at 2. rewrite Hha in Hx3.
  assert (Hl : b_lastQid b3 = id).
  { rewrite Hl3. simpl qid. by replace (-1 <? id) with true by (symmetry; apply Z.ltb_lt; lia). }
  assert (Em : (match v with V4 => receive show v ;? last_err
                | _ => await_attached show v (S (S (S fuel))) s end) b2 = Done (inr tt, b3)) by by destruct v.
  unfold mbind at 1, GoM_bind at 1. rewrite Em. unfold start_streaming, mbind, GoM_bind, go_get.
  rewrite Ht3. exists st. eexists. split; [done |]. split; [| done].
  change (b_qerr _) with (b_qerr b) in Hq3 at 2. change (b_err _) with (b_err b) in He3 at 2.
  rewrite Hq in Hq3. rewrite He in He3. rewrite Ew in Hw.
  clear - Hs3 Hk Hfs Hfi Hse3 Hsu Heb Hdi Hqi He3 Hq3 Hh3 Ht3 Hn3 Hx3 Hl Hw Hw3 Hf Ef Etx Ec Ek.
  destruct b3. simpl in *. subst b_world w3. constructor; simpl; eauto; try done; try by constructor.
  - intros _. by rewrite Hl.
  - by rewrite Hfs.
Qed.

Lemma RunTx_net fuel h before cmd recs (b : conn) :
  v ≠ V4 → begun h before recs b →
  let fetch := normalizeFetchSize (cmd_FetchSize cmd) in
  ∃ s st b1, RunTx show v (S (S (S fuel))) h cmd b = Done (inr s, b1) ∧
    delivering true (mkOpenTx h [(cmd_Cypher cmd, cmd_Params cmd)] before) s st
      (split_batch fetch recs).1 (split_batch fetch recs).2 b1 ∧
    s_keys st = fields_of_results.
Proof.
  intros Hv Hb fetch. set (s := length (b_store b)).
  set (b0 := b <| b_store := b_store b ++ [new_stream fetch] |>).
  assert (Hb0 : begun h before recs b0) by by destruct Hb.
  destruct (run_stream_tx fuel (cmd_Cypher cmd) (cmd_Params cmd) fetch s h before recs b0) as (st & b1 & E & Hd & Hk);
    [done | done | apply normalizeFetchSize_nonzero | by apply list_lookup_middle |].
  exists s, st, b1. split; [| done].
  destruct Hb as [Hst Hha He _ _ _ _ _ _ _ _ _ _ _].
  unfold RunTx, assertTxHandle, mbind, GoM_bind, go_get. rewrite Hha, Z.eqb_refl.
  unfold run, mbind, GoM_bind, go_get. rewrite Hst. unfold mret, GoM_ret.
  rewrite assertState_ok by (rewrite ?Hst; set_solver).
  unfold alloc_stream. fold fetch s b0. by rewrite E.
Qed.

(** ** After the stream *)

Lemma Keys_ended tx h s keys sum (b : conn) :
  ended tx h s keys sum b → Keys (Some s) b = Done (inr keys, b).
Proof.
  intros [(st & Hs & _ & _ & <-) _ _ _ _ _ _ _ _ _ _ _]. unfold Keys, getUnsafe, mbind, GoM_bind, mret, GoM_ret, the_stream.
  by rewrite Hs.
Qed.

Lemma Consume_ended fuel tx h s keys sum (b : conn) :
  ended tx h s keys sum b → Consume show v fuel (Some s) b = Done ((Some sum, None), b).
Proof.
  intros [(st & Hs & Hsum & He & _) _ _ _ _ _ _ _ _ _ _ _].
  unfold Consume, completed, getUnsafe, mbind, GoM_bind, mret, GoM_ret, the_stream.
  rewrite Hs. rewrite Hsum. by rewrite Hs, Hsum, He.
Qed.

(** COMMIT leaves the connection ready, with the bookmark of the server, which has
    committed the queries of the transaction. *)
Lemma TxCommit_ended fuel open s keys sum (b : conn) :
  ended true open s keys sum b →
  ∃ b', TxCommit show v (S (S fuel)) (ot_handle open) b = Done (inr tt, b') ∧
    b_state b' = Ready ∧ b_bookmark b' = "bm" ∧ n_calls (b_world b') = [] ∧
    d_committed (n_server (b_world b')) = ot_before open ++ [ot_work open].
Proof.
  intros [_ _ Hst Hha Hh Hq He Hu Hse Hal [Htx Hwk] Hcs]. specialize (Hha eq_refl).
  specialize (Hwk eq_refl) as [Hwk Hbe]. destruct open as [h work before]. unfold ended_state in Hst.
  destruct b as [? ? ? ? ? ? ? ? ? ? ? ? ? ? ? ? ? ? ? ? ? ? ? ? [us sn [fl tx cur nx res wk cm] t cs]].
  simpl in *. subst.
  unfold TxCommit, end_transaction, assertTxHandle, discardAllStreams, in_state, when.
  unfold mbind, GoM_bind, mret, GoM_ret, go_get. simpl. rewrite Z.eqb_refl. simpl.
  unfold last_err, assertState, go_get. simpl. unfold mret, GoM_ret.
  by eexists.
Qed.
End Transactions.
