(* ===== verification/Bolt3.v ===== *)
(** Connections of version 3: neo4j/internal/bolt/bolt3.go.

    Servers before 4.0 send a result as a whole, so there is no message queue and
    no handlers: every operation sends its request and reads the answer, and the
    records of the current query are what comes next.  World, streams and requests
    are those of [Bolt]. *)

From S2P Require Import Prelude Values Errors Messages Outgoing Bolt.
#[local] Open Scope Z_scope.
#[local] Open Scope go_scope.

Module bolt3.

Record internalTx3 : Type := mkInternalTx3 {
  tx3_mode : AccessMode;
  tx3_bookmarks : list string;
  tx3_timeout : Z;
  tx3_txMeta : gomap goval
}.

Definition toMeta (i : internalTx3) : gomap goval :=
  let meta : gomap goval := [] in
  let meta := match tx3_mode i with ReadMode => map_set "mode" (GString "r") meta | WriteMode => meta end in
  let meta := match tx3_bookmarks i with [] => meta | l => map_set "bookmarks" (GStrings l) meta end in
  let ms := timeout_ms (tx3_timeout i) in
  let meta := if 0 <? ms then map_set "tx_timeout" (GInt ms) meta else meta in
  match tx3_txMeta i with [] => meta | m => map_set "tx_metadata" (GAnyMap m) meta end.

(** The states of the code have the order of those of the later versions. *)
Record bolt3 (W Token : Type) : Type := mkBolt3 {
  c_state : conn_state;
  c_txId : Z;
  c_currStream : option nat;
  c_serverName : string;
  c_connId : string;
  c_serverVersion : string;
  c_bookmark : string;
  c_birthDate : Z;
  c_err : option error;
  c_minor : Z;
  c_idleDate : Z;
  c_auth : option Token;
  c_authManager : option Z;
  c_resetAuth : bool;
  c_store : list stream;
  c_world : W
}.
Arguments mkBolt3 {W Token}.
Arguments c_state {W Token}.
Arguments c_txId {W Token}.
Arguments c_currStream {W Token}.
Arguments c_serverName {W Token}.
Arguments c_connId {W Token}.
Arguments c_serverVersion {W Token}.
Arguments c_bookmark {W Token}.
Arguments c_birthDate {W Token}.
Arguments c_err {W Token}.
Arguments c_minor {W Token}.
Arguments c_idleDate {W Token}.
Arguments c_auth {W Token}.
Arguments c_authManager {W Token}.
Arguments c_resetAuth {W Token}.
Arguments c_store {W Token}.
Arguments c_world {W Token}.

Section Bolt3.
Context {W Token : Type} `{World W} `{Tokens Token}.
Variable show : error → string.

Abbreviation conn := (bolt3 W Token).
Abbreviation B := (GoM conn).

Definition do_world {A} (m : GoM W A) : B A := λ b,
  match m (c_world b) with
  | Done (a, w) => Done (a, b <| c_world := w |>)
  | Panic => Panic
  | OutOfFuel => OutOfFuel
  end.

Definition set_state (s : conn_state) : B unit := go_modify (λ b, b <| c_state := s |>).
Definition set_err (e : error) : B unit := go_modify (λ b, b <| c_err := Some e |>).
Definition in_state (l : list conn_state) : B bool := go_get (λ b, bool_decide (c_state b ∈ l)).

(** [b.err] as the result of a call *)
Definition last_err : B (error + unit) :=
  go_get (λ b, match c_err b with Some e => inl e | None => inr tt end).

(** Streams are objects that the client refers to. *)
Definition the_stream (s : nat) : B stream := λ b,
  match c_store b !! s with Some st => Done (st, b) | None => Panic end.
Definition on_stream (s : nat) (f : stream → stream) : B unit :=
  st ← the_stream s; go_modify (λ b, b <| c_store := <[s := f st]> (c_store b) |>).

(** Dereferencing [b.currStream]. *)
Definition currStream : B nat := s ← go_get c_currStream; go_lift s.

(** The callbacks that [NewBolt3] gives to [outgoing]. *)
Definition first_err (e : error) : B unit :=
  go_modify (λ b, match c_err b with None => b <| c_err := Some e |> | Some _ => b end).

Definition onPackErr (e : error) : B unit :=
  name ← go_get c_serverName;
  first_err (fillServerName e name);;
  set_state Dead.

Definition handleTerminatedContextError (e : error) : B (option error) :=
  if contextTerminatedErr e then
    closeErr ← do_world wclose;
    mret (match closeErr with
          | None => None
          | Some c => CombineErrors show (Some e) (Some c)
          end)
  else mret None.

Definition onIoErr (e : error) : B unit :=
  first_err e;;
  ctxErr ← handleTerminatedContextError e;
  (match ctxErr with Some c => set_err c | None => mret tt end);;
  set_state Dead.

Fixpoint report_pack_errors (es : list error) : B unit :=
  match es with
  | [] => mret tt
  | e :: es => onPackErr e;; report_pack_errors es
  end.

(** [b.out.append...] and [b.out.send] *)
Definition append (r : request) : B unit :=
  es ← do_world (wpack r);
  report_pack_errors es.

Definition send : B unit :=
  e ← do_world wsend;
  match e with Some e => onIoErr e | None => mret tt end.

(** ** Receiving *)

Definition receiveMsg : B (option message) :=
  r ← do_world wnext;
  match r with
  | (_, Some err) => set_err err;; set_state Dead;; mret None
  | (msg, None) =>
      t ← do_world wnow;
      go_modify (λ b, b <| c_idleDate := t |>);;
      mret msg
  end.

(** [b.errorListener.OnNeo4jError]; the listener may call [ResetAuth] and mark the
    failure, to which [b.err] points. *)
Definition OnNeo4jError (failure : Neo4jError) : B (Neo4jError * option error) :=
  r ← do_world (wlisten failure);
  let '(failure, callbackErr, reset) := r in
  (if reset : bool then go_modify (λ b, b <| c_resetAuth := true |>) else mret tt);;
  set_err (Neo4jErr failure);;
  mret (failure, callbackErr).

(** The error of the listener is dropped: the failure is combined with itself. *)
Definition receiveSuccess : B (option success) :=
  m ← receiveMsg;
  match m with
  | Some (MSuccess s) => mret (Some s)
  | Some (MFailure e) =>
      set_state Failed;;
      r ← OnNeo4jError e;
      let '(failure, callbackErr) := r in
      (match callbackErr with
       | Some _ =>
           err ← go_get c_err;
           go_modify (λ b, b <| c_err := CombineErrors show (Some (Neo4jErr failure)) err |>)
       | None => mret tt
       end);;
      mret None
  | _ =>
      e ← last_err;
      match e with
      | inl _ => mret None
      | inr _ => set_state Dead;; set_err (ErrorString "expected success or database error");; mret None
      end
  end.

(** ** Guards *)

Definition Version (b : conn) : ProtocolVersion := mkVersion 3 (c_minor b).

Definition assertTxHandle (h : Z) : B (error + unit) :=
  go_get (λ b, if c_txId b =? h then inr tt else inl (ErrorString InvalidTransactionError)).

Definition assertState (allowed : list conn_state) : B (error + unit) :=
  go_get (λ b,
    match c_err b with
    | Some e => inl e
    | None =>
        if decide (c_state b ∈ allowed) then inr tt
        else inl (ErrorString ("invalid state " +:+ pretty (state_number (c_state b)) +:+
                               ", expected: " +:+ show_states allowed))
    end).

(** reauth.go *)
Definition checkReAuth (auth : ReAuthToken Token) : B (error + unit) :=
  go_get (λ b,
    if FromSession auth && ((pv_Major (Version b) <? 5) || ((pv_Major (Version b) =? 5) && (pv_Minor (Version b) =? 0)))
    then inl (FeatureNotSupportedError (c_serverName b) "session auth" "requires least server v5.5")
    else inr tt).

(** notifications.go *)
Definition checkNotificationFiltering (n : NotificationConfig) : B (error + unit) :=
  go_get (λ b,
    if is_default n then inr tt
    else if (pv_Major (Version b) <? 5) || ((pv_Major (Version b) =? 5) && (pv_Minor (Version b) <? 2))
    then inl (FeatureNotSupportedError (c_serverName b) "notification filtering" "requires least server v5.7")
    else inr tt).

Definition checkImpersonation (impersonatedUser : string) : B (error + unit) :=
  go_get (λ b,
    if decide (impersonatedUser = "") then inr tt
    else inl (FeatureNotSupportedError (c_serverName b) "user impersonation" "requires least server v4.4")).

(** ** Connecting *)

Definition Connect (minor : Z) (auth : ReAuthToken Token) (userAgent : string)
    (notificationConfig : NotificationConfig) : B (error + unit) :=
  assertState [Unauthorized] ;?
  go_modify (λ b, b <| c_minor := minor |>);;
  checkReAuth auth ;?
  match GetAuthToken (Manager auth) with
  | inl e => mret (inl e)
  | inr token =>
      go_modify (λ b, b <| c_auth := Some token |> <| c_authManager := Some (manager_id (Manager auth)) |>);;
      checkNotificationFiltering notificationConfig ;?
      append (RHello (merge_missing (entries token) [("user_agent", GString userAgent)]));;
      send;;
      last_err ;?
      s ← receiveSuccess;
      last_err ;?
      s ← go_lift s;
      go_modify (λ b, b <| c_connId := connectionId s |> <| c_serverVersion := server s |>
                        <| c_state := Ready |>);;
      mret (inr tt)
  end.

(** ** Streams *)

(** The summary with the extras. *)
Definition extend_summary (sum : Summary) (st : stream) (b : conn) : Summary_ :=
  mkSummary_ sum (c_serverVersion b) 3 (c_minor b) (c_serverName b) (s_tfirst st) (s_hadRecord st) (HadKey st).

(** [b.currStream.err = b.err; b.currStream = nil] *)
Definition detach_failed : B unit :=
  s ← currStream;
  e ← go_get c_err;
  on_stream s (λ st, st <| s_err := e |>);;
  go_modify (λ b, b <| c_currStream := None |>).

(** [summary] does not return nil; [None] is a panic in it. *)
Definition finish_stream (m : success) : B next_result :=
  sum ← go_lift (summary m);
  state ← go_get c_state;
  (match state with
   | StreamingTx => set_state Tx
   | _ =>
       set_state Ready;;
       if decide (sum_Bookmark sum = "") then mret tt
       else go_modify (λ b, b <| c_bookmark := sum_Bookmark sum |>)
   end);;
  s ← currStream;
  st ← the_stream s;
  b ← go_get id;
  let sum := extend_summary sum st b in
  on_stream s (λ st, st <| s_sum := Some sum |>);;
  go_modify (λ b, b <| c_currStream := None |>);;
  mret (None, Some sum, None).

(** Reads one record from the network. *)
Definition receiveNext : B next_result :=
  a ← assertState [Streaming; StreamingTx];
  match a with
  | inl e => mret (next_error e)
  | inr _ =>
      res ← receiveMsg;
      e ← last_err;
      match e with
      | inl e => mret (next_error e)
      | inr _ =>
          match res with
          | Some (MRecord record) =>
              s ← currStream;
              st ← the_stream s;
              on_stream s (λ st, st <| s_hadRecord := true |>);;
              mret (Some (record <| rec_Keys := s_keys st |>), None, None)
          | Some (MSuccess m) => finish_stream m
          | Some (MFailure failure) =>
              r ← OnNeo4jError failure;
              let '(failure, callbackErr) := r in
              detach_failed;;
              set_state Failed;;
              mret (None, None, match callbackErr with
                                | Some c => CombineErrors show (Some (Neo4jErr failure)) (Some c)
                                | None => Some (Neo4jErr failure)
                                end)
          | _ =>
              set_state Dead;;
              set_err (ErrorString "unknown response");;
              detach_failed;;
              mret (next_error (ErrorString "unknown response"))
          end
      end
  end.

(** The loop of [discardStream]; the one of [bufferStream] keeps the records. *)
Fixpoint drain_loop (fuel : nat) (keep : bool) : B (error + unit) :=
  match fuel with
  | O => go_nofuel
  | S fuel =>
      n ← receiveNext;
      let '(rec, sum, err) := n in
      (match rec with
       | Some rec => if keep then s ← currStream; on_stream s (push rec) else mret tt
       | None => mret tt
       end);;
      match err, sum with
      | Some e, _ => mret (inl e)
      | None, Some _ => mret (inr tt)
      | None, None => drain_loop fuel keep
      end
  end.

Definition if_streaming (m : B (error + unit)) : B (error + unit) :=
  streaming ← in_state [Streaming; StreamingTx];
  if streaming : bool then m else mret (inr tt).

Definition discardStream (fuel : nat) : B (error + unit) := if_streaming (drain_loop fuel false).
Definition bufferStream (fuel : nat) : B (error + unit) := if_streaming (drain_loop fuel true).

(** ** Transactions and queries *)

Definition of_config (c : TxConfig) : internalTx3 :=
  mkInternalTx3 (tc_Mode c) (tc_Bookmarks c) (tc_Timeout c) (tc_Meta c).

(** [if b.state == s { if err := m; err != nil { return err } }] *)
Definition in_this_state (s : conn_state) (m : B (error + unit)) : B (error + unit) :=
  here ← in_state [s];
  if here : bool then m else mret (inr tt).

Definition TxBegin (fuel : nat) (txConfig : TxConfig) (blocking : bool) : B (error + Z) :=
  in_this_state Streaming (bufferStream fuel) ;?
  assertState [Ready] ;?
  checkImpersonation (tc_ImpersonatedUser txConfig) ;?
  checkNotificationFiltering (tc_NotificationConfig txConfig) ;?
  append (RBegin (toMeta (of_config txConfig)));;
  send;;
  last_err ;?
  receiveSuccess;;
  last_err ;?
  set_state Tx;;
  t ← do_world wnow;
  go_modify (λ b, b <| c_txId := u64 (t `div` 1000000000) |>);;
  inr <$> go_get c_txId.

(** What [TxCommit] and [TxRollback] have in common, up to the answer. *)
Definition end_transaction (fuel : nat) (txh : Z) (r : request) : B (error + option success) :=
  assertTxHandle txh ;?
  in_this_state StreamingTx (discardStream fuel) ;?
  assertState [Tx] ;?
  append r;;
  send;;
  last_err ;?
  s ← receiveSuccess;
  last_err ;?
  mret (inr s).

Definition TxCommit (fuel : nat) (txh : Z) : B (error + unit) :=
  s ←? end_transaction fuel txh RCommit;
  s ← go_lift s;
  (if decide (bookmark s = "") then mret tt else go_modify (λ b, b <| c_bookmark := bookmark s |>));;
  set_state Ready;;
  mret (inr tt).

Definition TxRollback (fuel : nat) (txh : Z) : B (error + unit) :=
  end_transaction fuel txh RRollback ;?
  set_state Ready;;
  mret (inr tt).

(** [b.currStream = &stream\{...\}] *)
Definition new_currStream (s : success) : B nat := λ b,
  let h := length (c_store b) in
  Done (h, b <| c_store := c_store b ++ [mkStream false (fields s) [] None None 0 0 0 false false (tfirst s) false] |>
             <| c_currStream := Some h |>).

Definition run (fuel : nat) (cypher : string) (params : gomap goval) (tx : option internalTx3) :
    B (error + nat) :=
  bufferStream fuel ;?
  assertState [Tx; Ready] ;?
  append (RRun cypher params (default [] (toMeta <$> tx)));;
  append RPullAll;;
  send;;
  last_err ;?
  s ← receiveSuccess;
  last_err ;?
  s ← go_lift s;
  h ← new_currStream s;
  state ← go_get c_state;
  set_state (match state with Ready => Streaming | _ => StreamingTx end);;
  mret (inr h).

Definition Run (fuel : nat) (runCommand : Command) (txConfig : TxConfig) : B (error + nat) :=
  assertState [Streaming; Ready] ;?
  checkImpersonation (tc_ImpersonatedUser txConfig) ;?
  checkNotificationFiltering (tc_NotificationConfig txConfig) ;?
  run fuel (cmd_Cypher runCommand) (cmd_Params runCommand) (Some (of_config txConfig)).

Definition RunTx (fuel : nat) (txh : Z) (runCommand : Command) : B (error + nat) :=
  assertTxHandle txh ;?
  run fuel (cmd_Cypher runCommand) (cmd_Params runCommand) None.

(** ** Results *)

Definition Keys (h : option nat) : B (error + list string) :=
  match h with
  | None => mret (inl errInvalidStream)
  | Some s => st ← the_stream s; mret (inr (s_keys st))
  end.

Definition Next (h : option nat) : B next_result :=
  match h with
  | None => mret (next_error errInvalidStream)
  | Some s =>
      st ← the_stream s;
      let '((buf, rec, sum, err), st') := bufferedNext st in
      on_stream s (λ _, st');;
      if buf : bool then mret (rec, sum, err)
      else
        curr ← go_get c_currStream;
        if decide (curr = Some s) then receiveNext else mret (next_error errInvalidStream)
  end.

(** The stream is current and neither complete nor failed. *)
Definition pending (s : nat) : B bool :=
  st ← the_stream s;
  curr ← go_get c_currStream;
  mret (bool_decide (curr = Some s) &&
        match s_err st, s_sum st with None, None => true | _, _ => false end).

Definition Consume (fuel : nat) (h : option nat) : B (option Summary_ * option error) :=
  match h with
  | None => mret (None, Some errInvalidStream)
  | Some s =>
      p ← pending s;
      (if p : bool then discardStream fuel;; mret tt else mret tt);;
      st ← the_stream s;
      mret (s_sum st, s_err st)
  end.

Definition Buffer (fuel : nat) (h : option nat) : B (option error) :=
  match h with
  | None => mret (Some errInvalidStream)
  | Some s =>
      p ← pending s;
      (if p : bool then bufferStream fuel;; mret tt else mret tt);;
      st ← the_stream s;
      mret (Err st)
  end.

Definition IsAlive (b : conn) : bool := negb (bool_decide (c_state b = Dead)).
Definition HasFailed (b : conn) : bool := bool_decide (c_state b = Failed).

(** ** Resetting, routing, authentication *)

Fixpoint await_reset (fuel : nat) : B unit :=
  match fuel with
  | O => go_nofuel
  | S fuel =>
      msg ← receiveMsg;
      e ← last_err;
      match e with
      | inl _ => mret tt
      | inr _ =>
          match msg with
          | Some MIgnored => await_reset fuel
          | Some (MSuccess _) => set_state Ready
          | _ => set_state Dead
          end
      end
  end.

Definition ForceReset (fuel : nat) : B unit :=
  dead ← in_state [Dead];
  if dead : bool then mret tt
  else
    go_modify (λ b, b <| c_err := None |>);;
    append RReset;;
    send;;
    e ← last_err;
    match e with inl _ => mret tt | inr _ => await_reset fuel end.

(** The last line is deferred. *)
Definition Reset (fuel : nat) : B unit :=
  done_ ← in_state [Ready; Dead];
  (if done_ : bool then mret tt
   else
     discardStream fuel;;
     ready ← in_state [Ready];
     if ready : bool then mret tt else ForceReset fuel);;
  go_modify (λ b, b <| c_txId := 0 |> <| c_currStream := None |> <| c_bookmark := "" |> <| c_err := None |>).

Definition routing_command (routingContext : gomap string) : Command :=
  mkCommand "CALL dbms.cluster.routing.getRoutingTable($context)" [("context", GStringMap routingContext)] 0.

(** A better error for servers without a cluster. *)
Definition routing_error (name : string) (e : error) : error :=
  match e with
  | Neo4jErr n =>
      if decide (Code n = "Neo.ClientError.Procedure.ProcedureNotFound")
      then FeatureNotSupportedError name "routing" "requires cluster setup" else e
  | _ => e
  end.

Definition GetRoutingTable (fuel : nat) (routingContext : gomap string) (bookmarks : list string)
    (database impersonatedUser : string) : B (error + option RoutingTable) :=
  assertState [Ready] ;?
  name ← go_get c_serverName;
  if negb (bool_decide (database = DefaultDatabase))
  then mret (inl (FeatureNotSupportedError name "route to database" "requires at least server v4"))
  else
    checkImpersonation impersonatedUser ;?
    r ← Run fuel (routing_command routingContext)
          (mkTxConfig ReadMode [] DefaultTxConfigTimeout "" [] no_notifications);
    match r with
    | inl e => mret (inl (routing_error name e))
    | inr s =>
        n ← Next (Some s);
        match n with
        | (_, _, Some e) => mret (inl e)
        | (None, _, None) => mret (inl (ErrorString "no routing table record"))
        | (Some rec, _, None) =>
            Next (Some s);;
            t ← go_lift (Summaries.parseRoutingTableRecord rec);
            match t with
            | None => mret (inl (ErrorString "unable to parse routing table"))
            | Some t => mret (inr (Some (set_database t DefaultDatabase)))
            end
        end
    end.

Definition Close : B unit :=
  dead ← in_state [Dead];
  (if dead : bool then mret tt else append RGoodbye;; send);;
  do_world wclose;;
  set_state Dead.

Definition ReAuth (auth : ReAuthToken Token) : B (error + unit) :=
  checkReAuth auth ;?
  b ← go_get id;
  if c_resetAuth b then Close;; mret (inr tt)
  else
    match GetAuthToken (Manager auth) with
    | inl e => mret (inl e)
    | inr token =>
        (if decide (c_auth b = Some token) then mret tt else Close);;
        mret (inr tt)
    end.

Definition ResetAuth : B unit := go_modify (λ b, b <| c_resetAuth := true |>).

(** [callback] tells whether a callback is given. *)
Definition Telemetry (api : Z) (callback : bool) : B unit :=
  if callback then do_world (wcall TelemetrySucceeded) else mret tt.

Definition NewBolt3 (serverName : string) (now : Z) (w : W) : conn :=
  mkBolt3 Unauthorized 0 None serverName "" "" "" now None 0 now None None false [] w.
End Bolt3.
End bolt3.
