(* ===== verification/Bolt3Facts.v ===== *)
(** Connections of version 3 against the server of [BoltServer]: queries that are
    interleaved keep their results apart, and what gets lost on a broken
    connection. *)

From S2P Require Import Prelude Values Errors Messages Outgoing Bolt BoltLogic BoltServer BoltStreams Bolt3.
#[local] Open Scope Z_scope.
#[local] Open Scope go_scope.
Import bolt3.

Section Facts.
Context {Token : Type} `{Tokens Token}.
Variable show : error → string.
Abbreviation conn := (bolt3 (net database) Token).
#[local] Arguments pull : simpl never.

(** * Independent cursors

    What clients may rely on: every query has a cursor of its own, whatever other
    queries run meanwhile. *)

Inductive op : Type :=
| ORun (cmd : Command)
| ONext (h : nat)
| OBuffer (h : nat).

(** The records that the queries so far still have, and the results to come. *)
Record cursors : Type := mkCursors { remaining : list (list Record_); upcoming : list (list Record_) }.

(** What a call returns: the handle, a record, the end, or nothing. *)
Inductive answer : Type :=
| AHandle (h : nat)
| ARecord (r : Record_)
| AEnd
| ANothing.

Definition keyed (r : Record_) : Record_ := r <| rec_Keys := fields_of_results |>.

Definition cursor_op (o : op) (c : cursors) : option (answer * cursors) :=
  match o with
  | ORun _ =>
      match upcoming c with
      | [] => None
      | recs :: todo => Some (AHandle (length (remaining c)), mkCursors (remaining c ++ [recs]) todo)
      end
  | ONext h =>
      match remaining c !! h with
      | None => None
      | Some [] => Some (AEnd, c)
      | Some (r :: l) => Some (ARecord (keyed r), mkCursors (<[h := l]> (remaining c)) (upcoming c))
      end
  | OBuffer h => match remaining c !! h with None => None | Some _ => Some (ANothing, c) end
  end.

Fixpoint cursor_ops (ops : list op) (c : cursors) : option (list answer * cursors) :=
  match ops with
  | [] => Some ([], c)
  | o :: ops =>
      '(a, c) ← cursor_op o c;
      '(l, c) ← cursor_ops ops c;
      Some (a :: l, c)
  end.

(** The same calls on a connection; another answer is an error. *)
Definition conn_op (fuel : nat) (cfg : TxConfig) (o : op) : GoM conn (option answer) :=
  match o with
  | ORun cmd => r ← Run show fuel cmd cfg; mret (match r with inr h => Some (AHandle h) | inl _ => None end)
  | ONext h =>
      n ← Next show (Some h);
      mret (match n with
            | (Some r, None, None) => Some (ARecord r)
            | (None, Some _, None) => Some AEnd
            | _ => None
            end)
  | OBuffer h => e ← Buffer show fuel (Some h); mret (match e with None => Some ANothing | Some _ => None end)
  end.

Fixpoint conn_ops (fuel : nat) (cfg : TxConfig) (ops : list op) : GoM conn (option (list answer)) :=
  match ops with
  | [] => mret (Some [])
  | o :: ops =>
      a ← conn_op fuel cfg o;
      l ← conn_ops fuel cfg ops;
      mret (a ← a; l ← l; Some (a :: l))
  end.

(** * Representation *)

(** The stream of a query that has been read from the network. *)
Definition buffered (l : list Record_) (st : stream) : Prop :=
  s_fifo st = keyed <$> l ∧ s_err st = None ∧ is_Some (s_sum st).

(** The stream whose records [now] are still on their way. *)
Definition on_the_way (h : nat) (l : list Record_) (b : conn) : Prop :=
  ∃ st pre now, c_store b !! h = Some st ∧ l = pre ++ now ∧ s_fifo st = keyed <$> pre ∧
    s_err st = None ∧ s_sum st = None ∧ s_keys st = fields_of_results ∧
    n_sent (c_world b) = [(RPullAll, (MRecord <$> now) ++ [finished])].

Record rep (c : cursors) (b : conn) : Prop := {
  re_err : c_err b = None;
  re_unsent : n_unsent (c_world b) = [];
  re_alive : d_failed (n_server (c_world b)) = false;
  re_auto : d_tx (n_server (c_world b)) = false;
  re_results : d_results (n_server (c_world b)) = (λ l, (l, None)) <$> upcoming c;
  re_calls : n_calls (c_world b) = [];
  re_length : length (remaining c) = length (c_store b);
  re_buffered : ∀ i l st, remaining c !! i = Some l → c_store b !! i = Some st →
    c_currStream b ≠ Some i → buffered l st;
  re_current : match c_currStream b with
    | None => c_state b = Ready ∧ n_sent (c_world b) = []
    | Some h => c_state b = Streaming ∧ ∃ l, remaining c !! h = Some l ∧ on_the_way h l b
    end
}.

(** ** Steps *)

(** The connection after a message of the answer to PULL_ALL was read. *)
Definition received (sn : list (request * list message)) (b : conn) : conn :=
  b <| c_world := tick ((c_world b) <| n_sent := sn |>) |> <| c_idleDate := n_time (c_world b) |>.

Definition set_stream (h : nat) (st : stream) (b : conn) : conn :=
  b <| c_store := <[h := st]> (c_store b) |>.

Lemma on_stream3_at h st f (b : conn) :
  c_store b !! h = Some st → on_stream h f b = Done (tt, set_stream h (f st) b).
Proof. intros Hs. unfold on_stream, mbind, GoM_bind, the_stream. by rewrite Hs. Qed.

Lemma the_stream_at h st (b : conn) : c_store b !! h = Some st → the_stream h b = Done (st, b).
Proof. intros Hs. unfold the_stream. by rewrite Hs. Qed.

Lemma receiveMsg_net m ms (b : conn) :
  n_sent (c_world b) = [(RPullAll, m :: ms)] → answersb RPullAll m = true →
  receiveMsg b = Done (Some m, received (match m with MRecord _ => [(RPullAll, ms)] | _ => [] end) b).
Proof.
  intros Hn Ha. unfold receiveMsg, do_world, mbind, GoM_bind. rewrite (next_net _ _ _ _ _ Hn Ha). done.
Qed.

Lemma receive_record h st r ms (b : conn) :
  c_err b = None → c_state b = Streaming → c_currStream b = Some h → c_store b !! h = Some st →
  n_sent (c_world b) = [(RPullAll, MRecord r :: ms)] →
  receiveNext show b = Done ((Some (r <| rec_Keys := s_keys st |>), None, None),
    set_stream h (st <| s_hadRecord := true |>) (received [(RPullAll, ms)] b)).
Proof.
  intros He Hs Hc Hst Hn. unfold receiveNext, assertState, mbind, GoM_bind, go_get. rewrite He, Hs. simpl.
  rewrite (receiveMsg_net _ _ b Hn) by done. unfold last_err, go_get. change (c_err (received _ b)) with (c_err b).
  rewrite He. unfold currStream, mbind, GoM_bind, go_get. change (c_currStream (received _ b)) with (c_currStream b).
  rewrite Hc. unfold go_lift. rewrite (the_stream_at h st) by done. by rewrite (on_stream3_at h st).
Qed.

Lemma receive_end h st (b : conn) :
  c_err b = None → c_state b = Streaming → c_currStream b = Some h → c_store b !! h = Some st →
  n_sent (c_world b) = [(RPullAll, [finished])] →
  ∃ sum, receiveNext show b = Done ((None, Some sum, None),
    set_stream h (st <| s_sum := Some sum |>) (received [] b) <| c_state := Ready |> <| c_bookmark := "bm" |>
      <| c_currStream := None |>).
Proof.
  intros He Hs Hc Hst Hn. destruct b as [? ? ? ? ? ? ? ? ? ? ? ? ? ? sto [us sn sv t cs]]. simpl in *. subst.
  unfold receiveNext, assertState, receiveMsg, do_world, last_err, finish_stream, currStream, set_state.
  unfold mbind, GoM_bind, go_get, go_lift, go_modify, mret, GoM_ret, id. simpl.
  unfold set_state, go_modify, the_stream, mbind, GoM_bind, currStream, go_get, go_lift. simpl. rewrite Hst.
  erewrite on_stream3_at by exact Hst. by eexists.
Qed.

(** ** What the steps do to the cursors *)

(** The parts of a connection that only queries change. *)
Definition settled (b : conn) :=
  (c_err b, c_state b, c_currStream b, n_unsent (c_world b), n_server (c_world b), n_calls (c_world b)).

(** A stream that stays current while its remaining records change to [l]. *)
Lemma rep_current c h l st (b b' : conn) :
  rep c b → c_currStream b = Some h → settled b' = settled b → c_store b' = <[h := st]> (c_store b) →
  on_the_way h l b' → rep (mkCursors (<[h := l]> (remaining c)) (upcoming c)) b'.
Proof.
  intros [He Hu Ha Ht Hr Hc Hl Hb Hcur] Hh Hse Hsto Hw. rewrite Hh in Hcur. destruct Hcur as (Hs & l0 & Hl0 & _).
  injection Hse as S1 S2 S3 S4 S5 S6. rewrite Hh in S3.
  constructor; cbn [remaining upcoming]; rewrite ?S1, ?S2, ?S3, ?S4, ?S5, ?S6; try done.
  - by rewrite Hsto, !length_insert.
  - intros i l' st' Hi Hi' Hne. assert (i ≠ h) by congruence. rewrite Hsto in Hi'.
    rewrite list_lookup_insert_ne in Hi by done. rewrite list_lookup_insert_ne in Hi' by done.
    apply (Hb i); [done | done | congruence].
  - split; [done |]. exists l. split; [| done]. apply list_lookup_insert_eq. by eapply lookup_lt_Some.
Qed.

Lemma rep_finished c h l st sum (b : conn) :
  rep c b → c_currStream b = Some h → remaining c !! h = Some l → buffered l st →
  s_sum st = Some sum →
  rep c (set_stream h st (received [] b) <| c_state := Ready |> <| c_bookmark := "bm" |> <| c_currStream := None |>).
Proof.
  intros [He Hu Ha Ht Hr Hc Hl Hb Hcur] Hh Hl0 Hst Hsum. constructor; try done.
  - change (length (remaining c) = length (<[h := st]> (c_store b))). by rewrite length_insert.
  - intros i l' st' Hi Hi' _. change (c_store _) with (<[h := st]> (c_store b)) in Hi'. destruct (decide (i = h)) as [-> | Hne].
    + rewrite list_lookup_insert_eq in Hi' by (rewrite <- Hl; by eapply lookup_lt_Some). by simplify_eq.
    + rewrite list_lookup_insert_ne in Hi' by done. apply (Hb i); [done | done | congruence].
Qed.

(** [bufferStream] keeps what the client has not read. *)
Lemma drain_rep now pre c h st fuel (b : conn) :
  rep c b → c_currStream b = Some h → remaining c !! h = Some (pre ++ now) →
  c_store b !! h = Some st → s_fifo st = keyed <$> pre → s_err st = None → s_sum st = None →
  s_keys st = fields_of_results →
  n_sent (c_world b) = [(RPullAll, (MRecord <$> now) ++ [finished])] → (length now < fuel)%nat →
  ∃ b', drain_loop show fuel true b = Done (inr tt, b') ∧ rep c b' ∧ c_currStream b' = None.
Proof.
  revert pre st fuel b. induction now as [| r now IH]; intros pre st [| fuel] b Hr Hh Hl Hst Hf He Hs Hk Hn Hfu;
    simpl in Hfu; try lia; simpl drain_loop; unfold mbind at 1, GoM_bind at 1;
    pose proof (re_current _ _ Hr) as Hcur; rewrite Hh in Hcur; destruct Hcur as [Hstate _].
  - destruct (receive_end h st b) as (sum & ->); [by apply Hr | done | done | done | done |].
    eexists. split; [reflexivity |]. split; [| done]. rewrite app_nil_r in Hl.
    eapply rep_finished; [done | done | exact Hl | | done]. split; [done |]. split; [done | by eexists].
  - erewrite receive_record; [| by apply Hr | done | done | exact Hst | exact Hn].
    assert (Hf1 : s_fifo (push (keyed r) (st <| s_hadRecord := true |>)) = keyed <$> pre ++ [r]).
    { rewrite fmap_app, <- Hf. done. }
    set (st1 := push (keyed r) (st <| s_hadRecord := true |>)).
    set (b1 := set_stream h st1 (received [(RPullAll, (MRecord <$> now) ++ [finished])] b)).
    assert (Hst1 : c_store b1 !! h = Some st1) by (eapply list_lookup_insert_eq, lookup_lt_Some, Hst).
    destruct (IH (pre ++ [r]) st1 fuel b1) as (b2 & E2 & Hr2 & Hc2); try done; try lia.
    + replace c with (mkCursors (<[h := pre ++ r :: now]> (remaining c)) (upcoming c)).
      2:{ destruct c. simpl in *. by rewrite list_insert_id. }
      apply (rep_current _ _ _ st1 b); [done.. |]. exists st1, (pre ++ [r]), now.
      rewrite <- app_assoc. split_and!; done.
    + by rewrite <- app_assoc.
    + exists b2. split; [| done]. rewrite <- E2. unfold mbind, GoM_bind. cbv iota beta.
      unfold currStream, mbind, GoM_bind, go_get. change (c_currStream (set_stream _ _ _)) with (c_currStream b).
      rewrite Hh. unfold go_lift. erewrite on_stream3_at by (eapply list_lookup_insert_eq, lookup_lt_Some, Hst).
      unfold set_stream at 1. simpl c_store. rewrite list_insert_insert_eq, Hk. reflexivity.
Qed.

Lemma bufferStream_rep fuel c (b : conn) :
  rep c b → Forall (λ l, (length l < fuel)%nat) (remaining c) →
  ∃ b', bufferStream show fuel b = Done (inr tt, b') ∧ rep c b' ∧ c_currStream b' = None.
Proof.
  intros Hr Hf. unfold bufferStream, if_streaming, in_state, mbind, GoM_bind, go_get.
  pose proof (re_current _ _ Hr) as Hcur. destruct (c_currStream b) as [h |] eqn:Hh.
  - destruct Hcur as (Hs & l & Hl & st & pre & now & Hst & -> & Hfi & He & Hsum & Hk & Hn).
    rewrite Hs. simpl. eapply drain_rep; eauto.
    eapply Forall_lookup_1 in Hf; [| exact Hl]. rewrite length_app in Hf. lia.
  - destruct Hcur as [Hs _]. rewrite Hs. by exists b.
Qed.

(** ** The operations *)

Definition idle3 (recs : list Record_) (rest : list (list Record_)) (c : cursors) (b : conn) : Prop :=
  rep c b ∧ c_currStream b = None ∧ upcoming c = recs :: rest.

Lemma send_run cypher params tx recs rest c (b : conn) :
  idle3 recs rest c b →
  ∃ b', (append (RRun cypher params tx);; append RPullAll;; send show) b = Done (tt, b') ∧
    c_err b' = None ∧ c_state b' = Ready ∧ c_currStream b' = None ∧ c_store b' = c_store b ∧
    n_unsent (c_world b') = [] ∧ n_calls (c_world b') = [] ∧
    n_sent (c_world b') = [(RRun cypher params tx, [MSuccess run_success]);
                           (RPullAll, (MRecord <$> recs) ++ [finished])] ∧
    d_failed (n_server (c_world b')) = false ∧ d_tx (n_server (c_world b')) = false ∧
    d_results (n_server (c_world b')) = (λ l, (l, None)) <$> rest.
Proof.
  intros ([He Hu Ha Ht Hr Hc Hl Hb Hcur] & Hh & Hup). rewrite Hh in Hcur. destruct Hcur as [Hs Hn].
  rewrite Hup in Hr. destruct b as [? ? ? ? ? ? ? ? ? ? ? ? ? ? sto [us sn [fl dtx cur nx res] t cs]].
  simpl in *. subst. eexists. split; [reflexivity |]. done.
Qed.

(** Reading the answer to RUN makes the stream. *)
Lemma run_rep fuel cypher params tx recs rest c (b : conn) :
  rep c b → Forall (λ l, (length l < fuel)%nat) (remaining c) → upcoming c = recs :: rest →
  ∃ b', run show fuel cypher params tx b = Done (inr (length (remaining c)), b') ∧
    rep (mkCursors (remaining c ++ [recs]) rest) b' ∧ c_currStream b' = Some (length (remaining c)).
Proof.
  intros Hr Hf Hup. destruct (bufferStream_rep fuel c b Hr Hf) as (b1 & E1 & Hr1 & Hc1).
  destruct (send_run cypher params (default [] (toMeta <$> tx)) recs rest c b1 (conj Hr1 (conj Hc1 Hup)))
    as (b2 & E2 & He2 & Hs2 & Hc2 & Hst2 & Hu2 & Hk2 & Hn2 & Ha2 & Ht2 & Hd2).
  pose proof (re_length _ _ Hr1) as Hlen. pose proof (re_buffered _ _ Hr1) as Hbuf. rewrite Hc1 in Hbuf.
  set (st := mkStream false fields_of_results [] None None 0 0 0 false false (tfirst run_success) false).
  assert (E3 : (append (RRun cypher params (default [] (toMeta <$> tx)));; append RPullAll;; send show;; last_err ;?
      s ← receiveSuccess show; last_err ;? s ← go_lift s; h ← new_currStream s; state ← go_get c_state;
      set_state (match state with Ready => Streaming | _ => StreamingTx end);; mret (inr h)) b1 =
    Done (inr (length (c_store b2)),
      (received [(RPullAll, (MRecord <$> recs) ++ [finished])] b2)
        <| c_store := c_store b2 ++ [st] |> <| c_currStream := Some (length (c_store b2)) |>
        <| c_state := Streaming |>)).
  { unfold mbind, GoM_bind in E2 |- *.
    destruct (append _ b1) as [[[] b3] | |]; [| done..]. destruct (append RPullAll b3) as [[[] b4] | |]; [| done..].
    rewrite E2. clear - He2 Hs2 Hn2. destruct b2 as [? ? ? ? ? ? ? ? ? ? ? ? ? ? sto [us sn sv t cs]].
    simpl in *. subst. reflexivity. }
  match type of E3 with _ = Done (_, ?x) => set (b3 := x) in E3 end.
  assert (F1 : c_store b3 = c_store b1 ++ [st]) by (rewrite <- Hst2; reflexivity).
  assert (F2 : c_currStream b3 = Some (length (remaining c))) by (rewrite Hlen, <- Hst2; reflexivity).
  exists b3. split; [| split; [| done]].
  - unfold run. unfold mbind at 1, GoM_bind at 1. rewrite E1. unfold mbind at 1, GoM_bind at 1.
    unfold assertState, go_get. rewrite (re_err _ _ Hr1). pose proof (re_current _ _ Hr1) as Hcur. rewrite Hc1 in Hcur.
    destruct Hcur as [-> _]. simpl. rewrite Hlen, <- Hst2. exact E3.
  - constructor; try done; cbn [remaining upcoming]; rewrite ?F1, ?F2.
    + rewrite !length_app, Hlen. done.
    + intros i l st' Hi Hi' Hne.
      assert (Hlt : (i < length (c_store b1))%nat).
      { apply lookup_lt_Some in Hi'. rewrite length_app in Hi'. simpl in Hi'.
        destruct (decide (i = length (c_store b1))); [congruence | lia]. }
      rewrite lookup_app_l in Hi' by done. rewrite lookup_app_l in Hi by lia. by apply (Hbuf i).
    + split; [done |]. exists recs. split; [by apply list_lookup_middle |].
      exists st, [], recs. rewrite F1. split_and!; try done. by apply list_lookup_middle.
Qed.

Lemma Run_rep fuel cmd cfg recs rest c (b : conn) :
  rep c b → Forall (λ l, (length l < fuel)%nat) (remaining c) → upcoming c = recs :: rest →
  is_default (tc_NotificationConfig cfg) = true → tc_ImpersonatedUser cfg = "" →
  ∃ b', Run show fuel cmd cfg b = Done (inr (length (remaining c)), b') ∧
    rep (mkCursors (remaining c ++ [recs]) rest) b' ∧ c_currStream b' = Some (length (remaining c)).
Proof.
  intros Hr Hf Hup Hno Hus.
  destruct (run_rep fuel (cmd_Cypher cmd) (cmd_Params cmd) (Some (of_config cfg)) recs rest c b Hr Hf Hup) as (b' & E & Hr').
  exists b'. split; [| done]. rewrite <- E. unfold Run, assertState, checkImpersonation, checkNotificationFiltering.
  unfold mbind, GoM_bind, go_get. rewrite (re_err _ _ Hr), Hno, Hus.
  pose proof (re_current _ _ Hr) as Hcur. destruct (c_currStream b); destruct Hcur as [-> _]; done.
Qed.

Lemma buffered_next l st : buffered l st →
  ∃ sum st', bufferedNext st = ((match l with r :: _ => (true, Some (keyed r), None, None) | [] => (true, None, Some sum, None) end), st') ∧
    buffered (tail l) st'.
Proof.
  intros (Hf & He & [sum Hs]). unfold bufferedNext. rewrite Hf, He, Hs. exists sum.
  destruct l as [| r l]; simpl; (eexists; split; [reflexivity |]); [by split_and!; [.. | eexists] |].
  split; [done |]. split; [done | by eexists].
Qed.

(** A stream that has been buffered changes without touching the network. *)
Lemma rep_buffered c h l st (b : conn) :
  rep c b → c_currStream b ≠ Some h → is_Some (remaining c !! h) → buffered l st →
  rep (mkCursors (<[h := l]> (remaining c)) (upcoming c)) (set_stream h st b).
Proof.
  intros [He Hu Ha Ht Hr Hc Hl Hb Hcur] Hne [l0 Hl0] Hst.
  assert (Hlt : (h < length (remaining c))%nat) by by eapply lookup_lt_Some.
  constructor; try done; cbn [remaining upcoming].
  - change (length (<[h := l]> (remaining c)) = length (<[h := st]> (c_store b))). by rewrite !length_insert.
  - intros i l' st' Hi Hi' Hn. change (c_store _) with (<[h := st]> (c_store b)) in Hi'.
    destruct (decide (i = h)) as [-> | Hih].
    + rewrite list_lookup_insert_eq in Hi by done. rewrite list_lookup_insert_eq in Hi' by lia. by simplify_eq.
    + rewrite list_lookup_insert_ne in Hi by done. rewrite list_lookup_insert_ne in Hi' by done. by apply (Hb i).
  - change (c_currStream (set_stream h st b)) with (c_currStream b). destruct (c_currStream b) as [h' |]; [| done].
    assert (h ≠ h') by congruence. destruct Hcur as (Hs & l' & Hl' & st' & pre & now & Hst' & Hrest).
    split; [done |]. exists l'. split; [by rewrite list_lookup_insert_ne |]. exists st', pre, now. split; [| done].
    change (c_store _) with (<[h := st]> (c_store b)). by rewrite list_lookup_insert_ne.
Qed.

Definition answer_of (n : next_result) : option answer :=
  match n with
  | (Some r, None, None) => Some (ARecord r)
  | (None, Some _, None) => Some AEnd
  | _ => None
  end.

Lemma Next_rep h l c (b : conn) :
  rep c b → remaining c !! h = Some l →
  ∃ n b', Next show (Some h) b = Done (n, b') ∧
    answer_of n = Some (match l with [] => AEnd | r :: _ => ARecord (keyed r) end) ∧
    rep (mkCursors (<[h := tail l]> (remaining c)) (upcoming c)) b'.
Proof.
  intros Hr Hl. assert (Hst : is_Some (c_store b !! h)).
  { apply lookup_lt_is_Some. rewrite <- (re_length _ _ Hr). by eapply lookup_lt_Some. }
  destruct Hst as [st Hst]. unfold Next, mbind, GoM_bind. rewrite (the_stream_at h st) by done.
  destruct (decide (c_currStream b = Some h)) as [Hh | Hh].
  - pose proof (re_current _ _ Hr) as Hcur. rewrite Hh in Hcur.
    destruct Hcur as (Hs & l' & Hl' & st' & pre & now & Hst' & -> & Hfi & He & Hsum & Hk & Hn).
    assert (st' = st) as -> by congruence. assert (l = pre ++ now) as -> by congruence.
    unfold bufferedNext. rewrite Hfi, He, Hsum. destruct pre as [| r pre]; cbn [fmap list_fmap app tail].
    + rewrite (on_stream3_at h st) by done. unfold mbind, GoM_bind, go_get.
      change (c_currStream (set_stream h st b)) with (c_currStream b). rewrite Hh, decide_True by done.
      replace (set_stream h st b) with b by (destruct b; unfold set_stream; simpl in *; by rewrite list_insert_id).
      destruct now as [| r now].
      * destruct (receive_end h st b) as (sum & ->); [by apply Hr | done.. |]. eexists _, _.
        split; [reflexivity |]. split; [done |]. cbn [tail].
        replace (mkCursors _ _) with c by (destruct c; simpl in *; by rewrite list_insert_id).
        eapply rep_finished; [done | done | exact Hl | | done]. split; [done |]. split; [done | by eexists].
      * erewrite receive_record; [| by apply Hr | done | done | exact Hst | exact Hn]. rewrite Hk.
        eexists _, _. split; [reflexivity |]. split; [done |].
        eapply rep_current; [done.. |]. exists (st <| s_hadRecord := true |>), [], now. split_and!; try done.
        by eapply list_lookup_insert_eq, lookup_lt_Some.
    + rewrite (on_stream3_at h st) by done. eexists _, _. split; [reflexivity |]. split; [done |].
      eapply rep_current; [done.. |]. exists (st <| s_fifo := keyed <$> pre |>), pre, now. split_and!; try done.
      by eapply list_lookup_insert_eq, lookup_lt_Some.
  - pose proof (re_buffered _ _ Hr h l st Hl Hst Hh) as Hb.
    destruct (buffered_next l st Hb) as (sum & st' & -> & Hb').
    destruct l as [| r l]; rewrite (on_stream3_at h st) by done;
      (eexists _, _; split; [reflexivity |]; split; [done |]);
      (apply rep_buffered; [done | done | by eexists | done]).
Qed.

Lemma no_error h c (b : conn) :
  rep c b → is_Some (remaining c !! h) → ∃ st, c_store b !! h = Some st ∧ s_err st = None.
Proof.
  intros Hr [l Hl]. assert (Hst : is_Some (c_store b !! h)).
  { apply lookup_lt_is_Some. rewrite <- (re_length _ _ Hr). by eapply lookup_lt_Some. }
  destruct Hst as [st Hst]. exists st. split; [done |].
  destruct (decide (c_currStream b = Some h)) as [Hh | Hh].
  - pose proof (re_current _ _ Hr) as Hcur. rewrite Hh in Hcur.
    destruct Hcur as (_ & l' & _ & st' & pre & now & Hst' & _ & _ & He & _). congruence.
  - apply (re_buffered _ _ Hr h l st Hl Hst Hh).
Qed.

Lemma Buffer_rep fuel h c (b : conn) :
  rep c b → Forall (λ l, (length l < fuel)%nat) (remaining c) → is_Some (remaining c !! h) →
  ∃ b', Buffer show fuel (Some h) b = Done (None, b') ∧ rep c b'.
Proof.
  intros Hr Hf Hh. destruct (bufferStream_rep fuel c b Hr Hf) as (b1 & E1 & Hr1 & _).
  destruct (no_error h c b Hr Hh) as (st & Hst & He). destruct (no_error h c b1 Hr1 Hh) as (st1 & Hst1 & He1).
  unfold Buffer, pending, mbind, GoM_bind, go_get, mret, GoM_ret. rewrite (the_stream_at h st) by done.
  destruct (bool_decide (c_currStream b = Some h) && _).
  - rewrite E1. rewrite (the_stream_at h st1) by done. exists b1. split; [| done].
    unfold Err. rewrite He1. by destruct (s_fifo st1).
  - rewrite (the_stream_at h st) by done. exists b. split; [| done].
    unfold Err. rewrite He. by destruct (s_fifo st).
Qed.

(** * Refinement *)

Section Refinement.
Variable fuel : nat.
Variable cfg : TxConfig.
Hypothesis all_notifications : is_default (tc_NotificationConfig cfg) = true.
Hypothesis own_user : tc_ImpersonatedUser cfg = "".

(** The fuel is enough for every result. *)
Definition enough (c : cursors) : Prop :=
  Forall (λ l, (length l < fuel)%nat) (remaining c) ∧ Forall (λ l, (length l < fuel)%nat) (upcoming c).

Lemma conn_op_rep o c a c' (b : conn) :
  rep c b → enough c → cursor_op o c = Some (a, c') →
  ∃ b', conn_op fuel cfg o b = Done (Some a, b') ∧ rep c' b' ∧ enough c'.
Proof.
  intros Hr [Hf Hu] Ho. destruct o as [cmd | h | h]; simpl in Ho.
  - destruct (upcoming c) as [| recs rest] eqn:Hup; [done |]. injection Ho as <- <-.
    destruct (Run_rep fuel cmd cfg recs rest c b) as (b' & E & Hr' & _); try done.
    exists b'. split; [unfold conn_op, mbind, GoM_bind; by rewrite E |]. split; [done |].
    apply Forall_cons in Hu as [Hu1 Hu2]. split; [| done]. apply Forall_app. split; [done | by constructor].
  - destruct (remaining c !! h) as [l |] eqn:Hl; [| done].
    destruct (Next_rep h l c b Hr Hl) as (n & b' & E & Ha & Hr').
    assert (Hen : enough (mkCursors (<[h := tail l]> (remaining c)) (upcoming c))).
    { split; [| done]. apply Forall_insert; [done |]. eapply Forall_lookup_1 in Hf; [| exact Hl].
      destruct l; simpl in *; lia. }
    assert (Ea : conn_op fuel cfg (ONext h) b = Done (answer_of n, b')).
    { unfold conn_op, mbind, GoM_bind. by rewrite E. }
    rewrite Ha in Ea. destruct l as [| r l]; injection Ho as <- <-; exists b'; [| done].
    destruct c as [rem up]. simpl in *. rewrite list_insert_id in Hr', Hen by done. done.
  - destruct (remaining c !! h) as [l |] eqn:Hl; [| done]. injection Ho as <- <-.
    destruct (Buffer_rep fuel h c b Hr Hf) as (b' & E & Hr'); [by eexists |].
    exists b'. split; [| done]. unfold conn_op, mbind, GoM_bind. by rewrite E.
Qed.

Lemma conn_ops_rep ops c as_ c' (b : conn) :
  rep c b → enough c → cursor_ops ops c = Some (as_, c') →
  ∃ b', conn_ops fuel cfg ops b = Done (Some as_, b') ∧ rep c' b'.
Proof.
  revert c as_ b. induction ops as [| o ops IH]; intros c as_ b Hr He; simpl.
  - intros E. injection E as <- <-. by exists b.
  - destruct (cursor_op o c) as [[a c1] |] eqn:Ho; [| done]. simpl.
    destruct (cursor_ops ops c1) as [[l c2] |] eqn:Hos; [| done]. simpl. intros E. injection E as <- <-.
    destruct (conn_op_rep o c a c1 b Hr He Ho) as (b1 & E1 & Hr1 & He1).
    destruct (IH c1 l b1 Hr1 He1 Hos) as (b2 & E2 & Hr2). exists b2. split; [| done].
    unfold mbind at 1, GoM_bind at 1. rewrite E1. unfold mbind at 1, GoM_bind at 1. by rewrite E2.
Qed.

(** A connection to a server with the given results. *)
Definition unconnected (results : list (list Record_)) : conn :=
  NewBolt3 "server" 0 (new_net (new_database ((λ l, (l, None)) <$> results))).

Lemma Connect_rep auth results token :
  FromSession auth = false → GetAuthToken (Manager auth) = inr token →
  ∃ b, Connect show 0 auth "go" no_notifications (unconnected results) = Done (inr tt, b) ∧ rep (mkCursors [] results) b.
Proof.
  intros Ha Ht. unfold Connect, checkReAuth, mbind, GoM_bind, go_get, go_modify. simpl. rewrite Ha. simpl.
  rewrite Ht. simpl. eexists. split; [reflexivity |]. constructor; done.
Qed.
End Refinement.

(** C3. Interleaved queries on one connection of version 3: the protocol has room for
    one result at a time, yet a connection refines independent cursors.  Whatever
    queries are run, and in whatever order the client reads from them or buffers
    them, every call returns what it would if each query had a cursor of its own:
    the records of its result, in order, each once, and then the end. *)
Theorem queries_independent fuel cfg auth token results ops answers final :
  FromSession auth = false → GetAuthToken (Manager auth) = inr token →
  is_default (tc_NotificationConfig cfg) = true → tc_ImpersonatedUser cfg = "" →
  Forall (λ l, (length l < fuel)%nat) results →
  cursor_ops ops (mkCursors [] results) = Some (answers, final) →
  ∃ b, (Connect show 0 auth "go" no_notifications;; conn_ops fuel cfg ops) (unconnected results) = Done (Some answers, b).
Proof.
  intros Ha Ht Hno Hus Hf Ho. destruct (Connect_rep auth results token Ha Ht) as (b & E & Hr).
  destruct (conn_ops_rep fuel cfg Hno Hus ops _ answers final b Hr) as (b' & E' & _); [by split | done |].
  exists b'. unfold mbind, GoM_bind. by rewrite E.
Qed.
End Facts.

(** * Examples *)

(** Two queries, the second run while the first is being read. *)
Lemma queries_independent_witness :
  let r := sample_record in
  let ops := [ORun sample_command; ONext 0; ORun sample_command; ONext 1; ONext 0; ONext 0; OBuffer 1; ONext 1] in
  ∃ b, (Connect shown 0 sample_auth "go" no_notifications;; conn_ops shown 3 sample_config ops)
         (unconnected [[r 1; r 2]; [r 3]]) =
       Done (Some [AHandle 0; ARecord (keyed (r 1)); AHandle 1; ARecord (keyed (r 3)); ARecord (keyed (r 2)); AEnd;
                   ANothing; AEnd], b).
Proof.
  intros r ops. eapply (queries_independent shown 3 sample_config sample_auth "basic" [[r 1; r 2]; [r 3]] ops);
    [reflexivity.. | | reflexivity].
  repeat constructor.
Defined.

(** A server that goes away after the first record of a result. *)
Inductive cut : Type := mkCut.
#[global] Instance cut_server : Server cut := {|
  serve := λ r d, (match r with
                   | RRun _ _ _ => [MSuccess run_success]
                   | RPullAll => [MRecord (sample_record 1)]
                   | _ => [succeed]
                   end, d);
  pack_fails := λ _, []
|}.

(** Connect, run a query and use its stream; the answer, and whether the connection
    still is alive. *)
Definition on_cut {A} (use : nat → GoM (bolt3 (net cut) string) A) : option (A * bool) :=
  match (Connect shown 0 sample_auth "go" no_notifications;;
         r ← Run shown 5 sample_command sample_config;
         match r with inr h => Some <$> use h | inl _ => mret None end)
        (NewBolt3 "server" 0 (new_net mkCut)) with
  | Done (Some a, b) => Some (a, IsAlive b)
  | _ => None
  end.

(** When the connection breaks in the middle of a result, [Next] reports the error,
    but [Consume] and [Buffer] report neither an error nor a summary: the caller is
    told that a query, whose outcome is unknown, has succeeded. *)
Theorem consume_loses_error :
  on_cut (λ h, Next shown (Some h);; Next shown (Some h)) = Some ((None, None, Some EOF), false) ∧
  on_cut (λ h, Consume shown 5 (Some h)) = Some ((None, None), false) ∧
  on_cut (λ h, Buffer shown 5 (Some h)) = Some (None, false).
Proof. split_and!; vm_compute; reflexivity. Qed.
