(* ===== verification/BoltWire.v ===== *)
(** Connections down to the bytes: the world whose messages are packed by
    outgoing.go, framed by chunker.go and read back by incoming.go, and the path of
    a result from the values of the server to the records of [Next]. *)

From S2P Require Import Prelude GoTime Packer Values Errors Unpacker Reading Chunking ChunkingFacts.
From S2P Require Import Hydrator Messages Outgoing OutgoingFacts RoundTrip EndToEnd.
From S2P Require Import Bolt BoltLogic BoltServer BoltStreams.
#[local] Open Scope Z_scope.
#[local] Open Scope go_scope.

(** * Packing the messages of the queue (message_queue.go) *)

Definition pack_request `{TzDb} (fuel : nat) (r : request) : Out unit :=
  match r with
  | RHello hello => Pack.appendHello fuel hello
  | RLogoff => Pack.appendLogoff
  | RLogon token => Pack.appendLogon fuel token
  | RRoute context bookmarks extras => Pack.appendRoute fuel context bookmarks extras
  | RRouteV43 context bookmarks database => Pack.appendRouteToV43 context bookmarks database
  | RBegin meta => Pack.appendBegin fuel meta
  | RRun cypher params meta => Pack.appendRun fuel cypher params meta
  | RPullAll => Pack.appendPullAll
  | RPullN n => Pack.appendPullN n
  | RPullNQid n qid => Pack.appendPullNQid n qid
  | RDiscardN n => Pack.appendDiscardN n
  | RDiscardNQid n qid => Pack.appendDiscardNQid n qid
  | RCommit => Pack.appendCommit
  | RRollback => Pack.appendRollback
  | RReset => Pack.appendReset
  | RGoodbye => Pack.appendGoodbye
  | RTelemetry api => Pack.appendTelemetry api
  end.

(** * A connection to a peer

    The peer's bytes are given; what is written is recorded.  [wi_fuel] bounds the
    nesting of the values that are packed and read. *)
Record wire : Type := mkWire {
  wi_out : outgoing.outgoing;
  wi_in : incoming.incoming;
  wi_input : list byte;
  wi_output : list (list byte);
  wi_fuel : nat;
  wi_time : Z;
  wi_calls : list callback
}.

Section World.
Context `{TzDb}.

(** The errors of one message. *)
Definition wire_pack (r : request) : GoM wire (list error) := λ w,
  match pack_request (wi_fuel w) r ((wi_out w) <| outgoing.packErrs := [] |>) with
  | Done (_, o) => Done (outgoing.packErrs o, w <| wi_out := o <| outgoing.packErrs := [] |> |>)
  | Panic => Panic
  | OutOfFuel => OutOfFuel
  end.

Definition wire_send : GoM wire (option error) := λ w,
  match Pack.send ok_write (wi_output w) (wi_out w) with
  | Done (e, (o, output)) => Done (e, w <| wi_out := o |> <| wi_output := output |>)
  | Panic => Panic
  | OutOfFuel => OutOfFuel
  end.

Definition wire_next : GoM wire (option message * option error) := λ w,
  match incoming.next list_read (S (length (wi_input w))) (wi_fuel w) (wi_in w) (wi_input w) with
  | Done (r, i, input) => Done (r, w <| wi_in := i |> <| wi_input := input |>)
  | Panic => Panic
  | OutOfFuel => OutOfFuel
  end.

Definition on_hydrator (f : hydrator.hydrator → hydrator.hydrator) (w : wire) : wire :=
  w <| wi_in := incoming.mkIncoming (incoming.buf (wi_in w)) (f (incoming.hyd (wi_in w))) |>.

#[global] Instance wire_world : World wire := {
  wpack := wire_pack;
  wdrop := go_modify (λ w, w <| wi_out := (wi_out w)
             <| outgoing.chunks := chunker.reset (outgoing.chunks (wi_out w)) |> |>);
  wsend := wire_send;
  wnext := wire_next;
  wclose := mret None;
  wnow := λ w, Done (wi_time w, w <| wi_time := wi_time w + 1 |>);
  wlisten := λ e, mret (e, None, false);
  wcall := λ c, go_modify (λ w, w <| wi_calls := wi_calls w ++ [c] |>);
  wuseUtc := λ u, go_modify (λ w,
    on_hydrator (λ h, h <| hydrator.useUtc := u |>)
      (w <| wi_out := (wi_out w) <| outgoing.useUtc := u |> |>));
  wsupportsUuid := λ u, go_modify (λ w,
    on_hydrator (λ h, h <| hydrator.supportsUuid := u |>)
      (w <| wi_out := (wi_out w) <| outgoing.supportsUuid := u |> |>))
}.
End World.

(** * Records on the wire *)

Section Records.
Context `{TzDb} {Token : Type} `{Tokens Token}.
Variables utc uuid : bool.
Variable show : error → string.
Variable v : version.
Abbreviation conn := (bolt wire Token).
#[local] Instance ready_hydrator : Reading.Ready hydrator.hydrator := hydrator_ready utc uuid.

(** What the peer packs for one record of a result. *)
Definition pack_record (fuel : nat) (xs : list goval) : Out unit :=
  Pack.appendX fuel Byte.x71 [GAnys xs].

(** [p] is the message of a record of [vs] to a reader of depth [F]. *)
Definition carries (F : nat) (p : list byte) (vs : list value) : Prop :=
  ∀ g, (F <= g)%nat →
    reads (Message.hydrate_struct g) p (Some (MRecord (mkRecord vs [])), None) ∧ p ≠ [].

Lemma record_packed xs vs :
  Forall2 (denotes utc uuid) xs vs → fits (Packer.len xs) →
  ∃ F p, carries F p vs ∧ ∀ f ms k, (F <= f)%nat →
    ∃ k', pack_record f xs (writer utc uuid ms k) = Done (tt, writer utc uuid (ms ++ [p]) k').
Proof.
  intros Hxs Hfit. destruct (record_travels utc uuid xs vs Hxs Hfit) as (F & bs & Hs & Hr).
  exists F, (payload Byte.x71 1 bs). split.
  - intros g Hg. split; [| done]. by apply (reads_message utc uuid); [lia | apply Hr].
  - intros f ms k Hf. apply (message_queued utc uuid Byte.x71 1 _ bs ms k); [lia | by apply Hs].
Qed.

Lemma carries_more F F' p vs : (F <= F')%nat → carries F p vs → carries F' p vs.
Proof. intros HF Hc g Hg. apply Hc. lia. Qed.

Lemma records_packed xss vss :
  Forall2 (Forall2 (denotes utc uuid)) xss vss → Forall (λ xs, fits (Packer.len xs)) xss →
  ∃ F ps, Forall2 (carries F) ps vss ∧ ∀ f ms k, (F <= f)%nat →
    ∃ k', Pack.each (pack_record f) xss (writer utc uuid ms k) =
      Done (tt, writer utc uuid (ms ++ ps) k').
Proof.
  intros Hd Hf. induction Hd as [| xs vs xss vss Hx Hxs IH].
  - exists 0%nat, []. split; [constructor |]. intros f ms k _. exists k. by rewrite app_nil_r.
  - apply Forall_cons in Hf as [Hf1 Hf2]. destruct (IH Hf2) as (F & ps & Hps & Hw).
    destruct (record_packed xs vs Hx Hf1) as (F1 & p & Hp & Hw1).
    exists (F + F1)%nat, (p :: ps). split.
    + constructor; [eapply carries_more; [| done]; lia |].
      eapply Forall2_impl; [done |]. intros. eapply carries_more; [| done]. lia.
    + intros f ms k Hle. destruct (Hw1 f ms k ltac:(lia)) as (k1 & E1).
      destruct (Hw f (ms ++ [p]) k1 ltac:(lia)) as (k2 & E2). exists k2.
      cbn [Pack.each]. unfold mbind, GoM_bind. rewrite E1, E2. by rewrite <- app_assoc.
Qed.

(** A wire on which [ps] arrive next. *)
Record arriving (F : nat) (ps : list (list byte)) (rest : list byte) (w : wire) : Prop := {
  ar_input : wi_input w = concat (frame <$> ps) ++ rest;
  ar_reader : reader_ok utc uuid (incoming.hyd (wi_in w));
  ar_fuel : (F <= wi_fuel w)%nat
}.

Lemma wire_next_record F p ps rest vs (w : wire) :
  arriving F (p :: ps) rest w → carries F p vs → Packer.len p < 2 ^ 32 - 16 →
  ∃ w', wnext w = Done ((Some (MRecord (mkRecord vs [])), None), w') ∧ arriving F ps rest w'.
Proof.
  intros [Hi Hr Hf] Hc Hl. destruct (Hc (wi_fuel w) Hf) as [Hc1 Hne].
  rewrite fmap_cons in Hi. cbn [concat] in Hi. rewrite <- app_assoc in Hi.
  cbn [wnext wire_world]. unfold wire_next, incoming.next. rewrite Hi.
  pose proof (frame_longer p) as Hfl.
  destruct (dechunk_frame (length (frame p ++ concat (frame <$> ps) ++ rest)) (incoming.buf (wi_in w)) p
    (concat (frame <$> ps) ++ rest)) as (b' & ->); [done | rewrite length_app; lia |].
  destruct (hydrate_reads utc uuid (wi_fuel w) p (incoming.hyd (wi_in w)) _ Hr Hl Hc1) as (h' & E & Hr').
  simpl default. rewrite E. eexists. split; [reflexivity |]. by constructor.
Qed.

(** The records [Next] returns, [k] times. *)
Fixpoint nexts (fuel s k : nat) : GoM conn (list next_result) :=
  match k with
  | O => mret []
  | S k => r ← Next show v fuel (Some s); rs ← nexts fuel s k; mret (r :: rs)
  end.

Lemma nexts_arriving fuel s st hs F ps rest vss (b : conn) :
  awaiting s st hs b → arriving F ps rest (b_world b) → Forall2 (carries F) ps vss →
  Forall (λ p, Packer.len p < 2 ^ 32 - 16) ps →
  ∃ b' st', nexts (S (S fuel)) s (length vss) b =
      Done ((λ vs, (Some (mkRecord vs (s_keys st)), None, None)) <$> vss, b') ∧
    awaiting s st' hs b' ∧ wi_input (b_world b') = rest.
Proof.
  intros Hb Hw Hc. revert st b Hb Hw.
  induction Hc as [| p vs ps vss Hp Hps IH]; intros st b Hb Hw Hl.
  - exists b, st. destruct Hw as [Hi _ _]. done.
  - apply Forall_cons in Hl as [Hl1 Hl2].
    destruct (wire_next_record F p ps rest vs (b_world b) Hw Hp Hl1) as (w1 & E & Hw1).
    assert (En := Next_record show v fuel s st hs b (mkRecord vs []) w1
      (w1 <| wi_time := wi_time w1 + 1 |>) (wi_time w1) Hb E eq_refl).
    set (b1 := set_stream s (st <| s_hadRecord := true |>) _) in En.
    assert (Hb1 : awaiting s (st <| s_hadRecord := true |>) hs b1).
    { destruct Hb. constructor; try done. by eapply list_lookup_insert_eq, lookup_lt_Some. }
    assert (Hw1' : arriving F ps rest (b_world b1)) by by destruct Hw1.
    destruct (IH _ _ Hb1 Hw1' Hl2) as (b' & st' & E' & Hb').
    exists b', st'. split; [| done].
    cbn [length nexts]. unfold mbind, GoM_bind. by rewrite En, E'.
Qed.

(** C8. Results cross the wire: a peer packs the records of a result with the
    writer of outgoing.go and sends them with the chunker; what it has written arrives,
    followed by other bytes, at a connection whose stream waits for records.  Then
    [Next], called once for each record, returns the values the peer sent, in their
    order and under the keys of the stream, with no error; the stream waits for what
    follows.  Messages are shorter than 2^32 - 16 bytes. *)
Theorem results_cross_the_wire xss vss k :
  Forall2 (Forall2 (denotes utc uuid)) xss vss → Forall (λ xs, fits (Packer.len xs)) xss →
  ∃ F, ∀ f, (F <= f)%nat →
    ∃ o o' w,
      Pack.each (pack_record f) xss (writer utc uuid [] k) = Done (tt, o) ∧
      Pack.send ok_write [] o = Done (None, (o', w)) ∧
      ∀ fuel s st hs rest (b : conn),
        awaiting s st hs b → wi_fuel (b_world b) = f →
        reader_ok utc uuid (incoming.hyd (wi_in (b_world b))) →
        wi_input (b_world b) = concat w ++ rest →
        Forall (λ size, size < 2 ^ 32 - 16) (chunker.sizes (outgoing.chunks o)) →
        ∃ b' st', nexts (S (S fuel)) s (length vss) b =
            Done ((λ vs, (Some (mkRecord vs (s_keys st)), None, None)) <$> vss, b') ∧
          awaiting s st' hs b' ∧ wi_input (b_world b') = rest.
Proof.
  intros Hd Hf. destruct (records_packed xss vss Hd Hf) as (F & ps & Hc & Hw).
  exists F. intros f Hle. destruct (Hw f [] k Hle) as (k' & E).
  destruct (send_queued ps) as (w & Ew & Hcw).
  exists (writer utc uuid ps k'). eexists _, w. split; [exact E |].
  split; [unfold Pack.send; simpl; by rewrite Ew |].
  intros fuel s st hs rest b Hb <- Hr Hi Hl. rewrite Hcw in Hi. simpl in Hl.
  rewrite queued_layout in Hl. apply Forall_fmap in Hl.
  by apply (nexts_arriving fuel s st hs F ps rest vss b).
Qed.
End Records.

(** * A conversation in bytes *)

(** A connection as [NewBolt5] and [NewBolt6] make it, over a wire with the given
    input. *)
Definition new_wire (major : Z) (fuel : nat) (input : list byte) : wire :=
  mkWire (outgoing.mkOutgoing chunker.newChunker (Packer.mkPacker [] None) [] true false)
    (incoming.mkIncoming [] (hydrator.mkHydrator Unpacker.zero None major true false))
    input [] fuel 1000000000 [].

(** The bytes of a peer that packs messages with the given tags and fields. *)
Definition peer_bytes `{TzDb} (ms : list (byte * goval)) : option (list byte) :=
  match Pack.each (λ m, Pack.appendX 10 m.1 [m.2]) ms (writer true false [] (Packer.mkPacker [] None)) with
  | Done (_, o) =>
      match Pack.send ok_write [] o with
      | Done (None, (_, w)) => Some (concat w)
      | _ => None
      end
  | _ => None
  end.

(** The answers to HELLO, LOGON, RUN and PULL. *)
Definition sample_answers : list (byte * goval) :=
  [(Byte.x70, GAnyMap [("server", GString "Neo4j/5.0.0")]);
   (Byte.x70, GAnyMap []);
   (Byte.x70, GAnyMap [("fields", GAnys [GString "x"])]);
   (Byte.x71, GAnys [GInt 42]);
   (Byte.x71, GAnys [GAnyMap [("when", GTime (mkTime 1700000000 5 LocUTC))]]);
   (Byte.x70, GAnyMap [("bookmark", GString "bm")])].

(** Connect, run a query and read on until the summary. *)
Definition conversation : GoM (bolt wire string) (list (option Record_ * bool)) :=
  let _ := @wire_world utc_host in
  Connect shown V5 10 1 sample_auth "go" None [] no_notifications;;
  r ← Run shown V5 10 sample_command sample_config;
  match r with
  | inl _ => mret []
  | inr s =>
      l ← @nexts utc_host _ shown V5 10 s 3;
      mret ((λ r, (r.1.1, bool_decide (is_Some r.1.2))) <$> l)
  end.

(** The bytes of such a conversation give the records of the peer and the
    summary, and the connection is ready again. *)
Example conversation_in_bytes :
  ∃ input b, @peer_bytes utc_host sample_answers = Some input ∧
    conversation (NewBolt "server" 0 (new_wire 5 10 input)) =
      Done ([(Some (mkRecord [VInt 42] ["x"]), false);
             (Some (mkRecord [VMap [("when", VDateTime (mkTime 1700000000 5 LocUTC))]] ["x"]), false);
             (None, true)], b) ∧
    b_state b = Ready ∧ b_handlers b = [] ∧ b_bookmark b = "bm" ∧ wi_input (b_world b) = [].
Proof. eexists _, _. split; [vm_compute; reflexivity |]. split; [vm_compute; reflexivity |]. done. Qed.

(** A UUID among the parameters does not pack for a server without them. *)
Example uuid_parameter_does_not_pack :
  ∃ w, @wire_pack utc_host (RRun "RETURN $u" [("u", GUUID (repeat Byte.x00 16))] []) (new_wire 6 10 []) =
    Done ([FeatureNotSupportedError "" "UUID type" "requires at least Bolt 6.1"], w).
Proof. eexists. vm_compute. reflexivity. Qed.

(** A connection that has run a query over a wire with the given input. *)
Definition queried (fuel : nat) (input : list byte) : outcome ((error + nat) * bolt wire string) :=
  let _ := @wire_world utc_host in
  (Connect shown V5 10 1 sample_auth "go" None [] no_notifications;;
   Run shown V5 10 sample_command sample_config) (NewBolt "server" 0 (new_wire 5 fuel input)).

Definition sample_head : list byte := default [] (@peer_bytes utc_host (take 3 sample_answers)).

(** The answers to HELLO, LOGON and RUN, and then two records that the peer sends,
    read by a connection that ran the query. *)
Lemma results_cross_the_wire_witness :
  ∃ w fuel s b b',
    queried fuel (sample_head ++ concat w) = Done (inr s, b) ∧
    @nexts utc_host _ shown V5 10 s 2 b =
      Done ([(Some (mkRecord [VInt 42; VMap [("when", VDateTime (mkTime 1700000000 5 LocUTC))]] ["x"]), None, None);
             (Some (mkRecord [] ["x"]), None, None)], b').
Proof.
  destruct (@results_cross_the_wire utc_host string true false shown V5 [sample_values; []]
    [[VInt 42; VMap [("when", VDateTime (mkTime 1700000000 5 LocUTC))]]; []]
    (Packer.mkPacker [] None)) as (F & Hw).
  - constructor; [exact sample_denotes |]. constructor; constructor.
  - repeat constructor.
  - destruct (Hw (20 + F)%nat ltac:(lia)) as (o & o' & w & E & Es & Hn). vm_compute in E.
    injection E as <-. vm_compute in Es. injection Es as <- <-.
    match type of Hn with context [concat ?w ++ _] => set (bytes := w) in Hn end.
    destruct (queried (20 + F) (sample_head ++ concat bytes)) as [[[e | s] b] | |] eqn:Eq;
      [by vm_compute in Eq | | by vm_compute in Eq..].
    assert (Hb : (∃ st, awaiting s st [] b ∧ s_keys st = ["x"]) ∧ wi_fuel (b_world b) = (20 + F)%nat ∧
      reader_ok true false (incoming.hyd (wi_in (b_world b))) ∧
      wi_input (b_world b) = concat bytes ++ []).
    { vm_compute in Eq. injection Eq as <- <-. split; [eexists; split; [by constructor | done] |].
      split; [done |]. split; [| by vm_compute]. split_and!; by vm_compute. }
    destruct Hb as ((st & Hst & Hk) & Hf & Hr & Hi).
    destruct (Hn 8%nat s st [] [] b Hst Hf Hr Hi) as (b' & st' & Eb & _).
    { by repeat constructor. }
    rewrite Hk in Eb. exists bytes, (20 + F)%nat, s, b, b'. split; [exact Eq | exact Eb].
Defined.
