(* ===== verification/Handshake.v ===== *)
(** The negotiation of the protocol version: internal/bolt/connect.go and the racing
    reader and writer below it (internal/racing).

    [negotiate] is the part of [Connect] before a connection exists.  It chooses the
    best version that both sides support, and it reads back the integers that
    [encodeVarInt] writes. *)

From S2P Require Import Prelude Values Errors Outgoing Messages Chunking Bolt BoltWire.
#[local] Open Scope Z_scope.
#[local] Open Scope go_scope.

(** * Racing readers and writers *)

Module racing.

(** What the select statement finds first. *)
Inductive race_end (A : Type) : Type :=
| Finished (n : A) (err : option error)
| ContextDone (err : error).
Arguments Finished {A}.
Arguments ContextDone {A}.

(** [race] on a context: its error, its deadline if there is one, and the clock.
    Without deadline and error the operation runs unguarded; [zero] is the count of
    bytes 0. *)
Definition race {A} (zero : A) (err : option error) (deadline : option Z) (now : Z)
    (result : A * option error) (first : race_end A) : A * option error :=
  match deadline, err with
  | None, None => result
  | _, _ =>
      if match deadline with Some d => d <? now | None => true end || bool_decide (is_Some err)
      then (zero, err)
      else match first with
           | Finished n e => (n, e)
           | ContextDone e => (zero, Some e)
           end
  end.
End racing.

(** * Versions *)

Module handshake.

Record protocolVersion : Type := mkVersion { major : Z; minor : Z; back : Z }.

Definition bolt6Ver : protocolVersion := mkVersion 6 1 1.
Definition bolt5Ver : protocolVersion := mkVersion 5 8 8.
Definition bolt4Ver : protocolVersion := mkVersion 4 4 2.
Definition bolt3Ver : protocolVersion := mkVersion 3 0 0.

Definition supportedVersions : list protocolVersion := [bolt6Ver; bolt5Ver; bolt4Ver; bolt3Ver].

Definition handshakeProposals : list protocolVersion :=
  [mkVersion 0xFF 0x01 0x00; bolt5Ver; bolt4Ver; bolt3Ver].

(** The bytes of a version as the driver proposes it. *)
Definition proposal (p : protocolVersion) : list byte :=
  [Byte.x00; to_byte (back p); to_byte (minor p); to_byte (major p)].

Definition hello_bytes : list byte :=
  [Byte.x60; Byte.x60; Byte.xb0; Byte.x17] ++ mjoin (proposal <$> handshakeProposals).

(** ** Choosing a version *)

(** The innermost loop for one minor version [v]; the subtraction is one of bytes. *)
Definition in_offer (maj v : Z) (offer : protocolVersion) : bool :=
  (major offer =? maj) && (u8 v <=? minor offer) && (u8 (minor offer - back offer) <=? u8 v).

(** [for v := minor; v >= minor-back; v--], [n] steps. *)
Fixpoint minors (n : nat) (v : Z) : list Z :=
  match n with O => [] | S n => v :: minors n (v - 1) end.

Fixpoint first_minor (vs : list Z) (maj : Z) (offers : list protocolVersion) : option protocolVersion :=
  match vs with
  | [] => None
  | v :: vs =>
      if existsb (in_offer maj v) offers then Some (mkVersion maj (u8 v) 0)
      else first_minor vs maj offers
  end.

Fixpoint first_candidate (candidates offers : list protocolVersion) : option protocolVersion :=
  match candidates with
  | [] => None
  | c :: candidates =>
      match first_minor (minors (Z.to_nat (back c + 1)) (minor c)) (major c) offers with
      | Some p => Some p
      | None => first_candidate candidates offers
      end
  end.

Definition noneSupported : error :=
  ErrorString "none of the server offered Bolt versions are supported".

Definition selectProtocol (offers : list protocolVersion) : error + protocolVersion :=
  match first_candidate supportedVersions offers with
  | Some p => inr p
  | None => inl noneSupported
  end.

(** ** Variable-length integers ([encoding/binary]) *)

Definition MaxVarintLen64 : nat := 10.

(** [Uvarint]: value and number of bytes, which is not positive on failure. *)
Fixpoint Uvarint_loop (buf : list byte) (i : nat) (x s : Z) : Z * Z :=
  match buf with
  | [] => (0, 0)
  | b :: buf =>
      if decide (i = MaxVarintLen64) then (0, - (Z.of_nat i + 1))
      else if of_byte b <? 0x80 then
        if bool_decide (i = (MaxVarintLen64 - 1)%nat) && (1 <? of_byte b) then (0, - (Z.of_nat i + 1))
        else (Z.lor x (u64 (Z.shiftl (of_byte b) s)), Z.of_nat i + 1)
      else Uvarint_loop buf (S i) (Z.lor x (u64 (Z.shiftl (Z.land (of_byte b) 0x7f) s))) (s + 7)
  end.

Definition Uvarint (buf : list byte) : Z * Z := Uvarint_loop buf 0 0 0.

(** [PutUvarint] into a buffer of [n] bytes; it panics if they do not suffice. *)
Fixpoint PutUvarint (n : nat) (x : Z) : option (list byte) :=
  match n with
  | O => None
  | S n =>
      if 0x80 <=? x then cons (to_byte (Z.lor (u8 x) 0x80)) <$> PutUvarint n (Z.shiftr x 7)
      else Some [to_byte x]
  end.

Definition encodeVarInt (value : Z) : option (list byte) := PutUvarint MaxVarintLen64 value.

(** ** Reading and writing

    Reads return the bytes that arrived; the rest of the buffer stays zero. *)

Class Wire (W : Type) : Type := {
  readFull : nat → GoM W (list byte * option error);
  read1 : GoM W (list byte * option error);
  write : list byte → GoM W (option error);
  OnDialError : error → GoM W unit
}.

Section Negotiation.
Context {W : Type} `{Wire W}.
Abbreviation M := (GoM W).

(** A fresh buffer of [n] bytes after a read. *)
Definition filled (n : nat) (l : list byte) : list byte := take n (l ++ replicate n Byte.x00).

(** [if err != nil { errorListener.OnDialError(...); return err' }] *)
Definition dial_error {A} (e e' : error) : M (error + A) := OnDialError e;; mret (inl e').

(** [n] bytes of the buffer are left, [buf] were read. *)
Fixpoint readVarInt_loop (n : nat) (buf : list byte) : M ((error + Z) * list byte) :=
  match n with
  | O => mret (inl (ErrorString "varint too long"), buf)
  | S n =>
      r ← read1;
      match r with
      | (_, Some e) => mret (inl e, buf)
      | (l, None) =>
          let buf := buf ++ filled 1 l in
          if Z.land (of_byte (default Byte.x00 (last buf))) 0x80 =? 0 then
            let '(value, k) := Uvarint buf in
            if k <=? 0 then mret (inl (ErrorString "failed to decode varint"), buf)
            else mret (inr value, buf)
          else readVarInt_loop n buf
      end
  end.

Definition readVarInt : M ((error + Z) * list byte) := readVarInt_loop MaxVarintLen64 [].

(** [make] with a capacity panics when the memory exceeds the address space; this
    is the limit on 64-bit platforms, and a version takes 3 bytes. *)
Definition maxAlloc : Z := 2 ^ 48.

(** The loop of [readProtocolOfferings] from [i] on. *)
Fixpoint offerings_loop (fuel : nat) (i count : Z) (supported : list protocolVersion) :
    M (error + list protocolVersion) :=
  if i <? count then
    match fuel with
    | O => go_nofuel
    | S fuel =>
        r ← readFull 4;
        match r with
        | (_, Some e) => dial_error e (WrappedError "failed to read manifest protocol version" e)
        | (l, None) =>
            let b k := of_byte (default Byte.x00 (filled 4 l !! k)) in
            offerings_loop fuel (i + 1) count
              (supported ++ [mkVersion (b 3%nat) (b 2%nat) (b 1%nat)])
        end
    end
  else mret (inr supported).

Definition readProtocolOfferings (fuel : nat) : M (error + list protocolVersion) :=
  r ← readVarInt;
  match r with
  | (inl e, _) => dial_error e (WrappedError "failed to read manifest protocol count" e)
  | (inr count, _) =>
      if maxAlloc <? 3 * count then go_panic
      else offerings_loop fuel 0 count []
  end.

Definition readCapabilityMask : M ((error + Z) * list byte) :=
  r ← readVarInt;
  match r with
  | (inl e, capBytes) =>
      OnDialError e;; mret (inl (WrappedError "failed to read capability mask" e), capBytes)
  | (inr capMask, capBytes) => mret (inr capMask, capBytes)
  end.

Definition sendHandshakeConfirmation (chosen : protocolVersion) (capBytes : list byte) : M (error + unit) :=
  e ← write [Byte.x00; Byte.x00; to_byte (minor chosen); to_byte (major chosen)];
  match e with
  | Some e => dial_error e e
  | None =>
      e ← write capBytes;
      match e with
      | Some e => dial_error e e
      | None => mret (inr tt)
      end
  end.

Definition invalidHandshake : list byte := replicate 5 Byte.x00.

Definition performManifestNegotiation (fuel : nat) : M (error + Z * Z) :=
  supported ←? readProtocolOfferings fuel;
  c ← readCapabilityMask;
  match c with
  | (inl e, _) => mret (inl e)
  | (inr _, _) =>
      match selectProtocol supported with
      | inl e =>
          OnDialError e;;
          write invalidHandshake;;
          mret (inl e)
      | inr chosen =>
          sendHandshakeConfirmation chosen [Byte.x00] ;?
          mret (inr (major chosen, minor chosen))
      end
  end.

Definition answeredHttp : error :=
  UsageError ("server responded HTTP. Make sure you are not trying to connect to the http endpoint " +:+
    "(HTTP defaults to port 7474 whereas BOLT defaults to port 7687)").

(** [Connect] up to the switch over the major version. *)
Definition negotiate (fuel : nat) : M (error + Z * Z) :=
  e ← write hello_bytes;
  match e with
  | Some e => dial_error e e
  | None =>
      r ← readFull 4;
      match r with
      | (_, Some e) => dial_error e e
      | (l, None) =>
          let b k := of_byte (default Byte.x00 (filled 4 l !! k)) in
          let maj := b 3%nat in
          let min := b 2%nat in
          if (maj =? 80) && (min =? 84) then mret (inl answeredHttp)
          else if (maj =? 0xFF) && (min =? 0x01) then performManifestNegotiation fuel
          else mret (inr (maj, min))
      end
  end.
End Negotiation.

(** ** Connecting *)

Section Connect.
Context {W Token C3 : Type} `{Wire W} `{World W} `{Tokens Token}.
Variable show : error → string.
(** [NewBolt3] and its [Connect] and, on an error, [Close]. *)
Variable connect3 : Z → GoM W (error + C3).
(** The queue, writer and reader that [NewBolt4] and the like make. *)
Variable fresh : version → W → W.
Variable serverName : string.
Variable auth : ReAuthToken Token.
Variable userAgent : string.
Variable routingContext : option (gomap string).
Variable agent : gomap string.
Variable notificationConfig : NotificationConfig.

Definition established : Type := C3 + version * bolt W Token.

Definition start (v : version) (fuel : nat) (min : Z) : GoM W (error + established) := λ w,
  match wnow w with
  | Done (now, w) =>
      match Bolt.Connect show v fuel min auth userAgent routingContext agent notificationConfig
              (NewBolt serverName now (fresh v w)) with
      | Done (inr _, b) => Done (inr (inr (v, b)), b_world b)
      | Done (inl e, b) =>
          match Close show v b with
          | Done (_, b) => Done (inl e, b_world b)
          | Panic => Panic
          | OutOfFuel => OutOfFuel
          end
      | Panic => Panic
      | OutOfFuel => OutOfFuel
      end
  | Panic => Panic
  | OutOfFuel => OutOfFuel
  end.

Definition notAccepted : error :=
  ErrorString "server did not accept any of the requested Bolt versions".

Definition unsupported (maj min : Z) : error :=
  UsageError ("server responded with unsupported version " +:+ pretty maj +:+ "." +:+ pretty min).

Definition Connect (fuel : nat) : GoM W (error + established) :=
  r ←? negotiate fuel;
  let '(maj, min) := r in
  if maj =? 3 then c ←? connect3 min; mret (inr (inl c))
  else if maj =? 4 then start V4 fuel min
  else if maj =? 5 then start V5 fuel min
  else if maj =? 6 then start V6 fuel min
  else if maj =? 0 then mret (inl notAccepted)
  else mret (inl (unsupported maj min)).
End Connect.
End handshake.
