(* ===== verification/Connector.v ===== *)
(** Sockets for connections: neo4j/internal/connector/connector.go, with the client
    certificates of neo4j/auth/cert.go and the mutex of neo4j/internal/racing/lock.go.

    The network, the TLS library, the files and the Bolt handshake are operations of an
    environment; what is done with sockets is recorded as a list of events. *)

From S2P Require Import Prelude Values Errors Bolt.
From Stdlib Require Import Ascii.
#[local] Open Scope Z_scope.
#[local] Open Scope go_scope.

(** * Client certificates (auth/cert.go) *)

Module certificates.
Section Certificates.
Context {FS Cert Block : Type}.
(** [os.ReadFile], [pem.Decode], [x509.DecryptPEMBlock], the type of a block,
    [pem.EncodeToMemory] and [tls.X509KeyPair] *)
Variable ReadFile : FS → string → error + list byte.
Variable Decode : list byte → option Block.
Variable DecryptPEMBlock : Block → string → error + list byte.
Variable block_Type : Block → string.
Variable EncodeToMemory : string → list byte → list byte.
Variable X509KeyPair : list byte → list byte → error + Cert.

Record ClientCertificate : Type := mkClientCertificate {
  CertFile : string;
  KeyFile : string;
  Password : option string
}.

(** The key in the form that [X509KeyPair] takes: decrypted if there is a password. *)
Definition decrypt_key (keyPEMBlock : list byte) (password : option string) : error + list byte :=
  match password with
  | None => inr keyPEMBlock
  | Some password =>
      match Decode keyPEMBlock with
      | None => inl (ErrorString "failed to parse PEM block containing the key")
      | Some block =>
          match DecryptPEMBlock block password with
          | inl e => inl e
          | inr der => inr (EncodeToMemory (block_Type block) der)
          end
      end
  end.

Definition loadCertificate (fs : FS) (certFile keyFile : string) (password : option string) : error + Cert :=
  match ReadFile fs certFile with
  | inl e => inl e
  | inr certPEMBlock =>
      match ReadFile fs keyFile with
      | inl e => inl e
      | inr keyPEMBlock =>
          match decrypt_key keyPEMBlock password with
          | inl e => inl e
          | inr keyPEMBlock => X509KeyPair certPEMBlock keyPEMBlock
          end
      end
  end.

(** Both providers hold a certificate. *)
Record provider : Type := mkProvider { certificate : Cert }.

Definition load (fs : FS) (c : ClientCertificate) : error + Cert :=
  loadCertificate fs (CertFile c) (KeyFile c) (Password c).

Definition NewStaticClientCertificateProvider (fs : FS) (c : ClientCertificate) : error + provider :=
  match load fs c with inl e => inl e | inr cert => inr (mkProvider cert) end.
Definition NewRotatingClientCertificateProvider (fs : FS) (c : ClientCertificate) : error + provider :=
  match load fs c with inl e => inl e | inr cert => inr (mkProvider cert) end.

Definition GetCertificate (p : provider) : option Cert := Some (certificate p).

Definition UpdateCertificate (fs : FS) (c : ClientCertificate) : GoM provider (option error) := λ p,
  match load fs c with
  | inl e => Done (Some e, p)
  | inr cert => Done (None, mkProvider cert)
  end.
End Certificates.
Arguments provider : clear implicits.
Arguments mkProvider {Cert}.
Arguments certificate {Cert}.
End certificates.

(** * Addresses *)

(** [net.SplitHostPort]: the host of an address, without brackets. *)
Fixpoint last_colon (s : list ascii) : option nat :=
  match s with
  | [] => None
  | c :: s =>
      match last_colon s with
      | Some i => Some (S i)
      | None => if Ascii.eqb c ":" then Some 0%nat else None
      end
  end.

Definition first_index (c : ascii) (s : list ascii) : option nat := fst <$> list_find (c =.) s.

Definition missingPort : string := "missing port in address".
Definition tooManyColons : string := "too many colons in address".
Definition addrErr (hostport why : string) : error := ErrorString ("address " +:+ hostport +:+ ": " +:+ why).

Definition SplitHostPort (hostport : string) : error + string :=
  let s := String.list_ascii_of_string hostport in
  let fail why := inl (addrErr hostport why) in
  let check j k host :=
    if bool_decide ("["%char ∈ drop j s) then fail "unexpected '[' in address"
    else if bool_decide ("]"%char ∈ drop k s) then fail "unexpected ']' in address"
    else inr (String.string_of_list_ascii host) in
  match last_colon s with
  | None => fail missingPort
  | Some i =>
      if bool_decide (head s = Some "["%char) then
        match first_index "]" s with
        | None => fail "missing ']' in address"
        | Some end_ =>
            if decide (S end_ = length s) then fail missingPort
            else if decide (S end_ = i) then check 1%nat (S end_) (take (end_ - 1) (drop 1 s))
            else if decide (s !! S end_ = Some ":"%char) then fail tooManyColons
            else fail missingPort
        end
      else if bool_decide (":"%char ∈ take i s) then fail tooManyColons
      else check 0%nat 0%nat (take i s)
  end.

(** * The connector (connector.go) *)

Module connector.

Definition VersionTLS12 : Z := 0x0303.
Definition second : Z := 1000000000.

(** A slice of certificates: an array, and how much of it is used. *)
Record certs : Type := mkCerts { c_arr : nat; c_len : nat }.

(** [tls.Config]: the settings that the connector looks at, and the others. *)
Record tlsConfig_ (R : Type) : Type := mkTls {
  MinVersion : Z;
  Certificates : certs;
  ServerName : string;
  InsecureSkipVerify : bool;
  Rest : R
}.
Arguments mkTls {R}.
Arguments MinVersion {R}.
Arguments Certificates {R}.
Arguments ServerName {R}.
Arguments InsecureSkipVerify {R}.
Arguments Rest {R}.

(** [net.Dialer] *)
Record Dialer : Type := mkDialer { Timeout : Z; KeepAlive : Z }.

(** What Bolt is spoken over. *)
Inductive channel (R : Type) : Type :=
| Plain (socket : nat)
| Encrypted (socket : nat) (config : tlsConfig_ R).
Arguments Plain {R}.
Arguments Encrypted {R}.

Inductive event (R : Type) : Type :=
| Supplied (socket : nat)
| TlsHandshake (socket : nat) (config : tlsConfig_ R) (err : option error)
| BoltConnect (c : channel R)
| Closed (socket : nat)
| DialError (address : string) (err : error).
Arguments Supplied {R}.
Arguments TlsHandshake {R}.
Arguments BoltConnect {R}.
Arguments Closed {R}.
Arguments DialError {R}.

Section Connector.
(** [O] is the state of the environment, [Conn] a Bolt connection. *)
Context {O R Cert Conn : Type}.
Variable dial : Dialer → string → string → GoM O (error + nat).
Variable handshake : nat → tlsConfig_ R → GoM O (option error).
Variable bolt_Connect : channel R → GoM O (error + Conn).
Variable close_socket : nat → GoM O (option error).
(** The settings of [&tls.Config{}]. *)
Variable default_rest : R.

(** The arrays of certificates, each with its capacity, and what happened. *)
Record net : Type := mkNet { n_env : O; n_arrays : list (list (option Cert)); n_events : list (event R) }.

Record Connector : Type := mkConnector {
  SkipEncryption : bool;
  SkipVerify : bool;
  Network : string;
  SocketConnectTimeout : Z;
  SocketKeepalive : bool;
  TlsConfig : option (tlsConfig_ R);
  ClientCertificateProvider : option (GoM O (option Cert));
  SupplyConnection : option (string → GoM O (error + nat));
  TestKitDnsResolver : option (string → list string)
}.

Abbreviation M := (GoM net).

Definition on_env {A} (m : GoM O A) : M A := λ n,
  match m (n_env n) with
  | Done (a, o) => Done (a, mkNet o (n_arrays n) (n_events n))
  | Panic => Panic
  | OutOfFuel => OutOfFuel
  end.

Definition record (e : event R) : M unit :=
  go_modify (λ n, mkNet (n_env n) (n_arrays n) (n_events n ++ [e])).

Definition OnDialError (address : string) (e : error) : M unit := record (DialError address e).

(** [append(s, x)]: in place when the array has room. *)
Definition append_cert (s : certs) (x : Cert) : M certs := λ n,
  let a := default [] (n_arrays n !! c_arr s) in
  if decide (c_len s < length a)%nat then
    Done (mkCerts (c_arr s) (S (c_len s)),
          mkNet (n_env n) (<[c_arr s := <[c_len s := Some x]> a]> (n_arrays n)) (n_events n))
  else
    Done (mkCerts (length (n_arrays n)) (S (c_len s)),
          mkNet (n_env n) (n_arrays n ++ [take (c_len s) a ++ [Some x]]) (n_events n)).

Definition new_array : M certs := λ n,
  Done (mkCerts (length (n_arrays n)) 0, mkNet (n_env n) (n_arrays n ++ [[]]) (n_events n)).

(** [Clone] copies the slice, not its array. *)
Definition base_config (c : Connector) : M (tlsConfig_ R) :=
  match TlsConfig c with
  | Some config => mret config
  | None => s ← new_array; mret (mkTls VersionTLS12 s "" false default_rest)
  end.

Definition with_certificate (c : Connector) (config : tlsConfig_ R) : M (tlsConfig_ R) :=
  match ClientCertificateProvider c with
  | Some provider =>
      if negb (SkipEncryption c) then
        cert ← on_env provider;
        match cert with
        | Some cert =>
            s ← append_cert (Certificates config) cert;
            mret (mkTls (MinVersion config) s (ServerName config) (InsecureSkipVerify config) (Rest config))
        | None => mret config
        end
      else mret config
  | None => mret config
  end.

Definition tlsConfig (c : Connector) (serverName : string) : M (tlsConfig_ R) :=
  config ← base_config c;
  let min := if MinVersion config =? 0 then VersionTLS12 else MinVersion config in
  config ← with_certificate c
             (mkTls min (Certificates config) (ServerName config) (InsecureSkipVerify config) (Rest config));
  mret (mkTls (MinVersion config) (Certificates config) serverName (SkipVerify c) (Rest config)).

(** The loop over the addresses; [err] is the last error. *)
Fixpoint dial_any (d : Dialer) (network : string) (addresses : list string) (err : error) : M (error + nat) :=
  match addresses with
  | [] => mret (inl err)
  | address :: addresses =>
      r ← on_env (dial d network address);
      match r with
      | inr con => mret (inr con)
      | inl e => dial_any d network addresses e
      end
  end.

Definition createConnection (c : Connector) (address : string) : M (error + nat) :=
  let dialer := mkDialer (SocketConnectTimeout c) (if SocketKeepalive c then 0 else - second) in
  match TestKitDnsResolver c with
  | None => on_env (dial dialer (Network c) address)
  | Some resolver =>
      match resolver address with
      | [] => mret (inl (ErrorString "TestKit DNS resolver returned no address"))
      | addresses => dial_any dialer (Network c) addresses (ErrorString "")
      end
  end.

Definition closedByPeer : error :=
  ErrorString "remote end closed the connection, check that TLS is enabled on the server".

(** [Connect] from the notification settings on. *)
Definition establish (c : Connector) (address : string) (conn : nat) : M (error + Conn) :=
  if SkipEncryption c then record (BoltConnect (Plain conn));; on_env (bolt_Connect (Plain conn))
  else
    match SplitHostPort address with
    | inl e => OnDialError address e;; mret (inl e)
    | inr serverName =>
        config ← tlsConfig c serverName;
        err ← on_env (handshake conn config);
        record (TlsHandshake conn config err);;
        match err with
        | Some e =>
            let e := TlsError (match e with EOF => closedByPeer | e => e end) in
            OnDialError address e;; mret (inl e)
        | None => record (BoltConnect (Encrypted conn config));; on_env (bolt_Connect (Encrypted conn config))
        end
    end.

Definition Connect (c : Connector) (address : string) : M (error + Conn) :=
  supplied ← match SupplyConnection c with
             | Some f => on_env (f address)
             | None => createConnection c address
             end;
  match supplied with
  | inl e => OnDialError address e;; mret (inl e)
  | inr conn =>
      record (Supplied conn);;
      r ← establish c address conn;
      match r with
      | inl e => on_env (close_socket conn);; record (Closed conn);; mret (inl e)
      | inr connection => mret (inr connection)
      end
  end.
End Connector.
End connector.

(** * The mutex (racing/lock.go) *)

Module locks.

(** What [TryLock] reads of a context; times are nanoseconds. *)
Record context : Type := mkContext { Deadline : option Z; Err : bool }.

(** Where a caller is: outside, in the send that nothing interrupts, in the [select]
    that the end of the context interrupts, or in possession of the lock. *)
Inductive phase : Type := Outside | Sending | Selecting | Holding.

#[global] Instance phase_eq_dec : EqDecision phase.
Proof. solve_decision. Defined.

(** The beginning of [TryLock].  Without a deadline, [Deadline] returns the zero time,
    which is before now. *)
Definition TryLock (now : Z) (ctx : context) : phase :=
  match Deadline ctx, Err ctx with
  | None, false => Sending
  | None, true => Outside
  | Some deadline, err => if (deadline <? now) || err then Outside else Selecting
  end.

(** The channel of capacity one, and the callers. *)
Record contextLock : Type := mkLock { ch : bool; callers : nat → phase }.

Definition NewMutex : contextLock := mkLock false (λ _, Outside).

Definition move (i : nat) (p : phase) (l : contextLock) : contextLock :=
  mkLock (ch l) (λ j, if decide (i = j) then p else callers l j).

(** [Unlock]: a receive that does not wait; it panics when the channel is empty. *)
Definition Unlock (i : nat) (l : contextLock) : outcome contextLock :=
  if ch l then Done (move i Outside (mkLock false (callers l))) else Panic.

(** What can happen next.  Only who holds the lock unlocks it. *)
Inductive step : contextLock → contextLock → Prop :=
| step_try i now ctx l : callers l i = Outside → step l (move i (TryLock now ctx) l)
| step_send i l :
    callers l i = Sending ∨ callers l i = Selecting → ch l = false →
    step l (move i Holding (mkLock true (callers l)))
| step_done i l : callers l i = Selecting → step l (move i Outside l)
| step_unlock i l l' : callers l i = Holding → Unlock i l = Done l' → step l l'.

Inductive reachable : contextLock → Prop :=
| reach_new : reachable NewMutex
| reach_step l l' : reachable l → step l l' → reachable l'.
End locks.
