(* ===== verification/ConnectorFacts.v ===== *)
(** The connector: a socket ends up in a connection or closed, Bolt is spoken over TLS
    as the settings say; and the mutex excludes. *)

From S2P Require Import Prelude Values Errors Bolt Connector.
From Stdlib Require Import Ascii.
#[local] Open Scope Z_scope.
#[local] Open Scope go_scope.

Module ConnectorFacts.
Import connector.

Section Facts.
Context {O R Cert Conn : Type}.
Variable dial : Dialer → string → string → GoM O (error + nat).
Variable handshake : nat → tlsConfig_ R → GoM O (option error).
Variable bolt_Connect : channel R → GoM O (error + Conn).
Variable close_socket : nat → GoM O (option error).
Variable default_rest : R.
Abbreviation net := (net (O := O) (R := R) (Cert := Cert)).
Abbreviation Connector := (Connector (O := O) (R := R) (Cert := Cert)).
Abbreviation Connect := (Connect dial handshake bolt_Connect close_socket default_rest).
Abbreviation establish := (establish handshake bolt_Connect default_rest).

(** ** What the operations record *)

Definition silent {A} (m : GoM net A) : Prop :=
  ∀ n a n', m n = Done (a, n') → n_events n' = n_events n.

Lemma silent_env {A} (m : GoM O A) : silent (on_env m).
Proof. intros n a n'. unfold on_env. repeat case_match; try done. by intros [= <- <-]. Qed.

Lemma silent_ret {A} (a : A) : silent (mret a).
Proof. by intros n b n' [= <- <-]. Qed.

Lemma silent_bind {A B} (m : GoM net A) (k : A → GoM net B) :
  silent m → (∀ a, silent (k a)) → silent (m ≫= k).
Proof.
  intros Hm Hk n b n' (a & n1 & H1 & H2)%bind_Done. rewrite (Hk a _ _ _ H2). by apply (Hm _ _ _ H1).
Qed.

Lemma silent_append s (x : Cert) : silent (append_cert s x).
Proof. intros n a n'. unfold append_cert. case_decide; by intros [= <- <-]. Qed.

Lemma silent_dial_any d network l err : silent (dial_any dial d network l err).
Proof.
  revert err. induction l as [| a l IH]; intros err; [apply silent_ret |].
  apply silent_bind; [apply silent_env |]. intros [e | s]; [apply IH | apply silent_ret].
Qed.

Lemma silent_create (c : Connector) address : silent (createConnection dial c address).
Proof.
  unfold createConnection. destruct (TestKitDnsResolver c) as [f |]; [| apply silent_env].
  destruct (f address); [apply silent_ret | apply silent_dial_any].
Qed.

(** ** The settings of TLS *)

(** The settings of a connection to [host]: verified unless the connector skips it, at
    least TLS 1.2 unless the user set a version. *)
Definition tls_for (c : Connector) (host : string) (config : tlsConfig_ R) : Prop :=
  ServerName config = host ∧ InsecureSkipVerify config = SkipVerify c ∧ MinVersion config ≠ 0 ∧
  (∀ user, TlsConfig c = Some user → MinVersion user ≠ 0 → MinVersion config = MinVersion user) ∧
  ((∀ user, TlsConfig c = Some user → MinVersion user = 0) → MinVersion config = VersionTLS12).

Lemma with_certificate_spec (c : Connector) config (n : net) config' n' :
  with_certificate c config n = Done (config', n') → n_events n' = n_events n ∧ MinVersion config' = MinVersion config.
Proof.
  intros H. split.
  - revert n config' n' H. change (silent (with_certificate c config)). unfold with_certificate.
    destruct (ClientCertificateProvider c); [| apply silent_ret]. destruct (negb _); [| apply silent_ret].
    apply silent_bind; [apply silent_env |]. intros [x |]; [| apply silent_ret].
    apply silent_bind; [apply silent_append | intros s; apply silent_ret].
  - unfold with_certificate in H. destruct (ClientCertificateProvider c); [| by inversion H].
    destruct (negb _); [| by inversion H]. apply bind_Done in H as ([x |] & n1 & _ & H); [| by inversion H].
    apply bind_Done in H as (s & n2 & _ & H). by inversion H.
Qed.

Lemma base_config_spec (c : Connector) (n : net) config n' :
  base_config default_rest c n = Done (config, n') →
  n_events n' = n_events n ∧ match TlsConfig c with Some user => config = user | None => MinVersion config = VersionTLS12 end.
Proof.
  unfold base_config. destruct (TlsConfig c); [by intros [= <- <-] |]. by intros [= <- <-].
Qed.

Lemma tlsConfig_spec (c : Connector) host (n : net) config n' :
  tlsConfig default_rest c host n = Done (config, n') → n_events n' = n_events n ∧ tls_for c host config.
Proof.
  unfold tlsConfig. intros (base & n1 & [E1 Hb]%base_config_spec & H)%bind_Done.
  apply bind_Done in H as (config' & n2 & [E2 Hm]%with_certificate_spec & [= <- <-]). cbn [MinVersion] in Hm.
  split; [congruence |]. unfold tls_for. cbn [ServerName InsecureSkipVerify MinVersion]. rewrite Hm.
  do 2 (split; [done |]). split; [by destruct (Z.eqb_spec (MinVersion base) 0) |].
  destruct (TlsConfig c) as [user |]; [subst base |].
  - split; [intros ? [= <-] ?; by rewrite (proj2 (Z.eqb_neq _ _)) |].
    intros Hu. by rewrite (Hu user eq_refl).
  - split; [done |]. intros _. rewrite Hb. done.
Qed.

(** ** What is spoken over a socket *)

(** The events between the supply of socket [s] and the result; the flag tells whether
    the Bolt handshake was begun. *)
Inductive spoken (c : Connector) (address : string) (s : nat) : bool → list (event R) → Prop :=
| spoken_plain : SkipEncryption c = true → spoken c address s true [BoltConnect (Plain s)]
| spoken_address e :
    SkipEncryption c = false → SplitHostPort address = inl e → spoken c address s false [DialError address e]
| spoken_refused host config e e' :
    SkipEncryption c = false → SplitHostPort address = inr host → tls_for c host config →
    spoken c address s false [TlsHandshake s config (Some e); DialError address (TlsError e')]
| spoken_tls host config :
    SkipEncryption c = false → SplitHostPort address = inr host → tls_for c host config →
    spoken c address s true [TlsHandshake s config None; BoltConnect (Encrypted s config)].

Lemma establish_spec (c : Connector) address s (n : net) r n' :
  establish c address s n = Done (r, n') →
  ∃ reached mid, n_events n' = n_events n ++ mid ∧ spoken c address s reached mid ∧
    match r with inr _ => reached = true | inl _ => True end.
Proof.
  unfold connector.establish. destruct (SkipEncryption c) eqn:Hskip.
  { intros ([] & n1 & [= <-] & H)%bind_Done. apply silent_env in H. eexists true, _.
    split; [exact H |]. split; [by apply spoken_plain | by destruct r]. }
  destruct (SplitHostPort address) as [e | host] eqn:Hsplit.
  { intros ([] & n1 & [= <-] & [= <- <-])%bind_Done. eexists false, _. split; [done |]. split; [by apply spoken_address | done]. }
  intros (config & n1 & [E1 Hfor]%tlsConfig_spec & H)%bind_Done.
  apply bind_Done in H as (err & n2 & E2%silent_env & H).
  apply bind_Done in H as ([] & n3 & [= <-] & H). destruct err as [e |].
  - apply bind_Done in H as ([] & n4 & [= <-] & [= <- <-]). eexists false, _.
    split; [simpl; rewrite E2, E1, <- app_assoc; reflexivity |]. split; [by eapply spoken_refused | done].
  - apply bind_Done in H as ([] & n4 & [= <-] & H%silent_env). eexists true, _.
    split; [rewrite H; simpl; rewrite E2, E1, <- app_assoc; reflexivity |].
    split; [by eapply spoken_tls | by destruct r].
Qed.

(** C28. No socket is lost, and none is spoken to in the clear by mistake.  Whatever the
    network, the TLS library and the server do, [Connect] either returns a connection
    over the one socket it was supplied with, or closes that socket, or never had one;
    when encryption is on, the Bolt handshake is begun only over a TLS session with
    the host of the address, of at least TLS 1.2 unless the user chose a version, and
    verified unless the driver was told to trust; and every failure before the Bolt
    handshake is reported to the listener. *)
Theorem sockets_accounted (c : Connector) address (n : net) r n' :
  Connect c address n = Done (r, n') →
  ∃ es, n_events n' = n_events n ++ es ∧
    match r with
    | inr _ => ∃ s mid, es = Supplied s :: mid ∧ spoken c address s true mid
    | inl e => es = [DialError address e] ∨
               ∃ s reached mid, es = Supplied s :: mid ++ [Closed s] ∧ spoken c address s reached mid
    end.
Proof.
  unfold connector.Connect. intros (supplied & n1 & H1 & H)%bind_Done.
  assert (E1 : n_events n1 = n_events n).
  { destruct (SupplyConnection c); [by apply silent_env in H1 | by apply silent_create in H1]. }
  destruct supplied as [e | s].
  { apply bind_Done in H as ([] & n2 & [= <-] & [= <- <-]). eexists. split; [simpl; by rewrite E1 |]. by left. }
  apply bind_Done in H as ([] & n2 & [= <-] & H). apply bind_Done in H as (r' & n3 & H3 & H).
  apply establish_spec in H3 as (reached & mid & E3 & Hsp & Hr). simpl in E3. rewrite E1, <- app_assoc in E3.
  destruct r' as [e | conn].
  - apply bind_Done in H as (x & n4 & E4%silent_env & H). apply bind_Done in H as ([] & n5 & [= <-] & [= <- <-]).
    exists (Supplied s :: mid ++ [Closed s]). split; [simpl; rewrite E4, E3, <- app_assoc; done |]. right. by exists s, reached, mid.
  - injection H as <- <-. eexists. split; [exact E3 |]. subst reached. by exists s, mid.
Qed.
End Facts.

(** ** Examples *)

(** A connector for a server that accepts everything. *)
Definition willing : Connector (O := unit) (R := unit) (Cert := string) :=
  mkConnector false false "tcp" 5 true None None None None.

Lemma sockets_accounted_witness :
  let config := mkTls VersionTLS12 (mkCerts 0 0) "example.com" false tt in
  ∃ es, [Supplied 7; TlsHandshake 7 config None; BoltConnect (Encrypted 7 config)] = [] ++ es ∧
    ∃ s mid, es = Supplied s :: mid ∧ spoken willing "example.com:7687" s true mid.
Proof.
  intros config.
  apply (sockets_accounted (λ _ _ _, mret (inr 7%nat)) (λ _ _, mret None) (λ _, mret (inr "bolt")) (λ _, mret None) tt
           willing "example.com:7687" (mkNet tt [] []) (inr "bolt")
           (mkNet tt [[]] [Supplied 7; TlsHandshake 7 config None; BoltConnect (Encrypted 7 config)])).
  vm_compute. reflexivity.
Defined.

Example hosts_split :
  SplitHostPort "example.com:7687" = inr "example.com" ∧ SplitHostPort "[::1]:7687" = inr "::1" ∧
  SplitHostPort "::1:7687" = inl (addrErr "::1:7687" tooManyColons) ∧
  SplitHostPort "localhost" = inl (addrErr "localhost" missingPort).
Proof. by vm_compute. Qed.

(** A client certificate that is appended to the certificates of the user's TLS
    settings goes into their array when it has room: the settings of an earlier
    connection then show the certificate of a later one. *)
Definition shared : tlsConfig_ unit := mkTls 0 (mkCerts 0 1) "" false tt.

(** The provider hands out [0], then [1], and so on. *)
Definition rotating : Connector (O := Z) (R := unit) (Cert := Z) :=
  mkConnector false false "tcp" 5 true (Some shared) (Some (λ i, Done (Some i, i + 1))) None None.

Definition certificates_of (config : tlsConfig_ unit) (n : net (O := Z) (R := unit) (Cert := Z)) : list (option Z) :=
  take (c_len (Certificates config)) (default [] (n_arrays n !! c_arr (Certificates config))).

Lemma certificates_shared :
  ∃ first n1 second n2,
    tlsConfig tt rotating "a" (mkNet 0 [[Some 9; None]] []) = Done (first, n1) ∧
    tlsConfig tt rotating "b" n1 = Done (second, n2) ∧
    certificates_of first n1 = [Some 9; Some 0] ∧ certificates_of first n2 = [Some 9; Some 1].
Proof. do 4 eexists. by vm_compute. Qed.
End ConnectorFacts.

(** * The mutex *)

Module LockFacts.
Import locks.

(** The channel is full exactly when somebody holds the lock, and nobody else does. *)
Definition exclusive (l : contextLock) : Prop :=
  (ch l = true ↔ ∃ i, callers l i = Holding) ∧
  ∀ i j, callers l i = Holding → callers l j = Holding → i = j.

Lemma TryLock_waits now ctx : TryLock now ctx ≠ Holding.
Proof. unfold TryLock. by repeat case_match. Qed.

(** A caller that moves between phases in which it does not hold the lock changes
    nothing. *)
Lemma move_exclusive i p l :
  callers l i ≠ Holding → p ≠ Holding → exclusive l → exclusive (move i p l).
Proof.
  intros Hi Hp [Hc Hu]. unfold exclusive, move. cbn [ch callers]. split.
  - rewrite Hc. split; intros [j Hj]; exists j; case_decide; congruence.
  - intros j k Hj Hk. repeat case_decide; try congruence. by apply Hu.
Qed.

(** Callers that lock before they unlock exclude one another, and never unlock a lock
    that is not locked. *)
Theorem lock_excludes l :
  reachable l → exclusive l ∧ ∀ i, callers l i = Holding → Unlock i l ≠ Panic.
Proof.
  intros Hr. assert (exclusive l) as Hex.
  { induction Hr as [| l l' Hr IH Hs].
    { split; [split; [done | by intros [i Hi]] | done]. }
    destruct Hs as [i now ctx l Hi | i l Hi Hch | i l Hi | i l l' Hi Hu].
    - apply move_exclusive; [congruence | apply TryLock_waits | done].
    - destruct IH as [Hc Huniq].
      assert (Hnone : ∀ j, callers l j ≠ Holding) by (intros j Hj; rewrite (proj2 Hc) in Hch; [done | by exists j]).
      split; cbn [ch callers move].
      + split; [intros _; exists i; by rewrite decide_True | done].
      + intros j k. repeat case_decide; try congruence; by intros ? ?%Hnone || by intros ?%Hnone.
    - apply move_exclusive; [congruence | done | done].
    - unfold Unlock in Hu. destruct (ch l); [| done]. injection Hu as <-. destruct IH as [Hc Huniq].
      split; cbn [ch callers move].
      + split; [done |]. intros [j Hj]. case_decide; [done |]. destruct (Huniq i j Hi Hj). done.
      + intros j k. repeat case_decide; try done. intros Hj. by destruct (Huniq i j Hi Hj). }
  split; [done |]. intros i Hi. unfold Unlock. destruct Hex as [Hc _]. by rewrite (proj2 Hc) by (by exists i).
Qed.
End LockFacts.
