(* ===== verification/BoltTraces.v ===== *)
(** Connections step by step: what a failed connection answers, what [Next] may
    return, and sequences of calls after which a connection is of no more use. *)

From S2P Require Import Prelude Values Errors Messages Outgoing Bolt BoltLogic BoltSteps BoltServer.
From S2P Require Import BoltFacts BoltStreams BoltLiveness.
#[local] Open Scope Z_scope.
#[local] Open Scope go_scope.

(** * Failed connections, and the results of Next *)

Section Answers.
Context {W Token : Type} `{World W} `{Tokens Token}.
Variable show : error → string.
Variable v : version.
Abbreviation conn := (bolt W Token).

Lemma assertState_err l e (b : conn) : b_err b = Some e → assertState l b = Done (inl e, b).
Proof. intros He. unfold assertState, go_get. by rewrite He. Qed.

(** A failed connection keeps answering with the cause: after an error, [Run],
    [GetRoutingTable] and [RunTx] with the transaction's handle return that error
    and change nothing, in particular send nothing; [TxBegin] does as much apart from forgetting the open
    streams. *)
Theorem failed_reports_cause fuel e cmd cfg ctx bms db user (b : conn) :
  b_err b = Some e → b_state b = Failed →
  Run show v fuel cmd cfg b = Done (inl e, b) ∧
  GetRoutingTable show v fuel ctx bms db user b = Done (inl e, b) ∧
  RunTx show v fuel (b_txId b) cmd b = Done (inl e, b) ∧
  (∀ t w, wnow (b_world b) = Done (t, w) → ∀ sync,
    TxBegin show v fuel cfg sync b =
      Done (inl e, b <| b_world := w |> <| b_streams := mkOpenstreams None 0 t |>)).
Proof.
  intros He Hs. split_and!.
  - unfold Run, mbind, GoM_bind. by rewrite (assertState_err _ e).
  - unfold GetRoutingTable, mbind, GoM_bind. by rewrite (assertState_err _ e).
  - unfold RunTx, run, mbind, GoM_bind, assertTxHandle, go_get. rewrite Z.eqb_refl, Hs.
    unfold mret, GoM_ret. by rewrite (assertState_err _ e).
  - intros t w Hw sync. unfold TxBegin, mbind, GoM_bind, in_state, go_get. rewrite Hs.
    unfold when, mret, GoM_ret. simpl.
    unfold reset_streams, mbind, GoM_bind, do_world. rewrite Hw. unfold on_streams, go_modify.
    change (b_err _) with (b_err b) at 1. by rewrite He.
Qed.

(** A record, or the summary, or an error. *)
Definition exclusive (r : next_result) : Prop :=
  match r with
  | (Some _, None, None) | (None, Some _, None) | (None, None, Some _) => True
  | _ => False
  end.

Lemma bufferedNext_exclusive st rec sum err st' :
  bufferedNext st = ((true, rec, sum, err), st') → exclusive (rec, sum, err).
Proof.
  unfold bufferedNext. destruct (s_fifo st), (s_err st), (s_sum st); intros E; by simplify_eq.
Qed.

Lemma next_loop_exclusive fuel s (b b' : conn) r :
  next_loop show v fuel s b = Done (r, b') → exclusive r.
Proof.
  revert b. induction fuel as [| fuel IH]; intros b E; [done |].
  simpl in E. unfold mbind at 1, GoM_bind at 1 in E.
  destruct (the_stream s b) as [[st b1] | |]; try done.
  destruct (bufferedNext st) as [[[[buf rec] sum] err] st'] eqn:Hbn.
  unfold mbind at 1, GoM_bind at 1 in E.
  destruct (on_stream s _ b1) as [[[] b2] | |]; try done.
  destruct buf.
  { injection E as <- _. by eapply bufferedNext_exclusive. }
  unfold mbind at 1, GoM_bind at 1 in E.
  match type of E with match ?m b2 with _ => _ end = _ =>
    destruct (m b2) as [[[e | []] b3] | |]; try done end.
  { by injection E as <- _. }
  unfold mbind at 1, GoM_bind at 1 in E. destruct (isEmpty b3) as [[[] b4] | |]; try done.
  { by injection E as <- _. }
  unfold mbind at 1, GoM_bind at 1 in E.
  match type of E with match ?m b4 with _ => _ end = _ =>
    destruct (m b4) as [[[e | []] b5] | |]; try done end.
  - by injection E as <- _.
  - by eapply IH.
Qed.

(** What [Next] returns has the shape its contract gives: exactly one of a
    record, the summary and an error, for every handle and in every state of the
    connection. *)
Theorem Next_exclusive fuel h (b b' : conn) r :
  Next show v fuel h b = Done (r, b') → exclusive r.
Proof.
  unfold Next, mbind, GoM_bind, getUnsafe. destruct h as [s |]; simpl.
  - apply next_loop_exclusive.
  - unfold mret, GoM_ret. intros E. by injection E as <- _.
Qed.
End Answers.

(** * Samples *)

Section Samples.
Context {D : Type} `{Server D}.
Abbreviation conn := (bolt (net D) string).

Definition new_conn (d : D) : conn := NewBolt "server" 0 (new_net d).

Definition connect (v : version) (minor : Z) : GoM conn (error + unit) :=
  Connect shown v 10 minor sample_auth "go" None [] no_notifications.

(** Go on with the value of a call that succeeds. *)
Definition and_then {A B} (m : GoM conn (error + A)) (f : A → GoM conn B) : GoM conn (option B) :=
  r ← m; match r with inl _ => mret None | inr a => Some <$> f a end.

(** A transaction, its BEGIN answered before anything else, and a query in it. *)
Definition query_in_tx (v : version) (minor : Z) (sync : bool) : GoM conn (option (error + nat)) :=
  connect v minor;;
  and_then (TxBegin shown v 10 sample_config sync) (λ txh, RunTx shown v 10 txh sample_command).

(** A connection that waits for answers to what it has not sent never stops
    resetting. *)
Lemma reset_blocks v (b : conn) :
  b_state b ∉ [Ready; Dead] → b_handlers b ≠ [] → b_qerr b = None → n_sent (b_world b) = [] →
  ∀ fuel, Reset shown v fuel b = OutOfFuel.
Proof.
  intros Hs Hh Hq Hn fuel. unfold Reset, mbind, GoM_bind, in_state, go_get.
  rewrite bool_decide_false by set_solver. cbn [negb when].
  unfold ForceReset, mbind, GoM_bind, in_state, go_get.
  rewrite bool_decide_false by set_solver.
  destruct fuel as [| fuel]; [done |]. cbn [receiveAll]. unfold mbind, GoM_bind, isEmpty, go_get, go_modify.
  destruct b as [? ? ? ? hs q ? ? ? ? ? ? ? ? ? ? ? ? ? ? ? ? ? ? []]. simpl in *. subst.
  destruct hs; [done |]. unfold receive, receiveMsg, mbind, GoM_bind, go_get, do_world. done.
Qed.
End Samples.

(** A sequence of calls and what holds at its end, by running it. *)
Ltac run_trace := do 2 eexists; split; [vm_compute; reflexivity |]; split_and!; try done.

(** A failure that [Reset] meets among the pending answers is left in place:
    no RESET is sent, the connection stays in its failed state with its error
    forgotten, counts as alive, and refuses the next query. *)
Theorem reset_keeps_failure :
  ∃ r b,
    (query_in_tx V5 4 true;; Reset shown V5 20)
        (new_conn (new_database [([sample_record 1], Some bad_request)])) = Done (r, b) ∧
    b_state b = Failed ∧ IsAlive b = true ∧ b_err b = None ∧
    n_unsent (b_world b) = [] ∧ n_sent (b_world b) = [] ∧
    d_failed (n_server (b_world b)) = true ∧
    Run shown V5 10 sample_command sample_config b =
      Done (inl (ErrorString "invalid state 4, expected: [1 0]"), b).
Proof. run_trace. Qed.

(** [TxBegin] without synchronisation leaves BEGIN unsent, and [Reset] then
    waits for its answer for ever: no RESET is sent and no time is enough. *)
Theorem unsent_begin_blocks_reset :
  ∃ r b,
    (connect V5 4;; TxBegin shown V5 10 sample_config false) (new_conn (new_database [])) = Done (r, b) ∧
    r = inr 1 ∧ b_state b = Tx ∧ b_handlers b = [beginHandler] ∧
    length (n_unsent (b_world b)) = 1%nat ∧
    ∀ fuel, Reset shown V5 fuel b = OutOfFuel.
Proof.
  run_trace.
  apply (reset_blocks V5); [vm_compute; set_solver | done..].
Qed.

(** In bolt6.go a parameter that does not pack takes the unsent BEGIN with
    it: the message is dropped and the handler removed is the one of BEGIN, so
    that the handler of RUN stays, waiting for an answer to nothing, and [Reset]
    does not return. *)
Theorem pack_error_takes_begin :
  ∃ r b,
    query_in_tx V6 0 false (new_conn (mkUnsupporting (new_database []))) = Done (r, b) ∧
    r = Some (inl (FeatureNotSupportedError "server" "UUID type" "requires at least Bolt 6.1")) ∧
    b_state b = Failed ∧ b_handlers b = [runHandler 0] ∧
    n_unsent (b_world b) = [] ∧ n_sent (b_world b) = [] ∧
    ∀ fuel, Reset shown V6 fuel b = OutOfFuel.
Proof.
  run_trace.
  apply (reset_blocks V6); [vm_compute; set_solver | done..].
Qed.

(** Two results of a transaction, of four and three records. *)
Definition two_results {D} `{Server D} : GoM (bolt (net D) string) (option (option (nat * nat))) :=
  connect V5 4;;
  and_then (TxBegin shown V5 10 sample_config true) (λ txh,
    r1 ← RunTx shown V5 10 txh sample_command;
    r2 ← RunTx shown V5 10 txh sample_command;
    mret (match r1, r2 with inr s1, inr s2 => Some (s1, s2) | _, _ => None end)).

(** Three records of the first, then the rest of it is discarded. *)
Definition read_and_consume {D} `{Server D} :
    GoM (bolt (net D) string) (option (list next_result * (option Summary_ * option error))) :=
  o ← two_results;
  match o with
  | Some (Some (s1, _)) =>
      n1 ← Next shown V5 10 (Some s1);
      n2 ← Next shown V5 10 (Some s1);
      n3 ← Next shown V5 10 (Some s1);
      c ← Consume shown V5 10 (Some s1);
      mret (Some ([n1; n2; n3], c))
  | _ => mret None
  end.

(** [Consume] of a result that is not the current one may pull it after its
    end: pausing the current result reads all pending answers, the last of the
    other result among them, which is not noticed; the server refuses the PULL, and
    a transaction that did nothing wrong has failed. *)
Theorem consume_pulls_finished :
  ∃ r b,
    read_and_consume (new_conn (new_database
      [(sample_record <$> [1; 2; 3; 4], None); (sample_record <$> [5; 6; 7], None)])) = Done (r, b) ∧
    r = Some ((λ i, (Some (mkRecord [VInt i] ["x"]), None, None)) <$> [1; 2; 3],
              (None, Some (Neo4jErr bad_request))) ∧
    b_state b = Failed ∧ b_err b = Some (Neo4jErr bad_request).
Proof. run_trace. Qed.

(** After [ResetAuth] every [ReAuth] sends LOGOFF and LOGON again, with the same
    token too: nothing clears the mark. *)
Theorem reauth_repeats :
  ∃ r b,
    (connect V5 4;; ResetAuth;; ReAuth shown V5 10 sample_auth;; ReAuth shown V5 10 sample_auth)
      (new_conn (new_database [])) = Done (r, b) ∧
    (n_sent (b_world b)).*1 =
      [RLogoff; RLogon (entries "basic"); RLogoff; RLogon (entries "basic")] ∧
    b_resetAuth b = true.
Proof. run_trace. Qed.

(** * Witnesses *)

(** Packing never reports a missing feature to a server with all of them. *)
Lemma database_packs r (w : net database) es w' :
  wpack r w = Done (es, w') → Forall (λ e, is_feature_error e = false) es.
Proof. simpl. unfold net_pack. simpl. intros E. injection E as <- _. constructor. Qed.

(** A connection to version 6.1, and one in the middle of a result. *)
Definition after {D} `{Server D} (m : GoM (bolt (net D) string) unit) (b : bolt (net D) string) :
    bolt (net D) string :=
  match m b with Done (_, b') => b' | _ => b end.

Definition fresh_conn : bolt (net database) string :=
  new_conn (new_database [(sample_record <$> [1; 2; 3], None)]).

Definition connect_call : call string := CConnect 1 sample_auth "go" None [] no_notifications.
Definition run_call : call string := CRun sample_command sample_config.

Definition connected_conn : bolt (net database) string :=
  Eval vm_compute in after (perform shown V6 10 connect_call) fresh_conn.
Definition streaming_conn : bolt (net database) string :=
  Eval vm_compute in after (perform shown V6 10 run_call) connected_conn.

Lemma connected_reachable : reachable shown V6 connected_conn.
Proof.
  apply (reach_call shown V6 10 connect_call fresh_conn); [by apply reach_new | done | done |].
  vm_compute. reflexivity.
Qed.

Lemma streaming_reachable : reachable shown V6 streaming_conn.
Proof.
  apply (reach_call shown V6 10 run_call connected_conn);
    [exact connected_reachable | done | done |].
  vm_compute. reflexivity.
Qed.

Lemma failed_reports_cause_witness :
  ∃ b : bolt (net database) string, b_err b = Some EOF ∧ b_state b = Failed ∧
  Run shown V6 10 sample_command sample_config b = Done (inl EOF, b).
Proof.
  set (b := streaming_conn <| b_err := Some EOF |> <| b_state := Failed |>).
  exists b. split_and!; [done | done |].
  apply (failed_reports_cause shown V6 10 EOF sample_command sample_config [] [] "" "" b); done.
Defined.

Lemma responses_matched_witness : matched streaming_conn.
Proof.
  apply (responses_matched shown V6); [| exact streaming_reachable | done].
  intros _. apply database_packs.
Defined.

Lemma calls_do_not_panic_witness : perform shown V6 10 (CConsume (Some 0%nat)) streaming_conn ≠ Panic.
Proof.
  apply (calls_do_not_panic shown V6); [| exact streaming_reachable | done | intros s [= <-]; vm_compute; lia | done].
  intros _. apply database_packs.
Defined.

Lemma records_delivered_witness :
  ∃ s b1 sum b2,
    Run shown V6 10 sample_command sample_config connected_conn = Done (inr s, b1) ∧
    drain shown V6 (length (sample_record <$> [1; 2; 3])) 11 s b1 =
      Done ((λ r, r <| rec_Keys := fields_of_results |>) <$> (sample_record <$> [1; 2; 3]),
            (Some sum, None), b2) ∧
    sum_Bookmark (su_success sum) = "bm" ∧
    b_state b2 = Ready ∧ b_handlers b2 = [] ∧ b_bookmark b2 = "bm".
Proof.
  apply (records_delivered shown V6 8 sample_command sample_config (sample_record <$> [1; 2; 3])
    connected_conn); [| done | done].
  constructor; try done. by eexists.
Defined.

Lemma Next_exclusive_witness :
  ∃ r b, Next shown V6 10 (Some 0%nat) streaming_conn = Done (r, b) ∧ exclusive r.
Proof.
  eexists _, _. split; [vm_compute; reflexivity |].
  eapply (Next_exclusive shown V6 10 (Some 0%nat) streaming_conn). vm_compute. reflexivity.
Defined.

Lemma reset_returns_witness :
  ∃ b', Reset shown V6 10 streaming_conn = Done (tt, b') ∧ resets streaming_conn b' ∧
    b_err b' = None ∧ b_txId b' = 0 ∧ o_curr (b_streams b') = None.
Proof.
  apply (reset_returns shown V6).
  - intros _. apply database_packs.
  - exact streaming_reachable.
  - done.
  - done.
  - vm_compute. lia.
Defined.
