(* ===== verification/Connection.v ===== *)
(** The interface of connections, internal/db/connection.go, which the rest of the
    driver is written against; its implementations bolt4.go, bolt5.go and bolt6.go.
    What the three have in common is in [Bolt]; what a file has for itself is
    written out here and shown to be the same. *)

From S2P Require Import Prelude Values Errors Messages Outgoing Bolt BoltTraces.
#[local] Open Scope Z_scope.
#[local] Open Scope go_scope.

(** * The interface *)

Module idb.

(** What sessions, transactions and results call; [C] is the state of the
    connection.  A stream handle is [None] if it is nil. *)
Class Connection (C : Type) : Type := {
  TxBegin : TxConfig → bool → GoM C (error + Z);
  TxRollback : Z → GoM C (error + unit);
  TxCommit : Z → GoM C (error + unit);
  Run : Command → TxConfig → GoM C (error + nat);
  RunTx : Z → Command → GoM C (error + nat);
  Keys : option nat → GoM C (error + list string);
  Next : option nat → GoM C next_result;
  Consume : option nat → GoM C (option Summary_ * option error);
  Buffer : option nat → GoM C (option error);
  Bookmark : C → string;
  ServerName : C → string;
  ServerVersion : C → string;
  IsAlive : C → bool;
  HasFailed : C → bool;
  Birthdate : C → Z;
  IdleDate : C → Z;
  Reset : GoM C unit;
  ForceReset : GoM C unit;
  Close : GoM C unit;
  GetRoutingTable : gomap string → list string → string → string →
    GoM C (error + option RoutingTable);
  Version : C → ProtocolVersion;
  ResetAuth : GoM C unit;
  Telemetry : Z → bool → GoM C unit;
  SetPinHomeDatabaseCallback : bool → GoM C unit;
  IsSsrEnabled : C → bool;
  SelectDatabase : string → GoM C unit;
  (** the calls of the callbacks above since the last look, and the connection
      without them *)
  Callbacks : C → list callback * C
}.

(** What [Next] promises in its comment. *)
Class Lawful (C : Type) `{Connection C} : Prop := {
  Next_one_of : ∀ h c r c', Next h c = Done (r, c') → exclusive r
}.
End idb.

(** The connections of a version, all waits bounded by [fuel]; [calls] takes the
    calls of callbacks from the world. *)
Definition connection {W Token} `{World W} `{Tokens Token} (show : error → string) (v : version)
    (fuel : nat) (calls : W → list callback * W) : idb.Connection (bolt W Token) := {|
  idb.TxBegin := TxBegin show v fuel;
  idb.TxRollback := TxRollback show v fuel;
  idb.TxCommit := TxCommit show v fuel;
  idb.Run := Run show v fuel;
  idb.RunTx := RunTx show v fuel;
  idb.Keys := Keys;
  idb.Next := Next show v fuel;
  idb.Consume := Consume show v fuel;
  idb.Buffer := Buffer show v fuel;
  idb.Bookmark := b_bookmark;
  idb.ServerName := b_serverName;
  idb.ServerVersion := b_serverVersion;
  idb.IsAlive := IsAlive;
  idb.HasFailed := HasFailed;
  idb.Birthdate := b_birthDate;
  idb.IdleDate := b_idleDate;
  idb.Reset := Reset show v fuel;
  idb.ForceReset := ForceReset show v fuel;
  idb.Close := Close show v;
  idb.GetRoutingTable := GetRoutingTable show v fuel;
  idb.Version := Version v;
  idb.ResetAuth := ResetAuth;
  idb.Telemetry := Telemetry show v;
  idb.SetPinHomeDatabaseCallback := SetPinHomeDatabaseCallback v;
  idb.IsSsrEnabled := IsSsrEnabled v;
  idb.SelectDatabase := SelectDatabase;
  idb.Callbacks := λ b, let '(cs, w) := calls (b_world b) in (cs, b <| b_world := w |>)
|}.

Lemma connection_lawful {W Token} `{World W} `{Tokens Token} show v fuel calls :
  @idb.Lawful (bolt W Token) (connection show v fuel calls).
Proof.
  constructor. intros h c r c'. simpl. unfold Next, mbind, GoM_bind, getUnsafe, mret, GoM_ret.
  destruct h as [s |]; [apply next_loop_exclusive |]. intros E. by injection E as <- _.
Qed.

(** Programs that differ in the nesting of their steps. *)
Lemma bind_ext {S A B} (m : GoM S A) (k k' : A → GoM S B) s :
  (∀ a s, k a s = k' a s) → (m ≫= k) s = (m ≫= k') s.
Proof. intros Hk. unfold mbind, GoM_bind. destruct (m s) as [[a s'] | |]; [apply Hk | done..]. Qed.

Lemma bind_assoc {S A B C} (m : GoM S A) (k : A → GoM S B) (h : B → GoM S C) s :
  ((m ≫= k) ≫= h) s = (m ≫= λ a, k a ≫= h) s.
Proof. unfold mbind, GoM_bind. by destruct (m s) as [[a s'] | |]. Qed.

Lemma bind_eq {S A B} (m : GoM S A) (k : A → GoM S B) s a s1 :
  m s = Done (a, s1) → (m ≫= k) s = k a s1.
Proof. intros Em. unfold mbind, GoM_bind. by rewrite Em. Qed.

Lemma bind_get {S A B} (f : S → A) (k : A → GoM S B) s : (go_get f ≫= k) s = k (f s) s.
Proof. done. Qed.

Lemma bind_ret {S A B} (a : A) (k : A → GoM S B) s : (mret a ≫= k) s = k a s.
Proof. done. Qed.

Lemma bind_tt {S} (m : GoM S unit) s : (m;; mret tt) s = m s.
Proof. unfold mbind, GoM_bind. by destruct (m s) as [[[] s'] | |]. Qed.

(** One step that both programs have; after an error both stop. *)
Ltac same_step :=
  apply bind_ext; let a := fresh "a" in let s := fresh "s" in intros a s;
  repeat match goal with
  | x : _ + unit |- _ => destruct x as [? | []]
  | x : unit |- _ => destruct x
  end;
  try reflexivity.
Ltac nested_step := rewrite ?bind_assoc; same_step.

(** * Version 4 *)

Module bolt4.
Section bolt4.
Context {W Token : Type} `{World W} `{Tokens Token}.
Variable show : error → string.
Abbreviation conn := (bolt W Token).
Abbreviation B := (GoM conn).

Definition setError : error → bool → B unit := Bolt.setError show.
Definition checkStreams : B unit := Bolt.checkStreams.
Definition assertTxHandle : Z → B (error + unit) := Bolt.assertTxHandle.
Definition assertState : list conn_state → B (error + unit) := Bolt.assertState.
Definition TxBegin : nat → TxConfig → bool → B (error + Z) := Bolt.TxBegin show V4.
Definition TxCommit : nat → Z → B (error + unit) := Bolt.TxCommit show V4.
Definition TxRollback : nat → Z → B (error + unit) := Bolt.TxRollback show V4.
Definition discardStream : nat → B unit := Bolt.discardStream show V4.
Definition discardAllStreams : nat → B unit := Bolt.discardAllStreams show V4.
Definition appendPullN : nat → B unit := Bolt.appendPullN show V4.
Definition bufferStream : nat → B unit := Bolt.bufferStream show V4.
Definition pauseStream : nat → B unit := Bolt.pauseStream show V4.
Definition resumeStream : nat → B unit := Bolt.resumeStream show V4.
Definition Run : nat → Command → TxConfig → B (error + nat) := Bolt.Run show V4.
Definition RunTx : nat → Z → Command → B (error + nat) := Bolt.RunTx show V4.
Definition Keys : option nat → B (error + list string) := Bolt.Keys.
Definition Next : nat → option nat → B next_result := Bolt.Next show V4.
Definition Consume : nat → option nat → B (option Summary_ * option error) := Bolt.Consume show V4.
Definition Buffer : nat → option nat → B (option error) := Bolt.Buffer show V4.
Definition IsAlive : conn → bool := Bolt.IsAlive.
Definition HasFailed : conn → bool := Bolt.HasFailed.
Definition Reset : nat → B unit := Bolt.Reset show V4.
Definition ForceReset : nat → B unit := Bolt.ForceReset show V4.
Definition SelectDatabase : string → B unit := Bolt.SelectDatabase.
Definition ResetAuth : B unit := Bolt.ResetAuth.
Definition Version : conn → ProtocolVersion := Bolt.Version V4.
Definition onIoError : error → B unit := Bolt.onIoError show.
Definition onNextMessage : B unit := Bolt.onNextMessage.
Definition onSuccess : responseHandler → success → B unit := Bolt.onSuccess V4.
Definition onRecord : responseHandler → option (Record_ → B unit) := Bolt.onRecord.
Definition onIgnored : responseHandler → option (B unit) := Bolt.onIgnored.
Definition onFailure : responseHandler → Neo4jError → B Neo4jError := Bolt.onFailure show V4.
Definition initializeReadTimeoutHint : gomap value → B unit := Bolt.initializeReadTimeoutHint.
Definition extractSummary : success → stream → B Summary_ := Bolt.extractSummary V4.

(** Without the notification settings of later versions. *)
Definition toMeta (i : internalTx) : gomap goval :=
  let meta : gomap goval := [] in
  let meta := match itx_mode i with ReadMode => map_set "mode" (GString "r") meta | WriteMode => meta end in
  let meta := match itx_bookmarks i with [] => meta | l => map_set "bookmarks" (GStrings l) meta end in
  let ms := timeout_ms (itx_timeout i) in
  let meta := if 0 <? ms then map_set "tx_timeout" (GInt ms) meta else meta in
  let meta := match itx_txMeta i with [] => meta | m => map_set "tx_metadata" (GAnyMap m) meta end in
  let meta := if decide (itx_databaseName i = DefaultDatabase) then meta
              else map_set "db" (GString (itx_databaseName i)) meta in
  if decide (itx_impersonatedUser i = "") then meta
  else map_set "imp_user" (GString (itx_impersonatedUser i)) meta.

Definition Connect (minor : Z) (auth : ReAuthToken Token) (userAgent : string)
    (routingContext : option (gomap string)) (notificationConfig : NotificationConfig) :
    B (error + unit) :=
  assertState [Unauthorized] ;?
  go_modify (λ b, b <| b_minor := minor |>);;
  checkReAuth V4 auth ;?
  let hello := [("user_agent", GString userAgent)] in
  let hello := match routingContext with
               | Some c => map_set "routing" (GStringMap c) hello
               | None => hello
               end in
  let checkUtcPatch := 3 <=? minor in
  let hello := if checkUtcPatch then map_set "patch_bolt" (GStrings ["utc"]) hello else hello in
  match GetAuthToken (Manager auth) with
  | inl e => mret (inl e)
  | inr token =>
      go_modify (λ b, b <| b_auth := Some token |>
                        <| b_authManager := Some (manager_id (Manager auth)) |>);;
      let hello := merge_missing (entries token) hello in
      checkNotificationFiltering V4 notificationConfig ;?
      append show V4 (RHello hello) (helloHandler checkUtcPatch);;
      send show;;
      last_err ;?
      receive show V4 ;?
      last_err ;?
      set_state Ready;;
      reset_streams;;
      mret (inr tt)
  end.

Definition checkImpersonationAndVersion (impersonatedUser : string) : B (error + unit) :=
  go_get (λ b,
    if negb (bool_decide (impersonatedUser = "")) && (b_minor b <? 4)
    then inl (FeatureNotSupportedError (b_serverName b) "user impersonation"
                "requires at least server v4.4")
    else inr tt).

Definition run (fuel : nat) (cypher : string) (params : gomap goval) (rawFetchSize : Z)
    (tx : option internalTx) : B (error + nat) :=
  st ← go_get b_state;
  (match st with
   | Streaming => bufferStream fuel;; last_err
   | StreamingTx => pauseStream fuel;; last_err
   | _ => mret (inr tt)
   end) ;?
  assertState [Tx; Ready; StreamingTx] ;?
  let fetchSize := normalizeFetchSize rawFetchSize in
  s ← alloc_stream fetchSize;
  append show V4 (RRun cypher params (default [] (toMeta <$> tx))) (runHandler s);;
  append show V4 (RPullN fetchSize) (pullHandler s);;
  send show;;
  last_err ;?
  receive show V4 ;?
  last_err ;?
  st ← go_get b_state;
  set_state (match st with Ready => Streaming | _ => StreamingTx end);;
  mret (inr s).

Definition callGetRoutingTable : nat → gomap string → list string → string →
    B (error + option RoutingTable) :=
  Bolt.callGetRoutingTable show V4.

Definition GetRoutingTable (fuel : nat) (routingContext : gomap string) (bookmarks : list string)
    (database impersonatedUser : string) : B (error + option RoutingTable) :=
  assertState [Ready] ;?
  minor ← go_get b_minor;
  if 3 <? minor then
    request_table show V4 fuel
      (RRoute routingContext bookmarks (route_extras database impersonatedUser))
  else
    checkImpersonationAndVersion impersonatedUser ;?
    if 2 <? minor then
      t ←? request_table show V4 fuel (RRouteV43 routingContext bookmarks database);
      t ← go_lift t;
      mret (inr (Some (set_database t database)))
    else callGetRoutingTable fuel routingContext bookmarks database.

Definition Close : B unit :=
  dead ← in_state [Dead];
  when (negb dead) (pack show V4 RGoodbye;; send show);;
  do_world wclose;;
  set_state Dead.

Definition ReAuth (auth : ReAuthToken Token) : B (error + unit) :=
  checkReAuth V4 auth ;?
  b ← go_get id;
  if b_resetAuth b then Close;; mret (inr tt)
  else
    match GetAuthToken (Manager auth) with
    | inl e => mret (inl e)
    | inr token =>
        when (negb (bool_decide (b_auth b = Some token))) Close;;
        mret (inr tt)
    end.

(** TELEMETRY is not supported; whoever waits for its success is told at once. *)
Definition Telemetry (api : Z) (onSuccess : bool) : B unit :=
  when onSuccess (do_world (wcall TelemetrySucceeded)).

Definition SetPinHomeDatabaseCallback (callback : bool) : B unit := mret tt.
Definition IsSsrEnabled (b : conn) : bool := false.

Definition onHelloSuccess (checkUtcPatch : bool) (m : success) : B unit :=
  when checkUtcPatch (do_world (wuseUtc (bool_decide ("utc" ∈ patches m))));;
  go_modify (λ b, b <| b_connId := connectionId m |> <| b_serverVersion := server m |>);;
  initializeReadTimeoutHint (configurationHints m).

Definition runResponseHandler (s : nat) (m : success) : B unit :=
  on_stream s (λ st, st <| s_keys := fields m |> <| s_qid := qid m |> <| s_tfirst := tfirst m |>);;
  when (-1 <? qid m) (go_modify (λ b, b <| b_lastQid := qid m |>));;
  attach s.

(** What is written out here is what [Bolt] does for version 4. *)
Lemma bolt4_generic (b : conn) :
  (∀ version i, toMeta i = Bolt.toMeta V4 version i) ∧
  (∀ u, checkImpersonationAndVersion u b = Bolt.checkImpersonationAndVersion V4 u b) ∧
  (∀ s m, runResponseHandler s m b = Bolt.onRunSuccess V4 s m b) ∧
  (∀ a m, onHelloSuccess a m b = Bolt.onHelloSuccess V4 a m b) ∧
  (∀ api s, Telemetry api s b = Bolt.Telemetry show V4 api s b) ∧
  Close b = Bolt.Close show V4 b ∧
  (∀ fuel auth, ReAuth auth b = Bolt.ReAuth show V4 fuel auth b) ∧
  (∀ fuel minor auth ua rc agent n,
    Connect minor auth ua rc n b = Bolt.Connect show V4 fuel minor auth ua rc agent n b) ∧
  (∀ fuel c p n tx, run fuel c p n tx b = Bolt.run show V4 fuel c p n tx b) ∧
  (∀ fuel ctx bms db user,
    GetRoutingTable fuel ctx bms db user b = Bolt.GetRoutingTable show V4 fuel ctx bms db user b).
Proof.
  split_and!; intros; try reflexivity.
  - unfold onHelloSuccess, Bolt.onHelloSuccess. do 2 same_step. by rewrite bind_tt.
  - unfold run, Bolt.run. do 4 same_step. unfold run_stream.
    rewrite bind_assoc, bind_get. nested_step. cbn [after_append_run].
    rewrite bind_assoc, bind_ret. do 5 nested_step. rewrite bind_get.
    unfold start_streaming. rewrite ?bind_assoc, bind_get. by destruct (b_state _).
  - unfold GetRoutingTable, Bolt.GetRoutingTable. do 2 same_step.
    case_decide as Hm; destruct (Z.ltb_spec 3 a); [lia | reflexivity | reflexivity | destruct Hm; split; [done | lia]].
Qed.
End bolt4.
End bolt4.

(** * Version 6 *)

Module bolt6.
Section bolt6.
Context {W Token : Type} `{World W} `{Tokens Token}.
Variable show : error → string.
Abbreviation conn := (bolt W Token).
Abbreviation B := (GoM conn).

Definition setError : error → bool → B unit := Bolt.setError show.
Definition checkStreams : B unit := Bolt.checkStreams.
Definition assertTxHandle : Z → B (error + unit) := Bolt.assertTxHandle.
Definition assertState : list conn_state → B (error + unit) := Bolt.assertState.
Definition TxBegin : nat → TxConfig → bool → B (error + Z) := Bolt.TxBegin show V6.
Definition TxCommit : nat → Z → B (error + unit) := Bolt.TxCommit show V6.
Definition TxRollback : nat → Z → B (error + unit) := Bolt.TxRollback show V6.
Definition discardStream : nat → B unit := Bolt.discardStream show V6.
Definition discardAllStreams : nat → B unit := Bolt.discardAllStreams show V6.
Definition appendPullN : nat → B unit := Bolt.appendPullN show V6.
Definition bufferStream : nat → B unit := Bolt.bufferStream show V6.
Definition pauseStream : nat → B unit := Bolt.pauseStream show V6.
Definition resumeStream : nat → B unit := Bolt.resumeStream show V6.
Definition Run : nat → Command → TxConfig → B (error + nat) := Bolt.Run show V6.
Definition RunTx : nat → Z → Command → B (error + nat) := Bolt.RunTx show V6.
Definition Keys : option nat → B (error + list string) := Bolt.Keys.
Definition Next : nat → option nat → B next_result := Bolt.Next show V6.
Definition Consume : nat → option nat → B (option Summary_ * option error) := Bolt.Consume show V6.
Definition Buffer : nat → option nat → B (option error) := Bolt.Buffer show V6.
Definition IsAlive : conn → bool := Bolt.IsAlive.
Definition HasFailed : conn → bool := Bolt.HasFailed.
Definition Reset : nat → B unit := Bolt.Reset show V6.
Definition ForceReset : nat → B unit := Bolt.ForceReset show V6.
Definition SelectDatabase : string → B unit := Bolt.SelectDatabase.
Definition ResetAuth : B unit := Bolt.ResetAuth.
Definition Version : conn → ProtocolVersion := Bolt.Version V6.
Definition onIoError : error → B unit := Bolt.onIoError show.
Definition onNextMessage : B unit := Bolt.onNextMessage.
Definition onSuccess : responseHandler → success → B unit := Bolt.onSuccess V6.
Definition onRecord : responseHandler → option (Record_ → B unit) := Bolt.onRecord.
Definition onIgnored : responseHandler → option (B unit) := Bolt.onIgnored.
Definition onFailure : responseHandler → Neo4jError → B Neo4jError := Bolt.onFailure show V6.
Definition initializeReadTimeoutHint : gomap value → B unit := Bolt.initializeReadTimeoutHint.
Definition extractSummary : success → stream → B Summary_ := Bolt.extractSummary V6.
Definition GetRoutingTable : nat → gomap string → list string → string → string →
    B (error + option RoutingTable) := Bolt.GetRoutingTable show V6.
Definition Close : B unit := Bolt.Close show V6.
Definition SetPinHomeDatabaseCallback : bool → B unit := Bolt.SetPinHomeDatabaseCallback V6.
Definition IsSsrEnabled : conn → bool := Bolt.IsSsrEnabled V6.
Definition toMeta : ProtocolVersion → internalTx → gomap goval := Bolt.toMeta V6.
Definition initializeTelemetryEnabledHint : gomap value → B unit :=
  Bolt.initializeTelemetryEnabledHint.
Definition initializeSsrEnabledHint : gomap value → B unit := Bolt.initializeSsrEnabledHint.
Definition runResponseHandler : nat → success → B unit := Bolt.onRunSuccess V6.
Definition onHelloSuccess : success → B unit := Bolt.onHelloSuccess V6 false.

Definition onPackErr (e : error) : B unit :=
  name ← go_get b_serverName;
  let e := fillServerName e name in
  let recoverable := is_feature_error e in
  setError e (negb recoverable).

Definition Connect (fuel : nat) (minor : Z) (auth : ReAuthToken Token) (userAgent : string)
    (routingContext : option (gomap string)) (agent : gomap string)
    (notificationConfig : NotificationConfig) : B (error + unit) :=
  assertState [Unauthorized] ;?
  go_modify (λ b, b <| b_minor := minor |>);;
  do_world (wsupportsUuid (1 <=? minor));;
  checkReAuth V6 auth ;?
  match GetAuthToken (Manager auth) with
  | inl e => mret (inl e)
  | inr token =>
      go_modify (λ b, b <| b_auth := Some token |>
                        <| b_authManager := Some (manager_id (Manager auth)) |>);;
      checkNotificationFiltering V6 notificationConfig ;?
      let hello := [("user_agent", GString userAgent)] in
      let hello := match routingContext with
                   | Some c => map_set "routing" (GStringMap c) hello
                   | None => hello
                   end in
      let hello := map_set "bolt_agent" (GStringMap agent) hello in
      let hello := ToMeta notificationConfig (mkVersion 6 minor) hello in
      append show V6 (RHello hello) (helloHandler false);;
      append show V6 (RLogon (entries token)) logonHandler;;
      send show;;
      last_err ;?
      receiveAll show V6 fuel ;?
      last_err ;?
      set_state Ready;;
      reset_streams;;
      mret (inr tt)
  end.

Definition run (fuel : nat) (cypher : string) (params : gomap goval) (rawFetchSize : Z)
    (tx : option internalTx) : B (error + nat) :=
  st ← go_get b_state;
  (match st with
   | Streaming => bufferStream fuel;; last_err
   | StreamingTx => pauseStream fuel;; last_err
   | _ => mret (inr tt)
   end) ;?
  assertState [Tx; Ready; StreamingTx] ;?
  let fetchSize := normalizeFetchSize rawFetchSize in
  s ← alloc_stream fetchSize;
  b ← go_get id;
  append show V6 (RRun cypher params (default [] (toMeta (Version b) <$> tx))) (runHandler s);;
  e ← has_err;
  if e : bool then
    do_world wdrop;;
    pop;;
    last_err ;?
    mret (inr s)
  else
    append show V6 (RPullN fetchSize) (pullHandler s);;
    send show;;
    last_err ;?
    await_attached show V6 fuel s ;?
    st ← go_get b_state;
    (match st with
     | Ready => set_state Streaming
     | Tx => set_state StreamingTx
     | _ => mret tt
     end);;
    mret (inr s).

Definition ReAuth (fuel : nat) (auth : ReAuthToken Token) : B (error + unit) :=
  Bolt.reAuth show V6 fuel auth.

Definition Telemetry (api : Z) (onSuccess : bool) : B unit :=
  enabled ← go_get b_telemetryEnabled;
  if enabled : bool then append show V6 (RTelemetry api) (telemetryHandler onSuccess)
  else when onSuccess (do_world (wcall TelemetrySucceeded)).

(** What is written out here is what [Bolt] does for version 6. *)
Lemma bolt6_generic (b : conn) :
  (∀ e, onPackErr e b = Bolt.onPackErr show V6 e b) ∧
  (∀ fuel minor auth ua rc agent n,
    Connect fuel minor auth ua rc agent n b = Bolt.Connect show V6 fuel minor auth ua rc agent n b) ∧
  (∀ fuel auth, ReAuth fuel auth b = Bolt.ReAuth show V6 fuel auth b) ∧
  (∀ api s, Telemetry api s b = Bolt.Telemetry show V6 api s b) ∧
  (∀ fuel c p n tx, run fuel c p n tx b = Bolt.run show V6 fuel c p n tx b).
Proof.
  split_and!; intros; try reflexivity.
  - unfold run, Bolt.run. do 4 same_step. unfold run_stream.
    rewrite bind_assoc, !bind_get. nested_step. unfold after_append_run. rewrite ?bind_assoc.
    unfold has_err. rewrite !bind_get. destruct (b_err _) eqn:He.
    + rewrite ?bind_assoc. unfold do_world, mbind, GoM_bind, pop, last_err, go_get.
      destruct s3; simpl in *; subst. destruct (wdrop _) as [[[] w] | |]; [| done..].
      simpl. by destruct b_handlers.
    + rewrite bind_ret. do 4 nested_step. rewrite ?bind_get.
      unfold start_streaming. rewrite ?bind_assoc, bind_get. by destruct (b_state _).
Qed.
End bolt6.
End bolt6.
