(* ===== verification/HandshakeFacts.v ===== *)
(** What the negotiation guarantees: the best common version is chosen, integers are
    read as they are written, and the manifest handshake with a server that follows
    it ends with both sides at that version. *)

From S2P Require Import Prelude GoTime Values Errors Outgoing Messages Chunking ChunkingFacts.
From S2P Require Import Bolt BoltServer BoltWire.
From S2P Require Import Connection Handshake.
From stdpp Require Import sorting.
Import handshake.
#[local] Open Scope Z_scope.
#[local] Open Scope go_scope.

(** * The best common version *)

(** Versions by major, then minor. *)
Definition version_le (p q : Z * Z) : Prop := p.1 < q.1 ∨ (p.1 = q.1 ∧ p.2 <= q.2).

(** The versions of a range. *)
Definition covers (o : protocolVersion) (p : Z * Z) : Prop :=
  p.1 = major o ∧ minor o - back o <= p.2 <= minor o.

(** A range that does not reach below 0, in bytes. *)
Definition range_ok (o : protocolVersion) : Prop := 0 <= back o <= minor o ∧ minor o < 256.

Definition spoken (p : Z * Z) : Prop := ∃ c, c ∈ supportedVersions ∧ covers c p.
Definition offered (offers : list protocolVersion) (p : Z * Z) : Prop := ∃ o, o ∈ offers ∧ covers o p.

Lemma in_offer_covers maj v o : range_ok o → 0 <= v < 256 → in_offer maj v o = true ↔ covers o (maj, v).
Proof.
  intros [Hb Hm] Hv. unfold in_offer, covers. simpl. rewrite !uwrap_small by (unfold unsigned; lia).
  rewrite !andb_true_iff, Z.eqb_eq, !Z.leb_le. lia.
Qed.

Lemma offered_exists offers maj v :
  Forall range_ok offers → 0 <= v < 256 → existsb (in_offer maj v) offers = true ↔ offered offers (maj, v).
Proof.
  intros Ho Hv. rewrite existsb_exists. split.
  - intros (o & Hin & Hc). exists o. rewrite list_elem_of_In. split; [done |].
    rewrite <- list_elem_of_In in Hin. rewrite Forall_forall in Ho. apply in_offer_covers; auto.
  - intros (o & Hin & Hc). exists o. rewrite <- list_elem_of_In. split; [done |].
    rewrite Forall_forall in Ho. apply in_offer_covers; auto.
Qed.

Lemma first_minor_spec offers maj n v :
  Forall range_ok offers → v < 256 → Z.of_nat n <= v + 1 →
  match first_minor (minors n v) maj offers with
  | Some p => major p = maj ∧ v - Z.of_nat n < minor p <= v ∧ offered offers (maj, minor p) ∧
      ∀ u, minor p < u <= v → ¬ offered offers (maj, u)
  | None => ∀ u, v - Z.of_nat n < u <= v → ¬ offered offers (maj, u)
  end.
Proof.
  intros Ho. revert v. induction n as [| n IH]; intros v Hv Hn; simpl; [lia |].
  destruct (existsb (in_offer maj v) offers) eqn:Ev.
  - apply offered_exists in Ev; [| done | lia]. simpl. rewrite uwrap_small by (unfold unsigned; lia).
    split_and!; try done; lia.
  - assert (Hno : ¬ offered offers (maj, v)).
    { intros Hc. apply (offered_exists offers maj v Ho) in Hc; [congruence | lia]. }
    specialize (IH (v - 1) ltac:(lia) ltac:(lia)).
    destruct (first_minor (minors n (v - 1)) maj offers) as [p |].
    + destruct IH as (H1 & H2 & H3 & H4). split_and!; try done; try lia.
      intros u Hu. destruct (decide (u = v)) as [-> |]; [done | apply H4; lia].
    + intros u Hu. destruct (decide (u = v)) as [-> |]; [done | apply IH; lia].
Qed.

(** The candidates come in descending order of their major versions. *)
Lemma first_candidate_spec offers cs :
  Forall range_ok offers → Forall range_ok cs →
  StronglySorted (λ a b, major b < major a) cs →
  match first_candidate cs offers with
  | Some p => (∃ c, c ∈ cs ∧ covers c (major p, minor p)) ∧ offered offers (major p, minor p) ∧
      ∀ q, (∃ c, c ∈ cs ∧ covers c q) → offered offers q → version_le q (major p, minor p)
  | None => ∀ q, (∃ c, c ∈ cs ∧ covers c q) → ¬ offered offers q
  end.
Proof.
  intros Ho Hcs Hs. induction Hs as [| c cs Hs IH Hlt]; simpl; [set_solver |].
  apply Forall_cons in Hcs as [Hc Hcs]. specialize (IH Hcs). destruct Hc as [Hb Hm].
  assert (Hn : Z.of_nat (Z.to_nat (back c + 1)) = back c + 1) by lia.
  pose proof (first_minor_spec offers (major c) (Z.to_nat (back c + 1)) (minor c) Ho Hm ltac:(lia)) as Hf.
  rewrite Hn in Hf. destruct (first_minor _ _ _) as [p |].
  - destruct Hf as (F1 & F2 & F3 & F4). rewrite F1. split_and!; [| done |].
    + exists c. split; [left |]. unfold covers. simpl. lia.
    + intros [a b] (c' & Hin & [Hc1 Hc2]) Hq. unfold version_le. simpl in *.
      apply elem_of_cons in Hin as [-> | Hin].
      * right. subst a. split; [done |]. destruct (decide (b <= minor p)); [done |].
        exfalso. apply (F4 b); [lia | done].
      * left. rewrite Forall_forall in Hlt. specialize (Hlt c' Hin). simpl in Hlt. lia.
  - destruct (first_candidate cs offers) as [p |].
    + destruct IH as ((c' & Hin & Hc') & Hp & Hmax). split_and!; [| done |].
      * exists c'. split; [by right | done].
      * intros [a b] (c2 & Hin2 & Hc2) Hq. apply elem_of_cons in Hin2 as [-> | Hin2].
        -- destruct Hc2 as [E1 E2]. simpl in *. subst a. exfalso. apply (Hf b); [lia | done].
        -- apply Hmax; [by exists c2 | done].
    + intros [a b] (c2 & Hin2 & Hc2) Hq. apply elem_of_cons in Hin2 as [-> | Hin2].
      * destruct Hc2 as [E1 E2]. simpl in *. subst a. apply (Hf b); [lia | done].
      * by apply (IH (a, b)); [exists c2 |].
Qed.

Lemma supported_ok : Forall range_ok supportedVersions ∧
  StronglySorted (λ a b, major b < major a) supportedVersions.
Proof. split; repeat constructor; simpl; lia. Qed.

(** The negotiation chooses the best common version: for all ranges a server
    can offer, [selectProtocol] returns a version that both sides speak and that no
    other common version exceeds, and it fails only if there is none. *)
Theorem selectProtocol_best offers :
  Forall range_ok offers →
  match selectProtocol offers with
  | inr p => spoken (major p, minor p) ∧ offered offers (major p, minor p) ∧
      ∀ q, spoken q → offered offers q → version_le q (major p, minor p)
  | inl _ => ∀ q, spoken q → ¬ offered offers q
  end.
Proof.
  intros Ho. destruct supported_ok as [Hr Hs].
  pose proof (first_candidate_spec offers supportedVersions Ho Hr Hs) as Hf.
  unfold selectProtocol. by destruct (first_candidate supportedVersions offers).
Qed.

Lemma selectProtocol_best_witness :
  let offers := [mkVersion 5 4 4; mkVersion 6 3 3; mkVersion 4 4 2] in
  spoken (6, 1) ∧ offered offers (6, 1) ∧ ∀ q, spoken q → offered offers q → version_le q (6, 1).
Proof.
  intros offers. apply (selectProtocol_best offers). repeat constructor; simpl; lia.
Defined.

(** * Variable-length integers *)

Lemma PutUvarint_some n x :
  0 <= x < 2 ^ (7 * Z.of_nat n) → (0 < n)%nat → is_Some (PutUvarint n x).
Proof.
  revert x. induction n as [| n IH]; intros x Hx Hn; [lia |]. cbn [PutUvarint].
  destruct (Z.leb_spec 0x80 x); [| by eexists]. apply fmap_is_Some.
  destruct n as [| n]; [change (2 ^ (7 * Z.of_nat 1)) with 128 in Hx; lia |].
  apply IH; [| lia]. rewrite Z.shiftr_div_pow2 by lia. split; [apply Z.div_pos; lia |].
  apply Z.div_lt_upper_bound; [lia |]. rewrite <- Z.pow_add_r by lia.
  replace (7 + 7 * Z.of_nat (S n)) with (7 * Z.of_nat (S (S n))) by lia. lia.
Qed.

Lemma PutUvarint_length n x l : PutUvarint n x = Some l → (1 <= length l <= n)%nat.
Proof.
  revert x l. induction n as [| n IH]; intros x l Hp; [done |]. cbn [PutUvarint] in Hp.
  destruct (0x80 <=? x); [| injection Hp as <-; simpl; lia].
  destruct (PutUvarint n _) as [l' |] eqn:Hp'; [| done]. injection Hp as <-. apply IH in Hp'. simpl. lia.
Qed.

Lemma lor_shifted a b s : 0 <= s → 0 <= a < 2 ^ s → 0 <= b → Z.lor a (b * 2 ^ s) = a + b * 2 ^ s.
Proof.
  intros Hs Ha Hb. assert (Hl : Z.land a (b * 2 ^ s) = 0).
  { apply Z.bits_inj'. intros n Hn. rewrite Z.land_spec, Z.bits_0. destruct (Z.lt_ge_cases n s).
    - by rewrite Z.mul_pow2_bits_low, andb_false_r.
    - rewrite <- (Z.mod_small a (2 ^ s)) by lia. by rewrite Z.mod_pow2_bits_high by lia. }
  rewrite <- Z.lxor_lor by done. by rewrite <- Z.add_nocarry_lxor by done.
Qed.

Lemma no_continuation x : 0 <= x < 0x80 → Z.land x 0x80 = 0.
Proof.
  intros Hx. apply Z.bits_inj'. intros n Hn. rewrite Z.land_spec, Z.bits_0.
  destruct (decide (n = 7)) as [-> |].
  - rewrite <- (Z.mod_small x (2 ^ 7)) by lia. by rewrite Z.mod_pow2_bits_high by lia.
  - change 0x80 with (2 ^ 7). rewrite (Z.pow2_bits_false 7 n) by lia. apply andb_false_r.
Qed.

(** A byte with the continuation bit. *)
Lemma continued x : let b := to_byte (Z.lor (u8 x) 0x80) in
  0x80 <= of_byte b ∧ Z.land (of_byte b) 0x7f = x mod 128 ∧ Z.land (of_byte b) 0x80 ≠ 0.
Proof.
  intros b. assert (Hr : unsigned 8 (Z.lor (u8 x) 0x80)).
  { pose proof (uwrap_range 8 x ltac:(lia)) as Hu. unfold unsigned in *. split.
    - apply Z.lor_nonneg. lia.
    - destruct (decide (Z.lor (u8 x) 0x80 = 0)) as [-> |]; [lia |].
      apply Z.log2_lt_pow2; [pose proof (proj2 (Z.lor_nonneg (u8 x) 0x80)); lia |].
      rewrite Z.log2_lor by lia. apply Z.max_lub_lt; [| done].
      destruct (decide (u8 x = 0)) as [-> |]; [done | apply Z.log2_lt_pow2; lia]. }
  unfold b. rewrite of_to_byte by done.
  assert (H7 : Z.land (Z.lor (u8 x) 0x80) 0x7f = x mod 128).
  { rewrite Z.land_lor_distr_l. change (Z.land 0x80 0x7f) with 0. rewrite Z.lor_0_r.
    change 0x7f with (Z.ones 7). rewrite Z.land_ones by lia. unfold uwrap.
    symmetry. apply Znumtheory.Zmod_div_mod; [lia | lia | by exists 2]. }
  assert (H8 : Z.land (Z.lor (u8 x) 0x80) 0x80 = 0x80).
  { apply Z.bits_inj'. intros n Hn. rewrite Z.land_spec, Z.lor_spec.
    by destruct (Z.testbit (u8 x) n), (Z.testbit 0x80 n). }
  split_and!; [| exact H7 | by rewrite H8].
  destruct (Z.le_gt_cases 0x80 (Z.lor (u8 x) 0x80)) as [| Hlt]; [done |].
  rewrite no_continuation in H8 by (unfold unsigned in Hr; lia). done.
Qed.

Lemma Uvarint_Put n x l i acc :
  PutUvarint n x = Some l → (i + n = MaxVarintLen64)%nat →
  0 <= x → 0 <= acc < 2 ^ (7 * Z.of_nat i) → acc + x * 2 ^ (7 * Z.of_nat i) < 2 ^ 64 →
  Uvarint_loop l i acc (7 * Z.of_nat i) =
    (acc + x * 2 ^ (7 * Z.of_nat i), Z.of_nat (i + length l)).
Proof.
  unfold MaxVarintLen64. revert x l i acc. induction n as [| n IH]; intros x l i acc Hp Hi Hx Ha Hb; [done |].
  cbn [PutUvarint] in Hp. set (s := 7 * Z.of_nat i) in *.
  assert (Hpow : 0 < 2 ^ s) by (apply Z.pow_pos_nonneg; lia).
  destruct (Z.leb_spec 0x80 x) as [Hge | Hlt].
  - destruct (PutUvarint n (Z.shiftr x 7)) as [l' |] eqn:Hp'; [| done]. injection Hp as <-.
    cbn [Uvarint_loop]. rewrite decide_False by (unfold MaxVarintLen64; lia).
    destruct (continued x) as (C1 & C2 & _). rewrite (proj2 (Z.ltb_ge _ _)) by done.
    rewrite C2. pose proof (Z.mod_pos_bound x 128 ltac:(lia)) as Hm.
    pose proof (Z.div_mod x 128 ltac:(lia)) as Hdm.
    rewrite Z.shiftl_mul_pow2 by lia. rewrite uwrap_small by (unfold unsigned; nia).
    rewrite lor_shifted by lia. rewrite Z.shiftr_div_pow2 in Hp' by lia. change (2 ^ 7) with 128 in Hp'.
    assert (Hs : 7 * Z.of_nat (S i) = s + 7) by lia.
    assert (H2 : 2 ^ (s + 7) = 128 * 2 ^ s) by (rewrite Z.pow_add_r by lia; lia).
    assert (Hd : 0 <= x / 128) by (apply Z.div_pos; lia).
    assert (Hsum : x = 128 * (x / 128) + x mod 128) by lia.
    specialize (IH (x / 128) l' (S i) (acc + x mod 128 * 2 ^ s) Hp' ltac:(lia) Hd).
    rewrite Hs, H2 in IH. rewrite IH by nia. f_equal; [nia | simpl; lia].
  - injection Hp as <-. cbn [Uvarint_loop]. rewrite decide_False by (unfold MaxVarintLen64; lia).
    rewrite of_to_byte by (unfold unsigned; lia). rewrite (proj2 (Z.ltb_lt _ _)) by lia.
    replace (bool_decide _ && _) with false.
    + rewrite Z.shiftl_mul_pow2 by lia. rewrite uwrap_small by (unfold unsigned; nia).
      rewrite lor_shifted by lia. f_equal. simpl. lia.
    + symmetry. apply andb_false_iff. destruct (decide (i = 9%nat)) as [-> |].
      * right. apply Z.ltb_ge. change s with 63 in *. nia.
      * left. apply bool_decide_eq_false. unfold MaxVarintLen64. lia.
Qed.

(** * On a wire of bytes *)

#[global] Instance wire_bytes : Wire wire := {
  readFull := λ n w, let '(r, input) := list_read n (wi_input w) in Done (r, w <| wi_input := input |>);
  read1 := λ w, let '(r, input) := list_read 1 (wi_input w) in Done (r, w <| wi_input := input |>);
  write := λ l w, Done (None, w <| wi_output := wi_output w ++ [l] |>);
  OnDialError := λ e, mret tt
}.

Lemma filled_full n l : length l = n → filled n l = l.
Proof. intros <-. unfold filled. by rewrite take_app_length. Qed.

Lemma readFull_app l rest (w : wire) :
  wi_input w = l ++ rest → readFull (length l) w = Done ((l, None), w <| wi_input := rest |>).
Proof. intros Hw. simpl. by rewrite Hw, list_read_app. Qed.

Lemma read1_cons b rest (w : wire) :
  wi_input w = b :: rest → read1 w = Done (([b], None), w <| wi_input := rest |>).
Proof. intros Hw. simpl. rewrite Hw. apply (f_equal (λ p, let '(r, input) := p in _) (list_read_app [b] rest)). Qed.

Lemma set_input_twice (w : wire) a b : w <| wi_input := a |> <| wi_input := b |> = w <| wi_input := b |>.
Proof. by destruct w. Qed.

Lemma readVarInt_loop_spec n x l rest buf (w : wire) :
  PutUvarint n x = Some l → 0 <= x → wi_input w = l ++ rest →
  readVarInt_loop n buf w =
    Done ((let '(value, k) := Uvarint (buf ++ l) in
           if k <=? 0 then (inl (ErrorString "failed to decode varint"), buf ++ l)
           else (inr value, buf ++ l)), w <| wi_input := rest |>).
Proof.
  revert x l buf w. induction n as [| n IH]; intros x l buf w Hp Hx Hw; [done |].
  cbn [PutUvarint] in Hp. cbn [readVarInt_loop]. destruct (Z.leb_spec 0x80 x) as [Hge | Hlt].
  - destruct (PutUvarint n (Z.shiftr x 7)) as [l' |] eqn:Hp'; [| done]. injection Hp as <-.
    rewrite (bind_eq _ _ _ _ _ (read1_cons _ _ _ Hw)). cbv beta iota zeta.
    rewrite filled_full, last_snoc by done. cbn [from_option id]. unfold id.
    destruct (continued x) as (_ & _ & C3). rewrite (proj2 (Z.eqb_neq _ _)) by done.
    rewrite (IH (Z.shiftr x 7) l') by (rewrite ?Z.shiftr_nonneg; done).
    rewrite <- app_assoc. by rewrite set_input_twice.
  - injection Hp as <-. rewrite (bind_eq _ _ _ _ _ (read1_cons _ _ _ Hw)). cbv beta iota zeta.
    rewrite filled_full, last_snoc by done. cbn [from_option id]. unfold id.
    rewrite of_to_byte by (unfold unsigned; lia). rewrite no_continuation by lia. cbn [Z.eqb].
    destruct (Uvarint _) as [value k]. by destruct (k <=? 0).
Qed.

Lemma readVarInt_encoded x l rest (w : wire) :
  0 <= x < 2 ^ 64 → encodeVarInt x = Some l → wi_input w = l ++ rest →
  readVarInt w = Done ((inr x, l), w <| wi_input := rest |>).
Proof.
  intros Hx Hp Hw. pose proof (Uvarint_Put _ _ _ 0 0 Hp eq_refl) as Hu.
  change (2 ^ (7 * Z.of_nat 0)) with 1 in Hu. rewrite Z.mul_1_r in Hu.
  specialize (Hu ltac:(lia) ltac:(lia) ltac:(lia)).
  pose proof (PutUvarint_length _ _ _ Hp) as Hl.
  unfold readVarInt. rewrite (readVarInt_loop_spec _ x l rest [] w Hp) by (done || lia).
  change ([] ++ l) with l. unfold Uvarint. change (7 * Z.of_nat 0) with 0 in Hu. rewrite Hu.
  by rewrite (proj2 (Z.leb_gt _ _)) by lia.
Qed.

(** Integers of the handshake survive the wire: every 64-bit value is encoded
    in at most ten bytes, and reading them returns the value, consumes exactly these
    bytes and leaves what follows. *)
Theorem varint_roundtrip x rest (w : wire) :
  0 <= x < 2 ^ 64 →
  ∃ l, encodeVarInt x = Some l ∧ (length l <= MaxVarintLen64)%nat ∧
    (wi_input w = l ++ rest → readVarInt w = Done ((inr x, l), w <| wi_input := rest |>)).
Proof.
  intros Hx. assert (Hp : is_Some (encodeVarInt x)).
  { apply PutUvarint_some; [| unfold MaxVarintLen64; lia]. unfold MaxVarintLen64. lia. }
  destruct Hp as [l Hp]. exists l. split; [done |].
  split; [by destruct (PutUvarint_length _ _ _ Hp) | by apply readVarInt_encoded].
Qed.

Lemma varint_roundtrip_witness :
  ∃ l, encodeVarInt (2 ^ 64 - 1) = Some l ∧ (length l <= MaxVarintLen64)%nat ∧
    ∀ w, (wi_input w = l ++ [Byte.x2a] → readVarInt w = Done ((inr (2 ^ 64 - 1), l), w <| wi_input := [Byte.x2a] |>)).
Proof.
  destruct (encodeVarInt (2 ^ 64 - 1)) as [l |] eqn:El; [| done]. exists l. split; [done |].
  split; [by destruct (PutUvarint_length _ _ _ El) |]. intros w.
  destruct (varint_roundtrip (2 ^ 64 - 1) [Byte.x2a] w ltac:(lia)) as (l' & El' & _ & Hr).
  rewrite El in El'. injection El' as <-. exact Hr.
Defined.

(** * The manifest handshake *)

Definition in_bytes (o : protocolVersion) : Prop :=
  unsigned 8 (major o) ∧ unsigned 8 (minor o) ∧ unsigned 8 (back o).

Lemma offerings_loop_spec offers i acc rest (w : wire) :
  Forall in_bytes offers → wi_input w = mjoin (proposal <$> offers) ++ rest →
  offerings_loop (length offers) i (i + Z.of_nat (length offers)) acc w =
    Done (inr (acc ++ offers), w <| wi_input := rest |>).
Proof.
  intros Ho. revert i acc w. induction Ho as [| o offers (B1 & B2 & B3) Ho IH]; intros i acc w Hw.
  - cbn [offerings_loop length]. rewrite (proj2 (Z.ltb_ge _ _)) by lia. rewrite app_nil_r.
    destruct w. simpl in *. by subst.
  - cbn [offerings_loop length]. rewrite (proj2 (Z.ltb_lt _ _)) by lia.
    change (mjoin (proposal <$> o :: offers)) with (proposal o ++ mjoin (proposal <$> offers)) in Hw.
    rewrite <- app_assoc in Hw. rewrite (bind_eq _ _ _ _ _ (readFull_app _ _ _ Hw)).
    cbv beta iota zeta. rewrite filled_full by done. unfold proposal.
    cbn [list_lookup lookup from_option]. unfold id. rewrite !of_to_byte by done.
    replace (i + Z.of_nat (S (length offers))) with (i + 1 + Z.of_nat (length offers)) by lia.
    rewrite IH by done. rewrite set_input_twice, <- app_assoc. by destruct o.
Qed.

(** The answer of a server that takes the first proposal. *)
Definition manifest_marker : list byte := [Byte.x00; Byte.x00; Byte.x01; Byte.xff].

(** What the driver writes after the proposals. *)
Definition confirmation (r : error + protocolVersion) : list (list byte) :=
  match r with
  | inr p => [[Byte.x00; Byte.x00; to_byte (minor p); to_byte (major p)]; [Byte.x00]]
  | inl _ => [invalidHandshake]
  end.

(** C37. The manifest handshake agrees with its server: whatever versions and
    capabilities the server offers, the driver writes its proposals, reads exactly
    the offer, confirms the version that [selectProtocol] chooses, or the invalid
    handshake if there is none, and goes on with that version. *)
Theorem manifest_negotiated offers cap ll lc rest (w : wire) :
  Forall in_bytes offers → 3 * Z.of_nat (length offers) <= maxAlloc → 0 <= cap < 2 ^ 64 →
  encodeVarInt (Z.of_nat (length offers)) = Some ll → encodeVarInt cap = Some lc →
  wi_input w = manifest_marker ++ ll ++ mjoin (proposal <$> offers) ++ lc ++ rest →
  negotiate (length offers) w =
    Done (match selectProtocol offers with inr p => inr (major p, minor p) | inl e => inl e end,
      w <| wi_input := rest |>
        <| wi_output := wi_output w ++ hello_bytes :: confirmation (selectProtocol offers) |>).
Proof.
  intros Ho Hn Hcap Ell Elc Hw. unfold maxAlloc in Hn. unfold negotiate.
  set (w1 := w <| wi_output := wi_output w ++ [hello_bytes] |>).
  rewrite (bind_eq _ _ _ None w1) by done. change (wi_input w) with (wi_input w1) in Hw.
  cbv beta iota. rewrite (bind_eq _ _ _ _ _ (readFull_app manifest_marker _ _ Hw)).
  cbv beta iota zeta. rewrite filled_full by done.
  change ((_ =? 80) && _) with false. change ((_ =? 0xFF) && _) with true. cbv beta iota.
  unfold performManifestNegotiation, readProtocolOfferings.
  rewrite (bind_eq _ _ _ (inr offers) (w1 <| wi_input := lc ++ rest |>)).
  - cbv beta iota. unfold readCapabilityMask.
    rewrite (bind_eq _ _ _ (inr cap, lc) (w1 <| wi_input := rest |>)).
    + unfold w1. clear. destruct (selectProtocol offers) as [e | p]; destruct w;
        unfold sendHandshakeConfirmation, mbind, GoM_bind, mret, GoM_ret; simpl; by rewrite <- ?app_assoc.
    + erewrite bind_eq; [| by apply readVarInt_encoded]. reflexivity.
  - erewrite bind_eq; [| apply (readVarInt_encoded (Z.of_nat (length offers)) ll); [lia | done | reflexivity]].
    cbv beta iota. unfold maxAlloc. rewrite (proj2 (Z.ltb_ge _ _)) by lia.
    etrans; [by apply (offerings_loop_spec offers 0 [] (lc ++ rest)) |]. by rewrite !set_input_twice.
Qed.

(** Offers of Bolt 5.0 to 5.4 and 4.2 to 4.4; Bolt 5.4 is chosen. *)
Definition sample_offers : list protocolVersion := [mkVersion 5 4 4; mkVersion 4 4 2].

Definition sample_manifest : list byte :=
  manifest_marker ++ [Byte.x02] ++ mjoin (proposal <$> sample_offers) ++ [Byte.x00].

Lemma manifest_negotiated_witness :
  negotiate 2 (new_wire 5 10 sample_manifest) =
    Done (inr (5, 4), (new_wire 5 10 []) <| wi_output :=
      [hello_bytes; [Byte.x00; Byte.x00; Byte.x04; Byte.x05]; [Byte.x00]] |>).
Proof.
  apply (manifest_negotiated sample_offers 0 [Byte.x02] [Byte.x00] []);
    [repeat constructor; simpl; lia | by vm_compute | lia | reflexivity | reflexivity | reflexivity].
Defined.

(** A server can crash the driver: the number of offers is used as the capacity
    of a slice without a bound, so a large number is a run-time panic before any
    offer is read. *)
Theorem offer_count_panics count ll rest fuel (w : wire) :
  maxAlloc < 3 * count → count < 2 ^ 64 → encodeVarInt count = Some ll →
  wi_input w = manifest_marker ++ ll ++ rest → negotiate fuel w = Panic.
Proof.
  intros Hc Hm Ell Hw. unfold maxAlloc in Hc. unfold negotiate.
  set (w1 := w <| wi_output := wi_output w ++ [hello_bytes] |>).
  rewrite (bind_eq _ _ _ None w1) by done. change (wi_input w) with (wi_input w1) in Hw.
  cbv beta iota. rewrite (bind_eq _ _ _ _ _ (readFull_app manifest_marker _ _ Hw)).
  cbv beta iota zeta. rewrite filled_full by done.
  change ((_ =? 80) && _) with false. change ((_ =? 0xFF) && _) with true. cbv beta iota.
  unfold performManifestNegotiation, readProtocolOfferings.
  unfold mbind, GoM_bind. rewrite (readVarInt_encoded count ll rest) by (done || lia).
  unfold maxAlloc. by rewrite (proj2 (Z.ltb_lt _ _)) by lia.
Qed.

Lemma offer_count_panics_witness : ∃ ll, encodeVarInt (2 ^ 63) = Some ll ∧
  negotiate 10 (new_wire 5 10 (manifest_marker ++ ll ++ [])) = Panic.
Proof.
  eexists. split; [reflexivity |].
  apply (offer_count_panics (2 ^ 63) _ [] 10 (new_wire 5 10 _) eq_refl eq_refl eq_refl eq_refl).
Defined.

(** A deadline that has passed while the context does not have its error yet makes
    reads and writes succeed without any byte. *)
Lemma race_succeeds_late {A} (zero : A) d now result first :
  d < now → racing.race zero None (Some d) now result first = (zero, None).
Proof. intros Hd. unfold racing.race. by rewrite (proj2 (Z.ltb_lt _ _)). Qed.

(** * From the first byte to a ready connection *)

Definition fresh_wire (v : version) (w : wire) : wire :=
  (new_wire (match v with V4 => 4 | V5 => 5 | V6 => 6 end) (wi_fuel w) (wi_input w))
    <| wi_output := wi_output w |> <| wi_time := wi_time w |>.

Definition connect_wire : GoM wire (error + established) :=
  let _ := @wire_world utc_host in
  handshake.Connect (C3 := unit) (Token := string) shown (λ _, mret (inr tt)) fresh_wire "server" sample_auth "go"
    None [] no_notifications 10.

(** The bytes of the manifest and of the answers to HELLO and LOGON lead to a
    connection of version 5.4 that is ready; nothing is left to read. *)
Example connect_in_bytes :
  ∃ answers b w, @peer_bytes utc_host (take 2 sample_answers) = Some answers ∧
    connect_wire (new_wire 5 10 (sample_manifest ++ answers)) = Done (inr (inr (V5, b)), w) ∧
    b_state b = Ready ∧ b_minor b = 4 ∧ b_handlers b = [] ∧ wi_input w = [].
Proof. eexists _, _, _. split; [vm_compute; reflexivity |]. split; [vm_compute; reflexivity |]. done. Qed.
