(* ===== verification/ReadAhead.v ===== *)
(** The socket below a connection: internal/bolt/connections.go.

    A goroutine reads ahead of the driver into one buffer of its own.  It hands
    the slice it filled over through the channel [pending] and does not read again
    until a token comes back through [wantRead].  Channels of capacity one are the
    fields [pending] and [wantRead] of the connection: a send to a full channel
    and a receive from an empty one do not step.  A slice is an offset and a length
    in the buffer, so what it holds is what the buffer holds when it is used.

    A world is the connection with the goroutine and any number of calls of [Read],
    [peerAlive] and [Close]; a step runs one of them up to its next operation on a
    channel.  What the socket delivers and which ready branch a [select] takes come
    with the step. *)

From S2P Require Import Prelude Packer Values Errors.
#[local] Open Scope nat_scope.

Module socketConnection.

(** ** The connection *)

(** A slice of the buffer of [readAhead]. *)
Record slice : Type := mkSlice { sl_off : nat; sl_len : nat }.

(** One socket read waiting to be taken. *)
Record pendingRead : Type := mkPendingRead { pr_bytes : slice; pr_err : option error }.

Record socketConnection : Type := mkSocketConnection {
  pending : option pendingRead;      (* channel of capacity 1 *)
  wantRead : bool;                   (* channel of capacity 1 *)
  done : bool;                       (* the channel is closed *)
  closes : nat;                      (* calls of Close on the net.Conn *)
  buffer : list byte                 (* the variable of readAhead *)
}.

Definition DefaultReadBufferSize : Z := 8192.

(** [net.ErrClosed]. *)
Definition ErrClosed : error := NetError false "use of closed network connection".

(** The bytes of a slice, [copy]ing at most [n] of them, and [bytes[n:]]. *)
Definition contents (buf : list byte) (s : slice) : list byte :=
  take (sl_len s) (drop (sl_off s) buf).

Definition copy (n : nat) (buf : list byte) (s : slice) : list byte := take n (contents buf s).

Definition from (n : nat) (s : slice) : slice := mkSlice (sl_off s + n) (sl_len s - n).

(** Sends on the channels. *)
Definition send_pending (r : pendingRead) (c : socketConnection) : option socketConnection :=
  match pending c with None => Some (c <| pending := Some r |>) | Some _ => None end.

Definition send_wantRead (c : socketConnection) : option socketConnection :=
  if wantRead c then None else Some (c <| wantRead := true |>).

(** [bufferedConnection]: the connection with the first token, for the goroutine
    that is started. *)
Definition bufferSize (readBufferSize : Z) : Z :=
  if (readBufferSize <=? 0)%Z then DefaultReadBufferSize else readBufferSize.

Definition bufferedConnection (readBufferSize : Z) : socketConnection :=
  {| pending := None; wantRead := true; done := false; closes := 0;
     buffer := replicate (Z.to_nat (bufferSize readBufferSize)) Byte.x00 |}.

(** ** The goroutine *)

Inductive readAhead : Type :=
| Selecting                          (* select on wantRead and done *)
| FromSocket                         (* in c.Conn.Read(buffer) *)
| Handing (r : pendingRead)          (* before the send to pending *)
| Exited.

(** One step of the goroutine; [branch] is the branch its [select] takes. *)
Definition readAhead_step (branch : bool) (g : readAhead) (c : socketConnection) :
    option (readAhead * socketConnection) :=
  match g with
  | Selecting =>
      if branch then if wantRead c then Some (FromSocket, c <| wantRead := false |>) else None
      else if done c then Some (Exited, c) else None
  | Handing r => c ← send_pending r c; Some (Selecting, c)
  | FromSocket | Exited => None
  end.

(** [c.Conn.Read(buffer)] returns: the buffer is now [buf], of which the first [n]
    bytes are what was read. *)
Definition socket_returns (buf : list byte) (n : nat) (err : option error)
    (g : readAhead) (c : socketConnection) : option (readAhead * socketConnection) :=
  match g with
  | FromSocket =>
      if bool_decide (length buf = length (buffer c)) && (n <=? length buf)
      then Some (Handing (mkPendingRead (mkSlice 0 n) err), c <| buffer := buf |>)
      else None
  | _ => None
  end.

(** ** The calls *)

Inductive call : Type :=
| Reading (size : nat)                               (* Read(p) with len(p) = size *)
| Waiting (size : nat)                               (* at the second select *)
| Taken (size : nat) (r : pendingRead)
| PuttingBack (bs : list byte) (r : pendingRead)     (* before pending <- rest *)
| Wanting (bs : list byte) (err : option error)      (* before wantRead <- token *)
| ReadReturned (bs : list byte) (err : option error)
| ReadRefused                                        (* return 0, net.ErrClosed *)
| Probing                                            (* peerAlive *)
| Peeking                                            (* at its second select *)
| Restoring (r : pendingRead)                        (* before pending <- read *)
| Probed (alive : bool)
| Closing                                            (* Close *)
| ClosingConn                                        (* before c.Conn.Close() *)
| Closed (err : option error).

(** [Read] up to its next operation on a channel. *)
Definition Read_step (branch : bool) (t : call) (c : socketConnection) :
    option (call * socketConnection) :=
  match t with
  | Reading size => Some (if done c then ReadRefused else Waiting size, c)
  | Waiting size =>
      if branch then
        match pending c with
        | Some r => Some (Taken size r, c <| pending := None |>)
        | None => None
        end
      else if done c then Some (ReadRefused, c) else None
  | Taken size r =>
      let bs := copy size (buffer c) (pr_bytes r) in
      let n := length bs in
      if n <? sl_len (pr_bytes r)
      then Some (PuttingBack bs (mkPendingRead (from n (pr_bytes r)) (pr_err r)), c)
      else Some (Wanting bs (pr_err r), c)
  | PuttingBack bs r => c ← send_pending r c; Some (ReadReturned bs None, c)
  | Wanting bs err => c ← send_wantRead c; Some (ReadReturned bs err, c)
  | _ => None
  end.

(** [peerAlive]; a [select] with a default takes a branch that is ready. *)
Definition peerAlive_step (t : call) (c : socketConnection) : option (call * socketConnection) :=
  match t with
  | Probing => Some (if done c then Probed false else Peeking, c)
  | Peeking =>
      match pending c with
      | Some r => Some (Restoring r, c <| pending := None |>)
      | None => Some (Probed true, c)
      end
  | Restoring r =>
      c ← send_pending r c;
      Some (Probed (match pr_err r with None => true | Some _ => false end), c)
  | _ => None
  end.

(** [Close]; closing [done] happens once. *)
Definition Close_step (err : option error) (t : call) (c : socketConnection) :
    option (call * socketConnection) :=
  match t with
  | Closing => Some (ClosingConn, c <| done := true |>)
  | ClosingConn => Some (Closed err, c <| closes := S (closes c) |>)
  | _ => None
  end.

(** What the environment contributes to a step of a call. *)
Record choice : Type := mkChoice { ch_branch : bool; ch_err : option error }.

Definition call_step (ch : choice) (t : call) (c : socketConnection) :
    option (call * socketConnection) :=
  match t with
  | Reading _ | Waiting _ | Taken _ _ | PuttingBack _ _ | Wanting _ _ => Read_step (ch_branch ch) t c
  | Probing | Peeking | Restoring _ => peerAlive_step t c
  | Closing | ClosingConn => Close_step (ch_err ch) t c
  | ReadReturned _ _ | ReadRefused | Probed _ | Closed _ => None
  end.

(** ** The world *)

(** What one read of the socket, or one [Read], delivers. *)
Definition delivery : Type := list byte * option error.

(** [w_arrived] are the reads of the socket, [w_copied] what each call of [Read]
    copied out, with the number of the call, both in their order. *)
Record world : Type := mkWorld {
  w_conn : socketConnection;
  w_ahead : readAhead;
  w_calls : list call;
  w_arrived : list delivery;
  w_copied : list (nat * delivery)
}.

Inductive event : Type :=
| CallRead (size : nat)
| CallPeerAlive
| CallClose
| Run (i : nat) (ch : choice)
| RunAhead (branch : bool)
| SocketReturns (buf : list byte) (n : nat) (err : option error).

Definition opened (readBufferSize : Z) : world :=
  mkWorld (bufferedConnection readBufferSize) Selecting [] [] [].

Definition spawn (t : call) (w : world) : world := w <| w_calls := w_calls w ++ [t] |>.

(** What a call has copied out. *)
Definition copied (t : call) : option delivery :=
  match t with
  | PuttingBack bs _ => Some (bs, None)
  | Wanting bs err | ReadReturned bs err => Some (bs, err)
  | _ => None
  end.

(** The entry of [w_copied] when a step leads from [t] to [t']. *)
Definition copies (i : nat) (t t' : call) : list (nat * delivery) :=
  match t with Taken _ _ => (λ d, (i, d)) <$> option_list (copied t') | _ => [] end.

Definition step (ev : event) (w : world) : option world :=
  match ev with
  | CallRead size => Some (spawn (Reading size) w)
  | CallPeerAlive => Some (spawn Probing w)
  | CallClose => Some (spawn Closing w)
  | Run i ch =>
      t ← w_calls w !! i;
      '(t', c) ← call_step ch t (w_conn w);
      Some (mkWorld c (w_ahead w) (<[i := t']> (w_calls w)) (w_arrived w)
              (w_copied w ++ copies i t t'))
  | RunAhead branch =>
      '(g, c) ← readAhead_step branch (w_ahead w) (w_conn w);
      Some (w <| w_conn := c |> <| w_ahead := g |>)
  | SocketReturns buf n err =>
      '(g, c) ← socket_returns buf n err (w_ahead w) (w_conn w);
      Some (w <| w_conn := c |> <| w_ahead := g |>
              <| w_arrived := w_arrived w ++ [(take n buf, err)] |>)
  end.

Fixpoint run (evs : list event) (w : world) : option world :=
  match evs with
  | [] => Some w
  | ev :: evs => w ← step ev w; run evs w
  end.

(** The worlds some sequence of steps leads to. *)
Inductive reachable (readBufferSize : Z) : world → Prop :=
| reach_opened : reachable readBufferSize (opened readBufferSize)
| reach_step w ev w' :
    reachable readBufferSize w → step ev w = Some w' → reachable readBufferSize w'.

End socketConnection.
