(* ===== verification/ReadAheadFacts.v ===== *)
(** The read-ahead of internal/bolt/connections.go, over all interleavings.

    One token is with exactly one party at a time: as a request to read it is in
    [wantRead], with the goroutine or with a call that is about to ask; as unread
    bytes it is in [pending], with the goroutine that read them or with a call that
    has taken them.  From this follow that the buffer is not written while bytes of
    it are unread, that no send blocks, that what [Read] returns is the stream of the
    socket, and that only the socket is waited for. *)

From S2P Require Import Prelude Packer Values Errors Pool ReadAhead.
#[local] Open Scope nat_scope.
#[local] Arguments RecordSetters.constant {_} _ _ /.

Module ReadAheadFacts.
Import socketConnection.

(** ** Specification *)

(** A sequence of deliveries as one stream of bytes and errors. *)
Definition flat (ds : list delivery) : list (byte + error) :=
  ds ≫= λ d, (inl <$> d.1) ++ (inr <$> option_list d.2).

Inductive token : Type :=
| Request
| Unread (r : pendingRead).

Definition in_channels (c : socketConnection) : list token :=
  (Unread <$> option_list (pending c)) ++ (if wantRead c then [Request] else []).

Definition with_goroutine (g : readAhead) : list token :=
  match g with FromSocket => [Request] | Handing r => [Unread r] | Selecting | Exited => [] end.

Definition owned (t : call) : list token :=
  match t with
  | Taken _ r | PuttingBack _ r | Restoring r => [Unread r]
  | Wanting _ _ => [Request]
  | _ => []
  end.

Definition tokens (w : world) : list token :=
  in_channels (w_conn w) ++ with_goroutine (w_ahead w) ++ (w_calls w ≫= owned).

(** The part of the stream that has been read from the socket and not by [Read]. *)
Definition unread_of (buf : list byte) (k : token) : list (byte + error) :=
  match k with
  | Request => []
  | Unread r => flat [(contents buf (pr_bytes r), pr_err r)]
  end.

Definition unread (w : world) : list (byte + error) :=
  tokens w ≫= unread_of (buffer (w_conn w)).

(** What the calls of [Read] number [i] copied out. *)
Definition copied_by (i : nat) (w : world) : list delivery :=
  (filter (λ e, e.1 = i) (w_copied w)).*2.

Definition sending (t : call) : bool :=
  match t with PuttingBack _ _ | Wanting _ _ | Restoring _ => true | _ => false end.

Definition finished (t : call) : bool :=
  match t with ReadReturned _ _ | ReadRefused | Probed _ | Closed _ => true | _ => false end.

Definition ended (w : world) : Prop :=
  w_ahead w = Exited ∧ ∀ i t, w_calls w !! i = Some t → finished t = true.

(** Steps that go on with what is under way. *)
Definition internal (ev : event) : bool :=
  match ev with Run _ _ | RunAhead _ | SocketReturns _ _ _ => true | _ => false end.

(** The steps that are left once [done] is closed, at most. *)
Definition call_load (t : call) : nat :=
  match t with
  | Reading _ => 21
  | Waiting _ => 20
  | Taken _ _ => 8
  | PuttingBack _ _ | Wanting _ _ => 7
  | Probing => 10
  | Peeking => 9
  | Restoring _ => 8
  | Closing => 2
  | ClosingConn => 1
  | ReadReturned _ _ | ReadRefused | Probed _ | Closed _ => 0
  end.

Definition load (w : world) : nat :=
  (if wantRead (w_conn w) then 3 else 0) +
  match w_ahead w with Selecting => 1 | FromSocket => 3 | Handing _ => 2 | Exited => 0 end +
  sum_list_with call_load (w_calls w).

(** ** The invariant *)

(** What the stream looks like from the place where the token is. *)
Definition accounts (w : world) (k : token) : Prop :=
  match k with
  | Request => flat (w_copied w).*2 = flat (w_arrived w)
  | Unread r =>
      sl_off (pr_bytes r) + sl_len (pr_bytes r) ≤ length (buffer (w_conn w)) ∧
      ∃ before taken,
        w_arrived w = before ++ [(taken ++ contents (buffer (w_conn w)) (pr_bytes r), pr_err r)] ∧
        flat (w_copied w).*2 = flat before ++ (inl <$> taken)
  end.

Record sound (w : world) : Prop := mkSound {
  so_token : ∃ k, tokens w ≡ₚ [k] ∧ accounts w k;
  so_copied i : copied_by i w = option_list (w_calls w !! i ≫= copied);
  so_exit : w_ahead w = Exited → done (w_conn w) = true
}.

(** *** Lists *)

Lemma flat_app ds ds' : flat (ds ++ ds') = flat ds ++ flat ds'.
Proof. apply bind_app. Qed.

Lemma flat_one d : flat [d] = (inl <$> d.1) ++ (inr <$> option_list d.2).
Proof. unfold flat. simpl. by rewrite app_nil_r. Qed.

Lemma owned_split i t ts :
  ts !! i = Some t →
  ∃ l1 l2, ts ≫= owned = l1 ++ owned t ++ l2 ∧
    ∀ t', <[i := t']> ts ≫= owned = l1 ++ owned t' ++ l2.
Proof.
  intros Ht. exists (take i ts ≫= owned), (drop (S i) ts ≫= owned). split.
  - rewrite <- (take_drop_middle ts i t Ht) at 1. by rewrite bind_app, bind_cons.
  - intros t'. rewrite insert_take_drop by eauto using lookup_lt_Some.
    by rewrite bind_app, bind_cons.
Qed.

Lemma load_split i t t' ts :
  ts !! i = Some t →
  sum_list_with call_load (<[i := t']> ts) + call_load t =
  sum_list_with call_load ts + call_load t'.
Proof.
  intros Ht. rewrite insert_take_drop by eauto using lookup_lt_Some.
  rewrite <- (take_drop_middle ts i t Ht) at 3. rewrite !sum_list_with_app. simpl. lia.
Qed.

(** *** A step of a call *)

(** The cases of a step [Hs] of a call or of the goroutine. *)
Ltac call_cases Hs :=
  cbn in Hs; unfold send_pending, send_wantRead in Hs; cbn in Hs;
  repeat match type of Hs with context [match ?x with _ => _ end] => destruct x eqn:?; cbn in Hs end;
  simplify_eq/=.

(** Every step but copying moves the token, and copying leaves it where it is. *)
Lemma call_moves ch t c t' c' :
  call_step ch t c = Some (t', c') → (∀ size r, t ≠ Taken size r) →
  in_channels c' ++ owned t' ≡ₚ in_channels c ++ owned t ∧ buffer c' = buffer c ∧
  copied t' = copied t.
Proof.
  intros Hs Ht. destruct c as [p w d n b], t; try destruct (Ht _ _ eq_refl); clear Ht;
    call_cases Hs; unfold in_channels; simpl; try done;
    split_and!; try done; rewrite ?app_nil_r; try reflexivity; repeat case_match; try done;
    apply Permutation_swap.
Qed.

Lemma call_done ch t c t' c' : call_step ch t c = Some (t', c') → done c = true → done c' = true.
Proof. intros Hs ?. destruct c as [p w d n b], t; simpl in *; by call_cases Hs. Qed.

(** *** Copying *)

Lemma contents_length buf s :
  sl_off s + sl_len s ≤ length buf → length (contents buf s) = sl_len s.
Proof. intros. unfold contents. rewrite length_take, length_drop. lia. Qed.

Lemma contents_from n buf s : contents buf (from n s) = drop n (contents buf s).
Proof.
  unfold contents, from. simpl. rewrite <- drop_drop.
  by rewrite skipn_firstn_comm.
Qed.

Lemma take_length_all {A} n (l : list A) : length l ≤ length (take n l) → take n l = l.
Proof. rewrite length_take. intros. apply take_ge. lia. Qed.

(** Copying appends a piece of the stream to what has been returned. *)
Lemma copying_accounts ch size r c g ts t' c' arrived log i :
  call_step ch (Taken size r) c = Some (t', c') →
  accounts (mkWorld c g ts arrived log) (Unread r) →
  c' = c ∧ ∃ k d, owned t' = [k] ∧ copied t' = Some d ∧
    accounts (mkWorld c g (<[i := t']> ts) arrived (log ++ [(i, d)])) k.
Proof.
  intros Hs (Hb & before & taken & Ha & Hl). simpl in *.
  pose proof (contents_length _ _ Hb) as Hn. unfold copy in Hs.
  destruct (_ <? _) eqn:E; simplify_eq/=; split; [done| |done|].
  - eexists (Unread _), _. split_and!; [done..|]. split; simpl.
    + apply Nat.ltb_lt in E. rewrite length_take in *. lia.
    + exists before, (taken ++ take size (contents (buffer c') (pr_bytes r))).
      rewrite contents_from, length_take. split.
      * rewrite <- app_assoc. do 4 f_equal.
        rewrite <- (take_drop size (contents _ _)) at 1. f_equal.
        destruct (decide (size ≤ length (contents (buffer c') (pr_bytes r)))).
        -- by rewrite Nat.min_l.
        -- rewrite Nat.min_r, !drop_ge by lia. done.
      * rewrite fmap_app, flat_app, Hl, fmap_app. simpl.
        by rewrite !app_nil_r, app_assoc.
  - eexists Request, _. split_and!; [done..|]. simpl.
    apply Nat.ltb_ge in E. rewrite take_length_all by lia.
    rewrite fmap_app, flat_app, Hl, flat_app. simpl.
    by rewrite fmap_app, !app_nil_r, <- !app_assoc.
Qed.

(** *** Every step *)

Lemma accounts_ext w w' k :
  buffer (w_conn w') = buffer (w_conn w) → w_arrived w' = w_arrived w →
  w_copied w' = w_copied w → accounts w k → accounts w' k.
Proof. unfold accounts. by intros -> -> ->. Qed.

Lemma tokens_at w i t :
  w_calls w !! i = Some t →
  ∃ rest, tokens w ≡ₚ (in_channels (w_conn w) ++ owned t) ++ rest ∧
    ∀ c' t' arrived log,
      tokens (mkWorld c' (w_ahead w) (<[i := t']> (w_calls w)) arrived log)
        ≡ₚ (in_channels c' ++ owned t') ++ rest.
Proof.
  intros (l1 & l2 & E & E')%owned_split. exists (with_goroutine (w_ahead w) ++ l1 ++ l2).
  unfold tokens. simpl. setoid_rewrite E'. rewrite E. split; intros; solve_Permutation.
Qed.

(** A token with a call is the only one. *)
Lemma token_here w i t k k' rest :
  tokens w ≡ₚ [k] → tokens w ≡ₚ (in_channels (w_conn w) ++ owned t) ++ rest →
  w_calls w !! i = Some t → owned t = [k'] → k' = k ∧ in_channels (w_conn w) = [] ∧ rest = [].
Proof.
  intros Hk Hr _ Ho. rewrite Hk, Ho in Hr. symmetry in Hr.
  pose proof (Permutation_length Hr) as Hl. rewrite !length_app in Hl. simpl in Hl.
  destruct (in_channels _), rest; simpl in *; try lia.
  apply Permutation_singleton_r in Hr. by simplify_eq.
Qed.

Lemma sound_spawn w t :
  owned t = [] → copied t = None → sound w → sound (spawn t w).
Proof.
  intros Ho Hc [(k & Hk & Ha) Hi He]. destruct w as [c g ts ar lg]. split; [| |done].
  - exists k. split; [|done]. unfold tokens, spawn. simpl.
    rewrite bind_app. simpl. by rewrite Ho, !app_nil_r.
  - intros i. unfold copied_by, spawn in *. simpl. rewrite Hi.
    destruct (decide (i < length ts)).
    + by rewrite lookup_app_l.
    + rewrite lookup_app_r, (lookup_ge_None_2 ts) by lia.
      destruct (i - _); simpl; [by rewrite Hc|done].
Qed.

Lemma copied_by_step w i t t' c j :
  w_calls w !! i = Some t → (∀ j, copied_by j w = option_list (w_calls w !! j ≫= copied)) →
  copied t' = copied t ∧ copies i t t' = [] ∨ copied t = None ∧
    (∃ d, copied t' = Some d ∧ copies i t t' = [(i, d)]) →
  copied_by j (mkWorld c (w_ahead w) (<[i := t']> (w_calls w)) (w_arrived w)
                 (w_copied w ++ copies i t t'))
  = option_list (<[i := t']> (w_calls w) !! j ≫= copied).
Proof.
  intros Ht Hi Hc. specialize (Hi j). unfold copied_by in *. simpl.
  rewrite filter_app, fmap_app, Hi. destruct (decide (j = i)) as [->|Hj].
  - rewrite list_lookup_insert_eq, Ht by eauto using lookup_lt_Some. simpl.
    destruct Hc as [[-> ->]|[-> (d & -> & ->)]]; simpl; [by rewrite app_nil_r|].
    by rewrite filter_cons_True.
  - rewrite list_lookup_insert_ne by done.
    destruct Hc as [[_ ->]|[_ (d & _ & ->)]]; simpl; [by rewrite app_nil_r|].
    rewrite filter_cons_False by (simpl; congruence). by rewrite app_nil_r.
Qed.

Lemma sound_call w i ch t t' c' :
  w_calls w !! i = Some t → call_step ch t (w_conn w) = Some (t', c') → sound w →
  sound (mkWorld c' (w_ahead w) (<[i := t']> (w_calls w)) (w_arrived w) (w_copied w ++ copies i t t')).
Proof.
  intros Ht Hs [(k & Hk & Ha) Hi He].
  destruct (tokens_at _ _ _ Ht) as (rest & Hr & Hr').
  destruct t as [| |size r| | | | | | | | | | |] eqn:Et.
  3: { destruct (token_here _ _ _ _ _ _ Hk Hr Ht eq_refl) as (<- & Hc & ->).
    destruct w as [c g ts ar lg].
    destruct (copying_accounts _ _ _ _ _ _ _ _ _ _ i Hs Ha) as (-> & k' & d & Hk' & Hd & Ha').
    clear Hs. simpl in *.
    unfold copies. rewrite Hd. simpl. split; [|intros j|done].
    - exists k'. rewrite Hr', Hc, Hk'. done.
    - pose proof (copied_by_step (mkWorld c g ts ar lg) i _ t' c j Ht Hi) as Hj.
      unfold copies in Hj. rewrite Hd in Hj. apply Hj. right. eauto. }
  all: destruct (call_moves _ _ _ _ _ Hs ltac:(done)) as (Hp & Hb & Hd).
  all: split; [|intros j; apply copied_by_step; [done..|left; split; [done|by destruct w]]
    |simpl; intros; eapply call_done; eauto].
  all: exists k; split; [by rewrite Hr', Hp, <- Hr|].
  all: eapply accounts_ext; [..|exact Ha]; simpl; [done..|by rewrite app_nil_r].
Qed.

Lemma ahead_moves branch g c g' c' :
  readAhead_step branch g c = Some (g', c') →
  in_channels c' ++ with_goroutine g' ≡ₚ in_channels c ++ with_goroutine g ∧
  buffer c' = buffer c ∧ done c' = done c ∧ (g' = Exited → done c = true).
Proof.
  intros Hs. destruct c as [p w d n b], g; call_cases Hs; unfold in_channels; simpl;
    split_and!; try done; rewrite ?app_nil_r; repeat case_match; try done; apply Permutation_swap.
Qed.

Lemma sound_ahead w branch g' c' :
  readAhead_step branch (w_ahead w) (w_conn w) = Some (g', c') → sound w →
  sound (w <| w_conn := c' |> <| w_ahead := g' |>).
Proof.
  intros (Hp & Hb & Hd & He)%ahead_moves [(k & Hk & Ha) Hi _]. destruct w as [c g ts ar lg].
  simpl in *. split; [|done|simpl; by rewrite Hd].
  exists k. split; [|by eapply accounts_ext; [..|exact Ha]].
  rewrite <- Hk. unfold tokens. simpl. by rewrite !app_assoc, Hp.
Qed.

Lemma sound_socket w buf n err g' c' :
  socket_returns buf n err (w_ahead w) (w_conn w) = Some (g', c') → sound w →
  sound (w <| w_conn := c' |> <| w_ahead := g' |>
           <| w_arrived := w_arrived w ++ [(take n buf, err)] |>).
Proof.
  intros Hs [(k & Hk & Ha) Hi _]. destruct w as [c [] ts ar lg]; simpl in *; simplify_eq/=.
  destruct (bool_decide _ && _) eqn:E; simplify_eq/=.
  apply andb_true_iff in E as [E%bool_decide_eq_true Hn%Nat.leb_le].
  assert (tokens (mkWorld c FromSocket ts ar lg) ≡ₚ
          Request :: in_channels c ++ (ts ≫= owned)) as Hp by (unfold tokens; simpl; solve_Permutation).
  rewrite Hk in Hp. symmetry in Hp. apply Permutation_singleton_r in Hp.
  injection Hp as <- [Hc Ho]%app_eq_nil.
  split; [|done|done]. exists (Unread (mkPendingRead (mkSlice 0 n) err)). split.
  - change (in_channels c ++ [Unread (mkPendingRead (mkSlice 0 n) err)] ++ (ts ≫= owned)
            ≡ₚ [Unread (mkPendingRead (mkSlice 0 n) err)]). by rewrite Hc, Ho.
  - split; [simpl; lia|]. exists ar, []. simpl. by rewrite app_nil_r.
Qed.

Lemma sound_step ev w w' : step ev w = Some w' → sound w → sound w'.
Proof.
  intros Hs Hw. destruct ev as [size| | |i ch|branch|buf n err]; simpl in Hs; simplify_eq.
  1-3: by apply sound_spawn.
  - apply bind_Some in Hs as (t & Ht & ([t' c'] & Hc & ?)%bind_Some). simplify_eq/=.
    by eapply sound_call.
  - apply bind_Some in Hs as ([g c'] & Hg & ?). simplify_eq/=. by eapply sound_ahead.
  - apply bind_Some in Hs as ([g c'] & Hg & ?). simplify_eq/=. by eapply sound_socket.
Qed.

Lemma reachable_sound size w : reachable size w → sound w.
Proof.
  induction 1 as [|w ev w' _ IH Hs]; [|by eapply sound_step].
  split; [by exists Request|done|done].
Qed.

(** ** What the token gives *)

Lemma sound_stream w : sound w → flat (w_copied w).*2 ++ unread w = flat (w_arrived w).
Proof.
  intros [(k & Hk%Permutation_singleton_r & Ha) _ _]. unfold unread. rewrite Hk. simpl.
  rewrite app_nil_r. destruct k as [|r]; simpl in *; [by rewrite app_nil_r|].
  destruct Ha as (_ & before & taken & -> & ->).
  rewrite flat_app. simpl. by rewrite fmap_app, !app_nil_r, <- !app_assoc.
Qed.

(** The token with a call leaves the channels empty. *)
Lemma channels_empty w i t k :
  sound w → w_calls w !! i = Some t → owned t = [k] → in_channels (w_conn w) = [].
Proof.
  intros [(k' & Hk & _) _ _] Ht Ho. destruct (tokens_at _ _ _ Ht) as (rest & Hr & _).
  by destruct (token_here _ _ _ _ _ _ Hk Hr Ht Ho) as (_ & ? & _).
Qed.

Lemma in_channels_nil c : in_channels c = [] → pending c = None ∧ wantRead c = false.
Proof. unfold in_channels. by destruct (pending c), (wantRead c). Qed.

Lemma sending_steps w i t ch :
  sound w → w_calls w !! i = Some t → sending t = true → is_Some (step (Run i ch) w).
Proof.
  intros Hw Ht Hs. simpl. rewrite Ht. simpl.
  assert (in_channels (w_conn w) = []) as [Hp Hn]%in_channels_nil
    by (destruct t; try done; by eapply channels_empty).
  destruct t; try done; simpl; unfold send_pending, send_wantRead; rewrite ?Hp, ?Hn; simpl; eauto.
Qed.

Lemma handing_steps w r branch :
  sound w → w_ahead w = Handing r → is_Some (step (RunAhead branch) w).
Proof.
  intros [(k & Hk%Permutation_singleton_r & _) _ _] Hg. unfold tokens in Hk. rewrite Hg in Hk.
  assert (in_channels (w_conn w) = []) as [Hp _]%in_channels_nil.
  { destruct (in_channels _) as [|? [|]]; simpl in *; congruence. }
  simpl. rewrite Hg. simpl. unfold send_pending. rewrite Hp. simpl. eauto.
Qed.

(** ** The stream *)

(** C15. Whatever the size of the buffer, the reads of the socket and the interleaving
    of calls of Read, peerAlive and Close with the goroutine that reads ahead: what
    the calls of Read copied out, followed by what waits to be taken, is exactly the
    stream of bytes and errors of the socket, although every read of the socket goes
    into the same buffer; each call returns what it copied and nothing else; and no
    send on a channel blocks. *)
Theorem reads_in_order (size : Z) (w : world) :
  reachable size w →
  flat (w_copied w).*2 ++ unread w = flat (w_arrived w) ∧
  (∀ i t, w_calls w !! i = Some t → copied_by i w = option_list (copied t)) ∧
  (∀ i t ch, w_calls w !! i = Some t → sending t = true → is_Some (step (Run i ch) w)) ∧
  (∀ r branch, w_ahead w = Handing r → is_Some (step (RunAhead branch) w)).
Proof.
  intros Hw%reachable_sound. split_and!.
  - by apply sound_stream.
  - intros i t Ht. by rewrite (so_copied _ Hw), Ht.
  - intros. by eapply sending_steps.
  - intros. by eapply handing_steps.
Qed.

(** Two reads of the socket into a buffer of four bytes, three calls of [Read], and a
    probe while bytes are waiting. *)
Definition go : choice := mkChoice true None.

Definition sample_events : list event :=
  [RunAhead true; SocketReturns [Byte.x01; Byte.x02; Byte.x03; Byte.x00] 3 None; RunAhead true;
   CallRead 2; Run 0 go; Run 0 go; Run 0 go; Run 0 go;
   CallPeerAlive; Run 1 go; Run 1 go; Run 1 go;
   CallRead 2; Run 2 go; Run 2 go; Run 2 go; Run 2 go;
   RunAhead true; SocketReturns [Byte.x04; Byte.x00; Byte.x00; Byte.x00] 1 (Some EOF); RunAhead true].

Lemma steps_reachable size evs w w' : reachable size w → run evs w = Some w' → reachable size w'.
Proof.
  revert w. induction evs as [|ev evs IH]; simpl; intros w Hw E; [by simplify_eq|].
  apply bind_Some in E as (w1 & E1 & E2). eauto using reach_step.
Qed.

(** The sample has returned three bytes, and holds back the last with its error. *)
Lemma reads_in_order_witness :
  ∃ w, run sample_events (opened 4) = Some w ∧
    (w_copied w).*2 = [([Byte.x01; Byte.x02], None); ([Byte.x03], None)] ∧
    unread w = [inl Byte.x04; inr EOF] ∧
    flat (w_copied w).*2 ++ unread w = flat (w_arrived w).
Proof.
  destruct (run sample_events (opened 4)) as [w|] eqn:E; [|by vm_compute in E].
  exists w. pose proof (reads_in_order 4 w (steps_reachable 4 _ _ w (reach_opened 4) E)) as (Hw & _).
  vm_compute in E. injection E as <-. split_and!; [done..|exact Hw].
Defined.

(** ** Waiting and closing *)

Lemma run_call w i t ch :
  w_calls w !! i = Some t → step (Run i ch) w = None → call_step ch t (w_conn w) = None.
Proof. simpl. intros -> E. simpl in E. by destruct (call_step _ _ _) as [[]|]. Qed.

(** A call that cannot go on has returned or waits in [Read] for [pending]. *)
Lemma stuck_call w i t :
  sound w → (∀ ch, step (Run i ch) w = None) → w_calls w !! i = Some t →
  finished t = true ∨ owned t = [] ∧ pending (w_conn w) = None ∧ done (w_conn w) = false.
Proof.
  intros Hw Hs Ht. destruct (sending t) eqn:Es.
  { destruct (sending_steps w i t go Hw Ht Es) as [? E]. by rewrite Hs in E. }
  assert (∀ branch err, call_step (mkChoice branch err) t (w_conn w) = None) as Hc
    by (intros; by eapply run_call).
  destruct t as [|size|? r| | | | | | | | | | |]; try done; try (by left);
    pose proof (Hc true None) as Hc1; pose proof (Hc false None) as Hc2; simpl in *; try done.
  - right. by destruct (pending _), (done _).
  - by case_match.
  - by case_match.
Qed.

Lemma all_owned_nil ts : (∀ i t, ts !! i = Some t → owned t = []) → ts ≫= owned = [].
Proof.
  induction ts as [|t ts IH]; intros H; [done|]. rewrite bind_cons, (H 0 t eq_refl), IH; [done|].
  intros i t' Ht. by apply (H (S i)).
Qed.

Lemma finished_owned t : finished t = true → owned t = [].
Proof. by destruct t. Qed.

(** Where the token is when no call and not the goroutine can go on. *)
Lemma stuck_token w :
  sound w → (∀ i ch, step (Run i ch) w = None) → (∀ branch, step (RunAhead branch) w = None) →
  w_ahead w = FromSocket ∨ w_ahead w = Exited ∨
  w_ahead w = Selecting ∧ done (w_conn w) = false ∧ is_Some (pending (w_conn w)).
Proof.
  intros Hw Hs Hg. destruct (w_ahead w) as [| |r|] eqn:E; [|tauto| |tauto].
  2: { destruct (handing_steps w r true Hw E) as [? E']. by rewrite Hg in E'. }
  right. right. split; [done|].
  pose proof (Hg true) as Hg1. pose proof (Hg false) as Hg2. simpl in Hg1, Hg2.
  rewrite E in Hg1, Hg2. simpl in Hg1, Hg2.
  destruct (wantRead (w_conn w)) eqn:En, (done (w_conn w)) eqn:Ed; try done. split; [done|].
  destruct (so_token _ Hw) as (k & Hk%Permutation_singleton_r & _).
  unfold tokens, in_channels in Hk. rewrite E, En, all_owned_nil in Hk.
  - destruct (pending _); [eauto|done].
  - intros i t Ht. destruct (stuck_call w i t Hw (Hs i) Ht) as [?|(? & _)]; auto using finished_owned.
Qed.

(** After [done] is closed every step of what is under way takes from the load. *)
Lemma load_decreases ev w w' :
  done (w_conn w) = true → internal ev = true → step ev w = Some w' →
  load w' < load w ∧ done (w_conn w') = true.
Proof.
  intros Hd Hi Hs. destruct ev as [size| | |i ch|branch|buf n err]; try done; simpl in Hs.
  - apply bind_Some in Hs as (t & Ht & ([t' c'] & Hc & ?)%bind_Some). simplify_eq/=.
    split; [|by eapply call_done].
    pose proof (load_split i t t' _ Ht) as Hl. unfold load. simpl.
    destruct (w_conn w) as [p want d m b] eqn:Ew. simpl in Hd. subst d.
    assert ((if wantRead c' then 3 else 0) + call_load t' < (if want then 3 else 0) + call_load t)
      by (destruct t; call_cases Hc; repeat case_match; simpl; lia).
    simpl. lia.
  - apply bind_Some in Hs as ([g c'] & Hg & ?). simplify_eq/=. unfold load.
    destruct w as [[p want d m b] g0 ts ar lg]. simpl in *. subst d.
    destruct g0; call_cases Hg; split; try done; lia.
  - apply bind_Some in Hs as ([g c'] & Hg & ?). simplify_eq/=. unfold load.
    destruct w as [[p want d m b] g0 ts ar lg]. simpl in *. subst d.
    destruct g0; call_cases Hg; split; try done; lia.
Qed.

Lemma run_bounded evs w w' :
  done (w_conn w) = true → Forall (λ ev, internal ev = true) evs → run evs w = Some w' →
  length evs + load w' ≤ load w.
Proof.
  revert w. induction evs as [|ev evs IH]; simpl; intros w Hd Hi E; [simplify_eq; lia|].
  apply Forall_cons in Hi as [Hi His]. apply bind_Some in E as (w1 & E1 & E2).
  destruct (load_decreases _ _ _ Hd Hi E1) as [? Hd1]. specialize (IH w1 Hd1 His E2). lia.
Qed.

Lemma stuck_ends w :
  sound w → (∀ i ch, step (Run i ch) w = None) → (∀ branch, step (RunAhead branch) w = None) →
  w_ahead w = FromSocket ∨ ended w ∨
  (∀ i t, w_calls w !! i = Some t → finished t = true) ∧
    done (w_conn w) = false ∧ is_Some (pending (w_conn w)).
Proof.
  intros Hw Hs Hg. destruct (stuck_token w Hw Hs Hg) as [?|[E|(E & Hd & [r Hp])]]; [tauto|..].
  - right. left. split; [done|]. intros i t Ht. pose proof (so_exit _ Hw E) as Hd.
    destruct (stuck_call w i t Hw (Hs i) Ht) as [?|(_ & _ & ?)]; congruence.
  - right. right. split; [|by rewrite Hp].
    intros i t Ht. destruct (stuck_call w i t Hw (Hs i) Ht) as [?|(_ & ? & _)]; congruence.
Qed.

Lemma run_done evs w w' : done (w_conn w) = true → Forall (λ ev, internal ev = true) evs →
  run evs w = Some w' → done (w_conn w') = true.
Proof.
  revert w. induction evs as [|ev evs IH]; simpl; intros w Hd Hi E; [by simplify_eq|].
  apply Forall_cons in Hi as [Hi His]. apply bind_Some in E as (w1 & E1 & E2).
  destruct (load_decreases _ _ _ Hd Hi E1). eauto.
Qed.

(** A read of the socket can always return. *)
Lemma socket_can_return w : w_ahead w = FromSocket →
  is_Some (step (SocketReturns (buffer (w_conn w)) 0 None) w).
Proof. intros E. simpl. rewrite E. simpl. rewrite bool_decide_eq_true_2 by done. simpl. eauto. Qed.

Lemma closed_ends w :
  sound w → done (w_conn w) = true → (∀ ev, internal ev = true → step ev w = None) → ended w.
Proof.
  intros Hw Hd Hs.
  destruct (stuck_ends w Hw) as [E|[?|(_ & ? & _)]]; [intros; by apply Hs..| |done|congruence].
  destruct (socket_can_return w E) as [? E']. by rewrite Hs in E'.
Qed.

(** C16. Only the socket is waited for, and Close ends everything.  When no call and not
    the goroutine can go on, the goroutine is in a read of the socket, or every call has
    returned and the goroutine has exited or keeps unread bytes for the next Read.  Once
    Close has closed the channel done, no more steps are left than the load counts, and
    they end with every call returned and the goroutine gone. *)
Theorem close_ends_everything (size : Z) (w : world) :
  reachable size w →
  ((∀ i ch, step (Run i ch) w = None) → (∀ branch, step (RunAhead branch) w = None) →
   w_ahead w = FromSocket ∨ ended w ∨
   (∀ i t, w_calls w !! i = Some t → finished t = true) ∧
     done (w_conn w) = false ∧ is_Some (pending (w_conn w))) ∧
  (done (w_conn w) = true →
   ∀ evs w', Forall (λ ev, internal ev = true) evs → run evs w = Some w' →
     length evs ≤ load w ∧ ((∀ ev, internal ev = true → step ev w' = None) → ended w')).
Proof.
  intros Hr. pose proof (reachable_sound _ _ Hr) as Hw. split.
  - intros Hs Hg. by apply stuck_ends.
  - intros Hd evs w' Hi E. split; [pose proof (run_bounded _ _ _ Hd Hi E); lia|].
    intros Hs. pose proof (reachable_sound _ _ (steps_reachable _ _ _ _ Hr E)) as Hw'.
    apply closed_ends; [done| |done]. by eapply run_done.
Qed.

(** Closing the sample: two more steps, and everything has ended. *)
Lemma close_ends_everything_witness :
  ∃ w w', run (sample_events ++ [CallClose; Run 3 go]) (opened 4) = Some w ∧
    run [RunAhead false; Run 3 go] w = Some w' ∧ 2 ≤ load w ∧ ended w'.
Proof.
  destruct (run (sample_events ++ [CallClose; Run 3 go]) (opened 4)) as [w|] eqn:E;
    [|by vm_compute in E].
  pose proof (close_ends_everything 4 w (steps_reachable 4 _ _ w (reach_opened 4) E)) as (_ & Hw).
  vm_compute in E. injection E as <-.
  destruct (Hw eq_refl [RunAhead false; Run 3 go] _ ltac:(by repeat constructor) eq_refl) as (Hl & He).
  eexists _, _. split_and!; [reflexivity..|exact Hl|]. apply He.
  intros [| | |[|[|[|[|i]]]] ch|[]|] ?; done.
Defined.

(** ** Probing an idle connection *)

Lemma run_last ch t t' c c' g ts ar lg :
  call_step ch t c = Some (t', c') → copies (length ts) t t' = [] →
  step (Run (length ts) ch) (mkWorld c g (ts ++ [t]) ar lg) = Some (mkWorld c' g (ts ++ [t']) ar lg).
Proof.
  intros Hs Hc. unfold step. cbn [w_calls w_conn w_ahead w_arrived w_copied].
  rewrite list_lookup_middle by done. simpl. rewrite Hs. simpl.
  by rewrite Hc, app_nil_r, insert_app_r_alt, Nat.sub_diag by lia.
Qed.

(** The token of a connection without calls is in a channel or with the goroutine. *)
Lemma idle_tokens w :
  (∀ i t, w_calls w !! i = Some t → finished t = true) →
  tokens w = in_channels (w_conn w) ++ with_goroutine (w_ahead w).
Proof.
  intros Hi. unfold tokens. rewrite all_owned_nil, app_nil_r; [done|].
  intros i t Ht. apply finished_owned. eauto.
Qed.

(** The goroutine has done what it can: it is in a read, or has handed one over. *)
Definition settled (w : world) : bool :=
  match w_ahead w with
  | Selecting => negb (wantRead (w_conn w))
  | Handing _ => false
  | FromSocket | Exited => true
  end.

(** The last read of the socket failed, and no call of [Read] has been told. *)
Definition failure_untold (w : world) : Prop :=
  (∃ before bs e, w_arrived w = before ++ [(bs, Some e)]) ∧
  flat (w_copied w).*2 ≠ flat (w_arrived w).

Lemma failure_untold_iff w r :
  accounts w (Unread r) → failure_untold w ↔ is_Some (pr_err r).
Proof.
  intros (_ & before & taken & Ha & Hl). unfold failure_untold. rewrite Ha, Hl. split.
  - intros [(b & bs & e & E) _]. apply app_inj_tail in E as [_ E]. simplify_eq.
    match goal with H : _ = Some e |- _ => rewrite H end. eauto.
  - intros [e ->]. split; [eauto|]. intros E%(f_equal length).
    rewrite flat_app in E. simpl in E.
    rewrite !length_app, fmap_app, !length_app in E. simpl in E. lia.
Qed.

(** A settled connection without calls: nothing is pending and everything has been
    told, or the pending read accounts for the rest. *)
Lemma settled_accounts w :
  sound w → (∀ i t, w_calls w !! i = Some t → finished t = true) → settled w = true →
  done (w_conn w) = false →
  match pending (w_conn w) with Some r => accounts w (Unread r) | None => accounts w Request end.
Proof.
  intros [(k & Hk%Permutation_singleton_r & Ha) _ He] Hi Hs Hd. rewrite idle_tokens in Hk by done.
  unfold settled, in_channels in *.
  destruct (w_ahead w) eqn:Eg, (pending _) eqn:Ep, (wantRead _) eqn:En; simplify_eq/=; try done;
    by rewrite He in Hd.
Qed.

Lemma run_last_cons ch evs t t' c c' g ts ar lg :
  call_step ch t c = Some (t', c') → copies (length ts) t t' = [] →
  run (Run (length ts) ch :: evs) (mkWorld c g (ts ++ [t]) ar lg)
  = run evs (mkWorld c' g (ts ++ [t']) ar lg).
Proof. intros Hs Hc. cbn [run]. by rewrite (run_last _ _ _ _ _ _ _ _ _ Hs Hc). Qed.

(** [peerAlive] of a connection that is not closed reports the error of what is pending
    and leaves everything as it was. *)
Lemma probe_runs c g ts ar lg :
  ∃ evs alive,
    Forall (λ ev, ev = Run (length ts) go) evs ∧
    run (CallPeerAlive :: evs) (mkWorld c g ts ar lg) = Some (mkWorld c g (ts ++ [Probed alive]) ar lg) ∧
    alive = negb (done c) &&
      match pending c with Some r => negb (bool_decide (is_Some (pr_err r))) | None => true end.
Proof.
  destruct c as [p want d m b].
  exists (replicate (if d then 1 else if p then 3 else 2) (Run (length ts) go)).
  eexists. split_and!; [by apply Forall_replicate| |reflexivity].
  change (run (CallPeerAlive :: ?evs) (mkWorld ?c g ts ar lg))
    with (run evs (mkWorld c g (ts ++ [Probing]) ar lg)).
  destruct d; [|destruct p as [r|]]; cbn [replicate];
    repeat (erewrite run_last_cons by done); try done.
  cbn. by destruct (pr_err r).
Qed.

(** Its answer is exact. *)
Lemma probe_answer w :
  sound w → (∀ i t, w_calls w !! i = Some t → finished t = true) → settled w = true →
  negb (done (w_conn w)) &&
    match pending (w_conn w) with
    | Some r => negb (bool_decide (is_Some (pr_err r)))
    | None => true
    end = false ↔ done (w_conn w) = true ∨ failure_untold w.
Proof.
  intros Hw Hi Hs. pose proof (settled_accounts _ Hw Hi Hs) as Hp.
  destruct (done (w_conn w)) eqn:Hd; simpl; [tauto|]. specialize (Hp eq_refl).
  destruct (pending (w_conn w)) as [r|].
  - rewrite (failure_untold_iff w r Hp). case_bool_decide; simpl; intuition congruence.
  - split; [done|]. intros [?|[_ Hn]]; [done|]. by destruct Hn.
Qed.

(** C35. Asked while no other call runs and after the goroutine has settled, peerAlive
    returns by its own steps and changes nothing; and it answers that the peer is gone
    exactly when the connection was closed, or the last read of the socket failed and
    no Read has returned its error yet. *)
Theorem peer_alive_exact (size : Z) (w : world) :
  reachable size w → (∀ i t, w_calls w !! i = Some t → finished t = true) → settled w = true →
  ∃ evs alive,
    Forall (λ ev, ev = Run (length (w_calls w)) go) evs ∧
    run (CallPeerAlive :: evs) w = Some (w <| w_calls := w_calls w ++ [Probed alive] |>) ∧
    (alive = false ↔ done (w_conn w) = true ∨ failure_untold w).
Proof.
  intros Hw%reachable_sound Hi Hs. destruct w as [c g ts ar lg].
  destruct (probe_runs c g ts ar lg) as (evs & alive & He & Hr & Ha).
  exists evs, alive. split_and!; [done..|]. rewrite Ha. by apply (probe_answer (mkWorld c g ts ar lg)).
Qed.

(** The sample holds back an error: its peer is known to be gone. *)
Lemma peer_alive_exact_witness :
  ∃ w w' evs, run sample_events (opened 4) = Some w ∧
    run (CallPeerAlive :: evs) w = Some w' ∧ last (w_calls w') = Some (Probed false).
Proof.
  destruct (run sample_events (opened 4)) as [w|] eqn:E; [|by vm_compute in E].
  pose proof (peer_alive_exact 4 w (steps_reachable 4 _ _ w (reach_opened 4) E)) as Hw.
  vm_compute in E. injection E as <-.
  destruct Hw as (evs & alive & _ & Hr & Ha).
  - intros [|[|[|i]]] t Ht; by simplify_eq/=.
  - done.
  - eexists _, _, evs. split_and!; [done|exact Hr|]. simpl. f_equal. f_equal. apply Ha. right.
    split; [|done]. by eexists [_], _, _.
Defined.

(** The health check of the pool, given that answer, discards the connection before
    it sends anything, whatever else it would find. *)
Corollary gone_peer_discarded size w h idlenessTimeout :
  reachable size w → (∀ i t, w_calls w !! i = Some t → finished t = true) → settled w = true →
  failure_untold w →
  ∃ evs alive,
    run (CallPeerAlive :: evs) w = Some (w <| w_calls := w_calls w ++ [Probed alive] |>) ∧
    (server.h_peerAlive h = alive → server.healthCheck h idlenessTimeout = (false, None)).
Proof.
  intros Hw%reachable_sound Hi Hs Hf. destruct w as [c g ts ar lg].
  destruct (probe_runs c g ts ar lg) as (evs & alive & _ & Hr & Ha). exists evs, alive.
  split; [done|]. unfold server.healthCheck. intros ->.
  pose proof (proj2 (probe_answer (mkWorld c g ts ar lg) Hw Hi Hs) (or_intror Hf)) as He.
  simpl in He. by rewrite Ha, He.
Qed.

(** ** Bytes nobody asked for hide a close *)

(** While bytes are waiting the goroutine does not read the socket, so that no close of
    the peer that follows them is seen: a connection that has bytes waiting is taken
    for alive, whatever the peer does, until they are read. *)
Definition unasked_events : list event :=
  [RunAhead true; SocketReturns [Byte.x01; Byte.x00; Byte.x00; Byte.x00] 1 None; RunAhead true].

Theorem unread_bytes_hide_close :
  ∃ w, run unasked_events (opened 4) = Some w ∧
    (∀ ev, internal ev = true → step ev w = None) ∧
    run [CallPeerAlive; Run 0 go; Run 0 go; Run 0 go] w = Some (w <| w_calls := [Probed true] |>).
Proof.
  eexists. split; [vm_compute; reflexivity|]. split; [|done].
  intros [| | |i ch|[]|] ?; done.
Qed.

End ReadAheadFacts.
