(* ===== verification/Bookmarks.v ===== *)
(** Bookmarks: the sets of internal/collections/set.go, the bookmark manager of
    neo4j/bookmarks.go and the bookmarks of a session (session_bookmarks.go). *)

From S2P Require Import Prelude Values Errors.
From stdpp Require Import gmap strings.
#[local] Open Scope Z_scope.
#[local] Open Scope go_scope.

(** * Sets *)

Module collections.

(** [Values] ranges over a map, so its order is not specified; the model takes
    that of [elements]. *)
Definition Set_ : Type := gset string.
Definition NewSet (values : list string) : Set_ := list_to_set values.
Definition AddAll (values : list string) (s : Set_) : Set_ :=
  foldl (λ s v, {[v]} ∪ s) s values.
Definition RemoveAll (values : list string) (s : Set_) : Set_ :=
  foldl (λ s v, s ∖ {[v]}) s values.
Definition Values (s : Set_) : list string := elements s.

Lemma AddAll_union l s : AddAll l s = list_to_set l ∪ s.
Proof.
  unfold AddAll. revert s. induction l as [| v l IH]; intros s; simpl; [set_solver |].
  rewrite IH. set_solver.
Qed.

Lemma RemoveAll_difference l s : RemoveAll l s = s ∖ list_to_set l.
Proof.
  unfold RemoveAll. revert s. induction l as [| v l IH]; intros s; simpl; [set_solver |].
  rewrite IH. set_solver.
Qed.

Lemma elem_of_Values v s : v ∈ Values s ↔ v ∈ s.
Proof. apply elem_of_elements. Qed.
End collections.

(** * The bookmark manager

    The supplier and the consumer of the configuration are functions of the user;
    [U] is their state. *)

Record BookmarkManagerConfig (U : Type) : Type := mkBookmarkManagerConfig {
  InitialBookmarks : list string;
  BookmarkSupplier : option (GoM U (error + list string));
  BookmarkConsumer : option (list string → GoM U (option error))
}.
Arguments mkBookmarkManagerConfig {U}.
Arguments InitialBookmarks {U}.
Arguments BookmarkSupplier {U}.
Arguments BookmarkConsumer {U}.

Module bookmarkManager.
Section Manager.
Context {U : Type}.
Variable config : BookmarkManagerConfig U.
Import collections.

(** The set and the state of the user's functions. *)
Record manager : Type := mkManager { bookmarks : Set_; user : U }.
Abbreviation M := (GoM manager).

Definition on_user {A} (m : GoM U A) : M A := λ s,
  match m (user s) with
  | Done (a, u) => Done (a, s <| user := u |>)
  | Panic => Panic
  | OutOfFuel => OutOfFuel
  end.

Definition NewBookmarkManager (u : U) : manager := mkManager (NewSet (InitialBookmarks config)) u.

Definition UpdateBookmarks (previousBookmarks newBookmarks : list string) : M (option error) :=
  match newBookmarks with
  | [] => mret None
  | _ =>
      go_modify (λ s, s <| bookmarks := RemoveAll previousBookmarks (bookmarks s) |>);;
      go_modify (λ s, s <| bookmarks := AddAll newBookmarks (bookmarks s) |>);;
      bookmarksToNotify ← go_get (λ s, Values (bookmarks s));
      match BookmarkConsumer config with
      | Some consume => on_user (consume bookmarksToNotify)
      | None => mret None
      end
  end.

(** A supplier may return a nil slice, which is an empty list here: the copy
    without additions is the same either way. *)
Definition GetBookmarks : M (error + list string) :=
  extra ← match BookmarkSupplier config with
          | Some supply => on_user supply
          | None => mret (inr [])
          end;
  match extra with
  | inl e => mret (inl e)
  | inr extraBookmarks =>
      s ← go_get bookmarks;
      if decide (size s = 0%nat) then mret (inr extraBookmarks)
      else mret (inr (Values (AddAll extraBookmarks s)))
  end.

(** C38. The bookmark manager chains causally: after an update, whatever it hands
    out contains the new bookmarks; of the bookmarks it had before it keeps exactly
    those that were not replaced, and it adds only those of the supplier. *)
Theorem bookmarks_chain prev new (s s1 s2 : manager) e l :
  new ≠ [] →
  UpdateBookmarks prev new s = Done (e, s1) → GetBookmarks s1 = Done (inr l, s2) →
  ∃ extra,
    match BookmarkSupplier config with
    | Some supply => ∃ u, supply (user s1) = Done (inr extra, u)
    | None => extra = []
    end ∧
  ∀ b, b ∈ l ↔ b ∈ new ∨ (b ∈ bookmarks s ∧ b ∉ prev) ∨ b ∈ extra.
Proof.
  intros Hn Hu Hg.
  assert (Hs : bookmarks s1 = AddAll new (RemoveAll prev (bookmarks s))).
  { destruct new as [| n new]; [done |]. unfold UpdateBookmarks, mbind, GoM_bind in Hu. simpl in Hu.
    destruct (BookmarkConsumer config) as [c |]; [| by injection Hu as _ <-].
    unfold on_user in Hu. destruct (c _ _) as [[? ?] | |]; [| done..]. by injection Hu as _ <-. }
  assert (Hm : ∀ b, b ∈ bookmarks s1 ↔ b ∈ new ∨ (b ∈ bookmarks s ∧ b ∉ prev)).
  { intros b. rewrite Hs, AddAll_union, RemoveAll_difference. set_solver. }
  assert (Hnz : size (bookmarks s1) ≠ 0%nat).
  { destruct new as [| n new]; [done |]. intros Hz%size_empty_inv.
    specialize (Hm n). set_solver. }
  unfold GetBookmarks, mbind, GoM_bind in Hg.
  assert (Hin : ∀ extra b, b ∈ Values (AddAll extra (bookmarks s1)) ↔
      b ∈ new ∨ (b ∈ bookmarks s ∧ b ∉ prev) ∨ b ∈ extra).
  { intros extra b. rewrite elem_of_Values, AddAll_union, elem_of_union, Hm. set_solver. }
  destruct (BookmarkSupplier config) as [sup |].
  - unfold on_user in Hg. destruct (sup (user s1)) as [[[e' | extra] u] | |]; try done.
    unfold go_get in Hg. simpl in Hg. rewrite decide_False in Hg by done.
    injection Hg as <- _. exists extra. split; [by exists u | apply Hin].
  - unfold go_get in Hg. simpl in Hg. rewrite decide_False in Hg by done.
    injection Hg as <- _. exists []. split; [done | intros b; exact (Hin [] b)].
Qed.
End Manager.

(** A manager that knows [a] and [b], with a supplier of [x]; [b] was replaced. *)
Definition sample_config : BookmarkManagerConfig unit :=
  mkBookmarkManagerConfig ["a"; "b"] (Some (mret (inr ["x"]))) None.

Lemma bookmarks_chain_witness :
  ∃ extra, (∃ u : unit, mret (M := GoM unit) (inr (A := error) ["x"]) tt = Done (inr extra, u)) ∧
  ∀ b, b ∈ ["c"; "a"; "x"] ↔
    b ∈ ["c"] ∨ (b ∈ bookmarks (NewBookmarkManager sample_config tt) ∧ b ∉ ["b"]) ∨ b ∈ extra.
Proof.
  apply (bookmarks_chain sample_config ["b"] ["c"] (NewBookmarkManager sample_config tt)
    (mkManager {["a"; "c"]} tt) (mkManager {["a"; "c"]} tt) None);
    [done | vm_compute; reflexivity | vm_compute; reflexivity].
Defined.
End bookmarkManager.

(** [CombineBookmarks] *)
Definition CombineBookmarks (bookmarks : list (list string)) : list string := concat bookmarks.

(** * Bookmarks of a session *)

Definition cleanupBookmarks (bookmarks : list string) : list string :=
  List.filter (λ b, negb (bool_decide (b = ""))) bookmarks.
