(* ===== verification/TokenManager.v ===== *)
(** The token managers of the driver: neo4j/auth/auth.go.

    A manager caches the token its provider returned until it expires or the server
    rejects it.  The lock is held for a whole call, so a call is one step; a call may
    fail to get the lock in time. *)

From S2P Require Import Prelude Errors Bookmarks.
#[local] Open Scope Z_scope.
#[local] Open Scope go_scope.

Module tokenManager.

Section Manager.
Context {T W : Type} `{EqDecision T}.

(** [expiration] is in nanoseconds; a token is what [auth.Token] holds. *)
Record neo4jAuthTokenManager : Type := mkManager {
  provider : GoM W (error + T * option Z);
  token : option T;
  expiration : option Z;
  handledSecurityCodes : list string
}.

(** [provider] is a function of the user and acts on the world. *)
Abbreviation M := (GoM (neo4jAuthTokenManager * W)).

Definition call_provider : M (error + T * option Z) := λ s,
  match provider s.1 s.2 with
  | Done (r, w) => Done (r, (s.1, w))
  | Panic => Panic
  | OutOfFuel => OutOfFuel
  end.

Definition set_token (t : option T) (e : option Z) : M unit :=
  go_modify (λ s, (mkManager (provider s.1) t e (handledSecurityCodes s.1), s.2)).

(** [m.expiration != nil && itime.Now().After( *m.expiration)] *)
Definition expired (now : Z) (e : option Z) : bool :=
  match e with Some e => e <? now | None => false end.

Definition GetAuthToken (locked : bool) (now : Z) : M (error + T) :=
  if negb locked
  then mret (inl (LockTimeoutError "could not acquire lock in time when getting token in neo4jAuthTokenManager"))
  else
    m ← go_get fst;
    match token m, expired now (expiration m) with
    | Some t, false => mret (inr t)
    | _, _ =>
        r ← call_provider;
        match r with
        | inl e => mret (inl e)
        | inr (t, e) => set_token (Some t) e;; mret (inr t)
        end
    end.

(** [reflect.DeepEqual] compares the entries of the tokens. *)
Definition HandleSecurityException (locked : bool) (t : T) (code : string) : M (error + bool) :=
  m ← go_get fst;
  if decide (code ∉ handledSecurityCodes m) then mret (inr false)
  else if negb locked
  then mret (inl (LockTimeoutError ("could not acquire lock in time when handling security exception " +:+
                                    "in neo4jAuthTokenManager")))
  else
    (if decide (token m = Some t) then set_token None (expiration m) else mret tt);;
    mret (inr true).

Definition wrapWithNilExpiration (p : GoM W (error + T)) : GoM W (error + T * option Z) :=
  r ← p; mret (match r with inl e => inl e | inr t => inr (t, None) end).

Definition Unauthorized : string := "Neo.ClientError.Security.Unauthorized".
Definition TokenExpired : string := "Neo.ClientError.Security.TokenExpired".

Definition BasicTokenManager (p : GoM W (error + T)) : neo4jAuthTokenManager :=
  mkManager (wrapWithNilExpiration p) None None (collections.Values (collections.NewSet [Unauthorized])).

Definition BearerTokenManager (p : GoM W (error + T * option Z)) : neo4jAuthTokenManager :=
  mkManager p None None (collections.Values (collections.NewSet [TokenExpired; Unauthorized])).
End Manager.
End tokenManager.
Import tokenManager.

(** * What a client sees

    The world is the history of what happened; the provider may answer anything,
    depending on that history. *)

Section History.
Context {T : Type} `{EqDecision T}.

Inductive event : Type :=
| Provided (t : T) (e : option Z)      (* the provider returned a token *)
| Refused                              (* the provider failed *)
| Served (now : Z) (t : T)             (* a caller got a token *)
| Failed (now : Z)                     (* a caller got an error *)
| Rejected (t : T).                    (* the server's rejection was handled *)

Variable answer : list event → error + T * option Z.

(** The latest event comes first. *)
Definition asked : GoM (list event) (error + T * option Z) := λ w,
  Done (answer w, match answer w with inl _ => Refused | inr (t, e) => Provided t e end :: w).

Inductive call : Type :=
| Get (locked : bool) (now : Z)
| Handle (locked : bool) (t : T) (code : string).

Abbreviation state := (neo4jAuthTokenManager (T := T) (W := list event) * list event)%type.

Definition note (e : event) : GoM state unit := go_modify (λ s, (s.1, e :: s.2)).

Definition perform (c : call) : GoM state unit :=
  match c with
  | Get locked now =>
      r ← GetAuthToken locked now;
      match r with inr t => note (Served now t) | inl _ => note (Failed now) end
  | Handle locked t code =>
      r ← HandleSecurityException locked t code;
      match r with inr true => note (Rejected t) | _ => mret tt end
  end.

Fixpoint performs (cs : list call) : GoM state unit :=
  match cs with
  | [] => mret tt
  | c :: cs => perform c;; performs cs
  end.

(** The token the history leaves: the latest provided, if it was not rejected since. *)
Fixpoint current (w : list event) : option (T * option Z) :=
  match w with
  | [] => None
  | Provided t e :: _ => Some (t, e)
  | Rejected t :: w =>
      match current w with
      | Some (t', e) => if decide (t' = t) then None else Some (t', e)
      | None => None
      end
  | _ :: w => current w
  end.

(** There is no token that could be served at [now]. *)
Definition needed (now : Z) (w : list event) : Prop :=
  match current w with None => True | Some (_, e) => expired now e = true end.

(** Every token that was served was either provided for this very call, because it was
    needed, or it is the latest provided one, not rejected since and not expired.  The
    provider is asked at no other time. *)
Fixpoint sound (w : list event) : Prop :=
  match w with
  | [] => True
  | Served now t :: Provided t' e :: w => t' = t ∧ needed now w ∧ sound w
  | Served now t :: w => (∃ e, current w = Some (t, e) ∧ expired now e = false) ∧ sound w
  | Failed now :: Refused :: w => needed now w ∧ sound w
  | Failed _ :: w | Rejected _ :: w => sound w
  | Provided _ _ :: _ | Refused :: _ => False
  end.

(** The manager holds what the history leaves. *)
Definition holds (codes : list string) (s : state) : Prop :=
  provider s.1 = asked ∧ handledSecurityCodes s.1 = codes ∧
  (∀ t, token s.1 = Some t → current s.2 = Some (t, expiration s.1)) ∧
  (token s.1 = None → current s.2 = None) ∧ sound s.2.

Lemma sound_served now t e w :
  current w = Some (t, e) → expired now e = false → sound w → sound (Served now t :: w).
Proof. intros Hc He Hs. destruct w as [| [] w]; [done | done | done | ..]; simpl; split; eauto. Qed.

Lemma sound_failed now w : sound w → sound (Failed now :: w).
Proof. by destruct w as [| []]. Qed.

Lemma perform_holds codes c s : holds codes s → ∃ s', perform c s = Done (tt, s') ∧ holds codes s'.
Proof.
  intros (Hp & Hc & Ht & Hn & Hs). destruct s as [[p tok ex cs] w]. simpl in *. subst p cs.
  destruct c as [locked now | locked t code].
  - unfold perform, GetAuthToken. destruct locked.
    2:{ eexists. split; [reflexivity |]. split_and!; try done. by apply sound_failed. }
    unfold mbind, GoM_bind, go_get. simpl.
    destruct tok as [t |], (expired now ex) eqn:Hex.
    2:{ eexists. split; [reflexivity |]. split_and!; try done. apply (sound_served _ _ ex); auto. }
    all: unfold mbind, GoM_bind, call_provider; simpl; destruct (answer w) as [e | [t' e]] eqn:Ha;
      eexists; (split; [reflexivity |]); split_and!; simpl; try done; try naive_solver.
    all: unfold needed; rewrite ?Hn by done; rewrite ?(Ht t) by done; by rewrite ?Hex.
  - unfold perform, HandleSecurityException, mbind, GoM_bind, go_get. simpl.
    case_decide; [by eexists |]. destruct locked; [| by eexists]. simpl.
    destruct (decide (tok = Some t)) as [-> | Hne].
    + eexists. split; [reflexivity |]. split_and!; simpl; try done. by rewrite (Ht t), decide_True.
    + eexists. split; [reflexivity |]. split_and!; simpl; try done.
      * intros t' ->. rewrite (Ht t') by done. by rewrite decide_False by congruence.
      * intros ->. by rewrite Hn.
Qed.

(** C34. Over any calls of any clients, whatever the provider answers: a manager serves
    either the token that it got from its provider last, if no rejection of it has been
    handled since and its time has not passed, or one that the provider returned for
    this very call, which happens only when there is no token of the first kind.  The
    provider is asked at no other time.  (What it returns is served as it is: a provider
    that returns an expired token, or a rejected one again, has it served.) *)
Theorem tokens_current codes cs :
  ∃ s', performs cs (mkManager asked None None codes, []) = Done (tt, s') ∧ sound s'.2.
Proof.
  assert (H : ∀ s, holds codes s → ∃ s', performs cs s = Done (tt, s') ∧ holds codes s').
  { induction cs as [| c cs IH]; intros s Hs; [by eexists |].
    destruct (perform_holds codes c s Hs) as (s1 & E1 & Hs1). destruct (IH s1 Hs1) as (s2 & E2 & Hs2).
    exists s2. split; [| done]. simpl. unfold mbind, GoM_bind. by rewrite E1. }
  destruct (H (mkManager asked None None codes, [])) as (s' & E & Hs'); [by split_and!; simpl |].
  exists s'. split; [done | apply Hs'].
Qed.
End History.
