(* ===== verification/HomeDb.v ===== *)
(** The cache of home databases (internal/homedb/cache.go): a map from users to the
    database the server chose for them, pruned of the least recently used entries
    when it outgrows its maximum.  Every method holds the lock while it works, so a
    call is one step. *)

From S2P Require Import Prelude Values Errors Messages Outgoing Retry.
From stdpp Require Import gmap strings sorting.
From Stdlib Require Import Floats.SpecFloat.
#[local] Open Scope Z_scope.
#[local] Open Scope go_scope.

Module homedb.

Definition DefaultCacheMaxSize : Z := 1000.

Record cacheEntry : Type := mkCacheEntry { database : string; lastUsed : Z }.

Record Cache : Type := mkCache {
  maxSize : Z;
  pruneFactor : Z;
  cache : gmap string cacheEntry;
  enabled : bool
}.

(** [math.Round] and the conversion to an int, for finite numbers: halves go away
    from zero. *)
Definition round (f : retry.float64) : Z :=
  match f with
  | S754_finite s m e =>
      let a := if 0 <=? e then Z.pos m * 2 ^ e else (Z.pos m + 2 ^ (- e - 1)) / 2 ^ (- e) in
      if s then - a else a
  | _ => 0
  end.

(** The float64 nearest to 0.01. *)
Definition share : retry.float64 := S754_finite false 5764607523034235 (-59).

Section Cache.
(** [math.Log], and the order in which [sort.Slice] leaves the entries: sorted by
    [lastUsed], in any order among equals. *)
Variable log : retry.float64 → retry.float64.
Variable order : gmap string cacheEntry → list (string * cacheEntry).

Definition NewCache (size : Z) : error + Cache :=
  if size <=? 0 then inl (UsageError "Maximum cache size must be greater than 0")
  else
    let n := retry.of_int size in
    inr (mkCache size (Z.max 1 (round (retry.fmul (retry.fmul share n) (log n)))) ∅ false).

Definition IsEnabled (c : Cache) : bool := enabled c.
Definition SetEnabled (e : bool) (c : Cache) : Cache := c <| enabled := e |>.

(** [now] is what [time.Now()] returns. *)
Definition Get (now : Z) (user : string) (c : Cache) : option string * Cache :=
  if negb (IsEnabled c) then (None, c)
  else match cache c !! user with
       | None => (None, c)
       | Some entry =>
           (Some (database entry), c <| cache := <[user := entry <| lastUsed := now |>]> (cache c) |>)
       end.

Fixpoint delete_all (entries : list (string * cacheEntry)) (m : gmap string cacheEntry) :
    gmap string cacheEntry :=
  match entries with
  | [] => m
  | (user, _) :: entries => delete_all entries (delete user m)
  end.

Definition prune (c : Cache) : Cache :=
  if Z.of_nat (size (cache c)) <=? maxSize c then c
  else
    let entries := order (cache c) in
    let pruneCount := Z.min (pruneFactor c) (Z.of_nat (length entries)) in
    c <| cache := delete_all (take (Z.to_nat pruneCount) entries) (cache c) |>.

Definition Set_ (now : Z) (user db : string) (c : Cache) : Cache :=
  prune (c <| cache := <[user := mkCacheEntry db now]> (cache c) |>).

(** ** Keys *)

(** [json.Marshal] of the scheme and the tokens. *)
Variable marshalCacheKey : string → gomap goval → error + string.

Definition string_of_token (key : string) (tokens : gomap goval) : option string :=
  match map_get key tokens with Some (GString s) => Some s | _ => None end.

Definition ComputeKey (impersonatedUser : string) (sessionAuth : option (gomap goval)) : error + string :=
  if negb (bool_decide (impersonatedUser = "")) then inr ("basic:" +:+ impersonatedUser)
  else match sessionAuth with
  | None => inr "DEFAULT"
  | Some tokens =>
      match string_of_token "scheme" tokens with
      | Some scheme =>
          if decide (scheme = "basic") then
            match string_of_token "principal" tokens with
            | Some principal => inr ("basic:" +:+ principal)
            | None => inr "basic:"
            end
          else if decide (scheme = "kerberos") then
            match string_of_token "credentials" tokens with
            | Some credentials => inr ("kerberos:" +:+ credentials)
            | None => marshalCacheKey "unknown" tokens
            end
          else if decide (scheme = "bearer") then
            match string_of_token "credentials" tokens with
            | Some credentials => inr ("bearer:" +:+ credentials)
            | None => marshalCacheKey "unknown" tokens
            end
          else if decide (scheme = "none") then inr "none"
          else marshalCacheKey scheme tokens
      | None => marshalCacheKey "unknown" tokens
      end
  end.
End Cache.
End homedb.

(** * Properties *)

Module HomeDbFacts.
Import homedb.

Definition older (a b : string * cacheEntry) : Prop := lastUsed a.2 <= lastUsed b.2.

Section Facts.
Variable log : retry.float64 → retry.float64.
Variable order : gmap string cacheEntry → list (string * cacheEntry).
(** [sort.Slice] permutes and sorts. *)
Hypothesis order_permutes : ∀ m, order m ≡ₚ map_to_list m.
Hypothesis order_sorts : ∀ m, StronglySorted older (order m).

Lemma delete_all_rest es rest m :
  es ++ rest ≡ₚ map_to_list m → map_to_list (delete_all es m) ≡ₚ rest.
Proof.
  revert m. induction es as [| [u e] es IH]; intros m Hm; simpl; [done |]. apply IH.
  assert (Hu : m !! u = Some e).
  { apply elem_of_map_to_list. rewrite <- Hm. left. }
  rewrite <- (map_to_list_delete m u e Hu) in Hm. simpl in Hm. by apply (Permutation_cons_inv (a := (u, e))).
Qed.

(** The number of entries that go. *)
Definition pruned (c : Cache) : nat :=
  if Z.of_nat (size (cache c)) <=? maxSize c then 0%nat
  else Z.to_nat (Z.min (pruneFactor c) (Z.of_nat (length (order (cache c))))).

Lemma prune_spec c : map_to_list (cache (prune order c)) ≡ₚ drop (pruned c) (order (cache c)) ∧
  maxSize (prune order c) = maxSize c ∧ pruneFactor (prune order c) = pruneFactor c ∧
  enabled (prune order c) = enabled c.
Proof.
  unfold prune, pruned. destruct (Z.of_nat (size (cache c)) <=? maxSize c).
  - rewrite drop_0. split; [by rewrite order_permutes | done].
  - split; [| done]. simpl. apply delete_all_rest. by rewrite take_drop.
Qed.

Lemma size_order (m : gmap string cacheEntry) : length (order m) = size m.
Proof. by rewrite (order_permutes m), length_map_to_list. Qed.

Definition bounded (c : Cache) : Prop :=
  Z.of_nat (size (cache c)) <= maxSize c ∧ 1 <= pruneFactor c ∧ 0 < maxSize c.

Lemma Set_bounded now user db c : bounded c → bounded (Set_ order now user db c).
Proof.
  intros (Hs & Hp & Hm). unfold Set_. set (c1 := c <| cache := _ |>).
  destruct (prune_spec c1) as (Hl & E1 & E2 & E3). unfold bounded. rewrite E1, E2.
  split_and!; [| done | done]. apply Permutation_length in Hl.
  rewrite length_map_to_list, length_drop, size_order in Hl. rewrite Hl. unfold pruned.
  rewrite size_order. change (maxSize c1) with (maxSize c). change (pruneFactor c1) with (pruneFactor c).
  assert (Hi : (size (cache c1) <= S (size (cache c)))%nat).
  { change (cache c1) with (<[user := mkCacheEntry db now]> (cache c)). destruct (cache c !! user) eqn:Hu.
    - rewrite map_size_insert_Some by by rewrite Hu. lia.
    - rewrite map_size_insert_None by done. lia. }
  destruct (Z.leb_spec (Z.of_nat (size (cache c1))) (maxSize c)); lia.
Qed.

Lemma Get_bounded now user c : bounded c → bounded (Get now user c).2.
Proof.
  intros (Hs & Hp & Hm). unfold Get. destruct (IsEnabled c); [| done].
  simpl. destruct (cache c !! user) as [e |] eqn:Hu; [| done].
  split; [| done]. change (Z.of_nat (size (<[user := e <| lastUsed := now |>]> (cache c))) <= maxSize c).
  by rewrite map_size_insert_Some by by rewrite Hu.
Qed.

Inductive op : Type :=
| OGet (now : Z) (user : string)
| OSet (now : Z) (user db : string)
| OSetEnabled (e : bool).

Definition apply_op (c : Cache) (o : op) : Cache :=
  match o with
  | OGet now user => (Get now user c).2
  | OSet now user db => Set_ order now user db c
  | OSetEnabled e => SetEnabled e c
  end.

(** The cache is bounded: whatever calls are made in whatever order, it never
    has more entries than the maximum it was created with. *)
Theorem cache_bounded n c ops :
  NewCache log n = inr c → Z.of_nat (size (cache (foldl apply_op c ops))) <= n.
Proof.
  unfold NewCache. destruct (Z.leb_spec n 0) as [| Hn]; [done |]. intros [= <-].
  set (c := mkCache _ _ _ _). assert (Hb : bounded c ∧ maxSize c = n) by (unfold bounded; simpl; rewrite map_size_empty; lia).
  clearbody c. revert c Hb. induction ops as [| o ops IH]; intros c [Hb Hm]; simpl.
  - destruct Hb. lia.
  - apply IH. destruct o as [now user | now user db | e]; simpl.
    + split; [by apply Get_bounded |]. rewrite <- Hm. unfold Get.
      destruct (IsEnabled c); [| done]. simpl. by destruct (cache c !! user).
    + split; [by apply Set_bounded |]. unfold Set_. by rewrite (proj1 (proj2 (prune_spec _))).
    + done.
Qed.

Lemma elem_of_pruned u e c :
  cache (prune order c) !! u = Some e ↔ (u, e) ∈ drop (pruned c) (order (cache c)).
Proof. rewrite <- elem_of_map_to_list. by rewrite (proj1 (prune_spec c)). Qed.

Lemma elem_of_order u e m : (u, e) ∈ order m ↔ m !! u = Some e.
Proof. rewrite (order_permutes m). apply elem_of_map_to_list. Qed.

Lemma taken_older (m : gmap string cacheEntry) k a b :
  a ∈ take k (order m) → b ∈ drop k (order m) → older a b.
Proof.
  intros Ha Hb. pose proof (order_sorts m) as Hs. rewrite <- (take_drop k (order m)) in Hs.
  revert Hs Ha. generalize (take k (order m)). intros l. induction l as [| x l IH]; intros Hs Ha; [set_solver |].
  simpl in Hs. apply StronglySorted_inv in Hs as [Hs Hx].
  apply elem_of_cons in Ha as [-> | Ha]; [| by apply IH].
  rewrite Forall_forall in Hx. apply Hx. set_solver.
Qed.

Lemma elem_of_parts k u e m :
  m !! u = Some e ↔ (u, e) ∈ take k (order m) ∨ (u, e) ∈ drop k (order m).
Proof. rewrite <- elem_of_order, <- elem_of_app. by rewrite take_drop. Qed.

(** Of the entries with the latest time one stays, if any stays at all. *)
Lemma latest_stays user e c :
  cache c !! user = Some e → (∀ u e', u ≠ user → cache c !! u = Some e' → lastUsed e' < lastUsed e) →
  (pruned c < length (order (cache c)))%nat → cache (prune order c) !! user = Some e.
Proof.
  intros Hu Hmax Hlt. apply elem_of_pruned.
  destruct (proj1 (elem_of_parts (pruned c) user e (cache c)) Hu) as [Ht | Hd]; [exfalso | done].
  destruct (drop (pruned c) (order (cache c))) as [| [v e'] l] eqn:Hd.
  { apply (f_equal length) in Hd. rewrite length_drop in Hd. cbn [length] in Hd. lia. }
  assert (Hv : (v, e') ∈ drop (pruned c) (order (cache c))) by (rewrite Hd; left).
  pose proof (taken_older _ _ _ _ Ht Hv) as Ho. unfold older in Ho. simpl in Ho.
  destruct (decide (v = user)) as [-> | Hne].
  - pose proof (NoDup_fst_map_to_list (cache c)) as Hnd. rewrite <- (order_permutes (cache c)) in Hnd.
    rewrite <- (take_drop (pruned c) (order (cache c))), fmap_app in Hnd.
    apply NoDup_app in Hnd as (_ & Hnd & _). apply (Hnd user).
    + by apply (list_elem_of_fmap_2 fst _ _ Ht).
    + by apply (list_elem_of_fmap_2 fst _ _ Hv).
  - assert (He : cache c !! v = Some e') by (apply (elem_of_parts (pruned c)); by right).
    specialize (Hmax v e' Hne He). lia.
Qed.

(** Setting an entry keeps what is recent: with a clock that moves on, the new
    entry is found by the next [Get]; every other entry stays as it was, or goes
    because it was used no later than any entry that stays. *)
Theorem set_keeps_recent now later user db c :
  bounded c → pruneFactor c <= maxSize c →
  map_Forall (λ _ e, lastUsed e < now) (cache c) →
  let c' := Set_ order now user db c in
  (enabled c = true → (Get later user c').1 = Some db) ∧
  ∀ u e, u ≠ user → cache c !! u = Some e →
    cache c' !! u = Some e ∨
    (cache c' !! u = None ∧ ∀ v e', cache c' !! v = Some e' → lastUsed e <= lastUsed e').
Proof.
  intros (Hs & Hp & Hm) Hf Hold. unfold Set_. set (c1 := c <| cache := _ |>).
  assert (Hc1 : cache c1 = <[user := mkCacheEntry db now]> (cache c)) by done.
  split.
  - intros He. unfold Get, IsEnabled. rewrite (proj2 (proj2 (proj2 (prune_spec c1)))).
    change (enabled c1) with (enabled c). rewrite He.
    rewrite (latest_stays user (mkCacheEntry db now) c1); [done | by rewrite Hc1, lookup_insert_eq | |].
    + intros u e' Hne Hu. rewrite Hc1, lookup_insert_ne in Hu by done. by apply (Hold u).
    + unfold pruned. rewrite size_order. change (maxSize c1) with (maxSize c).
      change (pruneFactor c1) with (pruneFactor c).
      assert (size (cache c1) ≠ 0%nat).
      { rewrite Hc1. intros Hz%map_size_empty_inv. by apply insert_non_empty in Hz. }
      destruct (Z.leb_spec (Z.of_nat (size (cache c1))) (maxSize c)); lia.
  - intros u e Hne Hu. assert (Hu1 : cache c1 !! u = Some e) by by rewrite Hc1, lookup_insert_ne.
    destruct (proj1 (elem_of_parts (pruned c1) u e _) Hu1) as [Ht | Hd]; [| left; by apply elem_of_pruned].
    destruct (cache (prune order c1) !! u) as [e' |] eqn:Hk.
    + left. apply elem_of_pruned in Hk. rewrite <- Hu1. symmetry. apply (elem_of_parts (pruned c1)). by right.
    + right. split; [done |]. intros v e' Hv. apply elem_of_pruned in Hv.
      exact (taken_older _ _ _ _ Ht Hv).
Qed.
End Facts.

(** An order for evaluation. *)
#[global] Instance older_dec a b : Decision (older a b) := decide (lastUsed a.2 <= lastUsed b.2).
Definition by_age (m : gmap string cacheEntry) : list (string * cacheEntry) := merge_sort older (map_to_list m).

#[global] Instance older_total : Total older.
Proof. intros a b. unfold older. lia. Qed.
#[global] Instance older_trans : Transitive older.
Proof. intros a b c. unfold older. lia. Qed.

Lemma by_age_permutes m : by_age m ≡ₚ map_to_list m.
Proof. apply merge_sort_Permutation. Qed.
Lemma by_age_sorts m : StronglySorted older (by_age m).
Proof. apply StronglySorted_merge_sort; apply _. Qed.

(** The logarithm of 1000, and a cache of that size: 69 entries are pruned. *)
Definition log1000 : retry.float64 := S754_finite false 7777449989018653 (-50).

Lemma default_prunes_69 : NewCache (λ _, log1000) DefaultCacheMaxSize = inr (mkCache 1000 69 ∅ false).
Proof. vm_compute. reflexivity. Qed.

Lemma cache_bounded_witness :
  Z.of_nat (size (cache (foldl (apply_op by_age) (mkCache 2 1 ∅ false)
    [OSetEnabled true; OSet 1 "a" "x"; OSet 2 "b" "y"; OGet 3 "a"; OSet 4 "c" "z"]))) <= 2.
Proof.
  apply (cache_bounded (λ _, log1000) by_age by_age_permutes 2). vm_compute. reflexivity.
Defined.

(** Of [a], used at 3, and [b], used at 2, the latter goes. *)
Lemma set_keeps_recent_witness :
  let c := mkCache 2 1 {["a" := mkCacheEntry "x" 3; "b" := mkCacheEntry "y" 2]} true in
  let c' := Set_ by_age 4 "c" "z" c in
  (enabled c = true → (Get 5 "c" c').1 = Some "z") ∧
  ∀ u e, u ≠ "c" → cache c !! u = Some e →
    cache c' !! u = Some e ∨
    (cache c' !! u = None ∧ ∀ v e', cache c' !! v = Some e' → lastUsed e <= lastUsed e').
Proof.
  intros c. apply (set_keeps_recent by_age by_age_permutes by_age_sorts).
  - split; [by vm_compute | done].
  - done.
  - apply map_Forall_insert_2; [simpl; lia |]. by apply map_Forall_singleton.
Defined.

(** ** Keys *)

(** Whose home database an entry is: an impersonated user counts like one that
    logged in by name; what is not recognized is known by its JSON. *)
Inductive identity : Type :=
| Named (user : string)
| Kerberos (credentials : string)
| Bearer (credentials : string)
| Nobody
| TheDriver
| Custom (json : string).

Definition key_of (i : identity) : string :=
  match i with
  | Named u => "basic:" +:+ u
  | Kerberos c => "kerberos:" +:+ c
  | Bearer c => "bearer:" +:+ c
  | Nobody => "none"
  | TheDriver => "DEFAULT"
  | Custom json => json
  end.

Section Keys.
Variable marshal : string → gomap goval → error + string.

Definition custom (scheme : string) (tokens : gomap goval) : error + identity :=
  match marshal scheme tokens with inl e => inl e | inr k => inr (Custom k) end.

Definition identify (impersonatedUser : string) (sessionAuth : option (gomap goval)) : error + identity :=
  if negb (bool_decide (impersonatedUser = "")) then inr (Named impersonatedUser)
  else match sessionAuth with
  | None => inr TheDriver
  | Some tokens =>
      match string_of_token "scheme" tokens with
      | None => custom "unknown" tokens
      | Some scheme =>
          let credentials := string_of_token "credentials" tokens in
          let as_ f := match credentials with Some c => inr (f c) | None => custom "unknown" tokens end in
          if decide (scheme = "basic") then inr (Named (default "" (string_of_token "principal" tokens)))
          else if decide (scheme = "kerberos") then as_ Kerberos
          else if decide (scheme = "bearer") then as_ Bearer
          else if decide (scheme = "none") then inr Nobody
          else custom scheme tokens
      end
  end.

Lemma ComputeKey_identify u a :
  ComputeKey marshal u a = match identify u a with inl e => inl e | inr i => inr (key_of i) end.
Proof.
  unfold ComputeKey, identify, custom. destruct (negb _); [done |]. destruct a as [tokens |]; [| done].
  destruct (string_of_token "scheme" tokens) as [scheme |]; [| by destruct (marshal _ _)].
  destruct (decide (scheme = "basic")); [by destruct (string_of_token "principal" tokens) |].
  destruct (decide (scheme = "kerberos")), (decide (scheme = "bearer")), (decide (scheme = "none")),
    (string_of_token "credentials" tokens); try done; by destruct (marshal _ _).
Qed.

(** Marshalling a struct gives a JSON object. *)
Hypothesis json_object : ∀ scheme tokens k, marshal scheme tokens = inr k → ∃ k', k = "{" +:+ k'.

Lemma identify_custom u a json : identify u a = inr (Custom json) → ∃ k, json = "{" +:+ k.
Proof.
  assert (Hc : ∀ scheme tokens, custom scheme tokens = inr (Custom json) → ∃ k, json = "{" +:+ k).
  { intros scheme tokens. unfold custom. destruct (marshal scheme tokens) eqn:Em; [done |].
    intros [= <-]. by eapply json_object. }
  unfold identify. destruct (negb _); [done |]. destruct a as [tokens |]; [| done].
  destruct (string_of_token "scheme" tokens) as [scheme |]; [| apply Hc].
  repeat (case_decide; [try done; try (destruct (string_of_token "credentials" tokens); [done | apply Hc]) |]).
  apply Hc.
Qed.

(** Users do not share entries of the cache: two sessions have the same key only
    if they act for the same user, by name, by the same credentials, or as nobody. *)
Theorem keys_separate u a u' a' k :
  ComputeKey marshal u a = inr k → ComputeKey marshal u' a' = inr k →
  ∃ i, identify u a = inr i ∧ identify u' a' = inr i.
Proof.
  rewrite !ComputeKey_identify. destruct (identify u a) as [| i] eqn:Ei; [done |].
  destruct (identify u' a') as [| i'] eqn:Ei'; [done |]. intros [= <-] [= Hk].
  exists i. split; [done |]. f_equal.
  destruct i, i'; cbn [key_of] in Hk;
    repeat match goal with Hi : identify _ _ = inr (Custom _) |- _ => apply identify_custom in Hi as [? ->] end;
    subst; try done; by simplify_eq/=.
Qed.
End Keys.

Lemma keys_separate_witness :
  let marshal scheme (_ : gomap goval) := inr (A := error) ("{" +:+ scheme) in
  ∃ i, identify marshal "alice" None = inr i ∧
    identify marshal "" (Some [("scheme", GString "basic"); ("principal", GString "alice")]) = inr i.
Proof.
  intros marshal. apply (keys_separate marshal) with (k := "basic:alice"); [intros ? ? ? [= <-]; by eexists | done | done].
Defined.
End HomeDbFacts.
