(* ===== verification/Session.v ===== *)
(** Sessions, transactions and results: neo4j/session.go, transaction.go, result.go
    and session_bookmarks.go.

    A session owns no connection of its own: it borrows one from the pool for each
    transaction.  Results, transactions and transaction states are objects that the
    session, the client and each other refer to, so they are kept in lists and
    referred to by index; closures are data.  Connections are the interface of
    [Connection]; pool, router, cache and bookmark manager are operations of an
    environment, which may act on any connection. *)

From S2P Require Import Prelude Values Errors Messages Outgoing Router Retry Bolt Connection Bookmarks.
#[local] Open Scope Z_scope.
#[local] Open Scope go_scope.

(** * The surroundings of a session *)

(** [sessionPool], [sessionRouter], [homedb.Cache], [BookmarkManager] as the session
    uses them, and what the retry loop reads from clock, context and sleep.  A read
    of the servers gets the function that yields the bookmarks, and returns, with
    its result, the databases that it reported to [onRoutingTableUpdated].
    [Borrow] is given the servers its argument [getServerNames] yields. *)
Class Environment (C E : Type) : Type := {
  Borrow : list string → GoM (list C * E) (error + nat);
  Return : nat → GoM (list C * E) unit;
  CleanUp : GoM (list C * E) unit;
  GetOrUpdateServers : AccessMode → GoM E (error + list string) → DatabaseSelection →
    GoM (list C * E) ((error + list string) * list string);
  Servers : AccessMode → string → E → list string;
  GetNameOfDefaultDatabase : list string → string → GoM (list C * E) (error + string);
  ComputeKey : string → GoM E (error + string);
  cache_Set : string → string → GoM E unit;
  cache_IsEnabled : E → bool;
  GetBookmarks : GoM E (error + list string);
  UpdateBookmarks : list string → list string → GoM E (option error);
  Moment : GoM E retry.moment
}.

(** * Objects *)

(** [afterConsumptionHook]: the closure of [session.Run]. *)
Record hook : Type := mkHook { h_conn : nat; h_sent : list string }.

Record result : Type := mkResult {
  r_conn : nat;
  r_stream : nat;
  r_cypher : string;
  r_params : gomap goval;
  r_record : option Record_;
  r_summary : option Summary_;
  r_err : option error;
  r_peekedRecord : option Record_;
  r_peekedSummary : option Summary_;
  r_peeked : bool;
  r_txState : nat;
  r_hook : option hook
}.

(** [resultErrorHandlers]: [onClose] of a transaction, [errorHandler] of a result. *)
Inductive errorHandler : Type :=
| closeTransaction (tx : nat)
| failResult (r : nat).

Record transactionState : Type := mkTransactionState {
  ts_err : option error;
  ts_handlers : list errorHandler
}.

(** The last field is a variable of the closure [onClose]. *)
Record explicitTransaction : Type := mkExplicitTransaction {
  x_conn : option nat;
  x_fetchSize : Z;
  x_txHandle : Z;
  x_txState : nat;
  x_beginBookmarks : list string
}.

Record managedTransaction : Type := mkManagedTransaction {
  m_conn : nat;
  m_fetchSize : Z;
  m_txHandle : Z;
  m_txState : nat
}.

Record autocommitTransaction : Type := mkAutocommitTransaction {
  a_conn : nat;
  a_res : nat
}.

(** Settings that do not change; [TransactionConfig] is what the configurers make
    of the defaults. *)
Record settings : Type := mkSettings {
  AccessMode_ : AccessMode;
  ImpersonatedUser : string;
  Notifications : NotificationConfig;
  fetchSize : Z;
  HasBookmarkManager : bool;
  DisableAutoCommitRetries : bool;
  TelemetryDisabled : bool;
  MaxRetryTime : Z;
  ThrottleTime : Z;
  MaxConnections : Z
}.

Record TransactionConfig : Type := mkTransactionConfig {
  Timeout : Z;
  Metadata : gomap goval
}.

Section Session.
Context {C E : Type} `{idb.Connection C} `{Environment C E}.
Variable show : error → string.
Variable show_duration : Z → string.
Variable cfg : settings.

(** [ss_telemetry] is the variable that the telemetry callback of the current loop
    sets. *)
Record session : Type := mkSession {
  ss_conns : list C;
  ss_env : E;
  ss_results : list result;
  ss_states : list transactionState;
  ss_txs : list explicitTransaction;
  ss_database : string;
  ss_bookmarks : list string;
  ss_resolveHomeDb : bool;
  ss_homeDbGuess : string;
  ss_homeDbCacheKey : string;
  ss_explicitTx : option nat;
  ss_autocommitTx : option autocommitTransaction;
  ss_telemetry : bool;
  ss_closed : bool
}.
Abbreviation S_ := (GoM session).

Definition on_env {A} (m : GoM (list C * E) A) : S_ A := λ s,
  match m (ss_conns s, ss_env s) with
  | Done (a, (cs, e)) => Done (a, s <| ss_conns := cs |> <| ss_env := e |>)
  | Panic => Panic
  | OutOfFuel => OutOfFuel
  end.

Definition on_user {A} (m : GoM E A) : S_ A := λ s,
  match m (ss_env s) with
  | Done (a, e) => Done (a, s <| ss_env := e |>)
  | Panic => Panic
  | OutOfFuel => OutOfFuel
  end.

(** Dereferencing; indices only come from allocation. *)
Definition deref {A} (f : session → list A) (i : nat) : S_ A := λ s,
  match f s !! i with Some a => Done (a, s) | None => Panic end.

Definition on_result (r : nat) (f : result → result) : S_ unit :=
  x ← deref ss_results r;
  go_modify (λ s, s <| ss_results := <[r := f x]> (ss_results s) |>).

Definition on_state (t : nat) (f : transactionState → transactionState) : S_ unit :=
  x ← deref ss_states t;
  go_modify (λ s, s <| ss_states := <[t := f x]> (ss_states s) |>).

Definition on_tx (t : nat) (f : explicitTransaction → explicitTransaction) : S_ unit :=
  x ← deref ss_txs t;
  go_modify (λ s, s <| ss_txs := <[t := f x]> (ss_txs s) |>).

(** ** Home database *)

Definition computeCacheKey : S_ (error + string) := on_user (ComputeKey (ImpersonatedUser cfg)).

Definition pinHomeDatabase (database : string) : S_ unit :=
  resolve ← go_get ss_resolveHomeDb;
  if resolve : bool then
    key ← computeCacheKey;
    (match key with
     | inr key => on_user (cache_Set key database)
     | inl _ => mret tt
     end);;
    go_modify (λ s, s <| ss_homeDbGuess := database |> <| ss_database := database |>
                      <| ss_resolveHomeDb := false |>)
  else mret tt.

(** ** Calls on connections

    The callbacks of a connection do not look at what it does, so they run after
    the call. *)
Fixpoint run_callbacks (l : list callback) : S_ unit :=
  match l with
  | [] => mret tt
  | c :: l =>
      (match c with
       | PinHomeDatabase database => pinHomeDatabase database
       | TelemetrySucceeded => go_modify (λ s, s <| ss_telemetry := true |>)
       | OnIoError _ => mret tt
       end);;
      run_callbacks l
  end.

(** The callbacks of connection [c] that are due. *)
Definition callbacks (c : nat) : S_ unit :=
  x ← deref ss_conns c;
  let '(l, x) := idb.Callbacks x in
  go_modify (λ s, s <| ss_conns := <[c := x]> (ss_conns s) |>);;
  run_callbacks l.

Definition on_conn {A} (c : nat) (m : GoM C A) : S_ A :=
  x ← deref ss_conns c;
  match m x with
  | Done (a, x) =>
      go_modify (λ s, s <| ss_conns := <[c := x]> (ss_conns s) |>);;
      callbacks c;;
      mret a
  | Panic => go_panic
  | OutOfFuel => go_nofuel
  end.

Definition see {A} (c : nat) (f : C → A) : S_ A := f <$> deref ss_conns c.

Definition pool_Return (c : nat) : S_ unit :=
  on_env (Return c);;
  callbacks c.

(** ** Bookmarks (session_bookmarks.go) *)

Definition replaceSessionBookmarks (newBookmark : string) : S_ unit :=
  if decide (newBookmark = "") then mret tt
  else go_modify (λ s, s <| ss_bookmarks := [newBookmark] |>).

Definition replaceBookmarks (previousBookmarks : list string) (newBookmark : string) :
    S_ (option error) :=
  if decide (newBookmark = "") then mret None
  else
    e ← (if HasBookmarkManager cfg then on_user (UpdateBookmarks previousBookmarks [newBookmark])
         else mret None);
    match e with
    | Some e => mret (Some e)
    | None => replaceSessionBookmarks newBookmark;; mret None
    end.

Definition retrieveBookmarks (conn : nat) (sentBookmarks : list string) : S_ (option error) :=
  b ← see conn idb.Bookmark;
  replaceBookmarks sentBookmarks b.

Definition retrieveSessionBookmarks (conn : nat) : S_ unit :=
  b ← see conn idb.Bookmark;
  replaceSessionBookmarks b.

(** [s.getBookmarks] as the router calls it: the bookmarks of the manager and
    those of the session. *)
Definition bookmarks_function (current : list string) : GoM E (error + list string) :=
  l ← (if HasBookmarkManager cfg then GetBookmarks else mret (inr []));
  mret (match l with
        | inl e => inl e
        | inr l => inr (collections.Values (collections.AddAll current (collections.NewSet l)))
        end).

Definition getBookmarks : S_ (error + list string) :=
  current ← go_get ss_bookmarks;
  on_user (bookmarks_function current).

(** ** Transaction states (transaction.go) *)

Definition transactionAlreadyCompletedError : error :=
  UsageError ("cannot use this transaction, because it has been committed or rolled back " +:+
    "either because of an error or explicit termination").

(** The closure [onClose] of [BeginTransaction]. *)
Definition onClose (tx : nat) : S_ unit :=
  x ← deref ss_txs tx;
  match x_conn x with
  | None => mret tt
  | Some c =>
      bookmarkErr ← retrieveBookmarks c (x_beginBookmarks x);
      pool_Return c;;
      on_state (x_txState x) (λ t, t <| ts_err := CombineAllErrors show [ts_err t; bookmarkErr] |>);;
      on_tx tx (λ x, x <| x_conn := None |>);;
      go_modify (λ s, s <| ss_explicitTx := None |>)
  end.

Definition resultFailedError : string := "result failed due to invalid transaction".

Definition result_errorHandler (r : nat) : S_ unit :=
  on_result r (λ x, match r_err x with
                    | None => x <| r_err := Some (UsageError resultFailedError) |>
                    | Some _ => x
                    end).

Fixpoint run_handlers (l : list errorHandler) : S_ unit :=
  match l with
  | [] => mret tt
  | h :: l =>
      (match h with
       | closeTransaction tx => onClose tx
       | failResult r => result_errorHandler r
       end);;
      run_handlers l
  end.

Definition onError (t : nat) (err : error) : S_ unit :=
  on_state t (λ t, t <| ts_err := Some err |>);;
  t ← deref ss_states t;
  run_handlers (ts_handlers t).

(** ** Results (result.go) *)

Definition newResult (conn stream : nat) (cypher : string) (params : gomap goval) (txState : nat)
    (afterConsumptionHook : option hook) : S_ nat := λ s,
  Done (length (ss_results s),
    s <| ss_results := ss_results s ++
           [mkResult conn stream cypher params None None None None None false txState
              afterConsumptionHook] |>).

Definition the_result (r : nat) : S_ result := deref ss_results r.

Definition result_Keys (r : nat) : S_ (error + list string) :=
  x ← the_result r;
  on_conn (r_conn x) (idb.Keys (Some (r_stream x))).

Definition callAfterConsumptionHook (r : nat) : S_ unit :=
  x ← the_result r;
  match r_hook x with
  | None => mret tt
  | Some h =>
      retrieveBookmarks (h_conn h) (h_sent h);;
      on_result r (λ x, x <| r_hook := None |>)
  end.

Definition consumedResultError : string := "result cursor is not available anymore".

Definition isOpen (x : result) : bool := match r_summary x with None => true | Some _ => false end.

(** The text [Error()] gives. *)
Definition is_consumed_error (e : error) : bool := bool_decide (show e = consumedResultError).

Definition checkOpen (r : nat) : S_ unit :=
  on_result r (λ x,
    let alreadyChecked := match r_err x with Some e => is_consumed_error e | None => false end in
    if negb alreadyChecked && negb (isOpen x)
    then x <| r_err := Some (UsageError consumedResultError) |>
    else x).

Definition advance (r : nat) : S_ unit :=
  x ← the_result r;
  if r_peeked x then
    on_result r (λ x, x <| r_record := r_peekedRecord x |> <| r_peekedRecord := None |>
                        <| r_summary := r_peekedSummary x |> <| r_peekedSummary := None |>
                        <| r_peeked := false |>)
  else
    n ← on_conn (r_conn x) (idb.Next (Some (r_stream x)));
    let '(record, summary, err) := n in
    on_result r (λ x, x <| r_record := record |> <| r_summary := summary |> <| r_err := err |>);;
    match err with
    | Some e => onError (r_txState x) e
    | None => mret tt
    end.

Definition peek (r : nat) : S_ unit :=
  x ← the_result r;
  if r_peeked x then mret tt
  else
    n ← on_conn (r_conn x) (idb.Next (Some (r_stream x)));
    let '(record, summary, err) := n in
    on_result r (λ x, x <| r_peekedRecord := record |> <| r_peekedSummary := summary |>
                        <| r_err := err |> <| r_peeked := true |>).

Definition some {A} (o : option A) : bool := match o with Some _ => true | None => false end.

Definition only_if (c : bool) (m : S_ unit) : S_ unit := if c then m else mret tt.

Definition result_Next (r : nat) : S_ bool :=
  checkOpen r;;
  x ← the_result r;
  if some (r_err x) then mret false
  else
    advance r;;
    x ← the_result r;
    only_if (some (r_summary x)) (callAfterConsumptionHook r);;
    x ← the_result r;
    mret (some (r_record x)).

(** With the record that [out] is set to. *)
Definition NextRecord (r : nat) : S_ (bool * option Record_) :=
  hasNext ← result_Next r;
  x ← the_result r;
  mret (hasNext, r_record x).

Definition Peek (r : nat) : S_ bool :=
  checkOpen r;;
  x ← the_result r;
  if some (r_err x) then mret false
  else
    peek r;;
    x ← the_result r;
    mret (some (r_peekedRecord x)).

Definition PeekRecord (r : nat) : S_ (bool * option Record_) :=
  hasNext ← Peek r;
  x ← the_result r;
  mret (hasNext, r_peekedRecord x).

Definition wrapped (e : option error) : option error := WrapError show <$> e.

Definition result_Err (x : result) : option error := wrapped (r_err x).

Definition result_Record (x : result) : option Record_ :=
  match r_peekedRecord x with Some rec => Some rec | None => r_record x end.

Definition IsOpen (x : result) : bool := isOpen x.

(** The loop of [Records]; [yield] returns whether to go on, and may change the
    variables [a] of its closure.  [true] with the result is a break, [false] the
    return after [yield]. *)
Fixpoint records_loop {A} (fuel : nat) (r : nat)
    (yield : option Record_ → option error → A → S_ (bool * A)) (a : A) : S_ (bool * A) :=
  match fuel with
  | O => go_nofuel
  | S fuel =>
      checkOpen r;;
      x ← the_result r;
      if some (r_err x) then mret (true, a)
      else
        advance r;;
        x ← the_result r;
        if negb (some (r_record x)) || some (r_err x) || some (r_summary x) then mret (true, a)
        else
          y ← yield (r_record x) None a;
          let '(goOn, a) := y in
          if goOn : bool then records_loop fuel r yield a else mret (false, a)
  end.

Definition Records {A} (fuel : nat) (r : nat)
    (yield : option Record_ → option error → A → S_ (bool * A)) (a : A) : S_ A :=
  o ← records_loop fuel r yield a;
  let '(broke, a) := o in
  if broke : bool then
    x ← the_result r;
    a ← (if some (r_err x) then snd <$> yield None (wrapped (r_err x)) a else mret a);
    x ← the_result r;
    only_if (some (r_summary x)) (callAfterConsumptionHook r);;
    mret a
  else mret a.

(** The closure of [Collect] with its variables [recs] and [err]. *)
Definition collecting (rec : option Record_) (innerErr : option error)
    (a : list Record_ * option error) : S_ (bool * (list Record_ * option error)) :=
  match innerErr with
  | Some e => mret (false, (a.1, Some e))
  | None =>
      match rec with
      | Some rec => mret (true, (a.1 ++ [rec], a.2))
      | None => mret (true, a)
      end
  end.

Definition Collect (fuel : nat) (r : nat) : S_ (error + list Record_) :=
  x ← the_result r;
  match r_err x with
  | Some e => mret (inl (WrapError show e))
  | None =>
      if some (r_summary x) then mret (inr [])
      else
        a ← Records fuel r collecting ([], None);
        mret (match a.2 with Some e => inl e | None => inr a.1 end)
  end.

Definition noMoreRecords : error := UsageError "Result contains no more records".
Definition moreThanOneRecord : error := UsageError "Result contains more than one record".

Definition Single (r : nat) : S_ (error + option Record_) :=
  advance r;;
  x ← the_result r;
  match r_err x with
  | Some e => mret (inl (WrapError show e))
  | None =>
      if some (r_summary x) then
        on_result r (λ x, x <| r_err := Some noMoreRecords |>);;
        mret (inl noMoreRecords)
      else
        let single := r_record x in
        advance r;;
        x ← the_result r;
        if some (r_record x) then
          c ← on_conn (r_conn x) (idb.Consume (Some (r_stream x)));
          on_result r (λ x, x <| r_summary := c.1 |> <| r_err := Some moreThanOneRecord |>
                              <| r_record := None |>);;
          mret (inl moreThanOneRecord)
        else
          match r_err x with
          | Some e => mret (inl (WrapError show e))
          | None =>
              on_result r (λ x, x <| r_record := single |>);;
              callAfterConsumptionHook r;;
              mret (inr single)
          end
  end.

(** The summary, which [toResultSummary] presents with the query. *)
Definition result_Consume (r : nat) : S_ (error + option Summary_) :=
  x ← the_result r;
  match r_err x with
  | Some e => mret (inl (WrapError show e))
  | None =>
      on_result r (λ x, x <| r_record := None |>);;
      c ← on_conn (r_conn x) (idb.Consume (Some (r_stream x)));
      on_result r (λ x, x <| r_summary := c.1 |> <| r_err := c.2 |>);;
      match c.2 with
      | Some e => mret (inl (WrapError show e))
      | None =>
          callAfterConsumptionHook r;;
          x ← the_result r;
          mret (inr (r_summary x))
      end
  end.

Definition result_buffer (r : nat) : S_ unit :=
  x ← the_result r;
  e ← on_conn (r_conn x) (idb.Buffer (Some (r_stream x)));
  on_result r (λ x, x <| r_err := e |>);;
  match e with
  | None => callAfterConsumptionHook r
  | Some _ => mret tt
  end.

(** ** Transactions (transaction.go) *)

Definition explicit_Run (tx : nat) (cypher : string) (params : gomap goval) : S_ (error + nat) :=
  x ← deref ss_txs tx;
  match x_conn x with
  | None => mret (inl transactionAlreadyCompletedError)
  | Some c =>
      r ← on_conn c (idb.RunTx (x_txHandle x) (mkCommand cypher params (x_fetchSize x)));
      match r with
      | inl err =>
          onError (x_txState x) err;;
          t ← deref ss_states (x_txState x);
          mret (inl (default err (wrapped (ts_err t))))
      | inr stream =>
          r ← newResult c stream cypher params (x_txState x) None;
          on_state (x_txState x) (λ t, t <| ts_handlers := ts_handlers t ++ [failResult r] |>);;
          mret (inr r)
      end
  end.

(** What [TxCommit] and [TxRollback] return as an error. *)
Definition error_of (r : error + unit) : option error :=
  match r with inl e => Some e | inr _ => None end.

(** The end of [Commit] and [Rollback]. *)
Definition close_with (tx : nat) (x : explicitTransaction) (err : option error) : S_ (option error) :=
  on_state (x_txState x) (λ t, t <| ts_err := err |>);;
  onClose tx;;
  t ← deref ss_states (x_txState x);
  mret (wrapped (ts_err t)).

Definition Commit (tx : nat) : S_ (option error) :=
  x ← deref ss_txs tx;
  t ← deref ss_states (x_txState x);
  match ts_err t, x_conn x with
  | Some _, _ | None, None => mret (Some transactionAlreadyCompletedError)
  | None, Some c =>
      r ← on_conn c (idb.TxCommit (x_txHandle x));
      close_with tx x (error_of r)
  end.

Definition Rollback (tx : nat) : S_ (option error) :=
  x ← deref ss_txs tx;
  t ← deref ss_states (x_txState x);
  match ts_err t, x_conn x with
  | Some _, _ => mret None
  | None, None => mret (Some transactionAlreadyCompletedError)
  | None, Some c =>
      broken ← see c (λ x, negb (idb.IsAlive x) || idb.HasFailed x);
      if broken : bool then close_with tx x None
      else
        r ← on_conn c (idb.TxRollback (x_txHandle x));
        close_with tx x (error_of r)
  end.

Definition explicit_Close (tx : nat) : S_ (option error) :=
  x ← deref ss_txs tx;
  match x_conn x with
  | None => mret None
  | Some _ => Rollback tx
  end.

Definition managed_Run (tx : managedTransaction) (cypher : string) (params : gomap goval) :
    S_ (error + nat) :=
  r ← on_conn (m_conn tx) (idb.RunTx (m_txHandle tx) (mkCommand cypher params (m_fetchSize tx)));
  match r with
  | inl err => mret (inl (WrapError show err))
  | inr stream => inr <$> newResult (m_conn tx) stream cypher params (m_txState tx) None
  end.

(** [closed] of an autocommit transaction is set only together with leaving the
    session, so a transaction that is found there is open. *)
Definition autocommit_onClosed (tx : autocommitTransaction) : S_ unit :=
  pool_Return (a_conn tx);;
  go_modify (λ s, s <| ss_autocommitTx := None |>).

Definition done_ (tx : autocommitTransaction) : S_ unit :=
  result_buffer (a_res tx);;
  autocommit_onClosed tx.

Definition discard_ (tx : autocommitTransaction) : S_ unit :=
  result_Consume (a_res tx);;
  autocommit_onClosed tx.

Definition finish_autocommit (f : autocommitTransaction → S_ unit) : S_ unit :=
  tx ← go_get ss_autocommitTx;
  match tx with
  | Some tx => f tx
  | None => mret tt
  end.

(** ** Connections of a session (session.go) *)

Fixpoint pin_all (l : list string) : S_ unit :=
  match l with
  | [] => mret tt
  | database :: l => pinHomeDatabase database;; pin_all l
  end.

(** [update] tells whether there is a callback [onRoutingTableUpdated]. *)
Definition getOrUpdateServers (mode : AccessMode) (isHomeDbGuess update : bool) :
    S_ (error + list string) :=
  s ← go_get id;
  let database := if isHomeDbGuess then ss_homeDbGuess s else ss_database s in
  r ← on_env (GetOrUpdateServers mode (bookmarks_function (ss_bookmarks s))
        (mkDatabaseSelection database isHomeDbGuess (ImpersonatedUser cfg) (ss_homeDbCacheKey s)));
  only_if update (pin_all r.2);;
  mret r.1.

Definition resolveHomeDatabase : S_ (error + unit) :=
  resolve ← go_get ss_resolveHomeDb;
  if resolve : bool then
    bookmarks ←? getBookmarks;
    defaultDb ←? on_env (GetNameOfDefaultDatabase bookmarks (ImpersonatedUser cfg));
    pinHomeDatabase defaultDb;;
    mret (inr tt)
  else mret (inr tt).

(** The servers, and whether the guess of the home database was used. *)
Definition getServerList (mode : AccessMode) : S_ (error + list string * bool) :=
  s ← go_get id;
  if negb (ss_resolveHomeDb s) then
    l ←? getOrUpdateServers mode false false;
    mret (inr (l, false))
  else if negb (bool_decide (ss_homeDbGuess s = "")) && cache_IsEnabled (ss_env s) then
    l ←? getOrUpdateServers mode true true;
    mret (inr (l, true))
  else
    resolveHomeDatabase ;?
    l ←? getOrUpdateServers mode false false;
    mret (inr (l, false)).

Definition borrowConnection (serverList : list string) : S_ (error + nat) := on_env (Borrow serverList).

(** [x, err := m; if err != nil { return nil, errorutil.WrapError(err) }] *)
Definition or_wrapped {A} (m : S_ (error + A)) : S_ (error + A) :=
  r ← m;
  mret (match r with inl e => inl (WrapError show e) | inr a => inr a end).

(** All connections but those of version 3 are [DatabaseSelector]s. *)
Definition selectDatabase (conn : nat) : S_ (error + unit) :=
  version ← see conn idb.Version;
  if pv_Major version <? 4 then
    name ← see conn idb.ServerName;
    mret (inl (FeatureNotSupportedError name "multi-database" "requires at least server v4"))
  else
    s ← go_get id;
    on_conn conn (idb.SelectDatabase (ss_database s));;
    mret (inr tt).

Definition getConnection (mode : AccessMode) : S_ (error + nat) :=
  l ←? or_wrapped (getServerList mode);
  let '(serverList, usedHomeDbGuess) := l in
  conn ←? or_wrapped (borrowConnection serverList);
  ssr ← see conn idb.IsSsrEnabled;
  conn ←? (if negb ssr && usedHomeDbGuess then
             pool_Return conn;;
             l ←? or_wrapped (getServerList mode);
             or_wrapped (borrowConnection l.1)
           else mret (inr conn));
  on_conn conn (idb.SetPinHomeDatabaseCallback true);;
  s ← go_get id;
  if bool_decide (ss_database s = DefaultDatabase) then mret (inr conn)
  else
    r ← selectDatabase conn;
    match r with
    | inl e => pool_Return conn;; mret (inl e)
    | inr _ => mret (inr conn)
    end.

(** ** Transactions of a session *)

Definition validateTransactionConfig (c : TransactionConfig) : error + unit :=
  if negb (Timeout c =? DefaultTxConfigTimeout) && (Timeout c <? 0) then
    inl (UsageError ("Negative transaction timeouts are not allowed. Given: " +:+ pretty (Timeout c)))
  else inr tt.

Definition tx_config (mode : AccessMode) (bookmarks : list string) (c : TransactionConfig) : TxConfig :=
  mkTxConfig mode bookmarks (Timeout c) (ImpersonatedUser cfg) (Metadata c) (Notifications cfg).

Definition closedSession : error := UsageError "Operation attempted on a closed session".
Definition pendingTransaction : error := UsageError "Session already has a pending transaction".
Definition inExplicitTransaction : error :=
  UsageError "Trying to run auto-commit transaction while in explicit transaction".

(** What [BeginTransaction], [Run] and [runRetriable] begin with. *)
Definition enter (pending : error) (c : TransactionConfig) : S_ (error + unit) :=
  s ← go_get id;
  if ss_closed s then mret (inl closedSession)
  else if some (ss_explicitTx s) then mret (inl pending)
  else
    finish_autocommit done_;;
    mret (validateTransactionConfig c).

Definition AutoCommitTransaction : Z := 2.
Definition UnmanagedTransaction : Z := 1.
Definition ManagedTransaction : Z := 0.
Definition ExecuteQuery : Z := 3.

(** Give the connection back and return the error. *)
Definition hand_back {A} (conn : nat) (e : error) : S_ (error + A) :=
  pool_Return conn;;
  mret (inl (WrapError show e)).

Definition new_explicit (conn : nat) (txHandle : Z) (beginBookmarks : list string) : S_ nat := λ s,
  let tx := length (ss_txs s) in
  let state := length (ss_states s) in
  Done (tx,
    s <| ss_states := ss_states s ++ [mkTransactionState None [closeTransaction tx]] |>
      <| ss_txs := ss_txs s ++ [mkExplicitTransaction (Some conn) (fetchSize cfg) txHandle state beginBookmarks] |>
      <| ss_explicitTx := Some tx |>).

Definition BeginTransaction (c : TransactionConfig) : S_ (error + nat) :=
  enter pendingTransaction c ;?
  conn ←? or_wrapped (getConnection (AccessMode_ cfg));
  only_if (negb (TelemetryDisabled cfg)) (on_conn conn (idb.Telemetry UnmanagedTransaction false));;
  b ← getBookmarks;
  match b with
  | inl e => hand_back conn e
  | inr beginBookmarks =>
      t ← on_conn conn (idb.TxBegin (tx_config (AccessMode_ cfg) beginBookmarks c) true);
      match t with
      | inl e => hand_back conn e
      | inr txHandle => inr <$> new_explicit conn txHandle beginBookmarks
      end
  end.

Definition isIdempotent (err : error) : bool :=
  match as_Neo4jError err with
  | Some n => match GqlDiagnosticRecord n with
              | Some r => match get_as as_bool "_idempotent" r with Some b => b | None => false end
              | None => false
              end
  | None => false
  end.

Definition new_autocommit (conn stream : nat) (cypher : string) (params : gomap goval)
    (runBookmarks : list string) : S_ nat :=
  state ← (λ s, Done (length (ss_states s), s <| ss_states := ss_states s ++ [mkTransactionState None []] |>));
  r ← newResult conn stream cypher params state (Some (mkHook conn runBookmarks));
  go_modify (λ s, s <| ss_autocommitTx := Some (mkAutocommitTransaction conn r) |>);;
  mret r.

(** One pass of the loop of [Run]: an error, a result, or [None] for once more. *)
Definition run_attempt (first : bool) (cypher : string) (params : gomap goval) (c : TransactionConfig) :
    S_ (error + option nat) :=
  conn ←? or_wrapped (getConnection (AccessMode_ cfg));
  resolved ← go_get ss_telemetry;
  only_if (negb resolved) (on_conn conn (idb.Telemetry AutoCommitTransaction true));;
  b ← getBookmarks;
  match b with
  | inl e => hand_back conn e
  | inr runBookmarks =>
      r ← on_conn conn (idb.Run (mkCommand cypher params (fetchSize cfg))
            (tx_config (AccessMode_ cfg) runBookmarks c));
      match r with
      | inl err =>
          pool_Return conn;;
          resolved ← go_get ss_telemetry;
          if negb (DisableAutoCommitRetries cfg) && first && resolved && isIdempotent err
          then mret (inr None)
          else mret (inl (WrapError show err))
      | inr stream => inr ∘ Some <$> new_autocommit conn stream cypher params runBookmarks
      end
  end.

(** The second attempt is the last. *)
Definition session_Run (cypher : string) (params : gomap goval) (c : TransactionConfig) :
    S_ (error + nat) :=
  enter inExplicitTransaction c ;?
  go_modify (λ s, s <| ss_telemetry := TelemetryDisabled cfg |>);;
  r ←? run_attempt true cypher params c;
  match r with
  | Some r => mret (inr r)
  | None =>
      r ←? run_attempt false cypher params c;
      r ← go_lift r;
      mret (inr r)
  end.

(** ** Transaction functions *)

(** [work] is the function of the client. *)
Section Work.
Context {A : Type}.
Variable work : managedTransaction → S_ (error + A).

Definition report (conn : nat) (e : error) (isCommitting : bool) : S_ (retry.attempt A) :=
  alive ← see conn idb.IsAlive;
  mret (retry.Failed e (Some alive) isCommitting).

Definition new_managed (conn : nat) (txHandle : Z) : S_ managedTransaction := λ s,
  Done (mkManagedTransaction conn (fetchSize cfg) txHandle (length (ss_states s)),
    s <| ss_states := ss_states s ++ [mkTransactionState None []] |>).

(** The part of [executeTransactionFunction] under the deferred [Return]. *)
Definition in_transaction (conn : nat) (mode : AccessMode) (c : TransactionConfig)
    (blockingTxBegin : bool) : S_ (retry.attempt A) :=
  b ← getBookmarks;
  match b with
  | inl e => report conn e false
  | inr beginBookmarks =>
      t ← on_conn conn (idb.TxBegin (tx_config mode beginBookmarks c) blockingTxBegin);
      match t with
      | inl e => report conn e false
      | inr txHandle =>
          tx ← new_managed conn txHandle;
          x ← work tx;
          match x with
          | inl e => report conn e false
          | inr x =>
              r ← on_conn conn (idb.TxCommit txHandle);
              match r with
              | inl e => report conn e true
              | inr _ => retrieveBookmarks conn beginBookmarks;; mret (retry.Completed A x)
              end
          end
      end
  end.

(** What it reports to [OnFailure] is returned; the connection is looked at before
    it is given back. *)
Definition executeTransactionFunction (mode : AccessMode) (c : TransactionConfig)
    (blockingTxBegin : bool) (api : Z) : S_ (retry.attempt A) :=
  r ← getConnection mode;
  match r with
  | inl e => mret (retry.Failed e None false)
  | inr conn =>
      telemetrySent ← go_get ss_telemetry;
      only_if (negb (TelemetryDisabled cfg) && negb telemetrySent)
        (on_conn conn (idb.Telemetry api true));;
      a ← in_transaction conn mode c blockingTxBegin;
      pool_Return conn;;
      mret a
  end.

Fixpoint retry_loop (fuel : nat) (mode : AccessMode) (c : TransactionConfig)
    (blockingTxBegin : bool) (api : Z) (state : retry.State) : S_ (error + A) :=
  match fuel with
  | O => go_nofuel
  | S fuel =>
      m ← on_user Moment;
      match retry.Continue show show_duration pretty m state with
      | (false, state) => e ← go_lift (retry.ProduceError show state); mret (inl e)
      | (true, state) =>
          a ← executeTransactionFunction mode c blockingTxBegin api;
          match a with
          | retry.Completed _ x => mret (inr x)
          | retry.Failed e conn isCommitting =>
              retry_loop fuel mode c blockingTxBegin api (retry.OnFailure e conn isCommitting state)
          end
      end
  end.

Definition runRetriable (fuel : nat) (mode : AccessMode) (blockingTxBegin : bool) (api : Z)
    (c : TransactionConfig) : S_ (error + A) :=
  enter pendingTransaction c ;?
  go_modify (λ s, s <| ss_telemetry := false |>);;
  retry_loop fuel mode c blockingTxBegin api
    (retry.new_state (MaxRetryTime cfg) (ThrottleTime cfg) (MaxConnections cfg)).

Definition ExecuteRead (fuel : nat) (c : TransactionConfig) : S_ (error + A) :=
  runRetriable fuel ReadMode true ManagedTransaction c.
Definition ExecuteWrite (fuel : nat) (c : TransactionConfig) : S_ (error + A) :=
  runRetriable fuel WriteMode true ManagedTransaction c.
Definition executeQueryRead (fuel : nat) (c : TransactionConfig) : S_ (error + A) :=
  runRetriable fuel ReadMode false ExecuteQuery c.
Definition executeQueryWrite (fuel : nat) (c : TransactionConfig) : S_ (error + A) :=
  runRetriable fuel WriteMode false ExecuteQuery c.
End Work.

(** ** The rest of a session *)

Definition LastBookmarks : S_ (list string) :=
  tx ← go_get ss_autocommitTx;
  (match tx with
   | Some tx => retrieveSessionBookmarks (a_conn tx)
   | None => mret tt
   end);;
  go_get ss_bookmarks.

(** The clean-up of pool and router run concurrently; [CleanUp] is both. *)
Definition session_Close : S_ (option error) :=
  s ← go_get id;
  if ss_closed s then mret None
  else
    txErr ← (match ss_explicitTx s with
             | Some tx => explicit_Close tx
             | None => mret None
             end);
    finish_autocommit discard_;;
    on_env CleanUp;;
    go_modify (λ s, s <| ss_closed := true |>);;
    mret txErr.

(** [getServerInfo] and [verifyAuthentication] look at a connection and give it
    back. *)
Definition with_reader {A} (f : C → A) : S_ (error + A) :=
  or_wrapped (getOrUpdateServers ReadMode false false) ;?
  s ← go_get id;
  conn ←? or_wrapped (on_env (Borrow (Servers ReadMode (ss_database s) (ss_env s))));
  a ← see conn f;
  pool_Return conn;;
  mret (inr a).

Definition getServerInfo : S_ (error + (string * string * ProtocolVersion)) :=
  or_wrapped resolveHomeDatabase ;?
  with_reader (λ c, (idb.ServerName c, idb.ServerVersion c, idb.Version c)).

Definition verifyAuthentication : S_ (error + unit) := with_reader (λ _, tt).
End Session.

(** [newSession]; the guess is what the cache had for the key. *)
Definition newSession {C E} (conns : list C) (env : E) (databaseName : string) (bookmarks : list string)
    (key homeDbGuess : string) : session :=
  mkSession conns env [] [] [] databaseName (cleanupBookmarks bookmarks)
    (bool_decide (databaseName = "")) homeDbGuess key None None false false.

(** [defaultTransactionConfig] *)
Definition defaultTransactionConfig : TransactionConfig := mkTransactionConfig DefaultTxConfigTimeout [].

(** The session of a driver that is closed: every call returns its error. *)
Module erroredSession.
Section Errored.
Context {S A : Type}.
Variable err : error.
Definition LastBookmarks : GoM S (list string) := mret [].
Definition BeginTransaction (c : TransactionConfig) : GoM S (error + nat) := mret (inl err).
Definition ExecuteRead (work : managedTransaction → GoM S (error + A)) (c : TransactionConfig) : GoM S (error + A) :=
  mret (inl err).
Definition ExecuteWrite (work : managedTransaction → GoM S (error + A)) (c : TransactionConfig) : GoM S (error + A) :=
  mret (inl err).
Definition executeQueryRead (work : managedTransaction → GoM S (error + A)) (c : TransactionConfig) : GoM S (error + A) :=
  mret (inl err).
Definition executeQueryWrite (work : managedTransaction → GoM S (error + A)) (c : TransactionConfig) : GoM S (error + A) :=
  mret (inl err).
Definition Run (cypher : string) (params : gomap goval) (c : TransactionConfig) : GoM S (error + nat) := mret (inl err).
Definition Close : GoM S (option error) := mret (Some err).
Definition getServerInfo : GoM S (error + (string * string * ProtocolVersion)) := mret (inl err).
Definition verifyAuthentication : GoM S (error + unit) := mret (inl err).
End Errored.
End erroredSession.
