(* ===== verification/SessionFacts.v ===== *)
(** What sessions do with connections: whatever a client calls, in any order and
    nesting, a session gives back what it borrows.  And what becomes of a transaction
    function whose commit is lost with its connection. *)

From S2P Require Import Prelude Values Errors Messages Outgoing Router Retry Bolt Connection Bookmarks Session.
From stdpp Require Import gmap.
#[local] Open Scope Z_scope.
#[local] Open Scope go_scope.

(** * What the pool promises

    [lent] are the connections that are borrowed.  Reading routing tables, cleaning
    up and the client's bookmark manager leave no connection borrowed. *)
Class Lending (C E : Type) `{Environment C E} : Type := {
  lent : E → gset nat;
  lent_Borrow : ∀ l cs e r cs' e', Borrow l (cs, e) = Done (r, (cs', e')) →
    match r with
    | inl _ => lent e' = lent e
    | inr c => c ∉ lent e ∧ lent e' = {[c]} ∪ lent e
    end;
  lent_Return : ∀ c cs e u cs' e', Return c (cs, e) = Done (u, (cs', e')) → lent e' = lent e ∖ {[c]};
  lent_CleanUp : ∀ cs e u cs' e', CleanUp (cs, e) = Done (u, (cs', e')) → lent e' = lent e;
  lent_Servers : ∀ mode (m : GoM E (error + list string)) sel cs e r cs' e',
    (∀ e r e', m e = Done (r, e') → lent e' = lent e) →
    GetOrUpdateServers mode m sel (cs, e) = Done (r, (cs', e')) → lent e' = lent e;
  lent_Default : ∀ l u cs e r cs' e',
    GetNameOfDefaultDatabase l u (cs, e) = Done (r, (cs', e')) → lent e' = lent e;
  lent_ComputeKey : ∀ u e r e', ComputeKey u e = Done (r, e') → lent e' = lent e;
  lent_Set : ∀ k d e r e', cache_Set k d e = Done (r, e') → lent e' = lent e;
  lent_GetBookmarks : ∀ e r e', GetBookmarks e = Done (r, e') → lent e' = lent e;
  lent_UpdateBookmarks : ∀ p n e r e', UpdateBookmarks p n e = Done (r, e') → lent e' = lent e;
  lent_Moment : ∀ e r e', Moment e = Done (r, e') → lent e' = lent e
}.

Section Facts.
Context {C E : Type} `{idb.Connection C} `{Lending C E}.
Variable show : error → string.
Variable show_duration : Z → string.
Variable cfg : settings.
Abbreviation session := (session (C := C) (E := E)).
Abbreviation S_ := (GoM session).

(** * Steps that do not concern the connections of the session *)

(** What the transactions and the pool look like. *)
Definition core (s : session) :=
  (ss_txs s, ss_states s, ss_explicitTx s, ss_autocommitTx s, ss_closed s, lent (ss_env s)).

Definition quiet {A} (m : S_ A) : Prop := ∀ s a s', m s = Done (a, s') → core s' = core s.

Lemma quiet_ret {A} (a : A) : quiet (mret a).
Proof. intros s a' s' E0. by injection E0 as _ <-. Qed.

Lemma quiet_bind {A B} (m : S_ A) (k : A → S_ B) : quiet m → (∀ a, quiet (k a)) → quiet (m ≫= k).
Proof.
  intros Hm Hk s b s' E0. apply bind_Done in E0 as (a & s1 & E1 & E2).
  rewrite (Hk _ _ _ _ E2). by apply Hm in E1.
Qed.

Lemma quiet_get {A} (f : session → A) : quiet (go_get f).
Proof. intros s a s' E0. by injection E0 as _ <-. Qed.

Lemma quiet_modify (f : session → session) : (∀ s, core (f s) = core s) → quiet (go_modify f).
Proof. intros Hf s a s' E0. injection E0 as _ <-. apply Hf. Qed.

Lemma quiet_deref {A} (f : session → list A) i : quiet (deref f i).
Proof. intros s a s' E0. unfold deref in E0. destruct (f s !! i); [| done]. by injection E0 as _ <-. Qed.

Lemma quiet_panic {A} : quiet (@go_panic session A).
Proof. by intros s a s'. Qed.
Lemma quiet_nofuel {A} : quiet (@go_nofuel session A).
Proof. by intros s a s'. Qed.
Lemma quiet_lift {A} (o : option A) : quiet (go_lift o).
Proof. intros s a s' E0. unfold go_lift in E0. destruct o; [| done]. by injection E0 as _ <-. Qed.

Lemma quiet_user {A} (m : GoM E A) :
  (∀ e a e', m e = Done (a, e') → lent e' = lent e) → quiet (on_user m).
Proof.
  intros Hm s a s' E0. unfold on_user in E0. destruct (m (ss_env s)) as [[a' e] | |] eqn:E1; try done.
  injection E0 as _ <-. apply Hm in E1. unfold core. simpl. by rewrite E1.
Qed.

Lemma quiet_env {A} (m : GoM (list C * E) A) :
  (∀ cs e a cs' e', m (cs, e) = Done (a, (cs', e')) → lent e' = lent e) → quiet (on_env m).
Proof.
  intros Hm s a s' E0. unfold on_env in E0.
  destruct (m (ss_conns s, ss_env s)) as [[a' [cs e]] | |] eqn:E1; try done.
  injection E0 as _ <-. apply Hm in E1. unfold core. simpl. by rewrite E1.
Qed.
End Facts.

Create HintDb quiet.
#[export] Hint Resolve quiet_ret quiet_get quiet_deref quiet_panic quiet_nofuel quiet_lift : quiet.
#[export] Hint Extern 2 (quiet (_ ≫= _)) => apply quiet_bind; [| intros] : quiet.
#[export] Hint Extern 2 (quiet (go_modify _)) => apply quiet_modify; reflexivity : quiet.

(** Break a program into its steps. *)
Ltac quiet_steps :=
  repeat first
    [ progress auto with quiet
    | progress cbv beta
    | match goal with
      | |- quiet (_ ≫= _) => apply quiet_bind; [| intros]
      | |- quiet (match ?x with _ => _ end) => destruct x
      | |- quiet (if ?x then _ else _) => destruct x
      | |- quiet (_ <$> _) => apply quiet_bind; [| intros]
      end ].

Section Quiet.
Context {C E : Type} `{idb.Connection C} `{Lending C E}.
Variable show : error → string.
Variable cfg : settings.
Abbreviation session := (session (C := C) (E := E)).
Abbreviation S_ := (GoM session).

Lemma quiet_pinHomeDatabase d : quiet (pinHomeDatabase (C := C) cfg d).
Proof.
  unfold pinHomeDatabase, computeCacheKey. quiet_steps.
  - apply quiet_user. intros e a e'. apply lent_ComputeKey.
  - apply quiet_user. intros e a e'. apply lent_Set.
Qed.
Hint Resolve quiet_pinHomeDatabase : quiet.

Lemma quiet_run_callbacks l : quiet (run_callbacks (C := C) cfg l).
Proof. induction l as [| c l IH]; simpl; quiet_steps. Qed.
Hint Resolve quiet_run_callbacks : quiet.

Lemma quiet_callbacks c : quiet (callbacks (C := C) cfg c).
Proof. unfold callbacks. quiet_steps. Qed.
Hint Resolve quiet_callbacks : quiet.

Lemma quiet_conn {A} c (m : GoM C A) : quiet (on_conn cfg c m).
Proof. unfold on_conn. quiet_steps. Qed.
Hint Resolve quiet_conn : quiet.

Lemma quiet_see {A} c (f : C → A) : quiet (see (E := E) c f).
Proof. unfold see. quiet_steps. Qed.
Hint Resolve quiet_see : quiet.

Lemma quiet_on_result r f : quiet (on_result (C := C) (E := E) r f).
Proof. unfold on_result. quiet_steps. Qed.
Hint Resolve quiet_on_result : quiet.

Lemma quiet_the_result r : quiet (the_result (C := C) (E := E) r).
Proof. apply quiet_deref. Qed.
Hint Resolve quiet_the_result : quiet.

Lemma quiet_replaceSessionBookmarks b : quiet (replaceSessionBookmarks (C := C) (E := E) b).
Proof. unfold replaceSessionBookmarks. quiet_steps. Qed.
Hint Resolve quiet_replaceSessionBookmarks : quiet.

Lemma quiet_replaceBookmarks p b : quiet (replaceBookmarks (C := C) cfg p b).
Proof.
  unfold replaceBookmarks. quiet_steps. apply quiet_user. intros e a e'. apply lent_UpdateBookmarks.
Qed.
Hint Resolve quiet_replaceBookmarks : quiet.

Lemma quiet_retrieveBookmarks c p : quiet (retrieveBookmarks (C := C) cfg c p).
Proof. unfold retrieveBookmarks. quiet_steps. Qed.
Hint Resolve quiet_retrieveBookmarks : quiet.

Lemma lent_bookmarks_function l e r e' :
  bookmarks_function (C := C) cfg l e = Done (r, e') → lent e' = lent e.
Proof.
  unfold bookmarks_function, mbind, GoM_bind. destruct (HasBookmarkManager cfg).
  - destruct (GetBookmarks e) as [[[] e1] | |] eqn:E1; try done; intros E2; injection E2 as _ <-;
      by apply lent_GetBookmarks in E1.
  - intros E2. by injection E2 as _ <-.
Qed.

Lemma quiet_getBookmarks : quiet (getBookmarks (C := C) (E := E) cfg).
Proof. unfold getBookmarks. quiet_steps. apply quiet_user, lent_bookmarks_function. Qed.
Hint Resolve quiet_getBookmarks : quiet.

Lemma quiet_only_if b (m : S_ unit) : quiet m → quiet (only_if b m).
Proof. intros Hm. unfold only_if. quiet_steps. Qed.
Hint Resolve quiet_only_if : quiet.

Lemma quiet_hook r : quiet (callAfterConsumptionHook (C := C) cfg r).
Proof. unfold callAfterConsumptionHook. quiet_steps. Qed.
Hint Resolve quiet_hook : quiet.

Lemma quiet_checkOpen r : quiet (checkOpen (C := C) (E := E) show r).
Proof. unfold checkOpen. quiet_steps. Qed.
Hint Resolve quiet_checkOpen : quiet.

Lemma quiet_peek r : quiet (peek (C := C) cfg r).
Proof. unfold peek. quiet_steps. Qed.
Hint Resolve quiet_peek : quiet.

Lemma quiet_Peek r : quiet (Peek (C := C) show cfg r).
Proof. unfold Peek. quiet_steps. Qed.

Lemma quiet_Consume r : quiet (result_Consume (C := C) show cfg r).
Proof. unfold result_Consume. quiet_steps. Qed.

Lemma quiet_buffer r : quiet (result_buffer (C := C) cfg r).
Proof. unfold result_buffer. quiet_steps. Qed.

Lemma quiet_Keys r : quiet (result_Keys (C := C) cfg r).
Proof. unfold result_Keys. quiet_steps. Qed.

Lemma quiet_newResult c st cy ps t h : quiet (newResult (C := C) (E := E) c st cy ps t h).
Proof. intros s a s' E0. by injection E0 as _ <-. Qed.
Hint Resolve quiet_newResult : quiet.

Lemma quiet_pin_all l : quiet (pin_all (C := C) cfg l).
Proof. induction l as [| d l IH]; simpl; quiet_steps. Qed.
Hint Resolve quiet_pin_all : quiet.

Lemma quiet_getOrUpdateServers mode g u : quiet (getOrUpdateServers (C := C) cfg mode g u).
Proof.
  unfold getOrUpdateServers. quiet_steps. apply quiet_env. intros cs e r cs' e' E0.
  eapply lent_Servers; [| exact E0]. apply lent_bookmarks_function.
Qed.
Hint Resolve quiet_getOrUpdateServers : quiet.

Lemma quiet_resolveHomeDatabase : quiet (resolveHomeDatabase (C := C) (E := E) cfg).
Proof.
  unfold resolveHomeDatabase. quiet_steps. apply quiet_env. intros cs e r cs' e'. apply lent_Default.
Qed.
Hint Resolve quiet_resolveHomeDatabase : quiet.

Lemma quiet_getServerList mode : quiet (getServerList (C := C) (E := E) cfg mode).
Proof. unfold getServerList. quiet_steps. Qed.
Hint Resolve quiet_getServerList : quiet.

Lemma quiet_or_wrapped {A} (m : S_ (error + A)) : quiet m → quiet (or_wrapped show m).
Proof. intros Hm. unfold or_wrapped. quiet_steps. Qed.
Hint Resolve quiet_or_wrapped : quiet.

Lemma quiet_selectDatabase c : quiet (selectDatabase (C := C) (E := E) cfg c).
Proof. unfold selectDatabase. quiet_steps. Qed.

Lemma quiet_LastBookmarks : quiet (LastBookmarks (C := C) (E := E)).
Proof. unfold LastBookmarks, retrieveSessionBookmarks. quiet_steps. Qed.

Lemma quiet_cleanUp : quiet (on_env (C := C) (E := E) CleanUp).
Proof. apply quiet_env. intros cs e r cs' e'. apply lent_CleanUp. Qed.

Lemma quiet_Moment : quiet (on_user (C := C) (E := E) Moment).
Proof. apply quiet_user. intros e a e'. apply lent_Moment. Qed.
End Quiet.

#[export] Hint Resolve quiet_conn quiet_see quiet_on_result quiet_the_result quiet_retrieveBookmarks
  quiet_getBookmarks quiet_only_if quiet_hook quiet_checkOpen quiet_peek quiet_Peek quiet_Consume
  quiet_buffer quiet_Keys quiet_newResult quiet_getOrUpdateServers quiet_resolveHomeDatabase
  quiet_getServerList quiet_or_wrapped quiet_selectDatabase quiet_LastBookmarks quiet_cleanUp
  quiet_Moment quiet_callbacks : quiet.

(** * The invariant *)

Section Invariant.
Context {C E : Type} `{idb.Connection C} `{Lending C E}.
Variable show : error → string.
Variable show_duration : Z → string.
Variable cfg : settings.
Abbreviation session := (session (C := C) (E := E)).
Abbreviation S_ := (GoM session).

(** The connection of a transaction. *)
Definition tx_conn (s : session) (t : nat) : option nat := x ← ss_txs s !! t; x_conn x.

Definition singleton_of (o : option nat) : gset nat := match o with Some c => {[c]} | None => ∅ end.

(** The connections that the session has to give back. *)
Definition held (s : session) : gset nat :=
  singleton_of (ss_explicitTx s ≫= tx_conn s) ∪ singleton_of (a_conn <$> ss_autocommitTx s).

(** [out] are the connections borrowed by others or by the call in progress; the
    state of the open transaction has no error unless it is about to be closed. *)
Record inv (strict : Prop) (out : gset nat) (s : session) : Prop := {
  inv_lent : lent (ss_env s) = out ∪ held s;
  inv_out : out ## held s;
  inv_open : ∀ t, is_Some (tx_conn s t) → ss_explicitTx s = Some t;
  inv_tx : ∀ t, ss_explicitTx s = Some t → ∃ x st,
    ss_txs s !! t = Some x ∧ is_Some (x_conn x) ∧ ss_states s !! x_txState x = Some st ∧
    closeTransaction t ∈ ts_handlers st ∧ (strict → ts_err st = None);
  inv_one : is_Some (ss_explicitTx s) → ss_autocommitTx s = None;
  inv_closed : ss_closed s = true → ss_explicitTx s = None ∧ ss_autocommitTx s = None
}.

Lemma inv_core P out s s' : core s' = core s → inv P out s → inv P out s'.
Proof.
  unfold core. intros Hc [Hl Ho Hp Ht Hone Hx]. injection Hc as E1 E2 E3 E4 E5 E6.
  assert (Eh : held s' = held s).
  { unfold held, tx_conn. by rewrite E1, E3, E4. }
  constructor; rewrite ?E1, ?E2, ?E3, ?E4, ?E5, ?E6, ?Eh; try done.
  intros t. unfold tx_conn. rewrite E1. apply Hp.
Qed.

Lemma session_inv_weaken (P Q : Prop) out s : (Q → P) → inv P out s → inv Q out s.
Proof.
  intros HQ [Hl Ho Hp Ht Hone Hx]. constructor; try done.
  intros t Ht'. destruct (Ht t Ht') as (x & st & ? & ? & ? & ? & ?). exists x, st. naive_solver.
Qed.

(** Without an open transaction there is nothing strict. *)
Lemma inv_strict (P : Prop) out s : ss_explicitTx s = None → inv P out s → inv True out s.
Proof.
  intros Hn [Hl Ho Hp Ht Hone Hx]. constructor; try done. intros t Ht'. congruence.
Qed.

Definition keeps {A} (m : S_ A) : Prop :=
  ∀ out s a s', inv True out s → m s = Done (a, s') → inv True out s'.

Lemma keeps_quiet {A} (m : S_ A) : quiet m → keeps m.
Proof. intros Hm out s a s' Hs E0. eapply inv_core; [by eapply Hm | done]. Qed.

Lemma session_keeps_bind {A B} (m : S_ A) (k : A → S_ B) : keeps m → (∀ a, keeps (k a)) → keeps (m ≫= k).
Proof.
  intros Hm Hk out s b s' Hs E0. apply bind_Done in E0 as (a & s1 & E1 & E2).
  eapply Hk; [| exact E2]. by eapply Hm.
Qed.

Lemma session_keeps_ret {A} (a : A) : keeps (mret a).
Proof. apply keeps_quiet, quiet_ret. Qed.

(** ** Transaction states *)

Lemma inv_set_state (P Q : Prop) out s t st st' :
  inv P out s → ss_states s !! t = Some st →
  (∀ h, h ∈ ts_handlers st → h ∈ ts_handlers st') →
  (∀ tx x, ss_explicitTx s = Some tx → ss_txs s !! tx = Some x → x_txState x = t →
     Q → ts_err st' = None) →
  (Q → P) →
  inv Q out (s <| ss_states := <[t := st']> (ss_states s) |>).
Proof.
  intros [Hl Ho Hp Ht Hone Hx] Hst Hh He HQ. constructor; try done.
  intros tx Htx. destruct (Ht tx Htx) as (x & st0 & Hx0 & Hc & Hs0 & Hc0 & He0).
  destruct (decide (x_txState x = t)) as [<- | Hne].
  - assert (st0 = st) as -> by congruence. exists x, st'. split_and!; try done.
    + apply list_lookup_insert_eq. by eapply lookup_lt_Some.
    + by apply Hh.
    + by eapply He.
  - exists x, st0. split_and!; try done.
    + simpl. by rewrite list_lookup_insert_ne.
    + auto.
Qed.

Lemma on_state_Done t f (s s' : session) u :
  on_state t f s = Done (u, s') →
  ∃ st, ss_states s !! t = Some st ∧ s' = s <| ss_states := <[t := f st]> (ss_states s) |>.
Proof.
  intros E0. unfold on_state in E0. apply bind_Done in E0 as (st & s1 & E1 & E2).
  unfold deref in E1. destruct (ss_states s !! t) as [st0 |] eqn:Hst; [| done].
  injection E1 as -> ->. injection E2 as _ <-. by exists st.
Qed.

Lemma on_tx_Done t f (s s' : session) u :
  on_tx t f s = Done (u, s') →
  ∃ x, ss_txs s !! t = Some x ∧ s' = s <| ss_txs := <[t := f x]> (ss_txs s) |>.
Proof.
  intros E0. unfold on_tx in E0. apply bind_Done in E0 as (x & s1 & E1 & E2).
  unfold deref in E1. destruct (ss_txs s !! t) as [x0 |] eqn:Hx; [| done].
  injection E1 as -> ->. injection E2 as _ <-. by exists x.
Qed.

(** ** Giving a connection back *)

Definition core0 (s : session) :=
  (ss_txs s, ss_states s, ss_explicitTx s, ss_autocommitTx s, ss_closed s).

Lemma core_core0 s s' : core s' = core s ↔ core0 s' = core0 s ∧ lent (ss_env s') = lent (ss_env s).
Proof.
  unfold core, core0. split.
  - intros E0. injection E0 as -> -> -> -> -> ->. done.
  - intros [E0 E1]. injection E0 as -> -> -> -> ->. by rewrite E1.
Qed.

Lemma pool_Return_core c (s s' : session) u :
  pool_Return cfg c s = Done (u, s') →
  core0 s' = core0 s ∧ lent (ss_env s') = lent (ss_env s) ∖ {[c]}.
Proof.
  intros E0. unfold pool_Return in E0. apply bind_Done in E0 as (u1 & s1 & E1 & E2).
  apply (quiet_callbacks cfg) in E2. apply core_core0 in E2 as [E2 E3].
  unfold on_env in E1. destruct (Return c (ss_conns s, ss_env s)) as [[u2 [cs e]] | |] eqn:E4; try done.
  injection E1 as _ <-. apply lent_Return in E4. split; [by rewrite E2 |]. rewrite E3. done.
Qed.

Lemma core0_held s s' : core0 s' = core0 s → held s' = held s.
Proof. unfold core0, held, tx_conn. intros E0. injection E0 as E1 E2 E3 E4 E5. by rewrite E1, E3, E4. Qed.

(** The invariant speaks of the pool only in its first field. *)
Lemma inv_core0 P out out' s s' :
  core0 s' = core0 s → inv P out s → lent (ss_env s') = out' ∪ held s → out' ## held s → inv P out' s'.
Proof.
  intros Hc [Hl Ho Hp Ht Hone Hx] Hl' Ho'. pose proof (core0_held _ _ Hc) as Hh.
  unfold core0 in Hc. injection Hc as E1 E2 E3 E4 E5.
  constructor; rewrite ?E1, ?E2, ?E3, ?E4, ?E5, ?Hh; try done.
  intros t. unfold tx_conn. rewrite E1. apply Hp.
Qed.

Lemma Return_inv P out c (s s' : session) u :
  inv P ({[c]} ∪ out) s → c ∉ out → pool_Return cfg c s = Done (u, s') → inv P out s'.
Proof.
  intros Hs Hc E0. apply pool_Return_core in E0 as [Ec El].
  pose proof (inv_lent _ _ _ Hs) as Hl. pose proof (inv_out _ _ _ Hs) as Ho.
  eapply inv_core0; [done | done | rewrite El, Hl; set_solver | set_solver].
Qed.

(** ** Closing transactions *)

Lemma quiet_step {A} (m : S_ A) P out s a s' :
  quiet m → m s = Done (a, s') → inv P out s → inv P out s'.
Proof. intros Hm E0. apply inv_core. by eapply Hm. Qed.

Lemma held_explicit P out s t c :
  inv P out s → tx_conn s t = Some c → held s = {[c]}.
Proof.
  intros Hs Hc. assert (Ht : ss_explicitTx s = Some t) by (apply (inv_open _ _ _ Hs); by rewrite Hc).
  unfold held. rewrite Ht. simpl. rewrite Hc, (inv_one _ _ _ Hs) by by rewrite Ht. set_solver.
Qed.

(** [onClose] of a closed transaction does nothing, that of an open one gives the
    connection back. *)
Lemma onClose_spec P out tx s s' u :
  inv P out s → onClose show cfg tx s = Done (u, s') →
  (tx_conn s tx = None ∧ s' = s) ∨
  (is_Some (tx_conn s tx) ∧ inv True out s' ∧ ss_explicitTx s' = None).
Proof.
  intros Hs E0. unfold onClose in E0. apply bind_Done in E0 as (x & s1 & E1 & E2).
  unfold deref in E1. destruct (ss_txs s !! tx) as [x0 |] eqn:Hx; [| done]. injection E1 as -> ->.
  assert (Hc : tx_conn s1 tx = x_conn x) by (unfold tx_conn; by rewrite Hx).
  destruct (x_conn x) as [c |]; [right | left; by injection E2 as _ <-].
  rewrite Hc. split; [done |].
  apply bind_Done in E2 as (e & s2 & E2 & E3). apply bind_Done in E3 as ([] & s3 & E3 & E4).
  apply bind_Done in E4 as ([] & s4 & E4 & E5). apply bind_Done in E5 as ([] & s5 & E5 & E6).
  injection E6 as _ <-. split; [| done].
  pose proof (quiet_step _ P out _ _ _ (quiet_retrieveBookmarks cfg c _) E2 Hs) as Hs2.
  pose proof (quiet_retrieveBookmarks cfg c _ _ _ _ E2) as Ec. apply core_core0 in Ec as [Ec _].
  apply pool_Return_core in E3 as [Ec3 El3].
  apply on_state_Done in E4 as (st & Hst & ->).
  apply on_tx_Done in E5 as (x2 & Hx2 & ->).
  assert (Hh : held s2 = {[c]}).
  { eapply held_explicit; [exact Hs2 |]. unfold core0 in Ec. injection Ec as Et _ _ _ _.
    unfold tx_conn. rewrite Et. exact Hc. }
  assert (Hex : ∀ t, is_Some (tx_conn s2 t) → t = tx).
  { intros t Ht. apply (inv_open _ _ _ Hs2) in Ht.
    assert (Ht2 : ss_explicitTx s2 = Some tx).
    { apply (inv_open _ _ _ Hs2). unfold core0 in Ec. injection Ec as Et _ _ _ _.
      unfold tx_conn. rewrite Et. unfold tx_conn in Hc. by rewrite Hc. }
    congruence. }
  assert (Ht2 : ss_explicitTx s2 = Some tx).
  { apply (inv_open _ _ _ Hs2). unfold core0 in Ec. injection Ec as Et _ _ _ _.
    unfold tx_conn. rewrite Et. unfold tx_conn in Hc. by rewrite Hc. }
  pose proof (inv_one _ _ _ Hs2 ltac:(by rewrite Ht2)) as Ha.
  unfold core0 in Ec3. injection Ec3 as F1 F2 F3 F4 F5.
  match goal with |- inv _ _ ?s0 => assert (Hh' : held s0 = ∅) end.
  { unfold held. change (ss_autocommitTx _) with (ss_autocommitTx s3). by rewrite F4, Ha. }
  constructor.
  - rewrite Hh'. change (ss_env _) with (ss_env s3). rewrite El3, (inv_lent _ _ _ Hs2), Hh.
    pose proof (inv_out _ _ _ Hs2). set_solver.
  - rewrite Hh'. set_solver.
  - intros t. unfold tx_conn. simpl. intros [c' Hc']. exfalso.
    destruct (decide (t = tx)) as [-> | Hne].
    + rewrite list_lookup_insert_eq in Hc' by by eapply lookup_lt_Some. done.
    + rewrite list_lookup_insert_ne in Hc' by done. apply Hne, Hex. exists c'.
      unfold tx_conn. rewrite <- F1. exact Hc'.
  - done.
  - intros [? ?]. done.
  - intros _. split; [done |]. exact (eq_trans F4 Ha).
Qed.

Lemma run_handlers_spec (P : Prop) out l s s' u :
  inv P out s → run_handlers show cfg l s = Done (u, s') →
  inv P out s' ∧ (ss_explicitTx s = None → ss_explicitTx s' = None) ∧
  (∀ t, ss_explicitTx s = Some t → closeTransaction t ∈ l → ss_explicitTx s' = None).
Proof.
  revert s. induction l as [| h l IH]; intros s Hs E0; cbn [run_handlers] in E0.
  { injection E0 as _ <-. split_and!; [done | done |]. intros t _ Hin. by apply elem_of_nil in Hin. }
  apply bind_Done in E0 as ([] & s1 & E1 & E2). destruct h as [tx | r].
  - destruct (onClose_spec P out tx s s1 tt Hs E1) as [[Hn ->] | (Hc & Hs1 & Hn)].
    + destruct (IH s Hs E2) as (Hi & Hk & Hin). split_and!; [done | done |].
      intros t Ht [Heq | Hl]%elem_of_cons; [| by eapply Hin].
      injection Heq as <-. destruct (inv_tx _ _ _ Hs t Ht) as (x & st & Hx & Hxc & _).
      unfold tx_conn in Hn. rewrite Hx in Hn. simpl in Hn. rewrite Hn in Hxc. by destruct Hxc.
    + assert (Hs1' : inv P out s1) by by apply (session_inv_weaken True).
      destruct (IH s1 Hs1' E2) as (Hi & Hk & _). split_and!; [done | auto | auto].
  - assert (Eq : core s1 = core s).
    { eapply (quiet_on_result r); exact E1. }
    assert (Hs1 : inv P out s1) by by eapply inv_core.
    destruct (IH s1 Hs1 E2) as (Hi & Hk & Hin). unfold core in Eq. injection Eq as _ _ Ee _ _ _.
    rewrite Ee in Hk, Hin. split_and!; [done | done |].
    intros t Ht [Heq | Hl]%elem_of_cons; [done | by eapply Hin].
Qed.

Lemma keeps_onError t e : keeps (onError (C := C) show cfg t e).
Proof.
  intros out s a s' Hs E0. unfold onError in E0. apply bind_Done in E0 as (u & s1 & E1 & E2).
  apply on_state_Done in E1 as (st & Hst & ->). apply bind_Done in E2 as (st1 & s2 & E2 & E3).
  unfold deref in E2. change (ss_states (s <| ss_states := ?l |>)) with l in E2.
  rewrite list_lookup_insert_eq in E2 by by eapply lookup_lt_Some. injection E2 as <- <-.
  assert (Hh : ∀ h, h ∈ ts_handlers st → h ∈ ts_handlers (st <| ts_err := Some e |>)) by done.
  assert (Hw : inv False out (s <| ss_states := <[t := st <| ts_err := Some e |>]> (ss_states s) |>)).
  { by eapply (inv_set_state True False). }
  destruct (ss_explicitTx s) as [tx |] eqn:Htx.
  2:{ destruct (run_handlers_spec False out _ _ _ _ Hw E3) as (Hi & Hn & _).
      by apply (inv_strict False); [apply Hn |]. }
  destruct (inv_tx _ _ _ Hs tx Htx) as (x & st0 & Hx & Hc & Hs0 & Hin & He).
  destruct (decide (x_txState x = t)) as [<- | Hne].
  - assert (st0 = st) as -> by congruence.
    destruct (run_handlers_spec False out _ _ _ _ Hw E3) as (Hi & _ & Hcl).
    apply (inv_strict False); [| done]. by apply (Hcl tx).
  - eapply (run_handlers_spec True out); [| exact E3].
    eapply (inv_set_state True True); try done. naive_solver.
Qed.

(** ** Results *)

Ltac keep_steps :=
  repeat first
    [ apply keeps_quiet; solve [quiet_steps]
    | match goal with
      | |- keeps (_ ≫= _) => apply session_keeps_bind; [| intros]
      | |- keeps (_ <$> _) => apply session_keeps_bind; [| intros]
      | |- keeps (match ?x with _ => _ end) => destruct x
      | |- keeps (if ?x then _ else _) => destruct x
      end
    | solve [auto with keeps] ].

Hint Resolve keeps_onError : keeps.

Lemma keeps_advance r : keeps (advance (C := C) show cfg r).
Proof. unfold advance. keep_steps. Qed.
Hint Resolve keeps_advance : keeps.

Lemma keeps_Next r : keeps (result_Next (C := C) show cfg r).
Proof. unfold result_Next. keep_steps. Qed.

Lemma keeps_Single r : keeps (Single (C := C) show cfg r).
Proof. unfold Single. keep_steps. Qed.

Lemma keeps_records_loop {A} fuel r (yield : _ → _ → A → S_ (bool * A)) a :
  (∀ x e a, keeps (yield x e a)) → keeps (records_loop show cfg fuel r yield a).
Proof.
  intros Hy. revert a. induction fuel as [| fuel IH]; intros a; simpl; keep_steps.
Qed.

Lemma keeps_Records {A} fuel r (yield : _ → _ → A → S_ (bool * A)) a :
  (∀ x e a, keeps (yield x e a)) → keeps (Records show cfg fuel r yield a).
Proof.
  intros Hy. unfold Records. apply session_keeps_bind; [by apply keeps_records_loop | intros]. keep_steps.
Qed.

Lemma keeps_Collect fuel r : keeps (Collect (C := C) show cfg fuel r).
Proof.
  unfold Collect. keep_steps. apply keeps_Records. intros x e a2. unfold collecting. keep_steps.
Qed.

(** ** Transactions *)

Lemma keeps_managed_Run tx cypher params : keeps (managed_Run (C := C) show cfg tx cypher params).
Proof. unfold managed_Run. keep_steps. Qed.

(** Adding a handler. *)
Lemma keeps_add_handler t h :
  keeps (on_state (C := C) (E := E) t (λ t, t <| ts_handlers := ts_handlers t ++ [h] |>)).
Proof.
  intros out s a s' Hs E0. apply on_state_Done in E0 as (st & Hst & ->).
  eapply (inv_set_state True True); [done | done | | | done].
  - intros h' Hh'. simpl. set_solver.
  - intros tx x Htx Hx <- _. destruct (inv_tx _ _ _ Hs tx Htx) as (x' & st' & ? & _ & ? & _ & He).
    simplify_eq. by apply He.
Qed.
Hint Resolve keeps_add_handler : keeps.

Lemma keeps_explicit_Run tx cypher params : keeps (explicit_Run (C := C) show cfg tx cypher params).
Proof. unfold explicit_Run. keep_steps. Qed.

(** Commit and rollback close an open transaction. *)
Lemma close_with_spec out tx x e s s' a :
  inv True out s → ss_txs s !! tx = Some x → is_Some (x_conn x) →
  close_with show cfg tx x e s = Done (a, s') →
  inv True out s' ∧ ss_explicitTx s' = None.
Proof.
  intros Hs Hx Hc E0. unfold close_with in E0. apply bind_Done in E0 as (u & s1 & E1 & E2).
  apply on_state_Done in E1 as (st & Hst & ->). apply bind_Done in E2 as (u2 & s2 & E2 & E3).
  assert (Hw : inv False out (s <| ss_states := <[x_txState x := st <| ts_err := e |>]> (ss_states s) |>)).
  { by eapply (inv_set_state True False). }
  assert (Hq : core s' = core s2).
  { revert E3. apply quiet_bind; [apply quiet_deref | intros; apply quiet_ret]. }
  destruct (onClose_spec False out tx _ _ _ Hw E2) as [[Hn _] | (_ & Hi & Hn)].
  - unfold tx_conn in Hn. change (ss_txs _) with (ss_txs s) in Hn. rewrite Hx in Hn. simpl in Hn.
    rewrite Hn in Hc. by destruct Hc.
  - split; [by eapply inv_core |]. unfold core in Hq. injection Hq as _ _ Hq _ _ _. congruence.
Qed.

Lemma quiet_txs {A} (m : S_ A) s a s' :
  quiet m → m s = Done (a, s') → ss_txs s' = ss_txs s ∧ ss_explicitTx s' = ss_explicitTx s.
Proof. intros Hm E0. apply Hm in E0. unfold core in E0. by injection E0 as -> _ -> _ _ _. Qed.

Lemma deref_Done {A} (f : session → list A) i s a s' :
  deref f i s = Done (a, s') → f s !! i = Some a ∧ s' = s.
Proof. unfold deref. destruct (f s !! i); [| done]. intros E0. by injection E0 as -> ->. Qed.

Lemma Commit_spec out tx s s' a :
  inv True out s → Commit show cfg tx s = Done (a, s') →
  inv True out s' ∧ (ss_explicitTx s' = ss_explicitTx s ∨ ss_explicitTx s' = None).
Proof.
  intros Hs E0. unfold Commit in E0. apply bind_Done in E0 as (x & s1 & E1 & E2).
  apply deref_Done in E1 as [Hx ->]. apply bind_Done in E2 as (t & s2 & E2 & E3).
  apply deref_Done in E2 as [Ht ->].
  destruct (ts_err t), (x_conn x) as [c |] eqn:Hc;
    try (injection E3 as _ <-; split; [done | by left]).
  apply bind_Done in E3 as (r & s3 & E3 & E4).
  destruct (quiet_txs _ _ _ _ (quiet_conn cfg c _) E3) as [Ex Ee].
  assert (Hend : inv True out s' ∧ ss_explicitTx s' = None).
  { eapply close_with_spec; [| by rewrite Ex | by rewrite Hc | exact E4].
    by eapply quiet_step; [apply quiet_conn | exact E3 |]. }
  destruct Hend. split; [done | by right].
Qed.

(** The rollback of the session's transaction leaves none. *)
Lemma Rollback_spec out tx s s' a :
  inv True out s → Rollback show cfg tx s = Done (a, s') →
  inv True out s' ∧ (ss_explicitTx s' = ss_explicitTx s ∨ ss_explicitTx s' = None) ∧
  (ss_explicitTx s = Some tx → ss_explicitTx s' = None).
Proof.
  intros Hs E0. unfold Rollback in E0. apply bind_Done in E0 as (x & s1 & E1 & E2).
  apply deref_Done in E1 as [Hx ->]. apply bind_Done in E2 as (t & s2 & E2 & E3).
  apply deref_Done in E2 as [Ht ->].
  assert (Hop : ss_explicitTx s = Some tx → ts_err t = None ∧ is_Some (x_conn x)).
  { intros Htx. destruct (inv_tx _ _ _ Hs tx Htx) as (x' & st' & ? & Hc & ? & _ & He). simplify_eq.
    split; [by apply He | done]. }
  destruct (ts_err t) as [e |].
  { injection E3 as _ <-. split_and!; [done | by left |]. intros Htx. by destruct (Hop Htx). }
  destruct (x_conn x) as [c |] eqn:Hc.
  2:{ injection E3 as _ <-. split_and!; [done | by left |]. intros Htx. by destruct (Hop Htx) as [_ []]. }
  apply bind_Done in E3 as (broken & s3 & E3 & E4).
  destruct (quiet_txs _ _ _ _ (quiet_see c _) E3) as [Ex Ee].
  assert (Hs3 : inv True out s3) by (eapply quiet_step; [apply (quiet_see c) | exact E3 | done]).
  assert (Hend : inv True out s' ∧ ss_explicitTx s' = None).
  { destruct broken.
    - eapply close_with_spec; [exact Hs3 | by rewrite Ex | by rewrite Hc | exact E4].
    - apply bind_Done in E4 as (r & s4 & E4 & E5).
      destruct (quiet_txs _ _ _ _ (quiet_conn cfg c _) E4) as [Ex4 _].
      eapply close_with_spec; [| by rewrite Ex4, Ex | by rewrite Hc | exact E5].
      by eapply quiet_step; [apply quiet_conn | exact E4 |]. }
  destruct Hend. split_and!; [done | by right | done].
Qed.

(** ** Autocommit transactions *)

Lemma onClosed_spec out tx (s s' : session) u :
  inv True out s → ss_autocommitTx s = Some tx → autocommit_onClosed cfg tx s = Done (u, s') →
  inv True out s' ∧ ss_explicitTx s' = None ∧ ss_autocommitTx s' = None ∧ ss_closed s' = ss_closed s.
Proof.
  intros Hs Ha E0. unfold autocommit_onClosed in E0. apply bind_Done in E0 as ([] & s1 & E1 & E2).
  apply pool_Return_core in E1 as [Ec El]. injection E2 as _ <-.
  assert (He : ss_explicitTx s = None).
  { destruct (ss_explicitTx s) eqn:He; [| done]. rewrite (inv_one _ _ _ Hs) in Ha by by rewrite He. done. }
  assert (Hh : held s = {[a_conn tx]}) by (unfold held; rewrite He, Ha; set_solver).
  pose proof (inv_lent _ _ _ Hs) as Hl. pose proof (inv_out _ _ _ Hs) as Ho. rewrite Hh in Hl, Ho.
  pose proof (inv_open _ _ _ Hs) as Hopen. unfold core0 in Ec. injection Ec as F1 F2 F3 F4 F5.
  match goal with |- inv _ _ ?s0 ∧ _ => assert (Hh' : held s0 = ∅) end.
  { unfold held. change (ss_explicitTx _) with (ss_explicitTx s1). by rewrite F3, He. }
  split_and!; [| exact (eq_trans F3 He) | done | exact F5].
  constructor; rewrite ?Hh'.
  - change (ss_env _) with (ss_env s1). rewrite El, Hl. set_solver.
  - set_solver.
  - intros t. change (ss_explicitTx _) with (ss_explicitTx s1). unfold tx_conn.
    change (ss_txs _) with (ss_txs s1). rewrite F1, F3. apply Hopen.
  - intros t Ht. change (ss_explicitTx _) with (ss_explicitTx s1) in Ht. congruence.
  - done.
  - intros _. split; [exact (eq_trans F3 He) | done].
Qed.

(** A pending autocommit transaction is finished. *)
Lemma finish_autocommit_spec out f s s' u :
  inv True out s → f = done_ cfg ∨ f = discard_ show cfg →
  finish_autocommit f s = Done (u, s') →
  inv True out s' ∧ ss_explicitTx s' = ss_explicitTx s ∧ ss_autocommitTx s' = None ∧
  ss_closed s' = ss_closed s.
Proof.
  intros Hs Hf E0. unfold finish_autocommit in E0. apply bind_Done in E0 as (tx & s1 & E1 & E2).
  injection E1 as <- <-. destruct (ss_autocommitTx s) as [tx |] eqn:Ha; [| by injection E2 as _ <-].
  assert (Hm : ∃ A (m : S_ A), quiet m ∧ (m;; autocommit_onClosed cfg tx) s = Done (u, s')).
  { destruct Hf as [-> | ->]; [exists unit, (result_buffer cfg (a_res tx)) |
      exists (error + option Summary_)%type, (result_Consume show cfg (a_res tx))]; split; auto with quiet. }
  destruct Hm as (A & m & Hq & E3). apply bind_Done in E3 as (a & s1 & E3 & E4).
  pose proof (Hq _ _ _ E3) as Ec. assert (Hs1 : inv True out s1) by by eapply inv_core.
  unfold core in Ec. injection Ec as F1 F2 F3 F4 F5 F6.
  destruct (onClosed_spec out tx s1 s' u Hs1) as (Hi & Hx & Hn & Hc); [congruence | done |].
  split_and!; [done | | done | congruence].
  rewrite Hx. destruct (ss_explicitTx s) eqn:He; [| done].
  rewrite (inv_one _ _ _ Hs) in Ha by by rewrite He. done.
Qed.

(** No transaction, not closed. *)
Definition free (s : session) : Prop :=
  ss_explicitTx s = None ∧ ss_autocommitTx s = None ∧ ss_closed s = false.

Lemma enter_spec out pending c s s' r :
  inv True out s → enter cfg pending c s = Done (r, s') →
  inv True out s' ∧ (r = inr tt → free s').
Proof.
  intros Hs E0. unfold enter in E0. apply bind_Done in E0 as (s0 & s1 & E1 & E2). injection E1 as <- <-.
  unfold id in E2. destruct (ss_closed s) eqn:Hc; [by injection E2 as <- <- |].
  destruct (ss_explicitTx s) as [tx |] eqn:He; [by injection E2 as <- <- |]. simpl in E2.
  apply bind_Done in E2 as (u & s1 & E2 & E3). injection E3 as <- <-.
  destruct (finish_autocommit_spec out _ s s1 u Hs (or_introl eq_refl) E2) as (Hi & Hx & Ha & Hc').
  split; [done |]. intros _. split_and!; [congruence | done | congruence].
Qed.

(** ** Borrowing *)

Definition borrows (m : S_ (error + nat)) : Prop := ∀ s r s', m s = Done (r, s') →
  core0 s' = core0 s ∧
  match r with
  | inl _ => lent (ss_env s') = lent (ss_env s)
  | inr c => c ∉ lent (ss_env s) ∧ lent (ss_env s') = {[c]} ∪ lent (ss_env s)
  end.

Lemma borrows_Borrow l : borrows (borrowConnection (C := C) l).
Proof.
  intros s r s' E0. unfold borrowConnection, on_env in E0.
  destruct (Borrow l (ss_conns s, ss_env s)) as [[r' [cs e]] | |] eqn:E1; try done.
  injection E0 as -> <-. apply lent_Borrow in E1. by split.
Qed.

Lemma borrows_wrapped m : borrows m → borrows (or_wrapped show m).
Proof.
  intros Hm s r s' E0. unfold or_wrapped in E0. apply bind_Done in E0 as (r1 & s1 & E1 & E2).
  injection E2 as <- <-. apply Hm in E1. by destruct r1.
Qed.

(** After quiet steps, which may end in an error. *)
Lemma borrows_after {A} (m : S_ (error + A)) k : quiet m → (∀ a, borrows (k a)) →
  borrows (m ≫= λ r, match r with inl e => mret (inl e) | inr a => k a end).
Proof.
  intros Hm Hk s r s' E0. apply bind_Done in E0 as (r1 & s1 & E1 & E2).
  apply Hm, core_core0 in E1 as [Ec El]. destruct r1 as [e | a].
  - injection E2 as <- <-. by rewrite Ec, El.
  - destruct (Hk _ _ _ _ E2) as [Ec2 Hr]. rewrite Ec2, Ec. split; [done |]. by rewrite El in Hr.
Qed.

(** Go on with the connection that was borrowed; what follows keeps it or gives it
    back. *)
Definition passes_on (c : nat) (m : S_ (error + nat)) : Prop := ∀ s r s',
  c ∈ lent (ss_env s) → m s = Done (r, s') →
  core0 s' = core0 s ∧
  match r with
  | inl _ => lent (ss_env s') = lent (ss_env s) ∖ {[c]}
  | inr c' => lent (ss_env s') = {[c']} ∪ (lent (ss_env s) ∖ {[c]}) ∧ c' ∉ lent (ss_env s) ∖ {[c]}
  end.

Lemma borrows_then m k : borrows m → (∀ c, passes_on c (k c)) →
  borrows (m ≫= λ r, match r with inl e => mret (inl e) | inr c => k c end).
Proof.
  intros Hm Hk s r s' E0. apply bind_Done in E0 as (r1 & s1 & E1 & E2).
  apply Hm in E1 as [Ec Hr1]. destruct r1 as [e | c].
  - injection E2 as <- <-. done.
  - destruct Hr1 as [Hc El]. destruct (Hk c s1 r s' ltac:(set_solver) E2) as [Ec2 Hr].
    rewrite Ec2, Ec. split; [done |]. rewrite El in Hr. assert (Hd : ({[c]} ∪ lent (ss_env s)) ∖ {[c]} = lent (ss_env s)) by set_solver.
    rewrite Hd in Hr. destruct r as [e | c']; [done |]. destruct Hr. by split.
Qed.

(** [pool_Return] and then another one. *)
Lemma passes_Return c m : borrows m → passes_on c (pool_Return cfg c;; m).
Proof.
  intros Hm s r s' _ E0. apply bind_Done in E0 as (u & s1 & E1 & E2).
  apply pool_Return_core in E1 as [Ec El]. apply Hm in E2 as [Ec2 Hr]. rewrite Ec2, Ec.
  split; [done |]. rewrite El in Hr. destruct r as [e | c']; [done |]. by destruct Hr.
Qed.

Lemma passes_bind {A} c (m : S_ A) k : quiet m → (∀ a, passes_on c (k a)) → passes_on c (m ≫= k).
Proof.
  intros Hm Hk s r s' Hc E0. apply bind_Done in E0 as (a & s1 & E1 & E2).
  apply Hm, core_core0 in E1 as [Ec El]. rewrite <- El in Hc.
  destruct (Hk _ _ _ _ Hc E2) as [Ec2 Hr]. rewrite Ec2, Ec. split; [done |]. by rewrite El in Hr.
Qed.

Lemma passes_ret c : passes_on c (mret (inr c)).
Proof.
  intros s r s' Hc E0. injection E0 as <- <-. split; [done |]. split; [| set_solver].
  apply set_eq. intros x. destruct (decide (x = c)); set_solver.
Qed.

Lemma passes_error c e : passes_on c (pool_Return cfg c;; mret (inl e)).
Proof.
  intros s r s' _ E0. apply bind_Done in E0 as (u & s1 & E1 & E2).
  apply pool_Return_core in E1 as [Ec El]. by injection E2 as <- <-.
Qed.

Lemma passes_then c m k : passes_on c m → (∀ c', passes_on c' (k c')) →
  passes_on c (m ≫= λ r, match r with inl e => mret (inl e) | inr c' => k c' end).
Proof.
  intros Hm Hk s r s' Hc E0. apply bind_Done in E0 as (r1 & s1 & E1 & E2).
  destruct (Hm _ _ _ Hc E1) as [Ec Hr1]. destruct r1 as [e | c'].
  - injection E2 as <- <-. done.
  - destruct Hr1 as [El Hn]. destruct (Hk c' s1 r s' ltac:(set_solver) E2) as [Ec2 Hr].
    rewrite Ec2, Ec. split; [done |].
    assert (Hd : lent (ss_env s1) ∖ {[c']} = lent (ss_env s) ∖ {[c]}) by (rewrite El; set_solver).
    by rewrite Hd in Hr.
Qed.

Lemma borrows_getConnection mode : borrows (getConnection (C := C) (E := E) show cfg mode).
Proof.
  unfold getConnection. apply borrows_after; [quiet_steps |]. intros [servers guess].
  apply borrows_then; [apply borrows_wrapped, borrows_Borrow |]. intros c.
  apply passes_bind; [quiet_steps |]. intros ssr.
  apply passes_then.
  - destruct (negb ssr && guess); [| apply passes_ret]. apply passes_Return.
    apply borrows_after; [quiet_steps |]. intros l. apply borrows_wrapped, borrows_Borrow.
  - intros c'. do 2 (apply passes_bind; [quiet_steps | intros ?]).
    destruct (bool_decide _); [apply passes_ret |].
    apply passes_bind; [quiet_steps |]. intros [e | u]; [apply passes_error | apply passes_ret].
Qed.

(** ** The calls of a session *)

(** Borrowing adds the connection to those that are out. *)
Lemma getConnection_spec out mode s s' r :
  inv True out s → getConnection show cfg mode s = Done (r, s') →
  core0 s' = core0 s ∧
  match r with
  | inl _ => inv True out s'
  | inr c => inv True ({[c]} ∪ out) s' ∧ c ∉ out
  end.
Proof.
  intros Hs E0. apply borrows_getConnection in E0 as [Ec Hr]. split; [done |].
  pose proof (inv_lent _ _ _ Hs) as Hl. pose proof (inv_out _ _ _ Hs) as Ho.
  destruct r as [e | c].
  - eapply inv_core0; [done | done | by rewrite Hr | done].
  - destruct Hr as [Hc El]. rewrite Hl in Hc. split; [| set_solver].
    eapply inv_core0; [done | done | rewrite El, Hl; set_solver | set_solver].
Qed.

Lemma free_core0 s s' : core0 s' = core0 s → free s → free s'.
Proof. unfold core0, free. intros Ec. injection Ec as _ _ -> -> ->. done. Qed.

Lemma free_quiet {A} (m : S_ A) s a s' : quiet m → m s = Done (a, s') → free s → free s'.
Proof. intros Hm E0. apply Hm, core_core0 in E0 as [Ec _]. by apply free_core0. Qed.

(** A program that has borrowed [c] without any transaction pending, and gives it
    back or leaves it to the session; in the first case, which [again] tells,
    nothing is pending afterwards. *)
Definition settles {A} (again : A → Prop) (c : nat) (m : S_ A) : Prop := ∀ out s a s',
  inv True ({[c]} ∪ out) s → c ∉ out → free s → m s = Done (a, s') →
  inv True out s' ∧ (again a → free s').

Lemma settles_after {A B} again c (m : S_ A) (k : A → S_ B) :
  quiet m → (∀ a, settles again c (k a)) → settles again c (m ≫= k).
Proof.
  intros Hm Hk out s b s' Hs Hc Hf E0. apply bind_Done in E0 as (a & s1 & E1 & E2).
  eapply (Hk a); [by eapply quiet_step | done | by eapply free_quiet | exact E2].
Qed.

Lemma settles_Return {A} again c (m : S_ A) : quiet m → settles again c (pool_Return cfg c;; m).
Proof.
  intros Hm out s a s' Hs Hc Hf E0. apply bind_Done in E0 as ([] & s1 & E1 & E2).
  split.
  - eapply quiet_step; [exact Hm | exact E2 |]. by eapply Return_inv.
  - intros _. eapply free_quiet; [exact Hm | exact E2 |].
    apply pool_Return_core in E1 as [Ec _]. by eapply free_core0.
Qed.

Lemma settles_hand_back {A} again c e : settles again c (hand_back (A := A) show cfg c e).
Proof. apply settles_Return. quiet_steps. Qed.

(** The session takes over the connection. *)
Lemma take_over out c (s s' : session) :
  inv True ({[c]} ∪ out) s → c ∉ out → free s →
  lent (ss_env s') = lent (ss_env s) → held s' = {[c]} →
  (∀ t, is_Some (tx_conn s' t) → ss_explicitTx s' = Some t) →
  (∀ t, ss_explicitTx s' = Some t → ∃ x st,
    ss_txs s' !! t = Some x ∧ is_Some (x_conn x) ∧ ss_states s' !! x_txState x = Some st ∧
    closeTransaction t ∈ ts_handlers st ∧ (True → ts_err st = None)) →
  (is_Some (ss_explicitTx s') → ss_autocommitTx s' = None) → ss_closed s' = false →
  inv True out s'.
Proof.
  intros Hs Hc Hf El Hh Hop Htx Hone Hcl.
  assert (Hh0 : held s = ∅). { destruct Hf as (G1 & G2 & _). unfold held. by rewrite G1, G2. }
  pose proof (inv_lent _ _ _ Hs) as Hl. rewrite Hh0 in Hl.
  constructor; try done.
  - rewrite El, Hl, Hh. set_solver.
  - rewrite Hh. set_solver.
  - congruence.
Qed.

Lemma free_closed_txs out s : inv True out s → free s → ∀ t, tx_conn s t = None.
Proof.
  intros Hs (G1 & _ & _) t. destruct (tx_conn s t) eqn:Ht; [| done].
  assert (Hx : ss_explicitTx s = Some t) by (apply (inv_open _ _ _ Hs); by rewrite Ht). congruence.
Qed.

Lemma settles_new_explicit again c h b :
  (∀ t, ¬ again t) → settles again c (inr (A := error) <$> new_explicit (C := C) (E := E) cfg c h b).
Proof.
  intros Hag out s a s' Hs Hc Hf E0. apply bind_Done in E0 as (tx & s1 & E1 & E2).
  injection E2 as <- <-. injection E1 as <- <-. split; [| by intros ?%Hag].
  pose proof (free_closed_txs _ _ Hs Hf) as Hn. pose proof Hf as (G1 & G2 & G3).
  apply (take_over out c s); [done.. | | | | |]; clear Hs Hf;
    destruct s; unfold held, tx_conn in *; simpl in *; subst.
  - rewrite list_lookup_middle by done. simpl. set_solver.
  - intros t Ht. specialize (Hn t). destruct (decide (t < length ss_txs)%nat).
    + rewrite lookup_app_l in Ht by done. rewrite Hn in Ht. by destruct Ht.
    + destruct (decide (t = length ss_txs)) as [-> | ]; [done |].
      rewrite lookup_ge_None_2 in Ht by (rewrite length_app; simpl; lia). by destruct Ht.
  - intros t Ht. injection Ht as <-. eexists _, _. split_and!;
      [by apply list_lookup_middle | done | by apply list_lookup_middle | set_solver | done].
  - done.
  - done.
Qed.

Lemma settles_new_autocommit again c st cy ps b :
  (∀ r, ¬ again (inr (Some r))) →
  settles again c (inr (A := error) ∘ Some <$> new_autocommit (C := C) (E := E) c st cy ps b).
Proof.
  intros Hag out s a s' Hs Hc Hf E0. apply bind_Done in E0 as (r & s1 & E1 & E2).
  injection E2 as <- <-. injection E1 as <- <-. split; [| by intros ?%Hag].
  pose proof (free_closed_txs _ _ Hs Hf) as Hn. destruct Hf as (G1 & G2 & G3).
  apply (take_over out c s); try done.
  - unfold held. change (ss_explicitTx _) with (ss_explicitTx s). rewrite G1. simpl. set_solver.
  - intros t Ht. specialize (Hn t). unfold tx_conn in Ht, Hn.
    change (ss_txs _) with (ss_txs s) in Ht. rewrite Hn in Ht. by destruct Ht.
  - intros t Ht. change (ss_explicitTx _) with (ss_explicitTx s) in Ht. congruence.
  - intros Ht. change (ss_explicitTx _) with (ss_explicitTx s) in Ht. rewrite G1 in Ht. by destruct Ht.
Qed.

(** Borrow, and settle what is done with the connection. *)
Lemma borrow_settles {A} (again : error + A → Prop) mode (k : nat → S_ (error + A)) out s a s' :
  (∀ c, settles again c (k c)) → inv True out s → free s →
  (or_wrapped show (getConnection show cfg mode) ≫= λ r,
    match r with inl e => mret (inl e) | inr c => k c end) s = Done (a, s') →
  inv True out s' ∧ (again a → free s').
Proof.
  intros Hk Hs Hf E0. apply bind_Done in E0 as (r & s1 & E1 & E2).
  unfold or_wrapped in E1. apply bind_Done in E1 as (r0 & s0 & E0 & E1). injection E1 as <- <-.
  apply (getConnection_spec out) in E0 as [Ec Hr]; [| done].
  assert (Hf0 : free s0) by by eapply free_core0.
  destruct r0 as [e | c].
  - by injection E2 as <- <-.
  - destruct Hr as [Hi Hc]. by eapply (Hk c).
Qed.

Lemma keeps_BeginTransaction c : keeps (BeginTransaction (C := C) (E := E) show cfg c).
Proof.
  intros out s a s' Hs E0. unfold BeginTransaction in E0. apply bind_Done in E0 as (r & s1 & E1 & E2).
  destruct (enter_spec out _ _ s s1 r Hs E1) as [Hs1 Hf].
  destruct r as [e | []]; [by injection E2 as <- <- |]. specialize (Hf eq_refl).
  eapply (borrow_settles (λ _, False)); [| exact Hs1 | exact Hf | exact E2].
  intros conn. apply settles_after; [quiet_steps | intros _].
  apply settles_after; [quiet_steps | intros [e | b]]; [apply settles_hand_back |].
  apply settles_after; [quiet_steps | intros [e | h]]; [apply settles_hand_back |].
  apply settles_new_explicit. tauto.
Qed.

Lemma run_attempt_spec out first cy ps c s a s' :
  inv True out s → free s → run_attempt (C := C) (E := E) show cfg first cy ps c s = Done (a, s') →
  inv True out s' ∧ (a = inr None → free s').
Proof.
  intros Hs Hf. unfold run_attempt. apply (borrow_settles (λ a, a = inr None)); [| done | done].
  intros conn. do 2 (apply settles_after; [quiet_steps | intros ?]).
  apply settles_after; [quiet_steps | intros [e | b]]; [apply settles_hand_back |].
  apply settles_after; [quiet_steps | intros [e | h]].
  - apply settles_Return. quiet_steps.
  - apply settles_new_autocommit. by intros r [=].
Qed.

Lemma keeps_session_Run cy ps c : keeps (session_Run (C := C) (E := E) show cfg cy ps c).
Proof.
  intros out s a s' Hs E0. unfold session_Run in E0. apply bind_Done in E0 as (r & s1 & E1 & E2).
  destruct (enter_spec out _ _ s s1 r Hs E1) as [Hs1 Hf].
  destruct r as [e | []]; [by injection E2 as <- <- |]. specialize (Hf eq_refl).
  apply bind_Done in E2 as (u & s2 & E2 & E3). apply bind_Done in E3 as (r & s3 & E3 & E4).
  assert (Hq : quiet (go_modify (λ s : session, s <| ss_telemetry := TelemetryDisabled cfg |>)))
    by quiet_steps.
  destruct (run_attempt_spec out true cy ps c s2 r s3) as [Hs3 Hf3];
    [by eapply quiet_step | by eapply free_quiet | done |].
  destruct r as [e | [r |]]; [by injection E4 as <- <- | by injection E4 as <- <- |].
  apply bind_Done in E4 as (r & s4 & E4 & E5).
  destruct (run_attempt_spec out false cy ps c _ r s4 Hs3 (Hf3 eq_refl) E4) as [Hs4 _].
  eapply quiet_step; [| exact E5 | exact Hs4]. quiet_steps.
Qed.

(** ** Transaction functions *)

Section Work.
Context {A : Type}.
Variable work : managedTransaction → S_ (error + A).
Hypothesis work_keeps : ∀ tx, keeps (work tx).

(** Adding the state of a transaction. *)
Lemma keeps_new_managed c h : keeps (new_managed (C := C) (E := E) cfg c h).
Proof.
  intros out s a s' [Hl Ho Hp Ht Hone Hx] E0. injection E0 as _ <-. constructor; try done.
  intros t Htx. destruct (Ht t Htx) as (x & st & ? & ? & Hst & ? & ?). exists x, st.
  split_and!; try done. by apply lookup_app_l_Some.
Qed.
Hint Resolve keeps_new_managed : keeps.

Lemma keeps_report c e b : keeps (report (A := A) (C := C) (E := E) c e b).
Proof. unfold report. keep_steps. Qed.
Hint Resolve keeps_report : keeps.

Lemma keeps_in_transaction conn mode c b : keeps (in_transaction cfg work conn mode c b).
Proof. unfold in_transaction. keep_steps. Qed.

Lemma keeps_executeTransactionFunction mode c b api :
  keeps (executeTransactionFunction show cfg work mode c b api).
Proof.
  intros out s a s' Hs E0. unfold executeTransactionFunction in E0.
  apply bind_Done in E0 as (r & s1 & E1 & E2).
  apply (getConnection_spec out) in E1 as [_ Hr]; [| done].
  destruct r as [e | conn]; [by injection E2 as <- <- |]. destruct Hr as [Hs1 Hc].
  apply bind_Done in E2 as (sent & s2 & E2 & E3). apply bind_Done in E3 as (u & s3 & E3 & E4).
  apply bind_Done in E4 as (a' & s4 & E4 & E5). apply bind_Done in E5 as (u2 & s5 & E5 & E6).
  injection E6 as _ <-. eapply Return_inv; [| exact Hc | exact E5].
  eapply keeps_in_transaction; [| exact E4].
  eapply quiet_step; [| exact E3 |]; [quiet_steps |].
  eapply quiet_step; [| exact E2 | exact Hs1]. quiet_steps.
Qed.

Lemma keeps_retry_loop fuel mode c b api state :
  keeps (retry_loop show show_duration cfg work fuel mode c b api state).
Proof.
  revert state. induction fuel as [| fuel IH]; intros state; simpl; [keep_steps |].
  apply session_keeps_bind; [keep_steps | intros m].
  destruct (retry.Continue show show_duration pretty m state) as [[] state']; [| keep_steps].
  apply session_keeps_bind; [apply keeps_executeTransactionFunction | intros att]. destruct att; [keep_steps | apply IH].
Qed.

Lemma keeps_runRetriable fuel mode b api c :
  keeps (runRetriable show show_duration cfg work fuel mode b api c).
Proof.
  intros out s a s' Hs E0. unfold runRetriable in E0. apply bind_Done in E0 as (r & s1 & E1 & E2).
  destruct (enter_spec out _ _ s s1 r Hs E1) as [Hs1 _].
  destruct r as [e | []]; [by injection E2 as <- <- |].
  apply bind_Done in E2 as (u & s2 & E2 & E3).
  eapply keeps_retry_loop; [| exact E3]. eapply quiet_step; [| exact E2 | exact Hs1]. quiet_steps.
Qed.
End Work.

Lemma Close_spec out s s' a :
  inv True out s → session_Close show cfg s = Done (a, s') →
  inv True out s' ∧ ss_explicitTx s' = None ∧ ss_autocommitTx s' = None.
Proof.
  intros Hs E0. unfold session_Close in E0. apply bind_Done in E0 as (s0 & s1 & E1 & E2).
  injection E1 as <- <-. unfold id in E2. destruct (ss_closed s) eqn:Hcl.
  { injection E2 as _ <-. by destruct (inv_closed _ _ _ Hs Hcl). }
  apply bind_Done in E2 as (txErr & s1 & E1 & E2).
  assert (Hs1 : inv True out s1 ∧ ss_explicitTx s1 = None).
  { destruct (ss_explicitTx s) as [tx |] eqn:Htx; [| by injection E1 as _ <-].
    unfold explicit_Close in E1. apply bind_Done in E1 as (x & s2 & E1 & E3).
    apply deref_Done in E1 as [Hx ->].
    destruct (x_conn x) eqn:Hc.
    - destruct (Rollback_spec out tx s s1 txErr Hs E3) as (Hi & _ & Hn). split; [done | by apply Hn].
    - destruct (inv_tx _ _ _ Hs tx Htx) as (x' & st & Hx' & Hc' & _). simplify_eq.
      rewrite Hc in Hc'. by destruct Hc'. }
  destruct Hs1 as [Hs1 Hn1]. apply bind_Done in E2 as (u & s2 & E2 & E3).
  destruct (finish_autocommit_spec out _ s1 s2 u Hs1 (or_intror eq_refl) E2) as (Hs2 & Hx2 & Ha2 & _).
  apply bind_Done in E3 as (u3 & s3 & E3 & E4). apply bind_Done in E4 as ([] & s4 & E4 & E5).
  injection E5 as _ <-. injection E4 as <-.
  pose proof (quiet_cleanUp _ _ _ E3) as Eq. apply core_core0 in Eq as [Eq El].
  assert (Hs3 : inv True out s3) by (apply (inv_core _ _ s2); [by apply core_core0 | done]).
  unfold core0 in Eq. injection Eq as F1 F2 F3 F4 F5.
  assert (G1 : ss_explicitTx s3 = None) by congruence. assert (G2 : ss_autocommitTx s3 = None) by congruence.
  split_and!; [| exact G1 | exact G2]. destruct Hs3 as [Hl Ho Hp Ht Hone Hx]. by constructor.
Qed.

Lemma keeps_with_reader {B} (f : C → B) : keeps (with_reader (E := E) show cfg f).
Proof.
  unfold with_reader. apply session_keeps_bind; [keep_steps | intros [e | _]]; [keep_steps |].
  apply session_keeps_bind; [keep_steps | intros s0].
  intros out s a s' Hs E0. apply bind_Done in E0 as (r & s1 & E1 & E2).
  apply (borrows_wrapped _ (borrows_Borrow _)) in E1 as [Ec Hr].
  pose proof (inv_lent _ _ _ Hs) as Hl. pose proof (inv_out _ _ _ Hs) as Ho.
  destruct r as [e | c].
  - injection E2 as <- <-. by eapply inv_core0; [done | exact Hs | rewrite Hr |].
  - destruct Hr as [Hc El]. rewrite Hl in Hc.
    assert (Hs1 : inv True ({[c]} ∪ out) s1).
    { eapply inv_core0; [done | exact Hs | rewrite El, Hl; set_solver | set_solver]. }
    apply bind_Done in E2 as (b & s2 & E2 & E3). apply bind_Done in E3 as (u & s3 & E3 & E4).
    injection E4 as _ <-. eapply Return_inv; [| | exact E3]; [| set_solver].
    eapply quiet_step; [| exact E2 | exact Hs1]. quiet_steps.
Qed.

(** * Programs of clients *)

(** What a client can write with a session, its transactions and results; the
    functions it gives to [ExecuteRead] and the like may again use the session.  It
    may also panic or never end. *)
Inductive client : ∀ A : Type, S_ A → Prop :=
| client_ret A (a : A) : client A (mret a)
| client_bind A B (m : S_ A) (k : A → S_ B) :
    client A m → (∀ a, client B (k a)) → client B (m ≫= k)
| client_Begin c : client _ (BeginTransaction show cfg c)
| client_Run cypher params c : client _ (session_Run show cfg cypher params c)
| client_Execute A (work : managedTransaction → S_ (error + A)) fuel mode blocking api c :
    (∀ tx, client _ (work tx)) →
    client _ (runRetriable show show_duration cfg work fuel mode blocking api c)
| client_LastBookmarks : client _ LastBookmarks
| client_Close : client _ (session_Close show cfg)
| client_ServerInfo : client _ (getServerInfo show cfg)
| client_Verify : client _ (verifyAuthentication show cfg)
| client_tx_Run tx cypher params : client _ (explicit_Run show cfg tx cypher params)
| client_Commit tx : client _ (Commit show cfg tx)
| client_Rollback tx : client _ (Rollback show cfg tx)
| client_tx_Close tx : client _ (explicit_Close show cfg tx)
| client_managed_Run tx cypher params : client _ (managed_Run show cfg tx cypher params)
| client_Keys r : client _ (result_Keys cfg r)
| client_Next r : client _ (result_Next show cfg r)
| client_Peek r : client _ (Peek show cfg r)
| client_Records A fuel r (yield : option Record_ → option error → A → S_ (bool * A)) a :
    (∀ x e a, client _ (yield x e a)) → client _ (Records show cfg fuel r yield a)
| client_Collect fuel r : client _ (Collect show cfg fuel r)
| client_Single r : client _ (Single show cfg r)
| client_Consume r : client _ (result_Consume show cfg r)
| client_result r : client _ (the_result r)
| client_panics A : client A go_panic
| client_diverges A : client A go_nofuel.

Lemma keeps_client A (m : S_ A) : client A m → keeps m.
Proof.
  induction 1; try (apply keeps_quiet; solve [auto with quiet]).
  - by apply session_keeps_bind.
  - apply keeps_BeginTransaction.
  - apply keeps_session_Run.
  - by apply keeps_runRetriable.
  - intros out s a s' Hs E0. by apply (Close_spec out) in E0 as (? & _ & _).
  - unfold getServerInfo. apply session_keeps_bind; [apply keeps_quiet; quiet_steps | intros [e | _]];
      [apply session_keeps_ret | apply keeps_with_reader].
  - apply keeps_with_reader.
  - apply keeps_explicit_Run.
  - intros out s a s' Hs E0. by apply (Commit_spec out) in E0 as (? & _).
  - intros out s a s' Hs E0. by apply (Rollback_spec out) in E0 as (? & _).
  - unfold explicit_Close. apply session_keeps_bind; [apply keeps_quiet; quiet_steps | intros x].
    destruct (x_conn x); [| apply session_keeps_ret].
    intros out s a s' Hs E0. by apply (Rollback_spec out) in E0 as (? & _).
  - apply keeps_managed_Run.
  - apply keeps_Next.
  - by apply keeps_Records.
  - apply keeps_Collect.
  - apply keeps_Single.
Qed.

Lemma new_inv conns env db bms key guess :
  inv True (lent env) (newSession conns env db bms key guess).
Proof.
  constructor; unfold held, tx_conn; simpl; try done; try set_solver.
Qed.

Lemma held_small P out s : inv P out s → (size (held s) ≤ 1)%nat.
Proof.
  intros Hs. assert (Hone : ∀ o, (size (singleton_of o) ≤ 1)%nat).
  { intros [c |]; unfold singleton_of; rewrite ?size_singleton, ?size_empty; lia. }
  unfold held. destruct (ss_explicitTx s) as [t |] eqn:Ht.
  - rewrite (inv_one _ _ _ Hs) by by rewrite Ht. change (singleton_of (a_conn <$> None)) with (∅ : gset nat).
    rewrite union_empty_r_L. apply Hone.
  - change (singleton_of (None ≫= tx_conn s)) with (∅ : gset nat). rewrite union_empty_l_L. apply Hone.
Qed.

(** C4. Sessions give back what they borrow: after any program of a client, with
    any answers of pool, router, server and bookmark manager, the session holds at
    most one connection of the pool, that of its open transaction, and everything
    else it borrowed has been returned; once the session is closed it holds none.
    So no error path of session.go, transaction.go and result.go leaks a
    connection. *)
Theorem connections_returned {A} (m : S_ A) conns env db bms key guess a s :
  client A m → m (newSession conns env db bms key guess) = Done (a, s) →
  (lent (ss_env s) = lent env ∪ held s ∧ lent env ## held s ∧ (size (held s) ≤ 1)%nat) ∧
  ∀ r s', session_Close show cfg s = Done (r, s') → lent (ss_env s') = lent env.
Proof.
  intros Hm E0. pose proof (keeps_client A m Hm _ _ _ _ (new_inv conns env db bms key guess) E0) as Hs.
  split.
  - split_and!; [apply (inv_lent _ _ _ Hs) | apply (inv_out _ _ _ Hs) | by eapply held_small].
  - intros r s' Hcl. apply (Close_spec (lent env)) in Hcl as (Hi & G1 & G2); [| done].
    pose proof (inv_lent _ _ _ Hi) as Hl. unfold held in Hl. rewrite G1, G2 in Hl. simpl in Hl. set_solver.
Qed.
End Invariant.

(** * Failed commits *)

Section Commits.
Context {C E A : Type} `{idb.Connection C} `{Environment C E}.
Variable show : error → string.
Variable show_duration : Z → string.
Variable cfg : settings.
Variable work : managedTransaction → GoM (session (C := C) (E := E)) (error + A).

(** An attempt that begins a transaction and does its work, whose commit then fails
    with [err] on a connection that is dead afterwards; the connection is returned. *)
Inductive commit_lost (mode : AccessMode) (c : TransactionConfig) (blocking : bool) (api : Z)
    (s : session) (err : error) (s' : session) : Prop :=
| commit_lost_intro conn bookmarks h tx x s1 s2 s3 s4 s5 s6 s7 s8
    (Connected : getConnection show cfg mode s = Done (inr conn, s1))
    (Reported : only_if (negb (TelemetryDisabled cfg) && negb (ss_telemetry s1))
                  (on_conn cfg conn (idb.Telemetry api true)) s1 = Done (tt, s2))
    (Chained : getBookmarks cfg s2 = Done (inr bookmarks, s3))
    (Begun : on_conn cfg conn (idb.TxBegin (tx_config cfg mode bookmarks c) blocking) s3 = Done (inr h, s4))
    (Managed : new_managed cfg conn h s4 = Done (tx, s5))
    (Worked : work tx s5 = Done (inr x, s6))
    (Failed : on_conn cfg conn (idb.TxCommit h) s6 = Done (inl err, s7))
    (Dead : see conn idb.IsAlive s7 = Done (false, s8))
    (Returned : pool_Return cfg conn s8 = Done (tt, s')).

Lemma commit_lost_fails mode c blocking api s err s' :
  commit_lost mode c blocking api s err s' →
  executeTransactionFunction show cfg work mode c blocking api s =
    Done (retry.Failed err (Some false) true, s').
Proof.
  intros []. unfold executeTransactionFunction. rewrite (bind_eq _ _ _ _ _ Connected), bind_get.
  rewrite (bind_eq _ _ _ _ _ Reported), (bind_eq _ _ _ (retry.Failed err (Some false) true) s8).
  - by rewrite (bind_eq _ _ _ _ _ Returned).
  - unfold in_transaction. rewrite (bind_eq _ _ _ _ _ Chained), (bind_eq _ _ _ _ _ Begun),
      (bind_eq _ _ _ _ _ Managed), (bind_eq _ _ _ _ _ Worked), (bind_eq _ _ _ _ _ Failed).
    unfold report. by rewrite (bind_eq _ _ _ _ _ Dead).
Qed.

(** C39. A transaction that may have been committed is never run again.  In whatever
    attempt of the retry loop, if the connection dies while the session commits, the
    loop ends with its next look at the clock and the context: the client's function is
    not called again, nor is anything else done, whatever the error and the limits.
    The caller gets the connectivity error that names the failed commit, unless the
    context has ended by then; then it gets the error of the context. *)
Theorem failed_commit_not_retried fuel mode c blocking api state s m s0 err s1 m' s2 :
  on_user Moment s = Done (m, s0) → (retry.Continue show show_duration pretty m state).1 = true →
  commit_lost mode c blocking api s0 err s1 → on_user Moment s1 = Done (m', s2) →
  retry_loop show show_duration cfg work (S (S fuel)) mode c blocking api state s =
    Done (inl match retry.m_ctxErr m' with
              | None => ConnectivityError (CommitFailedDeadError err)
              | Some (TransactionExecutionLimit cause errs) => TransactionExecutionLimit cause errs
              | Some e => WrapError show e
              end, s2).
Proof.
  intros Em Hc Hl Em'. cbn [retry_loop]. rewrite (bind_eq _ _ _ _ _ Em).
  destruct (retry.Continue show show_duration pretty m state) as [[] state']; [| done].
  rewrite (bind_eq _ _ _ _ _ (commit_lost_fails _ _ _ _ _ _ _ Hl)), (bind_eq _ _ _ _ _ Em').
  pose proof (retry.failed_commit_ends show show_duration pretty m' err state') as Hend.
  destruct (retry.Continue show show_duration pretty m' _) as [b s3]. destruct Hend as [-> ->]. done.
Qed.
End Commits.
