(* ===== verification/ResultFacts.v ===== *)
(** Results as cursors: a result stands for the list of records that its stream
    still has, and [Next], [Peek] and [Collect] work on it as on the list. *)

From S2P Require Import Prelude Values Errors Messages Outgoing Router Retry Bolt BoltLogic BoltServer.
From S2P Require Import BoltStreams Connection Bookmarks Session.
#[local] Open Scope Z_scope.
#[local] Open Scope go_scope.

(** * Streams of a connection *)

(** Stream [h] of connection [c] has the records [l], then the summary; no callback
    of the session is due in between. *)
Inductive yields {C} `{idb.Connection C} (h : option nat) (sum : Summary_) : list Record_ → C → Prop :=
| yields_end c c1 c2 :
    idb.Next h c = Done ((None, Some sum, None), c1) → idb.Callbacks c1 = ([], c2) →
    yields h sum [] c
| yields_next r l c c1 c2 :
    idb.Next h c = Done ((Some r, None, None), c1) → idb.Callbacks c1 = ([], c2) →
    yields h sum l c2 → yields h sum (r :: l) c.

(** * The abstract cursor *)

(** The records that remain; [None] once the end was passed. *)
Definition cursor : Type := option (list Record_).

Inductive op : Type := ONext | OPeek.

(** What [NextRecord] and [PeekRecord] return. *)
Definition list_op (o : op) (c : cursor) : (bool * option Record_) * cursor :=
  match o, c with
  | _, None => ((false, None), None)
  | ONext, Some [] => ((false, None), None)
  | ONext, Some (r :: l) => ((true, Some r), Some l)
  | OPeek, Some l => ((match l with [] => false | _ => true end, head l), c)
  end.

Fixpoint list_ops (ops : list op) (c : cursor) : list (bool * option Record_) * cursor :=
  match ops with
  | [] => ([], c)
  | o :: ops =>
      let '(a, c) := list_op o c in
      let '(l, c) := list_ops ops c in
      (a :: l, c)
  end.

Section Results.
Context {C E : Type} `{idb.Connection C} `{Environment C E}.
Variable show : error → string.
Variable cfg : settings.
(** The bookmark manager of the client returns. *)
Hypothesis manager_returns : ∀ p n (e : E), ∃ r e', UpdateBookmarks p n e = Done (r, e').
Abbreviation session := (session (C := C) (E := E)).
Abbreviation S_ := (GoM session).

Fixpoint result_ops (r : nat) (ops : list op) : S_ (list (bool * option Record_)) :=
  match ops with
  | [] => mret []
  | o :: ops =>
      a ← (match o with ONext => NextRecord show cfg r | OPeek => PeekRecord show cfg r end);
      l ← result_ops r ops;
      mret (a :: l)
  end.

(** Result [r] stands for the list [l]. *)
Definition unread (x : result) (sum : Summary_) (l : list Record_) (s : session) : Prop :=
  ∃ c, ss_conns s !! r_conn x = Some c ∧ yields (Some (r_stream x)) sum l c.

Definition remaining (x : result) (sum : Summary_) (l : list Record_) (s : session) : Prop :=
  if r_peeked x then
    match l with
    | [] => r_peekedRecord x = None ∧ r_peekedSummary x = Some sum
    | rec :: l => r_peekedRecord x = Some rec ∧ r_peekedSummary x = None ∧ unread x sum l s
    end
  else r_peekedRecord x = None ∧ r_peekedSummary x = None ∧ unread x sum l s.

(** A hook refers to a connection that exists. *)
Definition hook_ok (x : result) (s : session) : Prop :=
  ∀ h, r_hook x = Some h → is_Some (ss_conns s !! h_conn h).

Record stands_for (r : nat) (sum : Summary_) (l : list Record_) (s : session) : Prop := {
  sf_open : ∃ x, ss_results s !! r = Some x ∧ r_err x = None ∧ r_summary x = None ∧
    hook_ok x s ∧ remaining x sum l s
}.

(** ** Steps *)

Definition set_result (r : nat) (x : result) (s : session) : session :=
  s <| ss_results := <[r := x]> (ss_results s) |>.

Lemma on_result_at r f x (s : session) :
  ss_results s !! r = Some x → on_result r f s = Done (tt, set_result r (f x) s).
Proof. intros Hx. unfold on_result, mbind, GoM_bind, deref. by rewrite Hx. Qed.

Lemma set_result_id r x (s : session) : ss_results s !! r = Some x → set_result r x s = s.
Proof. intros Hx. destruct s. unfold set_result. simpl in *. by rewrite list_insert_id. Qed.

Lemma set_result_twice r x y (s : session) : set_result r x (set_result r y s) = set_result r x s.
Proof. unfold set_result. destruct s. simpl. by rewrite list_insert_insert_eq. Qed.

Lemma lookup_set_result r x y (s : session) :
  ss_results s !! r = Some y → ss_results (set_result r x s) !! r = Some x.
Proof. intros Hy. apply list_lookup_insert_eq. by eapply lookup_lt_Some. Qed.

Lemma the_result_at r x (s : session) : ss_results s !! r = Some x → the_result r s = Done (x, s).
Proof. intros Hx. unfold the_result, deref. by rewrite Hx. Qed.

Lemma checkOpen_open r x (s : session) :
  ss_results s !! r = Some x → r_summary x = None → checkOpen show r s = Done (tt, s).
Proof.
  intros Hx Hs. unfold checkOpen. rewrite (on_result_at r _ x) by done.
  unfold isOpen. rewrite Hs. simpl. rewrite andb_false_r. by rewrite set_result_id.
Qed.

Definition set_conn (c : nat) (x : C) (s : session) : session :=
  s <| ss_conns := <[c := x]> (ss_conns s) |>.

(** A call on a connection after which no callback is due. *)
Lemma on_conn_quiet {A} c (m : GoM C A) x a x1 x2 (s : session) :
  ss_conns s !! c = Some x → m x = Done (a, x1) → idb.Callbacks x1 = ([], x2) →
  on_conn cfg c m s = Done (a, set_conn c x2 s).
Proof.
  intros Hx Hm Hc. unfold on_conn, callbacks, mbind, GoM_bind, deref. rewrite Hx, Hm.
  unfold go_modify, mbind, GoM_bind. change (ss_conns (s <| ss_conns := ?l |>)) with l.
  rewrite list_lookup_insert_eq by by eapply lookup_lt_Some. rewrite Hc.
  unfold set_conn. destruct s. simpl. by rewrite list_insert_insert_eq.
Qed.

Lemma is_Some_insert {A} (l : list A) i j (x : A) : is_Some (l !! j) → is_Some (<[i := x]> l !! j).
Proof. rewrite !lookup_lt_is_Some, length_insert. done. Qed.

(** The result after a record or the summary was taken from where it waits. *)
Definition advanced (x x' : result) : Prop :=
  r_conn x' = r_conn x ∧ r_stream x' = r_stream x ∧ r_hook x' = r_hook x ∧ r_err x' = None ∧
  r_peeked x' = false ∧ r_peekedRecord x' = None ∧ r_peekedSummary x' = None.

(** [x'] is result [r] of [s'], which is otherwise like [s]; only connections went on. *)
Definition moved (r : nat) (x' : result) (s s' : session) : Prop :=
  ss_results s' !! r = Some x' ∧ ss_env s' = ss_env s ∧
  ∀ c, is_Some (ss_conns s !! c) → is_Some (ss_conns s' !! c).

Lemma moved_set r x x' (s : session) : ss_results s !! r = Some x → moved r x' s (set_result r x' s).
Proof. intros Hx. split_and!; [by eapply lookup_set_result | done | done]. Qed.

Lemma moved_conn r x x' c y (s : session) :
  ss_results s !! r = Some x → moved r x' s (set_result r x' (set_conn c y s)).
Proof.
  intros Hx. split_and!; [by apply (lookup_set_result _ _ x) | done |].
  intros c' Hc. by apply is_Some_insert.
Qed.

Lemma advance_record r x sum rec l (s : session) :
  ss_results s !! r = Some x → r_err x = None → remaining x sum (rec :: l) s →
  ∃ x' s', advance show cfg r s = Done (tt, s') ∧ moved r x' s s' ∧ advanced x x' ∧
    r_record x' = Some rec ∧ r_summary x' = None ∧ unread x' sum l s'.
Proof.
  intros Hx He Hr. unfold advance, mbind, GoM_bind. rewrite (the_result_at r x) by done.
  unfold remaining in Hr. destruct (r_peeked x) eqn:Hp.
  - destruct Hr as (H1 & H2 & c & Hc & Hy). rewrite (on_result_at r _ x) by done.
    eexists _, _. split; [reflexivity |]. split; [by eapply moved_set |].
    unfold advanced, unread. simpl. rewrite H1, H2. split_and!; try done. by exists c.
  - destruct Hr as (H1 & H2 & c & Hc & Hy). inversion Hy as [| r0 l0 c0 c1 c2 Hn Hcb Hy2]; subst.
    rewrite (on_conn_quiet _ _ c _ c1 c2) by done. cbv beta iota.
    rewrite (on_result_at r _ x) by done. unfold mret, GoM_ret.
    eexists _, _. split; [reflexivity |]. split; [by eapply moved_conn |].
    split_and!; try done. exists c2. split; [| done].
    apply list_lookup_insert_eq. by eapply lookup_lt_Some.
Qed.

Lemma advance_end r x sum (s : session) :
  ss_results s !! r = Some x → r_err x = None → remaining x sum [] s →
  ∃ x' s', advance show cfg r s = Done (tt, s') ∧ moved r x' s s' ∧ advanced x x' ∧
    r_record x' = None ∧ r_summary x' = Some sum.
Proof.
  intros Hx He Hr. unfold advance, mbind, GoM_bind. rewrite (the_result_at r x) by done.
  unfold remaining in Hr. destruct (r_peeked x) eqn:Hp.
  - destruct Hr as (H1 & H2). rewrite (on_result_at r _ x) by done.
    eexists _, _. split; [reflexivity |]. split; [by eapply moved_set |].
    rewrite H1, H2. done.
  - destruct Hr as (H1 & H2 & c & Hc & Hy). inversion Hy as [c0 c1 c2 Hn Hcb |]; subst.
    rewrite (on_conn_quiet _ _ c _ c1 c2) by done. cbv beta iota.
    rewrite (on_result_at r _ x) by done. unfold mret, GoM_ret.
    eexists _, _. split; [reflexivity |]. split; [by eapply moved_conn |]. done.
Qed.

Lemma peek_waits r x sum l (s : session) :
  ss_results s !! r = Some x → r_err x = None → remaining x sum l s →
  ∃ x' s', peek cfg r s = Done (tt, s') ∧ moved r x' s s' ∧
    r_record x' = r_record x ∧ r_summary x' = r_summary x ∧ r_err x' = None ∧ r_hook x' = r_hook x ∧
    r_peekedRecord x' = head l ∧ remaining x' sum l s'.
Proof.
  intros Hx He Hr. unfold peek, mbind, GoM_bind. rewrite (the_result_at r x) by done.
  pose proof Hr as Hr0. unfold remaining in Hr. destruct (r_peeked x) eqn:Hp.
  - exists x, s. split; [done |]. split; [done |]. split_and!; try done. by destruct l; destruct Hr.
  - destruct Hr as (H1 & H2 & c & Hc & Hy). destruct Hy as [c c1 c2 Hn Hcb | rec l c c1 c2 Hn Hcb Hy];
      rewrite (on_conn_quiet _ _ c _ c1 c2) by done; cbv beta iota;
      rewrite (on_result_at r _ x) by done;
      (eexists _, _; split; [reflexivity |]; split; [by eapply moved_conn |]).
    + done.
    + do 5 (split; [done |]). unfold remaining. simpl. split; [done |]. split; [done |]. exists c2.
      split; [| done]. apply list_lookup_insert_eq. by eapply lookup_lt_Some.
Qed.

(** ** The hook *)

Lemma hook_returns r x (s : session) :
  ss_results s !! r = Some x → hook_ok x s →
  ∃ x' s', callAfterConsumptionHook cfg r s = Done (tt, s') ∧ ss_results s' !! r = Some x' ∧
    r_record x' = r_record x ∧ r_summary x' = r_summary x ∧ r_err x' = r_err x ∧
    r_peekedRecord x' = r_peekedRecord x.
Proof.
  intros Hx Hh. unfold callAfterConsumptionHook, mbind, GoM_bind. rewrite (the_result_at r x) by done.
  destruct (r_hook x) as [h |] eqn:Eh; [| by exists x, s].
  destruct (Hh h Eh) as [c Hc].
  assert (Hret : ∃ e s1, retrieveBookmarks cfg (h_conn h) (h_sent h) s = Done (e, s1) ∧
      ss_results s1 = ss_results s).
  { unfold retrieveBookmarks, see, fmap, GoM_fmap, mbind, GoM_bind, deref. rewrite Hc.
    unfold mret, GoM_ret, replaceBookmarks. case_decide; [by exists None, s |].
    unfold mbind, GoM_bind. destruct (HasBookmarkManager cfg).
    - unfold on_user. destruct (manager_returns (h_sent h) [idb.Bookmark c] (ss_env s)) as (e & e' & ->).
      destruct e; [by eexists _, _ |]. unfold replaceSessionBookmarks. rewrite decide_False by done.
      by eexists _, _.
    - unfold mret, GoM_ret, replaceSessionBookmarks. rewrite decide_False by done. by eexists _, _. }
  destruct Hret as (e & s1 & -> & Es).
  rewrite (on_result_at r _ x) by by rewrite Es.
  eexists _, _. split; [reflexivity |]. split; [by apply (lookup_set_result _ _ x); rewrite Es |]. done.
Qed.

(** ** The operations *)

Definition represents (r : nat) (sum : Summary_) (c : cursor) (s : session) : Prop :=
  match c with
  | Some l => stands_for r sum l s
  | None => ∃ x, ss_results s !! r = Some x ∧ is_Some (r_summary x) ∧ r_record x = None ∧
      r_peekedRecord x = None
  end.

(** The cursor after the end: both operations only set the error. *)
Lemma checkOpen_ended r x (s : session) :
  ss_results s !! r = Some x → is_Some (r_summary x) →
  ∃ e, let x' := x <| r_err := Some e |> in
    checkOpen show r s = Done (tt, set_result r x' s).
Proof.
  intros Hx [sum Hs]. unfold checkOpen. rewrite (on_result_at r _ x) by done.
  unfold isOpen. rewrite Hs. simpl. rewrite andb_true_r.
  destruct (r_err x) as [e |] eqn:He.
  - destruct (is_consumed_error show e); simpl; [| by eexists].
    exists e. by destruct x; simpl in *; subst.
  - simpl. by eexists.
Qed.

Lemma stands_for_moved r sum l x' (s s' : session) :
  moved r x' s s' → (∀ h, r_hook x' = Some h → is_Some (ss_conns s !! h_conn h)) →
  r_err x' = None → r_summary x' = None → remaining x' sum l s' → stands_for r sum l s'.
Proof.
  intros (Hx & _ & Hc) Hh He Hs Hr. constructor. exists x'. split_and!; try done.
  intros h Hh'. by apply Hc, Hh.
Qed.

Lemma NextRecord_spec r sum c (s : session) :
  represents r sum c s →
  ∃ s', NextRecord show cfg r s = Done ((list_op ONext c).1, s') ∧ represents r sum (list_op ONext c).2 s'.
Proof.
  intros Hr. unfold NextRecord, result_Next. destruct c as [l |].
  - destruct Hr as [(x & Hx & He & Hs & Hh & Hrem)].
    unfold mbind, GoM_bind. rewrite (checkOpen_open r x), (the_result_at r x) by done. rewrite He. unfold some at 1.
    cbv beta iota. destruct l as [| rec l].
    + destruct (advance_end r x sum s Hx He Hrem) as (x1 & s1 & -> & (Hx1 & _ & Hm) & Ha & Hrec & Hsum).
      rewrite (the_result_at r x1) by done. rewrite Hsum. unfold some at 1, only_if at 1.
      destruct (hook_returns r x1 s1) as (x2 & s2 & -> & Hx2 & R1 & R2 & R3 & R4).
      { done. }
      { intros h Hh'. apply Hm, Hh. destruct Ha as (_ & _ & <- & _). done. }
      rewrite !(the_result_at r x2) by done. unfold mret, GoM_ret. rewrite !(the_result_at r x2) by done.
      rewrite R1, Hrec. exists s2. split; [done |]. exists x2. split_and!; try done.
      * by rewrite R2, Hsum.
      * by rewrite R1.
      * rewrite R4. by destruct Ha as (_ & _ & _ & _ & _ & ? & _).
    + destruct (advance_record r x sum rec l s Hx He Hrem) as (x1 & s1 & -> & Hm & Ha & Hrec & Hsum & Hu).
      pose proof Hm as (Hx1 & _ & _).
      rewrite (the_result_at r x1) by done. rewrite Hsum. unfold some at 1, only_if at 1. unfold mret, GoM_ret.
      rewrite !(the_result_at r x1) by done. rewrite Hrec. exists s1. split; [done |].
      destruct Ha as (A1 & A2 & A3 & A4 & A5 & A6 & A7).
      apply (stands_for_moved r sum l x1 s s1); try done.
      * intros h. rewrite A3. apply Hh.
      * unfold remaining. by rewrite A5.
  - destruct Hr as (x & Hx & Hs & Hrec & Hp).
    destruct (checkOpen_ended r x s Hx Hs) as (e & Ec). unfold mbind, GoM_bind. rewrite Ec.
    erewrite the_result_at by by eapply lookup_set_result. change (some (r_err _)) with true. cbv beta iota.
    unfold mret, GoM_ret. erewrite the_result_at by by eapply lookup_set_result.
    change (r_record (x <| r_err := ?e |>)) with (r_record x). rewrite Hrec.
    eexists. split; [reflexivity |]. eexists. split; [by eapply lookup_set_result | done].
Qed.

Lemma PeekRecord_spec r sum c (s : session) :
  represents r sum c s →
  ∃ s', PeekRecord show cfg r s = Done ((list_op OPeek c).1, s') ∧ represents r sum (list_op OPeek c).2 s'.
Proof.
  intros Hr. unfold PeekRecord, Peek. destruct c as [l |].
  - destruct Hr as [(x & Hx & He & Hs & Hh & Hrem)].
    unfold mbind, GoM_bind. rewrite (checkOpen_open r x), (the_result_at r x) by done. rewrite He. unfold some at 1.
    cbv beta iota. destruct (peek_waits r x sum l s Hx He Hrem)
      as (x1 & s1 & -> & Hm & R1 & R2 & R3 & R4 & R5 & R6).
    pose proof Hm as (Hx1 & _ & _). rewrite (the_result_at r x1) by done. unfold mret, GoM_ret.
    rewrite (the_result_at r x1), R5 by done. exists s1. split; [by destruct l |].
    apply (stands_for_moved r sum l x1 s s1); try done.
    + intros h. rewrite R4. apply Hh.
    + by rewrite R2.
  - destruct Hr as (x & Hx & Hs & Hrec & Hp).
    destruct (checkOpen_ended r x s Hx Hs) as (e & Ec). unfold mbind, GoM_bind. rewrite Ec.
    erewrite the_result_at by by eapply lookup_set_result. change (some (r_err _)) with true. cbv beta iota.
    unfold mret, GoM_ret. erewrite the_result_at by by eapply lookup_set_result.
    change (r_peekedRecord (x <| r_err := ?e |>)) with (r_peekedRecord x). rewrite Hp.
    eexists. split; [reflexivity |]. eexists. split; [by eapply lookup_set_result | done].
Qed.

Lemma result_ops_spec r sum ops c (s : session) :
  represents r sum c s →
  ∃ s', result_ops r ops s = Done ((list_ops ops c).1, s') ∧ represents r sum (list_ops ops c).2 s'.
Proof.
  revert c s. induction ops as [| o ops IH]; intros c s Hr; simpl; [by exists s |].
  assert (Ho : ∃ s1, (match o with ONext => NextRecord show cfg r | OPeek => PeekRecord show cfg r end) s =
      Done ((list_op o c).1, s1) ∧ represents r sum (list_op o c).2 s1).
  { destruct o; [by apply NextRecord_spec | by apply PeekRecord_spec]. }
  destruct Ho as (s1 & E1 & Hr1). destruct (list_op o c) as [a c1]. simpl in *.
  destruct (IH c1 s1 Hr1) as (s2 & E2 & Hr2). destruct (list_ops ops c1) as [as_ c2]. simpl in *.
  exists s2. split; [| done]. unfold mbind, GoM_bind. by rewrite E1, E2.
Qed.

(** ** Collecting the rest *)

Lemma records_loop_spec r sum l acc fuel (s : session) :
  stands_for r sum l s → (length l < fuel)%nat →
  ∃ x' s', records_loop show cfg fuel r collecting (acc, None) s = Done ((true, (acc ++ l, None)), s') ∧
    ss_results s' !! r = Some x' ∧ r_err x' = None ∧ hook_ok x' s'.
Proof.
  revert acc fuel s. induction l as [| rec l IH]; intros acc [| fuel] s Hr Hf; simpl in Hf; try lia;
    destruct Hr as [(x & Hx & He & Hs & Hh & Hrem)]; simpl; unfold mbind, GoM_bind;
    rewrite (checkOpen_open r x), (the_result_at r x) by done; rewrite He; unfold some at 1; cbv beta iota.
  - destruct (advance_end r x sum s Hx He Hrem) as (x1 & s1 & -> & (Hx1 & _ & Hm) & Ha & Hrec & Hsum).
    rewrite (the_result_at r x1), Hrec by done. exists x1, s1. simpl. rewrite app_nil_r.
    destruct Ha as (_ & _ & A3 & A4 & _). split_and!; try done.
    intros h. rewrite A3. intros Hh'. by apply Hm, Hh.
  - destruct (advance_record r x sum rec l s Hx He Hrem) as (x1 & s1 & -> & Hm & Ha & Hrec & Hsum & Hu).
    pose proof Hm as (Hx1 & _ & _). destruct Ha as (A1 & A2 & A3 & A4 & A5 & A6 & A7).
    rewrite (the_result_at r x1), Hrec, A4, Hsum by done. simpl.
    destruct (IH (acc ++ [rec]) fuel s1) as (x2 & s2 & E2 & Hx2 & He2 & Hh2).
    + apply (stands_for_moved r sum l x1 s s1); try done.
      * intros h. rewrite A3. apply Hh.
      * unfold remaining. by rewrite A5.
    + lia.
    + exists x2, s2. rewrite <- app_assoc in E2. done.
Qed.

Lemma Collect_spec r sum l fuel (s : session) :
  stands_for r sum l s → (length l < fuel)%nat → ∃ s', Collect show cfg fuel r s = Done (inr l, s').
Proof.
  intros Hr Hf. destruct (records_loop_spec r sum l [] fuel s Hr Hf) as (x1 & s1 & El & Hx1 & He1 & Hh1).
  destruct Hr as [(x & Hx & He & Hs & Hh & Hrem)].
  unfold Collect, mbind, GoM_bind. rewrite (the_result_at r x), He, Hs by done. unfold some at 1. cbv beta iota.
  unfold Records, mbind, GoM_bind. rewrite El. cbv beta iota. rewrite (the_result_at r x1), He1 by done.
  simpl. unfold mret, GoM_ret. rewrite (the_result_at r x1) by done.
  unfold only_if. destruct (some (r_summary x1)); [| by eexists].
  destruct (hook_returns r x1 s1 Hx1 Hh1) as (x2 & s2 & -> & _). by eexists.
Qed.

(** C6. A result refines a list: as long as the stream has records [l] and then the
    summary, any sequence of [NextRecord] and [PeekRecord] returns what it would
    on the list itself, peeking without moving and false from the end on, and
    [Collect] then returns exactly the records that are left. *)
Theorem result_refines_list r sum l ops (s : session) :
  stands_for r sum l s →
  ∃ s', result_ops r ops s = Done ((list_ops ops (Some l)).1, s') ∧
    ∀ rest, (list_ops ops (Some l)).2 = Some rest →
      ∃ s2, Collect show cfg (S (length rest)) r s' = Done (inr rest, s2).
Proof.
  intros Hr. destruct (result_ops_spec r sum ops (Some l) s Hr) as (s' & El & Hs'). exists s'. split; [done |].
  intros rest Hrest. rewrite Hrest in Hs'. apply (Collect_spec r sum); [done | lia].
Qed.
End Results.
