(* ===== verification/SessionTraces.v ===== *)
(** Sessions on connections of version 5 to the server of [BoltServer], with a pool
    of one connection: the streams of such connections keep the promise on which the
    results rely, and sessions that run to their end. *)

From S2P Require Import Prelude Values Errors Messages Outgoing Router Retry Bolt BoltLogic BoltServer.
From S2P Require Import BoltStreams Connection Bookmarks Session SessionFacts ResultFacts.
From stdpp Require Import gmap.
#[local] Open Scope Z_scope.
#[local] Open Scope go_scope.

(** * A pool of one connection *)

(** What is lent and the updates of the bookmark manager. *)
Record solo : Type := mkSolo { so_lent : gset nat; so_updates : list (list string * list string) }.

Abbreviation conn := (bolt (net database) string).

Definition net_calls {D} (w : net D) : list callback * net D :=
  (n_calls w, w <| n_calls := [] |>).

#[global] Instance solo_connection : idb.Connection conn := connection shown V5 20 net_calls.

(** Like the pool, it resets what is returned; [home] is the home database. *)
Definition solo_with {C} `{idb.Connection C} (home : string) : Environment C solo := {|
  Borrow := λ _ '(cs, e),
    if decide (0%nat ∈ so_lent e) then Done (inl (PoolFull ["server"]), (cs, e))
    else Done (inr 0%nat, (cs, e <| so_lent := {[0%nat]} ∪ so_lent e |>));
  Return := λ c '(cs, e),
    match cs !! c with
    | Some x =>
        match idb.Reset x with
        | Done (_, x) => Done (tt, (<[c := x]> cs, e <| so_lent := so_lent e ∖ {[c]} |>))
        | Panic => Panic
        | OutOfFuel => OutOfFuel
        end
    | None => Panic
    end;
  CleanUp := mret tt;
  GetOrUpdateServers := λ _ _ _, mret (inr ["server"], []);
  Servers := λ _ _ _, ["server"];
  GetNameOfDefaultDatabase := λ _ _, mret (inr home);
  ComputeKey := λ _, mret (inr "DEFAULT");
  cache_Set := λ _ _, mret tt;
  cache_IsEnabled := λ _, false;
  GetBookmarks := mret (inr []);
  UpdateBookmarks := λ p n e, Done (None, e <| so_updates := so_updates e ++ [(p, n)] |>);
  Moment := mret (retry.mkMoment 0 None (retry.of_int 0) None)
|}.

Definition solo_lends {C} `{idb.Connection C} (home : string) : Lending C solo (H := solo_with home).
Proof.
  refine (Build_Lending _ _ _ so_lent _ _ _ _ _ _ _ _ _ _); simpl.
  - intros l cs e r cs' e'. case_decide; intros E0; injection E0 as <- <- <-; done.
  - intros c cs e u cs' e'. destruct (cs !! c); [| done].
    destruct (idb.Reset _) as [[] | |]; [| done..]. intros E0. by injection E0 as _ _ <-.
  - intros cs e u cs' e' E0. by injection E0 as _ _ <-.
  - intros mode m sel cs e r cs' e' _ E0. by injection E0 as _ _ <-.
  - intros l u cs e r cs' e' E0. by injection E0 as _ _ <-.
  - intros u e r e' E0. by injection E0 as _ <-.
  - intros k d e r e' E0. by injection E0 as _ <-.
  - intros e r e' E0. by injection E0 as _ <-.
  - intros p n e r e' E0. by injection E0 as _ <-.
  - intros e r e' E0. by injection E0 as _ <-.
Defined.

#[global] Instance solo_environment : Environment conn solo := solo_with "neo4j".
#[global] Instance solo_lending : Lending conn solo := solo_lends "neo4j".

Definition solo_settings : settings :=
  mkSettings WriteMode "" no_notifications 1000 true false true 0 0 100.

Abbreviation plain := defaultTransactionConfig.

(** A connection to a server with the results of the next queries, and a session
    on it. *)
Definition solo_conns (results : list (list Record_ * option Neo4jError)) : list conn :=
  match Connect shown V5 10 4 sample_auth "go" None [] no_notifications
          (NewBolt "server" 0 (new_net (new_database results))) with
  | Done (_, b) => [b]
  | _ => []
  end.

Definition solo_session (results : list (list Record_ * option Neo4jError)) : session :=
  newSession (solo_conns results) (mkSolo ∅ []) "neo4j" [] "DEFAULT" "".

Definition showd (d : Z) : string := "duration".

(** * Connections keep the promise of [yields] *)

Section Promise.
Variable sh : error → string.
Variable v : version.
Variable fuel : nat.
#[local] Instance promised : idb.Connection conn := connection sh v (S (S (S fuel))) net_calls.

Lemma no_calls (b : conn) : n_calls (b_world b) = [] → idb.Callbacks b = ([], b).
Proof.
  intros Hc. simpl. rewrite Hc. destruct b as [? ? ? ? ? ? ? ? ? ? ? ? ? ? ? ? ? ? ? ? ? ? ? ? []].
  simpl in *. by subst.
Qed.

(** A stream that is being delivered yields its records, whatever the batches. *)
Lemma delivering_yields tx hd s st now later (b : conn) :
  delivering tx hd s st now later b →
  ∃ sum, yields (Some s) sum ((λ r, r <| rec_Keys := s_keys st |>) <$> now ++ later) b.
Proof.
  intros Hb. remember (now ++ later) as l eqn:Hl. revert st now later b Hl Hb.
  induction l as [| r l IH]; intros st now later b Hl Hb.
  - symmetry in Hl. apply app_eq_nil in Hl as [-> ->].
    destruct (finish_next sh v tx hd (S fuel) s st b Hb) as (sum & b' & E0 & Hc%en_calls).
    exists sum. apply (yields_end _ _ _ b' b'); [exact E0 | by apply no_calls].
  - destruct (take_one sh v tx hd fuel s st now later r l b Hb (eq_sym Hl)) as (b' & now' & later' & E0 & Hb' & Hl').
    destruct (IH _ _ _ b' Hl' Hb') as (sum & Hy). exists sum.
    apply (yields_next _ _ _ _ _ b' b'); [exact E0 | apply no_calls, (dl_calls _ _ _ _ _ _ _ Hb') | exact Hy].
Qed.
End Promise.

(** * Runs *)

Abbreviation run_of A := (GoM (session (C := conn) (E := solo)) A).

(** Run a query, use its result, close the session and read the bookmarks. *)
Definition used {A} (use : nat → run_of A) : run_of (error + A * option error * list string) :=
  r ← session_Run shown solo_settings "CREATE" [] plain;
  match r with
  | inl e => mret (inl e)
  | inr r =>
      x ← use r;
      c ← session_Close shown solo_settings;
      b ← LastBookmarks;
      mret (inr (x, c, b))
  end.

(** What the client and the bookmark manager saw. *)
Definition seen {A} (o : outcome (A * session (C := conn) (E := solo))) :
    option (A * list (list string * list string)) :=
  match o with Done (a, s) => Some (a, so_updates (ss_env s)) | _ => None end.

Definition two_records : session := solo_session [([sample_record 1; sample_record 2], None)].

(** A query whose result the client reads with [Single] commits, but when there
    are two records the session loses the bookmark of that commit: once the session
    is closed, neither [LastBookmarks] nor the bookmark manager has it.  With
    [Collect] both have it. *)
Theorem single_loses_bookmark :
  seen (used (Single shown solo_settings) two_records) =
    Some (inr (inl moreThanOneRecord, None, []), []) ∧
  ∃ recs, seen (used (Collect shown solo_settings 10) two_records) =
    Some (inr (inr recs, None, ["bm"]), [([], ["bm"])]).
Proof. split; [vm_compute; reflexivity | eexists; vm_compute; reflexivity]. Qed.

(** ** A query from end to end *)

Definition with_fetch (n : Z) : settings := solo_settings <| fetchSize := n |>.

Definition query_all (n : Z) (k : nat) (cypher : string) (params : gomap goval) :
    run_of (error + list Record_) :=
  r ← session_Run shown (with_fetch n) cypher params plain;
  match r with
  | inl e => mret (inl e)
  | inr r => Collect shown (with_fetch n) k r
  end.

(** Before the query is sent: the connection is borrowed and idle. *)
Lemma ready_to_run n recs rest :
  ∃ s1 b1, getConnection shown (with_fetch n) WriteMode
      ((solo_session ((recs, None) :: rest)) <| ss_telemetry := true |>) = Done (inr 0%nat, s1) ∧
    ss_conns s1 = [b1] ∧ idle recs b1 ∧ ss_telemetry s1 = true ∧ ss_bookmarks s1 = [] ∧
    ss_results s1 = [].
Proof.
  eexists _, _. split; [vm_compute; reflexivity |]. split; [reflexivity |]. split; [| done].
  constructor; try reflexivity. by eexists.
Qed.

Lemma manager_returns_solo p n (e : solo) : ∃ r e', UpdateBookmarks p n e = Done (r, e').
Proof. eexists _, _. reflexivity. Qed.

Lemma attempt_stands n recs rest cypher params :
  ∃ sum s, run_attempt shown (with_fetch n) true cypher params plain
      ((solo_session ((recs, None) :: rest)) <| ss_telemetry := true |>) = Done (inr (Some 0%nat), s) ∧
    stands_for 0 sum ((λ r, r <| rec_Keys := fields_of_results |>) <$> recs) s.
Proof.
  destruct (ready_to_run n recs rest) as (s1 & b1 & Ec & Hc & Hi & Ht & Hb & Hr).
  destruct (Run_net shown V5 18 (mkCommand cypher params n)
    (tx_config (with_fetch n) WriteMode [] plain) recs b1 Hi) as (h & st & b2 & Er & Hd & Hk);
    [done | done |].
  destruct (delivering_yields shown V5 17 false no_tx h st _ _ b2 Hd) as (sum & Hy).
  rewrite split_batch_app, Hk in Hy. exists sum.
  destruct s1 as [cs env res sts txs db bms rh gu key ex au te cl] eqn:Es. simpl in Hc, Ht, Hb, Hr. subst cs te bms res.
  rewrite <- Es in Ec. eexists. split.
  - unfold run_attempt.
    rewrite (bind_eq _ _ _ (inr 0%nat) s1) by (unfold or_wrapped; by erewrite bind_eq by exact Ec).
    rewrite bind_get, (bind_eq _ _ _ tt s1) by by rewrite Es.
    rewrite (bind_eq _ _ _ (inr []) s1) by by rewrite Es.
    rewrite (bind_eq _ _ _ (inr h) (set_conn 0 b2 s1)); [rewrite Es; reflexivity |].
    apply (on_conn_quiet _ _ _ b1 _ b2 b2); [by rewrite Es | exact Er |].
    by apply no_calls, (dl_calls _ _ _ _ _ _ _ Hd).
  - clear Ec. subst s1. constructor. eexists. split; [reflexivity |].
    do 2 (split; [reflexivity |]). split; [intros h0 [= <-]; by eexists |].
    split; [reflexivity |]. split; [reflexivity |]. by exists b2.
Qed.

(** C7. A query from end to end: for every result of the server, every fetch size
    and every query, [Run] in a session followed by [Collect] returns exactly the
    records of the server, in order, with the announced keys.  Session, result,
    connection and server each are the whole component. *)
Theorem query_collects n recs rest cypher params :
  ∃ s, query_all n (S (length recs)) cypher params (solo_session ((recs, None) :: rest)) =
    Done (inr ((λ r, r <| rec_Keys := fields_of_results |>) <$> recs), s).
Proof.
  destruct (attempt_stands n recs rest cypher params) as (sum & s & Ea & Hs).
  destruct (Collect_spec shown (with_fetch n) manager_returns_solo 0 sum _ (S (length recs)) s Hs)
    as (s' & Ec); [rewrite length_fmap; lia |].
  exists s'. unfold query_all. rewrite (bind_eq _ _ _ (inr 0%nat) s); [exact Ec |].
  unfold session_Run.
  rewrite (bind_eq _ _ _ (inr tt) (solo_session ((recs, None) :: rest))) by (vm_compute; reflexivity).
  rewrite (bind_eq _ _ _ tt ((solo_session ((recs, None) :: rest)) <| ss_telemetry := true |>))
    by reflexivity.
  by rewrite (bind_eq _ _ _ _ _ Ea).
Qed.

(** The state that a run leaves. *)
Definition left_by {A} (m : run_of A) (s : session) : session :=
  match m s with Done (_, s) => s | _ => s end.

Definition run_single : run_of (error + (error + option Record_)) :=
  r ← session_Run shown solo_settings "CREATE" [] plain;
  match r with
  | inl e => mret (inl e)
  | inr r => x ← Single shown solo_settings r; mret (inr x)
  end.

(** After [Single] failed the session still holds its connection, until [Close]. *)
Lemma connections_returned_witness :
  let s := left_by run_single two_records in
  let none := lent (mkSolo ∅ []) in
  (lent (ss_env s) = none ∪ held s ∧ none ## held s ∧ (size (held s) ≤ 1)%nat) ∧
  ∀ r s', session_Close shown solo_settings s = Done (r, s') → lent (ss_env s') = none.
Proof.
  intros s none.
  refine (connections_returned shown showd solo_settings run_single
    (solo_conns [([sample_record 1; sample_record 2], None)]) (mkSolo ∅ []) "neo4j" [] "DEFAULT" ""
    (inr (inl moreThanOneRecord)) s _ _).
  - apply client_bind; [apply client_Run | intros [e | r]; [apply client_ret |]].
    apply client_bind; [apply client_Single | intros x; apply client_ret].
  - vm_compute. reflexivity.
Defined.

Definition run_query : run_of (error + nat) := session_Run shown solo_settings "CREATE" [] plain.

(** A result with two records, of which one is peeked at and read. *)
Lemma result_refines_list_witness :
  let s := left_by run_query two_records in
  let l := (λ r, r <| rec_Keys := fields_of_results |>) <$> [sample_record 1; sample_record 2] in
  ∃ s', result_ops shown solo_settings 0 [OPeek; ONext; OPeek] s = Done ((list_ops [OPeek; ONext; OPeek] (Some l)).1, s') ∧
    ∀ rest, (list_ops [OPeek; ONext; OPeek] (Some l)).2 = Some rest →
      ∃ s2, Collect shown solo_settings (S (length rest)) 0 s' = Done (inr rest, s2).
Proof.
  intros s l. eapply (result_refines_list shown solo_settings _ 0 _ l [OPeek; ONext; OPeek] s).
  constructor. eexists. split; [vm_compute; reflexivity |]. do 2 (split; [reflexivity |]). split.
  - intros h [= <-]. vm_compute. by eexists.
  - split; [reflexivity |]. split; [reflexivity |]. eexists. split; [vm_compute; reflexivity |].
    eapply yields_next; [vm_compute; reflexivity.. |].
    eapply yields_next; [vm_compute; reflexivity.. |].
    eapply yields_end; vm_compute; reflexivity.
Unshelve. exact manager_returns_solo.
Defined.

(** * A commit whose answer is lost

    A server that commits and goes away before it answers. *)

Record leaving : Type := mkLeaving { l_database : database }.

#[global] Instance leaving_server : Server leaving := {|
  serve := λ r d,
    let '(ms, d) := serve_database r (l_database d) in
    (match r with RCommit => [] | _ => ms end, mkLeaving d);
  pack_fails := λ _, []
|}.

Abbreviation leaving_conn := (bolt (net leaving) string).

#[global] Instance leaving_connection : idb.Connection leaving_conn := connection shown V5 20 net_calls.
#[global] Instance leaving_environment : Environment leaving_conn solo := solo_with "neo4j".

Definition leaving_session : session (C := leaving_conn) (E := solo) :=
  newSession
    match Connect shown V5 10 4 sample_auth "go" None [] no_notifications
            (NewBolt "server" 0 (new_net (mkLeaving (new_database [([sample_record 1], None)])))) with
    | Done (_, b) => [b]
    | _ => []
    end (mkSolo ∅ []) "neo4j" [] "DEFAULT" "".

(** A function that creates a node. *)
Definition create (tx : managedTransaction) : GoM (session (C := leaving_conn) (E := solo)) (error + unit) :=
  r ← managed_Run shown solo_settings tx "CREATE" [];
  match r with
  | inl e => mret (inl e)
  | inr r => result_Consume shown solo_settings r;; mret (inr tt)
  end.

Ltac evaluate := vm_compute; reflexivity.

(** The function was run and committed once; the caller is told that the commit
    failed. *)
Lemma failed_commit_not_retried_witness :
  ∃ s, retry_loop shown showd solo_settings create 2 WriteMode plain true ManagedTransaction
         (retry.new_state 30000000000 1000000000 5) leaving_session =
       Done (inl (ConnectivityError (CommitFailedDeadError EOF)), s) ∧
    (λ b : leaving_conn, d_committed (l_database (n_server (b_world b)))) <$> ss_conns s = [[[("CREATE", [])]]].
Proof.
  eexists. split.
  - eapply (failed_commit_not_retried shown showd solo_settings create 0 WriteMode plain true ManagedTransaction
      (retry.new_state 30000000000 1000000000 5) leaving_session
      (retry.mkMoment 0 None (retry.of_int 0) None) leaving_session EOF _
      (retry.mkMoment 0 None (retry.of_int 0) None) _).
    + vm_compute. reflexivity.
    + reflexivity.
    + eapply commit_lost_intro.
      * evaluate. * evaluate. * evaluate. * evaluate. * evaluate.
      * evaluate. * evaluate. * evaluate. * evaluate.
    + vm_compute. reflexivity.
  - vm_compute. reflexivity.
Defined.
