(* ===== verification/Bolt3Sessions.v ===== *)
(** Sessions on connections of version 3: bolt3.go as an implementation of the
    interface of connections, and a query from end to end over it. *)

From S2P Require Import Prelude Values Errors Messages Outgoing Router Retry Bolt BoltLogic BoltServer.
From S2P Require Import BoltStreams Bolt3 Bolt3Facts BoltTraces Connection Bookmarks Session SessionFacts ResultFacts SessionTraces.
From stdpp Require Import gmap.
#[local] Open Scope Z_scope.
#[local] Open Scope go_scope.

(** * The interface

    These connections are no [DatabaseSelector]s, and a session does not try to use
    them as such ([selectDatabase] looks at the version first). *)
Definition connection3 {W Token} `{World W} `{Tokens Token} (show : error → string) (fuel : nat)
    (calls : W → list callback * W) : idb.Connection (bolt3.bolt3 W Token) := {|
  idb.TxBegin := bolt3.TxBegin show fuel;
  idb.TxRollback := bolt3.TxRollback show fuel;
  idb.TxCommit := bolt3.TxCommit show fuel;
  idb.Run := bolt3.Run show fuel;
  idb.RunTx := bolt3.RunTx show fuel;
  idb.Keys := bolt3.Keys;
  idb.Next := bolt3.Next show;
  idb.Consume := bolt3.Consume show fuel;
  idb.Buffer := bolt3.Buffer show fuel;
  idb.Bookmark := bolt3.c_bookmark;
  idb.ServerName := bolt3.c_serverName;
  idb.ServerVersion := bolt3.c_serverVersion;
  idb.IsAlive := bolt3.IsAlive;
  idb.HasFailed := bolt3.HasFailed;
  idb.Birthdate := bolt3.c_birthDate;
  idb.IdleDate := bolt3.c_idleDate;
  idb.Reset := bolt3.Reset show fuel;
  idb.ForceReset := bolt3.ForceReset show fuel;
  idb.Close := bolt3.Close show;
  idb.GetRoutingTable := bolt3.GetRoutingTable show fuel;
  idb.Version := bolt3.Version;
  idb.ResetAuth := bolt3.ResetAuth;
  idb.Telemetry := bolt3.Telemetry;
  idb.SetPinHomeDatabaseCallback := λ _, mret tt;
  idb.IsSsrEnabled := λ _, false;
  idb.SelectDatabase := λ _, go_panic;
  idb.Callbacks := λ b, let '(cs, w) := calls (bolt3.c_world b) in (cs, b <| bolt3.c_world := w |>)
|}.

(** [Next] keeps the promise of its comment. *)
Section Lawful.
Context {W Token : Type} `{World W} `{Tokens Token}.
Variable show : error → string.

Definition always {A} (P : A → Prop) (m : GoM (bolt3.bolt3 W Token) A) : Prop :=
  ∀ b a b', m b = Done (a, b') → P a.

Lemma always_bind {A C} (P : C → Prop) (m : GoM (bolt3.bolt3 W Token) A) (k : A → GoM _ C) :
  (∀ a, always P (k a)) → always P (m ≫= k).
Proof. intros Hk b c b' E0. apply bind_Done in E0 as (a & b1 & _ & E2). by eapply Hk. Qed.

Lemma always_ret {A} (P : A → Prop) a : P a → always P (mret a).
Proof. intros Ha b a' b' E0. by injection E0 as <- _. Qed.

Lemma receiveNext_exclusive : always exclusive (bolt3.receiveNext show).
Proof.
  unfold bolt3.receiveNext, bolt3.finish_stream, bolt3.detach_failed, next_error.
  repeat first [apply always_bind; intros ? | apply always_ret; done | case_match].
Qed.

Lemma Next3_exclusive h : always exclusive (bolt3.Next show h).
Proof.
  unfold bolt3.Next. destruct h as [s |]; [| by apply always_ret].
  apply always_bind. intros st. destruct (bufferedNext st) as [[[[buf rec] sum] err] st'] eqn:Eb.
  apply always_bind. intros _. destruct buf; [apply always_ret; by eapply bufferedNext_exclusive |].
  apply always_bind. intros curr. case_decide; [apply receiveNext_exclusive | by apply always_ret].
Qed.
End Lawful.

#[global] Instance connection3_lawful {W Token} `{World W} `{Tokens Token} show fuel (calls : W → list callback * W) :
  idb.Lawful (bolt3.bolt3 W Token) (H := connection3 show fuel calls).
Proof. constructor. intros h c r c'. apply Next3_exclusive. Qed.

(** * Streams keep the promise on which results rely *)

Abbreviation conn3 := (bolt3.bolt3 (net database) string).

#[global] Instance solo3_connection (fuel : nat) : idb.Connection conn3 := connection3 shown fuel net_calls.

Section Promise.
Variable fuel : nat.
#[local] Existing Instance solo3_connection | 0.

Lemma no_calls3 (b : conn3) :
  n_calls (bolt3.c_world b) = [] → idb.Callbacks (Connection := solo3_connection fuel) b = ([], b).
Proof.
  intros Hc. simpl. rewrite Hc. destruct b as [? ? ? ? ? ? ? ? ? ? ? ? ? ? ? []]. simpl in *. by subst.
Qed.

Lemma rep_yields h l c (b : conn3) :
  rep c b → Bolt3Facts.remaining c !! h = Some l →
  ∃ sum, yields (H := solo3_connection fuel) (Some h) sum (keyed <$> l) b.
Proof.
  revert c b. induction l as [| r l IH]; intros c b Hr Hl;
    destruct (Next_rep shown h _ c b Hr Hl) as (n & b1 & E & Ha & Hr1);
    destruct n as [[[rec |] [sum |]] [err |]]; try done.
  - exists sum. eapply yields_end; [exact E | apply no_calls3, (re_calls _ _ Hr1)].
  - injection Ha as ->. destruct (IH _ b1 Hr1) as (sum & Hy).
    { apply list_lookup_insert_eq. by eapply lookup_lt_Some. }
    exists sum. eapply yields_next; [exact E | apply no_calls3, (re_calls _ _ Hr1) | done].
Qed.
End Promise.

(** * A query from end to end *)

Section Query.
Variable fuel : nat.
#[local] Instance the_connection : idb.Connection conn3 := solo3_connection fuel.
#[local] Instance the_environment : Environment conn3 solo := solo_with DefaultDatabase.

Definition solo3_session (results : list (list Record_)) : session (C := conn3) (E := solo) :=
  match bolt3.Connect shown 0 sample_auth "go" no_notifications (unconnected results) with
  | Done (_, b) => newSession [b] (mkSolo ∅ []) DefaultDatabase [] "DEFAULT" ""
  | _ => newSession [] (mkSolo ∅ []) DefaultDatabase [] "DEFAULT" ""
  end.

Definition query_all3 (k : nat) (cypher : string) (params : gomap goval) : GoM session (error + list Record_) :=
  r ← session_Run shown solo_settings cypher params plain;
  match r with
  | inl e => mret (inl e)
  | inr r => Collect shown solo_settings k r
  end.

(** The connection is borrowed, the database not selected. *)
Lemma ready_to_run3 results :
  ∃ s1 b1, getConnection shown solo_settings WriteMode ((solo3_session results) <| ss_telemetry := true |>) =
      Done (inr 0%nat, s1) ∧
    ss_conns s1 = [b1] ∧ rep (mkCursors [] results) b1 ∧ ss_telemetry s1 = true ∧ ss_bookmarks s1 = [] ∧
    ss_results s1 = [].
Proof.
  eexists _, _. split; [vm_compute; reflexivity |]. split; [reflexivity |]. split; [| done]. by constructor.
Qed.

Lemma manager_returns3 p n (e : solo) : ∃ r e', UpdateBookmarks p n e = Done (r, e').
Proof. eexists _, _. reflexivity. Qed.

Lemma attempt_stands3 recs rest cypher params :
  ∃ sum s, run_attempt shown solo_settings true cypher params plain
      ((solo3_session (recs :: rest)) <| ss_telemetry := true |>) = Done (inr (Some 0%nat), s) ∧
    stands_for 0 sum (keyed <$> recs) s.
Proof.
  destruct (ready_to_run3 (recs :: rest)) as (s1 & b1 & Ec & Hc & Hr & Ht & Hb & Hrs).
  destruct (Run_rep shown fuel (mkCommand cypher params 1000) (tx_config solo_settings WriteMode [] plain)
    recs rest _ b1 Hr) as (b2 & Er & Hr2 & _); [constructor | done | done | done |].
  destruct (rep_yields fuel 0 recs _ b2 Hr2) as (sum & Hy); [done |]. exists sum.
  destruct s1 as [cs env res sts txs db bms rh gu key ex au te cl] eqn:Es. simpl in Hc, Ht, Hb, Hrs. subst cs te bms res.
  rewrite <- Es in Ec. eexists. split.
  - unfold run_attempt.
    rewrite (bind_eq _ _ _ (inr 0%nat) s1) by (unfold or_wrapped; by erewrite bind_eq by exact Ec).
    rewrite bind_get, (bind_eq _ _ _ tt s1) by by rewrite Es.
    rewrite (bind_eq _ _ _ (inr []) s1) by by rewrite Es.
    rewrite (bind_eq _ _ _ (inr 0%nat) (set_conn 0 b2 s1)); [rewrite Es; reflexivity |].
    apply (on_conn_quiet _ _ _ b1 _ b2 b2); [by rewrite Es | exact Er |].
    apply (no_calls3 fuel), (re_calls _ _ Hr2).
  - clear Ec. subst s1. constructor. eexists. split; [reflexivity |].
    do 2 (split; [reflexivity |]). split; [intros h0 [= <-]; by eexists |].
    split; [reflexivity |]. split; [reflexivity |]. by exists b2.
Qed.

(** A query from end to end over version 3: for every result of the server and
    every query, [Run] in a session followed by [Collect] returns exactly the records
    of the server, in order, with the announced keys.  The theorems about sessions
    and results are those for the later versions; only the connection differs. *)
Theorem query_collects3 recs rest cypher params :
  ∃ s, query_all3 (S (length recs)) cypher params (solo3_session (recs :: rest)) = Done (inr (keyed <$> recs), s).
Proof.
  destruct (attempt_stands3 recs rest cypher params) as (sum & s & Ea & Hs).
  destruct (Collect_spec shown solo_settings manager_returns3 0 sum _ (S (length recs)) s Hs)
    as (s' & Ec); [rewrite length_fmap; lia |].
  exists s'. unfold query_all3. rewrite (bind_eq _ _ _ (inr 0%nat) s); [exact Ec |].
  unfold session_Run.
  rewrite (bind_eq _ _ _ (inr tt) (solo3_session (recs :: rest))) by (vm_compute; reflexivity).
  rewrite (bind_eq _ _ _ tt ((solo3_session (recs :: rest)) <| ss_telemetry := true |>)) by reflexivity.
  by rewrite (bind_eq _ _ _ _ _ Ea).
Qed.
End Query.
