(* ===== verification/ResultSummary.v ===== *)
(** What a client sees of a summary: neo4j/resultsummary.go, the polyfill of
    internal/notifications/notifications.go, and the helpers of result_helpers.go.

    Servers report either notifications or GQL statuses; the accessors derive each
    from the other. *)

From S2P Require Import Prelude Values Errors Messages Outgoing Bolt Connection Session ResultFacts.
From stdpp Require Import sorting.
#[local] Open Scope Z_scope.
#[local] Open Scope go_scope.

(** * Query types *)

Module querytype.

(** [QueryType.String] *)
Definition QueryType_String (qt : QueryType) : string :=
  match qt with
  | QueryTypeRead => "r"
  | QueryTypeReadWrite => "rw"
  | QueryTypeWrite => "w"
  | QueryTypeSchemaWrite => "s"
  | QueryTypeUnknown => ""
  end.
End querytype.

(** * The polyfill (internal/notifications) *)

Module inotifications.

Definition Warning : string := "WARNING".
Definition Information : string := "INFORMATION".

Definition plain_status (gqlStatus description : string) : GqlStatusObject :=
  mkGqlStatusObject "" "" "" gqlStatus description None "" "" NewDefaultDiagnosticRecord false.

Definition newSuccessGqlStatusObject : GqlStatusObject :=
  plain_status "00000" "note: successful completion".
Definition newNoDataGqlStatusObject : GqlStatusObject := plain_status "02000" "note: no data".
Definition newOmittedResultGqlStatusObject : GqlStatusObject :=
  plain_status "00001" "note: successful completion - omitted result".
Definition newUnknownWarningResultGqlStatusObject : GqlStatusObject :=
  plain_status "01N42" "warn: unknown warning".
Definition newUnknownInformationResultGqlStatusObject : GqlStatusObject :=
  plain_status "03N42" "info: unknown notification".

Definition ToNotification (g : GqlStatusObject) : Notification :=
  mkNotification (gs_Code g) (gs_Title g) (gs_Description g) (gs_Position g) (gs_Severity g)
    (gs_Classification g).

(** The diagnostic record of a notification; the Go [int]s of a position are [VInt]. *)
Definition diagnosticRecord (n : Notification) : gomap value :=
  let r := NewDefaultDiagnosticRecord in
  let r := match nt_Position n with
           | Some p => map_set "_position" (VMap [("offset", VInt (pos_Offset p));
                         ("line", VInt (pos_Line p)); ("column", VInt (pos_Column p))]) r
           | None => r
           end in
  let r := if decide (nt_Severity n ≠ "") then map_set "_severity" (VString (nt_Severity n)) r else r in
  if decide (nt_Category n ≠ "") then map_set "_classification" (VString (nt_Category n)) r else r.

Definition ToGqlStatusObject (n : Notification) : GqlStatusObject :=
  let defaultStatus :=
    if decide (nt_Severity n = Warning) then newUnknownWarningResultGqlStatusObject
    else newUnknownInformationResultGqlStatusObject in
  let statusDescription :=
    if decide (nt_Description n = "") then gs_StatusDescription defaultStatus else nt_Description n in
  mkGqlStatusObject (nt_Code n) (nt_Title n) (nt_Description n) (gs_GqlStatus defaultStatus)
    statusDescription (nt_Position n) (nt_Category n) (nt_Severity n) (diagnosticRecord n) true.

Definition ToGqlStatusObjectFromSummary (hadRecord hadKey : bool) : GqlStatusObject :=
  if hadRecord then newSuccessGqlStatusObject
  else if hadKey then newNoDataGqlStatusObject
  else newOmittedResultGqlStatusObject.
End inotifications.
Import inotifications.

(** * Notifications and statuses as the client sees them *)

Module mapped.

Definition known_categories : list string :=
  ["HINT"; "UNRECOGNIZED"; "UNSUPPORTED"; "PERFORMANCE"; "DEPRECATION"; "SECURITY"; "TOPOLOGY";
   "SCHEMA"; "GENERIC"].

(** [Category] and [Classification]: each known name is its own constant. *)
Definition Category (raw : string) : string :=
  if decide (raw ∈ known_categories) then raw else "UNKNOWN".

(** [SeverityLevel] and [Severity] *)
Definition SeverityLevel (raw : string) : string :=
  if decide (raw = Warning) then Warning
  else if decide (raw = Information) then Information
  else "UNKNOWN".

(** [Position] returns the notification itself as a position, or [nil]; [Offset],
    [Column] and [Line] dereference the position. *)
Definition Position (p : option InputPosition) : option (option InputPosition) :=
  match p with None => None | Some _ => Some p end.
Definition Offset (p : option InputPosition) : outcome Z :=
  match p with Some p => Done (pos_Offset p) | None => Panic end.
Definition Column (p : option InputPosition) : outcome Z :=
  match p with Some p => Done (pos_Column p) | None => Panic end.
Definition Line (p : option InputPosition) : outcome Z :=
  match p with Some p => Done (pos_Line p) | None => Panic end.
End mapped.

(** * Counters *)

Module counter.
Definition NodesCreated : string := "nodes-created".
Definition NodesDeleted : string := "nodes-deleted".
Definition RelationshipsCreated : string := "relationships-created".
Definition RelationshipsDeleted : string := "relationships-deleted".
Definition PropertiesSet : string := "properties-set".
Definition LabelsAdded : string := "labels-added".
Definition LabelsRemoved : string := "labels-removed".
Definition IndexesAdded : string := "indexes-added".
Definition IndexesRemoved : string := "indexes-removed".
Definition ConstraintsAdded : string := "constraints-added".
Definition ConstraintsRemoved : string := "constraints-removed".
Definition SystemUpdates : string := "system-updates".
End counter.

(** * Summaries *)

Module resultSummary.

Record resultSummary : Type := mkResultSummary {
  sum : Summary_;
  cypher : string;
  params : gomap goval
}.

(** [toResultSummary] of a result that was consumed. *)
Definition toResultSummary (r : result) : option resultSummary :=
  (λ s, mkResultSummary s (r_cypher r) (r_params r)) <$> r_summary r.

Definition server_data (s : resultSummary) : Summary := su_success (sum s).

Definition Agent (s : resultSummary) : string := su_Agent (sum s).
Definition ProtocolVersion (s : resultSummary) : Z * Z := (su_Major (sum s), su_Minor (sum s)).
Definition Address (s : resultSummary) : string := su_ServerName (sum s).
Definition QueryType_ (s : resultSummary) : QueryType := sum_QueryType (server_data s).
Definition Text (s : resultSummary) : string := cypher s.
Definition Parameters (s : resultSummary) : gomap goval := params s.

(** A [nil] map is empty. *)
Definition getCounter (s : resultSummary) (n : string) : Z :=
  default 0 (map_get n (sum_Counters (server_data s))).

Definition NodesCreated (s : resultSummary) : Z := getCounter s counter.NodesCreated.
Definition NodesDeleted (s : resultSummary) : Z := getCounter s counter.NodesDeleted.
Definition RelationshipsCreated (s : resultSummary) : Z := getCounter s counter.RelationshipsCreated.
Definition RelationshipsDeleted (s : resultSummary) : Z := getCounter s counter.RelationshipsDeleted.
Definition PropertiesSet (s : resultSummary) : Z := getCounter s counter.PropertiesSet.
Definition LabelsAdded (s : resultSummary) : Z := getCounter s counter.LabelsAdded.
Definition LabelsRemoved (s : resultSummary) : Z := getCounter s counter.LabelsRemoved.
Definition IndexesAdded (s : resultSummary) : Z := getCounter s counter.IndexesAdded.
Definition IndexesRemoved (s : resultSummary) : Z := getCounter s counter.IndexesRemoved.
Definition ConstraintsAdded (s : resultSummary) : Z := getCounter s counter.ConstraintsAdded.
Definition ConstraintsRemoved (s : resultSummary) : Z := getCounter s counter.ConstraintsRemoved.
Definition SystemUpdates (s : resultSummary) : Z := getCounter s counter.SystemUpdates.

Definition ContainsUpdates (s : resultSummary) : bool :=
  match sum_ContainsUpdates (server_data s) with
  | Some b => b
  | None =>
      (0 <? ConstraintsAdded s) || (0 <? ConstraintsRemoved s) ||
      (0 <? IndexesAdded s) || (0 <? IndexesRemoved s) ||
      (0 <? NodesCreated s) || (0 <? NodesDeleted s) ||
      (0 <? RelationshipsCreated s) || (0 <? RelationshipsDeleted s) ||
      (0 <? LabelsAdded s) || (0 <? LabelsRemoved s) ||
      (0 <? PropertiesSet s)
  end.

Definition ContainsSystemUpdates (s : resultSummary) : bool :=
  match sum_ContainsSystemUpdates (server_data s) with
  | Some b => b
  | None => 0 <? getCounter s counter.SystemUpdates
  end.

(** Durations are nanoseconds in an int64. *)
Definition millisecond : Z := 1000000.
Definition ResultAvailableAfter (s : resultSummary) : Z := i64 (su_TFirst (sum s) * millisecond).
Definition ResultConsumedAfter (s : resultSummary) : Z := i64 (sum_TLast (server_data s) * millisecond).

Definition Database (s : resultSummary) : option string :=
  if decide (sum_Database (server_data s) = "") then None else Some (sum_Database (server_data s)).

(** Plans and profiles are handed out as they are; the two views of a profile
    differ in what they say of a number that was not recorded. *)
Definition Plan_ (s : resultSummary) : option Plan := sum_Plan (server_data s).
Definition Profile_ (s : resultSummary) : option Profile := sum_Profile (server_data s).

Definition DerefOr {A} (value : option A) (defaultValue : A) : A := default defaultValue value.
Definition recorded (value : option Z) : Z * bool :=
  (DerefOr value 0, match value with Some _ => true | None => false end).

Definition profiledPlan_DbHits (p : Profile) : Z := DerefOr (prof_DbHits p) 0.
Definition profiledPlan_Records (p : Profile) : Z := DerefOr (prof_Rows p) 0.
Definition profiledPlan_PageCacheMisses (p : Profile) : Z := DerefOr (prof_PageCacheMisses p) 0.
Definition profiledPlan_PageCacheHits (p : Profile) : Z := DerefOr (prof_PageCacheHits p) 0.
Definition profiledPlan_PageCacheHitRatio (p : Profile) : Z := DerefOr (prof_PageCacheHitRatio p) 0.
Definition profiledPlan_Time (p : Profile) : Z := DerefOr (prof_Time p) 0.
Definition profile_DbHits (p : Profile) : Z * bool := recorded (prof_DbHits p).
Definition profile_Rows (p : Profile) : Z * bool := recorded (prof_Rows p).
Definition profile_PageCacheMisses (p : Profile) : Z * bool := recorded (prof_PageCacheMisses p).
Definition profile_PageCacheHits (p : Profile) : Z * bool := recorded (prof_PageCacheHits p).
Definition profile_PageCacheHitRatio (p : Profile) : Z * bool := recorded (prof_PageCacheHitRatio p).
Definition profile_Time (p : Profile) : Z * bool := recorded (prof_Time p).

(** ** Notifications and statuses *)

Definition Notifications (s : resultSummary) : option (list Notification) :=
  match sum_Notifications (server_data s), sum_GqlStatusObjects (server_data s) with
  | Some l, _ => Some l
  | None, Some l => Some (ToNotification <$> filter (λ g, gs_IsNotification g) l)
  | None, None => None
  end.

(** [math.MaxInt] *)
Definition MaxInt : Z := 2 ^ 63 - 1.

(** [GqlStatus()\[:2\]] panics on a shorter text. *)
Definition calculateGqlStatusWeight (g : GqlStatusObject) : outcome Z :=
  match gs_GqlStatus g with
  | String.String a (String.String b _) =>
      let status := String.String a (String.String b "") in
      Done (if decide (status = "02") then 0
            else if decide (status = "01") then 1
            else if decide (status = "00") then 2
            else if decide (status = "03") then 3
            else MaxInt)
  | _ => Panic
  end.

Section Statuses.
(** [sort.Slice], which need not be stable; it is given the weights of the elements. *)
Variable sort_Slice : list (Z * GqlStatusObject) → list (Z * GqlStatusObject).

Fixpoint weights (l : list GqlStatusObject) : outcome (list (Z * GqlStatusObject)) :=
  match l with
  | [] => Done []
  | g :: l =>
      match calculateGqlStatusWeight g, weights l with
      | Done w, Done l => Done ((w, g) :: l)
      | _, _ => Panic
      end
  end.

Definition from_stream (s : resultSummary) : GqlStatusObject :=
  ToGqlStatusObjectFromSummary (su_HadRecord (sum s)) (su_HadKey (sum s)).

Definition GqlStatusObjects (s : resultSummary) : outcome (list GqlStatusObject) :=
  match sum_GqlStatusObjects (server_data s), sum_Notifications (server_data s) with
  | Some l, _ => Done l
  | None, Some l =>
      match weights ((ToGqlStatusObject <$> l) ++ [from_stream s]) with
      | Done g => Done (sort_Slice g).*2
      | Panic => Panic
      | OutOfFuel => OutOfFuel
      end
  | None, None => Done [from_stream s]
  end.
End Statuses.
End resultSummary.

(** * Helpers over results (result_helpers.go) *)

Module helpers.
Section Helpers.
Context {C E : Type} `{idb.Connection C} `{Environment C E}.
Variable show : error → string.
Variable cfg : settings.
Abbreviation S_ := (GoM (session (C := C) (E := E))).

Section Mapping.
Context {T : Type}.
(** A record that is missing is a nil pointer. *)
Variable mapper : option Record_ → S_ (error + T).

Definition SingleT (r : nat) : S_ (error + T) :=
  single ← Single show cfg r;
  match single with inl e => mret (inl e) | inr rec => mapper rec end.

(** [results] is filled from the left. *)
Fixpoint mapAll (records : list Record_) : S_ (error + list T) :=
  match records with
  | [] => mret (inr [])
  | rec :: records =>
      x ← mapper (Some rec);
      match x with
      | inl e => mret (inl e)
      | inr x =>
          l ← mapAll records;
          mret (match l with inl e => inl e | inr l => inr (x :: l) end)
      end
  end.

Definition CollectT (fuel r : nat) : S_ (error + list T) :=
  records ← Collect show cfg fuel r;
  match records with inl e => mret (inl e) | inr records => mapAll records end.
End Mapping.

(** [Single] and [Collect] of the package: [res] is what [Run] returned. *)
Definition Single_ (res : error + nat) : S_ (error + option Record_) :=
  match res with inl e => mret (inl e) | inr r => Single show cfg r end.

Definition Collect_ (fuel : nat) (res : error + nat) : S_ (error + list Record_) :=
  match res with inl e => mret (inl e) | inr r => Collect show cfg fuel r end.
End Helpers.
End helpers.

(** * Facts *)

Section Facts.
Import resultSummary.

(** What [sort.Slice] promises for the order by weight. *)
Variable sort_Slice : list (Z * GqlStatusObject) → list (Z * GqlStatusObject).
Hypothesis sort_permutes : ∀ l, sort_Slice l ≡ₚ l.
Hypothesis sort_sorts : ∀ l, StronglySorted (λ x y, x.1 <= y.1) (sort_Slice l).

Lemma notification_weight n :
  calculateGqlStatusWeight (ToGqlStatusObject n) = Done (if decide (nt_Severity n = Warning) then 1 else 3).
Proof. unfold ToGqlStatusObject. by case_decide. Qed.

Lemma stream_weight s : calculateGqlStatusWeight (from_stream s) =
  Done (if negb (su_HadRecord (sum s)) && su_HadKey (sum s) then 0 else 2).
Proof. unfold from_stream, ToGqlStatusObjectFromSummary. by destruct (su_HadRecord (sum s)), (su_HadKey (sum s)). Qed.

(** Statuses that all have a weight. *)
Lemma weights_known l (w : GqlStatusObject → Z) :
  Forall (λ g, calculateGqlStatusWeight g = Done (w g)) l → weights l = Done ((λ g, (w g, g)) <$> l).
Proof. induction 1 as [| g l Hg _ IH]; [done |]. simpl. by rewrite Hg, IH. Qed.

(** The weight, if there is one. *)
Definition weight (g : GqlStatusObject) : Z :=
  match calculateGqlStatusWeight g with Done w => w | _ => MaxInt end.

(** The documented precedence of the classes of statuses: no data, warning, success,
    informational, and then the rest. *)
Definition class_of (g : GqlStatusObject) : string := String.substring 0 2 (gs_GqlStatus g).
Definition precedence (g : GqlStatusObject) : nat :=
  default 4%nat (fst <$> list_find (λ p, class_of g = p) ["02"; "01"; "00"; "03"]).

Lemma weight_precedence g :
  weight g = match precedence g with 0%nat => 0 | 1%nat => 1 | 2%nat => 2 | 3%nat => 3 | _ => MaxInt end.
Proof.
  unfold weight, precedence, calculateGqlStatusWeight, class_of.
  destruct (gs_GqlStatus g) as [| a [| b rest]]; [done | |].
  - cbn. repeat (case_decide; [done |]). done.
  - replace (String.substring 0 2 (String.String a (String.String b rest)))
      with (String.String a (String.String b "")) by by destruct rest.
    cbn [list_find]. repeat (case_decide; [done |]). done.
Qed.

Lemma precedence_mono x y : weight x <= weight y → (precedence x ≤ precedence y)%nat.
Proof.
  rewrite !weight_precedence. unfold MaxInt.
  assert (Hb : ∀ g, (precedence g ≤ 4)%nat).
  { intros g. unfold precedence. cbn [list_find]. repeat (case_decide; [simpl; lia |]). simpl. lia. }
  specialize (Hb x). destruct (precedence x) as [| [| [| [|]]]], (precedence y) as [| [| [| [|]]]]; lia.
Qed.

Lemma polyfill_weights s l :
  weights ((ToGqlStatusObject <$> l) ++ [from_stream s]) =
    Done ((λ g, (weight g, g)) <$> (ToGqlStatusObject <$> l) ++ [from_stream s]).
Proof.
  apply weights_known. apply Forall_app. split; [| constructor; [| done]].
  - apply Forall_fmap, Forall_true. intros n. unfold compose, weight. by rewrite notification_weight.
  - unfold weight. by rewrite stream_weight.
Qed.

Lemma polyfill_sorted (l : list GqlStatusObject) :
  let g := sort_Slice ((λ g, (weight g, g)) <$> l) in
  g.*2 ≡ₚ l ∧ StronglySorted (λ x y, precedence x ≤ precedence y)%nat g.*2.
Proof.
  intros g. assert (Hp : g ≡ₚ (λ g, (weight g, g)) <$> l) by apply sort_permutes.
  assert (Hw : Forall (λ x, x.1 = weight x.2) g).
  { rewrite Hp. apply Forall_fmap, Forall_true. done. }
  split.
  - rewrite Hp, <- list_fmap_compose. by rewrite list_fmap_id.
  - pose proof (sort_sorts ((λ g, (weight g, g)) <$> l)) as Hs. fold g in Hs. clear Hp.
    induction Hs as [| x g' _ IH Hx]; [constructor |].
    apply Forall_cons in Hw as [Hwx Hw]. simpl. constructor; [by apply IH |].
    apply Forall_fmap. eapply Forall_impl; [apply Forall_and; split; [exact Hx | exact Hw] |].
    intros y [Hle Hy]. unfold compose. simpl in *. apply precedence_mono. lia.
Qed.

(** What the status made up for a notification says: the notification itself, under
    the code of an unknown warning if it is one and of an unknown information
    otherwise, described by the notification's text or, without one, by that of the
    code; position, severity and category, as far as there are any, are repeated in
    the diagnostic record. *)
Definition reports (n : Notification) (g : GqlStatusObject) : Prop :=
  let warning := bool_decide (nt_Severity n = "WARNING") in
  let record key := map_get key (gs_DiagnosticRecord g) in
  let repeated text := if decide (text = "") then None else Some (VString text) in
  gs_IsNotification g = true ∧
  (gs_Code g, gs_Title g, gs_Description g) = (nt_Code n, nt_Title n, nt_Description n) ∧
  (gs_Position g, gs_Severity g, gs_Classification g) = (nt_Position n, nt_Severity n, nt_Category n) ∧
  gs_GqlStatus g = (if warning then "01N42" else "03N42") ∧
  gs_StatusDescription g =
    (if decide (nt_Description n ≠ "") then nt_Description n
     else if warning then "warn: unknown warning" else "info: unknown notification") ∧
  record "_severity" = repeated (nt_Severity n) ∧ record "_classification" = repeated (nt_Category n) ∧
  record "_position" =
    ((λ p, VMap [("offset", VInt (pos_Offset p)); ("line", VInt (pos_Line p)); ("column", VInt (pos_Column p))])
      <$> nt_Position n).

(** What the status made up for the stream says: success if there was a record, no
    data if there were only keys, and an omitted result if there were neither. *)
Definition concludes (hadRecord hadKey : bool) (g : GqlStatusObject) : Prop :=
  gs_IsNotification g = false ∧ gs_DiagnosticRecord g = NewDefaultDiagnosticRecord ∧
  (gs_GqlStatus g, gs_StatusDescription g) =
    match hadRecord, hadKey with
    | true, _ => ("00000", "note: successful completion")
    | false, true => ("02000", "note: no data")
    | false, false => ("00001", "note: successful completion - omitted result")
    end.

Lemma polyfill_reports n : reports n (ToGqlStatusObject n).
Proof.
  destruct n as [code title text [pos |] severity category]; unfold reports, ToGqlStatusObject, diagnosticRecord; simpl;
    repeat case_decide; simpl; try done; rewrite ?bool_decide_eq_true_2, ?bool_decide_eq_false_2 by done; by split_and!.
Qed.

Lemma stream_concludes s : concludes (su_HadRecord (sum s)) (su_HadKey (sum s)) (from_stream s).
Proof.
  unfold from_stream, ToGqlStatusObjectFromSummary. by destruct (su_HadRecord (sum s)), (su_HadKey (sum s)).
Qed.

(** C36. A server that sends no GQL statuses: the driver makes them up from its
    notifications, if it sent any, and from how the stream ended.  The list it presents
    follows the documented precedence (no data, warning, success, informational).  It
    has exactly one status for the outcome of the query, 00000 if there was a record,
    02000 if there were keys only and 00001 if there were neither, and one for each
    notification, 01N42 for a warning and 03N42 for any other, with all of the
    notification in it. *)
Theorem statuses_polyfilled s :
  sum_GqlStatusObjects (server_data s) = None →
  ∃ g outcome notes, GqlStatusObjects sort_Slice s = Done g ∧
    StronglySorted (λ x y, precedence x ≤ precedence y)%nat g ∧ g ≡ₚ outcome :: notes ∧
    concludes (su_HadRecord (sum s)) (su_HadKey (sum s)) outcome ∧
    Forall2 reports (default [] (Notifications s)) notes.
Proof.
  intros Hg. unfold Notifications, GqlStatusObjects. rewrite Hg.
  destruct (sum_Notifications (server_data s)) as [l |].
  - rewrite polyfill_weights.
    destruct (polyfill_sorted ((ToGqlStatusObject <$> l) ++ [from_stream s])) as [Hp Hs].
    eexists _, (from_stream s), (ToGqlStatusObject <$> l). split; [reflexivity |]. split; [exact Hs |].
    split; [rewrite Hp; by rewrite Permutation_app_comm |]. split; [apply stream_concludes |].
    apply Forall2_fmap_r, Forall_Forall2_diag, Forall_true, polyfill_reports.
  - exists [from_stream s], (from_stream s), []. split_and!; try done; [| apply stream_concludes].
    repeat constructor.
Qed.
End Facts.

(** ** Counters *)

Section Counters.
Import resultSummary.

Lemma extractIntCounters_get c ints n :
  extractIntCounters c = Some ints → is_flag n = false →
  map_get n ints = match map_get n c with Some (StatInt i) => Some i | _ => None end.
Proof.
  intros Hc Hn. revert ints Hc. induction c as [| [k v] c IH]; intros ints Hc; simpl in Hc; [by simplify_eq |].
  destruct (is_flag k) eqn:Hk.
  - rewrite (IH _ Hc). simpl. by case_decide; [subst; congruence |].
  - destruct v as [i | b]; [| done]. destruct (extractIntCounters c) as [l |] eqn:El; [| done].
    simplify_eq/=. case_decide; [done |]. by apply IH.
Qed.

(** The counters of [ContainsUpdates]. *)
Definition update_counters : list string :=
  [counter.ConstraintsAdded; counter.ConstraintsRemoved; counter.IndexesAdded; counter.IndexesRemoved;
   counter.NodesCreated; counter.NodesDeleted; counter.RelationshipsCreated; counter.RelationshipsDeleted;
   counter.LabelsAdded; counter.LabelsRemoved; counter.PropertiesSet].

Lemma updates_counted s :
  sum_ContainsUpdates (server_data s) = None →
  ContainsUpdates s = existsb (λ n, 0 <? getCounter s n) update_counters.
Proof. intros Hn. unfold ContainsUpdates. rewrite Hn. simpl. by rewrite <- !orb_assoc, orb_false_r. Qed.

(** The counters a client reads are the statistics the server sent with its
    SUCCESS message: a counter that is missing is 0, and whether there were updates is
    what the server says or, if it does not, whether one of the counters is positive. *)
Theorem counters_reported (m : success) s n :
  Messages.summary m = Some (server_data s) →
  (is_flag n = false →
   getCounter s n = match map_get n (counters m) with Some (StatInt i) => i | _ => 0 end) ∧
  ContainsUpdates s = match map_get containsUpdatesKey (counters m) with
                      | Some (StatBool b) => b
                      | _ => existsb (λ n, 0 <? getCounter s n) update_counters
                      end.
Proof.
  intros Hm. unfold Messages.summary in Hm.
  destruct (extractIntCounters (counters m)) as [ints |] eqn:Ei; [| done]. simpl in Hm.
  destruct (extractBoolPointer _ containsSystemUpdatesKey) as [sys |]; [| done]. simpl in Hm.
  destruct (extractBoolPointer _ containsUpdatesKey) as [upd |] eqn:Eu; [| done].
  injection Hm as Hm. unfold extractBoolPointer in Eu. split.
  - intros Hn. unfold getCounter. rewrite <- Hm. simpl.
    rewrite (extractIntCounters_get _ _ _ Ei Hn). by destruct (map_get n _) as [[] |].
  - destruct (map_get containsUpdatesKey _) as [[] |]; simplify_eq.
    + unfold ContainsUpdates. by rewrite <- Hm.
    + apply updates_counted. by rewrite <- Hm.
Qed.
End Counters.

(** ** Mapped results *)

Section Mapped.
Context {C E : Type} `{idb.Connection C} `{Environment C E}.
Variable show : error → string.
Variable cfg : settings.
Hypothesis manager_returns : ∀ p n (e : E), ∃ r e', UpdateBookmarks p n e = Done (r, e').

Section Pure.
Context {T : Type}.
Variable f : Record_ → error + T.
Let mapper (rec : option Record_) : GoM (session (C := C) (E := E)) (error + T) :=
  mret (match rec with Some r => f r | None => inl (UsageError "") end).

(** The records before the first the mapper refuses, mapped, and its error. *)
Fixpoint mapped_until (l : list Record_) : error + list T :=
  match l with
  | [] => inr []
  | r :: l =>
      match f r, mapped_until l with
      | inl e, _ => inl e
      | inr _, inl e => inl e
      | inr x, inr l => inr (x :: l)
      end
  end.

Lemma mapAll_pure l (s : session (C := C) (E := E)) : helpers.mapAll mapper l s = Done (mapped_until l, s).
Proof.
  induction l as [| r l IH]; [done |]. simpl helpers.mapAll. simpl mapped_until.
  rewrite (bind_eq _ _ _ (f r) s) by done. destruct (f r) as [e | x]; [by destruct (mapped_until l) |].
  rewrite (bind_eq _ _ _ _ _ IH). by destruct (mapped_until l).
Qed.

(** [CollectT] of a result that stands for a list maps the list. *)
Lemma CollectT_maps r sum l fuel (s : session (C := C) (E := E)) :
  stands_for r sum l s → (length l < fuel)%nat →
  ∃ s', helpers.CollectT show cfg mapper fuel r s = Done (mapped_until l, s').
Proof.
  intros Hs Hf. destruct (Collect_spec show cfg manager_returns r sum l fuel s Hs) as (s' & Ec); [done |].
  exists s'. unfold helpers.CollectT. rewrite (bind_eq _ _ _ _ _ Ec). apply mapAll_pure.
Qed.
End Pure.
End Mapped.

(** * Examples *)

Definition lighter (x y : Z * GqlStatusObject) : Prop := x.1 <= y.1.
#[global] Instance lighter_dec : RelDecision lighter.
Proof. intros x y. unfold lighter. apply _. Defined.
#[global] Instance lighter_total : Total lighter.
Proof. intros x y. unfold lighter. lia. Qed.
#[global] Instance lighter_trans : Transitive lighter.
Proof. intros x y z. unfold lighter. lia. Qed.

(** A query that created a node, of which the server warned; its stream had keys but
    no record. *)
Definition warned : Notification :=
  mkNotification "Neo.ClientNotification.Statement.CartesianProduct" "title" "" (Some (mkPosition 0 1 1))
    "WARNING" "PERFORMANCE".
Definition informed : Notification := mkNotification "code" "title" "text" None "INFORMATION" "GENERIC".

Definition sample_success : success :=
  clear_success <| counters := [("nodes-created", StatInt 1); ("contains-system-updates", StatBool false)] |>
                <| notifications := Some [informed; warned] |>.

Definition sample_summary : resultSummary.resultSummary :=
  resultSummary.mkResultSummary
    (mkSummary_ (default (mkSummary "" QueryTypeUnknown [] 0 None None None None "" None None)
                   (Messages.summary sample_success)) "Neo4j/5" 5 4 "server" 1 false true) "CREATE (n)" [].

Lemma statuses_polyfilled_witness :
  ∃ g outcome notes, resultSummary.GqlStatusObjects (merge_sort lighter) sample_summary = Done g ∧
    StronglySorted (λ x y, precedence x ≤ precedence y)%nat g ∧ g ≡ₚ outcome :: notes ∧
    concludes false true outcome ∧ Forall2 reports [informed; warned] notes.
Proof.
  apply (statuses_polyfilled (merge_sort lighter)).
  - intros l. apply merge_sort_Permutation.
  - intros l. apply (StronglySorted_merge_sort lighter).
  - reflexivity.
Defined.

Lemma counters_reported_witness :
  (is_flag "nodes-created" = false → resultSummary.getCounter sample_summary "nodes-created" = 1) ∧
  resultSummary.ContainsUpdates sample_summary = true.
Proof.
  destruct (counters_reported sample_success sample_summary "nodes-created") as [Hc Hu]; [reflexivity |].
  split; [exact Hc | rewrite Hu; reflexivity].
Defined.

(** The statuses in order: no data, the warning, the information. *)
Example statuses_in_order :
  match resultSummary.GqlStatusObjects (merge_sort lighter) sample_summary with
  | Done g => gs_GqlStatus <$> g
  | _ => []
  end = ["02000"; "01N42"; "03N42"].
Proof. vm_compute. reflexivity. Qed.

(** A server that sends an empty list of statuses: the client gets an empty list,
    and no notifications. *)
Example empty_statuses s :
  sum_GqlStatusObjects (resultSummary.server_data s) = Some [] →
  resultSummary.GqlStatusObjects (merge_sort lighter) s = Done [].
Proof. intros Hs. unfold resultSummary.GqlStatusObjects. by rewrite Hs. Qed.
