(* ===== verification/Mapping.v ===== *)
(** Object mapping: neo4j/internal/mapping/mapping.go ([MapToStruct] and what it
    calls) and neo4j/mapping.go ([As], [CollectAs], [SingleAs],
    [CollectRecordsAs]), with the typed access to records and properties of
    neo4j/record.go and neo4j/graph.go.

    The code works by reflection.  A Go type is a value of [gotype]; declared types
    are names with an underlying type, so that types may refer to themselves.  The
    contents of a variable are a value of [dval], and an assignment through
    reflection is a function from the old contents to the new ones.  What the two
    caches hold is a function of the type, and they are left out. *)

From S2P Require Import Prelude Values Errors Outgoing Retry Connection Session ResultSummary.
From Stdlib Require Import SpecFloat.
#[local] Open Scope Z_scope.
#[local] Open Scope go_scope.

(** Go code without a receiver: results, panics and exhausted fuel. *)
#[global] Instance outcome_ret : MRet outcome := λ A a, Done a.
#[global] Instance outcome_bind : MBind outcome := λ A B k m,
  match m with Done a => k a | Panic => Panic | OutOfFuel => OutOfFuel end.

(** [x, err := m; if err != nil { return err }] *)
Definition try {E A B} (m : outcome (E + A)) (k : A → outcome (E + B)) : outcome (E + B) :=
  r ← m; match r with inl e => mret (inl e) | inr a => k a end.
Notation "x ←! m ; k" := (try m (λ x, k)) (at level 20, m at level 100, k at level 200, right associativity) : go_scope.

Module objects.

(** * Types *)

(** The kinds of the predeclared types.  [Int] and [Uint] have 64 bits. *)
Inductive Kind : Type :=
| Bool | Int | Int8 | Int16 | Int32 | Int64 | Uint | Uint8 | Uint16 | Uint32 | Uint64 | Float32 | Float64 | String_.

#[global] Instance Kind_eq_dec : EqDecision Kind.
Proof. solve_decision. Defined.

(** [reflect.StructField] *)
Record StructField (T : Type) : Type := mkStructField {
  sf_Name : string;
  sf_Type : T;
  sf_Tag : string;             (* the value of its neo4j tag *)
  sf_Anonymous : bool;
  sf_IsExported : bool
}.
Arguments mkStructField {T}.
Arguments sf_Name {T}.
Arguments sf_Type {T}.
Arguments sf_Tag {T}.
Arguments sf_Anonymous {T}.
Arguments sf_IsExported {T}.

(** [TInterface ""] is [any].  [TOther] are channels, functions and complex
    numbers. *)
Inductive gotype : Type :=
| TBasic (k : Kind)
| TNamed (name : string)
| TPtr (elem : gotype)
| TSlice (elem : gotype)
| TArray (len : nat) (elem : gotype)
| TMap (key elem : gotype)
| TStruct (fields : list (StructField gotype))
| TInterface (name : string)
| TOther (text : string).

#[global] Instance StructField_eq_dec T `{EqDecision T} : EqDecision (StructField T).
Proof. solve_decision. Defined.

#[global] Instance gotype_eq_dec : EqDecision gotype.
Proof.
  unfold EqDecision. fix go 1. intros s t.
  destruct s as [k | n | s | s | len s | k s | fs | n | x], t as [k' | n' | s' | s' | len' s' | k' s' | fs' | n' | x'];
    try (right; discriminate).
  - destruct (decide (k = k')); [left | right]; congruence.
  - destruct (decide (n = n')); [left | right]; congruence.
  - destruct (go s s'); [left | right]; congruence.
  - destruct (go s s'); [left | right]; congruence.
  - destruct (decide (len = len')), (go s s'); [left | right..]; congruence.
  - destruct (go k k'), (go s s'); [left | right..]; congruence.
  - assert (H : Decision (fs = fs')); [| destruct H; [left | right]; congruence].
    revert fs'. induction fs as [| [n t tag a x] fs IH]; intros [| [n' t' tag' a' x'] fs']; try (right; discriminate); [by left |].
    destruct (go t t'), (IH fs'), (decide ((n, tag, a, x) = (n', tag', a', x'))); [left | right..]; congruence.
  - destruct (decide (n = n')); [left | right]; congruence.
  - destruct (decide (x = x')); [left | right]; congruence.
Defined.

Definition any : gotype := TInterface "".
Definition byte_ : gotype := TBasic Uint8.

(** An exported field without a tag, and an unexported one. *)
Definition exported (name : string) (t : gotype) : StructField gotype := mkStructField name t "" false true.
Definition hidden (name : string) (t : gotype) : StructField gotype := mkStructField name t "" false false.

(** [time.Time], and the types of dbtype/temporal.go over it. *)
Definition time_fields : list (StructField gotype) :=
  [hidden "wall" (TBasic Uint64); hidden "ext" (TBasic Int64); hidden "loc" (TPtr (TNamed "time.Location"))].

Definition vector_of_ (k : Kind) : gotype := TStruct [exported "Elems" (TSlice (TBasic k))].

(** The types of the driver that values of a record can have (neo4j/dbtype). *)
Definition driver_types : list (string * gotype) :=
  let int64 := TBasic Int64 in
  let str := TBasic String_ in
  let float := TBasic Float64 in
  [("time.Time", TStruct time_fields);
   ("dbtype.Time", TStruct time_fields);
   ("dbtype.Date", TStruct time_fields);
   ("dbtype.LocalTime", TStruct time_fields);
   ("dbtype.LocalDateTime", TStruct time_fields);
   ("dbtype.Duration",
     TStruct [exported "Months" int64; exported "Days" int64; exported "Seconds" int64; exported "Nanos" (TBasic Int)]);
   ("dbtype.Point2D", TStruct [exported "X" float; exported "Y" float; exported "SpatialRefId" (TBasic Uint32)]);
   ("dbtype.Point3D",
     TStruct [exported "X" float; exported "Y" float; exported "Z" float; exported "SpatialRefId" (TBasic Uint32)]);
   ("dbtype.Vector[float64]", vector_of_ Float64);
   ("dbtype.Vector[float32]", vector_of_ Float32);
   ("dbtype.Vector[int8]", vector_of_ Int8);
   ("dbtype.Vector[int16]", vector_of_ Int16);
   ("dbtype.Vector[int32]", vector_of_ Int32);
   ("dbtype.Vector[int64]", vector_of_ Int64);
   ("dbtype.UUID", TArray 16 byte_);
   ("dbtype.Node",
     TStruct [exported "Id" int64; exported "ElementId" str; exported "Labels" (TSlice str);
              exported "Props" (TMap str any)]);
   ("dbtype.Relationship",
     TStruct [exported "Id" int64; exported "ElementId" str; exported "StartId" int64; exported "StartElementId" str;
              exported "EndId" int64; exported "EndElementId" str; exported "Type" str;
              exported "Props" (TMap str any)]);
   ("dbtype.Path",
     TStruct [exported "Nodes" (TSlice (TNamed "dbtype.Node"));
              exported "Relationships" (TSlice (TNamed "dbtype.Relationship"))]);
   ("bolt.relNode",
     TStruct [hidden "id" int64; hidden "elementId" str; hidden "name" str; hidden "props" (TMap str any)]);
   ("db.ProtocolVersion", TStruct [exported "Major" (TBasic Int); exported "Minor" (TBasic Int)]);
   ("dbtype.UnsupportedType",
     TStruct [exported "Name" str; exported "MinimumProtocolVersion" (TNamed "db.ProtocolVersion");
              exported "Message" (TPtr str)]);
   ("dbtype.InvalidValue", TStruct [exported "Message" str; exported "Err" (TInterface "error")])].

(** * Values *)

(** What [reflect.ValueOf] is given: a value of a record, or an element of a slice
    of bytes. *)
Inductive raw : Type :=
| RValue (v : value)
| RByte (b : byte).

Definition vector_type (t : vecType) : gotype :=
  TNamed match t with
         | VecFloat64 => "dbtype.Vector[float64]" | VecFloat32 => "dbtype.Vector[float32]"
         | VecInt8 => "dbtype.Vector[int8]" | VecInt16 => "dbtype.Vector[int16]"
         | VecInt32 => "dbtype.Vector[int32]" | VecInt64 => "dbtype.Vector[int64]"
         end.

(** [reflect.TypeOf] of a value that the hydrator produces; nil has none. *)
Definition value_type (v : value) : option gotype :=
  match v with
  | VNil => None
  | VBool _ => Some (TBasic Bool)
  | VInt _ => Some (TBasic Int64)
  | VFloat _ => Some (TBasic Float64)
  | VString _ => Some (TBasic String_)
  | VBytes _ => Some (TSlice byte_)
  | VUUID _ => Some (TNamed "dbtype.UUID")
  | VList _ => Some (TSlice any)
  | VMap _ => Some (TMap (TBasic String_) any)
  | VNode _ => Some (TNamed "dbtype.Node")
  | VRelationship _ => Some (TNamed "dbtype.Relationship")
  | VRelNode _ => Some (TPtr (TNamed "bolt.relNode"))
  | VPath _ => Some (TNamed "dbtype.Path")
  | VPoint2D _ => Some (TNamed "dbtype.Point2D")
  | VPoint3D _ => Some (TNamed "dbtype.Point3D")
  | VVector t _ => Some (vector_type t)
  | VDateTime _ => Some (TNamed "time.Time")
  | VLocalDateTime _ => Some (TNamed "dbtype.LocalDateTime")
  | VDate _ => Some (TNamed "dbtype.Date")
  | VTime _ => Some (TNamed "dbtype.Time")
  | VLocalTime _ => Some (TNamed "dbtype.LocalTime")
  | VDuration _ => Some (TNamed "dbtype.Duration")
  | VUnsupported _ => Some (TPtr (TNamed "dbtype.UnsupportedType"))
  | VInvalid _ _ => Some (TPtr (TNamed "dbtype.InvalidValue"))
  end.

Definition raw_type (r : raw) : option gotype :=
  match r with RValue v => value_type v | RByte _ => Some byte_ end.

(** The contents of a variable.  [DZero] is the zero value of its type, whatever the
    type; [DRaw] a value of the record, taken over as it is or converted to a type
    with the same representation.  Maps have strings for keys. *)
Inductive dval : Type :=
| DZero
| DRaw (r : raw)
| DInt (n : Z)
| DFloat (f : spec_float)
| DPtr (x : dval)
| DStruct (fields : list dval)
| DSlice (elems : list dval)
| DMap (entries : gomap dval).

(** * Numbers *)

Definition float64 : Type := spec_float.

Definition bits (k : Kind) : Z :=
  match k with
  | Int8 | Uint8 => 8 | Int16 | Uint16 => 16 | Int32 | Uint32 | Float32 => 32 | _ => 64
  end.

Definition CanInt (k : Kind) : bool :=
  match k with Int | Int8 | Int16 | Int32 | Int64 => true | _ => false end.
Definition CanUint (k : Kind) : bool :=
  match k with Uint | Uint8 | Uint16 | Uint32 | Uint64 => true | _ => false end.
Definition CanFloat (k : Kind) : bool :=
  match k with Float32 | Float64 => true | _ => false end.

Definition isNumeric (k : Kind) : bool :=
  match k with
  | Int | Int8 | Int16 | Int32 | Int64 | Uint | Uint8 | Uint16 | Uint32 | Uint64 | Float32 | Float64 => true
  | _ => false
  end.

(** The double with a given bit pattern, as [VFloat] holds it. *)
Definition float_of_bits (b : Z) : float64 :=
  let s := Z.testbit b 63 in
  let e := Z.land (Z.shiftr b 52) 2047 in
  let m := Z.land b (2 ^ 52 - 1) in
  if e =? 2047 then (if m =? 0 then S754_infinity s else S754_nan)
  else if e =? 0 then match m with Zpos p => S754_finite s p (-1074) | _ => S754_zero s end
  else match m + 2 ^ 52 with Zpos p => S754_finite s p (e - 1075) | _ => S754_nan end.

(** Rounding to a format: a conversion to [float32] or [float64]. *)
Definition round_to (prec emax : Z) (f : spec_float) : spec_float :=
  match f with
  | S754_finite s m e => binary_round prec emax s m e
  | f => f
  end.
Definition float32_ : spec_float → spec_float := round_to 24 128.
Definition float64_ : spec_float → spec_float := round_to 53 1024.

(** [float64(n)] of an integer. *)
Definition float64_of_int (n : Z) : float64 := binary_normalize 53 1024 n 0 false.

Definition MaxFloat32 : float64 := S754_finite false (2 ^ 53 - 2 ^ 29) 75.
Definition MaxFloat64 : float64 := S754_finite false (2 ^ 53 - 1) 971.

(** [reflect.Value]'s [OverflowInt], [OverflowUint] and [OverflowFloat] *)
Definition OverflowInt (k : Kind) (n : Z) : bool := negb (swrap (bits k) n =? n).
Definition OverflowUint (k : Kind) (n : Z) : bool := negb (uwrap (bits k) n =? n).
Definition OverflowFloat (k : Kind) (f : float64) : bool :=
  match k with
  | Float32 => SFltb MaxFloat32 (SFabs f) && SFleb (SFabs f) MaxFloat64
  | _ => false
  end.

(** [SetFloat] *)
Definition SetFloat (k : Kind) (f : float64) : dval :=
  DFloat (match k with Float32 => float32_ f | _ => f end).

(** [bits.Len64] and [bits.TrailingZeros64] *)
Definition Len64 (u : Z) : Z := if u =? 0 then 0 else Z.log2 u + 1.
Fixpoint pos_trailing (p : positive) : Z :=
  match p with xO p => 1 + pos_trailing p | _ => 0 end.
Definition TrailingZeros64 (u : Z) : Z := match u with Zpos p => pos_trailing p | _ => 64 end.

(** The types of floats have 32 or 64 bits, so the last case of the switch is never
    taken. *)
Definition intFitsFloat (n : Z) (k : Kind) : bool :=
  if n =? 0 then true
  else
    let mantissa := if bits k =? 32 then 24 else 53 in
    let u := if n <? 0 then u64 (i64 (- n)) else u64 n in
    Len64 u - TrailingZeros64 u <=? mantissa.

(** The numbers a value of a record can be. *)
Inductive number : Type :=
| NInt (n : Z)              (* int64 *)
| NUint (n : Z)             (* uint8 *)
| NFloat (f : float64).     (* float64 *)

Definition number_of (r : raw) : option number :=
  match r with
  | RValue (VInt n) => Some (NInt n)
  | RValue (VFloat b) => Some (NFloat (float_of_bits b))
  | RByte b => Some (NUint (of_byte b))
  | _ => None
  end.

Inductive mapError : Type :=
| TypeError (dst : gotype) (r : raw)
| OverflowError (dst : gotype) (x : number)
| PrecisionError (dst : gotype) (x : number)
| PropertyError (name : string) (inner : mapError)
| NotPointer (dst : gotype)
| NotStruct (dst : gotype).

(** The destination has type [t] of kind [k]; [r] is the number [x]. *)
Definition assignNumeric (t : gotype) (k : Kind) (r : raw) (x : number) : mapError + dval :=
  match x with
  | NInt n =>
      if CanInt k then if OverflowInt k n then inl (OverflowError t x) else inr (DInt n)
      else if CanUint k then
        if (n <? 0) || OverflowUint k (u64 n) then inl (OverflowError t x) else inr (DInt (u64 n))
      else if intFitsFloat n k then inr (SetFloat k (float64_of_int n)) else inl (PrecisionError t x)
  | NFloat f =>
      if negb (CanFloat k) then inl (TypeError t r)
      else if OverflowFloat k f then inl (OverflowError t x)
      else if (bits k <? 64) && negb (SFeqb (float64_ (float32_ f)) f) then inl (PrecisionError t x)
      else inr (SetFloat k f)
  | NUint _ => inl (TypeError t r)
  end.

(** * Fields of a struct *)

Record fieldInfo : Type := mkInfo { fi_name : string; fi_index : list nat; fi_omitEmpty : bool }.

#[global] Instance fieldInfo_eq_dec : EqDecision fieldInfo.
Proof. solve_decision. Defined.

(** The loop over the fields of one name: the winner so far, and whether another
    field is as shallow. *)
Definition contend (w : fieldInfo * bool) (f : fieldInfo) : fieldInfo * bool :=
  let '(winner, ambiguous) := w in
  if (length (fi_index f) <? length (fi_index winner))%nat then (f, false)
  else if (length (fi_index f) =? length (fi_index winner))%nat then (winner, true)
  else (winner, ambiguous).

Definition resolve (fs : list fieldInfo) : option fieldInfo :=
  match fs with
  | [] => None
  | f :: fs => let '(winner, ambiguous) := foldl contend (f, false) fs in if ambiguous : bool then None else Some winner
  end.

Definition add_to_group (groups : gomap (list fieldInfo)) (f : fieldInfo) : gomap (list fieldInfo) :=
  map_set (fi_name f) (default [] (map_get (fi_name f) groups) ++ [f]) groups.

Definition index_fields (fs : list fieldInfo) : gomap fieldInfo :=
  omap (λ g : string * list fieldInfo, pair g.1 <$> resolve g.2) (foldl add_to_group [] fs).

Section Reflection.
(** The underlying types of the user's declared types. *)
Variable declared : string → gotype.

Definition underlying (t : gotype) : gotype :=
  match t with
  | TNamed n => default (declared n) (map_get n driver_types)
  | t => t
  end.

Definition struct_fields (t : gotype) : option (list (StructField gotype)) :=
  match underlying t with TStruct fs => Some fs | _ => None end.

(** The type of an embedded struct, by value or by pointer. *)
Definition embedded_struct (f : StructField gotype) : option gotype :=
  if sf_Anonymous f && bool_decide (sf_Tag f = "") then
    let ft := match underlying (sf_Type f) with TPtr t => t | _ => sf_Type f end in
    (λ _, ft) <$> struct_fields ft
  else None.

(** The entry of a field that is not flattened. *)
Definition plain_info (idx : list nat) (f : StructField gotype) : list fieldInfo :=
  if negb (sf_IsExported f) then []
  else if decide (sf_Tag f = "-") then []
  else
    let '(name, omitEmpty) := mapping.parseTag (sf_Tag f) in
    [mkInfo (if decide (name = "") then sf_Name f else name) idx omitEmpty].

Fixpoint buildFields (fuel : nat) (t : gotype) (indexPath : list nat) : outcome (list fieldInfo) :=
  match fuel with
  | O => OutOfFuel
  | S fuel =>
      match struct_fields t with
      | None => Panic
      | Some fs =>
          out ← mapM (λ p : nat * StructField gotype,
                   match embedded_struct p.2 with
                   | Some ft => buildFields fuel ft (indexPath ++ [p.1])
                   | None => mret (plain_info (indexPath ++ [p.1]) p.2)
                   end) (imap pair fs);
          mret (mjoin out)
      end
  end.

Definition fieldsOf (fuel : nat) (t : gotype) : outcome (list fieldInfo) := buildFields fuel t [].

Definition decodeFieldsOf (fuel : nat) (t : gotype) : outcome (gomap fieldInfo) :=
  fs ← fieldsOf fuel t; mret (index_fields fs).

(** * Access by index *)

(** The fields of a struct variable with [n] fields. *)
Definition expand (n : nat) (d : dval) : option (list dval) :=
  match d with
  | DZero => Some (replicate n DZero)
  | DStruct l => Some l
  | _ => None
  end.

(** [v.Field(i)]: the type of the field, whether it can be set, and its contents. *)
Definition field (i : nat) (t : gotype) (d : dval) : option (StructField gotype * dval) :=
  fs ← struct_fields t; f ← fs !! i; l ← expand (length fs) d; x ← l !! i; Some (f, x).

Definition set_field (i : nat) (t : gotype) (d x : dval) : dval :=
  match struct_fields t with
  | Some fs => match expand (length fs) d with Some l => DStruct (<[i := x]> l) | None => d end
  | None => d
  end.

(** [fieldByIndex(v, index, false)]: the contents of a field, [None] behind a nil
    pointer. *)
Fixpoint read_field (t : gotype) (d : dval) (index : list nat) : outcome (option dval) :=
  match index with
  | [] => mret (Some d)
  | i :: index =>
      match underlying t, d with
      | TPtr t', DPtr d' =>
          match field i t' d' with Some (f, x) => read_field (sf_Type f) x index | None => Panic end
      | TPtr _, _ => mret None
      | _, _ => match field i t d with Some (f, x) => read_field (sf_Type f) x index | None => Panic end
      end
  end.

(** [fieldByIndex(v, index, true)] followed by [use] of the field: the variable with
    what was allocated on the way and what [use] stored.  Nothing is stored when the
    way leads through a nil pointer that cannot be set. *)
Fixpoint use_field {E} (canSet : bool) (t : gotype) (d : dval) (index : list nat)
    (use : gotype → dval → outcome (E + dval)) : outcome (E + dval) :=
  match index with
  | [] => use t d
  | i :: index =>
      let go t d :=
        match field i t d with
        | Some (f, x) =>
            y ←! use_field (sf_IsExported f) (sf_Type f) x index use;
            mret (inr (set_field i t d y))
        | None => Panic
        end in
      match underlying t, d with
      | TPtr t', DPtr d' => y ←! go t' d'; mret (inr (DPtr y))
      | TPtr t', _ => if canSet then y ←! go t' DZero; mret (inr (DPtr y)) else mret (inr d)
      | _, _ => go t d
      end
  end.

(** * Assignment *)

(** The types that implement an interface with methods. *)
Variable implements : string → gotype → bool.

Definition has_name (t : gotype) : bool := match t with TNamed _ | TBasic _ => true | _ => false end.

(** [V.AssignableTo(T)] *)
Definition AssignableTo (V T : gotype) : bool :=
  bool_decide (V = T) ||
  match underlying T with
  | TInterface "" => true
  | TInterface i => implements i V
  | T' => negb (has_name V && has_name T) && bool_decide (underlying V = T')
  end.

(** [sv.Kind() == dst.Kind() && st.ConvertibleTo(dt)] for kinds other than numbers,
    structs, slices and maps. *)
Definition same_representation (V T : gotype) : bool := bool_decide (underlying V = underlying T).

(** Setting a variable to a value of the record. *)
Definition taken (r : raw) : dval :=
  match number_of r with
  | Some (NInt n) | Some (NUint n) => DInt n
  | Some (NFloat f) => DFloat f
  | None => DRaw r
  end.

Definition propsOf (r : raw) : option (gomap value) :=
  match r with
  | RValue (VMap m) => Some m
  | RValue (VNode n) => Some (node_Props n)
  | RValue (VRelationship r) => Some (rel_Props r)
  | _ => None
  end.

(** The elements of a value of kind slice. *)
Definition slice_elems (r : raw) : option (list raw) :=
  match r with
  | RValue (VBytes b) => Some (RByte <$> b)
  | RValue (VList l) => Some (RValue <$> l)
  | _ => None
  end.

(** The order in which a [range] over a map of fields visits them. *)
Variable order : gomap fieldInfo → gomap fieldInfo.

Section Assign.
Variable assign : gotype → dval → raw → outcome (mapError + dval).

Definition property (name : string) (m : outcome (mapError + dval)) : outcome (mapError + dval) :=
  r ← m; mret (match r with inl e => inl (PropertyError name e) | inr d => inr d end).

Definition fill_field (t : gotype) (src : gomap value) (nf : string * fieldInfo) (d : dval) : outcome (mapError + dval) :=
  match map_get nf.1 src with
  | None | Some VNil => mret (inr d)
  | Some v => use_field true t d (fi_index nf.2) (λ ft fv, property nf.1 (assign ft fv (RValue v)))
  end.

Fixpoint fill (t : gotype) (src : gomap value) (fields : gomap fieldInfo) (d : dval) : outcome (mapError + dval) :=
  match fields with
  | [] => mret (inr d)
  | nf :: fields => d ←! fill_field t src nf d; fill t src fields d
  end.

Definition structFromMap (fuel : nat) (t : gotype) (d : dval) (src : gomap value) : outcome (mapError + dval) :=
  fields ← decodeFieldsOf fuel t;
  fill t src (order fields) d.

Fixpoint assign_elems (te : gotype) (l : list raw) : outcome (mapError + list dval) :=
  match l with
  | [] => mret (inr [])
  | r :: l => x ←! assign te DZero r; xs ←! assign_elems te l; mret (inr (x :: xs))
  end.

Definition assignSlice (t te : gotype) (r : raw) : outcome (mapError + dval) :=
  match slice_elems r with
  | None => mret (inl (TypeError t r))
  | Some l => out ←! assign_elems te l; mret (inr (DSlice out))
  end.

Fixpoint assign_entries (te : gotype) (m : gomap value) : outcome (mapError + gomap dval) :=
  match m with
  | [] => mret (inr [])
  | (k, v) :: m => x ←! assign te DZero (RValue v); xs ←! assign_entries te m; mret (inr ((k, x) :: xs))
  end.

Definition assignMap (t key te : gotype) (r : raw) : outcome (mapError + dval) :=
  match r with
  | RValue (VMap m) =>
      if negb (AssignableTo (TBasic String_) key) then mret (inl (TypeError t r))
      else out ←! assign_entries te m; mret (inr (DMap out))
  | _ => mret (inl (TypeError t r))
  end.
End Assign.

(** The kind of a number type. *)
Definition numeric_kind (t : gotype) : option Kind :=
  match underlying t with TBasic k => if isNumeric k then Some k else None | _ => None end.

Fixpoint assign (fuel : nat) (t : gotype) (d : dval) (r : raw) : outcome (mapError + dval) :=
  match fuel, raw_type r with
  | O, _ => OutOfFuel
  | _, None => mret (inr d)
  | S fuel, Some st =>
      match underlying t with
      | TPtr t' =>
          y ←! assign fuel t' (match d with DPtr d' => d' | _ => DZero end) r;
          mret (inr (DPtr y))
      | TStruct _ =>
          if AssignableTo st t then mret (inr (taken r))
          else match propsOf r with
               | None => mret (inl (TypeError t r))
               | Some props => structFromMap (assign fuel) fuel t d props
               end
      | TSlice te => assignSlice (assign fuel) t te r
      | TMap key te => assignMap (assign fuel) t key te r
      | _ =>
          if AssignableTo st t then mret (inr (taken r))
          else match numeric_kind t, number_of r with
               | Some k, Some x => mret (assignNumeric t k r x)
               | _, _ =>
                   mret (if same_representation st t then inr (taken r) else inl (TypeError t r))
               end
      end
  end.

(** The loop over pointers and what follows it. *)
Fixpoint map_to (fuel : nat) (src : gomap value) (t : gotype) (d : dval) : outcome (mapError + dval) :=
  match fuel with
  | O => OutOfFuel
  | S fuel =>
      match underlying t with
      | TPtr t' =>
          y ←! map_to fuel src t' (match d with DPtr d' => d' | _ => DZero end);
          mret (inr (DPtr y))
      | TStruct _ => structFromMap (assign fuel) fuel t d src
      | _ => mret (inl (NotStruct t))
      end
  end.

(** [dest] is a variable of type [t] with contents [d]. *)
Definition MapToStruct (fuel : nat) (src : gomap value) (t : gotype) (d : dval) : outcome (mapError + dval) :=
  match underlying t, d with
  | TPtr t', DPtr d' => y ←! map_to fuel src t' d'; mret (inr (DPtr y))
  | _, _ => mret (inl (NotPointer t))
  end.

(** * Records (neo4j/db/record.go, neo4j/mapping.go) *)

(** [r.Values\[i\]] panics when there are fewer values than keys. *)
Definition Get (r : Record_) (key : string) : outcome (option value) :=
  match list_find (key =.) (rec_Keys r) with
  | None => mret None
  | Some (i, _) => match rec_Values r !! i with Some v => mret (Some v) | None => Panic end
  end.

Fixpoint columns (keys : list string) (values : list value) (m : gomap value) : outcome (gomap value) :=
  match keys, values with
  | [], _ => mret m
  | key :: keys, v :: values => columns keys values (map_set key v m)
  | _ :: _, [] => Panic
  end.
Definition AsMap (r : Record_) : outcome (gomap value) := columns (rec_Keys r) (rec_Values r) [].

Definition sourceOf (record : Record_) : outcome (gomap value) :=
  match rec_Keys record, rec_Values record with
  | [_], [] => Panic
  | [_], v :: _ => match propsOf (RValue v) with Some m => mret m | None => AsMap record end
  | _, _ => AsMap record
  end.

(** The text of an error of the mapping. *)
Variable text : mapError → string.

Definition As (fuel : nat) (T : gotype) (record : option Record_) : outcome (error + dval) :=
  match record with
  | None => mret (inl (UsageError "cannot map a nil record"))
  | Some record =>
      src ← sourceOf record;
      r ← MapToStruct fuel src (TPtr T) (DPtr DZero);
      mret (match r with
            | inl e => inl (ErrorString (text e))
            | inr (DPtr out) => inr out
            | inr out => inr out
            end)
  end.

Fixpoint CollectRecordsAs (fuel : nat) (T : gotype) (records : list (option Record_)) : outcome (error + list dval) :=
  match records with
  | [] => mret (inr [])
  | record :: records => v ←! As fuel T record; out ←! CollectRecordsAs fuel T records; mret (inr (v :: out))
  end.

Section Results.
Context {C E : Type} `{idb.Connection C} `{Environment C E}.
Variable show : error → string.
Variable cfg : settings.

(** [As\[T\]] as the mapper of the result helpers. *)
Definition as_mapper (fuel : nat) (T : gotype) (record : option Record_) : GoM (session (C := C) (E := E)) (error + dval) :=
  λ s, match As fuel T record with Done r => Done (r, s) | Panic => Panic | OutOfFuel => OutOfFuel end.

Definition CollectAs (fuel : nat) (T : gotype) (result : nat) : GoM (session (C := C) (E := E)) (error + list dval) :=
  helpers.CollectT show cfg (as_mapper fuel T) fuel result.

Definition SingleAs (fuel : nat) (T : gotype) (result : nat) : GoM (session (C := C) (E := E)) (error + dval) :=
  helpers.SingleT show cfg (as_mapper fuel T) result.
End Results.
End Reflection.

(** * Typed access (neo4j/record.go, neo4j/graph.go) *)

(** [x.(T)] with the comma-ok form, for a type that is no interface. *)
Definition type_assert (T : gotype) (v : value) : option value :=
  if decide (value_type v = Some T) then Some v else None.

(** The value, [None] for the zero value of [T]; whether it is null; the error.
    [wrong] is the text of a type error. *)
Definition GetRecordValue (wrong : gotype → value → string) (T : gotype) (record : Record_) (key : string)
    : outcome (option value * bool * option error) :=
  found ← Get record key;
  match found with
  | None => mret (None, false, Some (ErrorString ("record value " +:+ key +:+ " not found")))
  | Some VNil => mret (None, true, None)
  | Some v =>
      match type_assert T v with
      | Some v => mret (Some v, false, None)
      | None => mret (None, false, Some (ErrorString (wrong T v)))
      end
  end.

(** [props] are the properties of the entity. *)
Definition GetProperty (wrong : gotype → value → string) (T : gotype) (props : gomap value) (key : string)
    : option value * option error :=
  match map_get key props with
  | None => (None, Some (ErrorString ("could not find any property named " +:+ key)))
  | Some v =>
      match type_assert T v with
      | Some v => (Some v, None)
      | None => (None, Some (ErrorString (wrong T v)))
      end
  end.
End objects.
