(* ===== verification/MappingNumbers.v ===== *)
(** Numbers of a record and the fields that take them: an assignment either keeps
    the number exactly or reports an error, and it reports one only when no value of
    the field is the number.  Floats are those of IEEE 754 as the Standard Library
    specifies them; rounding a number that the format has leaves it as it is. *)

From S2P Require Import Prelude Values Errors Mapping.
From Stdlib Require Import SpecFloat.
Import objects.
#[local] Open Scope Z_scope.
#[local] Open Scope go_scope.

(** * Rounding is exact on the numbers of the format *)

(** [m1 * 2^e1 = m2 * 2^e2] *)
Definition same_num (m1 e1 m2 e2 : Z) : Prop :=
  m1 * 2 ^ (e1 - Z.min e1 e2) = m2 * 2 ^ (e2 - Z.min e1 e2).

Lemma digits2_log2 p : Zpos (digits2_pos p) = Z.log2 (Zpos p) + 1.
Proof.
  induction p as [p IH | p IH |]; [| | done]; simpl digits2_pos; rewrite Pos2Z.inj_succ, IH.
  - rewrite (Pos2Z.inj_xI p), Z.log2_succ_double by lia. lia.
  - rewrite (Pos2Z.inj_xO p), Z.log2_double by lia. lia.
Qed.

Lemma same_num_log2 a ea b eb :
  same_num (Zpos a) ea (Zpos b) eb → Z.log2 (Zpos a) + ea = Z.log2 (Zpos b) + eb.
Proof.
  unfold same_num. intros H.
  assert (Z.log2 (Zpos a * 2 ^ (ea - Z.min ea eb)) = Z.log2 (Zpos b * 2 ^ (eb - Z.min ea eb))) as E by (by rewrite H).
  rewrite !Z.log2_mul_pow2 in E by lia. lia.
Qed.

Lemma iter_pos_nat {A} (f : A → A) p x : iter_pos f p x = Nat.iter (Pos.to_nat p) f x.
Proof.
  revert x. induction p as [p IH | p IH |]; intros x; [| | done]; cbn [iter_pos]; rewrite !IH, <- Nat.iter_add.
  - rewrite <- Nat.iter_succ_r. f_equal. lia.
  - f_equal. lia.
Qed.

(** Shifting out zeros loses nothing. *)
Lemma shr_1_iter n m :
  Nat.iter n shr_1 (Build_shr_record (Zpos m * 2 ^ Z.of_nat n) false false) = Build_shr_record (Zpos m) false false.
Proof.
  induction n as [| n IH]; [by rewrite Z.mul_1_r |].
  rewrite Nat.iter_succ_r.
  replace (Zpos m * 2 ^ Z.of_nat (S n)) with (2 * (Zpos m * 2 ^ Z.of_nat n)) by (rewrite Nat2Z.inj_succ, Z.pow_succ_r; lia).
  assert (0 < Zpos m * 2 ^ Z.of_nat n) as Hp by (apply Z.mul_pos_pos; [lia | apply Z.pow_pos_nonneg; lia]).
  destruct (Zpos m * 2 ^ Z.of_nat n) as [| q | q] eqn:E; [lia | | lia]. simpl. exact IH.
Qed.

Lemma shift_xO d m : Zpos (Pos.iter xO m d) = Zpos m * 2 ^ Zpos d.
Proof.
  induction d as [| d IH] using Pos.peano_ind; [simpl; lia |].
  rewrite Pos.iter_succ, Pos2Z.inj_xO, IH, Pos2Z.inj_succ, Z.pow_succ_r; lia.
Qed.

Section Exact.
Variables prec emax : Z.

(** A canonical mantissa is not shifted, so it is what rounding returns. *)
Lemma round_canonical s m e mx ex :
  bounded prec emax m e = true →
  shr_fexp prec emax mx ex loc_Exact = (Build_shr_record (Zpos m) false false, e) →
  binary_round_aux prec emax s mx ex loc_Exact = S754_finite s m e.
Proof.
  unfold bounded, canonical_mantissa. intros [Hc He]%andb_prop H. apply Z.eqb_eq in Hc.
  unfold binary_round_aux. rewrite H. simpl.
  unfold shr_fexp. simpl. rewrite Hc, Z.sub_diag. simpl. by rewrite He.
Qed.

Lemma binary_round_exact s m e mx ex :
  bounded prec emax m e = true → same_num (Zpos mx) ex (Zpos m) e →
  binary_round prec emax s mx ex = S754_finite s m e.
Proof.
  intros Hb Hs. pose proof (same_num_log2 _ _ _ _ Hs) as Hl.
  pose proof Hb as [Hc _]%andb_prop. unfold canonical_mantissa in Hc. apply Z.eqb_eq in Hc.
  rewrite digits2_log2 in Hc.
  unfold binary_round, shl_align. rewrite digits2_log2.
  replace (Z.log2 (Z.pos mx) + 1 + ex) with (Z.log2 (Z.pos m) + 1 + e) by lia. rewrite Hc.
  unfold same_num in Hs.
  destruct (e - ex) as [| d | d] eqn:Ed.
  - (* the exponent is right *)
    replace ex with e in * by lia. rewrite Z.min_id, Z.sub_diag, !Z.mul_1_r in Hs. injection Hs as ->.
    apply round_canonical; [done |]. unfold shr_fexp. simpl. rewrite digits2_log2, Hc, Z.sub_diag. done.
  - (* zeros are shifted out *)
    rewrite Z.min_l, Z.sub_diag, Z.mul_1_r in Hs by lia.
    apply round_canonical; [done |]. unfold shr_fexp. simpl Zdigits2. rewrite digits2_log2.
    replace (Z.log2 (Z.pos mx) + 1 + ex) with (Z.log2 (Z.pos m) + 1 + e) by lia. rewrite Hc, Ed. simpl shr.
    rewrite iter_pos_nat, Hs, Ed.
    replace (Zpos d) with (Z.of_nat (Pos.to_nat d)) by lia. rewrite shr_1_iter. f_equal. lia.
  - (* zeros are added *)
    rewrite Z.min_r, Z.sub_diag, Z.mul_1_r in Hs by lia.
    replace (ex - e) with (Zpos d) in Hs by lia. rewrite <- shift_xO in Hs. injection Hs as ->.
    apply round_canonical; [done |]. unfold shr_fexp. simpl. rewrite digits2_log2, Hc, Z.sub_diag. done.
Qed.
End Exact.

(** [same_num] may be read at any exponent below both. *)
Lemma same_num_at k m1 e1 m2 e2 :
  k <= e1 → k <= e2 → same_num m1 e1 m2 e2 ↔ m1 * 2 ^ (e1 - k) = m2 * 2 ^ (e2 - k).
Proof.
  intros H1 H2. unfold same_num.
  replace (e1 - k) with ((e1 - Z.min e1 e2) + (Z.min e1 e2 - k)) by lia.
  replace (e2 - k) with ((e2 - Z.min e1 e2) + (Z.min e1 e2 - k)) by lia.
  rewrite !Z.pow_add_r, !Z.mul_assoc by lia.
  rewrite Z.mul_cancel_r; [done |]. apply Z.pow_nonzero; lia.
Qed.

Lemma same_num_sym m1 e1 m2 e2 : same_num m1 e1 m2 e2 → same_num m2 e2 m1 e1.
Proof. unfold same_num. rewrite (Z.min_comm e2 e1). done. Qed.

Lemma same_num_trans m1 e1 m2 e2 m3 e3 :
  same_num m1 e1 m2 e2 → same_num m2 e2 m3 e3 → same_num m1 e1 m3 e3.
Proof.
  set (k := Z.min e1 (Z.min e2 e3)). rewrite !(same_num_at k) by lia. congruence.
Qed.

(** * Integers that a float has *)

(** The precision and the exponent bound of a float type. *)
Definition precision (k : Kind) : Z := match k with Float32 => 24 | _ => 53 end.
Definition exponent (k : Kind) : Z := match k with Float32 => 128 | _ => 1024 end.

(** A float of the type. *)
Definition is_float (k : Kind) (f : spec_float) : Prop := valid_binary (precision k) (exponent k) f = true.

(** The float [f] is the integer [n]. *)
Definition float_is (f : spec_float) (n : Z) : Prop :=
  match f with
  | S754_zero _ => n = 0
  | S754_finite s m e => s = (n <? 0) ∧ same_num (Zpos m) e (Z.abs n) 0
  | _ => False
  end.

(** The floats [f] and [g] are the same number, maybe in different formats. *)
Definition same_float (f g : spec_float) : Prop :=
  match f, g with
  | S754_zero s, S754_zero s' | S754_infinity s, S754_infinity s' => s = s'
  | S754_finite s m e, S754_finite s' m' e' => s = s' ∧ same_num (Zpos m) e (Zpos m') e'
  | _, _ => False
  end.

Lemma pos_trailing_nonneg p : 0 <= pos_trailing p.
Proof. induction p; simpl; lia. Qed.

Lemma pos_trailing_spec p : ∃ q, Zpos p = Zpos q * 2 ^ pos_trailing p.
Proof.
  induction p as [p _ | p (q & IH) |]; [by exists (xI p); rewrite Z.mul_1_r | | by exists xH].
  exists q. simpl pos_trailing. rewrite Z.pow_add_r by (try apply pos_trailing_nonneg; lia).
  rewrite (Pos2Z.inj_xO p), IH. lia.
Qed.

Lemma pos_trailing_max k q p : Zpos p = Zpos q * 2 ^ Z.of_nat k → Z.of_nat k <= pos_trailing p.
Proof.
  revert p. induction k as [| k IH]; intros p H; [apply pos_trailing_nonneg |].
  rewrite Nat2Z.inj_succ, Z.pow_succ_r in H by lia.
  destruct p as [p | p |]; simpl pos_trailing.
  - exfalso. rewrite (Pos2Z.inj_xI p) in H. lia.
  - enough (Z.of_nat k <= pos_trailing p) by lia. apply IH. rewrite (Pos2Z.inj_xO p) in H. lia.
  - exfalso. lia.
Qed.

Lemma abs_u64 n : signed 64 n → (if n <? 0 then u64 (i64 (- n)) else u64 n) = Z.abs n.
Proof.
  unfold signed. intros Hn. destruct (Z.ltb_spec n 0).
  - destruct (decide (n = - 2 ^ 63)) as [-> |]; [done |].
    rewrite swrap_small, uwrap_small; unfold signed, unsigned; lia.
  - rewrite uwrap_small; unfold unsigned; lia.
Qed.

Section Fits.
Variables prec emax : Z.
Hypothesis Hprec : 0 < prec.
Hypothesis Hemax : 64 <= emax.

(** An integer whose significant bits fit has a float, and no other integer has. *)
Lemma fits_float p :
  Z.log2 (Zpos p) < 64 → Z.log2 (Zpos p) + 1 - pos_trailing p <= prec →
  ∃ m e, bounded prec emax m e = true ∧ same_num (Zpos p) 0 (Zpos m) e.
Proof.
  intros Hp Hf. set (e := Z.log2 (Zpos p) + 1 - prec).
  assert (∃ m, same_num (Zpos p) 0 (Zpos m) e) as [m Hm].
  { destruct (Z.le_gt_cases e 0) as [He | He].
    - assert (0 < Zpos p * 2 ^ (- e)) by (apply Z.mul_pos_pos; [lia | apply Z.pow_pos_nonneg; lia]).
      exists (Z.to_pos (Zpos p * 2 ^ (- e))). unfold same_num.
      rewrite Z.min_r, Z.sub_diag, Z.mul_1_r, Z2Pos.id, Z.sub_0_l by lia. done.
    - destruct (pos_trailing_spec p) as [q Hq].
      exists (Z.to_pos (Zpos q * 2 ^ (pos_trailing p - e))). unfold same_num.
      assert (0 < Zpos q * 2 ^ (pos_trailing p - e)) by (apply Z.mul_pos_pos; [lia | apply Z.pow_pos_nonneg; lia]).
      rewrite Z.min_l, Z.sub_diag, Z.mul_1_r, Z.sub_0_r, Z2Pos.id by lia.
      rewrite Hq at 1. rewrite <- Z.mul_assoc, <- Z.pow_add_r by lia. do 2 f_equal. lia. }
  exists m, e. split; [| done]. pose proof (same_num_log2 _ _ _ _ Hm).
  unfold bounded, canonical_mantissa, fexp, emin. rewrite digits2_log2.
  apply andb_true_intro. rewrite Z.eqb_eq, Z.leb_le. pose proof (Z.log2_nonneg (Zpos p)). subst e. lia.
Qed.

Lemma float_fits p m e :
  bounded prec emax m e = true → same_num (Zpos p) 0 (Zpos m) e →
  Z.log2 (Zpos p) + 1 - pos_trailing p <= prec.
Proof.
  intros [Hc _]%andb_prop Hs. pose proof (same_num_log2 _ _ _ _ Hs).
  unfold canonical_mantissa, fexp in Hc. apply Z.eqb_eq in Hc. rewrite digits2_log2 in Hc.
  pose proof (pos_trailing_nonneg p). destruct (Z.le_gt_cases e 0) as [He | He]; [lia |].
  unfold same_num in Hs. rewrite Z.min_l, Z.sub_diag, Z.mul_1_r, Z.sub_0_r in Hs by lia.
  rewrite <- (Z2Nat.id e) in Hs by lia. apply pos_trailing_max in Hs. lia.
Qed.
End Fits.

(** * Rounding gives a float of the format *)

Lemma Zdigits2_log2 z : 0 < z → Zdigits2 z = Z.log2 z + 1.
Proof. destruct z; [done | intros _; apply digits2_log2 | done]. Qed.

Lemma shr_1_half mrs : 0 <= shr_m mrs → shr_m (shr_1 mrs) = shr_m mrs / 2.
Proof.
  destruct mrs as [[| [p | p |] | p] r s]; simpl; intros Hm; try lia; try done.
  - rewrite (Pos2Z.inj_xI p), Z.mul_comm, Z.div_add_l by lia. change (1 / 2) with 0. lia.
  - by rewrite (Pos2Z.inj_xO p), Z.mul_comm, Z.div_mul by lia.
Qed.

Lemma shr_1_iter_m n mrs : 0 <= shr_m mrs → shr_m (Nat.iter n shr_1 mrs) = shr_m mrs / 2 ^ Z.of_nat n.
Proof.
  revert mrs. induction n as [| n IH]; intros mrs Hm; [by rewrite Z.div_1_r |].
  rewrite Nat.iter_succ_r, IH; rewrite shr_1_half by done.
  - rewrite Zdiv_Zdiv, Nat2Z.inj_succ, Z.pow_succ_r by lia. done.
  - apply Z.div_pos; lia.
Qed.

Section Valid.
Variables prec emax : Z.
Hypothesis Hprec : 0 < prec.

(** One alignment: the mantissa is cut down to the exponent of the format, and what
    is left of it has that exponent. *)
Lemma shr_fexp_spec m e l :
  0 <= m → e <= fexp prec emax (Zdigits2 m + e) →
  ∃ mrs, shr_fexp prec emax m e l = (mrs, fexp prec emax (Zdigits2 m + e)) ∧ 0 <= shr_m mrs ∧
    (shr_m mrs = 0 → m = 0 ∨ Zdigits2 m + e <= fexp prec emax (Zdigits2 m + e)) ∧
    (0 < shr_m mrs → Zdigits2 (shr_m mrs) + fexp prec emax (Zdigits2 m + e) = Zdigits2 m + e).
Proof.
  intros Hm He. set (e' := fexp prec emax (Zdigits2 m + e)) in *.
  assert (Hs : ∃ mrs, shr_fexp prec emax m e l = (mrs, e') ∧ shr_m mrs = m / 2 ^ (e' - e)).
  { unfold shr_fexp. fold e'. assert (Hl : shr_m (shr_record_of_loc m l) = m) by (by destruct l as [| []]).
    destruct (e' - e) as [| d | d] eqn:Ed; simpl shr.
    - exists (shr_record_of_loc m l). rewrite Hl, Z.div_1_r. split; [f_equal; lia | done].
    - eexists. split; [f_equal; lia |]. rewrite iter_pos_nat, shr_1_iter_m, Hl by lia. do 2 f_equal. lia.
    - lia. }
  destruct Hs as (mrs & -> & Hr). exists mrs. split; [done |]. rewrite Hr.
  split; [apply Z.div_pos; [done | apply Z.pow_pos_nonneg; lia] |].
  rewrite <- Z.shiftr_div_pow2 by lia. split.
  - intros H0. destruct (decide (m = 0)) as [-> | Hn]; [by left | right].
    rewrite Z.shiftr_eq_0_iff in H0. destruct H0 as [-> | [_ H0]]; [lia |]. rewrite Zdigits2_log2 by lia. lia.
  - intros Hp. assert (0 < m) by (destruct (decide (m = 0)) as [-> |]; [rewrite Z.shiftr_0_l in Hp |]; lia).
    rewrite !Zdigits2_log2 by lia. rewrite Z.log2_shiftr by lia.
    destruct (Z.le_gt_cases (e' - e) (Z.log2 m)) as [Hle | Hgt]; [lia |].
    rewrite Z.shiftr_eq_0 in Hp by lia. lia.
Qed.

Lemma Zdigits2_mono a b : 0 <= a <= b → Zdigits2 a <= Zdigits2 b.
Proof.
  intros H. destruct (decide (a = 0)) as [-> |].
  - destruct (decide (b = 0)) as [-> |]; [done |]. rewrite (Zdigits2_log2 b) by lia.
    pose proof (Z.log2_nonneg b). simpl. lia.
  - rewrite !Zdigits2_log2 by lia. pose proof (Z.log2_le_mono a b). lia.
Qed.

Definition rounded (s : bool) (f : spec_float) : Prop :=
  match f with
  | S754_zero s' | S754_infinity s' => s' = s
  | S754_finite s' m e => s' = s ∧ bounded prec emax m e = true
  | S754_nan => False
  end.

Lemma binary_round_aux_rounded s m e :
  e <= fexp prec emax (Zdigits2 (Zpos m) + e) → rounded s (binary_round_aux prec emax s (Zpos m) e loc_Exact).
Proof.
  intros He. unfold binary_round_aux.
  destruct (shr_fexp_spec (Zpos m) e loc_Exact) as (mrs & -> & H0 & Hz & Hd); [lia | done |].
  set (e1 := fexp prec emax (Zdigits2 (Zpos m) + e)) in *.
  set (m1 := round_nearest_even (shr_m mrs) (loc_of_shr_record mrs)).
  assert (Hm1 : shr_m mrs <= m1 <= shr_m mrs + 1).
  { subst m1. unfold round_nearest_even. repeat case_match; lia. }
  pose proof (Zdigits2_mono (shr_m mrs) m1 ltac:(lia)).
  destruct (shr_fexp_spec m1 e1 loc_Exact) as (mrs' & -> & H0' & _ & Hd'); [lia | |].
  { destruct (decide (shr_m mrs = 0)) as [E | E].
    - destruct (Hz E) as [? | Hsub]; [lia |]. subst e1. unfold fexp in *. lia.
    - specialize (Hd ltac:(lia)). subst e1. unfold fexp in *. lia. }
  destruct (shr_m mrs') as [| m2 | m2] eqn:E2; simpl; [done | | lia].
  specialize (Hd' ltac:(lia)). simpl in Hd'.
  case_match eqn:Hle; simpl; [| done]. split; [done |].
  unfold bounded, canonical_mantissa. rewrite Hd', Z.eqb_refl. done.
Qed.

Lemma binary_round_rounded s m e : rounded s (binary_round prec emax s m e).
Proof.
  unfold binary_round, shl_align.
  destruct (fexp prec emax (Z.pos (digits2_pos m) + e) - e) as [| d | d] eqn:Ed;
    apply binary_round_aux_rounded; cbn [Zdigits2]; [lia.. |].
  rewrite !digits2_log2, shift_xO, Z.log2_mul_pow2 by lia. rewrite digits2_log2 in Ed.
  apply Z.eq_le_incl. f_equal. lia.
Qed.
End Valid.

(** * Integers into floats *)

Lemma precision_pos k : 0 < precision k.
Proof. by destruct k. Qed.
Lemma exponent_wide k : 64 <= exponent k.
Proof. by destruct k. Qed.
#[local] Hint Resolve precision_pos exponent_wide : core.

(** The significant bits of an integer, as the code counts them. *)
Lemma intFitsFloat_bits n k p :
  CanFloat k = true → signed 64 n → Z.abs n = Zpos p →
  intFitsFloat n k = (Z.log2 (Zpos p) + 1 - pos_trailing p <=? precision k).
Proof.
  intros Hk Hn Hp. unfold intFitsFloat. rewrite (proj2 (Z.eqb_neq n 0)) by lia.
  rewrite abs_u64, Hp by done. by destruct k.
Qed.

Lemma int_log2 n p : signed 64 n → Z.abs n = Zpos p → Z.log2 (Zpos p) < 64.
Proof. unfold signed. intros Hn Hp. apply Z.log2_lt_pow2; lia. Qed.

(** The mantissa and the exponent of an integer in a format that has it. *)
Lemma int_float n k :
  CanFloat k = true → signed 64 n → n ≠ 0 →
  intFitsFloat n k = true ↔
  ∃ m e, bounded (precision k) (exponent k) m e = true ∧ same_num (Z.abs n) 0 (Zpos m) e.
Proof.
  intros Hk Hn Hz. destruct (Z.abs n) as [| p | p] eqn:Hp; [lia | | lia].
  rewrite (intFitsFloat_bits n k p), Z.leb_le by done. split.
  - apply fits_float; [done.. | by eapply int_log2].
  - intros (m & e & Hb & Hs). by eapply float_fits.
Qed.

Lemma normalize_exact n m e :
  bounded 53 1024 m e = true → same_num (Z.abs n) 0 (Zpos m) e → float64_of_int n = S754_finite (n <? 0) m e.
Proof.
  intros Hb Hs. unfold float64_of_int. destruct n as [| p | p]; simpl in *.
  - pose proof (Z.pow_pos_nonneg 2 (e - Z.min 0 e)). unfold same_num in Hs. nia.
  - by apply binary_round_exact.
  - by apply binary_round_exact.
Qed.

Lemma int_kept n k :
  CanFloat k = true → signed 64 n → intFitsFloat n k = true →
  ∃ g, SetFloat k (float64_of_int n) = DFloat g ∧ is_float k g ∧ float_is g n.
Proof.
  intros Hk Hn Hf. destruct (decide (n = 0)) as [-> | Hz]; [destruct k; try done; by eexists |].
  pose proof Hf as (m & e & Hb & Hs)%int_float; [| done..].
  assert (Hf64 : intFitsFloat n Float64 = true).
  { destruct (Z.abs n) as [| p | p] eqn:Hp; [lia | | lia].
    rewrite (intFitsFloat_bits n k p) in Hf by done. rewrite (intFitsFloat_bits n Float64 p) by done.
    rewrite Z.leb_le in *. destruct k; try discriminate Hk; cbn [precision] in *; lia. }
  apply int_float in Hf64 as (m' & e' & Hb' & Hs'); [| done..].
  rewrite (normalize_exact n m' e') by done.
  assert (Hg : float_is (S754_finite (n <? 0) m e) n) by (split; [done | by apply same_num_sym]).
  destruct k; try done; simpl; eexists; (split; [reflexivity |]).
  - unfold float32_, round_to.
    rewrite (binary_round_exact 24 128 _ m e); [done | done |].
    eapply same_num_trans; [by apply same_num_sym | done].
  - split; [done |]. split; [done | by apply same_num_sym].
Qed.

Lemma int_not_kept n k g :
  CanFloat k = true → signed 64 n → intFitsFloat n k = false → is_float k g → ¬ float_is g n.
Proof.
  intros Hk Hn Hf Hv Hg. assert (n ≠ 0) by (intros ->; by unfold intFitsFloat in Hf).
  enough (intFitsFloat n k = true) by congruence. apply int_float; [done.. |].
  destruct g as [s | s | | s m e]; try done. destruct Hg as [_ Hg].
  exists m, e. split; [done | by apply same_num_sym].
Qed.

(** * Floats into floats *)

Lemma same_float_refl f : f ≠ S754_nan → same_float f f.
Proof. by destruct f. Qed.

Lemma SFeqb_refl f : f ≠ S754_nan → SFeqb f f = true.
Proof.
  unfold SFeqb. destruct f as [[] | [] | | [] m e]; try done; simpl; intros _;
    rewrite Z.compare_refl; fold (Pos.compare m m); by rewrite Pos.compare_refl.
Qed.

Lemma SFeqb_finite s m e s' m' e' :
  SFeqb (S754_finite s m e) (S754_finite s' m' e') = true → s = s' ∧ m = m' ∧ e = e'.
Proof.
  unfold SFeqb. simpl. destruct s, s'; try done;
    (destruct (Z.compare_spec e e') as [-> | |]; [| done..]);
    fold (Pos.compare m m'); destruct (Pos.compare_spec m m') as [-> | |]; done.
Qed.

(** A float of 32 bits is one of 64 bits as well. *)
Lemma widen_exact m e :
  bounded 24 128 m e = true → ∃ m' e', bounded 53 1024 m' e' = true ∧ same_num (Zpos m) e (Zpos m') e'.
Proof.
  intros [Hc He]%andb_prop. unfold canonical_mantissa, fexp, emin in Hc. rewrite digits2_log2 in Hc.
  apply Z.eqb_eq in Hc. apply Z.leb_le in He.
  set (e' := Z.max (Z.log2 (Zpos m) + 1 + e - 53) (3 - 1024 - 53)).
  assert (0 < Zpos m * 2 ^ (e - e')) by (apply Z.mul_pos_pos; [lia | apply Z.pow_pos_nonneg; lia]).
  assert (Hs : same_num (Zpos m) e (Zpos (Z.to_pos (Zpos m * 2 ^ (e - e')))) e').
  { unfold same_num. rewrite Z.min_r, Z.sub_diag, Z.mul_1_r, Z2Pos.id by lia. done. }
  eexists _, e'. split; [| exact Hs]. pose proof (same_num_log2 _ _ _ _ Hs).
  unfold bounded, canonical_mantissa, fexp, emin. rewrite digits2_log2.
  apply andb_true_intro. rewrite Z.eqb_eq, Z.leb_le. lia.
Qed.

Lemma narrow_sound f :
  f ≠ S754_nan → SFeqb (float64_ (float32_ f)) f = true → is_float Float32 (float32_ f) ∧ same_float (float32_ f) f.
Proof.
  destruct f as [s | s | | s m e]; [done | done | done |]. intros _ H.
  unfold float32_ in *. simpl round_to in *.
  pose proof (binary_round_rounded 24 128 ltac:(lia) s m e) as Hr.
  destruct (binary_round 24 128 s m e) as [s' | s' | | s' m' e']; simpl in *;
    [by destruct s | by destruct s, s' | done |].
  destruct Hr as [-> Hb]. destruct (widen_exact m' e' Hb) as (m2 & e2 & Hb2 & Hs2).
  unfold float64_ in H. simpl in H. rewrite (binary_round_exact 53 1024 s m2 e2) in H by done.
  apply SFeqb_finite in H as (_ & -> & ->). done.
Qed.

Lemma narrow_complete f g :
  is_float Float64 f → is_float Float32 g → same_float g f → SFeqb (float64_ (float32_ f)) f = true.
Proof.
  intros Hf Hg H. destruct g as [s | s | | s m e], f as [s' | s' | | s' m' e']; try done.
  - by destruct s'.
  - destruct H as [-> H]. unfold float32_, float64_. simpl.
    rewrite (binary_round_exact 24 128 _ m e); [| done | by apply same_num_sym]. simpl.
    rewrite (binary_round_exact 53 1024 _ m' e') by done. by apply SFeqb_refl.
Qed.

Lemma no_overflow f g :
  is_float Float64 f → is_float Float32 g → same_float g f → OverflowFloat Float32 f = false.
Proof.
  intros Hf Hg H. destruct g as [s | s | | s m e], f as [s' | s' | | s' m' e']; try done.
  destruct H as [-> H]. unfold OverflowFloat. apply andb_false_iff. left.
  pose proof (same_num_log2 _ _ _ _ H) as Hl.
  apply andb_prop in Hf as [Hcf _], Hg as [Hcg Heg]. unfold canonical_mantissa, fexp, emin in *.
  rewrite digits2_log2 in *. apply Z.eqb_eq in Hcf, Hcg. apply Z.leb_le in Heg. cbn [precision exponent] in *.
  unfold SFltb, SFcompare, SFabs, MaxFloat32. destruct (Z.compare_spec 75 e') as [<- | Hlt | Hgt]; [| lia | done].
  fold (Pos.compare (2 ^ 53 - 2 ^ 29) m').
  destruct (Pos.compare_spec (2 ^ 53 - 2 ^ 29) m') as [? | Hlt | Hgt]; [done | | done]. exfalso.
  assert (e = 104) as -> by lia.
  assert (Zpos m < 2 ^ 24) by (apply Z.log2_lt_pow2; lia).
  unfold same_num in H. rewrite Z.min_r in H by done.
  change (Zpos m * 2 ^ 29 = Zpos m' * 1) in H. lia.
Qed.

(** * Assignment of numbers *)

Lemma float_of_bits_valid b : is_float Float64 (float_of_bits b).
Proof.
  unfold float_of_bits, is_float. set (m := Z.land b (2 ^ 52 - 1)). set (e := Z.land (Z.shiftr b 52) 2047).
  assert (Hm : 0 <= m < 2 ^ 52).
  { subst m. change (2 ^ 52 - 1) with (Z.ones 52). rewrite Z.land_ones by lia. apply Z.mod_pos_bound. lia. }
  assert (He : 0 <= e < 2 ^ 11).
  { subst e. change 2047 with (Z.ones 11). rewrite Z.land_ones by lia. apply Z.mod_pos_bound. lia. }
  destruct (Z.eqb_spec e 2047); [by case_match |]. destruct (Z.eqb_spec e 0).
  - destruct m as [| p | p]; [done | | done]. cbn [valid_binary precision exponent].
    assert (Z.log2 (Zpos p) < 52) by (apply Z.log2_lt_pow2; lia).
    unfold bounded, canonical_mantissa, fexp, emin. rewrite digits2_log2.
    apply andb_true_intro. rewrite Z.eqb_eq, Z.leb_le. lia.
  - destruct (m + 2 ^ 52) as [| p | p] eqn:Ep; [done | | done]. cbn [valid_binary precision exponent].
    assert (Z.log2 (Zpos p) = 52) by (apply Z.log2_unique; lia).
    unfold bounded, canonical_mantissa, fexp, emin. rewrite digits2_log2.
    apply andb_true_intro. rewrite Z.eqb_eq, Z.leb_le. lia.
Qed.

(** The contents [d] of a variable of kind [k] are the number [x]. *)
Definition holds (k : Kind) (x : number) (d : dval) : Prop :=
  match x, d with
  | NInt n, DInt i => i = n ∧ (CanInt k = true ∧ signed (bits k) n ∨ CanUint k = true ∧ unsigned (bits k) n)
  | NInt n, DFloat g => CanFloat k = true ∧ is_float k g ∧ float_is g n
  | NFloat f, DFloat g => CanFloat k = true ∧ is_float k g ∧ same_float g f
  | NFloat f, DInt i => float_is f i ∧ (CanInt k = true ∧ signed (bits k) i ∨ CanUint k = true ∧ unsigned (bits k) i)
  | _, _ => False
  end.

(** An [int64], or a [float64] that is a number. *)
Definition valid_number (x : number) : Prop :=
  match x with NInt n => signed 64 n | NFloat f => f ≠ S754_nan | NUint _ => False end.

(** What an assignment of [x] to a variable of kind [k] may result in.  A float is never
    coerced into an integer, not even one like 3.0. *)
Definition exactly (k : Kind) (x : number) (r : mapError + dval) : Prop :=
  match x, CanFloat k with
  | NFloat _, false => ∃ t v, r = inl (TypeError t v)
  | _, _ => match r with inr d => holds k x d | inl _ => ∀ d, ¬ holds k x d end
  end.

Lemma swrap_eq w z : 0 < w → swrap w z = z ↔ signed w z.
Proof.
  intros Hw. split; [intros <- | by apply swrap_small]. unfold swrap, signed.
  pose proof (Z.mod_pos_bound (z + 2 ^ (w - 1)) (2 ^ w)). assert (2 ^ w = 2 * 2 ^ (w - 1)).
  { rewrite <- Z.pow_succ_r by lia. f_equal. lia. } lia.
Qed.

Lemma bits_pos k : 0 < bits k.
Proof. by destruct k. Qed.

Lemma assign_int t k r n : isNumeric k = true → signed 64 n → exactly k (NInt n) (assignNumeric t k r (NInt n)).
Proof.
  intros Hk Hn. simpl. destruct (CanInt k) eqn:Hi; [| destruct (CanUint k) eqn:Hu].
  - assert (CanUint k = false ∧ CanFloat k = false) as [Hu Hf] by (by destruct k).
    unfold OverflowInt. destruct (Z.eqb_spec (swrap (bits k) n) n) as [E | E]; simpl.
    + split; [done |]. left. by apply swrap_eq in E; [| apply bits_pos].
    + intros [] H; simpl in H; try done; [| destruct H; congruence]. destruct H as [_ [[_ H] | [? _]]]; [| congruence].
      apply E, swrap_eq; [apply bits_pos | done].
  - assert (CanFloat k = false) as Hf by (by destruct k). unfold OverflowUint.
    destruct (Z.ltb_spec n 0); simpl.
    { intros [] H'; simpl in H'; try done; [| destruct H'; congruence]. unfold unsigned in H'. destruct H' as [_ [[? _] | [_ ?]]]; [congruence | lia]. }
    rewrite (uwrap_small 64) by (unfold signed, unsigned in *; lia).
    destruct (Z.eqb_spec (uwrap (bits k) n) n) as [E | E]; simpl.
    + split; [done |]. right. split; [done |]. rewrite <- E. apply uwrap_range. pose proof (bits_pos k). lia.
    + intros [] H'; simpl in H'; try done; [| destruct H'; congruence]. destruct H' as [_ [[? _] | [_ H']]]; [congruence |].
      by apply E, uwrap_small.
  - assert (CanFloat k = true) as Hf by (by destruct k). destruct (intFitsFloat n k) eqn:Hfit.
    + destruct (int_kept n k Hf Hn Hfit) as (g & -> & Hg). done.
    + intros [] H'; simpl in H'; try done; [destruct H' as [_ [[H' _] | [H' _]]]; congruence |].
      destruct H' as (_ & Hg & H'). by eapply int_not_kept.
Qed.

Lemma assign_float t k r f :
  isNumeric k = true → is_float Float64 f → f ≠ S754_nan → exactly k (NFloat f) (assignNumeric t k r (NFloat f)).
Proof.
  intros Hk Hf Hn. unfold exactly. simpl. destruct (CanFloat k) eqn:Hc; simpl; [| by eexists _, _].
  assert (Hi : ∀ i, ¬ holds k (NFloat f) (DInt i)).
  { intros i (_ & [[? _] | [? _]]); by destruct k. }
  destruct k; try done; simpl.
  - destruct (SFltb _ _ && _) eqn:Ho; [| destruct (SFeqb _ f) eqn:He]; simpl.
    + intros [] H'; try done; try destruct (Hi _ H'). simpl in H'. destruct H' as (_ & Hg & H').
      pose proof (no_overflow _ _ Hf Hg H') as H0. unfold OverflowFloat in H0. congruence.
    + split; [done |]. by apply narrow_sound.
    + intros [] H'; try done; try destruct (Hi _ H'). simpl in H'. destruct H' as (_ & Hg & H').
      pose proof (narrow_complete _ _ Hf Hg H'). congruence.
  - do 2 (split; [done |]). by apply same_float_refl.
Qed.

(** C11. Numbers are converted exactly or not at all.  An integer of a record, assigned
    to a field of any numeric type, or a float, assigned to a field of a float type, is
    afterwards the number in the field; the assignment reports an error only when no
    value of the field's type is that number.  A float assigned to a field of an integer
    type is always refused with an error of the types, also when it is integral.  So a
    property is never truncated or rounded.  NaN, which equals no number, is left
    aside. *)
Theorem numbers_exact declared implements order fuel t k d v x :
  numeric_kind declared t = Some k → number_of (RValue v) = Some x → valid_number x →
  ∃ r, assign declared implements order (S fuel) t d (RValue v) = Done r ∧ exactly k x r.
Proof.
  unfold numeric_kind. intros Hk Hx Hv.
  destruct (underlying declared t) as [k' | | | | | | | |] eqn:Hu; try done.
  destruct (isNumeric k') eqn:Hn; simplify_eq.
  assert (Hname : has_name t = true) by (by destruct t).
  assert (Hst : ∃ k0, value_type v = Some (TBasic k0) ∧
    exactly k x (assignNumeric t k (RValue v) x) ∧ (k0 = k → exactly k x (inr (taken (RValue v))))).
  { destruct v; simpl in Hx; simplify_eq; simpl in Hv; eexists; (split; [reflexivity |]); split.
    - by apply assign_int.
    - intros <-. simpl. split; [done | by left].
    - apply assign_float; [done | apply float_of_bits_valid | done].
    - intros <-. unfold exactly. cbn [taken number_of holds CanFloat]. split; [done |]. split; [apply float_of_bits_valid | by apply same_float_refl]. }
  destruct Hst as (k0 & Hst & He & Hsame). cbn [assign raw_type]. rewrite Hst, Hu.
  assert (Ha : AssignableTo declared implements (TBasic k0) t = true → k0 = k).
  { unfold AssignableTo. rewrite Hu, Hname. simpl. rewrite orb_false_r, bool_decide_eq_true.
    intros <-. cbn in Hu. congruence. }
  destruct (AssignableTo _ _ _ _) eqn:Hass.
  - eexists. split; [reflexivity |]. by apply Hsame, Ha.
  - unfold numeric_kind. rewrite Hu, Hn, Hx. by eexists.
Qed.

(** The smallest [int64], a power of two, is a float of 32 bits. *)
Lemma numbers_exact_witness :
  let v := VInt (- 2 ^ 63) in
  ∃ r, assign (λ _, any) (λ _ _, false) id 1 (TBasic Float32) DZero (RValue v) = Done r ∧
       exactly Float32 (NInt (- 2 ^ 63)) r.
Proof.
  intros v. apply (numbers_exact (λ _, any) (λ _ _, false) id 0 (TBasic Float32) Float32 DZero v (NInt (- 2 ^ 63)));
    [reflexivity | reflexivity |]. split; vm_compute; congruence.
Defined.

(** NaN is refused by a field of 32 bits, which could hold it. *)
Lemma nan_refused :
  assign (λ _, any) (λ _ _, false) id 1 (TBasic Float32) DZero (RValue (VFloat 0x7FF8000000000000)) =
  Done (inl (PrecisionError (TBasic Float32) (NFloat S754_nan))).
Proof. reflexivity. Qed.
