(* ===== verification/MappingFacts.v ===== *)
(** Object mapping: which field a property goes to, and that [MapToStruct] fills the
    fields with the properties. *)

From S2P Require Import Prelude Values Errors Outgoing Mapping.
Import objects.
#[local] Open Scope go_scope.

(** * The field of a name *)

Abbreviation depth f := (length (fi_index f)).

(** The number of fields at a depth. *)
Definition at_depth (n : nat) (fs : list fieldInfo) : nat := length (filter (λ f, depth f = n) fs).

Lemma at_depth_app n fs gs : at_depth n (fs ++ gs) = (at_depth n fs + at_depth n gs)%nat.
Proof. unfold at_depth. by rewrite filter_app, length_app. Qed.

Lemma at_depth_one n f : at_depth n [f] = if decide (depth f = n) then 1%nat else 0%nat.
Proof. unfold at_depth. rewrite filter_cons. by case_decide. Qed.

Lemma at_depth_elem f fs : f ∈ fs → (1 <= at_depth (depth f) fs)%nat.
Proof.
  intros Hf. unfold at_depth. assert (f ∈ filter (λ g, depth g = depth f) fs) as H by (by apply list_elem_of_filter).
  destruct (filter _ _); [by apply not_elem_of_nil in H | simpl; lia].
Qed.

Lemma at_depth_none n fs : (∀ f, f ∈ fs → depth f ≠ n) → at_depth n fs = 0%nat.
Proof.
  intros Hn. unfold at_depth. destruct (filter _ fs) as [| f l] eqn:E; [done |].
  assert (f ∈ filter (λ f, depth f = n) fs) as H by (rewrite E; left).
  apply list_elem_of_filter in H as [H1 H2]. by destruct (Hn f).
Qed.

(** The loop keeps a shallowest field, and knows whether it is the only one. *)
Lemma contend_inv fs f w ambiguous :
  foldl contend (f, false) fs = (w, ambiguous) →
  w ∈ f :: fs ∧ (∀ g, g ∈ f :: fs → depth w <= depth g)%nat ∧
  ambiguous = bool_decide (at_depth (depth w) (f :: fs) ≠ 1%nat).
Proof.
  revert w ambiguous. induction fs as [| x fs IH] using rev_ind; intros w amb.
  { intros [= <- <-]. split; [by left |]. split; [intros g Hg; by apply list_elem_of_singleton in Hg as -> |].
    rewrite at_depth_one, decide_True by done. done. }
  rewrite foldl_snoc. destruct (foldl contend (f, false) fs) as [v a] eqn:E.
  destruct (IH v a eq_refl) as (Hin & Hmin & Ha). unfold contend.
  change (f :: fs ++ [x]) with ((f :: fs) ++ [x]).
  assert (Hall : ∀ P : fieldInfo → Prop, (∀ g, g ∈ f :: fs → P g) → P x → ∀ g, g ∈ (f :: fs) ++ [x] → P g).
  { intros P H1 H2 g [Hg | Hg]%elem_of_app; [by apply H1 |]. by apply list_elem_of_singleton in Hg as ->. }
  destruct (Nat.ltb_spec (depth x) (depth v)); [| destruct (Nat.eqb_spec (depth x) (depth v)) as [Ed | Ed]];
    intros [= <- <-]; rewrite elem_of_app, at_depth_app, at_depth_one.
  - split; [right; by apply list_elem_of_singleton |]. split.
    + apply Hall; [| done]. intros g Hg. specialize (Hmin g Hg). lia.
    + rewrite at_depth_none, decide_True; [done.. |]. intros g Hg. specialize (Hmin g Hg). lia.
  - split; [by left |]. split; [apply Hall; [done | lia] |]. rewrite decide_True by done.
    symmetry. apply bool_decide_eq_true. pose proof (at_depth_elem v (f :: fs) Hin). lia.
  - split; [by left |]. split; [apply Hall; [done | lia] |]. by rewrite decide_False, Nat.add_0_r.
Qed.

(** [f] is the only shallowest field of [fs]. *)
Definition sole_shallowest (f : fieldInfo) (fs : list fieldInfo) : Prop :=
  f ∈ fs ∧ ∀ g, g ∈ fs → g ≠ f → (depth f < depth g)%nat.

Lemma resolve_spec fs f : NoDup fs → resolve fs = Some f ↔ sole_shallowest f fs.
Proof.
  intros Hnd. unfold resolve. destruct fs as [| x fs]; [split; [done | by intros [?%not_elem_of_nil _]] |].
  destruct (foldl contend (x, false) fs) as [w a] eqn:E.
  apply contend_inv in E as (Hin & Hmin & ->). case_bool_decide as Hc; split.
  - done.
  - (* two fields at the least depth *)
    intros [Hf Hs]. exfalso. apply Hc.
    assert (w = f) as ->. { destruct (decide (w = f)); [done |]. specialize (Hs w Hin n). specialize (Hmin f Hf). lia. }
    unfold at_depth. enough (filter (λ g, depth g = depth f) (x :: fs) = [f]) as -> by done.
    assert (Hsub : ∀ g, g ∈ filter (λ g, depth g = depth f) (x :: fs) → g = f).
    { intros g [Hd Hg]%list_elem_of_filter. destruct (decide (g = f)); [done |]. specialize (Hs g Hg n). lia. }
    assert (f ∈ filter (λ g, depth g = depth f) (x :: fs)) as Hff by (by apply list_elem_of_filter).
    assert (NoDup (filter (λ g, depth g = depth f) (x :: fs))) as Hnf by (by apply NoDup_filter).
    destruct (filter _ _) as [| a [| b l]]; [by apply not_elem_of_nil in Hff | f_equal; apply Hsub; left |].
    exfalso. apply NoDup_cons in Hnf as [Hnf _]. apply Hnf. rewrite (Hsub a), (Hsub b) by set_solver. left.
  - intros [= <-]. split; [done |]. intros g Hg Hne. specialize (Hmin g Hg).
    destruct (decide (depth g = depth w)) as [Ed |]; [| lia]. exfalso. revert Hc.
    apply elem_of_Permutation in Hin as [l Hl].
    assert (g ∈ l) as Hgl. { rewrite Hl in Hg. by apply elem_of_cons in Hg as [-> |]. }
    apply elem_of_Permutation in Hgl as [l' Hl']. unfold at_depth. rewrite Hl, Hl'.
    rewrite !filter_cons, !decide_True by done. simpl. lia.
  - intros [Hf Hs]. f_equal. destruct (decide (w = f)); [done |]. specialize (Hs w Hin n). specialize (Hmin f Hf). lia.
Qed.

Abbreviation named n := (filter (λ f, fi_name f = n)).

Lemma groups_get fs n :
  map_get n (foldl add_to_group [] fs) = match named n fs with [] => None | l => Some l end.
Proof.
  induction fs as [| f fs IH] using rev_ind; [done |].
  rewrite foldl_snoc, filter_app, filter_cons. unfold add_to_group at 1. rewrite map_get_set.
  destruct (decide (n = fi_name f)) as [-> | Hn].
  - rewrite IH, decide_True by done. by destruct (named (fi_name f) fs).
  - rewrite decide_False, IH by congruence. simpl. by rewrite app_nil_r.
Qed.

Lemma groups_wf fs : map_wf (foldl add_to_group [] fs).
Proof.
  induction fs as [| f fs IH] using rev_ind; [constructor |].
  rewrite foldl_snoc. by apply map_set_wf.
Qed.

Lemma elem_map_get {A} k (a : A) m : map_wf m → (k, a) ∈ m → map_get k m = Some a.
Proof.
  unfold map_wf. induction m as [| [k' b] m IH]; simpl; [by intros _ ?%not_elem_of_nil |].
  intros [Hk Hm]%NoDup_cons [[= -> ->] | Hin]%elem_of_cons; [by rewrite decide_True |].
  rewrite decide_False; [by apply IH |]. intros ->. apply Hk, list_elem_of_fmap. by exists (k', a).
Qed.

Section Select.
Context {A B : Type} (F : A → option B).

(** Keeping the entries to which [F] gives a value. *)
Definition select (m : gomap A) : gomap B := omap (λ g : string * A, pair g.1 <$> F g.2) m.

Lemma select_keys m k : k ∈ (select m).*1 → k ∈ m.*1.
Proof.
  induction m as [| [k' a] m IH]; [done |]. unfold select in *. simpl.
  destruct (F a); simpl; rewrite ?elem_of_cons; naive_solver.
Qed.

Lemma select_wf m : map_wf m → map_wf (select m).
Proof.
  unfold map_wf. induction m as [| [k a] m IH]; [done |]. simpl. intros [Hk Hm]%NoDup_cons.
  unfold select. simpl. destruct (F a); simpl; [| by apply IH].
  apply NoDup_cons. split; [| by apply IH]. intros ?%select_keys. done.
Qed.

Lemma select_get m n : map_wf m → map_get n (select m) = map_get n m ≫= F.
Proof.
  unfold map_wf. induction m as [| [k a] m IH]; [done |]. simpl. intros [Hk Hm]%NoDup_cons.
  unfold select. simpl. destruct (decide (n = k)) as [-> | Hn]; destruct (F a) eqn:E; simpl.
  - by rewrite decide_True.
  - fold (select m). rewrite IH by done.
    destruct (map_get k m) eqn:G; [| done]. apply map_get_elem in G.
    destruct Hk. apply list_elem_of_fmap. by eexists (_, _).
  - rewrite decide_False by done. by apply IH.
  - by apply IH.
Qed.
End Select.

Lemma index_wf fs : map_wf (index_fields fs).
Proof. apply (select_wf resolve), groups_wf. Qed.

Lemma index_get n fs : map_get n (index_fields fs) = resolve (named n fs).
Proof.
  unfold index_fields. fold (select resolve (foldl add_to_group [] fs)).
  rewrite select_get, groups_get by apply groups_wf. by destruct (named n fs).
Qed.

(** * Index paths *)

Lemma mapM_Done {A B} (P : A → B → Prop) (f : A → outcome B) l out :
  (∀ x y, x ∈ l → f x = Done y → P x y) → mapM f l = Done out → Forall2 P l out.
Proof.
  revert out. induction l as [| x l IH]; intros out HP; simpl; [by intros [= <-] |].
  unfold mbind, outcome_bind.
  destruct (f x) as [y | |] eqn:E; [| done..]. destruct (mapM f l) as [ys | |]; [| done..].
  intros [= <-]. constructor; [apply HP; [left | done] |]. apply IH; [| done]. intros z w Hz. apply HP. by right.
Qed.

Definition incomparable (p q : list nat) : Prop := ¬ p `prefix_of` q ∧ ¬ q `prefix_of` p.

Lemma incomparable_sym p q : incomparable p q → incomparable q p.
Proof. unfold incomparable. naive_solver. Qed.

Lemma incomparable_cons i p j q : incomparable (i :: p) (j :: q) ↔ i ≠ j ∨ (i = j ∧ incomparable p q).
Proof.
  unfold incomparable. destruct (decide (i = j)) as [-> | Hn].
  - split; [intros [H1 H2]; right; split; [done |] | intros [? | [_ [H1 H2]]]; [done |]].
    + split; intros ?; [apply H1 | apply H2]; by apply prefix_cons.
    + split; intros ?%prefix_cons_inv_2; done.
  - split; [by left | intros _]. split; intros ?%prefix_cons_inv_1; congruence.
Qed.

Lemma incomparable_app p i q j r : i ≠ j → incomparable (p ++ i :: q) (p ++ j :: r).
Proof.
  intros Hn. induction p as [| x p IH]; simpl; apply incomparable_cons; [by left | by right].
Qed.

Abbreviation apart := (ForallOrdPairs (λ f g, incomparable (fi_index f) (fi_index g))).

Lemma ForallOrdPairs_app {A} (R : A → A → Prop) l1 l2 :
  ForallOrdPairs R l1 → ForallOrdPairs R l2 → (∀ x y, x ∈ l1 → y ∈ l2 → R x y) → ForallOrdPairs R (l1 ++ l2).
Proof.
  intros H1 H2. induction H1 as [| x l Hx H IH]; intros HR; simpl; [done |].
  constructor; [apply Forall_app; split; [done |] | apply IH].
  - apply Forall_forall. intros y Hy. apply HR; [left | done].
  - intros a b Ha Hb. apply HR; [by right | done].
Qed.

Section Paths.
Variable declared : string → gotype.
Abbreviation struct_fields := (struct_fields declared).
Abbreviation embedded_struct := (embedded_struct declared).
Abbreviation buildFields := (buildFields declared).

(** [path_to t p ft]: the index [p] of [t] leads through embedded structs to a field
    of type [ft]. *)
Inductive path_to : gotype → list nat → gotype → Prop :=
| path_field t fs i f : struct_fields t = Some fs → fs !! i = Some f → path_to t [i] (sf_Type f)
| path_embed t fs i f t' p ft :
    struct_fields t = Some fs → fs !! i = Some f → embedded_struct f = Some t' → path_to t' p ft →
    path_to t (i :: p) ft.

Lemma indexed_lookup {A} (l : list A) i x : (i, x) ∈ imap pair l → l !! i = Some x.
Proof.
  intros [j Hj]%list_elem_of_lookup. rewrite list_lookup_imap in Hj.
  destruct (l !! j) eqn:E; simpl in Hj; by simplify_eq.
Qed.

Lemma indexed_keys {A} (l : list A) : NoDup (imap pair l).*1.
Proof.
  apply NoDup_alt. intros i j k. rewrite !list_lookup_fmap, !list_lookup_imap.
  destruct (l !! i), (l !! j); simpl; congruence.
Qed.

(** The fields that a struct field gives rise to lie below its index. *)
Definition below (path : list nat) (t : gotype) (f : fieldInfo) : Prop :=
  ∃ p ft, fi_index f = path ++ p ∧ path_to t p ft.

Lemma groups_apart path (ps : list (nat * StructField gotype)) out :
  NoDup ps.*1 →
  Forall2 (λ p gs, apart gs ∧ ∀ g, g ∈ gs → ∃ q, fi_index g = path ++ p.1 :: q) ps out →
  apart (mjoin out).
Proof.
  intros Hnd H. induction H as [| [i f] gs ps out [Ha Hi] H IH]; [constructor |].
  simpl in *. apply NoDup_cons in Hnd as [Hni Hnd].
  apply ForallOrdPairs_app; [done | by apply IH |].
  intros g g' Hg (gs' & Hg' & Hgs')%list_elem_of_join.
  destruct (Hi g Hg) as [q ->].
  apply list_elem_of_lookup in Hgs' as [k Hk]. destruct (Forall2_lookup_r _ _ _ _ _ H Hk) as ([j f'] & Hj & _ & Hp).
  destruct (Hp g' Hg') as [q' ->]. apply incomparable_app. simpl. intros ->.
  apply Hni, list_elem_of_fmap. exists (j, f'). split; [done |]. by eapply list_elem_of_lookup_2.
Qed.

Lemma plain_apart idx f : apart (plain_info idx f) ∧ ∀ g, g ∈ plain_info idx f → fi_index g = idx.
Proof.
  unfold plain_info. repeat case_match; (split; [repeat constructor |]); intros g Hg;
    first [by apply not_elem_of_nil in Hg | by apply list_elem_of_singleton in Hg as ->].
Qed.

Lemma buildFields_paths fuel t path fs :
  buildFields fuel t path = Done fs → apart fs ∧ ∀ f, f ∈ fs → below path t f.
Proof.
  revert t path fs. induction fuel as [| fuel IH]; intros t path out; [done |]. simpl.
  destruct (struct_fields t) as [fs |] eqn:Ht; [| done].
  unfold mbind at 1, outcome_bind. destruct (mapM _ _) as [gs | |] eqn:E; [| done..]. intros [= <-].
  apply (mapM_Done (λ p g, apart g ∧ ∀ f, f ∈ g → ∃ q ft, fi_index f = path ++ p.1 :: q ∧ path_to t (p.1 :: q) ft)) in E.
  2: { intros [i f] g Hi%indexed_lookup. simpl. destruct (embedded_struct f) as [t' |] eqn:Ef.
    - intros [Ha Hb]%IH. split; [done |]. intros h (p & ft & -> & Hp)%Hb. exists p, ft.
      rewrite <- app_assoc. split; [done |]. by eapply path_embed.
    - intros [= <-]. destruct (plain_apart (path ++ [i]) f) as [Ha Hb]. split; [done |].
      intros h ->%Hb. exists [], (sf_Type f). split; [done |]. by eapply path_field. }
  split.
  - eapply groups_apart; [apply indexed_keys |]. eapply Forall2_impl; [exact E |].
    intros p g [Ha Hb]. split; [done |]. intros h (q & ft & -> & _)%Hb. by exists q.
  - intros f (g & Hf & [k Hk]%list_elem_of_lookup)%list_elem_of_join.
    destruct (Forall2_lookup_r _ _ _ _ _ E Hk) as (p & _ & _ & Hb). destruct (Hb f Hf) as (q & ft & ? & ?).
    by exists (p.1 :: q), ft.
Qed.

Lemma apart_NoDup fs : apart fs → NoDup fs.
Proof.
  induction 1 as [| f fs Hf H IH]; constructor; [| done].
  intros Hin. rewrite Forall_forall in Hf. by destruct (Hf f Hin).
Qed.

(** ** Promotion *)

(** [f] embeds the struct [t], by value or through a pointer, and has no tag. *)
Definition embeds (f : StructField gotype) (t : gotype) : Prop :=
  sf_Anonymous f = true ∧ sf_Tag f = "" ∧ is_Some (struct_fields t) ∧
  (underlying declared (sf_Type f) = TPtr t ∨
   sf_Type f = t ∧ ∀ t', underlying declared (sf_Type f) ≠ TPtr t').

(** The name of a field that is mapped itself: an exported field that the tag does not
    skip, under the name of the tag or its own. *)
Definition own_name (f : StructField gotype) (name : string) : Prop :=
  sf_IsExported f = true ∧ sf_Tag f ≠ "-" ∧
  name = (let tagged := (mapping.parseTag (sf_Tag f)).1 in if decide (tagged = "") then sf_Name f else tagged).

(** [promoted t p name]: through embedded structs at every index but the last, [p] leads
    from [t] to a field with that name. *)
Inductive promoted : gotype → list nat → string → Prop :=
| promoted_own t fs i f name :
    struct_fields t = Some fs → fs !! i = Some f → (∀ t', ¬ embeds f t') → own_name f name →
    promoted t [i] name
| promoted_embedded t fs i f t' p name :
    struct_fields t = Some fs → fs !! i = Some f → embeds f t' → promoted t' p name →
    promoted t (i :: p) name.

Lemma embedded_struct_spec f t : embedded_struct f = Some t ↔ embeds f t.
Proof.
  unfold objects.embedded_struct, embeds. split.
  - destruct (sf_Anonymous f); [| done]. case_bool_decide; [| done]. simpl. intros Ht.
    destruct (objects.struct_fields declared _) as [fs |] eqn:E; [| done]. injection Ht as <-.
    do 2 (split; [done |]). split; [by eexists |].
    destruct (underlying declared (sf_Type f)) eqn:Hu; try (by left); right; done.
  - intros (-> & -> & [fs Hfs] & Ht). rewrite bool_decide_eq_true_2 by done. simpl.
    destruct Ht as [Hu | [<- Hu]]; [by rewrite Hu, Hfs |].
    destruct (underlying declared (sf_Type f)) eqn:E; try (by rewrite Hfs). by destruct (Hu g).
Qed.

Lemma embedded_struct_none f : embedded_struct f = None ↔ ∀ t, ¬ embeds f t.
Proof.
  setoid_rewrite <- embedded_struct_spec. destruct (embedded_struct f) as [t |].
  - split; [done |]. intros H. by destruct (H t).
  - done.
Qed.

Lemma plain_info_spec idx f name :
  (∃ g, g ∈ plain_info idx f ∧ fi_name g = name) ↔ own_name f name.
Proof.
  unfold plain_info, own_name. destruct (sf_IsExported f); simpl.
  2: { split; [by intros (g & ?%not_elem_of_nil & _) | by intros []]. }
  case_decide as Ht.
  { split; [by intros (g & ?%not_elem_of_nil & _) | by intros (_ & ? & _)]. }
  destruct (mapping.parseTag (sf_Tag f)) as [tagged omit]. cbn [fst]. split.
  - intros (g & ->%list_elem_of_singleton & <-). done.
  - intros (_ & _ & ->). eexists. split; [by apply list_elem_of_singleton | done].
Qed.

Lemma indexed_elem {A} (l : list A) i x : l !! i = Some x → (i, x) ∈ imap pair l.
Proof. intros H. apply list_elem_of_lookup. exists i. by rewrite list_lookup_imap, H. Qed.

(** [buildFields] lists exactly the promoted fields. *)
Lemma buildFields_promoted fuel t path fs :
  buildFields fuel t path = Done fs →
  ∀ p name, (∃ f, f ∈ fs ∧ fi_index f = path ++ p ∧ fi_name f = name) ↔ promoted t p name.
Proof.
  revert t path fs. induction fuel as [| fuel IH]; intros t path out; [done |]. simpl.
  destruct (struct_fields t) as [fs |] eqn:Ht; [| done].
  unfold mbind at 1, outcome_bind. destruct (mapM _ _) as [gs | |] eqn:E; [| done..]. intros [= <-].
  apply (mapM_Done (λ p g, ∀ idx name,
    (∃ f, f ∈ g ∧ fi_index f = idx ∧ fi_name f = name) ↔
    match embedded_struct p.2 with
    | Some t' => ∃ q, idx = path ++ p.1 :: q ∧ promoted t' q name
    | None => idx = path ++ [p.1] ∧ own_name p.2 name
    end)) in E.
  2: { intros [i f] g _. simpl. destruct (embedded_struct f) as [t' |] eqn:Ef.
    - intros Hg idx name. split.
      + intros (h & Hh & <- & <-). destruct (buildFields_paths _ _ _ _ Hg) as [_ Hb].
        destruct (Hb h Hh) as (q & ft & Hq & _). exists q. rewrite Hq, <- app_assoc. split; [done |].
        apply (IH _ _ _ Hg). by exists h.
      + intros (q & -> & Hq). apply (IH _ _ _ Hg) in Hq as (h & Hh & Hi & Hn). exists h.
        rewrite Hi, <- app_assoc. done.
    - intros [= <-] idx name. destruct (plain_apart (path ++ [i]) f) as [_ Hb]. split.
      + intros (h & Hh & <- & <-). split; [by apply Hb |]. apply (plain_info_spec (path ++ [i])). by exists h.
      + intros [-> Hn]. apply (plain_info_spec (path ++ [i])) in Hn as (h & Hh & Hn). exists h. auto. }
  intros p name. split.
  - intros (f & (g & Hf & [k Hk]%list_elem_of_lookup)%list_elem_of_join & Hi & Hn).
    destruct (Forall2_lookup_r _ _ _ _ _ E Hk) as ([i sf] & Hs & Hg). simpl in Hg.
    pose proof (indexed_lookup _ _ _ (list_elem_of_lookup_2 _ _ _ Hs)) as Hsf.
    pose proof (proj1 (Hg (path ++ p) name) ltac:(by exists f)) as H.
    destruct (embedded_struct sf) as [t' |] eqn:Ef.
    + destruct H as (q & Hq & Hpr). apply app_inv_head in Hq as ->.
      eapply promoted_embedded; [done.. | by apply embedded_struct_spec | done].
    + destruct H as [Hq Ho]. apply app_inv_head in Hq as ->.
      eapply promoted_own; [done.. | by apply embedded_struct_none | done].
  - assert (Hgo : ∀ i sf, fs !! i = Some sf → ∃ g, g ∈ gs ∧ ∀ idx name,
      (∃ f, f ∈ g ∧ fi_index f = idx ∧ fi_name f = name) ↔
      match embedded_struct sf with
      | Some t' => ∃ q, idx = path ++ i :: q ∧ promoted t' q name
      | None => idx = path ++ [i] ∧ own_name sf name
      end).
    { intros i sf Hsf%indexed_elem. apply list_elem_of_lookup in Hsf as [k Hk].
      destruct (Forall2_lookup_l _ _ _ _ _ E Hk) as (g & Hgk & Hg). exists g.
      split; [by eapply list_elem_of_lookup_2 | exact Hg]. }
    intros Hp. destruct Hp as [t fs' i sf name Ht' Hsf Hne Ho | t fs' i sf t' q name Ht' Hsf He Hq];
      rewrite Ht in Ht'; injection Ht' as <-; destruct (Hgo i sf Hsf) as (g & Hgs & Hg).
    + apply embedded_struct_none in Hne. rewrite Hne in Hg.
      destruct (proj2 (Hg (path ++ [i]) name) (conj eq_refl Ho)) as (f & Hf & Hi & Hn).
      exists f. split; [| done]. apply list_elem_of_join. by exists g.
    + apply embedded_struct_spec in He. rewrite He in Hg.
      destruct (proj2 (Hg (path ++ i :: q) name)) as (f & Hf & Hi & Hn); [by exists q |].
      exists f. split; [| done]. apply list_elem_of_join. by exists g.
Qed.

(** The only shallowest of the promoted fields with a name. *)
Definition selected (t : gotype) (name : string) (p : list nat) : Prop :=
  promoted t p name ∧ ∀ q, promoted t q name → q ≠ p → (length p < length q)%nat.

Lemma apart_index fs f g : apart fs → f ∈ fs → g ∈ fs → fi_index f = fi_index g → f = g.
Proof.
  induction 1 as [| x fs Hx H IH]; [by intros ?%not_elem_of_nil |]. rewrite Forall_forall in Hx.
  intros [-> | Hf]%elem_of_cons [-> | Hg]%elem_of_cons E; [done | | | by apply IH]; exfalso.
  - destruct (Hx g Hg) as [[] _]. by rewrite E.
  - destruct (Hx f Hf) as [[] _]. by rewrite E.
Qed.

(** C25. A property goes to the field that Go's promotion rules select.  The fields of a
    struct with a name are those it declares and those of the structs it embeds, by
    value or by pointer and to any depth, that are exported and not skipped, under the
    name of their tag or their own; [decodeFieldsOf], when it returns, has for a name
    exactly the index path of the shallowest of them, if that is the only one at its
    depth, and nothing otherwise. *)
Theorem fields_resolved fuel t m :
  decodeFieldsOf declared fuel t = Done m →
  map_wf m ∧ ∀ name p, (∃ f, map_get name m = Some f ∧ fi_index f = p) ↔ selected t name p.
Proof.
  unfold decodeFieldsOf. unfold mbind, outcome_bind.
  destruct (fieldsOf declared fuel t) as [fs | |] eqn:Hfs; [| done..]. intros [= <-].
  split; [apply index_wf |]. destruct (buildFields_paths _ _ _ _ Hfs) as [Ha _].
  pose proof (buildFields_promoted _ _ _ _ Hfs) as Hpr. simpl in Hpr.
  intros name p. setoid_rewrite index_get.
  assert (Hr : ∀ f, resolve (named name fs) = Some f ↔ sole_shallowest f (named name fs)).
  { intros f. by apply resolve_spec, NoDup_filter, apart_NoDup. }
  assert (Hin : ∀ f, f ∈ named name fs ↔ f ∈ fs ∧ fi_name f = name).
  { intros f. rewrite list_elem_of_filter. tauto. }
  setoid_rewrite Hr. unfold sole_shallowest, selected. setoid_rewrite Hin. split.
  - intros (f & [[Hf Hn] Hs] & <-). split; [apply Hpr; by exists f |].
    intros q (g & Hg & <- & Hgn)%Hpr Hne. apply Hs; [done |]. intros ->. done.
  - intros [(f & Hf & <- & Hn)%Hpr Hs]. exists f. split; [| done]. split; [done |].
    intros g [Hg Hgn] Hne. apply Hs; [apply Hpr; by exists g |].
    intros E. apply Hne. by eapply apart_index.
Qed.
End Paths.

(** * Example *)

(** Two embedded structs with the fields [Name] and [Age], and a field [Name]. *)
Definition nested (name : string) : gotype :=
  TStruct [exported "Name" (TBasic String_); exported "Age" (TBasic Int)].
Definition outer : gotype :=
  TStruct [mkStructField "a" (TNamed "a") "" true false; mkStructField "B" (TPtr (TNamed "B")) "" true true;
           exported "Name" (TBasic String_)].

Lemma fields_resolved_witness :
  ∃ m, decodeFieldsOf nested 2 outer = Done m ∧
    ∀ name p, (∃ f, map_get name m = Some f ∧ fi_index f = p) ↔ selected nested outer name p.
Proof. eexists. split; [reflexivity |]. apply (fields_resolved nested 2 outer). reflexivity. Defined.

(** The outer [Name] wins and [Age] is ambiguous. *)
Example outer_fields : decodeFieldsOf nested 2 outer = Done [("Name", mkInfo "Name" [2%nat] false)].
Proof. reflexivity. Qed.
