(* ===== verification/MappingFill.v ===== *)
(** [MapToStruct] fills the fields: assignments along index paths as updates of the
    parts of a variable, and the total correctness of the mapping. *)

From S2P Require Import Prelude Values Errors Mapping MappingFacts.
Import objects.
#[local] Open Scope go_scope.

(** * Parts of a variable *)

Section Parts.
Variable declared : string → gotype.
Abbreviation underlying := (underlying declared).
Abbreviation struct_fields := (struct_fields declared).
Abbreviation field := (field declared).
Abbreviation set_field := (set_field declared).
Abbreviation read_field := (read_field declared).
Abbreviation path_to := (path_to declared).

(** A field of a struct or of what a pointer points to; behind a nil pointer, of the
    struct that would be allocated. *)
Definition enter (i : nat) (t : gotype) (d : dval) : option (StructField gotype * dval) :=
  match underlying t, d with
  | TPtr t', DPtr d' => field i t' d'
  | TPtr t', DZero => field i t' DZero
  | TPtr _, _ => None
  | _, _ => field i t d
  end.

(** The contents at an index path. *)
Fixpoint part (t : gotype) (d : dval) (p : list nat) : option (gotype * dval) :=
  match p with
  | [] => Some (t, d)
  | i :: p => fx ← enter i t d; part (sf_Type fx.1) fx.2 p
  end.

(** No nil pointer on the path is in a field that cannot be set: every embedded
    pointer on the way is exported. *)
Fixpoint settable (canSet : bool) (t : gotype) (p : list nat) : bool :=
  match p with
  | [] => true
  | i :: p =>
      match underlying t with
      | TPtr t' =>
          canSet && match struct_fields t' ≫= (.!! i) with
                    | Some f => settable (sf_IsExported f) (sf_Type f) p | None => false end
      | _ => match struct_fields t ≫= (.!! i) with
             | Some f => settable (sf_IsExported f) (sf_Type f) p | None => false end
      end
  end.

Lemma field_type i t d f x : field i t d = Some (f, x) → struct_fields t ≫= (.!! i) = Some f.
Proof.
  unfold objects.field. intros (fs & Hfs & H)%bind_Some. rewrite Hfs. simpl.
  apply bind_Some in H as (f' & Hf & H). apply bind_Some in H as (l & _ & H). apply bind_Some in H as (y & _ & H).
  by simplify_eq.
Qed.

(** Updating a field and looking at a field. *)
Lemma field_set i j t d f x y :
  field i t d = Some (f, x) → field j t (set_field i t d y) = if decide (i = j) then Some (f, y) else field j t d.
Proof.
  unfold objects.field, objects.set_field. destruct (struct_fields t) as [fs |]; [| done]. simpl.
  destruct (fs !! i) as [g |] eqn:Hi; [| done]. simpl.
  destruct (expand (length fs) d) as [l |] eqn:El; [| done]. simpl.
  destruct (l !! i) as [z |] eqn:Hl; [| done]. simpl. intros [= <- <-].
  case_decide as Hij.
  - subst. rewrite Hi. simpl. by rewrite list_lookup_insert_eq by (by eapply lookup_lt_Some, Hl).
  - destruct (fs !! j); [| done]. simpl. by rewrite list_lookup_insert_ne.
Qed.

Lemma field_zero t fs i f : struct_fields t = Some fs → fs !! i = Some f → field i t DZero = Some (f, DZero).
Proof.
  intros Ht Hf. unfold objects.field. rewrite Ht. simpl. rewrite Hf. simpl.
  rewrite lookup_replicate_2; [done | by eapply lookup_lt_Some].
Qed.

(** A struct behind a pointer or not. *)
Lemma underlying_struct t fs : struct_fields t = Some fs → ∀ t', underlying t ≠ TPtr t'.
Proof. unfold objects.struct_fields. intros H t' E. by rewrite E in H. Qed.

Lemma enter_struct t fs i d : struct_fields t = Some fs → enter i t d = field i t d.
Proof. intros H. unfold enter. destruct (underlying t) eqn:E; try done. by destruct (underlying_struct t fs H _ E). Qed.

Lemma embedded_enter f t' i : 
  embedded_struct declared f = Some t' → enter i (sf_Type f) DZero = field i t' DZero.
Proof.
  unfold objects.embedded_struct. case_match; [| done].
  destruct (objects.struct_fields declared _) as [fs |] eqn:E; [| done]. intros [= <-].
  unfold enter. destruct (underlying (sf_Type f)); try done.
Qed.

(** In a variable with its zero value, all parts are zero values. *)
Lemma part_zero t p ft : path_to t p ft → part t DZero p = Some (ft, DZero).
Proof.
  intros H. 
  assert (∀ t0, (∀ i, enter i t0 DZero = field i t DZero) → part t0 DZero p = Some (ft, DZero)) as Hp.
  { induction H as [t fs i f Ht Hf | t fs i f t' p ft Ht Hf He H IH]; intros t0 H0; simpl; rewrite H0;
      erewrite field_zero by done; simpl; [done |].
    apply IH. intros j. by apply embedded_enter. }
  apply Hp. intros i. destruct H; by eapply enter_struct.
Qed.

(** ** Updates *)

Definition put (i : nat) (t : gotype) (d y : dval) : dval :=
  match underlying t, d with
  | TPtr t', DPtr d' => DPtr (set_field i t' d' y)
  | TPtr t', _ => DPtr (set_field i t' DZero y)
  | _, _ => set_field i t d y
  end.

Definition nil_here (t : gotype) (d : dval) : bool :=
  match underlying t, d with TPtr _, DZero => true | _, _ => false end.

Lemma use_step {E} c t d i p (use : gotype → dval → outcome (E + dval)) f x :
  enter i t d = Some (f, x) →
  use_field declared c t d (i :: p) use =
    if nil_here t d && negb c then Done (inr d)
    else y ←! use_field declared (sf_IsExported f) (sf_Type f) x p use; mret (inr (put i t d y)).
Proof.
  unfold enter, nil_here, put. intros He. cbn [use_field].
  destruct (underlying t); try (rewrite He; done). destruct d; try done; [destruct c; [| done] |]; rewrite He;
    unfold try, mbind, outcome_bind; by destruct (use_field _ _ _ _ _ _) as [[] | |].
Qed.

Lemma read_step t d i p f x :
  enter i t d = Some (f, x) →
  read_field t d (i :: p) = if nil_here t d then Done None else read_field (sf_Type f) x p.
Proof.
  unfold enter, nil_here. intros He. cbn [objects.read_field].
  destruct (underlying t); try (rewrite He; done). destruct d; try done. by rewrite He.
Qed.

Lemma enter_put i j t d f x y :
  enter i t d = Some (f, x) → enter j t (put i t d y) = if decide (i = j) then Some (f, y) else enter j t d.
Proof.
  unfold enter, put. destruct (underlying t); try apply field_set. destruct d; try done; apply field_set.
Qed.

Lemma nil_put i t d f x y : enter i t d = Some (f, x) → nil_here t (put i t d y) = false.
Proof. unfold enter, put, nil_here. destruct (underlying t); try done. by destruct d. Qed.

Lemma try_Done {E A B} (m : outcome (E + A)) (k : A → outcome (E + B)) b :
  try m k = Done (inr b) → ∃ a, m = Done (inr a) ∧ k a = Done (inr b).
Proof. unfold try, mbind, outcome_bind. destruct m as [[e | a] | |]; try done. by exists a. Qed.

(** An update leaves the parts that are not on its path as they are. *)
Lemma use_frame {E} p c t d (use : gotype → dval → outcome (E + dval)) d' :
  is_Some (part t d p) → use_field declared c t d p use = Done (inr d') →
  ∀ q, incomparable p q → is_Some (part t d q) →
    part t d' q = part t d q ∧ ∀ y, read_field t d q = Done (Some y) → read_field t d' q = Done (Some y).
Proof.
  revert c t d d'. induction p as [| i p IH]; intros c t d d' Hp Hu q Hpq Hq.
  { destruct Hpq as [[] _]. apply prefix_nil. }
  destruct q as [| j q]; [destruct Hpq as [_ []]; apply prefix_nil |].
  simpl in Hp, Hq. destruct (enter i t d) as [[f x] |] eqn:Hi; [| by destruct Hp]. simpl in Hp.
  rewrite (use_step _ _ _ _ _ _ f x) in Hu by done. case_match eqn:Hn; [by simplify_eq |].
  apply try_Done in Hu as (y & Hu & [= <-]). cbn [part].
  rewrite (enter_put i j t d f x y) by done. apply incomparable_cons in Hpq as [Hij | [<- Hpq]].
  - rewrite decide_False by done. destruct (enter j t d) as [[g z] |] eqn:Hj; [| by destruct Hq].
    split; [done |]. intros w. rewrite (read_step t d j q g z) by done.
    rewrite (read_step t (put i t d y) j q g z) by (rewrite (enter_put i j t d f x y), decide_False; done).
    rewrite (nil_put i t d f x) by done. by case_match.
  - rewrite decide_True by done. rewrite Hi in Hq |- *. cbn [mbind option_bind fst snd] in Hq |- *.
    destruct (IH _ _ _ _ Hp Hu q Hpq Hq) as [Hpart Hread]. split; [done |]. intros w.
    rewrite (read_step t d i q f x) by done.
    rewrite (read_step t (put i t d y) i q f y) by (rewrite (enter_put i i t d f x y), decide_True; done).
    rewrite (nil_put i t d f x) by done. case_match; [done | apply Hread].
Qed.

(** An update of a settable part applies [use] to the part and stores what it
    returns. *)
Lemma use_part {E} p c t d (use : gotype → dval → outcome (E + dval)) ft x r :
  part t d p = Some (ft, x) → use ft x = Done r →
  (∃ d', use_field declared c t d p use = Done (inr d') ∧
     (settable c t p = true → ∃ y, r = inr y ∧ part t d' p = Some (ft, y) ∧ read_field t d' p = Done (Some y))) ∨
  ∃ e, r = inl e ∧ use_field declared c t d p use = Done (inl e).
Proof.
  revert c t d. induction p as [| i p IH]; intros c t d Hp Hr.
  { simpl in *. simplify_eq. rewrite Hr. destruct r as [e | y]; [right; by exists e |].
    left. exists y. split; [done |]. intros _. by exists y. }
  cbn [part] in Hp. destruct (enter i t d) as [[f z] |] eqn:Hi; [| done]. simpl in Hp.
  rewrite (use_step _ _ _ _ _ _ f z) by done.
  assert (Hset : settable c t (i :: p) = true →
    (nil_here t d && negb c) = false ∧ settable (sf_IsExported f) (sf_Type f) p = true).
  { cbn [settable]. clear IH. unfold enter in Hi. unfold nil_here.
    destruct (underlying t); try (rewrite (field_type _ _ _ _ _ Hi); by intros ->).
    destruct d; try done; rewrite (field_type _ _ _ _ _ Hi); intros [-> ->]%andb_prop; done. }
  destruct (nil_here t d && negb c) eqn:Hn.
  { left. exists d. split; [done |]. by intros [? _]%Hset. }
  destruct (IH (sf_IsExported f) (sf_Type f) z Hp Hr) as [(z' & -> & Hz) | (e & -> & ->)]; [left | right; by exists e].
  cbn [try mbind outcome_bind]. eexists. split; [reflexivity |]. intros [_ Hs]%Hset. destruct (Hz Hs) as (y & -> & Hpart & Hread).
  exists y. split; [done |]. cbn [part].
  rewrite (enter_put i i t d f z z'), decide_True by done. split; [done |].
  rewrite (read_step t _ i p f z') by (rewrite (enter_put i i t d f z z'), decide_True; done).
  by rewrite (nil_put i t d f z).
Qed.

(** ** Parts that cannot be set *)

(** A nil pointer in a field that cannot be set is on the path. *)
Fixpoint frozen (c : bool) (t : gotype) (d : dval) (p : list nat) : bool :=
  match p with
  | [] => false
  | i :: p =>
      match enter i t d with
      | Some (f, x) => nil_here t d && negb c || frozen (sf_IsExported f) (sf_Type f) x p
      | None => false
      end
  end.

Lemma frozen_use {E} p c t d (use : gotype → dval → outcome (E + dval)) :
  frozen c t d p = true →
  ∃ d', use_field declared c t d p use = Done (inr d') ∧ part t d' p = part t d p.
Proof.
  revert c t d. induction p as [| i p IH]; intros c t d Hz; [done |]. cbn [frozen] in Hz.
  destruct (enter i t d) as [[f x] |] eqn:Hi; [| done]. rewrite (use_step _ _ _ _ _ _ f x) by done.
  destruct (nil_here t d && negb c); [by exists d |]. simpl in Hz.
  destruct (IH _ _ _ Hz) as (y & -> & Hy). eexists. split; [reflexivity |]. cbn [part].
  rewrite (enter_put i i t d f x y), decide_True, Hi by done. exact Hy.
Qed.

Lemma frozen_frame {E} p c t d (use : gotype → dval → outcome (E + dval)) d' :
  is_Some (part t d p) → use_field declared c t d p use = Done (inr d') →
  ∀ q, incomparable p q → frozen c t d q = true → frozen c t d' q = true.
Proof.
  revert c t d d'. induction p as [| i p IH]; intros c t d d' Hp Hu q Hpq Hq.
  { destruct Hpq as [[] _]. apply prefix_nil. }
  destruct q as [| j q]; [done |].
  simpl in Hp. destruct (enter i t d) as [[f x] |] eqn:Hi; [| by destruct Hp]. simpl in Hp.
  rewrite (use_step _ _ _ _ _ _ f x) in Hu by done.
  destruct (nil_here t d && negb c) eqn:Hn; [by simplify_eq |].
  apply try_Done in Hu as (y & Hu & [= <-]). cbn [frozen] in Hq |- *.
  rewrite (enter_put i j t d f x y) by done. apply incomparable_cons in Hpq as [Hij | [<- Hpq]].
  - rewrite decide_False by done. destruct (enter j t d) as [[g z] |]; [| done].
    rewrite Hn in Hq. simpl in Hq. rewrite Hq. apply orb_true_r.
  - rewrite decide_True by done. rewrite Hi, Hn in Hq. simpl in Hq.
    rewrite (IH _ _ _ _ Hp Hu q Hpq Hq). apply orb_true_r.
Qed.

Lemma field_of_zero i t f x : field i t DZero = Some (f, x) → x = DZero.
Proof.
  unfold objects.field. destruct (struct_fields t) as [fs |]; [| done]. simpl.
  destruct (fs !! i); [| done]. simpl. intros (y & Hy & ?)%bind_Some.
  apply lookup_replicate in Hy as [-> _]. by simplify_eq.
Qed.

Lemma unsettable_frozen p c t :
  is_Some (part t DZero p) → settable c t p = false → frozen c t DZero p = true.
Proof.
  revert c t. induction p as [| i p IH]; intros c t Hp Hs; [done |].
  cbn [part] in Hp. cbn [frozen settable] in *.
  destruct (enter i t DZero) as [[f x] |] eqn:Hi; [| by destruct Hp]. simpl in Hp.
  unfold enter in Hi. unfold nil_here.
  destruct (underlying t) eqn:Hu; pose proof (field_of_zero _ _ _ _ Hi) as ->;
    pose proof (field_type _ _ _ _ _ Hi) as Hf; rewrite Hf in Hs.
  3: { destruct c; simpl in *; [by apply IH | done]. }
  all: simpl; by apply IH.
Qed.

(** A zero part reads as zero, or lies behind a nil pointer. *)
Lemma read_zero t d p ft :
  part t d p = Some (ft, DZero) → read_field t d p = Done None ∨ read_field t d p = Done (Some DZero).
Proof.
  revert t d. induction p as [| i p IH]; intros t d Hp; cbn [part] in Hp; [simplify_eq; by right |].
  destruct (enter i t d) as [[f x] |] eqn:Hi; [| done]. simpl in Hp.
  rewrite (read_step t d i p f x) by done. case_match; [by left | by apply IH].
Qed.
End Parts.

(** * Results that enough fuel gives *)

Definition converges {A} (m : nat → outcome A) (a : A) : Prop := ∃ N, ∀ fuel, (N <= fuel)%nat → m fuel = Done a.

Lemma converges_ret {A} (a : A) : converges (λ _, Done a) a.
Proof. by exists 0%nat. Qed.

Lemma converges_S {A} (m : nat → outcome A) (k : nat → outcome A) a :
  (∀ fuel, m (S fuel) = k fuel) → converges k a → converges m a.
Proof.
  intros H [N HN]. exists (S N). intros [| fuel] Hf; [lia |]. rewrite H. apply HN. lia.
Qed.

Lemma converges_ext {A} (m k : nat → outcome A) a : (∀ fuel, m fuel = k fuel) → converges k a → converges m a.
Proof. intros H [N HN]. exists N. intros fuel Hf. rewrite H. by apply HN. Qed.

Lemma converges_bind {A B} (m : nat → outcome A) (k : nat → A → outcome B) a b :
  converges m a → converges (λ fuel, k fuel a) b → converges (λ fuel, m fuel ≫= k fuel) b.
Proof.
  intros [N HN] [M HM]. exists (Nat.max N M). intros fuel Hf. rewrite HN by lia. simpl. apply HM. lia.
Qed.

Lemma converges_unique {A} (m : nat → outcome A) a b : converges m a → converges m b → a = b.
Proof. intros [N HN] [M HM]. assert (Done a = Done b) as [= ->]; [| done]. rewrite <- (HN (Nat.max N M)), <- (HM (Nat.max N M)) by lia. done. Qed.

Lemma converges_inl {E A B} (m : nat → outcome (E + A)) (k : nat → A → outcome (E + B)) e :
  converges m (inl e) → converges (λ fuel, try (m fuel) (k fuel)) (inl e).
Proof. intros Hm. eapply converges_bind; [exact Hm | apply converges_ret]. Qed.

Lemma converges_inr {E A B} (m : nat → outcome (E + A)) (k : nat → A → outcome (E + B)) a b :
  converges m (inr a) → converges (λ fuel, k fuel a) b → converges (λ fuel, try (m fuel) (k fuel)) b.
Proof. intros Hm Hk. eapply converges_bind; [exact Hm | exact Hk]. Qed.

(** An update depends on what [use] does to the part, and on nothing else of [use]. *)
Lemma use_ext {E} declared p c t d (use use' : gotype → dval → outcome (E + dval)) ft x :
  part declared t d p = Some (ft, x) → use ft x = use' ft x →
  use_field declared c t d p use = use_field declared c t d p use'.
Proof.
  revert c t d. induction p as [| i p IH]; intros c t d Hp Hu; cbn [part] in Hp; [by simplify_eq |].
  destruct (enter declared i t d) as [[f z] |] eqn:Hi; [| done]. simpl in Hp.
  rewrite !(use_step declared c t d i p _ f z) by done. case_match; [done |].
  by rewrite (IH _ _ _ Hp Hu).
Qed.

(** * Filling *)

Section Fill.
Variable declared : string → gotype.
Variable implements : string → gotype → bool.
Variable order : gomap fieldInfo → gomap fieldInfo.
Abbreviation part := (part declared).
Abbreviation path_to := (path_to declared).
Abbreviation read_field := (read_field declared).
Abbreviation settable := (settable declared).
Abbreviation frozen := (frozen declared true).
Abbreviation assign := (assign declared implements order).

(** The conversion of a property to a type. *)
Definition converts (ft : gotype) (v : value) (r : mapError + dval) : Prop :=
  converges (λ fuel, assign fuel ft DZero (RValue v)) r.

(** The property of a field, if it is there and not null. *)
Definition given (src : gomap value) (name : string) : option value :=
  match map_get name src with Some VNil | None => None | Some v => Some v end.

(** The field holds its property, or its zero value where there is none, or where the
    field is reached only through an unexported embedded pointer. *)
Definition filled (t : gotype) (src : gomap value) (name : string) (p : list nat) (ft : gotype) (out : dval) : Prop :=
  match given src name with
  | Some v =>
      if settable true t p then ∃ x, converts ft v (inr x) ∧ read_field t out p = Done (Some x)
      else read_field t out p = Done None ∨ read_field t out p = Done (Some DZero)
  | None => read_field t out p = Done None ∨ read_field t out p = Done (Some DZero)
  end.

(** The error names a property that cannot be converted to the type of its field. *)
Definition blames (t : gotype) (src : gomap value) (fields : gomap fieldInfo) (e : mapError) : Prop :=
  ∃ name f ft v e', (name, f) ∈ fields ∧ path_to t (fi_index f) ft ∧ given src name = Some v ∧
    converts ft v (inl e') ∧ e = PropertyError name e'.

Lemma fill_field_converges t src name f d ft v r :
  given src name = Some v → part t d (fi_index f) = Some (ft, DZero) → converts ft v r →
  (settable true t (fi_index f) = false → frozen t d (fi_index f) = true) →
  (∃ d', converges (λ fuel, fill_field declared (assign fuel) t src (name, f) d) (inr d') ∧
    (∀ q, incomparable (fi_index f) q → is_Some (part t d q) →
       part t d' q = part t d q ∧ (∀ y, read_field t d q = Done (Some y) → read_field t d' q = Done (Some y)) ∧
       (frozen t d q = true → frozen t d' q = true)) ∧
    (settable true t (fi_index f) = false → part t d' (fi_index f) = Some (ft, DZero)) ∧
    (settable true t (fi_index f) = true →
       ∃ x, r = inr x ∧ part t d' (fi_index f) = Some (ft, x) ∧ read_field t d' (fi_index f) = Done (Some x))) ∨
  ∃ e, r = inl e ∧ converges (λ fuel, fill_field declared (assign fuel) t src (name, f) d) (inl (PropertyError name e)).
Proof.
  intros Hg Hp [N HN] Hz.
  set (use := λ fuel ft fv, property name (assign fuel ft fv (RValue v))).
  assert (He : ∀ fuel, (N <= fuel)%nat →
    fill_field declared (assign fuel) t src (name, f) d = use_field declared true t d (fi_index f) (use N)).
  { intros fuel Hf. unfold fill_field, given in *. cbn [fst snd].
    destruct (map_get name src) as [[] |]; simplify_eq; apply (use_ext declared _ _ _ _ _ _ ft DZero Hp);
      unfold use, property; by rewrite !HN by lia. }
  assert (Hu : use N ft DZero = Done (match r with inl e => inl (PropertyError name e) | inr x => inr x end)).
  { unfold use, property. by rewrite HN by lia. }
  destruct (use_part declared _ true t d (use N) ft DZero _ Hp Hu) as [(d' & Hd & Hs) | (e & Hr & Hd)].
  - left. exists d'. split; [exists N; intros fuel Hf; by rewrite He |]. split.
    + intros q Hq Hiq. destruct (use_frame declared _ true t d (use N) d' ltac:(by eexists) Hd q Hq Hiq) as [H1 H2].
      split; [exact H1 |]. split; [exact H2 |].
      eapply frozen_frame; [by eexists | exact Hd | exact Hq].
    + split; intros Hset.
      { destruct (frozen_use declared _ _ _ _ (use N) (Hz Hset)) as (d1 & Hd1 & Hp1). rewrite Hd in Hd1.
        injection Hd1 as <-. by rewrite Hp1. }
      destruct (Hs Hset) as (y & Hy & Hpart & Hread). destruct r; simplify_eq. by eexists.
  - right. destruct r as [e' |]; simplify_eq. exists e'. split; [done |]. exists N. intros fuel Hf. by rewrite He.
Qed.

Abbreviation index nf := (fi_index (snd nf)).

Lemma fill_converges t src fields d :
  ForallOrdPairs (λ nf ng : string * fieldInfo, incomparable (index nf) (index ng)) fields →
  (∀ name f, (name, f) ∈ fields → ∃ ft, path_to t (fi_index f) ft ∧ part t d (fi_index f) = Some (ft, DZero) ∧
     (settable true t (fi_index f) = false → frozen t d (fi_index f) = true)) →
  (∀ name v ft, given src name = Some v → ∃ r, converts ft v r) →
  ∃ r, converges (λ fuel, fill declared (assign fuel) t src fields d) r ∧
  match r with
  | inr out =>
      (∀ name f ft, (name, f) ∈ fields → part t d (fi_index f) = Some (ft, DZero) →
         filled t src name (fi_index f) ft out) ∧
      ∀ q, (∀ nf, nf ∈ fields → incomparable (index nf) q) → is_Some (part t d q) →
        part t out q = part t d q ∧ ∀ y, read_field t d q = Done (Some y) → read_field t out q = Done (Some y)
  | inl e => blames t src fields e
  end.
Proof.
  intros Ha Hp Hc. revert d Hp. induction Ha as [| [name f] fields Hf Ha IH]; intros d Hp.
  { exists (inr d). split; [apply converges_ret |]. split; [| done]. by intros ? ? ? ?%not_elem_of_nil. }
  rewrite Forall_forall in Hf.
  assert (Hb : ∀ e, blames t src fields e → blames t src ((name, f) :: fields) e).
  { intros e (n & g & ft & v & e' & Hin & H). exists n, g, ft, v, e'. split; [by right | done]. }
  destruct (Hp name f ltac:(left)) as (ft & Hpath & Hpart & Hz).
  destruct (given src name) as [v |] eqn:Hg.
  - (* a property *)
    destruct (Hc name v ft Hg) as [r Hr].
    destruct (fill_field_converges t src name f d ft v r Hg Hpart Hr Hz) as [(d' & Hd & Hframe & Hunset & Hset) | (e & -> & He)].
    2: { exists (inl (PropertyError name e)). split; [by apply converges_inl |].
         exists name, f, ft, v, e. split; [left | done]. }
    destruct (IH d') as (r' & Hr' & H').
    { intros n g Hin. destruct (Hp n g ltac:(by right)) as (gt & Hgt & Hpg & Hzg). exists gt. split; [done |].
      destruct (Hframe (fi_index g) (Hf (n, g) Hin) ltac:(by eexists)) as (-> & _ & Hz'). auto. }
    exists r'. split; [by eapply converges_inr |]. destruct r' as [e | out]; [by apply Hb |].
    destruct H' as [Hfill Hrest]. split.
    + intros n g gt [[= -> ->] | Hin]%elem_of_cons Hgt.
      * unfold filled. rewrite Hg. simplify_eq.
        assert (Ha' : ∀ ng, ng ∈ fields → incomparable (index ng) (fi_index f)) by
          (intros ng Hng; by apply incomparable_sym, Hf).
        destruct (settable true t (fi_index f)) eqn:Hs.
        -- destruct (Hset eq_refl) as (x & -> & Hpx & Hx). exists x. split; [done |].
           by apply Hrest; [| rewrite Hpx |].
        -- specialize (Hunset eq_refl). eapply (read_zero declared).
           rewrite (proj1 (Hrest _ Ha' ltac:(by eexists))). exact Hunset.
      * apply Hfill; [done |]. rewrite (proj1 (Hframe (fi_index g) (Hf (n, g) Hin) ltac:(by eexists))). done.
    + intros q Hq Hiq. destruct (Hframe q (Hq (name, f) ltac:(left)) Hiq) as (H1 & H2 & _).
      destruct (Hrest q) as [H3 H4]; [intros ng Hng; apply Hq; by right | by rewrite H1 |].
      split; [congruence |]. intros y Hy. by apply H4, H2.
  - (* no property *)
    destruct (IH d) as (r & Hr & H'); [intros n g Hin; apply (Hp n g); by right |].
    exists r. split.
    { eapply converges_inr; [| exact Hr]. apply (converges_ext _ (λ _, Done (inr d))); [| apply converges_ret].
      intros fuel. unfold fill_field, given in *. cbn [fst snd]. by destruct (map_get name src) as [[] |]. }
    destruct r as [e | out]; [by apply Hb |]. destruct H' as [Hfill Hrest]. split.
    + intros n g gt [[= -> ->] | Hin]%elem_of_cons Hgt; [| by apply Hfill].
      unfold filled. rewrite Hg. apply (read_zero declared _ _ _ ft).
      rewrite (proj1 (Hrest (fi_index f) ltac:(intros ng Hng; by apply incomparable_sym, Hf) ltac:(by eexists))). done.
    + intros q Hq Hiq. apply Hrest; [| done]. intros ng Hng. apply Hq. by right.
Qed.

(** ** The fields of a type *)

Lemma resolve_elem fs f : resolve fs = Some f → f ∈ fs.
Proof.
  unfold resolve. destruct fs as [| x fs]; [done |]. destruct (foldl contend (x, false) fs) as [w a] eqn:E.
  apply contend_inv in E as (Hin & _). destruct a; [done |]. by intros [= <-].
Qed.

Lemma index_entry fs name f : (name, f) ∈ index_fields fs → f ∈ fs ∧ fi_name f = name.
Proof.
  unfold index_fields. intros ([k l] & Hin & Hf)%list_elem_of_omap. simpl in Hf.
  destruct (resolve l) as [g |] eqn:E; [| done]. injection Hf as -> ->.
  apply resolve_elem in E. apply (elem_map_get _ _ _ (groups_wf fs)) in Hin. rewrite groups_get in Hin.
  assert (l = named name fs ∨ l = []) as [-> | ->] by (destruct (named name fs); naive_solver).
  - apply list_elem_of_filter in E as [? ?]. done.
  - by apply not_elem_of_nil in E.
Qed.

Lemma apart_elem fs f g : apart fs → f ∈ fs → g ∈ fs → f ≠ g → incomparable (fi_index f) (fi_index g).
Proof.
  induction 1 as [| x fs Hx H IH]; [by intros ?%not_elem_of_nil |]. rewrite Forall_forall in Hx.
  intros [-> | Hf]%elem_of_cons [-> | Hg]%elem_of_cons Hn; [done | by apply Hx | by apply incomparable_sym, Hx | by apply IH].
Qed.

Lemma pairs_ordered {A} (R : A → A → Prop) l :
  NoDup l → (∀ x y, x ∈ l → y ∈ l → x ≠ y → R x y) → ForallOrdPairs R l.
Proof.
  induction 1 as [| x l Hx H IH]; intros HR; constructor.
  - apply Forall_forall. intros y Hy. apply HR; [left | by right | congruence].
  - apply IH. intros y z Hy Hz. apply HR; by right.
Qed.

Lemma fields_apart t fuel fs fields :
  fieldsOf declared fuel t = Done fs → fields ≡ₚ index_fields fs →
  ForallOrdPairs (λ nf ng : string * fieldInfo, incomparable (index nf) (index ng)) fields ∧
  ∀ name f, (name, f) ∈ fields → ∃ ft, path_to t (fi_index f) ft.
Proof.
  intros [Ha Hb]%buildFields_paths Hperm. split.
  - apply pairs_ordered; [rewrite Hperm; eapply NoDup_fmap_1, index_wf |].
    intros [n f] [m g] Hf Hg Hne. rewrite Hperm in Hf, Hg. simpl.
    apply index_entry in Hf as [Hf <-], Hg as [Hg <-]. eapply apart_elem; [done.. |]. congruence.
  - intros name f Hf. rewrite Hperm in Hf. apply index_entry in Hf as [Hf _].
    destruct (Hb f Hf) as (p & ft & -> & Hp). by exists ft.
Qed.

(** Types whose embedding and whose pointers come to an end; structs may still refer
    to themselves through pointers, slices and maps. *)
Definition grounded : Prop :=
  (∃ rank : gotype → nat, ∀ t fs f t',
     struct_fields declared t = Some fs → f ∈ fs → embedded_struct declared f = Some t' → (rank t' < rank t)%nat) ∧
  (∃ rank : gotype → nat, ∀ t t', underlying declared t = TPtr t' → (rank t' < rank t)%nat).

Hypothesis Hground : grounded.

Lemma mapM_converges {A B} (f : nat → A → outcome B) l :
  (∀ x, x ∈ l → ∃ y, converges (λ fuel, f fuel x) y) → ∃ ys, converges (λ fuel, mapM (f fuel) l) ys.
Proof.
  induction l as [| x l IH]; intros H; [exists []; apply converges_ret |].
  destruct (H x ltac:(left)) as [y Hy]. destruct IH as [ys Hys]; [intros z Hz; apply H; by right |].
  exists (y :: ys). simpl. eapply converges_bind; [exact Hy |]. eapply converges_bind; [exact Hys | apply converges_ret].
Qed.

Lemma embedded_is_struct f t : embedded_struct declared f = Some t → is_Some (struct_fields declared t).
Proof.
  unfold embedded_struct. case_match; [| done].
  destruct (struct_fields declared _) as [fs |] eqn:E; [| done]. intros [= <-]. by eexists.
Qed.

Lemma fieldsOf_converges t : is_Some (struct_fields declared t) → ∃ fs, converges (λ fuel, fieldsOf declared fuel t) fs.
Proof.
  destruct Hground as [[rank Hrank] _]. unfold fieldsOf. generalize (@nil nat) as path.
  induction t as [t IH] using (induction_ltof1 _ rank). intros path [fs Hfs].
  destruct (mapM_converges (λ fuel p, match embedded_struct declared p.2 with
                                      | Some ft => buildFields declared fuel ft (path ++ [p.1])
                                      | None => mret (plain_info (path ++ [p.1]) p.2)
                                      end) (imap pair fs)) as [out Hout].
  { intros [i f] Hi%indexed_lookup. simpl. destruct (embedded_struct declared f) as [t' |] eqn:Ef.
    - apply IH; [| by eapply embedded_is_struct]. eapply Hrank; [done | by eapply list_elem_of_lookup_2 | done].
    - eexists. apply converges_ret. }
  exists (mjoin out).
  apply (converges_S _ (λ fuel, mapM (λ p, match embedded_struct declared p.2 with
                                           | Some ft => buildFields declared fuel ft (path ++ [p.1])
                                           | None => mret (plain_info (path ++ [p.1]) p.2)
                                           end) (imap pair fs) ≫= λ out, mret (mjoin out))).
  - intros fuel. simpl. by rewrite Hfs.
  - apply (converges_bind _ (λ _ out, mret (mjoin out)) out); [exact Hout | apply converges_ret].
Qed.

Hypothesis Horder : ∀ m, order m ≡ₚ m.

(** The total correctness of [structFromMap], given that of the assignments. *)
Lemma structFromMap_converges t src :
  is_Some (struct_fields declared t) → (∀ name v ft, given src name = Some v → ∃ r, converts ft v r) →
  ∃ r m, converges (λ fuel, decodeFieldsOf declared fuel t) m ∧
    converges (λ fuel, structFromMap declared order (assign fuel) fuel t DZero src) r ∧
    match r with
    | inr out => ∀ name f, (name, f) ∈ m → ∃ ft, path_to t (fi_index f) ft ∧ filled t src name (fi_index f) ft out
    | inl e => blames t src m e
    end.
Proof.
  intros Ht Hc. destruct (fieldsOf_converges t Ht) as [fs Hfs].
  assert (Hm : converges (λ fuel, decodeFieldsOf declared fuel t) (index_fields fs)).
  { apply (converges_bind _ (λ _ fs, mret (index_fields fs)) fs); [exact Hfs | apply converges_ret]. }
  assert (∃ fuel, fieldsOf declared fuel t = Done fs) as [fuel0 Hf0] by (destruct Hfs as [N HN]; exists N; by apply HN).
  destruct (fields_apart t fuel0 fs (order (index_fields fs)) Hf0 (Horder _)) as [Ha Hp].
  destruct (fill_converges t src (order (index_fields fs)) DZero Ha) as (r & Hr & H); [| done |].
  { intros name f (ft & Hft)%Hp. exists ft. pose proof (part_zero _ _ _ _ Hft) as Hz. split; [done |]. split; [done |].
    apply unsettable_frozen. by eexists. }
  exists r, (index_fields fs). split; [done |]. split.
  { apply (converges_bind _ (λ fuel m, fill declared (assign fuel) t src (order m) DZero) (index_fields fs)); done. }
  destruct r as [e | out].
  - destruct H as (name & f & ft & v & e' & Hin & H). rewrite Horder in Hin. by exists name, f, ft, v, e'.
  - destruct H as [Hfill _]. intros name f Hin. rewrite <- Horder in Hin. destruct (Hp name f Hin) as [ft Hft].
    exists ft. split; [done |]. apply Hfill; [done | by apply part_zero].
Qed.

(** ** Assignments end *)

Fixpoint nesting (v : value) : nat :=
  let props (m : gomap value) := S (foldr (λ kv n, Nat.max (nesting kv.2) n) O m) in
  match v with
  | VList l => S (foldr (λ v n, Nat.max (nesting v) n) O l)
  | VMap m => props m
  | VNode n => props (node_Props n)
  | VRelationship r => props (rel_Props r)
  | _ => O
  end.

Lemma foldr_max {A} (g : A → nat) x l : x ∈ l → (g x <= foldr (λ y n, Nat.max (g y) n) O l)%nat.
Proof. induction l as [| y l IH]; [by intros ?%not_elem_of_nil |]. intros [-> | Hx]%elem_of_cons; simpl; [| specialize (IH Hx)]; lia. Qed.

Lemma nesting_props v m name w : propsOf (RValue v) = Some m → given m name = Some w → (nesting w < nesting v)%nat.
Proof.
  intros Hm Hw. assert ((name, w) ∈ m) as Hin.
  { unfold given in Hw. apply map_get_elem. destruct (map_get name m) as [[] |]; by simplify_eq. }
  pose proof (foldr_max (λ kv : string * value, nesting kv.2) _ _ Hin) as H. simpl in H.
  destruct v; simpl in Hm; simplify_eq; simpl; lia.
Qed.

Definition raw_size (r : raw) : nat := match r with RValue v => S (nesting v) | RByte _ => O end.

Lemma slice_size r l x : slice_elems r = Some l → x ∈ l → (raw_size x < raw_size r)%nat.
Proof.
  destruct r as [[] |]; try done; simpl; intros [= <-] (y & -> & Hy)%list_elem_of_fmap; [simpl; lia |].
  pose proof (foldr_max nesting _ _ Hy). simpl. lia.
Qed.

Abbreviation settles := (λ r t, ∃ res, converges (λ fuel, assign fuel t DZero r) res).

Lemma elems_converge te l :
  (∀ x, x ∈ l → settles x te) → ∃ res, converges (λ fuel, assign_elems (assign fuel) te l) res.
Proof.
  induction l as [| x l IH]; intros H; [eexists; apply converges_ret |].
  destruct (H x ltac:(left)) as [[e | d] Hd]; [eexists; by apply converges_inl |].
  destruct IH as [[e | ds] Hds]; [intros y Hy; apply H; by right | |]; eexists; (eapply converges_inr; [exact Hd |]).
  - by apply converges_inl.
  - apply (converges_inr _ (λ _ xs, mret (inr (d :: xs))) ds); [exact Hds | apply converges_ret].
Qed.

Lemma entries_converge te m :
  (∀ kv, kv ∈ m → settles (RValue kv.2) te) → ∃ res, converges (λ fuel, assign_entries (assign fuel) te m) res.
Proof.
  induction m as [| [k v] m IH]; intros H; [eexists; apply converges_ret |].
  destruct (H (k, v) ltac:(left)) as [[e | d] Hd]; [eexists; by apply converges_inl |].
  destruct IH as [[e | ds] Hds]; [intros y Hy; apply H; by right | |]; eexists; (eapply converges_inr; [exact Hd |]).
  - by apply converges_inl.
  - apply (converges_inr _ (λ _ xs, mret (inr ((k, d) :: xs))) ds); [exact Hds | apply converges_ret].
Qed.

(** [return f(x)] after a call that may fail. *)
Lemma then_converges {A B} (m : nat → outcome (mapError + A)) (g : A → B) :
  (∃ r, converges m r) → ∃ r, converges (λ fuel, x ←! m fuel; mret (inr (g x))) r.
Proof.
  intros [[e | a] H]; eexists; [by apply converges_inl |].
  apply (converges_inr _ (λ _ x, mret (inr (g x))) a); [exact H | apply converges_ret].
Qed.

Lemma assign_settles r t : settles r t.
Proof.
  destruct Hground as [_ [rank Hrank]].
  revert t. induction r as [r IHr] using (induction_ltof1 _ raw_size). unfold ltof in IHr.
  intros t. induction t as [t IHt] using (induction_ltof1 _ rank). unfold ltof in IHt.
  assert (Hstep : ∀ k : nat → outcome (mapError + dval),
    (∀ fuel, assign (S fuel) t DZero r = k fuel) → (∃ res, converges k res) → settles r t).
  { intros k Hk [res Hres]. exists res. by eapply converges_S. }
  assert (Hconst : ∀ a, (∀ fuel, assign (S fuel) t DZero r = Done a) → settles r t).
  { intros a Ha. apply (Hstep (λ _, Done a)); [done | eexists; apply converges_ret]. }
  destruct (raw_type r) as [st |] eqn:Hst.
  2: { apply (Hconst (inr DZero)). intros fuel. cbn [objects.assign]. by rewrite Hst. }
  destruct (underlying declared t) as [k | n | t' | te | len te | key te | fs | n | o] eqn:Hu.
  3: { eapply Hstep; [intros fuel; cbn [objects.assign]; rewrite Hst, Hu; reflexivity |].
       apply then_converges, IHt. by apply Hrank. }
  3: { eapply Hstep; [intros fuel; cbn [objects.assign]; rewrite Hst, Hu; reflexivity |]. unfold assignSlice.
       destruct (slice_elems r) as [l |] eqn:El; [| eexists; apply converges_ret].
       apply then_converges, elems_converge. intros x Hx. apply IHr. by eapply slice_size. }
  4: { eapply Hstep; [intros fuel; cbn [objects.assign]; rewrite Hst, Hu; reflexivity |]. unfold assignMap.
       destruct r as [[] |]; try (eexists; apply converges_ret). destruct (negb _); [eexists; apply converges_ret |].
       apply then_converges, entries_converge. intros [k v] Hin. apply IHr. simpl.
       pose proof (foldr_max (λ kv : string * value, nesting kv.2) _ _ Hin). simpl in *. lia. }
  4: { eapply Hstep; [intros fuel; cbn [objects.assign]; rewrite Hst, Hu; reflexivity |].
       destruct (AssignableTo declared implements st t); [eexists; apply converges_ret |].
       destruct r as [v |]; [| eexists; apply converges_ret].
       destruct (propsOf (RValue v)) as [props |] eqn:Ep; [| eexists; apply converges_ret].
       destruct (structFromMap_converges t props) as (res & m & _ & H & _); [| | by exists res].
       - unfold objects.struct_fields. by rewrite Hu.
       - intros name w ft Hw. apply IHr. simpl. pose proof (nesting_props _ _ _ _ Ep Hw). lia. }
  all: eapply Hstep; [intros fuel; cbn [objects.assign]; rewrite Hst, Hu; reflexivity |].
  all: repeat case_match; eexists; apply converges_ret.
Qed.
End Fill.

Section Mapped.
Variable declared : string → gotype.
Variable implements : string → gotype → bool.
Variable order : gomap fieldInfo → gomap fieldInfo.
Variable text : mapError → string.

(** The property or the zero value in every field of [T], and the error of a property
    that cannot be converted. *)
Definition mapped (T : gotype) (src : gomap value) (m : gomap fieldInfo) (r : error + dval) : Prop :=
  match r with
  | inr out =>
      ∀ name f, map_get name m = Some f →
        ∃ ft, path_to declared T (fi_index f) ft ∧
              filled declared implements order T src name (fi_index f) ft out
  | inl e => ∃ e', e = ErrorString (text e') ∧ blames declared implements order T src m e'
  end.

(** ** The properties of a record *)

(** The last column with a name. *)
Definition column (record : Record_) (name : string) : option value :=
  snd <$> last (filter (λ kv : string * value, kv.1 = name) (zip (rec_Keys record) (rec_Values record))).

(** What a record offers under a name: a property of its only value, if that is a node,
    a relationship or a map, and otherwise the value of a column. *)
Definition offers (record : Record_) (name : string) : option value :=
  match rec_Keys record, rec_Values record with
  | [_], VMap m :: _ => map_get name m
  | [_], VNode n :: _ => map_get name (node_Props n)
  | [_], VRelationship r :: _ => map_get name (rel_Props r)
  | _, _ => column record name
  end.

Lemma columns_get keys values m :
  (length keys <= length values)%nat →
  ∃ m', columns keys values m = Done m' ∧
    ∀ name, map_get name m' =
      match last (filter (λ kv : string * value, kv.1 = name) (zip keys values)) with
      | Some kv => Some kv.2
      | None => map_get name m
      end.
Proof.
  revert values m. induction keys as [| k keys IH]; intros [| v values] m Hl; simpl in Hl; try lia.
  1,2: by exists m.
  destruct (IH values (map_set k v m) ltac:(lia)) as (m' & E & Hm). exists m'. split; [exact E |].
  intros name. rewrite Hm, map_get_set. cbn [zip zip_with]. rewrite filter_cons. cbn [fst].
  destruct (filter _ (zip keys values)) as [| kv l]; simpl.
  - repeat case_decide; naive_solver.
  - assert (∃ x, last (kv :: l) = Some x) as [x Hx].
    { destruct (last (kv :: l)) eqn:El; [by eexists | by apply last_None in El]. }
    destruct (decide (k = name)); rewrite ?last_cons_cons, Hx; done.
Qed.

Lemma sourceOf_offers record :
  (length (rec_Keys record) <= length (rec_Values record))%nat →
  ∃ src, sourceOf record = Done src ∧ ∀ name, map_get name src = offers record name.
Proof.
  intros Hl. destruct (columns_get _ _ [] Hl) as (m & E & Hm).
  assert (Hc : ∀ name, map_get name m = column record name).
  { intros name. rewrite Hm. unfold column. by destruct (last _). }
  unfold sourceOf, offers, AsMap. destruct (rec_Keys record) as [| k [| k' ks]] eqn:Ek; [by eauto | | by eauto].
  destruct (rec_Values record) as [| v vs] eqn:Ev; [simpl in Hl; lia |].
  destruct v; simpl; eauto.
Qed.

(** C10. [As] is total and fills the struct.  For a struct type whose embedding and
    pointers come to an end (it may refer to itself otherwise) and any record with a
    value for each key, the mapping ends without a panic, in whatever order the fields
    are visited: either every field that a name selects, promoted ones included, reads
    back as the conversion of what the record offers under that name, and as its zero
    value when that is nothing or null, or when the field is reached only through an
    unexported embedded pointer; or the error is that of a property that cannot be
    converted to the type of its field. *)
Theorem as_fills T record :
  grounded declared → (∀ m, order m ≡ₚ m) → is_Some (struct_fields declared T) →
  (length (rec_Keys record) <= length (rec_Values record))%nat →
  ∃ src m r, (∀ name, map_get name src = offers record name) ∧
    converges (λ fuel, decodeFieldsOf declared fuel T) m ∧
    converges (λ fuel, As declared implements order text fuel T (Some record)) r ∧ mapped T src m r.
Proof.
  intros Hg Ho HT Hl. destruct (sourceOf_offers record Hl) as (src & Hsrc & Hof). exists src.
  destruct (structFromMap_converges declared implements order Hg Ho T src HT) as (r & m & Hm & Hr & H).
  { intros name v ft _. by apply assign_settles. }
  exists m, (match r with inl e => inl (ErrorString (text e)) | inr d => inr d end).
  split; [done |]. split; [done |]. split.
  - destruct HT as [fs HT]. unfold struct_fields in HT.
    apply (converges_ext _ (λ fuel, r ← MapToStruct declared implements order fuel src (TPtr T) (DPtr DZero);
             mret (match r with inl e => inl (ErrorString (text e)) | inr (DPtr out) => inr out | inr out => inr out end))).
    { intros fuel. unfold As. by rewrite Hsrc. }
    assert (Hmt : converges (λ fuel, map_to declared implements order fuel src T DZero) r).
    { eapply converges_S; [| exact Hr]. intros fuel. cbn [map_to]. by destruct (underlying declared T). }
    destruct r as [e | d].
    + apply (converges_bind _ (λ _ r, mret _) (inl e)); [by apply converges_inl | apply converges_ret].
    + apply (converges_bind _ (λ _ r, mret _) (inr (DPtr d))); [| apply converges_ret].
      apply (converges_inr _ (λ _ y, mret (inr (DPtr y))) d); [exact Hmt | apply converges_ret].
  - destruct r as [e | out]; simpl; [by exists e |]. intros name f Hf. by apply H, map_get_elem.
Qed.
End Mapped.

(** * Examples *)

(** A struct with an embedded pointer and fields of its own type. *)
Definition people (name : string) : gotype :=
  if decide (name = "Base") then TStruct [mkStructField "ID" (TBasic Int32) "id" false true]
  else if decide (name = "Person") then
    TStruct [mkStructField "Base" (TPtr (TNamed "Base")) "" true true;
             exported "Name" (TBasic String_);
             mkStructField "Friends" (TSlice (TPtr (TNamed "Person"))) "friends" false true]
  else TOther name.

Fixpoint embed_rank (t : gotype) : nat :=
  match t with
  | TNamed n => if decide (n = "Person") then 1 else 0
  | TPtr t => embed_rank t
  | TStruct fs => S (foldr (λ f n, Nat.max (embed_rank (sf_Type f)) n) O fs)
  | _ => O
  end.

Fixpoint pointer_rank (t : gotype) : nat := match t with TPtr t => S (pointer_rank t) | _ => O end.

(** No type of the driver embeds a struct or is a pointer. *)
Lemma driver_types_plain n u :
  map_get n driver_types = Some u →
  match u with TStruct fs => Forall (λ f, sf_Anonymous f = false) fs | TPtr _ => False | _ => True end.
Proof.
  intros H%map_get_elem. revert H. 
  assert (Forall (λ nu : string * gotype, match nu.2 with TStruct fs => Forall (λ f, sf_Anonymous f = false) fs
                    | TPtr _ => False | _ => True end) driver_types) as Hall by (repeat constructor).
  rewrite Forall_forall in Hall. intros H. apply (Hall _ H).
Qed.

Lemma people_no_pointer n t : underlying people (TNamed n) ≠ TPtr t.
Proof.
  cbn [underlying]. destruct (map_get n driver_types) as [u |] eqn:E; simpl.
  - apply driver_types_plain in E. by destruct u.
  - unfold people. by repeat case_decide.
Qed.

Lemma people_grounded : grounded people.
Proof.
  split.
  - exists embed_rank. intros t fs f t' Hfs Hf He.
    assert (embed_rank t' = embed_rank (sf_Type f)) as ->.
    { clear Hfs. unfold embedded_struct in He. case_match; [| done].
      apply fmap_Some in He as (l & _ & ->).
      destruct (sf_Type f) as [| n | | | | | | |]; try done. destruct (underlying people (TNamed n)) eqn:E; try done.
      by apply people_no_pointer in E. }
    destruct t as [| n | | | | | fs' | |]; try done.
    + unfold struct_fields in Hfs. cbn [underlying] in Hfs.
      destruct (map_get n driver_types) as [u |] eqn:E; simpl in Hfs.
      * apply driver_types_plain in E. destruct u; simplify_eq. rewrite Forall_forall in E.
        unfold embedded_struct in He. by rewrite (E f Hf) in He.
      * unfold people in Hfs. repeat case_decide; simplify_eq; simpl.
        -- apply list_elem_of_singleton in Hf as ->. done.
        -- rewrite !elem_of_cons, elem_of_nil in Hf.
           destruct Hf as [-> | [-> | [-> | []]]]; simpl; [lia | done | done].
    + injection Hfs as <-. simpl. pose proof (foldr_max (λ f, embed_rank (sf_Type f)) _ _ Hf). simpl in *. lia.
  - exists pointer_rank. intros t t' Ht. destruct t as [| n | | | | | | |]; try done.
    + by apply people_no_pointer in Ht.
    + injection Ht as <-. simpl. lia.
Qed.

Definition trinity : value :=
  VNode (mkNode 1 "4:1" ["Person"]%list
           [("id", VInt 7); ("Name", VString "Trinity"); ("age", VInt 30);
            ("friends", VList [VMap [("Name", VString "Neo")]; VNil])]).

(** A node in the only column of a record, with a friend. *)
Lemma as_fills_witness :
  let record := mkRecord [trinity] ["n"]%list in
  ∃ src m r, map_get "Name" src = Some (VString "Trinity") ∧
    converges (λ fuel, decodeFieldsOf people fuel (TNamed "Person")) m ∧
    converges (λ fuel, As people (λ _ _, false) id (λ _, "") fuel (TNamed "Person") (Some record)) r ∧
    mapped people (λ _ _, false) id (λ _, "") (TNamed "Person") src m r.
Proof.
  intros record.
  destruct (as_fills people (λ _ _, false) id (λ _, "") (TNamed "Person") record)
    as (src & m & r & Hs & H).
  - apply people_grounded.
  - done.
  - by eexists.
  - simpl. lia.
  - exists src, m, r. split; [by rewrite Hs | done].
Defined.

Example trinity_mapped :
  As people (λ _ _, false) id (λ _, "") 9 (TNamed "Person") (Some (mkRecord [trinity] ["n"]%list)) =
  Done (inr (DStruct [DPtr (DStruct [DInt 7]); DRaw (RValue (VString "Trinity"));
                      DSlice [DPtr (DStruct [DZero; DRaw (RValue (VString "Neo")); DZero]); DZero]])).
Proof. reflexivity. Qed.

(** A struct that embeds a pointer to itself, as Go allows. *)
Definition ouroboros (name : string) : gotype :=
  TStruct [mkStructField "Loop" (TPtr (TNamed "Loop")) "" true true; exported "Name" (TBasic String_)].

(** The fields of such a type are never found: [As] recurses until the stack is
    exhausted, whatever the record. *)
Theorem self_embedding_never_ends fuel : decodeFieldsOf ouroboros fuel (TNamed "Loop") = OutOfFuel.
Proof.
  unfold decodeFieldsOf, fieldsOf. enough (∀ path, buildFields ouroboros fuel (TNamed "Loop") path = OutOfFuel) as -> by done.
  induction fuel as [| fuel IH]; intros path; [done |]. simpl. by rewrite IH.
Qed.

(** An unsupported value cannot be taken over by a field of its own type: the
    hydrator makes a pointer, and the destination is compared after its pointer was
    followed. *)
Lemma unsupported_refused u :
  let t := TNamed "dbtype.UnsupportedType" in
  assign (λ _, any) (λ _ _, false) id 2 (TPtr t) DZero (RValue (VUnsupported u)) =
  Done (inl (TypeError t (RValue (VUnsupported u)))).
Proof. reflexivity. Qed.
