(* ===== verification/Helpers.v ===== *)
(** The generic helpers of the package: neo4j/transaction_helpers.go, the type
    assertions of neo4j/result_helpers.go and the predicates on errors of
    neo4j/error.go. *)

From S2P Require Import Prelude Values Errors Outgoing Retry Connection Session Mapping.
#[local] Open Scope go_scope.

Module generic.

(** A value of type [any]: nil, or a type and a value of it. *)
Definition dynamic (A : Type) : Type := option (objects.gotype * A).

Section Casts.
Context {A : Type}.
Variable declared : string → objects.gotype.
Variable implements : string → objects.gotype → bool.

Definition is_interface (T : objects.gotype) : option string :=
  match objects.underlying declared T with objects.TInterface i => Some i | _ => None end.

(** A value of type [T]: for an interface type what it holds, maybe nil, and a value
    of the type itself otherwise. *)
Definition typed (T : objects.gotype) (x : dynamic A) : Prop :=
  match is_interface T, x with
  | Some i, Some (t, _) => i = "" ∨ implements i t = true
  | Some _, None => True
  | None, Some (t, _) => t = T
  | None, None => False
  end.

(** [x.(T)]: the dynamic type has to be [T], or implement it; nil has no type. *)
Definition assert_type (T : objects.gotype) (x : dynamic A) : outcome (dynamic A) :=
  match x with
  | None => Panic
  | Some (t, _) =>
      match is_interface T with
      | Some i => if bool_decide (i = "") || implements i t then Done x else Panic
      | None => if decide (t = T) then Done x else Panic
      end
  end.

(** [None] is the zero value of [T]. *)
Definition castGeneric (T : objects.gotype) (result : error + dynamic A) : outcome (error + dynamic A) :=
  match result with
  | inl err => Done (inl err)
  | inr result => x ← assert_type T result; mret (inr x)
  end.

(** [ExecuteRead] and [ExecuteWrite] around those of the session, which run the work;
    converting its result to [any] leaves it as it is. *)
Definition transactionWorkAdapter {S} (work : GoM S (error + dynamic A)) : GoM S (error + dynamic A) := work.

Definition cast_result {S} (T : objects.gotype) (m : GoM S (error + dynamic A)) : GoM S (error + dynamic A) := λ s,
  match m s with
  | Done (r, s) =>
      match castGeneric T r with Done r => Done (r, s) | Panic => Panic | OutOfFuel => OutOfFuel end
  | Panic => Panic
  | OutOfFuel => OutOfFuel
  end.

Definition ExecuteRead {S} (T : objects.gotype)
    (session_ExecuteRead : GoM S (error + dynamic A) → GoM S (error + dynamic A))
    (work : GoM S (error + dynamic A)) : GoM S (error + dynamic A) :=
  cast_result T (session_ExecuteRead (transactionWorkAdapter work)).
Definition ExecuteWrite {S} (T : objects.gotype)
    (session_ExecuteWrite : GoM S (error + dynamic A) → GoM S (error + dynamic A))
    (work : GoM S (error + dynamic A)) : GoM S (error + dynamic A) :=
  cast_result T (session_ExecuteWrite (transactionWorkAdapter work)).
End Casts.

(** What [AsRecords] and [AsRecord] are given. *)
Inductive from_any : Type :=
| Records (l : list Record_)
| ARecord (r : option Record_)      (* a pointer *)
| Something (type_ : string).

Definition type_text (x : from_any) : string :=
  match x with Records _ => "[]*db.Record" | ARecord _ => "*db.Record" | Something t => t end.

Definition AsRecords (from : error + from_any) : error + list Record_ :=
  match from with
  | inl err => inl err
  | inr (Records recs) => inr recs
  | inr x => inl (UsageError ("Expected type []*Record, not " +:+ type_text x))
  end.

Definition AsRecord (from : error + from_any) : error + option Record_ :=
  match from with
  | inl err => inl err
  | inr (ARecord rec) => inr rec
  | inr x => inl (UsageError ("Expected type *Record, not " +:+ type_text x))
  end.

(** ** Errors (error.go) *)

Definition IsRetryable_ (err : option error) : bool :=
  match err with None => false | Some e => IsRetryable e end.
Definition IsNeo4jError (err : option error) : bool :=
  match err with Some (Neo4jErr _) => true | _ => false end.
Definition IsUsageError (err : option error) : bool :=
  match err with Some (UsageError _) => true | _ => false end.
Definition IsConnectivityError (err : option error) : bool :=
  match err with Some (ConnectivityError _) => true | _ => false end.
Definition IsTransactionExecutionLimit (err : option error) : bool :=
  match err with Some (TransactionExecutionLimit _ _) => true | _ => false end.

Definition deferredClose {S} (show : error → string) (close : GoM S (option error)) (prevErr : option error)
    : GoM S (option error) :=
  err ← close; mret (CombineErrors show prevErr err).
End generic.

Import generic.

Section Facts.
Context {A : Type}.
Variable declared : string → objects.gotype.
Variable implements : string → objects.gotype → bool.

(** A result of the type that the work was declared with comes back as it is, unless
    it is nil. *)
Lemma castGeneric_returns T (x : dynamic A) :
  typed declared implements T x → x ≠ None → castGeneric declared implements T (inr x) = Done (inr x).
Proof.
  unfold typed, castGeneric, assert_type. destruct x as [[t a] |]; [| done]. intros H _.
  destruct (is_interface declared T) as [i |].
  - assert (bool_decide (i = "") || implements i t = true) as ->; [| done].
    destruct H as [-> | ->]; [done | apply orb_true_r].
  - subst t. by rewrite decide_True.
Qed.

(** A transaction function of an interface type that returns nil makes the helpers
    panic, after the transaction is committed. *)
Theorem nil_result_panics {S} T i (session_ExecuteWrite : GoM S (error + dynamic A) → GoM S (error + dynamic A)) work s s' :
  is_interface declared T = Some i → session_ExecuteWrite work s = Done (inr None, s') →
  typed declared implements T (A := A) None ∧
  ExecuteWrite declared implements T session_ExecuteWrite work s = Panic.
Proof.
  intros Hi Hw. split; [unfold typed; by rewrite Hi |].
  unfold ExecuteWrite, transactionWorkAdapter, cast_result. by rewrite Hw.
Qed.
End Facts.
