(* ===== verification/Driver.v ===== *)
(** The driver: neo4j/driver.go, config.go, directrouter.go and the authentication
    of auth_tokens.go and auth/auth.go.

    [NewDriver] reads a URL and a configuration and assembles the parts; sessions are
    those of [Session]; [ExecuteQuery] runs a query in a session of its own. *)

From S2P Require Import Prelude Values Errors Messages Outgoing Router Retry Bolt Connection Bookmarks Session.
From S2P Require Import Encoding Encryption HomeDb ResultSummary.
From stdpp Require Import gmap.
#[local] Open Scope Z_scope.
#[local] Open Scope go_scope.

(** * Strings and URLs of the standard library *)

Module gostrings.

(** White space: what [unicode.IsSpace] accepts, in UTF-8. *)
Definition spaces : list (list byte) :=
  [[Byte.x09]; [Byte.x0a]; [Byte.x0b]; [Byte.x0c]; [Byte.x0d]; [Byte.x20];
   [Byte.xc2; Byte.x85]; [Byte.xc2; Byte.xa0]; [Byte.xe1; Byte.x9a; Byte.x80];
   [Byte.xe2; Byte.x80; Byte.x80]; [Byte.xe2; Byte.x80; Byte.x81]; [Byte.xe2; Byte.x80; Byte.x82];
   [Byte.xe2; Byte.x80; Byte.x83]; [Byte.xe2; Byte.x80; Byte.x84]; [Byte.xe2; Byte.x80; Byte.x85];
   [Byte.xe2; Byte.x80; Byte.x86]; [Byte.xe2; Byte.x80; Byte.x87]; [Byte.xe2; Byte.x80; Byte.x88];
   [Byte.xe2; Byte.x80; Byte.x89]; [Byte.xe2; Byte.x80; Byte.x8a]; [Byte.xe2; Byte.x80; Byte.xa8];
   [Byte.xe2; Byte.x80; Byte.xa9]; [Byte.xe2; Byte.x80; Byte.xaf]; [Byte.xe2; Byte.x81; Byte.x9f];
   [Byte.xe3; Byte.x80; Byte.x80]].

(** [l] without the prefix [p], if it has it. *)
Fixpoint strip (p l : list byte) : option (list byte) :=
  match p, l with
  | [], _ => Some l
  | x :: p, y :: l => if decide (x = y) then strip p l else None
  | _, [] => None
  end.

Fixpoint strip_any (ps : list (list byte)) (l : list byte) : option (list byte) :=
  match ps with
  | [] => None
  | p :: ps => match strip p l with Some l => Some l | None => strip_any ps l end
  end.

(** Each round strips at least a byte. *)
Fixpoint trim_left (fuel : nat) (ps : list (list byte)) (l : list byte) : list byte :=
  match fuel with
  | O => l
  | S fuel => match strip_any ps l with Some l => trim_left fuel ps l | None => l end
  end.

Definition TrimSpace (s : string) : string :=
  let l := bytes_of s in
  let l := trim_left (length l) spaces l in
  string_of (reverse (trim_left (length l) (reverse <$> spaces) (reverse l))).
End gostrings.
Import gostrings.

Module url.

(** The fields of [url.URL] that the driver uses. *)
Record URL : Type := mkURL { Scheme : string; Host : string; Path : string; RawQuery : string }.

(** [validOptionalPort] without the colon. *)
Definition digit (b : byte) : bool := (48 <=? of_byte b) && (of_byte b <=? 57).

(** The text after the last colon. *)
Fixpoint after_colon (l : list byte) : option (list byte) :=
  match l with
  | [] => None
  | b :: l =>
      match after_colon l with
      | Some p => Some p
      | None => if decide (b = Byte.x3a) then Some l else None
      end
  end.

(** [splitHostPort] of [net/url]: the port is what follows the last colon, if it
    consists of digits; brackets around the host are dropped. *)
Definition unbracket (l : list byte) : list byte :=
  match l with
  | Byte.x5b :: _ => if decide (last l = Some Byte.x5d) then removelast (tail l) else l
  | _ => l
  end.

Definition splitHostPort (l : list byte) : list byte * list byte :=
  match after_colon l with
  | Some p =>
      if forallb digit p then (unbracket (take (length l - length p - 1) l), p) else (unbracket l, [])
  | None => (unbracket l, [])
  end.

Definition Port (u : URL) : string := string_of (splitHostPort (bytes_of (Host u))).2.
Definition Hostname (u : URL) : string := string_of (splitHostPort (bytes_of (Host u))).1.
End url.
Import url.

(** * Configuration (config.go) *)

Module config.

Definition MaxInt32 : Z := 2 ^ 31 - 1.
Definition MaxInt64 : Z := 2 ^ 63 - 1.
Definition second : Z := 1000000000.

(** Durations are nanoseconds.  Logger, TLS configuration and certificate provider are
    passed on without being looked at, and left out. *)
Record Config (W : Type) : Type := mkConfig {
  AddressResolver : option (URL → list URL);
  MaxTransactionRetryTime : Z;
  MaxConnectionPoolSize : Z;
  MaxConnectionLifetime : Z;
  ConnectionAcquisitionTimeout : Z;
  ConnectionLivenessCheckTimeout : Z;
  SocketConnectTimeout : Z;
  SocketKeepalive : bool;
  UserAgent : string;
  FetchSize : Z;
  Notifications : NotificationConfig;
  TelemetryDisabled : bool;
  DisableAutoCommitRetries : bool;
  ReadBufferSize : Z;
  PropertyEncryptionProfiles : list (profile.Profile W)
}.
Arguments mkConfig {W}.
Arguments AddressResolver {W}.
Arguments MaxTransactionRetryTime {W}.
Arguments MaxConnectionPoolSize {W}.
Arguments MaxConnectionLifetime {W}.
Arguments ConnectionAcquisitionTimeout {W}.
Arguments ConnectionLivenessCheckTimeout {W}.
Arguments SocketConnectTimeout {W}.
Arguments SocketKeepalive {W}.
Arguments UserAgent {W}.
Arguments FetchSize {W}.
Arguments Notifications {W}.
Arguments TelemetryDisabled {W}.
Arguments DisableAutoCommitRetries {W}.
Arguments ReadBufferSize {W}.
Arguments PropertyEncryptionProfiles {W}.

Section Config.
Context {W : Type}.

Definition defaultConfig : Config W :=
  mkConfig None (30 * second) 100 (3600 * second) (60 * second) MaxInt64 (5 * second) true
    "Go Driver/6.4.0" 0 no_notifications false false 8192 [].

(** It normalises in place, also before a check that fails; the driver is not created
    then, so only the result matters. *)
Definition validateAndNormaliseConfig (c : Config W) : error + Config W :=
  if MaxTransactionRetryTime c <? 0
  then inl (UsageError "Maximum transaction retry time cannot be smaller than 0")
  else if MaxConnectionPoolSize c =? 0
  then inl (UsageError "Maximum connection pool cannot be 0")
  else
    let poolSize := if MaxConnectionPoolSize c <? 0 then MaxInt32 else MaxConnectionPoolSize c in
    let lifetime := if MaxConnectionLifetime c <=? 0 then MaxInt64 else MaxConnectionLifetime c in
    let acquisition := if ConnectionAcquisitionTimeout c <? 0 then -1 else ConnectionAcquisitionTimeout c in
    if ConnectionLivenessCheckTimeout c <? 0
    then inl (UsageError "Connection liveness check timeout cannot be smaller than 0")
    else
      let connect := if SocketConnectTimeout c <? 0 then 0 else SocketConnectTimeout c in
      if bool_decide (dis_names (DisCats (Notifications c)) ≠ []) &&
         bool_decide (dis_names (DisClas (Notifications c)) ≠ [])
      then inl (UsageError ("Notifications cannot be disabled for both categories and classifications " +:+
                            "at the same time."))
      else inr (mkConfig (AddressResolver c) (MaxTransactionRetryTime c) poolSize lifetime acquisition
                  (ConnectionLivenessCheckTimeout c) connect (SocketKeepalive c) (UserAgent c) (FetchSize c)
                  (Notifications c) (TelemetryDisabled c) (DisableAutoCommitRetries c) (ReadBufferSize c)
                  (PropertyEncryptionProfiles c)).
End Config.

(** [NewServerAddress] *)
Definition NewServerAddress (hostname port : string) : option URL :=
  if decide (hostname = "") then None
  else Some (mkURL "" (if decide (port ≠ "") then hostname +:+ ":" +:+ port else hostname) "" "").
End config.

(** * Tokens (auth_tokens.go) *)

Module auth.

Abbreviation Token := (gomap goval).

Definition NoAuth : Token := [("scheme", GString "none")].

Definition BasicAuth (username password realm : string) : Token :=
  [("scheme", GString "basic"); ("principal", GString username); ("credentials", GString password)] ++
  (if decide (realm ≠ "") then [("realm", GString realm)] else []).

Definition KerberosAuth (ticket : string) : Token :=
  [("scheme", GString "kerberos"); ("principal", GString ""); ("credentials", GString ticket)].

Definition BearerAuth (token : string) : Token :=
  [("scheme", GString "bearer"); ("credentials", GString token)].

Definition CustomAuth (scheme username password realm : string) (parameters : gomap goval) : Token :=
  [("scheme", GString scheme); ("principal", GString username)] ++
  (if decide (password ≠ "") then [("credentials", GString password)] else []) ++
  (if decide (realm ≠ "") then [("realm", GString realm)] else []) ++
  (match parameters with [] => [] | _ => [("parameters", GAnyMap parameters)] end).
End auth.

(** * Routers *)

(** The router that never routes (directrouter.go), as the session uses it. *)
Module directRouter.
Definition GetOrUpdateServers (address : string) : error + list string := inr [address].
Definition Servers (address : string) : list string := [address].
Definition GetNameOfDefaultDatabase : error + string := inr DefaultDatabase.
End directRouter.

(** * The driver *)

Module driver.
Import config.

Inductive sessionRouter : Type :=
| direct (address : string)
| routed (address : string) (resolved : option (list string)) (routingContext : gomap string).

Record connector : Type := mkConnector {
  Network : string;
  SkipEncryption : bool;
  SkipVerify : bool;
  RoutingContext : option (gomap string)
}.

(** [pool] is the pool, nil once the driver is closed: [d_open]. *)
Record driver (A W : Type) : Type := mkDriver {
  d_target : URL;
  d_config : Config W;
  d_connector : connector;
  d_router : sessionRouter;
  d_auth : option A;
  d_propertyEncryption : encryption.Encryption W;
  d_cache : homedb.Cache;
  d_open : bool
}.
Arguments mkDriver {A W}.
Arguments d_target {A W}.
Arguments d_config {A W}.
Arguments d_connector {A W}.
Arguments d_router {A W}.
Arguments d_auth {A W}.
Arguments d_propertyEncryption {A W}.
Arguments d_cache {A W}.
Arguments d_open {A W}.

Definition usage (msg : string) : problem := Foreign (UsageError msg).

Definition routingContextAddressKey : string := "address".

(** The loop over the query values, in the order of the iteration. *)
Fixpoint routing_entries (l : gomap (list string)) (ctx : gomap string) : problem + gomap string :=
  match l with
  | [] => inr ctx
  | (k, vs) :: l =>
      match vs with
      | [] => inl (usage ("Empty routing context key '" +:+ k +:+ "'"))
      | [v] =>
          let v := TrimSpace v in
          if decide (v = "") then inl (usage ("Empty routing context value for key '" +:+ k +:+ "'"))
          else if decide (k = routingContextAddressKey)
          then inl (usage ("Illegal key '" +:+ k +:+ "' for routing context"))
          else routing_entries l (map_set k v ctx)
      | _ => inl (usage ("Duplicated routing context key '" +:+ k +:+ "'"))
      end
  end.

Section NewDriver.
Context {A W : Type}.
(** [url.Parse] and [URL.Query] of the standard library. *)
Variable url_Parse : string → error + URL.
Variable url_Query : URL → gomap (list string).
(** [math.Log] for the cache. *)
Variable log : retry.float64 → retry.float64.

Definition routingContextFromUrl (useRouting : bool) (u : URL) : problem + option (gomap string) :=
  if negb useRouting then inr None
  else
    match routing_entries (url_Query u) [] with
    | inl p => inl p
    | inr ctx => inr (Some (map_set routingContextAddressKey (Host u) ctx))
    end.

(** The switch on the scheme: routing, the connector's settings and the address. *)
Definition scheme_settings (u : URL) : problem + (bool * connector * string) :=
  let plain := mkConnector "tcp" true false None in
  let secure := mkConnector "tcp" false false None in
  let trusting := mkConnector "tcp" false true None in
  if decide (Scheme u = "bolt") then inr (false, plain, Host u)
  else if decide (Scheme u = "bolt+unix") then
    if decide (Host u ≠ "") then inl (usage ("Host part should be empty for scheme " +:+ Scheme u))
    else inr (false, mkConnector "unix" true false None, Path u)
  else if decide (Scheme u = "bolt+s") then inr (false, secure, Host u)
  else if decide (Scheme u = "bolt+ssc") then inr (false, trusting, Host u)
  else if decide (Scheme u = "neo4j") then inr (true, plain, Host u)
  else if decide (Scheme u = "neo4j+ssc") then inr (true, trusting, Host u)
  else if decide (Scheme u = "neo4j+s") then inr (true, secure, Host u)
  else inl (usage ("URI scheme " +:+ Scheme u +:+ " is not supported")).

(** [fmt.Sprintf("%s:%s", a.Hostname(), a.Port())] *)
Definition server_name (a : URL) : string := Hostname a +:+ ":" +:+ Port a.

Definition new_router (routing : bool) (address : string) (c : Config W) (u : URL)
    (ctx : option (gomap string)) : sessionRouter :=
  if negb routing then direct address
  else routed address ((λ hook : URL → list URL, server_name <$> hook u) <$> AddressResolver c) (default [] ctx).

(** From the configuration on. *)
Definition assemble (u : URL) (routing : bool) (conn : connector) (address : string) (auth : option A)
    (configurers : list (Config W → Config W)) : problem + driver A W :=
  match validateAndNormaliseConfig (foldl (λ c f, f c) defaultConfig configurers) with
  | inl e => inl (Foreign e)
  | inr c =>
      match encryption.New (PropertyEncryptionProfiles c) with
      | inl p => inl p
      | inr enc =>
          match routingContextFromUrl routing u with
          | inl p => inl p
          | inr ctx =>
              match homedb.NewCache log homedb.DefaultCacheMaxSize with
              | inl e => inl (Foreign e)
              | inr cache =>
                  inr (mkDriver u c (mkConnector (Network conn) (SkipEncryption conn) (SkipVerify conn) ctx)
                         (new_router routing address c u ctx) auth enc cache true)
              end
          end
      end
  end.

(** The variable [auth] is replaced when it is nil, after the driver took it over. *)
Definition NewDriver (target : string) (auth : option A) (configurers : list (Config W → Config W)) :
    problem + driver A W :=
  match url_Parse target with
  | inl e => inl (Foreign e)
  | inr parsed =>
      match scheme_settings parsed with
      | inl p => inl p
      | inr (routing, conn, address) =>
          let '(address, parsed) :=
            if decide (Host parsed ≠ "" ∧ Port parsed = "")
            then (address +:+ ":7687", mkURL (Scheme parsed) (address +:+ ":7687") (Path parsed) (RawQuery parsed))
            else (address, parsed) in
          if negb routing && negb (bool_decide (RawQuery parsed = ""))
          then inl (usage ("Routing context is not supported for URL scheme " +:+ Scheme parsed))
          else assemble parsed routing conn address auth configurers
      end
  end.
End NewDriver.

Definition Target {A W} (d : driver A W) : URL := d_target d.
Definition IsEncrypted {A W} (d : driver A W) : bool := negb (SkipEncryption (d_connector d)).
End driver.
