(* ===== verification/DriverQueries.v ===== *)
(** The calls of the driver that use sessions: NewSession, GetServerInfo,
    VerifyAuthentication and ExecuteQuery of neo4j/driver.go.

    A session of [Session] owns its connections and its environment, so the driver
    hands its own to the session it creates and takes them back afterwards. *)

From S2P Require Import Prelude Values Errors Messages Outgoing Router Retry Bolt Connection Bookmarks Session.
From S2P Require Import ResultSummary.
#[local] Open Scope Z_scope.
#[local] Open Scope go_scope.

(** * Configurations *)

(** [SessionConfig]; [A] are auth tokens, [M] bookmark managers.  The Bolt logger is
    left out. *)
Record SessionConfig (A M : Type) : Type := mkSessionConfig {
  sc_AccessMode : AccessMode;
  sc_Bookmarks : list string;
  sc_DatabaseName : string;
  sc_FetchSize : Z;
  sc_ImpersonatedUser : string;
  sc_BookmarkManager : option M;
  sc_Notifications : NotificationConfig;
  sc_Auth : option A;
  sc_DisableAutoCommitRetries : option bool;
  sc_forceReAuth : bool
}.
Arguments mkSessionConfig {A M}.
Arguments sc_AccessMode {A M}.
Arguments sc_Bookmarks {A M}.
Arguments sc_DatabaseName {A M}.
Arguments sc_FetchSize {A M}.
Arguments sc_ImpersonatedUser {A M}.
Arguments sc_BookmarkManager {A M}.
Arguments sc_Notifications {A M}.
Arguments sc_Auth {A M}.
Arguments sc_DisableAutoCommitRetries {A M}.
Arguments sc_forceReAuth {A M}.

(** [SessionConfig\{\}]; AccessModeWrite is 0. *)
Definition zero_SessionConfig {A M} : SessionConfig A M :=
  mkSessionConfig WriteMode [] "" 0 "" None no_notifications None None false.

(** What of [config.Config] sessions use. *)
Record driverConfig : Type := mkDriverConfig {
  dc_FetchSize : Z;
  dc_TelemetryDisabled : bool;
  dc_DisableAutoCommitRetries : bool;
  dc_MaxTransactionRetryTime : Z;
  dc_MaxConnectionPoolSize : Z
}.

(** The settings that [newSession] derives. *)
Definition session_settings {A M} (c : driverConfig) (sc : SessionConfig A M) : settings :=
  mkSettings (sc_AccessMode sc) (sc_ImpersonatedUser sc) (sc_Notifications sc)
    (if decide (sc_FetchSize sc = 0) then dc_FetchSize c else sc_FetchSize sc)
    (some (sc_BookmarkManager sc))
    (default (dc_DisableAutoCommitRetries c) (sc_DisableAutoCommitRetries sc))
    (dc_TelemetryDisabled c) (dc_MaxTransactionRetryTime c) 1000000000 (dc_MaxConnectionPoolSize c).

Inductive RoutingControl : Type := Write | Read | OtherRouting (n : Z).

Record ExecuteQueryConfiguration (A M : Type) : Type := mkQueryConfig {
  Routing : RoutingControl;
  q_ImpersonatedUser : string;
  q_Database : string;
  q_BookmarkManager : option M;
  TransactionConfigurers : list (TransactionConfig → TransactionConfig);
  q_Auth : option A
}.
Arguments mkQueryConfig {A M}.
Arguments Routing {A M}.
Arguments q_ImpersonatedUser {A M}.
Arguments q_Database {A M}.
Arguments q_BookmarkManager {A M}.
Arguments TransactionConfigurers {A M}.
Arguments q_Auth {A M}.

Module options.
Section Options.
Context {A M : Type}.
Abbreviation Option_ := (ExecuteQueryConfiguration A M → ExecuteQueryConfiguration A M).
Definition ExecuteQueryWithReadersRouting : Option_ := λ c, c <| Routing := Read |>.
Definition ExecuteQueryWithWritersRouting : Option_ := λ c, c <| Routing := Write |>.
Definition ExecuteQueryWithImpersonatedUser (user : string) : Option_ := λ c, c <| q_ImpersonatedUser := user |>.
Definition ExecuteQueryWithDatabase (db : string) : Option_ := λ c, c <| q_Database := db |>.
Definition ExecuteQueryWithBookmarkManager (m : option M) : Option_ := λ c, c <| q_BookmarkManager := m |>.
Definition ExecuteQueryWithoutBookmarkManager : Option_ := λ c, c <| q_BookmarkManager := None |>.
Definition ExecuteQueryWithTransactionConfig (l : list (TransactionConfig → TransactionConfig)) : Option_ :=
  λ c, c <| TransactionConfigurers := l |>.
Definition ExecuteQueryWithAuthToken (auth : A) : Option_ := λ c, c <| q_Auth := Some auth |>.
End Options.
End options.

Definition toSessionConfig {A M} (c : ExecuteQueryConfiguration A M) : SessionConfig A M :=
  mkSessionConfig WriteMode [] (q_Database c) 0 (q_ImpersonatedUser c) (q_BookmarkManager c) no_notifications
    (q_Auth c) None false.

(** * Transformers *)

(** A [ResultTransformer] with its state; the function that makes one returns it
    afresh. *)
Record ResultTransformer (T : Type) : Type := mkTransformer {
  tr_state : Type;
  tr_start : tr_state;
  Accept : option Record_ → tr_state → option error * tr_state;
  Complete : list string → option resultSummary.resultSummary → tr_state → error + T
}.
Arguments tr_state {T}.
Arguments tr_start {T}.
Arguments Accept {T}.
Arguments Complete {T}.

Record EagerResult : Type := mkEagerResult {
  er_Keys : list string;
  er_Records : list (option Record_);
  er_Summary : option resultSummary.resultSummary
}.

Definition EagerResultTransformer : ResultTransformer EagerResult := {|
  tr_state := list (option Record_);
  tr_start := [];
  Accept := λ record records, (None, records ++ [record]);
  Complete := λ keys summary records, inr (mkEagerResult keys records summary)
|}.

(** * The driver and its sessions *)

(** [w_open]: the pool is not nil.  [w_manager] is the bookmark manager of
    ExecuteQuery once there is one. *)
Record world (C E M : Type) : Type := mkWorld {
  w_open : bool;
  w_manager : option M;
  w_conns : list C;
  w_env : E
}.
Arguments mkWorld {C E M}.
Arguments w_open {C E M}.
Arguments w_manager {C E M}.
Arguments w_conns {C E M}.
Arguments w_env {C E M}.

Section Driver.
Context {C E A M : Type} `{idb.Connection C}.
(** The environment of a session that uses a bookmark manager, or none. *)
Variable surroundings : option M → Environment C E.
(** [NewBookmarkManager] with the empty configuration, the home database cache, and
    [pool.Close]. *)
Variable NewBookmarkManager : GoM E M.
Variable cache_Get : string → GoM E (option string).
Variable pool_Close : GoM (list C * E) unit.
Variable show : error → string.
Variable show_duration : Z → string.
Variable cfg : driverConfig.
Abbreviation D := (GoM (world C E M)).
Abbreviation session := (session (C := C) (E := E)).
Abbreviation S_ := (GoM session).

Definition on_w_env {R} (m : GoM E R) : D R := λ w,
  match m (w_env w) with
  | Done (r, e) => Done (r, w <| w_env := e |>)
  | Panic => Panic
  | OutOfFuel => OutOfFuel
  end.

Definition closedDriver : error := UsageError "Trying to create session on closed driver".

(** [NewSession]: an error stands for an [erroredSession]. *)
Definition NewSession (sc : SessionConfig A M) : D (error + session) :=
  o ← go_get w_open;
  if negb o then mret (inl closedDriver)
  else
    k ← on_w_env (ComputeKey (Environment := surroundings (sc_BookmarkManager sc)) (sc_ImpersonatedUser sc));
    let key := match k with inr k => k | inl _ => "" end in
    guess ← on_w_env (cache_Get key);
    w ← go_get id;
    mret (inr (newSession (w_conns w) (w_env w) (sc_DatabaseName sc) (sc_Bookmarks sc) key (default "" guess))).

(** Work in a session that was just created. *)
Definition in_session {R} (s : session) (m : S_ R) : D R := λ w,
  match m s with
  | Done (r, s) => Done (r, w <| w_conns := ss_conns s |> <| w_env := ss_env s |>)
  | Panic => Panic
  | OutOfFuel => OutOfFuel
  end.

(** [use] of a session whose [Close] is deferred; the result is nil if there is an
    error of [use]. *)
Definition with_session {R} (combine : option error → option error → option error) (sc : SessionConfig A M)
    (use : settings → Environment C E → S_ (error + R)) (on_closed : error → error) :
    D (option R * option error) :=
  s ← NewSession sc;
  match s with
  | inl e => mret (None, combine (Some (on_closed e)) (Some e))
  | inr s =>
      let st := session_settings cfg sc in
      let env := surroundings (sc_BookmarkManager sc) in
      in_session s (
        r ← use st env;
        c ← session_Close (H0 := env) show st;
        mret (match r with
              | inl e => (None, combine (Some e) c)
              | inr x => (Some x, combine None c)
              end))
  end.

Definition GetServerInfo : D (option (string * string * ProtocolVersion) * option error) :=
  with_session (CombineErrors show) zero_SessionConfig (λ st env, getServerInfo (H0 := env) show st) id.

Definition VerifyConnectivity : D (option error) :=
  r ← GetServerInfo; mret r.2.

(** [InvalidAuthenticationError] is an error with a text and an inner error. *)
Definition InvalidAuthenticationError (inner : error) : error :=
  WrappedError ("InvalidAuthenticationError: " +:+ show inner) inner.

Definition verification_error (e : error) : error :=
  match e with
  | TokenExpiredError _ _ _ => InvalidAuthenticationError e
  | Neo4jErr n =>
      if decide (Code n = "Neo.ClientError.Security.CredentialsExpired" ∨
                 Code n = "Neo.ClientError.Security.Forbidden" ∨
                 Code n = "Neo.ClientError.Security.Unauthorized")
      then InvalidAuthenticationError e else e
  | _ => e
  end.

Definition VerifyAuthentication (auth : option A) : D (option error) :=
  r ← with_session (CombineErrors show)
        (mkSessionConfig WriteMode [] "system" 0 "" None no_notifications auth None true)
        (λ st env,
           r ← verifyAuthentication (H0 := env) show st;
           mret (match r with inl e => inl (verification_error e) | inr x => inr x end)) id;
  mret r.2.

Definition close_pool : D unit := λ w,
  match pool_Close (w_conns w, w_env w) with
  | Done (_, (cs, e)) => Done (tt, w <| w_conns := cs |> <| w_env := e |>)
  | Panic => Panic
  | OutOfFuel => OutOfFuel
  end.

Definition driver_Close : D unit :=
  o ← go_get w_open;
  if negb o then mret tt
  else go_modify (λ w, w <| w_open := false |>);; close_pool.

(** ** ExecuteQuery *)

(** [sync.Once] *)
Definition ExecuteQueryBookmarkManager : D M :=
  m ← go_get w_manager;
  match m with
  | Some m => mret m
  | None =>
      m ← on_w_env NewBookmarkManager;
      go_modify (λ w, w <| w_manager := Some m |>);;
      mret m
  end.

Section Query.
Context {T : Type}.
(** Whether a value of [T] is the nil interface. *)
Variable nil_interface : T → bool.
Variable query : string.
Variable parameters : gomap goval.

Section Callback.
Context `{Environment C E}.
Variable st : settings.

(** [for cursor.Next(ctx) \{ transformer.Accept(cursor.Record()) \}] *)
Fixpoint accept_loop (fuel : nat) (tr : ResultTransformer T) (cursor : nat) (acc : tr_state tr) :
    S_ (error + tr_state tr) :=
  match fuel with
  | O => go_nofuel
  | S fuel =>
      more ← result_Next show st cursor;
      if more : bool then
        x ← the_result cursor;
        match Accept tr (result_Record x) acc with
        | (Some e, _) => mret (inl e)
        | (None, acc) => accept_loop fuel tr cursor acc
        end
      else mret (inr acc)
  end.

Definition executeQueryCallback (fuel : nat) (newTransformer : option (ResultTransformer T))
    (tx : managedTransaction) : S_ (error + T) :=
  match newTransformer with
  | None =>
      mret (inl (UsageError ("expected the result transformer function to return a valid " +:+
                             "ResultTransformer instance, but got nil")))
  | Some tr =>
      cursor ←? managed_Run show st tx query parameters;
      acc ←? accept_loop fuel tr cursor (tr_start tr);
      x ← the_result cursor;
      match result_Err show x with
      | Some e => mret (inl e)
      | None =>
          keys ←? result_Keys st cursor;
          result_Consume show st cursor ;?
          x ← the_result cursor;
          mret (Complete tr keys (resultSummary.toResultSummary x) acc)
      end
  end.
End Callback.

Definition unsupportedRouting (n : Z) : error :=
  ErrorString ("unsupported routing control, expected 0 (Write) or 1 (Read) but got: " +:+ pretty n).

Definition selectTxFunctionApi (c : RoutingControl) : error + AccessMode :=
  match c with
  | Read => inr ReadMode
  | Write => inr WriteMode
  | OtherRouting n => inl (unsupportedRouting n)
  end.

(** [newResultTransformer] is the function, nil or not, and what it returns.  The first
    fuel bounds the attempts, the second the records of one attempt. *)
Definition ExecuteQuery_ (attempts fuel : nat) (newResultTransformer : option (option (ResultTransformer T)))
    (opts : list (ExecuteQueryConfiguration A M → ExecuteQueryConfiguration A M)) :
    D (option T * option error) :=
  match newResultTransformer with
  | None =>
      mret (None, Some (UsageError ("nil is not a valid ResultTransformer function argument. Consider passing " +:+
        "EagerResultTransformer or a function that returns an instance of your own ResultTransformer " +:+
        "implementation")))
  | Some newTransformer =>
      manager ← ExecuteQueryBookmarkManager;
      let c := foldl (λ c f, f c) (mkQueryConfig Write "" "" (Some manager) [] None) opts in
      let tc := foldl (λ t f, f t) defaultTransactionConfig (TransactionConfigurers c) in
      r ← with_session (λ e c, CombineAllErrors show [e; c]) (toSessionConfig c)
            (λ st env,
               let work tx := executeQueryCallback (H0 := env) st fuel newTransformer tx in
               match selectTxFunctionApi (Routing c) with
               | inl e => mret (inl e)
               | inr ReadMode => executeQueryRead (H0 := env) show show_duration st work attempts tc
               | inr WriteMode => executeQueryWrite (H0 := env) show show_duration st work attempts tc
               end)
            (λ e, match selectTxFunctionApi (Routing c) with inl e => e | inr _ => e end);
      match r.1 with
      | Some x => if nil_interface x then go_panic else mret r
      | None => mret r
      end
  end.
End Query.
End Driver.
