(* ===== verification/DriverFacts.v ===== *)
(** What a driver is made of follows from its URL and configuration, and what
    [ExecuteQuery] does with the connections of the pool. *)

From S2P Require Import Prelude Values Errors Messages Outgoing Router Retry Bolt Connection Bookmarks Session.
From S2P Require Import Encoding Encryption HomeDb ResultSummary Driver DriverQueries SessionFacts.
From stdpp Require Import gmap.
#[local] Open Scope Z_scope.
#[local] Open Scope go_scope.
Import gostrings url config driver.

(** * Hosts and ports *)

Lemma after_colon_app l p : Byte.x3a ∉ p → after_colon (l ++ Byte.x3a :: p) = Some p.
Proof.
  intros Hp. assert (Hn : after_colon p = None).
  { induction p as [| b p IH]; [done |]. cbn [after_colon]. rewrite IH by set_solver.
    case_decide; set_solver. }
  induction l as [| b l IH]; cbn [after_colon app]; [by rewrite Hn |]. by rewrite IH.
Qed.

(** A host to which a port is added keeps its name, unless it ends in a colon. *)
Lemma split_with_port l p :
  Byte.x3a ∉ p → forallb digit p = true → splitHostPort (l ++ Byte.x3a :: p) = (unbracket l, p).
Proof.
  intros Hp Hd. unfold splitHostPort. rewrite after_colon_app, Hd by done. f_equal.
  rewrite length_app. simpl. replace (length l + S (length p) - length p - 1)%nat with (length l) by lia.
  by rewrite take_app_length.
Qed.

Lemma split_without_port l :
  (splitHostPort l).2 = [] → after_colon l ≠ Some [] → (splitHostPort l).1 = unbracket l.
Proof.
  unfold splitHostPort. destruct (after_colon l) as [p |]; [| done].
  destruct (forallb digit p); [| done]. intros Hp. simpl in Hp. by subst.
Qed.

Definition default_port : list byte := bytes_of "7687".

Lemma bytes_of_app (a b : string) : bytes_of (a +:+ b) = bytes_of a ++ bytes_of b.
Proof. induction a as [| c a IH]; [done |]. change (bytes_of (String c a +:+ b)) with (Ascii.byte_of_ascii c :: bytes_of (a +:+ b)). by rewrite IH. Qed.

Lemma split_default h : splitHostPort (bytes_of (h +:+ ":7687")) = (unbracket (bytes_of h), default_port).
Proof.
  rewrite bytes_of_app. apply (split_with_port _ default_port); [| done].
  by apply (bool_decide_unpack _).
Qed.

Lemma string_of_nil l : string_of l = "" → l = [].
Proof. intros Hl. rewrite <- (bytes_of_string_of l), Hl. done. Qed.

(** ** The routing context *)

Lemma routing_entries_spec l ctx ctx' :
  routing_entries l ctx = inr ctx' →
  (∀ k v, map_get k ctx' = Some v →
     map_get k ctx = Some v ∨ k ≠ "address" ∧ v ≠ "" ∧ ∃ raw, (k, [raw]) ∈ l ∧ v = TrimSpace raw) ∧
  (∀ k vs, (k, vs) ∈ l → is_Some (map_get k ctx') ∧ k ≠ "address" ∧ length vs = 1%nat) ∧
  (∀ k, is_Some (map_get k ctx) → is_Some (map_get k ctx')).
Proof.
  revert ctx. induction l as [| [k vs] l IH]; intros ctx; simpl.
  { intros E0. injection E0 as <-. split_and!; [eauto | set_solver | done]. }
  destruct vs as [| raw [|]]; try done. case_decide as Hv; [done |]. case_decide as Hk; [done |].
  intros (H1 & H2 & H3)%IH. split_and!.
  - intros k' v' E0. destruct (H1 k' v' E0) as [Hg | (? & ? & r & ? & ?)].
    + rewrite map_get_set in Hg. case_decide; [| by left]. injection Hg as <-. subst.
      right. split_and!; try done. exists raw. split; [left | done].
    + right. split_and!; try done. exists r. split; [by right | done].
  - intros k' vs'. rewrite elem_of_cons. intros [E0 | Hin]; [| by apply H2].
    injection E0 as -> ->. split_and!; try done. apply H3. rewrite map_get_set, decide_True by done. by eexists.
  - intros k' Hs. apply H3. rewrite map_get_set. case_decide; [by eexists | done].
Qed.

(** * New drivers *)

Section NewDriver.
Context {A W : Type}.
Variable url_Parse : string → error + URL.
Variable url_Query : URL → gomap (list string).
Variable log : retry.float64 → retry.float64.

Definition routes (d : driver A W) : bool :=
  match d_router d with routed _ _ _ => true | direct _ => false end.

Definition initial_router (d : driver A W) : string :=
  match d_router d with routed a _ _ => a | direct a => a end.

(** What the documentation of [NewDriver] says about the schemes. *)
Definition routing_schemes : list string := ["neo4j"; "neo4j+s"; "neo4j+ssc"].
Definition direct_schemes : list string := ["bolt"; "bolt+s"; "bolt+ssc"; "bolt+unix"].
Definition secure_schemes : list string := ["neo4j+s"; "neo4j+ssc"; "bolt+s"; "bolt+ssc"].
Definition trusting_schemes : list string := ["neo4j+ssc"; "bolt+ssc"].

Lemma scheme_settings_spec u routing conn address :
  scheme_settings u = inr (routing, conn, address) →
  Scheme u ∈ routing_schemes ++ direct_schemes ∧
  routing = bool_decide (Scheme u ∈ routing_schemes) ∧
  negb (SkipEncryption conn) = bool_decide (Scheme u ∈ secure_schemes) ∧
  SkipVerify conn = bool_decide (Scheme u ∈ trusting_schemes) ∧
  (if decide (Scheme u = "bolt+unix") then Network conn = "unix" ∧ Host u = "" ∧ address = Path u
   else Network conn = "tcp" ∧ address = Host u).
Proof.
  unfold scheme_settings. destruct u as [sc ho pa qu]. cbn [Scheme Host Path].
  let finish := (intros E0; injection E0 as <- <- <-; split; [by apply (bool_decide_unpack _) | done]) in
  let scheme x := (destruct (decide (sc = x)) as [-> |]; [first [finish |
    destruct (decide (ho ≠ "")) as [| Hh%dec_stable]; [done | subst; finish]] |]) in
  scheme "bolt"; scheme "bolt+unix"; scheme "bolt+s"; scheme "bolt+ssc"; scheme "neo4j"; scheme "neo4j+ssc";
  scheme "neo4j+s".
  done.
Qed.

(** ** The configuration *)

Record normalised (c : Config W) : Prop := {
  no_retries : 0 <= MaxTransactionRetryTime c;
  no_pool : 1 <= MaxConnectionPoolSize c;
  no_lifetime : 1 <= MaxConnectionLifetime c;
  no_acquisition : -1 <= ConnectionAcquisitionTimeout c;
  no_liveness : 0 <= ConnectionLivenessCheckTimeout c;
  no_connect : 0 <= SocketConnectTimeout c;
  no_filters : dis_names (DisCats (config.Notifications c)) = [] ∨ dis_names (DisClas (config.Notifications c)) = []
}.

Lemma validate_normalises (c c' : Config W) : validateAndNormaliseConfig c = inr c' → normalised c'.
Proof.
  unfold validateAndNormaliseConfig, MaxInt32, MaxInt64. intros E0. repeat (case_match; try done).
  all: injection E0 as <-; constructor; simpl; zbool; try lia.
  all: repeat case_bool_decide; simpl in *; try done; tauto.
Qed.

(** ** The parts *)

Definition follows (u : URL) (d : driver A W) : Prop :=
  let t := d_target d in
  Scheme u ∈ routing_schemes ++ direct_schemes ∧
  routes d = bool_decide (Scheme u ∈ routing_schemes) ∧
  IsEncrypted d = bool_decide (Scheme u ∈ secure_schemes) ∧
  SkipVerify (d_connector d) = bool_decide (Scheme u ∈ trusting_schemes) ∧
  initial_router d = (if decide (Scheme u = "bolt+unix") then Path u else Host t) ∧
  (Host u ≠ "" → Port t = if decide (Port u = "") then "7687" else Port u) ∧
  (after_colon (bytes_of (Host u)) ≠ Some [] → Hostname t = Hostname u) ∧
  (routes d = false → RawQuery u = "" ∧ RoutingContext (d_connector d) = None) ∧
  (routes d = true → ∃ ctx, RoutingContext (d_connector d) = Some ctx ∧
     map_get "address" ctx = Some (Host t) ∧
     (∀ k vs, (k, vs) ∈ url_Query t → is_Some (map_get k ctx)) ∧
     ∀ k v, k ≠ "address" → map_get k ctx = Some v →
       v ≠ "" ∧ ∃ raw, (k, [raw]) ∈ url_Query t ∧ v = TrimSpace raw) ∧
  normalised (d_config d) ∧ d_open d = true.

(** The URL with the default port. *)
Definition ported (u : URL) : URL :=
  if decide (Host u ≠ "" ∧ Port u = "")
  then mkURL (Scheme u) (Host u +:+ ":7687") (Path u) (RawQuery u) else u.

Lemma ported_host u :
  (Host u ≠ "" → Port (ported u) = if decide (Port u = "") then "7687" else Port u) ∧
  (after_colon (bytes_of (Host u)) ≠ Some [] → Hostname (ported u) = Hostname u).
Proof.
  unfold ported. case_decide as Hd; [destruct Hd as [Hh Hp] |].
  - split; [intros _; rewrite decide_True by done | intros Hc]; unfold Port, Hostname; cbn [Host];
      rewrite split_default; [done |]. unfold Port in Hp.
    by rewrite (split_without_port (bytes_of (Host u))) by (done || by apply string_of_nil).
  - split; [| done]. intros Hh. case_decide; [| done]. by destruct Hd.
Qed.

Lemma routingContext_spec routing u ctx :
  routingContextFromUrl url_Query routing u = inr ctx →
  if routing then ∃ c, ctx = Some c ∧ map_get "address" c = Some (Host u) ∧
     (∀ k vs, (k, vs) ∈ url_Query u → is_Some (map_get k c)) ∧
     ∀ k v, k ≠ "address" → map_get k c = Some v → v ≠ "" ∧ ∃ raw, (k, [raw]) ∈ url_Query u ∧ v = TrimSpace raw
  else ctx = None.
Proof.
  unfold routingContextFromUrl. destruct routing; simpl; [| by intros [= <-]].
  destruct (routing_entries _ _) as [p | c] eqn:E0; [done |]. intros E1. injection E1 as <-.
  apply routing_entries_spec in E0 as (H1 & H2 & _). eexists. split; [reflexivity |].
  unfold routingContextAddressKey. split_and!.
  - by rewrite map_get_set, decide_True.
  - intros k vs Hin. destruct (H2 k vs Hin) as (? & ? & _). by rewrite map_get_set, decide_False.
  - intros k v Hk. rewrite map_get_set, decide_False by done. intros Hg.
    destruct (H1 k v Hg) as [| (_ & ? & ?)]; [done | by split].
Qed.

Lemma assemble_spec u routing conn address (auth : option A) configurers (d : driver A W) :
  assemble url_Query log u routing conn address auth configurers = inr d →
  d_target d = u ∧ routes d = routing ∧ initial_router d = address ∧ d_auth d = auth ∧ d_open d = true ∧
  IsEncrypted d = negb (SkipEncryption conn) ∧ SkipVerify (d_connector d) = SkipVerify conn ∧
  normalised (d_config d) ∧ routingContextFromUrl url_Query routing u = inr (RoutingContext (d_connector d)).
Proof.
  unfold assemble. destruct (validateAndNormaliseConfig _) as [| c] eqn:Ec; [done |].
  destruct (encryption.New _) as [| enc]; [done |].
  destruct (routingContextFromUrl _ _ _) as [| ctx] eqn:Ex; [done |].
  destruct (homedb.NewCache _ _) as [| cache]; [done |]. intros E0. injection E0 as <-.
  apply validate_normalises in Ec. unfold routes, initial_router, new_router. simpl.
  destruct routing; done.
Qed.

(** C33. A driver follows its URL: whenever [NewDriver] returns a driver, it routes,
    encrypts and verifies exactly as the scheme says; the server it starts from is
    the host of the URL, with the port of the URL or else 7687 (and the host name
    is kept unless the URL ends in a bare colon); the routing context has the
    address and each value of the query, trimmed and not empty, and is absent, like
    the query, for direct drivers; and the configuration is within its bounds. *)
Theorem driver_follows_url target u (auth : option A) configurers (d : driver A W) :
  url_Parse target = inr u →
  NewDriver url_Parse url_Query log target auth configurers = inr d → follows u d.
Proof.
  intros Hu. unfold NewDriver. rewrite Hu.
  destruct (scheme_settings u) as [p | [[routing conn] address]] eqn:Es; [done |].
  apply scheme_settings_spec in Es as (S1 & S2 & S3 & S4 & S5).
  assert (Ep : (if decide (Host u ≠ "" ∧ Port u = "")
     then (address +:+ ":7687", mkURL (Scheme u) (address +:+ ":7687") (Path u) (RawQuery u))
     else (address, u)) = (if decide (Scheme u = "bolt+unix") then Path u else Host (ported u), ported u)).
  { unfold ported. destruct (decide (Scheme u = "bolt+unix")); destruct S5 as [_ S5].
    - destruct S5 as [Hh ->]. rewrite !decide_False by tauto. done.
    - subst address. by destruct (decide (Host u ≠ "" ∧ Port u = "")). }
  rewrite Ep. destruct (negb routing && _) eqn:Eq; [done |].
  intros (R0 & R1 & R2 & _ & R3 & R4 & R5 & R6 & R7)%assemble_spec.
  apply routingContext_spec in R7. destruct (ported_host u) as [P1 P2].
  assert (Hraw : RawQuery (ported u) = RawQuery u) by (unfold ported; by destruct (decide (Host u ≠ "" ∧ Port u = ""))).
  unfold follows. rewrite R0, R1, R2, R4, R5. split_and!; try done; intros Hr; rewrite Hr in *; [| done].
  split; [| done]. rewrite <- Hraw. simpl in Eq. by case_bool_decide.
Qed.

(** The token manager is what was given, also when that is nil. *)
Lemma driver_keeps_auth target (auth : option A) configurers (d : driver A W) :
  NewDriver url_Parse url_Query log target auth configurers = inr d → d_auth d = auth.
Proof.
  unfold NewDriver. destruct (url_Parse target) as [| u]; [done |].
  destruct (scheme_settings u) as [| [[routing conn] address]]; [done |].
  case_decide; (destruct (negb routing && _); [done |]); by intros (_ & _ & _ & ? & _)%assemble_spec.
Qed.
End NewDriver.

(** A routing driver with a routing context. *)
Definition sample_parse (target : string) : error + URL :=
  inr (mkURL "neo4j+s" "example.com" "" "policy=%20eu").

Definition sample_query (u : URL) : gomap (list string) := [("policy", [" eu"])].

Definition sample_driver : problem + driver unit unit :=
  NewDriver sample_parse sample_query (λ _, HomeDbFacts.log1000) "neo4j+s://example.com?policy=%20eu" None [].

Lemma driver_follows_url_witness :
  match sample_driver with
  | inr d => follows sample_query (mkURL "neo4j+s" "example.com" "" "policy=%20eu") d ∧
      RoutingContext (d_connector d) = Some [("policy", "eu"); ("address", "example.com:7687")]
  | inl _ => False
  end.
Proof.
  destruct sample_driver as [p | d] eqn:E0; [by vm_compute in E0 |]. split.
  - apply (driver_follows_url sample_parse sample_query (λ _, HomeDbFacts.log1000)
      "neo4j+s://example.com?policy=%20eu" _ None [] d); [reflexivity | exact E0].
  - vm_compute in E0. by injection E0 as <-.
Defined.

(** * Connections of the driver's own calls *)

Section Returned.
Context {C E A M T : Type} `{idb.Connection C}.
Variable surroundings : option M → Environment C E.
Variable NewBookmarkManager : GoM E M.
Variable cache_Get : string → GoM E (option string).
Variable show : error → string.
Variable show_duration : Z → string.
Variable cfg : driverConfig.
(** Every session lends from the same pool; bookmark manager and cache do not. *)
Variable lending : ∀ m, @Lending C E (surroundings m).
Variable on_loan : E → gset nat.
Hypothesis one_pool : ∀ m e, lent (Lending := lending m) e = on_loan e.
Hypothesis manager_apart : ∀ e m e', NewBookmarkManager e = Done (m, e') → on_loan e' = on_loan e.
Hypothesis cache_apart : ∀ k e g e', cache_Get k e = Done (g, e') → on_loan e' = on_loan e.
Abbreviation world := (world C E M).

Definition borrowed (w : world) : gset nat := on_loan (w_env w).

Definition returns {R} (m : GoM world R) : Prop := ∀ w r w', m w = Done (r, w') → borrowed w' = borrowed w.

Lemma call_returns_ret {R} (r : R) : returns (mret r).
Proof. intros w r' w' E0. by injection E0 as _ <-. Qed.

Lemma call_returns_bind {R S} (m : GoM world R) (k : R → GoM world S) :
  returns m → (∀ r, returns (k r)) → returns (m ≫= k).
Proof.
  intros Hm Hk w s w' E0. apply bind_Done in E0 as (r & w1 & E1 & E2).
  by rewrite (Hk _ _ _ _ E2), (Hm _ _ _ E1).
Qed.

Lemma call_returns_get {R} (f : world → R) : returns (go_get f).
Proof. intros w r w' E0. by injection E0 as _ <-. Qed.

Lemma call_returns_env {R} (m : GoM E R) :
  (∀ e r e', m e = Done (r, e') → on_loan e' = on_loan e) → returns (on_w_env (C := C) (M := M) m).
Proof.
  intros Hm w r w' E0. unfold on_w_env in E0. destruct (m (w_env w)) as [[r1 e] | |] eqn:E1; try done.
  injection E0 as _ <-. by apply Hm in E1.
Qed.

Lemma NewSession_spec (sc : SessionConfig A M) w r w' :
  NewSession surroundings cache_Get sc w = Done (r, w') →
  borrowed w' = borrowed w ∧
  ∀ s, r = inr s → ∃ db bms key guess, s = newSession (w_conns w') (w_env w') db bms key guess.
Proof.
  intros E0. unfold NewSession in E0. apply bind_Done in E0 as (o & w1 & E1 & E2).
  injection E1 as <- <-. destruct (w_open w); simpl in E2; [| by injection E2 as <- <-].
  apply bind_Done in E2 as (k & w2 & E2 & E3). apply bind_Done in E3 as (g & w3 & E3 & E4).
  apply bind_Done in E4 as (w4 & w5 & E4 & E5). injection E4 as <- <-. injection E5 as <- <-. split.
  - rewrite (call_returns_env _ (cache_apart _) _ _ _ E3).
    refine (call_returns_env _ _ _ _ _ E2). intros e a e' E0. rewrite <- !(one_pool (sc_BookmarkManager sc)).
    by eapply lent_ComputeKey.
  - intros s E0. injection E0 as <-. by eexists _, _, _, _.
Qed.

(** What is done in a session of its own, which is closed at the end. *)
Lemma with_session_returns {R} combine (sc : SessionConfig A M)
    (use : settings → Environment C E → GoM session (error + R)) on_closed :
  (∀ st, keeps (H1 := lending (sc_BookmarkManager sc)) (use st (surroundings (sc_BookmarkManager sc)))) →
  returns (with_session surroundings cache_Get show cfg combine sc use on_closed).
Proof.
  intros Hu w r w' E0. unfold with_session in E0. apply bind_Done in E0 as (s & w1 & E1 & E2).
  destruct (NewSession_spec sc w s w1 E1) as [Hb Hs]. destruct s as [e | s]; [by injection E2 as _ <- |].
  destruct (Hs s eq_refl) as (db & bms & key & guess & ->). unfold in_session in E2.
  match type of E2 with match ?m with _ => _ end = _ => destruct m as [[x s1] | |] eqn:E3; try done end.
  injection E2 as _ <-. rewrite <- Hb.
  apply bind_Done in E3 as (y & s2 & E3 & E4). apply bind_Done in E4 as (c & s3 & E4 & E5).
  injection E5 as _ <-. set (L := lending (sc_BookmarkManager sc)).
  pose proof (new_inv (H1 := L) (w_conns w1) (w_env w1) db bms key guess) as Hi.
  apply (Hu _ _ _ _ _ Hi) in E3. apply (Close_spec _ _ _ _ _ _ E3) in E4 as (Hi' & G1 & G2).
  pose proof (inv_lent _ _ _ Hi') as Hl. unfold held in Hl. rewrite G1, G2 in Hl. simpl in Hl.
  unfold borrowed. simpl. rewrite !one_pool in Hl. set_solver.
Qed.

Lemma client_accept `{Environment C E} st (tr : ResultTransformer T) fuel cursor acc :
  client show show_duration st _ (accept_loop show st fuel tr cursor acc).
Proof.
  revert acc. induction fuel as [| fuel IH]; intros acc; simpl; [apply client_diverges |].
  apply client_bind; [apply client_Next | intros []]; [| apply client_ret].
  apply client_bind; [apply client_result | intros x].
  destruct (Accept tr _ acc) as [[e |] acc']; [apply client_ret | apply IH].
Qed.

Lemma client_Callback `{Environment C E} st fuel query params (newTransformer : option (ResultTransformer T)) tx :
  client show show_duration st _ (executeQueryCallback show query params st fuel newTransformer tx).
Proof.
  unfold executeQueryCallback. destruct newTransformer as [tr |]; [| apply client_ret].
  apply client_bind; [apply client_managed_Run | intros [e | cursor]]; [apply client_ret |].
  apply client_bind; [apply client_accept | intros [e | acc]]; [apply client_ret |].
  apply client_bind; [apply client_result | intros x].
  destruct (result_Err show x); [apply client_ret |].
  apply client_bind; [apply client_Keys | intros [e | keys]]; [apply client_ret |].
  apply client_bind; [apply client_Consume | intros [e | ?]]; [apply client_ret |].
  apply client_bind; [apply client_result | intros x2; apply client_ret].
Qed.
Lemma call_returns_manager : returns (ExecuteQueryBookmarkManager (C := C) NewBookmarkManager).
Proof.
  apply call_returns_bind; [apply call_returns_get | intros [m |]]; [apply call_returns_ret |].
  apply call_returns_bind; [apply call_returns_env, manager_apart | intros m].
  apply call_returns_bind; [| intros _; apply call_returns_ret]. intros w r w' E0. by injection E0 as _ <-.
Qed.

(** C5. The driver's own calls leave no connection borrowed: after [ExecuteQuery] with
    any transformer and options, [GetServerInfo] or [VerifyAuthentication], however
    they end and whatever pool, router and servers answer, what is on loan is what
    was on loan before. *)
Theorem driver_calls_return nil_interface query params attempts fuel
    (newResultTransformer : option (option (ResultTransformer T)))
    (opts : list (ExecuteQueryConfiguration A M → ExecuteQueryConfiguration A M)) (auth : option A) :
  returns (ExecuteQuery_ surroundings NewBookmarkManager cache_Get show show_duration cfg nil_interface
             query params attempts fuel newResultTransformer opts) ∧
  returns (GetServerInfo (A := A) surroundings cache_Get show cfg) ∧
  returns (VerifyAuthentication surroundings cache_Get show cfg auth).
Proof.
  split_and!.
  - unfold ExecuteQuery_. destruct newResultTransformer as [newTransformer |]; [| apply call_returns_ret].
    apply call_returns_bind; [apply call_returns_manager | intros manager]. apply call_returns_bind.
    + apply with_session_returns. intros st. simpl.
      destruct (selectTxFunctionApi _) as [e | []]; [apply session_keeps_ret | ..];
        apply keeps_runRetriable; intros tx; eapply (keeps_client show show_duration), client_Callback.
    + intros [[x |] e]; simpl; [| apply call_returns_ret].
      destruct (nil_interface x); [by intros w r w' | apply call_returns_ret].
  - apply with_session_returns. intros st. eapply (keeps_client show show_duration), client_ServerInfo.
  - apply call_returns_bind; [| intros r; apply call_returns_ret]. apply with_session_returns. intros st.
    apply session_keeps_bind; [eapply (keeps_client show show_duration), client_Verify |].
    intros r. apply session_keeps_ret.
Qed.
End Returned.
