(* ===== verification/QueryTraces.v ===== *)
(** [ExecuteQuery] from end to end: driver, session, transaction, result, connection
    and server, each the whole component. *)

From S2P Require Import Prelude Values Errors Messages Outgoing Router Retry Bolt BoltLogic BoltServer.
From S2P Require Import BoltStreams BoltTransactions Connection Bookmarks Session SessionFacts ResultFacts.
From S2P Require Import SessionTraces ResultSummary DriverQueries DriverFacts.
From stdpp Require Import gmap.
#[local] Open Scope Z_scope.
#[local] Open Scope go_scope.

(** * The session while the query runs *)

Section Query.
Variable cfg : settings.
Variable cypher : string.
Variable params : gomap goval.
Abbreviation session := (session (C := conn) (E := solo)).

(** The session [s] when its only connection is [b] and it has results [l]. *)
Definition at_ (s : session) (b : conn) (l : list result) : session :=
  s <| ss_conns := [b] |> <| ss_results := l |>.

(** A result of stream [h]. *)
Definition cursor_of (h t : nat) (record : option Record_) (summary : option Summary_) : result :=
  mkResult 0 h cypher params record summary None None None false t None.

Definition keyed (r : Record_) : Record_ := r <| rec_Keys := fields_of_results |>.

Lemma on_conn_at {A} (m : GoM conn A) a b b' l (s : session) :
  m b = Done (a, b') → n_calls (b_world b') = [] → on_conn cfg 0 m (at_ s b l) = Done (a, at_ s b' l).
Proof.
  intros Hm Hc. rewrite (on_conn_quiet cfg 0 m b a b' b'); [done | done | done |].
  by apply (no_calls shown V5 17).
Qed.

(** ** The records *)

Lemma Next_at h t record record' summary b b' (s : session) :
  Next shown V5 20 (Some h) b = Done ((record', summary, None), b') → n_calls (b_world b') = [] →
  result_Next shown cfg 0 (at_ s b [cursor_of h t record None]) =
    Done (some record', at_ s b' [cursor_of h t record' summary]).
Proof.
  intros Hn Hc. unfold result_Next.
  rewrite (bind_eq _ _ _ tt (at_ s b [cursor_of h t record None])) by done.
  rewrite (bind_eq _ _ _ (cursor_of h t record None) (at_ s b [cursor_of h t record None])) by done.
  cbn [r_err cursor_of some].
  rewrite (bind_eq _ _ _ tt (at_ s b' [cursor_of h t record' summary])); [by destruct summary |].
  unfold advance. rewrite (bind_eq _ _ _ (cursor_of h t record None) (at_ s b [cursor_of h t record None])) by done.
  cbn [r_peeked cursor_of].
  rewrite (bind_eq _ _ _ (record', summary, None) (at_ s b' [cursor_of h t record None])) by
    (by apply on_conn_at). done.
Qed.

Lemma accept_all hd h t st now later record b acc fuel (s : session) :
  delivering true hd h st now later b → (length (now ++ later) < fuel)%nat →
  ∃ sum b', accept_loop shown cfg fuel EagerResultTransformer 0 acc (at_ s b [cursor_of h t record None]) =
      Done (inr (acc ++ (Some ∘ (λ r, r <| rec_Keys := s_keys st |>) <$> now ++ later)),
            at_ s b' [cursor_of h t None (Some sum)]) ∧
    ended true hd h (s_keys st) sum b'.
Proof.
  intros Hb. remember (now ++ later) as l eqn:Hl. revert st now later record b acc fuel Hl Hb.
  induction l as [| r l IH]; intros st now later record b acc [| fuel] Hl Hb Hf; simpl in Hf; try lia.
  - symmetry in Hl. apply app_eq_nil in Hl as [-> ->].
    destruct (finish_next shown V5 true hd 18 h st b Hb) as (sum & b' & E0 & He).
    exists sum, b'. split; [| done]. cbn [accept_loop].
    rewrite (bind_eq _ _ _ _ _ (Next_at h t record None (Some sum) b b' s E0 (en_calls _ _ _ _ _ _ He))).
    simpl. by rewrite app_nil_r.
  - destruct (take_one shown V5 true hd 17 h st now later r l b Hb (eq_sym Hl)) as (b' & now' & later' & E0 & Hb' & Hl').
    destruct (IH _ _ _ (Some (r <| rec_Keys := s_keys st |>)) b' (acc ++ [Some (r <| rec_Keys := s_keys st |>)]) fuel
      Hl' Hb') as (sum & b2 & E2 & He); [lia |].
    exists sum, b2. split; [| done]. cbn [accept_loop].
    rewrite (bind_eq _ _ _ _ _ (Next_at h t record _ None b b' s E0 (dl_calls _ _ _ _ _ _ _ Hb'))).
    rewrite <- app_assoc in E2. exact E2.
Qed.
(** ** The function of the transaction *)

Lemma callback_at hd before t recs b fuel (s : session) :
  begun hd before recs b → (length recs < fuel)%nat →
  let tx := mkManagedTransaction 0 (fetchSize cfg) hd t in
  ∃ h sum b', executeQueryCallback shown cypher params cfg fuel (Some EagerResultTransformer) tx (at_ s b []) =
      Done (inr (mkEagerResult fields_of_results (Some ∘ keyed <$> recs)
                   (Some (resultSummary.mkResultSummary sum cypher params))),
            at_ s b' [cursor_of h t None (Some sum)]) ∧
    ended true (mkOpenTx hd [(cypher, params)] before) h fields_of_results sum b'.
Proof.
  intros Hb Hf tx.
  destruct (RunTx_net shown V5 17 hd before (mkCommand cypher params (fetchSize cfg)) recs b) as (h & st & b1 & E1 & Hd & Hk);
    [done | exact Hb |].
  destruct (accept_all _ h t st _ _ None b1 [] fuel s Hd) as (sum & b2 & E2 & He);
    [by rewrite split_batch_app |].
  rewrite split_batch_app, Hk in E2. rewrite Hk in He. exists h, sum, b2. split; [| done].
  pose proof (en_calls _ _ _ _ _ _ He) as Hc. unfold executeQueryCallback.
  rewrite (bind_eq _ _ _ (inr 0%nat) (at_ s b1 [cursor_of h t None None])).
  2:{ unfold managed_Run. rewrite (bind_eq _ _ _ (inr h) (at_ s b1 [])); [done |].
      apply on_conn_at; [exact E1 | by apply (dl_calls _ _ _ _ _ _ _ Hd)]. }
  rewrite (bind_eq _ _ _ _ _ E2).
  rewrite (bind_eq _ _ _ (cursor_of h t None (Some sum)) (at_ s b2 [cursor_of h t None (Some sum)])) by done.
  change (result_Err shown (cursor_of h t None (Some sum))) with (@None error). cbv iota beta.
  rewrite (bind_eq _ _ _ (inr fields_of_results) (at_ s b2 [cursor_of h t None (Some sum)])).
  2:{ unfold result_Keys. rewrite (bind_eq _ _ _ (cursor_of h t None (Some sum))
        (at_ s b2 [cursor_of h t None (Some sum)])) by done.
      apply on_conn_at; [by eapply Keys_ended | done]. }
  rewrite (bind_eq _ _ _ (inr (Some sum)) (at_ s b2 [cursor_of h t None (Some sum)])); [done |].
  unfold result_Consume. rewrite (bind_eq _ _ _ (cursor_of h t None (Some sum))
    (at_ s b2 [cursor_of h t None (Some sum)])) by done. cbn [r_err cursor_of].
  rewrite (bind_eq _ _ _ tt (at_ s b2 [cursor_of h t None (Some sum)])) by done.
  rewrite (bind_eq _ _ _ (Some sum, None) (at_ s b2 [cursor_of h t None (Some sum)])); [done |].
  apply on_conn_at; [by eapply Consume_ended | done].
Qed.
(** ** The transaction *)

(** The session once the bookmark of the transaction is known. *)
Definition committed (s : session) : session :=
  s <| ss_states := ss_states s ++ [mkTransactionState None []] |>
    <| ss_env := (ss_env s) <| so_updates := so_updates (ss_env s) ++ [([], ["bm"])] |> |>
    <| ss_bookmarks := ["bm"] |>.

Hypothesis with_manager : HasBookmarkManager cfg = true.
Hypothesis own_user : ImpersonatedUser cfg = "".
Hypothesis all_notifications : is_default (Notifications cfg) = true.

Definition collected (recs : list Record_) (sum : Summary_) : EagerResult :=
  mkEagerResult fields_of_results (Some ∘ keyed <$> recs) (Some (resultSummary.mkResultSummary sum cypher params)).

Abbreviation work fuel := (executeQueryCallback shown cypher params cfg fuel (Some EagerResultTransformer)).

Lemma transaction_at mode c recs b fuel (s : session) :
  idle recs b → 0 <= d_next (n_server (b_world b)) → ss_bookmarks s = [] → (length recs < fuel)%nat →
  ∃ sum b' l, in_transaction cfg (work fuel) 0 mode c false (at_ s b []) =
      Done (retry.Completed EagerResult (collected recs sum), at_ (committed s) b' l) ∧
    b_state b' = Ready ∧ n_calls (b_world b') = [] ∧
    d_committed (n_server (b_world b')) = d_committed (n_server (b_world b)) ++ [[(cypher, params)]].
Proof.
  intros Hi Hd Hbm Hf. unfold in_transaction.
  rewrite (bind_eq _ _ _ (inr []) (at_ s b [])).
  2:{ unfold getBookmarks. rewrite bind_get. change (ss_bookmarks (at_ s b [])) with (ss_bookmarks s).
      rewrite Hbm. unfold bookmarks_function. rewrite with_manager. by destruct s. }
  destruct (TxBegin_net shown V5 20 (tx_config cfg mode [] c) recs b) as (hd & b1 & E1 & Hb1);
    [done | done | exact all_notifications | exact own_user |].
  rewrite (bind_eq _ _ _ (inr hd) (at_ s b1 [])).
  2:{ apply on_conn_at; [exact E1 | apply (be_calls _ _ _ _ Hb1)]. }
  set (t := length (ss_states s)). set (s1 := s <| ss_states := ss_states s ++ [mkTransactionState None []] |>).
  rewrite (bind_eq _ _ _ (mkManagedTransaction 0 (fetchSize cfg) hd t) (at_ s1 b1 [])) by done.
  destruct (callback_at hd _ t recs b1 fuel s1 Hb1 Hf) as (h & sum & b2 & E2 & He).
  rewrite (bind_eq _ _ _ _ _ E2).
  destruct (TxCommit_ended shown V5 18 _ h _ sum b2 He) as (b3 & E3 & Hst & Hbk & Hc & Hcm).
  rewrite (bind_eq _ _ _ (inr tt) (at_ s1 b3 [cursor_of h t None (Some sum)])).
  2:{ apply on_conn_at; [exact E3 | exact Hc]. }
  exists sum, b3, [cursor_of h t None (Some sum)]. split.
  - rewrite (bind_eq _ _ _ None (at_ (committed s) b3 [cursor_of h t None (Some sum)])); [done |].
    unfold retrieveBookmarks, see, fmap, GoM_fmap. rewrite (bind_eq _ _ _ (b_bookmark b3)
      (at_ s1 b3 [cursor_of h t None (Some sum)])) by done. rewrite Hbk.
    unfold replaceBookmarks. rewrite with_manager. done.
  - split_and!; [done | done | exact Hcm].
Qed.

(** The connection goes back as it is. *)
Lemma Return_at b l (s : session) :
  b_state b = Ready → n_calls (b_world b) = [] →
  ∃ b', pool_Return cfg 0 (at_ s b l) =
      Done (tt, at_ (s <| ss_env := (ss_env s) <| so_lent := so_lent (ss_env s) ∖ {[0%nat]} |> |>) b' l) ∧
    n_server (b_world b') = n_server (b_world b).
Proof.
  intros Hs Hc. assert (Er : ∃ b', Reset shown V5 20 b = Done (tt, b') ∧ n_calls (b_world b') = [] ∧
    n_server (b_world b') = n_server (b_world b)).
  { unfold Reset, in_state, mbind, GoM_bind, go_get, mret, GoM_ret. rewrite Hs. eexists; split; [reflexivity | split; [exact Hc | reflexivity]]. }
  destruct Er as (b' & E0 & Hc' & Hw). exists b'. split; [| exact Hw]. unfold pool_Return.
  rewrite (bind_eq _ _ _ tt (at_ (s <| ss_env := (ss_env s) <| so_lent := so_lent (ss_env s) ∖ {[0%nat]} |> |>) b' l)).
  - unfold callbacks. rewrite (bind_eq _ _ _ b'
      (at_ (s <| ss_env := (ss_env s) <| so_lent := so_lent (ss_env s) ∖ {[0%nat]} |> |>) b' l)) by done.
    pose proof (no_calls shown V5 17 b' Hc') as En. change (idb.Callbacks b') with (idb.Callbacks (Connection := solo_connection) b') in En.
    by rewrite En.
  - unfold on_env. simpl. by rewrite E0.
Qed.
End Query.

(** * The driver *)

(** The driver's settings, its surroundings and its state at the start; the only
    bookmark manager is [tt]. *)
Definition driver_settings (n : Z) : driverConfig := mkDriverConfig n true false 30000000000 100.

Definition solo_world (results : list (list Record_ * option Neo4jError)) : world conn solo unit :=
  mkWorld true None (solo_conns results) (mkSolo ∅ []).

Abbreviation routing_option readers :=
  (if readers : bool then [options.ExecuteQueryWithReadersRouting] else []).

Definition execute {T} (n : Z) (cypher : string) (params : gomap goval) (attempts fuel : nat)
    (tr : ResultTransformer T)
    (opts : list (ExecuteQueryConfiguration string unit → ExecuteQueryConfiguration string unit)) :
    GoM (world conn solo unit) (option T * option error) :=
  ExecuteQuery_ (λ _, solo_environment) (mret tt) (λ _, mret None) shown showd (driver_settings n) (λ _, false)
    cypher params attempts fuel (Some (Some tr)) opts.

Definition query_settings (n : Z) : settings :=
  session_settings (A := string) (driver_settings n) (toSessionConfig (mkQueryConfig Write "" "" (Some tt) [] None)).

(** The session of the query when it starts, and with its connection. *)
Definition query_session (results : list (list Record_ * option Neo4jError)) : session :=
  newSession (solo_conns results) (mkSolo ∅ []) "" [] "DEFAULT" "".

Lemma query_connection n mode recs rest :
  ∃ s b, getConnection shown (query_settings n) mode
      ((query_session ((recs, None) :: rest)) <| ss_telemetry := false |>) = Done (inr 0%nat, at_ s b []) ∧
    idle recs b ∧ 0 <= d_next (n_server (b_world b)) ∧ d_committed (n_server (b_world b)) = [] ∧
    ss_bookmarks s = [] ∧ ss_env s = mkSolo {[0%nat]} [] ∧
    ss_explicitTx s = None ∧ ss_autocommitTx s = None ∧ ss_closed s = false.
Proof.
  assert (Hs : ∃ s b, getConnection shown (query_settings n) mode
      ((query_session ((recs, None) :: rest)) <| ss_telemetry := false |>) = Done (inr 0%nat, s) ∧
    s = at_ s b [] ∧
    idle recs b ∧ 0 <= d_next (n_server (b_world b)) ∧ d_committed (n_server (b_world b)) = [] ∧
    ss_bookmarks s = [] ∧ ss_env s = mkSolo {[0%nat]} [] ∧
    ss_explicitTx s = None ∧ ss_autocommitTx s = None ∧ ss_closed s = false).
  { destruct mode; eexists _, _; (split; [vm_compute; reflexivity |]); (split; [reflexivity |]); (split; [| done]);
      constructor; try reflexivity; by eexists. }
  destruct Hs as (s & b & E0 & Es & Hr). exists s, b. split; [| done]. by rewrite <- Es.
Qed.

(** One attempt in its session; what is left is closed without effect. *)
Lemma query_retriable n mode cypher params recs rest attempts fuel :
  (length recs < fuel)%nat →
  ∃ sum s, runRetriable shown showd (query_settings n)
      (executeQueryCallback shown cypher params (query_settings n) fuel (Some EagerResultTransformer))
      (S attempts) mode false ExecuteQuery plain (query_session ((recs, None) :: rest)) =
      Done (inr (collected cypher params recs sum), s) ∧
    (∃ b, ss_conns s = [b] ∧ d_committed (n_server (b_world b)) = [[(cypher, params)]]) ∧
    ss_env s = mkSolo ∅ [([], ["bm"])] ∧
    session_Close shown (query_settings n) s = Done (None, s <| ss_closed := true |>).
Proof.
  intros Hf. destruct (query_connection n mode recs rest) as (s & b & Ec & Hi & Hd & Hcm & Hb & He & Hx & Ha & Hcl).
  destruct (transaction_at (query_settings n) cypher params eq_refl eq_refl eq_refl mode plain recs b fuel s Hi Hd Hb Hf)
    as (sum & b1 & l & Et & Hst & Hc & Hcm').
  rewrite Hcm in Hcm'.
  destruct (Return_at (query_settings n) b1 l (committed s) Hst Hc) as (b2 & Er & Hw).
  match type of Er with _ = Done (_, ?s2) => set (s' := s2) in Er end.
  exists sum, s'. split_and!.
  - unfold runRetriable.
    rewrite (bind_eq _ _ _ (inr tt) (query_session ((recs, None) :: rest))) by (vm_compute; reflexivity).
    rewrite (bind_eq _ _ _ tt ((query_session ((recs, None) :: rest)) <| ss_telemetry := false |>)) by done.
    cbn [retry_loop]. rewrite (bind_eq _ _ _ (retry.mkMoment 0 None (retry.of_int 0) None)
      ((query_session ((recs, None) :: rest)) <| ss_telemetry := false |>)) by done.
    destruct (retry.Continue _ _ _ _ _) as [[] state] eqn:Ek; [clear Ek | vm_compute in Ek; done].
    rewrite (bind_eq _ _ _ (retry.Completed EagerResult (collected cypher params recs sum)) s'); [done |].
    unfold executeTransactionFunction.
    rewrite (bind_eq _ _ _ _ _ Ec), bind_get.
    rewrite (bind_eq _ _ _ tt (at_ s b [])) by done.
    rewrite (bind_eq _ _ _ _ _ Et), (bind_eq _ _ _ _ _ Er). reflexivity.
  - exists b2. split; [done |]. rewrite Hw. exact Hcm'.
  - unfold s', at_, committed. simpl. rewrite He. apply (f_equal (λ l, mkSolo l _)). set_solver.
  - subst s'. destruct s. simpl in *. by subst.
Qed.

Lemma NewSession_solo cs e m (sc : SessionConfig string unit) :
  sc_DatabaseName sc = "" → sc_Bookmarks sc = [] →
  NewSession (λ _, solo_environment) (λ _, mret None) sc (mkWorld true m cs e) =
    Done (inr (newSession cs e "" [] "DEFAULT" ""), mkWorld true m cs e).
Proof. intros Hd Hb. unfold NewSession, mbind, GoM_bind, go_get, on_w_env. simpl. by rewrite Hd, Hb. Qed.

(** C1. [ExecuteQuery] from end to end: for every query, parameters, fetch size and
    routing and for every result of the server, the driver begins a transaction in a
    session of its own, hands the transformer exactly the records of the server, in
    order and with the announced keys, and returns them with the keys and a summary
    of this query; the server has committed exactly one transaction, which ran this
    query with these parameters; the bookmark that only COMMIT brings has reached the
    driver's bookmark manager, and no connection is left borrowed.  Driver, session,
    transaction, result, connection and server each are the whole component. *)
Theorem execute_query_collects n readers cypher params attempts recs rest :
  ∃ summary w, execute n cypher params (S attempts) (S (length recs)) EagerResultTransformer
      (routing_option readers) (solo_world ((recs, None) :: rest)) =
      Done ((Some (mkEagerResult fields_of_results (Some ∘ keyed <$> recs) (Some summary)), None), w) ∧
    resultSummary.Text summary = cypher ∧ resultSummary.Parameters summary = params ∧
    (∃ b, w_conns w = [b] ∧ d_committed (n_server (b_world b)) = [[(cypher, params)]]) ∧
    so_updates (w_env w) = [([], ["bm"])] ∧ so_lent (w_env w) = ∅ ∧ w_manager w = Some tt.
Proof.
  destruct (query_retriable n (if readers then ReadMode else WriteMode) cypher params recs rest attempts
    (S (length recs))) as (sum & s & Er & Hcm & He & Ecl); [lia |].
  exists (resultSummary.mkResultSummary sum cypher params).
  assert (Ew : ∃ w, execute n cypher params (S attempts) (S (length recs)) EagerResultTransformer
      (routing_option readers) (solo_world ((recs, None) :: rest)) =
      Done ((Some (collected cypher params recs sum), None), w) ∧ w_conns w = ss_conns s ∧
    w_env w = ss_env s ∧ w_manager w = Some tt).
  { set (w0 := (solo_world ((recs, None) :: rest)) <| w_manager := Some tt |>).
    exists (w0 <| w_conns := ss_conns s |> <| w_env := ss_env s |>).
    split; [| exact (conj eq_refl (conj eq_refl eq_refl))].
    unfold execute, ExecuteQuery_. rewrite (bind_eq _ _ _ tt w0) by reflexivity. cbv zeta.
    rewrite (bind_eq _ _ _ (Some (collected cypher params recs sum), None)
      (w0 <| w_conns := ss_conns s |> <| w_env := ss_env s |>)); [reflexivity |].
    unfold with_session. rewrite (bind_eq _ _ _ (inr (query_session ((recs, None) :: rest))) w0) by
      (apply NewSession_solo; by destruct readers).
    unfold in_session. destruct readers; cbn [foldl options.ExecuteQueryWithReadersRouting];
      rewrite (bind_eq _ _ _ _ _ Er), (bind_eq _ _ _ _ _ Ecl); reflexivity. }
  destruct Ew as (w & E0 & Hcs & Hw & Hm). exists w. rewrite Hcs, Hw, He, Hm.
  split; [exact E0 |]. do 2 (split; [reflexivity |]). split; [exact Hcm |]. auto.
Qed.

(** The hypotheses of [driver_calls_return] hold for this driver. *)
Lemma driver_calls_return_witness :
  let auth : option string := None in
  returns so_lent (ExecuteQuery_ (A := string) (λ _, solo_environment) (mret tt) (λ _, mret None) shown showd
     (driver_settings 1000) (λ _, false) "RETURN 1" [] 1 3 (Some (Some EagerResultTransformer)) []) ∧
  returns so_lent (GetServerInfo (A := string) (M := unit) (λ _, solo_environment) (λ _, mret None) shown
     (driver_settings 1000)) ∧
  returns so_lent (VerifyAuthentication (M := unit) (λ _, solo_environment) (λ _, mret None) shown
     (driver_settings 1000) auth).
Proof.
  intros auth. apply (driver_calls_return (λ _, solo_environment) (mret tt) (λ _, mret None) shown showd
    (driver_settings 1000) (λ _, solo_lending) so_lent).
  - reflexivity.
  - intros e m e' E0. by injection E0 as _ <-.
  - intros k e g e' E0. by injection E0 as _ <-.
Defined.
